(* ===== verification/_CoqProject ===== *)
-Q . S2P
Prelude.v
GoLib.v
Keys.v
Backoff.v
Effects.v
Json.v
Jobs.v
Proto.v
Cron.v
Config.v
Finalise.v
Worker.v
Dispatch.v
Shutdown.v
Queue.v
Wire.v
Schedule.v
Redis.v
RedisInv.v
Inspect.v
Discover.v
Loader.v
Scripter.v
Events.v
Pool.v
Connect.v
Frame.v
Fencing.v
Persist.v
Concurrent.v
Walk.v
Recovery.v
System.v
Delivery.v
Order.v
Upkeep.v
Rate.v
Delay.v
Lifecycle.v
Flight.v
Observe.v
Bench.v
