(* ===== verification/Prelude.v ===== *)
(** * mkq: a verification development for the BullMQ-compatible job queue

    mkq (src/) is a Go library for job queues in Redis that shares its data and
    its Lua scripts with BullMQ. A producer adds jobs ([Queue.Add]) or recurring
    schedules; a worker ([Process]) runs a pool of dispatch slots, each of which
    takes jobs with the moveToActive script, runs the user's handler under a lock
    that a heartbeat goroutine keeps alive, and reports the outcome with one of
    the scripts moveToFinished, retryJob and moveToDelayed; an inspector counts,
    lists and administers jobs; subscribers read the event stream. All shared
    state is in Redis and is changed by the scripts.

    ** How the code is modelled

    The Go code computes, asks its environment something and goes on with the
    answer. A function that does so is a program of type [M A] (Effects): a tree
    whose nodes are requests ([req]: script calls, Redis commands, the clock, the
    user's handler and hooks, goroutine and context operations, logs and
    metrics). [wp m Q] quantifies over every answer of every request, so a
    theorem stated with it, or with [run] against an arbitrary server, holds for
    any behaviour of Redis, of the handler and of the moment of cancellation.
    Theorems about effects on Redis run the same programs against executable
    servers that do what the scripts do. Pure Go functions are Rocq functions;
    [(T, error)] is [res T], an [error] alone is [option err], where [err] keeps
    the wrapping that errors.Is and errors.As look through; a slice expression
    that can panic gives a [may_panic]. Integers are [Z], wrapped with [i64]
    where the code can overflow; float64 is IEEE binary64. Error texts are those
    of the code less the parts made by [%T] and [%v] of foreign values.

    ** Files

    - Prelude: machine integers, durations, options, shared tactics and hints.
    - GoLib: strconv, strings, errors, [any], maps, binary64.
    - Keys: internal/keys/keys.go and the key helpers of mkq.go; version.go.
    - Backoff: backoff.go, the curves and the jitter.
    - Effects: requests, runs, [wp] and its relatives; errors.go's use of chains;
      the script names of internal/lua/loader.go and the event types of events.go.
    - Json: the part of encoding/json that the worker relies on.
    - Jobs: job.go and the decoders of worker.go and queue.go (job HASH, options,
      failure history).
    - Proto: internal/proto, over a msgpack parameter.
    - Cron: cron.go, over a cron-library parameter.
    - Config: worker_options.go, the worker's key lists, [Process].
    - Finalise: worker.go, the retry policy, its hooks and the terminal scripts.
    - Worker: worker.go, handler shim, heartbeat, [processJob], [runJob],
      [tryOnce], [rescheduleNext], the stalled check.
    - Dispatch: worker.go, [dispatchLoop] and [stalledLoop].
    - Shutdown: worker.go, [Stop], [Drain], [beginShutdown] as a step relation
      over any number of concurrent callers.
    - Queue: queue.go and options.go, [Define], [Add], [Get].
    - Wire: what [Add] encodes is what the worker decodes.
    - Schedule: schedule.go, and the schedule followed through [rescheduleNext].
    - Inspect: inspector.go, inspector_list.go, inspector_admin.go,
      job_mutation.go, queue_metrics.go; listings, counts, pause and resume
      against the store of Redis.
    - Discover: [Queues] and [DiscoverQueues] of mkq.go.
    - Loader: internal/lua/preprocess.go. Scripter: internal/lua/loader.go for
      one caller. Flight: the same for any number of concurrent callers, as a
      step relation over the table, the single-flight group and the server.
    - Events: the decoder and the subscription of events.go.
    - Pool: internal/proto/pool.go. Connect: [NewClient] and [Close] of mkq.go.
    - Redis: the keys of one queue and the Lua scripts the worker, the producer
      and the administrator call, as programs of a small state monad that also
      says which jobs a call takes and settles.
    - RedisInv, Fencing, Persist: Hoare triples of these scripts: every job in
      one place, outcomes only under the lock's token, no job deleted unasked.
      Frame: scripts that leave a part of the store alone, whichever part it is.
    - Concurrent: any number of goroutines, each running one of the Go programs
      above, whose script calls interleave on one Redis; crashes, lost replies,
      expiring keys. Walk: what every request of every such program satisfies.
      System: what holds in every reachable state. Rate: the rate limit. Delay:
      delayed jobs, from [Add] to the worker.
    - Recovery: the stalled check followed through the script.
    - Delivery, Order: [Add], [tryOnce] and [dispatchLoop] run one after the
      other on one store, for one job and for any number. Lifecycle: [tryOnce]
      round after round on one job, whatever its handler does. Upkeep: [DrainPending],
      the upserts and [rescheduleNext] on one store, a [clocked] server.
    - Observe: observability.go and the adapters for slog, Prometheus and
      OpenTelemetry. Bench: bench/go/main.go, from the parsed flags to the
      summary; the runs of the handler on the worker's goroutines are a [session].

    ** What the theorems show

    - A job's outcome. [finalise_refines_policy]: one script call, the one the
      retry policy asks for. [runJob_accounts]: every job taken is counted,
      finished or released exactly once. [lifecycle_refines], [retry_budget]:
      against the scripts, any sequence of handler results follows the abstract
      life of a job with an attempt budget. [retry_delay_precedence],
      [delayed_error_keeps_attempts], [heartbeat_joined_before_scripts],
      [heartbeat_lives], [failure_history_complete], [exponential_saturates].
    - The whole queue, under every interleaving of every operation, provided
      custom ids are no numerals, have no colon and name no key of the queue,
      schedule ids have no colon, no token is drawn twice, and two scripts are
      [timely]: a drain meets no due iteration in a list, and a cron upsert no
      other job of the schedule in its slot (what goes wrong otherwise is shown
      by [drain_strands_schedule]).
      [queue_conserves]: every stored job is in exactly one state.
      [outcomes_fenced]: a take is settled at most once, by its taker.
      [jobs_never_lost]: a job is deleted only by its removal, its retention, a
      drain, or the upsert that replaces it.
      [stalled_jobs_recovered]: a job whose worker died goes back to wait.
      [rate_limit_holds]: workers with the same limit are handed no more jobs
      than that between two expiries of its counter; asked is a window of a
      millisecond or more, no limit in the meta HASH, which mkq never writes, and
      that a counter asked for its remaining life has some.
      [delay_starts], [delays_respected], [delays_end]: a delay counts from the
      call of [Add]; the job is held back for all of it, unless somebody promotes,
      removes or drains it or sets up its schedule anew; and the first worker that
      asks for a job after that sets it free, a thousand jobs at a time.
      [add_reaches_handler]: what is added is what the handler gets.
      [jobs_run_in_order]: any number of plain jobs reach a handler that succeeds
      once each, in the order in which they were added.
    - Loops and shutdown. [no_dequeue_after_cancel], [drain_runs_prefetched],
      [stop_releases_prefetched], [dispatch_does_not_spin];
      [shutdown_waits_for_all], [drain_leaves_jobs_alone] and
      [shutdown_can_complete] under every interleaving.
    - Producers. [add_accounts], [options_reach_worker]; [upsert_sound],
      [iterations_inherit], [schedule_limit_exact], [schedule_retention_merges].
    - Schedules on the store. [schedule_starts]: an upsert stores the schedule
      and queues its first iteration; it establishes [scheduled], which
      [schedule_goes_on] keeps while it queues the next iteration in its slot.
    - Inspection. [listing_is_window], [counts_match_listings], [resume_drains],
      [admin_reports_truth], [discover_exact]. [drain_exact]: a drain takes what
      waits and nothing else.
    - Scripts and events. [preprocess_inlines_once], [preprocess_succeeds],
      [run_survives_flush]; under every interleaving of the callers of [Run]
      [single_flight_safe], [calls_return] and [flush_goes_unnoticed], of which
      the one caller of Scripter is a case ([run_is_a_flight]);
      [subscribe_faithful], [nothing_lost_after_first].
    - Resources. [connect_leaks_nothing], [pool_transparent].
    - Observability. [signals_fit_collectors]: no signal makes the Prometheus
      adapter panic or is dropped by it. [done_closed_once], [consume_ends]: the
      benchmark ends when its jobs have run.
    - Supporting facts: [cron_cache_transparent], [queue_key_spaces_disjoint],
      and in the component files the round trips and bounds they rest on.
    - Surprises, each proved on the model: [exponential_zero_delay_jumps],
      [jitter_saturated_overflows], [zero_poll_interval_spins],
      [heartbeat_tick_bounds], [sub_millisecond_every_fires_once],
      [blank_line_between_includes_panics], [dollar_gap_loses_events],
      [numeric_id_collides], [cancellation_spreads], [drain_strands_schedule],
      [early_iteration_ends_schedule].

    ** Fuel and bounds

    Go's [for] loops are [loop fuel body]: the theorems on the dispatcher, the
    heartbeat, the stalled loop and the subscription hold for every [fuel], so
    for every finite prefix of the endless loop, and those that promise an end
    say how many rounds suffice (two for a draining slot, one for a stopped one,
    the number of pages for a scan). The include expansion recurses on the code's
    own depth limit; [preprocess_succeeds] shows it is enough for a tree of that
    depth. A goroutine of Concurrent runs its loop with any fuel, and a reachable
    state is the end of any finite sequence of steps. The retry loop of a life is
    bounded by the list of handler results, one a round.
    [Resume]'s hundred rounds are the code's own cap.

    ** Parameters

    Not in the repository, and so parameters with documented laws: msgpack
    ([Msgpack]; [Codec] adds what cmsgpack.unpack of the scripts reads back,
    [Packs] that encoding succeeds), the scripts' cjson encoder, robfig/cron and the time zone database ([CronLib]), the
    conversion of out-of-range floats, which Go leaves to the architecture
    ([GoArch]), the user's payload codec ([Payload]), Redis' pattern matching
    ([Glob]), the single-flight package (its contract is the step relation of
    Flight), and Redis itself (servers). Each theorem that assumes something of
    them has a witness at a concrete instance.

    ** What is not modelled

    The parsing of the benchmark's command line and the printing of its summary,
    which the flag and json packages do; the empty bodies of the no-op logger and
    meter. The Lua scripts are not Go: they are the environment the
    theorems on Redis assume, and no definition of theirs is claimed to be the
    program's. Redis follows them for the jobs, their places, locks, ids, rate
    limit and deduplication keys; the event stream, the markers, metrics, job
    logs, parents and flows, and the requeueing of a deduplicated job, which mkq
    never asks for, are left out, and times are below 10^14 ms, where Lua's own
    printing of numbers is exact. Scores and counters are exact integers, where
    Redis has doubles for scores (a delayed job's, its millisecond times 4096,
    passes 2^53 in the year 2039) and 64 bits for counters other than the id
    counter. Inspection reads wait lists as they are, without the markers that
    BullMQ kept in them before version 5. *)

From stdpp Require Export base gmap strings list numbers option sorting.
From Stdlib Require Export ZArith Lia Ascii.

#[export] Set Default Proof Using "Type".
#[export] Set Warnings "-register-all,-clear-no-such-hyp".

Open Scope string_scope.
Open Scope list_scope.
Open Scope Z_scope.

(** ** Machine integers

    Go's [int], [int64] and [time.Duration] are 64-bit two's complement
    integers; they are kept as [Z] and every operation that may leave the
    range is followed by [i64], the wrap-around of the hardware. *)

Definition maxInt64 : Z := 9223372036854775807.
Definition minInt64 : Z := -9223372036854775808.
Definition two64 : Z := 18446744073709551616.

Definition i64 (z : Z) : Z := (z + 9223372036854775808) mod two64 - 9223372036854775808.

Definition in64 (z : Z) : Prop := minInt64 ≤ z ≤ maxInt64.

Declare Scope go_scope.
Delimit Scope go_scope with go.
Notation "a +! b" := (i64 (a + b)) (at level 50, left associativity) : go_scope.
Notation "a -! b" := (i64 (a - b)) (at level 50, left associativity) : go_scope.
Notation "a *! b" := (i64 (a * b)) (at level 40, left associativity) : go_scope.
Open Scope go_scope.

(** Durations are nanoseconds. *)
Definition Millisecond : Z := 1000000.
Definition Second : Z := 1000000000.

(** [time.Duration.Milliseconds]: integer division truncating toward zero. *)
Definition Milliseconds (d : Z) : Z := Z.quot d Millisecond.

(** [time.Time] is an absolute count of nanoseconds since the epoch;
    [UnixMilli] is the floor of it in milliseconds. *)
Definition UnixMilli (t : Z) : Z := t / Millisecond.

(** ** Automation *)

Create HintDb go discriminated.
Create Rewrite HintDb gos.
Create Rewrite HintDb logs.

(** Unfold the numeric constants for [lia]. *)
Ltac consts :=
  unfold in64, i64, Milliseconds, UnixMilli, Millisecond, Second, maxInt64, minInt64, two64 in *.

Ltac zbool :=
  repeat match goal with
  | H : (_ <? _) = true |- _ => apply Z.ltb_lt in H
  | H : (_ <? _) = false |- _ => apply Z.ltb_ge in H
  | H : (_ <=? _) = true |- _ => apply Z.leb_le in H
  | H : (_ <=? _) = false |- _ => apply Z.leb_gt in H
  | H : (_ =? _) = true |- _ => apply Z.eqb_eq in H
  | H : (_ =? _) = false |- _ => apply Z.eqb_neq in H
  end.

(** Split every boolean test of the goal on integers, turning the outcome
    into an inequality. *)
Ltac zcases :=
  repeat match goal with
  | |- context [ (?a <? ?b)%Z ] => destruct (Z.ltb_spec a b)
  | |- context [ (?a <=? ?b)%Z ] => destruct (Z.leb_spec a b)
  | |- context [ (?a =? ?b)%Z ] => destruct (Z.eqb_spec a b)
  end.

(** ** Lemmas on 64-bit arithmetic *)

Lemma i64_range z : in64 (i64 z).
Proof. consts. pose proof (Z.mod_pos_bound (z + 9223372036854775808) 18446744073709551616). lia. Qed.

Lemma i64_id z : in64 z → i64 z = z.
Proof. consts. intros. rewrite Z.mod_small; lia. Qed.

Lemma i64_add_multiple z k : i64 (z + k * two64) = i64 z.
Proof.
  consts. replace (z + k * 18446744073709551616 + 9223372036854775808)
    with (z + 9223372036854775808 + k * 18446744073709551616) by lia.
  by rewrite Z.mod_add by lia.
Qed.

Lemma Milliseconds_nonneg d : 0 ≤ d → 0 ≤ Milliseconds d.
Proof. intros. unfold Milliseconds. apply Z.quot_pos; [done | consts; lia]. Qed.

Lemma Milliseconds_in64 d : in64 d → in64 (Milliseconds d).
Proof.
  unfold in64, Milliseconds. intros Hd.
  assert (Z.abs (Z.quot d Millisecond) ≤ Z.abs d) as Hb.
  { rewrite <- Z.quot_abs by (consts; lia).
    change (Z.abs Millisecond) with Millisecond.
    rewrite Z.quot_div_nonneg by (consts; lia).
    apply Z.div_le_upper_bound; consts; lia. }
  assert (0 ≤ d → 0 ≤ Z.quot d Millisecond) by (intros; by apply Milliseconds_nonneg).
  assert (d ≤ 0 → Z.quot d Millisecond ≤ 0).
  { intros. apply Z.opp_nonneg_nonpos. rewrite <- Z.quot_opp_l by (consts; lia).
    apply Milliseconds_nonneg. lia. }
  consts. lia.
Qed.

#[export] Hint Resolve i64_range Milliseconds_in64 Milliseconds_nonneg : go.

(** ** Strings as byte sequences

    A Go string is a sequence of bytes; the 256 values of [ascii] are those
    bytes. *)

#[global] Arguments String.append : simpl nomatch.

Fixpoint sdrop (n : nat) (s : string) : string :=
  match n, s with
  | O, _ => s
  | S n', String _ s' => sdrop n' s'
  | S _, EmptyString => EmptyString
  end.

Fixpoint stake (n : nat) (s : string) : string :=
  match n, s with
  | O, _ => EmptyString
  | S n', String c s' => String c (stake n' s')
  | S _, EmptyString => EmptyString
  end.

Definition byte_of (c : Ascii.ascii) : Z := Z.of_N (Ascii.N_of_ascii c).
Definition byte (z : Z) : Ascii.ascii := Ascii.ascii_of_N (Z.to_N z).

Lemma byte_of_range c : 0 ≤ byte_of c < 256.
Proof. unfold byte_of. pose proof (Ascii.N_ascii_bounded c). lia. Qed.

Lemma byte_byte_of c : byte (byte_of c) = c.
Proof. unfold byte, byte_of. rewrite N2Z.id. apply Ascii.ascii_N_embedding. Qed.

Lemma byte_of_byte z : 0 ≤ z < 256 → byte_of (byte z) = z.
Proof. intros. unfold byte, byte_of. rewrite Ascii.N_ascii_embedding; lia. Qed.

Lemma byte_of_inj a b : byte_of a = byte_of b → a = b.
Proof. intros E. rewrite <- (byte_byte_of a), <- (byte_byte_of b). by rewrite E. Qed.

Lemma sapp_assoc (a b c : string) : a +:+ (b +:+ c) = (a +:+ b) +:+ c.
Proof. induction a as [|x a IH]; simpl; congruence. Qed.

Lemma sapp_nil_r (a : string) : a +:+ "" = a.
Proof. induction a as [|x a IH]; simpl; congruence. Qed.

Lemma slength_app (a b : string) : String.length (a +:+ b) = (String.length a + String.length b)%nat.
Proof. induction a as [|x a IH]; simpl; congruence. Qed.

Lemma sapp_inv_head (a b c : string) : a +:+ b = a +:+ c → b = c.
Proof. induction a as [|x a IH]; simpl; [done | intros [= E]; auto]. Qed.

Lemma sdrop_app (a b : string) : sdrop (String.length a) (a +:+ b) = b.
Proof. by induction a. Qed.

Lemma stake_app (a b : string) : stake (String.length a) (a +:+ b) = a.
Proof. induction a as [|x a IH]; simpl; [by destruct b | congruence]. Qed.

Lemma stake_sdrop n (s : string) : stake n s +:+ sdrop n s = s.
Proof. revert n. induction s as [|c s IH]; intros [|n]; simpl; [done..|]. by rewrite IH. Qed.

Lemma sapp_inv_tail (a b c : string) : a +:+ c = b +:+ c → a = b.
Proof.
  intros E. assert (String.length a = String.length b) as L.
  { apply (f_equal String.length) in E. rewrite !slength_app in E. lia. }
  rewrite <- (stake_app a c), <- (stake_app b c), E. by rewrite L.
Qed.

#[export] Hint Rewrite sdrop_app stake_app sapp_nil_r slength_app : gos.

(** Which bytes occur in a string. *)
Fixpoint sIn (c : Ascii.ascii) (s : string) : Prop :=
  match s with
  | EmptyString => False
  | String d s' => c = d ∨ sIn c s'
  end.

Lemma sIn_app c a b : sIn c (a +:+ b) ↔ sIn c a ∨ sIn c b.
Proof. induction a as [|x a IH]; simpl; tauto. Qed.

#[export] Instance sIn_dec c s : Decision (sIn c s).
Proof. induction s; simpl; apply _. Defined.

(** Splitting at the first occurrence of a separator is unambiguous. *)
Lemma sapp_sep_inj c a1 a2 b1 b2 :
  ¬ sIn c a1 → ¬ sIn c a2 →
  a1 +:+ String c b1 = a2 +:+ String c b2 → a1 = a2 ∧ b1 = b2.
Proof.
  revert a2. induction a1 as [|x a1 IH]; intros [|y a2] H1 H2; simpl in *; intros E;
    simplify_eq/=; try tauto.
  destruct (IH a2) as [-> ->]; [tauto.. | done | done].
Qed.

(** Text in which the back quote stands for the double quote. *)
Fixpoint quoted (s : string) : string :=
  match s with
  | EmptyString => EmptyString
  | String c s => String (if byte_of c =? 96 then byte 34 else c) (quoted s)
  end.
