(* ===== verification/GoLib.v ===== *)
(** * The fragments of the Go language and standard library that mkq uses

    Decimal conversion ([strconv]), prefix and suffix tests ([strings]),
    error chains ([errors]), IEEE binary64 arithmetic, the dynamic values
    ([any]) that go-redis and msgpack exchange, and Go maps with string keys.
    Nothing here is mkq's own code: the component files build on it. *)

From S2P Require Import Prelude.
From Stdlib Require Export SpecFloat.

(** ** [strings] *)

Definition HasPrefix (s p : string) : bool := String.prefix p s.

Definition HasSuffix (s p : string) : bool :=
  (String.length p <=? String.length s)%nat &&
  String.eqb (sdrop (String.length s - String.length p) s) p.

(** [strings.Contains]. *)
Fixpoint Contains (s p : string) : bool :=
  String.prefix p s ||
  match s with
  | EmptyString => false
  | String _ s' => Contains s' p
  end.

Lemma HasPrefix_spec s p : HasPrefix s p = true ↔ ∃ t, s = p +:+ t.
Proof.
  unfold HasPrefix. revert p. induction s as [|c s IH]; intros [|d p]; simpl.
  - split; eauto.
  - split; [done | intros [t [=]]].
  - split; eauto.
  - destruct (Ascii.ascii_dec d c) as [->|Hne].
    + rewrite IH. split; intros [t E]; exists t; congruence.
    + split; [done | intros [t [=]]; congruence].
Qed.

Lemma HasSuffix_spec s p : HasSuffix s p = true ↔ ∃ t, s = t +:+ p.
Proof.
  unfold HasSuffix. rewrite andb_true_iff, Nat.leb_le, String.eqb_eq. split.
  - intros [_ E]. exists (stake (String.length s - String.length p) s).
    rewrite <- E at 2. by rewrite stake_sdrop.
  - intros [t ->]. rewrite slength_app. split; [lia|].
    replace (String.length t + String.length p - String.length p)%nat
      with (String.length t) by lia. apply sdrop_app.
Qed.

(** A Go evaluation either returns or panics. *)
Inductive may_panic (A : Type) := Returns (a : A) | Panics.
Arguments Returns {A} a.
Arguments Panics {A}.

(** The slice expression [s[lo:hi]], which panics unless [lo <= hi <= len(s)]. *)
Definition slice (s : string) (lo hi : nat) : may_panic string :=
  if (lo <=? hi)%nat && (hi <=? String.length s)%nat
  then Returns (stake (hi - lo) (sdrop lo s)) else Panics.

(** ** [strconv]: decimal integers *)

Definition digit (d : Z) : Ascii.ascii := byte (48 + d).

Definition is_digit (c : Ascii.ascii) : bool := (48 <=? byte_of c) && (byte_of c <=? 57).

(** Digits of a non-negative number, most significant first, put in front of
    [acc]. *)
Fixpoint fmt_digits (fuel : nat) (n : Z) (acc : string) : string :=
  match fuel with
  | O => acc
  | S f =>
      let acc' := String (digit (n mod 10)) acc in
      if n <? 10 then acc' else fmt_digits f (n / 10) acc'
  end.

(** [strconv.FormatInt(z, 10)], also [strconv.Itoa] and the verb [%d]. Twenty
    digits hold every 64-bit magnitude. *)
Definition FormatInt (z : Z) : string :=
  if z <? 0 then "-" +:+ fmt_digits 20 (- z) "" else fmt_digits 20 z "".

Fixpoint parse_digits (s : string) (acc : Z) : option Z :=
  match s with
  | EmptyString => Some acc
  | String c s' => if is_digit c then parse_digits s' (10 * acc + (byte_of c - 48)) else None
  end.

Definition parse_unsigned (s : string) : option Z :=
  match s with EmptyString => None | _ => parse_digits s 0 end.

(** The number a decimal literal denotes, before any range check: an optional
    sign and at least one digit. *)
Definition parse_signed (s : string) : option Z :=
  match s with
  | String c s' =>
      if Ascii.eqb c "-"%char then option_map Z.opp (parse_unsigned s')
      else if Ascii.eqb c "+"%char then parse_unsigned s'
      else parse_unsigned s
  | EmptyString => None
  end.

(** [strconv.ParseInt(s, 10, 64)] and [strconv.Atoi]: the value and whether the
    error is nil. A syntax error comes with the value zero, a range error with
    the nearest bound; callers that drop the error see those values. *)
Definition ParseIntV (s : string) : Z * bool :=
  match parse_signed s with
  | None => (0, false)
  | Some z =>
      if z <? minInt64 then (minInt64, false)
      else if maxInt64 <? z then (maxInt64, false) else (z, true)
  end.

(** The same with the error as [None]. *)
Definition ParseInt (s : string) : option Z :=
  let '(z, ok) := ParseIntV s in if ok then Some z else None.

Lemma byte_of_digit d : 0 ≤ d < 10 → byte_of (digit d) = 48 + d.
Proof. intros. apply byte_of_byte. lia. Qed.

Lemma is_digit_digit d : 0 ≤ d < 10 → is_digit (digit d) = true.
Proof. intros. unfold is_digit. rewrite byte_of_digit by done. lia. Qed.

Lemma parse_fmt_digits fuel n acc :
  0 ≤ n < 10 ^ Z.of_nat fuel →
  ∃ k, 0 ≤ k ∧ ∀ a, parse_digits (fmt_digits fuel n acc) a = parse_digits acc (10 ^ k * a + n).
Proof.
  revert n acc. induction fuel as [|f IH]; intros n acc Hn.
  { simpl in Hn. exists 0. split; [lia|]. intros a. simpl. f_equal. lia. }
  rewrite Nat2Z.inj_succ, Z.pow_succ_r in Hn by lia.
  pose proof (Z.mod_pos_bound n 10 ltac:(lia)) as Hm.
  pose proof (Z.div_mod n 10 ltac:(lia)) as Hdm.
  assert (Hd : ∀ a, parse_digits (String (digit (n mod 10)) acc) a
                    = parse_digits acc (10 * a + n mod 10)).
  { intros a. cbn [parse_digits]. rewrite is_digit_digit, byte_of_digit by done. f_equal. lia. }
  cbn [fmt_digits]. destruct (Z.ltb_spec n 10).
  { exists 1. split; [lia|]. intros a. rewrite Hd, Z.mod_small by lia. f_equal. }
  destruct (IH (n / 10) (String (digit (n mod 10)) acc)) as (k & Hk & E).
  { split; [apply Z.div_pos; lia | apply Z.div_lt_upper_bound; lia]. }
  exists (k + 1). split; [lia|]. intros a.
  rewrite E, Hd, Z.pow_add_r by lia. f_equal. lia.
Qed.

Lemma fmt_digits_head fuel n acc :
  0 ≤ n → (0 < fuel)%nat → ∃ d s, 0 ≤ d < 10 ∧ fmt_digits fuel n acc = String (digit d) s.
Proof.
  revert n acc. induction fuel as [|f IH]; intros n acc Hn Hf; [lia|].
  cbn [fmt_digits]. destruct (Z.ltb_spec n 10).
  { exists (n mod 10), acc. split; [apply Z.mod_pos_bound; lia | done]. }
  destruct f as [|f].
  { exists (n mod 10), acc. split; [apply Z.mod_pos_bound; lia | done]. }
  apply IH; [apply Z.div_pos; lia | lia].
Qed.

Lemma parse_unsigned_fmt n :
  0 ≤ n < 10 ^ 20 → parse_unsigned (fmt_digits 20 n "") = Some n.
Proof.
  intros Hn. unfold parse_unsigned.
  destruct (parse_fmt_digits 20 n "" Hn) as (k & Hk & E).
  destruct (fmt_digits_head 20 n "" ltac:(lia) ltac:(lia)) as (d & s & _ & Es).
  rewrite Es. rewrite <- Es, E. cbn. f_equal. lia.
Qed.

Lemma FormatInt_head z :
  0 ≤ z → ∃ d s, 0 ≤ d < 10 ∧ FormatInt z = String (digit d) s.
Proof.
  intros. unfold FormatInt. destruct (Z.ltb_spec z 0); [lia|].
  apply fmt_digits_head; lia.
Qed.

Lemma digit_not_sign d : 0 ≤ d < 10 →
  Ascii.eqb (digit d) "-"%char = false ∧ Ascii.eqb (digit d) "+"%char = false.
Proof.
  intros Hd. split; apply Ascii.eqb_neq; intros E; apply (f_equal byte_of) in E;
    rewrite byte_of_digit in E by done;
    [change (byte_of "-"%char) with 45 in E | change (byte_of "+"%char) with 43 in E]; lia.
Qed.

Lemma parse_signed_FormatInt z : in64 z → parse_signed (FormatInt z) = Some z.
Proof.
  intros Hz. unfold in64, minInt64, maxInt64 in Hz.
  unfold FormatInt. destruct (Z.ltb_spec z 0).
  - unfold parse_signed. cbn -[parse_unsigned fmt_digits].
    rewrite parse_unsigned_fmt by lia. cbn. by rewrite Z.opp_involutive.
  - destruct (fmt_digits_head 20 z "" ltac:(lia) ltac:(lia)) as (d & s & Hd & Es).
    unfold parse_signed. rewrite Es. destruct (digit_not_sign d Hd) as [-> ->].
    by rewrite <- Es, parse_unsigned_fmt by lia.
Qed.

(** Decimal round trip: a 64-bit integer survives [FormatInt] and [ParseInt]. *)
Lemma ParseInt_FormatInt z : in64 z → ParseInt (FormatInt z) = Some z.
Proof.
  intros Hz. unfold ParseInt, ParseIntV. rewrite parse_signed_FormatInt by done.
  unfold in64 in Hz. destruct (Z.ltb_spec z minInt64); [lia|].
  destruct (Z.ltb_spec maxInt64 z); [lia|done].
Qed.

Lemma FormatInt_inj a b : in64 a → in64 b → FormatInt a = FormatInt b → a = b.
Proof.
  intros Ha Hb E. apply (f_equal ParseInt) in E.
  rewrite !ParseInt_FormatInt in E by done. congruence.
Qed.

Lemma ParseIntV_in64 s : in64 (ParseIntV s).1.
Proof.
  unfold ParseIntV. destruct (parse_signed s) as [z|]; [|consts; simpl; lia].
  destruct (Z.ltb_spec z minInt64); [consts; simpl; lia|].
  destruct (Z.ltb_spec maxInt64 z); consts; simpl; lia.
Qed.

Lemma ParseInt_in64 s z : ParseInt s = Some z → in64 z.
Proof.
  unfold ParseInt. pose proof (ParseIntV_in64 s). destruct (ParseIntV s) as [z' []]; [|done].
  by intros [= <-].
Qed.

#[export] Hint Resolve ParseInt_in64 ParseIntV_in64 : go.

(** ** Errors

    Sentinels are compared by identity; [EWrap] is [fmt.Errorf] with [%w] (its
    text is the whole message); [EJoin] covers errors that wrap two others;
    [EDelayed] is [*mkq.DelayedError]; [ERedis] an error reply of the server. *)

Inductive sentinel :=
| ErrPriorityWithDelay | ErrUnrecoverable | ErrJobNotFound | ErrJobDetached
| ErrJobActive | ErrJobIsScheduler | ErrJobNotInDelayed | ErrJobNotInExpectedState
| ErrDuplicateJob | ErrInvalidMetricsBucket | RedisNil | ContextCanceled | ContextDeadlineExceeded.

#[export] Instance sentinel_eq_dec : EqDecision sentinel.
Proof. solve_decision. Defined.

Inductive err :=
| EText (msg : string)
| ESent (s : sentinel)
| EWrap (text : string) (inner : err)
| EJoin (text : string) (a b : err)
| EDelayed (delay : Z)
| ERedis (msg : string).

(** [errors.Is] against a sentinel. *)
Fixpoint Is (e : err) (s : sentinel) : bool :=
  match e with
  | ESent s' => bool_decide (s' = s)
  | EWrap _ i => Is i s
  | EJoin _ a b => Is a s || Is b s
  | _ => false
  end.

(** [errors.As] with a [*DelayedError] target: pre-order, depth first. *)
Fixpoint AsDelayed (e : err) : option Z :=
  match e with
  | EDelayed d => Some d
  | EWrap _ i => AsDelayed i
  | EJoin _ a b => match AsDelayed a with Some d => Some d | None => AsDelayed b end
  | _ => None
  end.

Definition sentinel_text (s : sentinel) : string :=
  match s with
  | ErrPriorityWithDelay => "mkq: WithPriority cannot be combined with WithDelay"
  | ErrUnrecoverable => "mkq: unrecoverable error (skip retry)"
  | ErrJobNotFound => "mkq: job not found"
  | ErrJobDetached => "mkq: job has no queue back-pointer (constructed outside mkq?)"
  | ErrJobActive => "mkq: job is active (locked) and cannot be removed"
  | ErrJobIsScheduler => "mkq: job is owned by a scheduler; use RemoveSchedule"
  | ErrJobNotInDelayed => "mkq: job is not in the delayed state"
  | ErrJobNotInExpectedState => "mkq: job is not in the expected source state for retry"
  | ErrDuplicateJob => "mkq: job suppressed by deduplication; existing job returned"
  | ErrInvalidMetricsBucket =>
      "mkq: GetMetrics kind must be JobBucketCompleted or JobBucketFailed"
  | RedisNil => "redis: nil"
  | ContextCanceled => "context canceled"
  | ContextDeadlineExceeded => "context deadline exceeded"
  end.

(** [time.Duration.String]. [fmt_frac] is the standard library's helper of the
    same name: the low [prec] digits without their trailing zeros. *)
Fixpoint fmt_frac (prec : nat) (v : Z) (print : bool) (acc : string) : string * Z :=
  match prec with
  | O => (if print then String "."%char acc else acc, v)
  | S p =>
      let d := v mod 10 in
      let print := print || negb (d =? 0) in
      fmt_frac p (v / 10) print (if print then String (digit d) acc else acc)
  end.

Definition with_unit (prec : nat) (u : Z) (unit : string) : string :=
  let '(frac, int) := fmt_frac prec u false unit in
  fmt_digits 20 int frac.

Definition micro_sign : string := String (byte 194) (String (byte 181) "s").

Definition DurationString (d : Z) : string :=
  let u := Z.abs d in
  let body :=
    if u =? 0 then "0s"
    else if u <? 1000 then with_unit 0 u "ns"
    else if u <? Millisecond then with_unit 3 u micro_sign
    else if u <? Second then with_unit 6 u "ms"
    else
      let '(frac, secs) := fmt_frac 9 u false "s" in
      let s := fmt_digits 20 (secs mod 60) frac in
      let mins := secs / 60 in
      if mins =? 0 then s
      else
        let s := fmt_digits 20 (mins mod 60) (String "m"%char s) in
        let hours := mins / 60 in
        if hours =? 0 then s else fmt_digits 20 hours (String "h"%char s)
  in if d <? 0 then String "-"%char body else body.

(** [Error] of a [DelayedError]. *)
Definition DelayedError_Error (delay : Z) : string := "mkq: job delayed for " +:+ DurationString delay.

(** [mkq.Delay]: the error a handler returns to put its job back. *)
Definition DelayFor (d : Z) : err := EDelayed d.

(** [err.Error()]. *)
Definition Error (e : err) : string :=
  match e with
  | EText m | ERedis m | EWrap m _ | EJoin m _ _ => m
  | ESent s => sentinel_text s
  | EDelayed d => DelayedError_Error d
  end.

(** [fmt.Errorf("prefix: %w", e)]. *)
Definition Errorw (prefix : string) (e : err) : err :=
  EWrap (prefix +:+ ": " +:+ Error e) e.

(** The usual two-valued return of Go: a value or a non-nil error. *)
Abbreviation res A := (err + A)%type.

(** ** IEEE 754 binary64 *)

Abbreviation float64 := spec_float.

Definition f64_mul : float64 → float64 → float64 := SFmul 53 1024.
Definition f64_add : float64 → float64 → float64 := SFadd 53 1024.
Definition f64_sub : float64 → float64 → float64 := SFsub 53 1024.
Definition f64_div : float64 → float64 → float64 := SFdiv 53 1024.

(** [float64(n)] for an integer [n]: correctly rounded. *)
Definition f64_of_Z (n : Z) : float64 := binary_normalize 53 1024 n 0 false.

(** The integral part of a finite float, toward zero. *)
Definition f64_trunc (f : float64) : option Z :=
  match f with
  | S754_zero _ => Some 0
  | S754_finite s m e =>
      let mag := if 0 <=? e then Zpos m * 2 ^ e else Zpos m / 2 ^ (- e) in
      Some (if s then - mag else mag)
  | _ => None
  end.

(** The conversion [int64(f)]. When the truncated value does not fit, Go
    leaves the result to the implementation: amd64 yields the smallest
    integer, arm64 saturates. The class carries that choice. *)
Class GoArch := {
  float_oob : float64 → Z;
  float_oob_in64 : ∀ f, in64 (float_oob f);
}.

Definition int64_of_f64 `{GoArch} (f : float64) : Z :=
  match f64_trunc f with
  | Some z => if (minInt64 <=? z) && (z <=? maxInt64) then z else float_oob f
  | None => float_oob f
  end.

Lemma int64_of_f64_in64 `{GoArch} f : in64 (int64_of_f64 f).
Proof.
  unfold int64_of_f64. destruct (f64_trunc f) as [z|]; [|apply float_oob_in64].
  destruct (_ && _) eqn:E; [|apply float_oob_in64].
  apply andb_true_iff in E as [? ?]. zbool. done.
Qed.

(** What CVTTSD2SI produces. *)
Program Definition amd64 : GoArch := {| float_oob := λ _, minInt64 |}.
Next Obligation. consts. lia. Qed.

(** [time.Duration.Seconds]. *)
Definition Seconds (d : Z) : float64 :=
  f64_add (f64_of_Z (Z.quot d Second)) (f64_div (f64_of_Z (Z.rem d Second)) (f64_of_Z Second)).

#[export] Hint Resolve int64_of_f64_in64 : go.

(** ** Dynamic values

    [any] as go-redis returns it from a script and as msgpack encodes it.
    [ANumber] is a [json.Number], a literal not yet converted. A Go map with
    string keys is an association list without duplicate keys, which
    [map_set] maintains; its order carries no meaning. *)

Inductive any :=
| ANil
| ABool (b : bool)
| AStr (s : string)
| ABytes (s : string)
| AInt64 (z : Z)
| AInt (z : Z)
| AInt32 (z : Z)
| AUint32 (z : Z)
| AFloat (f : float64)
| AArr (l : list any)
| AMap (m : list (string * any))
| ANumber (lit : string).

(** Induction on values with the nested lists. *)
Lemma any_ind_nested (P : any → Prop) :
  P ANil → (∀ b, P (ABool b)) → (∀ s, P (AStr s)) → (∀ s, P (ABytes s)) → (∀ z, P (AInt64 z)) →
  (∀ z, P (AInt z)) → (∀ z, P (AInt32 z)) → (∀ z, P (AUint32 z)) → (∀ f, P (AFloat f)) →
  (∀ l, Forall P l → P (AArr l)) → (∀ m, Forall (λ kv, P kv.2) m → P (AMap m)) →
  (∀ s, P (ANumber s)) → ∀ v, P v.
Proof.
  intros H1 H2 H3 H4 H5 H6 H7 H8 H9 HA HM HN. fix IH 1.
  intros [ |b|s|s|z|z|z|z|f|l|m|s];
    [exact H1|apply H2|apply H3|apply H4|apply H5|apply H6|apply H7|apply H8|apply H9|apply HA|apply HM|apply HN].
  - induction l as [|v l IHl]; constructor; [apply IH | exact IHl].
  - induction m as [|[k v] m IHm]; constructor; [apply IH | exact IHm].
Qed.

Section assoc.
Context {V : Type}.

Fixpoint map_get (m : list (string * V)) (k : string) : option V :=
  match m with
  | [] => None
  | (k', v) :: m' => if String.eqb k k' then Some v else map_get m' k
  end.

(** [m[k] = v]. *)
Fixpoint map_set (m : list (string * V)) (k : string) (v : V) : list (string * V) :=
  match m with
  | [] => [(k, v)]
  | (k', v') :: m' => if String.eqb k k' then (k, v) :: m' else (k', v') :: map_set m' k v
  end.

Lemma map_get_set_eq m k v : map_get (map_set m k v) k = Some v.
Proof.
  induction m as [|[k' v'] m IH]; simpl; [by rewrite String.eqb_refl|].
  destruct (String.eqb k k') eqn:E; simpl; [by rewrite String.eqb_refl | by rewrite E].
Qed.

Lemma map_get_set_ne m k k' v : k ≠ k' → map_get (map_set m k v) k' = map_get m k'.
Proof.
  intros Hne. assert (String.eqb k' k = false) as Hf by (apply String.eqb_neq; congruence).
  induction m as [|[k0 v0] m IH]; simpl; [by rewrite Hf|].
  destruct (String.eqb k k0) eqn:E; simpl.
  - apply String.eqb_eq in E as <-. by rewrite Hf.
  - by rewrite IH.
Qed.

Definition keys_of (m : list (string * V)) : list string := m.*1.

Lemma keys_of_set_sub m k v k' : k' ∈ keys_of (map_set m k v) → k' = k ∨ k' ∈ keys_of m.
Proof.
  unfold keys_of. induction m as [|[k0 v0] m IH]; simpl.
  { intros ->%list_elem_of_singleton. by left. }
  destruct (String.eqb_spec k k0) as [->|]; simpl; intros [->|Hin]%elem_of_cons.
  - by left.
  - right. by right.
  - right. by left.
  - destruct (IH Hin) as [->|]; [by left | right; by right].
Qed.

Lemma NoDup_map_set m k v : NoDup (keys_of m) → NoDup (keys_of (map_set m k v)).
Proof.
  unfold keys_of. induction m as [|[k0 v0] m IH]; simpl; intros Hnd.
  { apply NoDup_singleton. }
  apply NoDup_cons in Hnd as [Hk Hnd]. destruct (String.eqb_spec k k0) as [->|Hne]; simpl.
  { by constructor. }
  constructor; [|by apply IH]. intros Hin. apply keys_of_set_sub in Hin as [->|]; done.
Qed.

Lemma map_get_None m k : k ∉ keys_of m → map_get m k = None.
Proof.
  unfold keys_of. induction m as [|[k0 v0] m IH]; simpl; [done|]. intros Hn.
  apply not_elem_of_cons in Hn as [Hne Hn].
  rewrite (proj2 (String.eqb_neq _ _) Hne). by apply IH.
Qed.
End assoc.

#[export] Hint Rewrite @map_get_set_eq : gos.

(** ** Library code outside the repository

    [msgpack.Marshal] of vmihailenco/msgpack: the bytes of a value, or an
    error. *)
Class Msgpack := { msgpack_Marshal : any → res string }.

(** The simplest codec, for concrete runs. *)
Definition plainMsgpack : Msgpack := {| msgpack_Marshal _ := inr "" |}.
