(* ===== verification/Keys.v ===== *)
(** * Redis key layout (internal/keys/keys.go, version.go, the key helpers of
    mkq.go and worker.go)

    The state is a [Builder]: a key prefix and a queue name. Every operation is
    a concatenation; the theorems say that the names a queue uses are distinct,
    that two queues never share a key, and that the client-wide registry key
    lies outside every queue. *)

From S2P Require Import Prelude GoLib.

Module keys.

Definition DefaultPrefix : string := "bull".

Record Builder := mkBuilder { Prefix : string; Queue : string }.

#[export] Instance Builder_eq_dec : EqDecision Builder.
Proof. solve_decision. Defined.

Definition New (prefix queue : string) : Builder :=
  let prefix := if String.eqb prefix "" then DefaultPrefix else prefix in
  {| Prefix := prefix; Queue := queue |}.

Definition Base (b : Builder) : string := Prefix b +:+ ":" +:+ Queue b +:+ ":".

Definition Wait (b : Builder) := Base b +:+ "wait".
Definition Active (b : Builder) := Base b +:+ "active".
Definition Delayed (b : Builder) := Base b +:+ "delayed".
Definition Prioritized (b : Builder) := Base b +:+ "prioritized".
Definition Completed (b : Builder) := Base b +:+ "completed".
Definition Failed (b : Builder) := Base b +:+ "failed".
Definition Paused (b : Builder) := Base b +:+ "paused".
Definition Stalled (b : Builder) := Base b +:+ "stalled".
Definition StalledCheck (b : Builder) := Base b +:+ "stalled-check".
Definition Meta (b : Builder) := Base b +:+ "meta".
Definition ID (b : Builder) := Base b +:+ "id".
Definition Marker (b : Builder) := Base b +:+ "marker".
Definition PriorityCounter (b : Builder) := Base b +:+ "pc".
Definition Events (b : Builder) := Base b +:+ "events".
Definition Limiter (b : Builder) := Base b +:+ "limiter".
Definition Repeat (b : Builder) := Base b +:+ "repeat".
Definition Schedule (b : Builder) (scheduleID : string) := Base b +:+ "repeat:" +:+ scheduleID.
Definition Dedup (b : Builder) (id : string) := Base b +:+ "de:" +:+ id.
Definition Metrics (b : Builder) (target : string) := Base b +:+ "metrics:" +:+ target.
Definition Job (b : Builder) (jobID : string) := Base b +:+ jobID.
Definition JobLogs (b : Builder) (jobID : string) := Job b jobID +:+ ":logs".
Definition JobLock (b : Builder) (jobID : string) := Job b jobID +:+ ":lock".
Definition JobUint (b : Builder) (jobID : Z) := Base b +:+ FormatInt jobID.

End keys.

(** version.go *)
Definition Version : string := "1.5.1".
Definition versionTag : string := "mkq:" +:+ Version.

(** Client.queueRegistryKey of mkq.go, for the client's key prefix. *)
Definition queueRegistryKey (keyPrefix : string) : string := keyPrefix +:+ "::queues".

(** Client.queueNameFromMetaKey of mkq.go; [None] is the [false] result. The
    slice expression is kept with its panic. *)
Definition queueNameFromMetaKey (keyPrefix key : string) : may_panic (option string) :=
  let suffix := ":meta" in
  let prefix := keyPrefix +:+ ":" in
  if negb (HasPrefix key prefix) || negb (HasSuffix key suffix) then Returns None
  else
    match slice key (String.length prefix) (String.length key - String.length suffix) with
    | Panics => Panics
    | Returns name => if String.eqb name "" then Returns None else Returns (Some name)
    end.

(** The queue-level names, in the order worker.go snapshots them. *)
Definition queue_level_keys (b : keys.Builder) : list string :=
  [keys.Wait b; keys.Active b; keys.Prioritized b; keys.Events b; keys.Stalled b;
   keys.Limiter b; keys.Delayed b; keys.Paused b; keys.Meta b; keys.PriorityCounter b;
   keys.Marker b; keys.Completed b; keys.Failed b; keys.Metrics b "completed";
   keys.Metrics b "failed"; keys.StalledCheck b; keys.Repeat b; keys.ID b].

(** ** Lemmas *)

Lemma Base_split b x :
  keys.Base b +:+ x = keys.Prefix b +:+ String ":"%char (keys.Queue b +:+ String ":"%char x).
Proof. unfold keys.Base. by rewrite <- !sapp_assoc. Qed.

Lemma NoDup_app_prefix (p : string) (l : list string) : NoDup l → NoDup ((λ s, p +:+ s) <$> l).
Proof. intros. apply NoDup_fmap_2; [intros x y; apply sapp_inv_head | done]. Qed.

(** ** Properties *)

(** Every queue-level key of a queue is a different Redis key: no state set,
    counter, stream or metrics hash aliases another. *)
Theorem queue_level_keys_distinct b : NoDup (queue_level_keys b).
Proof.
  change (queue_level_keys b) with ((λ s, keys.Base b +:+ s) <$>
    ["wait"; "active"; "prioritized"; "events"; "stalled"; "limiter"; "delayed"; "paused";
     "meta"; "pc"; "marker"; "completed"; "failed"; "metrics:completed"; "metrics:failed";
     "stalled-check"; "repeat"; "id"]).
  apply NoDup_app_prefix. apply (bool_decide_unpack _). by vm_compute.
Qed.

(** Queues do not share keys: under one prefix, two queues with different
    names free of the separator build disjoint key spaces, whatever follows the
    base (job ids, schedule ids and deduplication ids included). *)
Theorem queue_key_spaces_disjoint p q1 q2 x y :
  ¬ sIn ":"%char q1 → ¬ sIn ":"%char q2 → q1 ≠ q2 →
  keys.Job (keys.New p q1) x ≠ keys.Job (keys.New p q2) y.
Proof.
  unfold keys.Job. intros H1 H2 Hne E. rewrite !Base_split in E. simpl in E.
  apply sapp_inv_head in E. injection E as E.
  by apply sapp_sep_inj in E as [? ?].
Qed.

Lemma queue_key_spaces_disjoint_witness :
  keys.Job (keys.New "" "deliver") "7" ≠ keys.Job (keys.New "" "inbox") "7".
Proof.
  apply (queue_key_spaces_disjoint "" "deliver" "inbox" "7" "7");
    [by vm_compute; intuition discriminate.. | done].
Defined.

(** The registry SET of a client lies outside every non-empty queue: no key a
    queue builds, with any job id, equals it. *)
Theorem registry_key_outside_queues p q x :
  q ≠ "" → keys.Job (keys.mkBuilder p q) x ≠ queueRegistryKey p.
Proof.
  unfold keys.Job, queueRegistryKey. intros Hq E. rewrite Base_split in E. simpl in E.
  apply sapp_inv_head in E. injection E as E.
  destruct q as [|c q]; [done|]. simpl in E. injection E as -> E.
  assert (¬ sIn ":"%char "queues") as Hn by (by vm_compute; intuition discriminate).
  apply Hn. rewrite <- E. apply sIn_app. right. by left.
Qed.

Lemma registry_key_outside_queues_witness :
  keys.Job (keys.mkBuilder "bull" ":queues") "x" ≠ queueRegistryKey "bull".
Proof. apply (registry_key_outside_queues "bull" ":queues" "x"). done. Defined.

Lemma name_of_meta p q :
  queueNameFromMetaKey p (keys.Meta (keys.mkBuilder p q)) =
    Returns (if String.eqb q "" then None else Some q).
Proof.
  unfold keys.Meta, keys.Base, queueNameFromMetaKey. simpl keys.Prefix. simpl keys.Queue.
  set (key := _ +:+ "meta").
  assert (key = (p +:+ ":") +:+ (q +:+ ":meta")) as E.
  { subst key. by rewrite <- !sapp_assoc. }
  assert (HasPrefix key (p +:+ ":") = true) as ->.
  { apply HasPrefix_spec. by exists (q +:+ ":meta"). }
  assert (HasSuffix key ":meta" = true) as ->.
  { apply HasSuffix_spec. exists ((p +:+ ":") +:+ q). by rewrite E, sapp_assoc. }
  simpl orb. rewrite E. unfold slice. rewrite !slength_app. simpl String.length.
  replace (_ + 1 + (_ + 5) - 5)%nat with (String.length (p +:+ ":") + String.length q)%nat
    by (rewrite slength_app; simpl; lia).
  rewrite slength_app. simpl String.length.
  rewrite (proj2 (Nat.leb_le _ _)) by lia. rewrite (proj2 (Nat.leb_le _ _)) by lia. simpl andb.
  replace (String.length p + 1)%nat with (String.length (p +:+ ":"))
    by (rewrite slength_app; simpl; lia).
  rewrite sdrop_app.
  replace (_ + String.length q - _)%nat with (String.length q) by lia.
  rewrite stake_app. by destruct (String.eqb q "").
Qed.

(** Discovery inverts key construction: the meta key of any non-empty queue
    name, separators included, gives that name back, and no key of the shape
    the SCAN pattern asks for makes the slice expression panic. *)
Theorem queueNameFromMetaKey_Meta p q :
  queueNameFromMetaKey p (keys.Meta (keys.mkBuilder p q)) =
    Returns (if String.eqb q "" then None else Some q).
Proof. apply name_of_meta. Qed.

(** A key such as "bull:meta", where the prefix and the suffix overlap on the
    separator, passes both tests and then crosses the slice bounds. *)
Theorem queueNameFromMetaKey_overlap_panics p :
  queueNameFromMetaKey p (p +:+ ":meta") = Panics.
Proof.
  unfold queueNameFromMetaKey.
  assert (HasPrefix (p +:+ ":meta") (p +:+ ":") = true) as ->.
  { apply HasPrefix_spec. exists "meta". by rewrite <- sapp_assoc. }
  assert (HasSuffix (p +:+ ":meta") ":meta" = true) as ->.
  { apply HasSuffix_spec. by exists p. }
  unfold slice. rewrite !slength_app. simpl String.length. simpl orb.
  rewrite (proj2 (Nat.leb_gt _ _)) by lia. done.
Qed.
