(* ===== verification/Backoff.v ===== *)
(** * Retry backoff arithmetic (backoff.go)

    The built-in fixed and exponential curves at the width of [time.Duration],
    and BullMQ's jitter formula in binary64. The retry hooks that sit on top of
    them are in Finalise.v. *)

From S2P Require Import Prelude GoLib.

Record BackoffStrategy := mkBackoff { Type_ : string; Delay : Z; Jitter : float64 }.

Definition f64_zero : float64 := S754_zero false.
Definition f64_one : float64 := f64_of_Z 1.

Definition FixedBackoff (d : Z) : BackoffStrategy := mkBackoff "fixed" d f64_zero.
Definition FixedBackoffWithJitter (d : Z) (jitter : float64) : BackoffStrategy :=
  mkBackoff "fixed" d jitter.
Definition ExponentialBackoff (d : Z) : BackoffStrategy := mkBackoff "exponential" d f64_zero.
Definition ExponentialBackoffWithJitter (d : Z) (jitter : float64) : BackoffStrategy :=
  mkBackoff "exponential" d jitter.
Definition CustomBackoff : BackoffStrategy := mkBackoff "custom" 0 f64_zero.

(** What a custom strategy decides on. *)
Record BackoffContext := mkBackoffContext {
  bc_JobID : string;
  bc_Name : string;
  bc_AttemptsMade : Z;
  bc_Err : err;
  bc_BackoffType : string;
}.

(** [computeBackoffDelay]; a nil pointer is [None]. *)
Definition computeBackoffDelay (b : option BackoffStrategy) (attemptsMade : Z) : Z :=
  match b with
  | None => 0
  | Some b =>
      if attemptsMade <? 1 then 0
      else if String.eqb (Type_ b) "fixed" then Delay b
      else if String.eqb (Type_ b) "exponential" then
        let shift := attemptsMade - 1 in
        if 63 <=? shift then maxInt64
        else
          let mult := i64 (Z.shiftl 1 shift) in
          if negb (mult =? 0) && (Z.quot maxInt64 mult <? Delay b) then maxInt64
          else Delay b *! mult
      else 0
  end.

(** [applyJitter]. The expression [r*float64(base)*jitter + minDelay] is
    evaluated without fused multiply-add, as on amd64. *)
Definition applyJitter `{GoArch} (base : Z) (jitter r : float64) : Z :=
  if SFleb jitter f64_zero then base
  else
    let jitter := if SFltb f64_one jitter then f64_one else jitter in
    let minDelay := f64_mul (f64_of_Z base) (f64_sub f64_one jitter) in
    int64_of_f64 (f64_add (f64_mul (f64_mul r (f64_of_Z base)) jitter) minDelay).

(** ** Lemmas *)

Lemma shiftl_one n : 0 ≤ n < 63 → i64 (Z.shiftl 1 n) = 2 ^ n.
Proof.
  intros Hn. rewrite Z.shiftl_mul_pow2, Z.mul_1_l by lia. apply i64_id.
  assert (2 ^ n ≤ 2 ^ 62) by (apply Z.pow_le_mono_r; lia).
  assert (0 < 2 ^ n) by (apply Z.pow_pos_nonneg; lia). consts. lia.
Qed.

(** The guard before the multiplication is exactly the overflow condition. *)
Lemma mult_guard d m : 0 < m → 0 ≤ d → (Z.quot maxInt64 m <? d) = (maxInt64 <? d * m).
Proof.
  intros Hm Hd. rewrite Z.quot_div_nonneg by (consts; lia).
  pose proof (Z.div_mod maxInt64 m ltac:(lia)). pose proof (Z.mod_pos_bound maxInt64 m Hm).
  apply eq_bool_prop_intro. rewrite !Is_true_true, !Z.ltb_lt. nia.
Qed.

Lemma exponential_small d j n :
  1 ≤ n ≤ 63 → 0 ≤ d →
  computeBackoffDelay (Some (mkBackoff "exponential" d j)) n = Z.min maxInt64 (d * 2 ^ (n - 1)).
Proof.
  intros Hn Hd. unfold computeBackoffDelay. cbn [Type_ Delay String.eqb Ascii.eqb Bool.eqb].
  destruct (Z.ltb_spec n 1); [lia|]. destruct (Z.leb_spec 63 (n - 1)); [lia|].
  rewrite shiftl_one by lia.
  assert (0 < 2 ^ (n - 1)) by (apply Z.pow_pos_nonneg; lia).
  rewrite mult_guard by done. destruct (Z.eqb_spec (2 ^ (n - 1)) 0); [lia|]. cbn [negb andb].
  destruct (Z.ltb_spec maxInt64 (d * 2 ^ (n - 1))); [lia|].
  rewrite i64_id by (consts; nia). lia.
Qed.

(** ** Properties *)

(** The exponential curve is delay times two to the attempt minus one,
    saturating at the largest duration: for every positive base delay and every
    attempt number the result is the exact mathematical product, or the maximum
    when that product does not fit, and it never wraps. *)
Theorem exponential_saturates d j n :
  1 ≤ n → 0 < d →
  computeBackoffDelay (Some (mkBackoff "exponential" d j)) n = Z.min maxInt64 (d * 2 ^ (n - 1)).
Proof.
  intros Hn Hd. destruct (Z.le_gt_cases n 63); [apply exponential_small; lia|].
  unfold computeBackoffDelay. cbn [Type_ Delay String.eqb Ascii.eqb Bool.eqb].
  destruct (Z.ltb_spec n 1); [lia|]. destruct (Z.leb_spec 63 (n - 1)); [|lia].
  assert (2 ^ 63 ≤ 2 ^ (n - 1)) by (apply Z.pow_le_mono_r; lia).
  change (2 ^ 63) with 9223372036854775808 in *. consts. nia.
Qed.

Lemma exponential_saturates_witness :
  computeBackoffDelay (Some (ExponentialBackoff Second)) 5 = 16 * Second.
Proof. apply (exponential_saturates Second f64_zero 5); vm_compute; congruence. Defined.

(** The delays handed to the retry scripts never shrink from one attempt to
    the next, and never go negative, for a non-negative base delay of either
    built-in kind. *)
Theorem backoff_monotone b n m :
  0 ≤ Delay b ≤ maxInt64 → 1 ≤ n ≤ m → m ≤ 63 →
  0 ≤ computeBackoffDelay (Some b) n ≤ computeBackoffDelay (Some b) m ∧
  computeBackoffDelay (Some b) m ≤ maxInt64.
Proof.
  intros Hd Hnm Hm. destruct b as [ty d j]. simpl in Hd.
  destruct (String.eqb_spec ty "exponential") as [->|Hne].
  - rewrite !exponential_small by lia.
    assert (2 ^ (n - 1) ≤ 2 ^ (m - 1)) by (apply Z.pow_le_mono_r; lia).
    assert (0 < 2 ^ (n - 1)) by (apply Z.pow_pos_nonneg; lia). consts. nia.
  - unfold computeBackoffDelay. cbn [Type_ Delay].
    destruct (Z.ltb_spec n 1); [lia|]. destruct (Z.ltb_spec m 1); [lia|].
    destruct (String.eqb ty "fixed"); [lia|].
    rewrite (proj2 (String.eqb_neq _ _) Hne). consts. lia.
Qed.

Lemma backoff_monotone_witness :
  0 ≤ computeBackoffDelay (Some (ExponentialBackoff Second)) 3
    ≤ computeBackoffDelay (Some (ExponentialBackoff Second)) 60 ∧
  computeBackoffDelay (Some (ExponentialBackoff Second)) 60 ≤ maxInt64.
Proof. apply (backoff_monotone (ExponentialBackoff Second) 3 60); vm_compute; intuition congruence. Defined.

(** The clamp is taken before the base delay is looked at: from the 64th
    attempt on, an exponential backoff with a zero base delay asks for the
    largest duration instead of zero. *)
Theorem exponential_zero_delay_jumps j n :
  computeBackoffDelay (Some (mkBackoff "exponential" 0 j)) n =
    if n <? 64 then 0 else maxInt64.
Proof.
  destruct (Z.ltb_spec n 64).
  - destruct (Z.lt_ge_cases n 1).
    + unfold computeBackoffDelay. by rewrite (proj2 (Z.ltb_lt n 1)).
    + rewrite exponential_small by lia. consts. lia.
  - unfold computeBackoffDelay. cbn [Type_ Delay String.eqb Ascii.eqb Bool.eqb].
    rewrite (proj2 (Z.ltb_ge n 1)), (proj2 (Z.leb_le 63 (n - 1))) by lia. done.
Qed.

(** A jitter outside the documented fraction is harmless: values at or below
    zero leave the delay alone and values above one act as one. *)
Theorem jitter_clamped `{GoArch} base jitter r :
  (SFleb jitter f64_zero = true → applyJitter base jitter r = base) ∧
  (SFltb f64_one jitter = true → SFleb jitter f64_zero = false →
     applyJitter base jitter r = applyJitter base f64_one r).
Proof.
  unfold applyJitter. split; [by intros ->|]. intros H1 H2. rewrite H1, H2.
  assert (SFleb f64_one f64_zero = false) as -> by (by vm_compute).
  assert (SFltb f64_one f64_one = false) as -> by (by vm_compute). done.
Qed.

(** Jitter on a saturated delay can leave the range of the conversion back to
    a duration: [float64] rounds the largest duration up to two to the 63rd, so
    a jitter of one tenth with a draw just below one converts out of range. On
    amd64 the resulting delay is the most negative duration, which the worker
    reads as "stop retrying". *)
Theorem jitter_saturated_overflows :
  let tenth := f64_div f64_one (f64_of_Z 10) in
  let r := f64_div (f64_of_Z 9007199254740991) (f64_of_Z 9007199254740992) in
  SFltb r f64_one = true ∧
  applyJitter (H := amd64)
    (computeBackoffDelay (Some (ExponentialBackoffWithJitter Second tenth)) 40) tenth r = minInt64.
Proof. by vm_compute. Qed.
