(* ===== verification/Effects.v ===== *)
(** * Interaction of mkq with its environment

    The Go code is sequential apart from a few well-marked places; what it does
    is compute, ask the environment (Redis, the clock, the user's handler, the
    observability hooks) and go on with the answer. A program of type [M A] is
    such a tree of requests. [run] executes it against a server, any
    state-passing function that answers requests, and records the requests in
    order: theorems about [run] hold for every behaviour of the environment,
    and an executable server turns them into witnesses. *)

From S2P Require Import Prelude GoLib Backoff.

(** The context an operation is bounded by. *)
Inductive ctx := CtxCaller | CtxRun | CtxJobs | CtxBackground.

(** internal/lua/loader.go: the vendored entry points. *)
Inductive ScriptName :=
| AddStandardJob | AddDelayedJob | AddPrioritizedJob | MoveToActive | MoveToFinished
| ExtendLock | ReleaseLock | RetryJob | MoveToDelayed | MoveStalledJobsToWait
| AddJobScheduler | UpdateJobScheduler | UpdateProgress | UpdateData | AddLog
| GetCounts | GetRanges | GetMetrics | RemoveJob | Drain | Promote | ReprocessJob | Pause.

#[export] Instance ScriptName_eq_dec : EqDecision ScriptName.
Proof. solve_decision. Defined.

Definition script_name (n : ScriptName) : string :=
  match n with
  | AddStandardJob => "addStandardJob-9"
  | AddDelayedJob => "addDelayedJob-6"
  | AddPrioritizedJob => "addPrioritizedJob-9"
  | MoveToActive => "moveToActive-11"
  | MoveToFinished => "moveToFinished-14"
  | ExtendLock => "extendLock-2"
  | ReleaseLock => "releaseLock-1"
  | RetryJob => "retryJob-11"
  | MoveToDelayed => "moveToDelayed-11"
  | MoveStalledJobsToWait => "moveStalledJobsToWait-9"
  | AddJobScheduler => "addJobScheduler-11"
  | UpdateJobScheduler => "updateJobScheduler-12"
  | UpdateProgress => "updateProgress-3"
  | UpdateData => "updateData-1"
  | AddLog => "addLog-2"
  | GetCounts => "getCounts-1"
  | GetRanges => "getRanges-1"
  | GetMetrics => "getMetrics-2"
  | RemoveJob => "removeJob-2"
  | Drain => "drain-5"
  | Promote => "promote-9"
  | ReprocessJob => "reprocessJob-9"
  | Pause => "pause-7"
  end.

Inductive level := Debug | Warn | ErrorLevel.

(** The redis commands mkq puts in pipelines. *)
Inductive cmd :=
| CHSetNX (key field value : string)
| CSAdd (key member : string)
| CDel (key : string)
| CZRem (key member : string)
| CHMGet (key : string) (fields : list string)
| CHGetAll (key : string)
| CLRange (key : string) (start stop : Z)
| CLLen (key : string).

(** What the user handler does with a job: return a value (observed only
    through [json.Marshal]), return an error, or panic with a value whose [%v]
    rendering and stack trace are given. *)
Inductive handler_result :=
| HReturn (marshalled : res string)
| HError (e : err)
| HPanic (value stack : string).

(** What a user hook (a backoff strategy, a retry delay override) does. *)
Inductive hook_result (A : Type) :=
| HookReturn (a : A)
| HookPanic (value : string).
Arguments HookReturn {A}.
Arguments HookPanic {A}.

(** events.go: the typed entries of the event stream, each with its stream id. A
    [json.RawMessage] is [None] when nil. *)
Inductive Event :=
| AddedEvent (id JobID Name : string)
| WaitingEvent (id JobID Prev : string)
| ActiveEvent (id JobID Prev : string)
| CompletedEvent (id JobID : string) (ReturnValue : option string) (Prev : string)
| FailedEvent (id JobID FailedReason Prev : string)
| DelayedEvent (id JobID : string) (DelayedUntilMs : Z)
| StalledEvent (id JobID : string)
| DrainedEvent (id : string)
| RetriesExhaustedEvent (id JobID : string) (AttemptsMade : Z)
| RemovedEvent (id JobID Prev : string)
| ProgressEvent (id JobID : string) (Data : option string)
| RawEvent (id Type_ : string) (Fields : gmap string string).

(** [redis.XMessage]. *)
Record XMessage := mkXMessage { x_ID : string; x_Values : list (string * any) }.

Inductive req :=
(* clock, uuid.NewString, rng *)
| RNow
| RUuid
| RRng
(* the connection pool *)
| ROpenClient (addrs : list string)
| RPing (c : ctx)
| RCloseClient
(* Scripter.Run and direct commands *)
| RScript (c : ctx) (name : ScriptName) (keys : list string) (args : list any)
| RGet (c : ctx) (key : string)
| RHGet (c : ctx) (key field : string)
| RHGetAll (c : ctx) (key : string)
| RHMGet (c : ctx) (key : string) (fields : list string)
| RHExists (c : ctx) (key field : string)
| RLLen (c : ctx) (key : string)
| RSMembers (c : ctx) (key : string)
| RMasters (c : ctx)
| RScan (c : ctx) (node : option nat) (cursor : Z) (pattern : string) (count : Z)
| RPipeline (c : ctx) (cmds : list cmd)
| RBZPopMin (c : ctx) (timeout : Z) (keys : list string)
| RZAdd (c : ctx) (key : string) (members : list (Z * string))
| RDel (c : ctx) (key : string)
| REvalSha (c : ctx) (sha : string) (keys : list string) (args : list any)
| RScriptLoad (c : ctx) (src : string)
| RXRead (c : ctx) (stream lastID : string) (block : Z)
(* contexts, timers and goroutines *)
| RCtxErr (c : ctx)
| RTimer (d : Z)
| RTick (d : Z)
| RGoDispatch
| RGoStalled
| RSpawnHeartbeat (token jobID : string)
| RCancelJob
| RJoinHeartbeat
(* user code *)
| RHandler (jobID : string) (jobMap : gmap string string)
| RBackoffStrategy (attemptsMade : Z)
| RBackoffFunc (bc : BackoffContext)
| RRetryDelayOverride (bc : BackoffContext)
| ROnEvent (ev : Event)
| RClosed
(* observability *)
| RLog (l : level) (msg : string) (attrs : list (string * string))
| RCounter (name : string) (attrs : list (string * string))
| RHistogram (name : string) (value : float64) (attrs : list (string * string))
| RGauge (name : string) (delta : Z) (attrs : list (string * string))
| RSpanStart (name : string) (attrs : list (string * string))
| RSpanAttrs (attrs : list (string * string))
| RSpanError (e : err)
| RSpanEnd.

(** The answer to each request. [RTimer] answers whether the timer fired
    ([false]: the run context was cancelled first), [RTick] whether the job's
    ticker fired ([false]: the job context was cancelled first), [RClosed]
    whether the subscription's close channel is closed. A blocking read of one
    stream answers its batches of messages. [RMasters] answers the masters of a
    cluster, [RScan] scans one of them, or the server of a plain client. *)
Definition resp (r : req) : Type :=
  match r with
  | RNow => Z
  | RUuid => string
  | RRng => float64
  | RScript _ _ _ _ => res any
  | RGet _ _ | RHGet _ _ _ => res string
  | RHGetAll _ _ => res (gmap string string)
  | RHMGet _ _ _ => res (list any)
  | RHExists _ _ _ => res bool
  | RLLen _ _ => res Z
  | RSMembers _ _ => res (list string)
  | RPing _ | RCloseClient => option err
  | RMasters _ => res (list nat)
  | RScan _ _ _ _ _ => res (list string * Z)
  | RPipeline _ _ => option err * list (res any)
  | REvalSha _ _ _ _ => res any
  | RScriptLoad _ _ => res string
  | RXRead _ _ _ _ => res (list (list XMessage))
  | ROnEvent _ => option err
  | RClosed => bool
  | RCtxErr _ => option err
  | RTimer _ | RTick _ => bool
  | RHandler _ _ => handler_result
  | RBackoffStrategy _ | RBackoffFunc _ => hook_result Z
  | RRetryDelayOverride _ => hook_result (Z * bool)
  | _ => unit
  end.

Inductive M (A : Type) :=
| Ret (a : A)
| Vis (r : req) (k : resp r → M A).
Arguments Ret {A} a.
Arguments Vis {A} r k.

#[export] Instance M_ret : MRet M := λ A a, Ret a.
#[export] Instance M_bind : MBind M := λ A B f,
  fix go m := match m with Ret a => f a | Vis r k => Vis r (λ x, go (k x)) end.

(** One request. *)
Definition ask (r : req) : M (resp r) := Vis r (λ x, Ret x).

(** A request and the answer it got. *)
Record event := Ev { ev_req : req; ev_ans : resp ev_req }.

(** ** Execution *)

Section run.
Context {W : Type}.

Definition server : Type := W → ∀ r : req, resp r * W.

Context (sv : server).

Fixpoint run {A} (m : M A) (w : W) : A * W * list event :=
  match m with
  | Ret a => (a, w, [])
  | Vis r k =>
      let '(x, w1) := sv w r in
      let '(a, w2, l) := run (k x) w1 in (a, w2, Ev r x :: l)
  end.

Definition result {A} (m : M A) (w : W) : A := (run m w).1.1.
Definition world {A} (m : M A) (w : W) : W := (run m w).1.2.
Definition log {A} (m : M A) (w : W) : list event := (run m w).2.

Lemma run_bind {A B} (m : M A) (f : A → M B) w :
  run (m ≫= f) w =
    let '(a, w1, l1) := run m w in
    let '(b, w2, l2) := run (f a) w1 in (b, w2, l1 ++ l2).
Proof.
  revert w. induction m as [a | r k IH]; intros w.
  { simpl. by destruct (run (f a) w) as [[b w2] l2]. }
  cbn. destruct (sv w r) as [x w1].
  change ((fix go m := match m with Ret a => f a | Vis r0 k0 => Vis r0 (λ x0, go (k0 x0)) end)
            (k x)) with (k x ≫= f).
  rewrite IH. destruct (run (k x) w1) as [[a w2] l1].
  by destruct (run (f a) w2) as [[b w3] l2].
Qed.
End run.
Arguments server : clear implicits.

(** ** Every environment at once

    [wp m Q]: whatever the environment answers, the result and the log of [m]
    satisfy [Q]. The rules below are the usual ones of a weakest precondition,
    and [wp_run] transfers a proof to the runs against any server. *)

Fixpoint wp {A} (m : M A) (Q : A → list event → Prop) : Prop :=
  match m with
  | Ret a => Q a []
  | Vis r k => ∀ x, wp (k x) (λ a l, Q a (Ev r x :: l))
  end.

Lemma wp_mono {A} (m : M A) (Q Q' : A → list event → Prop) :
  (∀ a l, Q a l → Q' a l) → wp m Q → wp m Q'.
Proof.
  revert Q Q'. induction m as [a|r k IH]; intros Q Q' HQ; cbn; [apply HQ|].
  intros Hk x. eapply IH; [|apply Hk]. cbn. auto.
Qed.

Lemma wp_bind {A B} (m : M A) (f : A → M B) (Q : B → list event → Prop) :
  wp m (λ a l1, wp (f a) (λ b l2, Q b (l1 ++ l2))) → wp (m ≫= f) Q.
Proof.
  revert Q. induction m as [a|r k IH]; intros Q; cbn; [done|].
  intros Hk x. apply IH, Hk.
Qed.

Lemma wp_ret {A} (a : A) (Q : A → list event → Prop) : Q a [] → wp (mret a) Q.
Proof. done. Qed.

Lemma wp_ask r (Q : resp r → list event → Prop) : (∀ x, Q x [Ev r x]) → wp (ask r) Q.
Proof. done. Qed.

Lemma wp_run {W A} (sv : server W) (m : M A) (Q : A → list event → Prop) w :
  wp m Q → Q (result sv m w) (log sv m w).
Proof.
  unfold result, log. revert Q w. induction m as [a|r k IH]; intros Q w; cbn; [done|].
  intros Hk. destruct (sv w r) as [x w1]. specialize (IH x _ w1 (Hk x)).
  by destruct (run sv (k x) w1) as [[a w2] l].
Qed.

Lemma wp_and {A} (m : M A) (Q Q' : A → list event → Prop) :
  wp m Q → wp m Q' → wp m (λ a l, Q a l ∧ Q' a l).
Proof. revert Q Q'. induction m as [a|r k IH]; cbn; intros Q Q' H1 H2; [done|]. intros x. by apply IH. Qed.

(** [m] only makes requests that satisfy [P]. *)
Definition only {A} (P : req → bool) (m : M A) : Prop :=
  wp m (λ _ l, forallb P (ev_req <$> l) = true).

Lemma only_ret {A} P (a : A) : only P (mret a).
Proof. done. Qed.

Lemma only_ask P r : P r = true → only P (ask r).
Proof. intros Hr x. cbn. by rewrite Hr. Qed.

Lemma only_bind {A B} P (m : M A) (f : A → M B) :
  only P m → (∀ a, only P (f a)) → only P (m ≫= f).
Proof.
  unfold only. intros Hm Hf. apply wp_bind. eapply wp_mono; [|exact Hm]. cbn. intros a l Hl.
  eapply wp_mono; [|apply Hf]. cbn. intros _ l' Hl'.
  by rewrite fmap_app, forallb_app, Hl, Hl'.
Qed.

Lemma only_mono {A} (P P' : req → bool) (m : M A) :
  (∀ r, P r = true → P' r = true) → only P m → only P' m.
Proof.
  intros HP. apply wp_mono. intros _ l. rewrite !forallb_forall. auto.
Qed.

(** Discharge [only] goals by following the program. *)
Ltac only_solve :=
  repeat match goal with
  | |- only _ (mret _) => apply only_ret
  | |- only _ (ask _) => apply only_ask; first [reflexivity | assumption]
  | H : only _ ?m |- only _ ?m => exact H
  | |- only _ (_ ≫= _) => apply only_bind; [|intros ?]
  | |- only _ (let '_ := ?x in _) => destruct x
  | |- only _ (if ?x then _ else _) => destruct x
  | |- only _ (match ?x with _ => _ end) => destruct x
  | |- only _ (let x := ?t in @?f x) => change (only _ (f t)); cbv beta
  end.

(** [wp], provided the environment behaves as [P] says at every event. *)
Definition wp_env {A} (P : event → bool) (m : M A) (Q : A → list event → Prop) : Prop :=
  wp m (λ a l, forallb P l = true → Q a l).

Lemma wp_true {A} (m : M A) : wp m (λ _ _, True).
Proof. induction m as [a|r k IH]; cbn; [done|]. intros x. apply IH. Qed.

Lemma env_bind {A B} P (m : M A) (f : A → M B) (Q : B → list event → Prop) :
  wp_env P m (λ a l1, wp_env P (f a) (λ b l2, Q b (l1 ++ l2))) → wp_env P (m ≫= f) Q.
Proof.
  unfold wp_env. intros Hm. apply wp_bind. eapply wp_mono; [|exact Hm]. cbn. intros a l Hl.
  destruct (forallb P l) eqn:E.
  - eapply wp_mono; [|apply (Hl eq_refl)]. cbn. intros b l2 Hb. rewrite forallb_app, E. exact Hb.
  - eapply wp_mono; [|apply wp_true]. cbn. intros b l2 _. by rewrite forallb_app, E.
Qed.

Lemma env_ret {A} P (a : A) (Q : A → list event → Prop) : Q a [] → wp_env P (mret a) Q.
Proof. by intros HQ _. Qed.

Lemma env_ask P r (Q : resp r → list event → Prop) :
  (∀ x, P (Ev r x) = true → Q x [Ev r x]) → wp_env P (ask r) Q.
Proof. intros HQ x. cbn. rewrite andb_true_r. apply HQ. Qed.

Lemma env_wp {A} P (m : M A) (R Q : A → list event → Prop) :
  (∀ a l, forallb P l = true → R a l → Q a l) → wp m R → wp_env P m Q.
Proof. intros HRQ. apply wp_mono. auto. Qed.

Lemma env_mono {A} P (m : M A) (R Q : A → list event → Prop) :
  (∀ a l, forallb P l = true → R a l → Q a l) → wp_env P m R → wp_env P m Q.
Proof. unfold wp_env. intros HRQ. apply wp_mono. auto. Qed.

Ltac env_step :=
  lazymatch goal with
  | |- wp_env _ (_ ≫= _) _ => apply env_bind
  | |- wp_env _ (ask _) _ => apply env_ask; intros ? ?
  | |- wp_env _ (mret _) _ => apply env_ret
  | |- wp_env _ (Ret _) _ => apply env_ret
  end; cbn beta.

(** The same about the result alone. *)
Definition under {A} (P : event → bool) (m : M A) (Q : A → Prop) : Prop :=
  wp m (λ a l, forallb P l = true → Q a).

Lemma under_ret {A} P (a : A) (Q : A → Prop) : Q a → under P (mret a) Q.
Proof. by intros HQ _. Qed.

Lemma under_ask P r (Q : resp r → Prop) : (∀ x, P (Ev r x) = true → Q x) → under P (ask r) Q.
Proof. intros HQ x. cbn. rewrite andb_true_r. apply HQ. Qed.

Lemma under_any {A} P (m : M A) : under P m (λ _, True).
Proof.
  unfold under. induction m as [a|r k IH]; cbn; [done|]. intros x.
  eapply wp_mono; [|apply IH]. done.
Qed.

Lemma under_bind {A B} P (m : M A) (f : A → M B) (R : A → Prop) (Q : B → Prop) :
  under P m R → (∀ a, R a → under P (f a) Q) → under P (m ≫= f) Q.
Proof.
  unfold under. intros Hm Hf. apply wp_bind. eapply wp_mono; [|exact Hm]. cbn. intros a l Hl.
  destruct (forallb P l) eqn:E.
  - eapply wp_mono; [|apply (Hf a (Hl eq_refl))]. cbn. intros b l2 Hb. rewrite forallb_app, E. auto.
  - eapply wp_mono; [|apply (under_any P (f a))]. cbn. intros b l2 _. by rewrite forallb_app, E.
Qed.

(** Skip a step whose result does not matter. *)
Lemma under_skip {A B} P (m : M A) (f : A → M B) (Q : B → Prop) :
  (∀ a, under P (f a) Q) → under P (m ≫= f) Q.
Proof. intros Hf. eapply under_bind; [apply under_any | auto]. Qed.

(** [wp_step]: advance through the next bind, request or return. *)
Ltac wp_step :=
  lazymatch goal with
  | |- wp (_ ≫= _) _ => apply wp_bind
  | |- wp (ask _) _ => apply wp_ask; intros ?
  | |- wp (mret _) _ => apply wp_ret
  | |- wp (Ret _) _ => apply wp_ret
  end; cbn beta.

(** Use a specification already proved, up to consequence. *)
Tactic Notation "wp_apply" uconstr(lem) := eapply wp_mono; [|apply lem]; cbn beta.

(** A goal about the log of a run becomes a [wp]. *)
Ltac wp_log :=
  match goal with
  | |- context [log ?sv ?m ?w] =>
      pattern (log sv m w);
      lazymatch goal with |- ?P _ => refine (wp_run sv m (λ _ l, P l) w _) end
  end; cbn beta.

(** The same for a goal about the result and the log. *)
Ltac wp_res :=
  match goal with
  | |- context [log ?sv ?m ?w] =>
      pattern (result sv m w), (log sv m w);
      lazymatch goal with |- ?P _ _ => refine (wp_run sv m P w _) end
  end; cbn beta.

(** ** Reading logs *)

(** A call of a vendored script. *)
Record call := Call { c_ctx : ctx; c_name : ScriptName; c_keys : list string; c_args : list any }.

Definition call_of (e : event) : option call :=
  match ev_req e with RScript c n ks args => Some (Call c n ks args) | _ => None end.

(** The script calls of a log, in order. *)
Definition calls (l : list event) : list call := omap call_of l.

(** Counter increments of a log. *)
Definition counters (l : list event) : list (string * list (string * string)) :=
  omap (λ e, match ev_req e with RCounter n a => Some (n, a) | _ => None end) l.

Lemma calls_app l1 l2 : calls (l1 ++ l2) = calls l1 ++ calls l2.
Proof. apply omap_app. Qed.

Lemma counters_app l1 l2 : counters (l1 ++ l2) = counters l1 ++ counters l2.
Proof. apply omap_app. Qed.

#[export] Hint Rewrite calls_app counters_app @app_nil_r @app_nil_l : logs.

(** Pick an answer out of a log: the first event on which [f] is defined. *)
Definition answer {A} (f : ∀ r, resp r → option A) (l : list event) : option A :=
  head (omap (λ e, f (ev_req e) (ev_ans e)) l).

Lemma answer_app {A} (f : ∀ r, resp r → option A) l1 l2 :
  answer f (l1 ++ l2) = match answer f l1 with Some a => Some a | None => answer f l2 end.
Proof.
  unfold answer. rewrite omap_app. by destruct (omap (λ e, f (ev_req e) (ev_ans e)) l1).
Qed.

Lemma answer_cons {A} (f : ∀ r, resp r → option A) r (x : resp r) l :
  answer f (Ev r x :: l) = match f r x with Some a => Some a | None => answer f l end.
Proof. unfold answer. cbn. by destruct (f r x). Qed.

Lemma answer_nil {A} (f : ∀ r, resp r → option A) : answer f [] = None.
Proof. done. Qed.

#[export] Hint Rewrite @answer_app @answer_cons @answer_nil : logs.

(** A [for] loop, unrolled at most [fuel] times: [inl] goes round again, [inr]
    leaves the loop; a loop that is still running at the end answers [inl]. *)
Fixpoint loop {S A} (fuel : nat) (body : S → M (S + A)) (s : S) : M (S + A) :=
  match fuel with
  | O => mret (inl s)
  | S n => r ← body s; match r with inl s => loop n body s | inr a => mret (inr a) end
  end.

(** An environment in which nothing is wrong and nothing happens. *)
Definition quiet : server unit := λ w r,
  (match r return resp r with
   | RNow => 1700000000000 * Millisecond
   | RUuid => "00000000-0000-0000-0000-000000000000"
   | RRng => f64_zero
   | RScript _ _ _ _ => inr (AInt64 0)
   | RGet _ _ | RHGet _ _ _ => inr ""
   | RHGetAll _ _ => inr ∅
   | RHMGet _ _ _ => inr []
   | RHExists _ _ _ => inr false
   | RLLen _ _ => inr 0
   | RSMembers _ _ => inr []
   | RPing _ | RCloseClient => None
   | RMasters _ => inr []
   | RScan _ _ _ _ _ => inr ([], 0)
   | RPipeline _ _ => (None, [])
   | REvalSha _ _ _ _ => inr (AInt64 0)
   | RScriptLoad _ _ => inr ""
   | RXRead _ _ _ _ => inl (ESent RedisNil)
   | ROnEvent _ => None
   | RClosed => false
   | RCtxErr _ => None
   | RTimer _ => true
   | RTick _ => false
   | RHandler _ _ => HReturn (inr "null")
   | RBackoffStrategy _ | RBackoffFunc _ => HookReturn 0
   | RRetryDelayOverride _ => HookReturn (0, false)
   | _ => tt
   end, w).
