(* ===== verification/Json.v ===== *)
(** * The part of [encoding/json] that mkq uses

    A parser from bytes to syntax trees (with Go's string unquoting, UTF-8
    repair and nesting limit), the encoder for slices of strings and of 64-bit
    integers (with Go's HTML-safe escaping), and the rules by which decoded
    values are stored into Go variables: [null] leaves a variable alone, field
    names match exactly or else case-insensitively, a mismatched type is an
    error. Numbers keep their literal text. *)

From S2P Require Import Prelude GoLib.

Inductive json :=
| JNull
| JBool (b : bool)
| JNum (lit : string)
| JStr (s : string)
| JArr (l : list json)
| JObj (m : list (string * json)).

Definition dquote : ascii := byte 34.
Definition backslash : ascii := byte 92.

(** ** UTF-8 *)

Definition cont (lo hi : Z) (c : ascii) : bool := (lo <=? byte_of c) && (byte_of c <=? hi).

(** [utf8.DecodeRuneInString]: a well-formed multi-byte sequence at the front
    (second byte restricted as in the Unicode table), an ASCII byte, or one
    invalid byte. *)
Inductive chunk := Ascii1 (c : ascii) | Multi (bs : string) | Bad (c : ascii).

Definition lead2 (a : ascii) : bool := cont 194 223 a.
Definition second3 (a b : ascii) : bool :=
  let x := byte_of a in
  if x =? 224 then cont 160 191 b
  else if x =? 237 then cont 128 159 b
  else cont 225 239 a && cont 128 191 b.
Definition second4 (a b : ascii) : bool :=
  let x := byte_of a in
  if x =? 240 then cont 144 191 b
  else if x =? 244 then cont 128 143 b
  else cont 241 243 a && cont 128 191 b.

Fixpoint chunks (s : string) : list chunk :=
  match s with
  | EmptyString => []
  | String a s1 =>
      if byte_of a <? 128 then Ascii1 a :: chunks s1
      else match s1 with
      | EmptyString => [Bad a]
      | String b s2 =>
          if lead2 a && cont 128 191 b then Multi (String a (String b "")) :: chunks s2
          else match s2 with
          | EmptyString => Bad a :: chunks s1
          | String c s3 =>
              if second3 a b && cont 128 191 c
              then Multi (String a (String b (String c ""))) :: chunks s3
              else match s3 with
              | EmptyString => Bad a :: chunks s1
              | String d s4 =>
                  if second4 a b && cont 128 191 c && cont 128 191 d
                  then Multi (String a (String b (String c (String d "")))) :: chunks s4
                  else Bad a :: chunks s1
              end
          end
      end
  end.

Definition good (c : chunk) : bool := match c with Bad _ => false | _ => true end.

(** [utf8.ValidString]. *)
Definition valid_utf8 (s : string) : bool := forallb good (chunks s).

(** UTF-8 encoding of a code point below 0x110000. *)
Definition encode_rune (r : Z) : string :=
  if r <? 128 then String (byte r) ""
  else if r <? 2048 then String (byte (192 + r / 64)) (String (byte (128 + r mod 64)) "")
  else if r <? 65536 then
    String (byte (224 + r / 4096))
      (String (byte (128 + r / 64 mod 64)) (String (byte (128 + r mod 64)) ""))
  else
    String (byte (240 + r / 262144))
      (String (byte (128 + r / 4096 mod 64))
        (String (byte (128 + r / 64 mod 64)) (String (byte (128 + r mod 64)) ""))).

Definition rune_error : string := encode_rune 65533.

(** ** Encoding *)

Definition hex_digit (d : Z) : ascii := if d <? 10 then byte (48 + d) else byte (87 + d).

(** An ASCII byte inside a JSON string, with [EscapeHTML] on. *)
Definition esc_ascii (c : ascii) : string :=
  let b := byte_of c in
  if (b =? 34) || (b =? 92) then String backslash (String c "")
  else if b =? 8 then String backslash "b"
  else if b =? 12 then String backslash "f"
  else if b =? 10 then String backslash "n"
  else if b =? 13 then String backslash "r"
  else if b =? 9 then String backslash "t"
  else if (b <? 32) || (b =? 60) || (b =? 62) || (b =? 38) then
    String backslash ("u00" +:+ String (hex_digit (b / 16)) (String (hex_digit (b mod 16)) ""))
  else String c "".

Definition line_sep : string := encode_rune 8232.
Definition par_sep : string := encode_rune 8233.

Definition esc_chunk (c : chunk) : string :=
  match c with
  | Ascii1 c => esc_ascii c
  | Multi bs =>
      if String.eqb bs line_sep then String backslash "u2028"
      else if String.eqb bs par_sep then String backslash "u2029"
      else bs
  | Bad _ => String backslash "ufffd"
  end.

Fixpoint sconcat (l : list string) : string :=
  match l with [] => "" | x :: l' => x +:+ sconcat l' end.

(** [json.Marshal] of a string. *)
Definition marshal_string (s : string) : string :=
  String dquote (sconcat (esc_chunk <$> chunks s) +:+ String dquote "").

Fixpoint marshal_elems (l : list string) : string :=
  match l with
  | [] => "]"
  | [x] => x +:+ "]"
  | x :: l' => x +:+ "," +:+ marshal_elems l'
  end.

(** Go slices: [None] is the nil slice, which marshals as [null]. *)
Abbreviation goslice A := (option (list A)).

Definition slice_elems {A} (s : goslice A) : list A := default [] s.
Definition append {A} (s : goslice A) (x : A) : goslice A := Some (slice_elems s ++ [x]).

(** [json.Marshal] of [[]string] and of [[]int64]. *)
Definition marshal_strings (s : goslice string) : string :=
  match s with None => "null" | Some l => "[" +:+ marshal_elems (marshal_string <$> l) end.
Definition marshal_ints (s : goslice Z) : string :=
  match s with None => "null" | Some l => "[" +:+ marshal_elems (FormatInt <$> l) end.

(** ** Parsing *)

Definition is_ws (c : ascii) : bool :=
  let b := byte_of c in (b =? 32) || (b =? 9) || (b =? 10) || (b =? 13).

Fixpoint skip_ws (s : string) : string :=
  match s with
  | String c s' => if is_ws c then skip_ws s' else s
  | EmptyString => EmptyString
  end.

Definition hex_val (c : ascii) : option Z :=
  let b := byte_of c in
  if (48 <=? b) && (b <=? 57) then Some (b - 48)
  else if (97 <=? b) && (b <=? 102) then Some (b - 87)
  else if (65 <=? b) && (b <=? 70) then Some (b - 55)
  else None.

Definition hex4 (a b c d : ascii) : option Z :=
  match hex_val a, hex_val b, hex_val c, hex_val d with
  | Some x, Some y, Some z, Some w => Some (((x * 16 + y) * 16 + z) * 16 + w)
  | _, _, _, _ => None
  end.

Definition is_surrogate (r : Z) : bool := (55296 <=? r) && (r <? 57344).

Definition cons_out (t : string) (r : option (string * string)) : option (string * string) :=
  match r with Some (s, rest) => Some (t +:+ s, rest) | None => None end.

(** The body of a string literal up to its closing quote, unquoted. *)
Fixpoint parse_str (s : string) : option (string * string) :=
  match s with
  | EmptyString => None
  | String a s1 =>
      let x := byte_of a in
      if x =? 34 then Some (EmptyString, s1)
      else if x =? 92 then
        match s1 with
        | EmptyString => None
        | String e s2 =>
            let y := byte_of e in
            if (y =? 34) || (y =? 92) || (y =? 47) then cons_out (String e "") (parse_str s2)
            else if y =? 98 then cons_out (String (byte 8) "") (parse_str s2)
            else if y =? 102 then cons_out (String (byte 12) "") (parse_str s2)
            else if y =? 110 then cons_out (String (byte 10) "") (parse_str s2)
            else if y =? 114 then cons_out (String (byte 13) "") (parse_str s2)
            else if y =? 116 then cons_out (String (byte 9) "") (parse_str s2)
            else if y =? 117 then
              match s2 with
              | String h1 (String h2 (String h3 (String h4 s3))) =>
                  match hex4 h1 h2 h3 h4 with
                  | None => None
                  | Some r =>
                      if negb (is_surrogate r) then cons_out (encode_rune r) (parse_str s3)
                      else match s3 with
                      | String b1 (String u1 (String g1 (String g2 (String g3 (String g4 s4))))) =>
                          match (if (byte_of b1 =? 92) && (byte_of u1 =? 117)
                                 then hex4 g1 g2 g3 g4 else None) with
                          | Some r2 =>
                              if (r <? 56320) && (56320 <=? r2) && (r2 <? 57344)
                              then cons_out (encode_rune (65536 + (r - 55296) * 1024 + (r2 - 56320)))
                                            (parse_str s4)
                              else cons_out rune_error (parse_str s3)
                          | None => cons_out rune_error (parse_str s3)
                          end
                      | _ => cons_out rune_error (parse_str s3)
                      end
                  end
              | _ => None
              end
            else None
        end
      else if x <? 32 then None
      else if x <? 128 then cons_out (String a "") (parse_str s1)
      else match s1 with
      | EmptyString => None
      | String b s2 =>
          if lead2 a && cont 128 191 b then cons_out (String a (String b "")) (parse_str s2)
          else match s2 with
          | EmptyString => cons_out rune_error (parse_str s1)
          | String c s3 =>
              if second3 a b && cont 128 191 c
              then cons_out (String a (String b (String c ""))) (parse_str s3)
              else match s3 with
              | EmptyString => cons_out rune_error (parse_str s1)
              | String d s4 =>
                  if second4 a b && cont 128 191 c && cont 128 191 d
                  then cons_out (String a (String b (String c (String d "")))) (parse_str s4)
                  else cons_out rune_error (parse_str s1)
              end
          end
      end
  end.

(** Numbers: an optional minus sign, an integer part without leading zeros, an
    optional fraction, an optional exponent. The scanners return the literal
    read and what follows. *)
Fixpoint scan_digits (s : string) : string * string :=
  match s with
  | String c s' => if is_digit c then let '(l, r) := scan_digits s' in (String c l, r) else ("", s)
  | EmptyString => ("", "")
  end.

Definition scan_int (s : string) : option (string * string) :=
  match s with
  | String c s' =>
      if byte_of c =? 48 then Some (String c "", s')
      else if is_digit c then Some (scan_digits s) else None
  | EmptyString => None
  end.

Definition scan_frac (s : string) : option (string * string) :=
  match s with
  | String c s' =>
      if byte_of c =? 46 then
        match scan_digits s' with
        | (EmptyString, _) => None
        | (l, r) => Some (String c l, r)
        end
      else Some ("", s)
  | EmptyString => Some ("", "")
  end.

Definition scan_exp (s : string) : option (string * string) :=
  match s with
  | String c s' =>
      if (byte_of c =? 101) || (byte_of c =? 69) then
        let '(sign, s2) := match s' with
          | String d s2 => if (byte_of d =? 43) || (byte_of d =? 45) then (String d "", s2) else ("", s')
          | EmptyString => ("", s')
          end in
        match scan_digits s2 with
        | (EmptyString, _) => None
        | (l, r) => Some (String c (sign +:+ l), r)
        end
      else Some ("", s)
  | EmptyString => Some ("", "")
  end.

Definition scan_number (s : string) : option (string * string) :=
  let '(sign, s0) := match s with
    | String c s' => if byte_of c =? 45 then (String c "", s') else ("", s)
    | EmptyString => ("", s)
    end in
  match scan_int s0 with
  | None => None
  | Some (i, s1) =>
      match scan_frac s1 with
      | None => None
      | Some (f, s2) =>
          match scan_exp s2 with
          | None => None
          | Some (e, s3) => Some (sign +:+ i +:+ f +:+ e, s3)
          end
      end
  end.

(** Outcome of the value parser. *)
Inductive parsed (A : Type) := POk (a : A) (rest : string) | PSyntax | PFuel.
Arguments POk {A} a rest.
Arguments PSyntax {A}.
Arguments PFuel {A}.

Definition lit (word : string) (v : json) (s : string) : parsed json :=
  if String.prefix word s then POk v (sdrop (String.length word) s) else PSyntax.

(** The nesting limit of [encoding/json]. *)
Definition maxNestingDepth : Z := 10000.

Fixpoint parse_value (fuel : nat) (depth : Z) (s : string) {struct fuel} : parsed json :=
  match fuel with
  | O => PFuel
  | S f =>
      match skip_ws s with
      | EmptyString => PSyntax
      | String c s1 =>
          let x := byte_of c in
          if x =? 123 then
            if maxNestingDepth <? depth + 1 then PSyntax
            else match skip_ws s1 with
            | String d s2 =>
                if byte_of d =? 125 then POk (JObj []) s2
                else match parse_members f (depth + 1) s1 with
                     | POk m r => POk (JObj m) r | PSyntax => PSyntax | PFuel => PFuel end
            | EmptyString => PSyntax
            end
          else if x =? 91 then
            if maxNestingDepth <? depth + 1 then PSyntax
            else match skip_ws s1 with
            | String d s2 =>
                if byte_of d =? 93 then POk (JArr []) s2
                else match parse_elems f (depth + 1) s1 with
                     | POk l r => POk (JArr l) r | PSyntax => PSyntax | PFuel => PFuel end
            | EmptyString => PSyntax
            end
          else if x =? 34 then
            match parse_str s1 with Some (t, r) => POk (JStr t) r | None => PSyntax end
          else if x =? 116 then lit "true" (JBool true) (String c s1)
          else if x =? 102 then lit "false" (JBool false) (String c s1)
          else if x =? 110 then lit "null" JNull (String c s1)
          else match scan_number (String c s1) with
               | Some (n, r) => POk (JNum n) r | None => PSyntax end
      end
  end
with parse_elems (fuel : nat) (depth : Z) (s : string) {struct fuel} : parsed (list json) :=
  match fuel with
  | O => PFuel
  | S f =>
      match parse_value f depth s with
      | PSyntax => PSyntax
      | PFuel => PFuel
      | POk v r =>
          match skip_ws r with
          | EmptyString => PSyntax
          | String c r1 =>
              if byte_of c =? 93 then POk [v] r1
              else if byte_of c =? 44 then
                match parse_elems f depth r1 with
                | POk l r2 => POk (v :: l) r2 | PSyntax => PSyntax | PFuel => PFuel end
              else PSyntax
          end
      end
  end
with parse_members (fuel : nat) (depth : Z) (s : string) {struct fuel}
    : parsed (list (string * json)) :=
  match fuel with
  | O => PFuel
  | S f =>
      match skip_ws s with
      | EmptyString => PSyntax
      | String q s1 =>
          if negb (byte_of q =? 34) then PSyntax
          else match parse_str s1 with
          | None => PSyntax
          | Some (k, r) =>
              match skip_ws r with
              | EmptyString => PSyntax
              | String c r1 =>
                  if negb (byte_of c =? 58) then PSyntax
                  else match parse_value f depth r1 with
                  | PSyntax => PSyntax
                  | PFuel => PFuel
                  | POk v r2 =>
                      match skip_ws r2 with
                      | EmptyString => PSyntax
                      | String d r3 =>
                          if byte_of d =? 125 then POk [(k, v)] r3
                          else if byte_of d =? 44 then
                            match parse_members f depth r3 with
                            | POk m r4 => POk ((k, v) :: m) r4
                            | PSyntax => PSyntax | PFuel => PFuel end
                          else PSyntax
                      end
                  end
              end
          end
      end
  end.

(** A whole document: [json.Unmarshal] rejects anything but white space after
    the value. Every two units of fuel consume a byte. *)
Definition parse (s : string) : option json :=
  match parse_value (2 * String.length s + 2) 0 s with
  | POk v r => match skip_ws r with EmptyString => Some v | _ => None end
  | _ => None
  end.

(** [json.NewDecoder(...).Decode]: the first value of the stream. *)
Definition parse_first (s : string) : option json :=
  match parse_value (2 * String.length s + 2) 0 s with
  | POk v _ => Some v
  | _ => None
  end.

(** ** Storing decoded values into Go variables

    Each returns [None] for an [UnmarshalTypeError]. *)

Definition store_int (old : Z) (j : json) : option Z :=
  match j with
  | JNull => Some old
  | JNum l => ParseInt l
  | _ => None
  end.

Definition store_bool (old : bool) (j : json) : option bool :=
  match j with JNull => Some old | JBool b => Some b | _ => None end.

Definition store_string (old : string) (j : json) : option string :=
  match j with JNull => Some old | JStr s => Some s | _ => None end.

(** A pointer to int: [null] sets it to nil. *)
Definition store_int_ptr (j : json) : option (option Z) :=
  match j with
  | JNull => Some None
  | JNum l => Some <$> ParseInt l
  | _ => None
  end.

(** [[]string] and [[]int64]: [null] gives the nil slice, a [null] element the
    zero value. *)
Definition store_strings (j : json) : option (goslice string) :=
  match j with
  | JNull => Some None
  | JArr l => Some <$> mapM (store_string "") l
  | _ => None
  end.

Definition store_ints (j : json) : option (goslice Z) :=
  match j with
  | JNull => Some None
  | JArr l => Some <$> mapM (store_int 0) l
  | _ => None
  end.

(** Field lookup of a struct: an exact match wins, otherwise names are compared
    after folding. [foldName] maps ASCII letters to upper case and the two
    non-ASCII runes that fold to ASCII letters (U+212A to K, U+017F to S). *)
Fixpoint foldName (s : string) : string :=
  match s with
  | EmptyString => EmptyString
  | String a s1 =>
      let x := byte_of a in
      if (97 <=? x) && (x <=? 122) then String (byte (x - 32)) (foldName s1)
      else match s1 with
      | String b s2 =>
          if (x =? 197) && (byte_of b =? 191) then String "S"%char (foldName s2)
          else match s2 with
          | String c s3 =>
              if (x =? 226) && (byte_of b =? 132) && (byte_of c =? 170)
              then String "K"%char (foldName s3) else String a (foldName s1)
          | EmptyString => String a (foldName s1)
          end
      | EmptyString => String a (foldName s1)
      end
  end.

Definition find_field (fields : list string) (key : string) : option string :=
  if bool_decide (key ∈ fields) then Some key
  else List.find (λ f, String.eqb (foldName f) (foldName key)) fields.

(** The values a JSON object assigns to a field, in document order. *)
Definition field_values (fields : list string) (m : list (string * json)) (f : string) : list json :=
  omap (λ kv : string * json,
    if bool_decide (find_field fields kv.1 = Some f) then Some kv.2 else None) m.

(** Assign them one after the other; any mismatch is reported at the end. *)
Definition store_all {A} (store : A → json → option A) (init : A) (vs : list json) : option A :=
  foldl (λ acc v, acc ≫= λ a, store a v) (Some init) vs.

(** [json.RawMessage] fields keep the last value, [null] included; [None] means
    the field was absent. *)
Definition store_raw (vs : list json) : option json := last vs.

(** ** [strconv.ParseFloat] on a JSON number literal

    The decimal value is exact; one rounding produces the binary64. Exponents
    far outside the range are decided without computing the power. *)
Definition digits_value (s : string) : Z := default 0 (parse_digits s 0).

Definition exp_value (s : string) : Z :=
  match s with
  | String _ (String c t) =>
      if byte_of c =? 45 then - digits_value t
      else if byte_of c =? 43 then digits_value t else digits_value (String c t)
  | _ => 0
  end.

Definition decimal_to_f64 (neg : bool) (m e10 : Z) : option float64 :=
  if m =? 0 then Some (S754_zero neg)
  else
    let mag := Z.of_nat (String.length (fmt_digits 2000 m "")) + e10 in
    if 310 <? mag then None
    else if mag <? -330 then Some (S754_zero neg)
    else
      let f := if 0 <=? e10 then f64_of_Z (m * 10 ^ e10)
               else f64_div (S754_finite false (Z.to_pos m) 0)
                            (S754_finite false (Z.to_pos (10 ^ (- e10))) 0) in
      match f with
      | S754_infinity _ => None
      | _ => Some (if neg then SFopp f else f)
      end.

Definition ParseFloat (s : string) : option float64 :=
  let '(neg, s0) := match s with
    | String c s' => if byte_of c =? 45 then (true, s') else (false, s)
    | EmptyString => (false, s)
    end in
  match scan_int s0 with
  | None => None
  | Some (i, s1) =>
      match scan_frac s1 with
      | None => None
      | Some (f, s2) =>
          match scan_exp s2 with
          | Some (e, EmptyString) =>
              let frac := sdrop 1 f in
              decimal_to_f64 neg (digits_value (i +:+ frac))
                (exp_value e - Z.of_nat (String.length frac))
          | _ => None
          end
      end
  end.

Definition store_float (old : float64) (j : json) : option float64 :=
  match j with JNull => Some old | JNum l => ParseFloat l | _ => None end.

(** ** Lemmas: strings survive encoding and decoding *)

Lemma parse_str_esc_ascii a rest :
  (byte_of a <? 128) = true →
  parse_str (esc_ascii a +:+ rest) = cons_out (String a "") (parse_str rest).
Proof. destruct a as [[][][][][][][][]]; intros H; solve [done | vm_compute in H; done | reflexivity]. Qed.

Lemma cons_out_nil r : cons_out "" r = r.
Proof. by destruct r as [[]|]. Qed.

Lemma parse_str_high a s1 :
  (byte_of a <? 128) = false →
  parse_str (String a s1) =
    match s1 with
    | EmptyString => None
    | String b s2 =>
        if lead2 a && cont 128 191 b then cons_out (String a (String b "")) (parse_str s2)
        else match s2 with
        | EmptyString => cons_out rune_error (parse_str s1)
        | String c s3 =>
            if second3 a b && cont 128 191 c
            then cons_out (String a (String b (String c ""))) (parse_str s3)
            else match s3 with
            | EmptyString => cons_out rune_error (parse_str s1)
            | String d s4 =>
                if second4 a b && cont 128 191 c && cont 128 191 d
                then cons_out (String a (String b (String c (String d "")))) (parse_str s4)
                else cons_out rune_error (parse_str s1)
            end
        end
    end.
Proof.
  intros H. zbool. cbn [parse_str].
  destruct (Z.eqb_spec (byte_of a) 34); [lia|]. destruct (Z.eqb_spec (byte_of a) 92); [lia|].
  destruct (Z.ltb_spec (byte_of a) 32); [lia|]. destruct (Z.ltb_spec (byte_of a) 128); [lia|].
  done.
Qed.

(** An escaped multi-byte sequence reads back as itself, provided the raw bytes
    do. *)
Lemma parse_str_multi bs rest :
  parse_str (bs +:+ rest) = cons_out bs (parse_str rest) →
  parse_str (esc_chunk (Multi bs) +:+ rest) = cons_out bs (parse_str rest).
Proof.
  intros H. unfold esc_chunk.
  destruct (String.eqb_spec bs line_sep) as [->|]; [reflexivity|].
  destruct (String.eqb_spec bs par_sep) as [->|]; [reflexivity|]. done.
Qed.

(** The unquoted body of an encoded string, one source byte sequence at a
    time. *)
Lemma parse_str_chunks_aux n s rest :
  (String.length s ≤ n)%nat → valid_utf8 s = true →
  parse_str (sconcat (esc_chunk <$> chunks s) +:+ String dquote rest) = Some (s, rest).
Proof.
  revert s. induction n as [|n IH]; intros s Hn Hv.
  { destruct s; [reflexivity | simpl in Hn; lia]. }
  destruct s as [|a s1]; [reflexivity|].
  unfold valid_utf8 in Hv. cbn [chunks] in Hv |- *.
  destruct (byte_of a <? 128) eqn:Ha.
  { cbn -[parse_str esc_ascii dquote]. rewrite <- sapp_assoc, parse_str_esc_ascii by done.
    rewrite IH; [done | simpl in Hn; lia | done]. }
  destruct s1 as [|b s2]; [done|]. simpl in Hn.
  destruct (lead2 a && cont 128 191 b) eqn:H2.
  { cbn -[parse_str esc_chunk dquote]. rewrite <- sapp_assoc, parse_str_multi.
    - by rewrite IH by (done || lia).
    - cbn [String.append]. rewrite parse_str_high by done. by rewrite H2. }
  destruct s2 as [|c s3]; [done|]. simpl in Hn.
  destruct (second3 a b && cont 128 191 c) eqn:H3.
  { cbn -[parse_str esc_chunk dquote]. rewrite <- sapp_assoc, parse_str_multi.
    - by rewrite IH by (done || lia).
    - cbn [String.append]. rewrite parse_str_high by done. by rewrite H2, H3. }
  destruct s3 as [|d s4]; [done|]. simpl in Hn.
  destruct (second4 a b && cont 128 191 c && cont 128 191 d) eqn:H4; [|done].
  cbn -[parse_str esc_chunk dquote]. rewrite <- sapp_assoc, parse_str_multi.
  - by rewrite IH by (done || lia).
  - cbn [String.append]. rewrite parse_str_high by done. by rewrite H2, H3, H4.
Qed.

Lemma parse_str_marshal s rest :
  valid_utf8 s = true →
  parse_str (sconcat (esc_chunk <$> chunks s) +:+ String dquote rest) = Some (s, rest).
Proof. by apply (parse_str_chunks_aux (String.length s)). Qed.

(** ** Lemmas: decimal literals are JSON numbers *)

Fixpoint all_digits (s : string) : bool :=
  match s with EmptyString => true | String c s' => is_digit c && all_digits s' end.

Lemma fmt_digits_shape fuel n acc :
  0 ≤ n < 10 ^ Z.of_nat fuel → (0 < fuel)%nat →
  ∃ d ds, fmt_digits fuel n acc = String (digit d) (ds +:+ acc) ∧ 0 ≤ d < 10 ∧
          all_digits ds = true ∧ (0 < n → 0 < d) ∧ (n = 0 → ds = "").
Proof.
  revert n acc. induction fuel as [|f IH]; intros n acc Hn Hf; [lia|].
  rewrite Nat2Z.inj_succ, Z.pow_succ_r in Hn by lia. cbn [fmt_digits].
  destruct (Z.ltb_spec n 10).
  { exists n, "". rewrite Z.mod_small by lia. split_and!; (done || lia). }
  destruct f as [|f']; [simpl in Hn; lia|].
  destruct (IH (n / 10) (String (digit (n mod 10)) acc)) as (d & ds & E & Hd & Hall & Hpos & _).
  { split; [apply Z.div_pos; lia | apply Z.div_lt_upper_bound; lia]. }
  { lia. }
  pose proof (Z.mod_pos_bound n 10 ltac:(lia)).
  exists d, (ds +:+ String (digit (n mod 10)) ""). rewrite E. split_and!; try (done || lia).
  - by rewrite <- sapp_assoc.
  - clear -Hall H0. induction ds as [|c ds IHds]; simpl in *.
    + by rewrite is_digit_digit.
    + apply andb_true_iff in Hall as [-> ?]. by rewrite IHds.
  - intros _. apply Hpos. apply Z.div_str_pos. lia.
Qed.

Definition terminator (c : ascii) : bool := (byte_of c =? 44) || (byte_of c =? 93).

Lemma terminator_not_digit c : terminator c = true → is_digit c = false.
Proof. unfold terminator, is_digit. lia. Qed.

Lemma scan_digits_app ds c rest :
  all_digits ds = true → terminator c = true →
  scan_digits (ds +:+ String c rest) = (ds, String c rest).
Proof.
  intros Hd Hc. induction ds as [|x ds IH]; cbn.
  - by rewrite terminator_not_digit.
  - simpl in Hd. apply andb_true_iff in Hd as [-> ?]. by rewrite IH.
Qed.

Lemma scan_frac_exp_none c rest :
  terminator c = true →
  scan_frac (String c rest) = Some ("", String c rest) ∧
  scan_exp (String c rest) = Some ("", String c rest).
Proof.
  unfold terminator. intros H. split; cbn.
  - destruct (Z.eqb_spec (byte_of c) 46); [lia|done].
  - destruct (Z.eqb_spec (byte_of c) 101); [lia|].
    destruct (Z.eqb_spec (byte_of c) 69); [lia|done].
Qed.

Lemma scan_int_fmt n c rest :
  0 ≤ n < 10 ^ 20 → terminator c = true →
  scan_int (fmt_digits 20 n "" +:+ String c rest) = Some (fmt_digits 20 n "", String c rest).
Proof.
  intros Hn Hc.
  destruct (fmt_digits_shape 20 n "" Hn ltac:(lia)) as (d & ds & E & Hd & Hall & Hpos & Hz).
  rewrite E, sapp_nil_r. cbn -[byte_of scan_digits].
  rewrite byte_of_digit, is_digit_digit by done. destruct (Z.eqb_spec (48 + d) 48).
  - assert (n = 0) as -> by lia. rewrite (Hz eq_refl). done.
  - change (String (digit d) (ds +:+ String c rest)) with (String (digit d) ds +:+ String c rest).
    rewrite scan_digits_app; [done | simpl; by rewrite is_digit_digit | done].
Qed.

Lemma scan_number_FormatInt z c rest :
  in64 z → terminator c = true →
  scan_number (FormatInt z +:+ String c rest) = Some (FormatInt z, String c rest).
Proof.
  intros Hz Hc. unfold in64, minInt64, maxInt64 in Hz.
  destruct (scan_frac_exp_none c rest Hc) as [Hf He]. unfold FormatInt.
  destruct (Z.ltb_spec z 0).
  - unfold scan_number. cbn -[scan_int scan_frac scan_exp fmt_digits].
    change (byte_of "-"%char =? 45) with true. cbv iota beta.
    rewrite scan_int_fmt by (done || lia). rewrite Hf, He. cbn -[fmt_digits].
    by rewrite sapp_nil_r.
  - destruct (fmt_digits_head 20 z "" ltac:(lia) ltac:(lia)) as (d & s & Hd & Es).
    unfold scan_number. rewrite Es. cbn -[scan_int scan_frac scan_exp fmt_digits byte_of].
    rewrite byte_of_digit by done. destruct (Z.eqb_spec (48 + d) 45); [lia|].
    change (String (digit d) (s +:+ String c rest)) with (String (digit d) s +:+ String c rest).
    rewrite <- Es, scan_int_fmt by (done || lia). rewrite Hf, He. cbn -[fmt_digits].
    by rewrite !sapp_nil_r.
Qed.

(** ** Round trips of slices *)

(** The text [x] is read as [v] when an array separator follows. *)
Definition elem_ok (x : string) (v : json) : Prop :=
  (∃ c t, x = String c t ∧ is_ws c = false ∧ byte_of c ≠ 93) ∧
  ∀ f d c rest, terminator c = true →
    parse_value (S f) d (x +:+ String c rest) = POk v (String c rest).

Lemma elem_ok_string s : valid_utf8 s = true → elem_ok (marshal_string s) (JStr s).
Proof.
  intros Hv. split; [by eexists _, _|]. intros f d c rest _. unfold marshal_string.
  cbn -[parse_str dquote]. change (is_ws dquote) with false. cbv iota.
  change (byte_of dquote) with 34. cbn -[parse_str dquote].
  rewrite <- sapp_assoc. cbn -[parse_str dquote]. by rewrite parse_str_marshal.
Qed.

Lemma FormatInt_first z : ∃ c t, FormatInt z = String c t ∧ (c = "-"%char ∨ is_digit c = true).
Proof.
  unfold FormatInt. destruct (Z.ltb_spec z 0).
  - eexists _, _. split; [reflexivity | by left].
  - destruct (fmt_digits_head 20 z "" ltac:(lia) ltac:(lia)) as (d & s & Hd & ->).
    eexists _, _. split; [reflexivity | right; by apply is_digit_digit].
Qed.

Lemma elem_ok_int z : in64 z → elem_ok (FormatInt z) (JNum (FormatInt z)).
Proof.
  intros Hz. destruct (FormatInt_first z) as (c0 & t & E & Hc0).
  assert (is_ws c0 = false ∧ byte_of c0 ≠ 93 ∧ byte_of c0 ≠ 123 ∧ byte_of c0 ≠ 91 ∧
          byte_of c0 ≠ 34 ∧ byte_of c0 ≠ 116 ∧ byte_of c0 ≠ 102 ∧ byte_of c0 ≠ 110) as Hne.
  { destruct Hc0 as [->|Hd]; [by vm_compute|]. unfold is_digit in Hd. unfold is_ws.
    split_and!; lia. }
  destruct Hne as (Hws & ? & ? & ? & ? & ? & ? & ?).
  split; [by eexists _, _|]. intros f d c rest Hc.
  pose proof (scan_number_FormatInt z c rest Hz Hc) as Hscan. rewrite E in Hscan |- *.
  cbn -[scan_number byte_of is_ws] in Hscan |- *. rewrite Hws.
  repeat match goal with H : byte_of c0 ≠ ?k |- context [byte_of c0 =? ?k] =>
    rewrite (proj2 (Z.eqb_neq _ _) H) end.
  by rewrite Hscan.
Qed.

Lemma parse_elems_marshal xs vs d rest :
  Forall2 elem_ok xs vs → xs ≠ [] → ∀ f, (length xs < f)%nat →
  parse_elems f d (marshal_elems xs +:+ rest) = POk vs rest.
Proof.
  induction 1 as [|x v xs vs [Hhd Hx] Hrest IH]; [done|]. intros _ f Hf.
  destruct f as [|[|f]]; [simpl in Hf; lia..|].
  destruct xs as [|y ys]; inversion Hrest as [|? v2 ? vs2 Hy Hys]; subst.
  - cbn [marshal_elems]. rewrite <- sapp_assoc. cbn [String.append parse_elems].
    by rewrite Hx.
  - change (marshal_elems (x :: y :: ys)) with (x +:+ "," +:+ marshal_elems (y :: ys)).
    rewrite <- !sapp_assoc. cbn [String.append]. remember (S f) as f' eqn:Ef.
    cbn [parse_elems]. rewrite Ef, Hx by done. rewrite <- Ef.
    change (skip_ws (String "," ?r)) with (String "," r).
    change (byte_of "," =? 93) with false. change (byte_of "," =? 44) with true. cbv iota.
    rewrite IH; [done | done | simpl in *; lia].
Qed.

Lemma marshal_elems_length xs :
  Forall (λ x, x ≠ "") xs → (2 * length xs ≤ String.length (marshal_elems xs) + 0)%nat.
Proof.
  induction 1 as [|x xs Hx Hxs IH]; [simpl; lia|].
  assert (1 ≤ String.length x)%nat by (destruct x; simpl; [done|lia]).
  destruct xs as [|y ys]; cbn [marshal_elems]; rewrite ?slength_app; simpl in *; lia.
Qed.

Lemma parse_marshal_array xs vs :
  Forall2 elem_ok xs vs → parse ("[" +:+ marshal_elems xs) = Some (JArr vs).
Proof.
  intros Hall. destruct xs as [|x xs].
  { inversion Hall. reflexivity. }
  assert (Forall (λ x, x ≠ "") (x :: xs)) as Hne.
  { eapply Forall2_Forall_l; [exact Hall|]. apply Forall_true. intros v y [(c & t & -> & _) _]. done. }
  pose proof (marshal_elems_length _ Hne) as Hlen.
  pose proof (parse_elems_marshal _ _ (0 + 1) "" Hall ltac:(done)) as Hel.
  assert (∃ c t, marshal_elems (x :: xs) = String c t ∧ is_ws c = false ∧ byte_of c ≠ 93)
    as (c & t & Et & Hws & H93).
  { inversion Hall as [|? v ? ? [(c & t & -> & ? & ?) _]]; subst.
    destruct xs; eexists _, _; split_and!; try done; reflexivity. }
  unfold parse. remember (2 * String.length ("[" +:+ marshal_elems (x :: xs)) + 2)%nat as f eqn:Ef.
  destruct f as [|f]; [lia|].
  specialize (Hel f). rewrite sapp_nil_r in Hel. rewrite Et in *.
  cbn -[byte_of is_ws parse_elems]. change (is_ws "[") with false. cbv iota.
  change (byte_of "[") with 91. cbn -[byte_of is_ws parse_elems].
  rewrite Hws. cbv iota. rewrite (proj2 (Z.eqb_neq _ _) H93).
  change (maxNestingDepth <? 0 + 1) with false. cbv iota. rewrite Hel; [reflexivity|].
  simpl in Ef, Hlen |- *. lia.
Qed.

Lemma mapM_store {A} (store : json → option A) (enc : A → json) (l : list A) :
  (∀ x, x ∈ l → store (enc x) = Some x) →
  @Some (list A) <$> mapM store (enc <$> l) = Some (Some l).
Proof.
  intros H. assert (mapM store (enc <$> l) = Some l) as ->; [|done].
  induction l as [|x l IH]; [done|]. cbn. rewrite H by set_solver. cbn.
  rewrite IH; [done | set_solver].
Qed.

(** A slice of valid UTF-8 strings survives [json.Marshal] and
    [json.Unmarshal]. *)
Lemma strings_roundtrip s :
  Forall (λ x, valid_utf8 x = true) (slice_elems s) →
  parse (marshal_strings s) ≫= store_strings = Some s.
Proof.
  destruct s as [l|]; [|done]. cbn [marshal_strings]. intros Hv. change (slice_elems (Some l)) with l in Hv.
  rewrite (parse_marshal_array _ (JStr <$> l)).
  - apply (mapM_store (store_string "")). by intros.
  - induction Hv; simpl; constructor; auto using elem_ok_string.
Qed.

(** So does a slice of 64-bit integers. *)
Lemma ints_roundtrip s :
  Forall in64 (slice_elems s) → parse (marshal_ints s) ≫= store_ints = Some s.
Proof.
  destruct s as [l|]; [|done]. cbn [marshal_ints]. intros Hv. change (slice_elems (Some l)) with l in Hv.
  rewrite (parse_marshal_array _ ((λ z, JNum (FormatInt z)) <$> l)).
  - apply (mapM_store (store_int 0)). intros x Hx. apply ParseInt_FormatInt.
    by eapply Forall_forall in Hv.
  - induction Hv; simpl; constructor; auto using elem_ok_int.
Qed.
