(* ===== verification/Jobs.v ===== *)
(** * What a job is on the wire (job.go and the decoding half of worker.go)

    A job is a Redis HASH of strings. This file models how the worker reads it:
    the polymorphic reply of moveToActive, the flat HGETALL array, the BullMQ
    [opts] JSON with its polymorphic fields, the typed [Job] and [JobState]
    views, and the failure history that every failed attempt extends. *)

From S2P Require Import Prelude GoLib Json Backoff.

(** ** parseInt, toInt64 *)

Definition parseInt (s : string) : Z :=
  if String.eqb s "" then 0 else default 0 (ParseInt s).

Definition toInt64 `{GoArch} (v : any) : Z * bool :=
  match v with
  | AInt64 n | AInt n | AInt32 n => (n, true)
  | AFloat f => (int64_of_f64 f, true)
  | _ => (0, false)
  end.

(** [hash[k]] on a Go map of strings: the zero value when absent. *)
Definition hget (h : gmap string string) (k : string) : string := default "" (h !! k).

(** ** flatHashToMap *)

Definition errOddHash (n : nat) : err :=
  EText ("HGETALL flat array has odd length " +:+ FormatInt (Z.of_nat n)).

Definition errHashElem (i : nat) : err :=
  EText ("HGETALL element " +:+ FormatInt (Z.of_nat i) +:+ "/" +:+ FormatInt (Z.of_nat i + 1)
         +:+ " not a string").

(** The loop over pairs, from index [i] on. *)
Fixpoint flatHashToMap_loop (i : nat) (arr : list any) (m : gmap string string)
    : res (gmap string string) :=
  match arr with
  | AStr k :: AStr v :: rest => flatHashToMap_loop (i + 2) rest (<[k := v]> m)
  | _ :: _ :: _ => inl (errHashElem i)
  | _ => inr m
  end.

Definition flatHashToMap (arr : list any) : res (gmap string string) :=
  if negb (Nat.even (length arr)) then inl (errOddHash (length arr))
  else flatHashToMap_loop 0 arr ∅.

(** ** parseMoveToActiveResult *)

Record activeResult := mkActive {
  ar_jobMap : gmap string string;
  ar_jobID : string;
  ar_ok : bool;
  ar_expireTimeMs : Z;
  ar_nextDelayedTs : Z;
}.

Definition noJob (expire next : Z) : activeResult := mkActive ∅ "" false expire next.

Definition parseMoveToActiveResult `{GoArch} (r : any) : res activeResult :=
  match r with
  | AArr (a0 :: a1 :: a2 :: a3 :: _) =>
      match a0 with
      | AArr jobData =>
          match a1 with
          | AStr id =>
              if String.eqb id "" then inr (noJob 0 0)
              else match flatHashToMap jobData with
                   | inl e => inl e
                   | inr m => inr (mkActive m id true 0 0)
                   end
          | _ => inr (noJob 0 0)
          end
      | _ => inr (noJob (toInt64 a2).1 (toInt64 a3).1)
      end
  | _ => inr (noJob 0 0)
  end.

(** ** Job options *)

Record retentionLimit := mkRetention { count : option Z; ageSeconds : option Z }.

Record jobOpts := mkJobOpts {
  attempts : Z;
  backoff : option BackoffStrategy;
  lifo : bool;
  removeOnComplete : option retentionLimit;
  removeOnFail : option retentionLimit;
}.

Definition noOpts : jobOpts := mkJobOpts 0 None false None None.

(** [parseRemoveOpt]; an absent field is [None]. *)
Definition parseRemoveOpt (raw : option json) : option retentionLimit :=
  match raw with
  | None => None
  | Some JNull | Some (JBool false) => None
  | Some (JBool true) => Some (mkRetention (Some 0) None)
  | Some j =>
      match store_int 0 j with
      | Some n => Some (mkRetention (Some n) None)
      | None =>
          match j with
          | JObj m =>
              let vals := field_values ["count"; "age"] m in
              match store_all (λ _ v, store_int_ptr v) None (vals "count"),
                    store_all (λ _ v, store_int_ptr v) None (vals "age") with
              | Some c, Some a =>
                  match c, a with
                  | None, None => None
                  | _, _ => Some (mkRetention c a)
                  end
              | _, _ => None
              end
          | _ => None
          end
      end
  end.

Definition parseBackoffOpt (raw : option json) : option BackoffStrategy :=
  match raw with
  | None | Some JNull => None
  | Some j =>
      match store_int 0 j with
      | Some ms => Some (mkBackoff "fixed" (ms *! Millisecond) f64_zero)
      | None =>
          match j with
          | JObj m =>
              let vals := field_values ["type"; "delay"; "jitter"] m in
              match store_all store_string "" (vals "type"),
                    store_all store_int 0 (vals "delay"),
                    store_all store_float f64_zero (vals "jitter") with
              | Some ty, Some d, Some jit =>
                  if String.eqb ty "" then None
                  else Some (mkBackoff ty (d *! Millisecond) jit)
              | _, _, _ => None
              end
          | _ => None
          end
      end
  end.

Definition optFields : list string :=
  ["attempts"; "lifo"; "backoff"; "removeOnComplete"; "removeOnFail"].

(** The two-stage decode of [parseJobOpts]: the struct, then its raw fields. *)
Definition optsOfObject (m : list (string * json)) : jobOpts :=
  let vals := field_values optFields m in
  match store_all store_int 0 (vals "attempts"), store_all store_bool false (vals "lifo") with
  | Some att, Some lf =>
      mkJobOpts att (parseBackoffOpt (store_raw (vals "backoff"))) lf
        (parseRemoveOpt (store_raw (vals "removeOnComplete")))
        (parseRemoveOpt (store_raw (vals "removeOnFail")))
  | _, _ => noOpts
  end.

Definition parseJobOpts (raw : string) : jobOpts :=
  if String.eqb raw "" || String.eqb raw "{}" then noOpts
  else match parse raw with
  | Some (JObj m) => optsOfObject m
  | _ => noOpts
  end.

(** ** Failure history *)

Definition attemptHistoryField : string := "mkqAttemptsAt".

Record failureHistory := mkHistory { fh_stacktrace : string; fh_attemptsAt : string }.

Definition decodeJSONStrings (raw : string) : goslice string :=
  if String.eqb raw "" then None else default None (parse raw ≫= store_strings).

Definition decodeJSONInt64s (raw : string) : goslice Z :=
  if String.eqb raw "" then None else default None (parse raw ≫= store_ints).

(** [mustJSONString] on the slices of the history cannot fail to marshal. *)
Definition buildFailureHistory (jobMap : gmap string string) (reason : string) : failureHistory :=
  let traces := append (decodeJSONStrings (hget jobMap "stacktrace")) reason in
  let starts := decodeJSONInt64s (hget jobMap attemptHistoryField) in
  let starts := match ParseInt (hget jobMap "processedOn") with
                | Some v => if 0 <? v then append starts v else starts
                | None => starts
                end in
  mkHistory (marshal_strings traces) (marshal_ints starts).

(** [mustJSONString] of a handler's return value or of a one-element trace. *)
Definition mustJSONString (marshalled : res string) : string :=
  match marshalled with
  | inr s => s
  | inl e => marshal_string ("mkq: failed to marshal value: " +:+ Error e)
  end.

(** ** Typed views *)

(** The user's payload type, through its JSON codec: [json.Unmarshal] into [T]
    and [json.Marshal] of a [T], and Go's zero value. *)
Class Payload (T : Type) := {
  zero : T;
  UnmarshalJSON : string → res T;
  MarshalJSON : T → res string;
}.

(** A time is kept as its Unix millisecond; [None] is the zero [time.Time]. *)
Record JobT (T : Type) := mkJob {
  Job_ID : string;
  Job_Name : string;
  Job_Data : T;
  Job_Timestamp : Z;
  Job_AttemptsMade : Z;
  Job_AttemptsStarted : Z;
  Job_StalledCounter : Z;
  Job_ProcessedBy : string;
  Job_queue : bool;   (* the back-pointer is non-nil *)
}.
Arguments mkJob {T}.
Arguments Job_ID {T}.
Arguments Job_Name {T}.
Arguments Job_Data {T}.
Arguments Job_Timestamp {T}.
Arguments Job_AttemptsMade {T}.
Arguments Job_AttemptsStarted {T}.
Arguments Job_StalledCounter {T}.
Arguments Job_ProcessedBy {T}.
Arguments Job_queue {T}.

Definition buildJob {T} `{Payload T} (jobID : string) (jobMap : gmap string string) : res (JobT T) :=
  let data := match jobMap !! "data" with
              | Some raw => if String.eqb raw "" then inr zero else UnmarshalJSON raw
              | None => inr zero
              end in
  match data with
  | inl e => inl (Errorw "unmarshal data" e)
  | inr d =>
      inr (mkJob jobID (hget jobMap "name") d (ParseIntV (hget jobMap "timestamp")).1
             (parseInt (hget jobMap "atm")) (parseInt (hget jobMap "ats"))
             (parseInt (hget jobMap "stc")) (hget jobMap "pb") false)
  end.

(** Raw JSON fields are [None] when nil. *)
Record JobState := mkJobState {
  ProcessedOn : option Z;
  FinishedOn : option Z;
  ReturnValue : option string;
  FailedReason : string;
  Stacktrace : goslice string;
  Progress : option string;
  Opts : option string;
  StDelay : Z;
  AttemptsAt : goslice Z;
}.

Definition positive_ms (s : string) : option Z :=
  match ParseInt s with Some v => if 0 <? v then Some v else None | None => None end.

Definition rawField (s : string) : option string := if String.eqb s "" then None else Some s.

Definition buildJobState (hash : gmap string string) : JobState :=
  {| FailedReason := hget hash "failedReason";
     ProcessedOn := positive_ms (hget hash "processedOn");
     FinishedOn := positive_ms (hget hash "finishedOn");
     ReturnValue := rawField (hget hash "returnvalue");
     Progress := rawField (hget hash "progress");
     Opts := rawField (hget hash "opts");
     StDelay := default 0 (ParseInt (hget hash "delay"));
     AttemptsAt := decodeJSONInt64s (hget hash attemptHistoryField);
     Stacktrace := decodeJSONStrings (hget hash "stacktrace") |}.

(** ** Lemmas: the flat HGETALL array *)

(** What Redis sends for a HASH: its fields in some order, flattened. *)
Definition flatten (kvs : list (string * string)) : list any :=
  kvs ≫= λ kv, [AStr kv.1; AStr kv.2].

Lemma flatten_cons k v kvs : flatten ((k, v) :: kvs) = AStr k :: AStr v :: flatten kvs.
Proof. done. Qed.

Lemma length_flatten kvs : length (flatten kvs) = (2 * length kvs)%nat.
Proof. induction kvs as [|[k v] kvs IH]; [done|]. rewrite flatten_cons. simpl. lia. Qed.

Lemma flatHashToMap_loop_flatten i kvs m :
  NoDup kvs.*1 → (∀ k, k ∈ kvs.*1 → m !! k = None) →
  flatHashToMap_loop i (flatten kvs) m = inr (list_to_map kvs ∪ m).
Proof.
  revert i m. induction kvs as [|[k v] kvs IH]; intros i m Hnd Hm.
  { simpl. by rewrite map_empty_union. }
  rewrite flatten_cons. cbn [flatHashToMap_loop]. cbn in Hnd.
  apply NoDup_cons in Hnd as [Hk Hnd]. rewrite IH; [|done|].
  - f_equal. cbn. rewrite <- insert_union_l. rewrite <- insert_union_r; [done|].
    by apply not_elem_of_list_to_map_1.
  - intros k' Hk'. rewrite lookup_insert_ne by (intros ->; done).
    apply Hm. by right.
Qed.

(** Success is exactly: an even number of elements, all of them strings. *)
Lemma flatHashToMap_loop_strings i arr m m' :
  Nat.even (length arr) = true →
  flatHashToMap_loop i arr m = inr m' → Forall (λ v, ∃ s, v = AStr s) arr.
Proof.
  remember (length arr) as n eqn:En. revert i arr m En.
  induction n as [n IH] using lt_wf_ind. intros i arr m En Hev.
  destruct arr as [|a [|b arr]]; [constructor | subst; done |].
  cbn [flatHashToMap_loop]. destruct a; try done. destruct b; try done. intros H.
  constructor; [eauto|]. constructor; [eauto|].
  eapply (IH (length arr)); [subst; simpl; lia | done | by subst | exact H].
Qed.

(** ** Properties *)

(** Reading back a job HASH: whatever order Redis lists the fields in, the
    worker rebuilds exactly the hash it was sent. *)
Theorem flatHashToMap_roundtrip kvs :
  NoDup kvs.*1 → flatHashToMap (flatten kvs) = inr (list_to_map kvs).
Proof.
  intros Hnd. unfold flatHashToMap. rewrite length_flatten.
  replace (Nat.even (2 * length kvs)) with true by (symmetry; apply Nat.even_even).
  cbn [negb]. rewrite flatHashToMap_loop_flatten; [|done|].
  - by rewrite map_union_empty.
  - intros. apply lookup_empty.
Qed.

Lemma flatHashToMap_roundtrip_witness :
  flatHashToMap (flatten [("atm", "2"); ("name", "email")]) =
    inr (list_to_map [("atm", "2"); ("name", "email")]).
Proof. apply flatHashToMap_roundtrip. apply (bool_decide_unpack _). by vm_compute. Defined.

(** A malformed array is always refused: decoding succeeds only when every
    element is a string and keys and values pair up. *)
Theorem flatHashToMap_sound arr m :
  flatHashToMap arr = inr m →
  Nat.even (length arr) = true ∧ Forall (λ v, ∃ s, v = AStr s) arr.
Proof.
  unfold flatHashToMap. destruct (Nat.even (length arr)) eqn:E; [|done]. cbn. intros H.
  split; [done | by eapply flatHashToMap_loop_strings].
Qed.

Lemma flatHashToMap_sound_witness :
  Nat.even (length [AStr "id"; AStr "1"]) = true ∧
  Forall (λ v, ∃ s, v = AStr s) [AStr "id"; AStr "1"].
Proof. apply (flatHashToMap_sound _ {["id" := "1"]}). by vm_compute. Defined.

(** ** Failure history across attempts *)

(** One failed attempt: it started at [f.1] (the processedOn field moveToActive
    wrote) and failed for the reason [f.2]; the finishing script stores the
    three fields. *)
Definition record_failure (h : gmap string string) (f : Z * string) : gmap string string :=
  let h := <["processedOn" := FormatInt f.1]> h in
  let fh := buildFailureHistory h f.2 in
  <["failedReason" := f.2]>
    (<["stacktrace" := fh_stacktrace fh]> (<[attemptHistoryField := fh_attemptsAt fh]> h)).

Definition good_failure (f : Z * string) : Prop :=
  0 < f.1 ≤ maxInt64 ∧ valid_utf8 f.2 = true.

(** The history fields of [h] hold the failures [fs]. *)
Definition holds_history (h : gmap string string) (fs : list (Z * string)) : Prop :=
  slice_elems (decodeJSONStrings (hget h "stacktrace")) = fs.*2 ∧
  slice_elems (decodeJSONInt64s (hget h attemptHistoryField)) = fs.*1.

Lemma hget_insert_eq h k v : hget (<[k := v]> h) k = v.
Proof. unfold hget. by rewrite lookup_insert_eq. Qed.

Lemma hget_insert_ne h k k' v : k ≠ k' → hget (<[k := v]> h) k' = hget h k'.
Proof. intros. unfold hget. by rewrite lookup_insert_ne. Qed.

Lemma decodeJSONStrings_marshal l :
  Forall (λ x, valid_utf8 x = true) l → decodeJSONStrings (marshal_strings (Some l)) = Some l.
Proof. intros. unfold decodeJSONStrings. cbn [String.eqb]. by rewrite strings_roundtrip. Qed.

Lemma decodeJSONInt64s_marshal l :
  Forall in64 l → decodeJSONInt64s (marshal_ints (Some l)) = Some l.
Proof. intros. unfold decodeJSONInt64s. cbn [String.eqb]. by rewrite ints_roundtrip. Qed.

Lemma holds_history_step h fs f :
  Forall good_failure (fs ++ [f]) → holds_history h fs →
  holds_history (record_failure h f) (fs ++ [f]).
Proof.
  intros Hg [Hs Hi]. unfold record_failure, holds_history.
  assert (in64 f.1 ∧ 0 < f.1) as [Hin Hpos].
  { apply Forall_app in Hg as [_ Hg]. inversion Hg as [|? ? [? _]]. consts. lia. }
  rewrite hget_insert_ne, hget_insert_eq by done.
  rewrite !hget_insert_ne, hget_insert_eq by done.
  unfold buildFailureHistory. cbn [fh_stacktrace fh_attemptsAt].
  rewrite (hget_insert_ne h _ "stacktrace"), (hget_insert_ne h _ attemptHistoryField),
    hget_insert_eq by done.
  rewrite ParseInt_FormatInt, (proj2 (Z.ltb_lt _ _)) by done.
  unfold append. rewrite Hs, Hi, !fmap_app. split.
  - rewrite decodeJSONStrings_marshal; [done|].
    change (Forall (λ x, valid_utf8 x = true) (fs.*2 ++ (snd <$> [f]))). rewrite <- fmap_app.
    apply Forall_fmap. eapply Forall_impl; [exact Hg|]. by intros ? [_ ?].
  - rewrite decodeJSONInt64s_marshal; [done|].
    change (Forall in64 (fs.*1 ++ (fst <$> [f]))). rewrite <- fmap_app.
    apply Forall_fmap. eapply Forall_impl; [exact Hg|]. intros ? [? _]. cbn. consts. lia.
Qed.

(** C35. No failure is forgotten: after any number of failed attempts of a fresh job
    the stored stacktrace decodes to all the reasons, oldest first, and the
    attempt history to all the start times, for reasons in valid UTF-8. *)
Theorem failure_history_complete h fs :
  hget h "stacktrace" = "" → hget h attemptHistoryField = "" →
  Forall good_failure fs →
  let st := buildJobState (foldl record_failure h fs) in
  slice_elems (Stacktrace st) = fs.*2 ∧ slice_elems (AttemptsAt st) = fs.*1.
Proof.
  intros Hs Ha Hg. change (holds_history (foldl record_failure h fs) fs).
  induction fs as [|f fs IH] using rev_ind.
  { unfold holds_history. cbn [foldl]. by rewrite Hs, Ha. }
  rewrite foldl_app. cbn. apply holds_history_step; [done|]. apply IH.
  by apply Forall_app in Hg as [? _].
Qed.

Lemma failure_history_complete_witness :
  let st := buildJobState (foldl record_failure ∅ [(1700000000000, "boom"); (1700000009000, "x<y")]) in
  slice_elems (Stacktrace st) = ["boom"; "x<y"] ∧
  slice_elems (AttemptsAt st) = [1700000000000; 1700000009000].
Proof.
  apply (failure_history_complete ∅ [(1700000000000, "boom"); (1700000009000, "x<y")]);
    [done | done |].
  repeat constructor; vm_compute; congruence.
Defined.

(** A payload that carries nothing, for concrete runs. *)
Definition unitPayload : Payload unit :=
  {| zero := tt; UnmarshalJSON _ := inr tt; MarshalJSON _ := inr "null" |}.

(** A payload that is its own JSON. *)
Definition rawPayload : Payload string :=
  {| zero := ""; UnmarshalJSON s := inr s; MarshalJSON s := inr s |}.
