(* ===== verification/Proto.v ===== *)
(** * Wire payloads (internal/proto)

    The positional arguments and option maps the vendored scripts unpack, the
    retention limits with their two wire shapes, the schedule template that
    every iteration inherits. The bytes themselves come
    from vmihailenco/msgpack, the parameter [Msgpack]: each encoder is the map
    it builds followed by [msgpack_Marshal]. *)

From S2P Require Import Prelude GoLib Json.

Module proto.

(** ** args.go *)

Record ParentRef := mkParentRef { ID : string; QueueKey : string }.

Record AddArgs := mkAddArgs {
  Prefix : string;
  CustomID : string;
  Name : string;
  Timestamp : Z;
  ParentKey : string;
  ParentDependencies : string;
  Parent : option ParentRef;
  RepeatJobKey : string;
  DeduplicationKey : string;
}.

Definition nilOrString (s : string) : any := if String.eqb s "" then ANil else AStr s.

Definition parentToAny (p : option ParentRef) : any :=
  match p with
  | None => ANil
  | Some p => AMap [("id", AStr (ID p)); ("queueKey", AStr (QueueKey p))]
  end.

Definition addArgs_array (a : AddArgs) : any :=
  AArr [AStr (Prefix a); AStr (CustomID a); AStr (Name a); AInt64 (Timestamp a);
        nilOrString (ParentKey a); nilOrString (ParentDependencies a); parentToAny (Parent a);
        nilOrString (RepeatJobKey a); nilOrString (DeduplicationKey a)].

Definition EncodeAddArgs `{Msgpack} (a : AddArgs) : res string := msgpack_Marshal (addArgs_array a).

(** ** opts.go *)

Record Deduplication := mkDedup { DedupID : string; TTLMillis : Z }.
Record RetentionLimit := mkRetentionLimit { Count : option Z; AgeSeconds : option Z }.
Record Backoff := mkBackoff { BType : string; BDelay : Z; BJitter : float64 }.

Record AddOpts := mkAddOpts {
  Delay : Z;
  Priority : Z;
  Attempts : Z;
  BackoffOpt : option Backoff;
  Lifo : bool;
  RemoveOnComplete : option RetentionLimit;
  RemoveOnFail : option RetentionLimit;
  Dedup : option Deduplication;
}.

(** [encodeRetentionLimit]; the untyped nil result is [None]. *)
Definition encodeRetentionLimit (r : option RetentionLimit) : option any :=
  match r with
  | None => None
  | Some r =>
      match AgeSeconds r with
      | Some age =>
          if age <=? 0 then AInt <$> Count r
          else
            let obj := match Count r with Some c => map_set [] "count" (AInt c) | None => [] end in
            Some (AMap (map_set obj "age" (AInt age)))
      | None => AInt <$> Count r
      end
  end.

(** [if v != nil { m[k] = v }]. *)
Definition set_opt (m : list (string * any)) (k : string) (v : option any) : list (string * any) :=
  match v with Some v => map_set m k v | None => m end.

(** [if cond { m[k] = v }]. *)
Definition set_if (c : bool) (m : list (string * any)) (k : string) (v : any)
    : list (string * any) :=
  if c then map_set m k v else m.

Definition f64_pos (f : float64) : bool := SFltb (S754_zero false) f.

Definition backoff_map (b : Backoff) : any :=
  AMap (set_if (f64_pos (BJitter b)) [("type", AStr (BType b)); ("delay", AInt64 (BDelay b))]
          "jitter" (AFloat (BJitter b))).

Definition dedup_map (d : Deduplication) : any :=
  AMap (set_if (0 <? TTLMillis d) [("id", AStr (DedupID d))] "ttl" (AInt64 (TTLMillis d))).

Definition addOpts_map (o : AddOpts) : list (string * any) :=
  let m := [] in
  let m := set_if (negb (Delay o =? 0)) m "delay" (AInt64 (Delay o)) in
  let m := set_if (negb (Priority o =? 0)) m "priority" (AUint32 (Priority o)) in
  let m := set_if (negb (Attempts o =? 0)) m "attempts" (AInt (Attempts o)) in
  let m := set_opt m "backoff" (backoff_map <$> BackoffOpt o) in
  let m := set_if (Lifo o) m "lifo" (ABool true) in
  let m := set_opt m "removeOnComplete" (encodeRetentionLimit (RemoveOnComplete o)) in
  let m := set_opt m "removeOnFail" (encodeRetentionLimit (RemoveOnFail o)) in
  match Dedup o with
  | Some d => set_if (negb (String.eqb (DedupID d) "")) m "de" (dedup_map d)
  | None => m
  end.

Definition EncodeAddOpts `{Msgpack} (o : AddOpts) : res string :=
  msgpack_Marshal (AMap (addOpts_map o)).

(** ** worker_args.go *)

Record MoveToActiveLimiter := mkLimiter { Max : Z; DurationMs : Z }.

Record MoveToActiveOpts := mkMoveToActive {
  Token : string;
  LockDuration : Z;
  WorkerName : string;
  Limiter : option MoveToActiveLimiter;
}.

Definition limiter_map (l : MoveToActiveLimiter) : any :=
  AMap [("max", AInt (Max l)); ("duration", AInt64 (DurationMs l))].

Definition moveToActive_map (o : MoveToActiveOpts) : list (string * any) :=
  let m := [("token", AStr (Token o)); ("lockDuration", AInt64 (LockDuration o))] in
  let m := set_if (negb (String.eqb (WorkerName o) "")) m "name" (AStr (WorkerName o)) in
  set_opt m "limiter" (limiter_map <$> Limiter o).

Definition EncodeMoveToActiveOpts `{Msgpack} (o : MoveToActiveOpts) : res string :=
  msgpack_Marshal (AMap (moveToActive_map o)).

(** ** finish_args.go *)

Record KeepJobs := mkKeepJobs { KCount : option Z; KAge : Z }.

Record MoveToFinishedOpts := mkMoveToFinished {
  FToken : string;
  FLockDuration : Z;
  FAttempts : Z;
  FKeepJobs : option KeepJobs;
  FName : string;
  FLimiter : option MoveToActiveLimiter;
  MaxMetricsSize : Z;
}.

Definition keep_map (k : option KeepJobs) : list (string * any) :=
  match k with
  | None => []
  | Some k =>
      set_if (0 <? KAge k) (set_opt [] "count" (AInt <$> KCount k)) "age" (AInt (KAge k))
  end.

Definition moveToFinished_map (o : MoveToFinishedOpts) : list (string * any) :=
  let maxMetricsSize := if 0 <? MaxMetricsSize o then FormatInt (MaxMetricsSize o) else "" in
  let m := [("token", AStr (FToken o)); ("lockDuration", AInt64 (FLockDuration o));
            ("attempts", AInt (FAttempts o)); ("keepJobs", AMap (keep_map (FKeepJobs o)));
            ("maxMetricsSize", AStr maxMetricsSize)] in
  let m := set_if (negb (String.eqb (FName o) "")) m "name" (AStr (FName o)) in
  match FLimiter o with
  | Some l => set_if ((0 <? Max l) && (0 <? DurationMs l)) m "limiter" (limiter_map l)
  | None => m
  end.

Definition EncodeMoveToFinishedOpts `{Msgpack} (o : MoveToFinishedOpts) : res string :=
  msgpack_Marshal (AMap (moveToFinished_map o)).

Definition errOddJobFields : err :=
  EText "proto: EncodeJobFields requires an even number of arguments".

(** A nil byte slice is the empty string on the wire. *)
Definition EncodeJobFields `{Msgpack} (pairs : list any) : res string :=
  if negb (Nat.even (length pairs)) then inl errOddJobFields
  else match pairs with [] => inr "" | _ => msgpack_Marshal (AArr pairs) end.

(** ** schedule_args.go *)

Record ScheduleOpts := mkScheduleOpts {
  SName : string;
  EveryMs : Z;
  Pattern : string;
  TZ : string;
  StartDate : Z;
  EndDate : Z;
  Limit : Z;
}.

(** The timing fields shared by the template and by the repeat block. *)
Definition repeat_fields (o : ScheduleOpts) (m : list (string * any)) : list (string * any) :=
  let m := set_if (0 <? EveryMs o) m "every" (AInt64 (EveryMs o)) in
  let m := set_if (negb (String.eqb (Pattern o) "")) m "pattern" (AStr (Pattern o)) in
  let m := set_if (negb (String.eqb (TZ o) "")) m "tz" (AStr (TZ o)) in
  let m := set_if (0 <? StartDate o) m "startDate" (AInt64 (StartDate o)) in
  let m := set_if (0 <? EndDate o) m "endDate" (AInt64 (EndDate o)) in
  set_if (0 <? Limit o) m "limit" (AInt (Limit o)).

Definition EncodeScheduleOpts `{Msgpack} (o : ScheduleOpts) : res string :=
  msgpack_Marshal (AMap (repeat_fields o [("name", AStr (SName o))])).

Record ScheduleTemplateOpts := mkTemplate {
  TRemoveOnComplete : option RetentionLimit;
  TRemoveOnFail : option RetentionLimit;
  Extra : list (string * any);
}.

Definition noTemplate : ScheduleTemplateOpts := mkTemplate None None [].

Definition toMap (t : ScheduleTemplateOpts) : list (string * any) :=
  let m := foldl (λ m kv, map_set m kv.1 kv.2) [] (Extra t) in
  let m := set_opt m "removeOnComplete" (encodeRetentionLimit (TRemoveOnComplete t)) in
  set_opt m "removeOnFail" (encodeRetentionLimit (TRemoveOnFail t)).

Definition EncodeScheduleTemplateOpts `{Msgpack} (t : ScheduleTemplateOpts) : res string :=
  msgpack_Marshal (AMap (toMap t)).

(** Decoding into [any] with [UseNumber]: a later duplicate key wins. *)
Fixpoint json_to_any (j : json) : any :=
  match j with
  | JNull => ANil
  | JBool b => ABool b
  | JNum l => ANumber l
  | JStr s => AStr s
  | JArr l => AArr (json_to_any <$> l)
  | JObj m => AMap (foldl (λ acc kv, map_set acc kv.1 kv.2) [] ((prod_map id json_to_any) <$> m))
  end.

Fixpoint normaliseJSONNumbers (v : any) : any :=
  match v with
  | AMap m => AMap ((prod_map id normaliseJSONNumbers) <$> m)
  | AArr l => AArr (normaliseJSONNumbers <$> l)
  | ANumber l =>
      match ParseInt l with
      | Some i => AInt64 i
      | None => match ParseFloat l with Some f => AFloat f | None => AStr l end
      end
  | _ => v
  end.

(** The decoder's own message, which follows the prefix, is left out. *)
Definition errTemplate : err := EText "decode scheduler template opts".

(** [DecodeScheduleTemplateOpts]: the value, and the error when non-nil. *)
Definition DecodeScheduleTemplateOpts (raw : string) : ScheduleTemplateOpts * option err :=
  if String.eqb raw "" || String.eqb raw "{}" then (noTemplate, None)
  else match parse_first raw with
  | Some JNull => (noTemplate, None)
  | Some (JObj m) =>
      match normaliseJSONNumbers (json_to_any (JObj m)) with
      | AMap e => (mkTemplate None None e, None)
      | _ => (noTemplate, None)
      end
  | _ => (noTemplate, Some errTemplate)
  end.

Definition delayedOpts_map (o : ScheduleOpts) (t : ScheduleTemplateOpts) : list (string * any) :=
  map_set (toMap t) "repeat" (AMap (repeat_fields o [])).

Definition EncodeScheduleDelayedOpts `{Msgpack} (o : ScheduleOpts) (t : ScheduleTemplateOpts)
    : res string :=
  msgpack_Marshal (AMap (delayedOpts_map o t)).

End proto.
