(* ===== verification/Cron.v ===== *)
(** * Cron patterns (cron.go)

    [parseCron] compiles a pattern once per (pattern, time zone) and keeps the
    result in a process-wide cache. The compiler (robfig/cron) and the time
    zone database are not part of the repository: the class [CronLib] names
    what the code uses of them. The cache is explicit state, and the theorem of
    this file is that nobody can tell it is there. *)

From S2P Require Import Prelude GoLib.

(** [%q] of [fmt]. Bytes from 128 up are printed as they are. *)
Definition hex_digit (n : Z) : string :=
  String (byte (if n <? 10 then 48 + n else 87 + n)) "".

Definition quote_byte (c : ascii) : string :=
  let x := byte_of c in
  if x =? 34 then String (byte 92) (String (byte 34) "")
  else if x =? 92 then String (byte 92) (String (byte 92) "")
  else if x =? 7 then "\a" else if x =? 8 then "\b" else if x =? 12 then "\f"
  else if x =? 10 then "\n" else if x =? 13 then "\r" else if x =? 9 then "\t"
  else if x =? 11 then "\v"
  else if (x <? 32) || (x =? 127) then "\x" +:+ hex_digit (x / 16) +:+ hex_digit (x mod 16)
  else String c "".

Fixpoint quote_bytes (s : string) : string :=
  match s with EmptyString => "" | String c s => quote_byte c +:+ quote_bytes s end.

Definition Quote (s : string) : string :=
  String (byte 34) "" +:+ quote_bytes s +:+ String (byte 34) "".

(** [cronParser.Parse] with mkq's field set, [time.LoadLocation], [time.Local]
    and [Schedule.Next(from.In(loc))] on absolute nanoseconds. *)
Class CronLib := {
  Schedule : Type;
  Location : Type;
  Local_ : Location;
  LoadLocation : string → res Location;
  cronParser_Parse : string → res Schedule;
  Schedule_Next : Schedule → Location → Z → Z;
}.

(** The pattern syntax and the zone names have no vertical bar. *)
Class CronLibLaws `{CronLib} := {
  parse_no_bar : ∀ p s, cronParser_Parse p = inr s → ¬ sIn "|"%char p;
  zone_no_bar : ∀ z l, LoadLocation z = inr l → ¬ sIn "|"%char z;
}.

Section cron.
Context `{CronLib}.

Record cachedCron := mkCachedCron { schedule : Schedule; loc : Location }.

Definition lower (c : Z) : Z := if (65 <=? c) && (c <=? 90) then c + 32 else c.

(** The loop of [isAtEvery]: [s] starts with the bytes of [prefix] up to the
    case of ASCII letters. Returns what follows. *)
Fixpoint strip_fold (prefix s : string) : option string :=
  match prefix, s with
  | EmptyString, _ => Some s
  | String p prefix, String c s =>
      if lower (byte_of c) =? byte_of p then strip_fold prefix s else None
  | String _ _, EmptyString => None
  end.

Definition isAtEvery (s : string) : bool :=
  match strip_fold "@every" s with
  | None => false
  | Some EmptyString => true
  | Some (String c _) => (byte_of c =? 32) || (byte_of c =? 9)
  end.

(** [cronCache]: the sync.Map, key to entry. *)
Definition cronCache : Type := list (string * cachedCron).

Fixpoint Load (c : cronCache) (k : string) : option cachedCron :=
  match c with
  | [] => None
  | (k', v) :: c => if String.eqb k' k then Some v else Load c k
  end.

Definition LoadOrStore (c : cronCache) (k : string) (v : cachedCron) : cachedCron * cronCache :=
  match Load c k with Some v' => (v', c) | None => (v, (k, v) :: c) end.

Definition cacheKey (pattern tz : string) : string := pattern +:+ "|" +:+ tz.

(** The part of [parseCron] after a cache miss. *)
Definition compileCron (pattern tz : string) : res cachedCron :=
  match (if String.eqb tz "" then inr Local_
         else match LoadLocation tz with
              | inl e => inl (Errorw ("mkq: invalid timezone " +:+ Quote tz) e)
              | inr l => inr l
              end) with
  | inl e => inl e
  | inr l =>
      match cronParser_Parse pattern with
      | inl e => inl (Errorw ("mkq: invalid cron pattern " +:+ Quote pattern) e)
      | inr s => inr (mkCachedCron s l)
      end
  end.

Definition guardCron (pattern : string) : option err :=
  if String.eqb pattern "" then Some (EText "mkq: pattern must be non-empty")
  else if isAtEvery pattern then
    Some (EText ("mkq: " +:+ Quote pattern +:+
      " is not supported as a cron pattern; use WithScheduleEvery for fixed intervals"))
  else None.

Definition parseCron (cache : cronCache) (pattern tz : string) : res cachedCron * cronCache :=
  match guardCron pattern with
  | Some e => (inl e, cache)
  | None =>
      let key := cacheKey pattern tz in
      match Load cache key with
      | Some v => (inr v, cache)
      | None =>
          match compileCron pattern tz with
          | inl e => (inl e, cache)
          | inr cc => let '(actual, cache) := LoadOrStore cache key cc in (inr actual, cache)
          end
      end
  end.

(** [parseCron] as its callers see it: without the cache. *)
Definition parseCronSpec (pattern tz : string) : res cachedCron :=
  match guardCron pattern with Some e => inl e | None => compileCron pattern tz end.

Definition nextFire (c : cachedCron) (from : Z) : Z := Schedule_Next (schedule c) (loc c) from.

(** A run of [parseCron] calls against the shared cache. *)
Fixpoint parseCrons (cache : cronCache) (calls : list (string * string))
    : list (res cachedCron) * cronCache :=
  match calls with
  | [] => ([], cache)
  | (p, tz) :: calls =>
      let '(r, cache) := parseCron cache p tz in
      let '(rs, cache) := parseCrons cache calls in (r :: rs, cache)
  end.

(** ** Lemmas *)

(** Every entry is what compiling its key's only reading gives. *)
Definition coherent (c : cronCache) : Prop :=
  ∀ k v, Load c k = Some v →
    ∃ p tz, k = cacheKey p tz ∧ ¬ sIn "|"%char p ∧ ¬ sIn "|"%char tz ∧ compileCron p tz = inr v.

Lemma coherent_nil : coherent [].
Proof. intros k v [=]. Qed.

Lemma sIn_split c s : sIn c s → ∃ a b, s = a +:+ String c b ∧ ¬ sIn c a.
Proof.
  induction s as [|d s IH]; [done|]. destruct (decide (c = d)) as [->|Hn].
  - intros _. exists "", s. split; [done | intros []].
  - intros [->|Hs]; [done|]. destruct (IH Hs) as (a & b & -> & Ha).
    exists (String d a), b. split; [done|]. intros [?|?]; auto.
Qed.

Lemma cacheKey_inj p tz p' tz' :
  ¬ sIn "|"%char p → ¬ sIn "|"%char tz → cacheKey p tz = cacheKey p' tz' → p' = p ∧ tz' = tz.
Proof.
  unfold cacheKey. intros Hp Hz E.
  destruct (decide (sIn "|"%char p')) as [Hin|Hin].
  - destruct (sIn_split _ _ Hin) as (a & b & -> & Ha). rewrite <- sapp_assoc in E.
    destruct (sapp_sep_inj "|"%char p a tz (b +:+ "|" +:+ tz')) as [-> ->]; [done..|].
    exfalso. apply Hz. rewrite sIn_app. right. by left.
  - by destruct (sapp_sep_inj "|"%char p p' tz tz') as [-> ->].
Qed.

End cron.

Lemma compileCron_no_bar `{CronLibLaws} p tz cc :
  compileCron p tz = inr cc → ¬ sIn "|"%char p ∧ ¬ sIn "|"%char tz.
Proof.
  unfold compileCron. destruct (String.eqb_spec tz "") as [->|].
  - destruct (cronParser_Parse p) eqn:E; [done|]. intros _.
    split; [by eapply parse_no_bar | intros []].
  - destruct (LoadLocation tz) eqn:Ez; [done|]. destruct (cronParser_Parse p) eqn:E; [done|].
    intros _. split; [by eapply parse_no_bar | by eapply zone_no_bar].
Qed.

Lemma parseCron_spec `{CronLibLaws} cache p tz :
  coherent cache →
  (parseCron cache p tz).1 = parseCronSpec p tz ∧ coherent (parseCron cache p tz).2.
Proof.
  intros Hc. unfold parseCron, parseCronSpec. destruct (guardCron p); [done|].
  destruct (Load cache (cacheKey p tz)) as [v|] eqn:El; cbn.
  - destruct (Hc _ _ El) as (p' & tz' & Ek & Hp & Hz & E). split; [|done].
    symmetry in Ek. apply cacheKey_inj in Ek as [-> ->]; done.
  - destruct (compileCron p tz) as [e|cc] eqn:E; [done|].
    unfold LoadOrStore. rewrite El. cbn. split; [done|].
    intros k v. cbn. destruct (String.eqb_spec (cacheKey p tz) k) as [<-|]; [|by apply Hc].
    intros [= <-]. apply compileCron_no_bar in E as ?. exists p, tz. tauto.
Qed.

(** The cron cache is transparent: in any sequence of [parseCron] calls sharing
    the process-wide cache, each call returns exactly what compiling its own
    pattern in its own time zone returns, so neither the key encoding nor an
    earlier failure can make one schedule answer for another. *)
Theorem cron_cache_transparent `{CronLibLaws} calls :
  (parseCrons [] calls).1 = (λ c : string * string, parseCronSpec c.1 c.2) <$> calls.
Proof.
  cut (∀ cache, coherent cache →
    (parseCrons cache calls).1 = (λ c : string * string, parseCronSpec c.1 c.2) <$> calls).
  { intros Hc. apply Hc, coherent_nil. }
  induction calls as [|[p tz] calls IH]; intros cache Hc; [done|]. cbn.
  destruct (parseCron_spec cache p tz Hc) as [E Hc'].
  destruct (parseCron cache p tz) as [r cache']. cbn in *. subst r.
  apply IH in Hc'. destruct (parseCrons cache' calls) as [rs cache'']. cbn in *. by rewrite Hc'.
Qed.

(** A toy cron library: one pattern, one zone, an hour between fires. *)
#[export] Instance hourly : CronLib := {|
  Schedule := Z; Location := Z; Local_ := 0;
  LoadLocation z := if String.eqb z "Asia/Tokyo" then inr 9 else inl (EText "unknown time zone");
  cronParser_Parse p := if String.eqb p "0 * * * *" then inr 3600 else inl (EText "bad pattern");
  Schedule_Next every _ t := (t / (every * Second) + 1) * (every * Second);
|}.

#[export] Instance hourly_laws : CronLibLaws.
Proof.
  split; intros p s; cbn.
  - destruct (String.eqb_spec p "0 * * * *") as [->|]; [|done].
    intros _. apply (bool_decide_unpack _). by vm_compute.
  - destruct (String.eqb_spec p "Asia/Tokyo") as [->|]; [|done].
    intros _. apply (bool_decide_unpack _). by vm_compute.
Qed.

Lemma cron_cache_transparent_witness :
  (parseCrons [] [("0 * * * *", "Asia/Tokyo"); ("0 * * * *|Asia/Tokyo", ""); ("0 * * * *", "Asia/Tokyo")]).1
  = (λ c : string * string, parseCronSpec c.1 c.2) <$>
      [("0 * * * *", "Asia/Tokyo"); ("0 * * * *|Asia/Tokyo", ""); ("0 * * * *", "Asia/Tokyo")].
Proof. apply (cron_cache_transparent (H0 := hourly_laws)). Defined.

(** ** [isAtEvery] on every input *)

(** The detector accepts exactly the strings whose first six bytes spell
    [@every] in any case and that end there or continue with a blank: it never
    fires on [@everyday], and never misses [@EVERY 5s]. *)
Theorem isAtEvery_spec s :
  isAtEvery s = true ↔
  ∃ pre rest, s = pre +:+ rest ∧
    Forall2 (λ c p, lower (byte_of c) = byte_of p)
      (String.list_ascii_of_string pre) (String.list_ascii_of_string "@every") ∧
    (rest = "" ∨ ∃ c t, rest = String c t ∧ (byte_of c = 32 ∨ byte_of c = 9)).
Proof.
  assert (Hstrip : ∀ p s r, strip_fold p s = Some r ↔
    ∃ pre, s = pre +:+ r ∧ Forall2 (λ c q, lower (byte_of c) = byte_of q)
      (String.list_ascii_of_string pre) (String.list_ascii_of_string p)).
  { clear s. induction p as [|q p IH]; intros s r.
    - cbn. split; [intros [= ->]; exists ""; by split|].
      intros (pre & -> & Hf). destruct pre; [done | by apply Forall2_nil_inv_r in Hf].
    - destruct s as [|c s]; cbn.
      { split; [done|]. intros ([|c pre] & E & Hf); [by apply Forall2_nil_inv_l in Hf | done]. }
      destruct (Z.eqb_spec (lower (byte_of c)) (byte_of q)) as [El|El].
      + rewrite IH. split.
        * intros (pre & -> & Hf). exists (String c pre). split; [done|]. by constructor.
        * intros ([|d pre] & E & Hf); [by apply Forall2_nil_inv_l in Hf|].
          cbn in E, Hf. injection E as -> ->. apply Forall2_cons in Hf as [_ Hf]. eauto.
      + split; [done|]. intros ([|d pre] & E & Hf); [by apply Forall2_nil_inv_l in Hf|].
        cbn in E, Hf. injection E as -> ->. apply Forall2_cons in Hf as [? _]. done. }
  unfold isAtEvery. split.
  - destruct (strip_fold "@every" s) as [r|] eqn:E; [|done]. apply Hstrip in E as (pre & -> & Hf).
    intros Hr. exists pre, r. split_and!; [done..|]. destruct r as [|c t]; [by left|].
    right. exists c, t. split; [done|]. apply orb_true_iff in Hr as [?%Z.eqb_eq|?%Z.eqb_eq]; auto.
  - intros (pre & r & -> & Hf & Hr).
    assert (strip_fold "@every" (pre +:+ r) = Some r) as -> by (apply Hstrip; eauto).
    destruct Hr as [-> | (c & t & -> & [-> | ->])]; done.
Qed.
