(* ===== verification/Config.v ===== *)
(** * Handles and configuration (mkq.go, queue.go, worker.go, worker_options.go)

    The client and queue handles, the worker options, the snapshot of queue
    keys a worker takes, the positional KEYS lists of the worker scripts, and
    [Process], which builds a worker and starts its goroutines. *)

From S2P Require Import Prelude GoLib Keys Backoff Effects.

(** The client of a queue. A nil logger, metrics or tracer was replaced by its
    no-op when the client was made, so the calls are unconditional. *)
Record Client := mkClient { keyPrefix : string; configuredPoolSize : Z }.

Record Queue := mkQueue { q_client : Client; q_name : string; q_keys : keys.Builder }.

(** ** Attribute, metric and span names (observability.go) *)

Definition AttrQueue : string := "mkq.queue".
Definition AttrJobName : string := "mkq.job.name".
Definition AttrJobID : string := "mkq.job.id".
Definition AttrJobAttempts : string := "mkq.job.attempts_made".
Definition AttrProcessStatus : string := "mkq.process.status".
Definition AttrError : string := "mkq.error".
Definition MetricJobsAddedTotal : string := "mkq_jobs_added_total".
Definition MetricJobsProcessedTotal : string := "mkq_jobs_processed_total".
Definition MetricHandlerDurationSeconds : string := "mkq_handler_duration_seconds".
Definition MetricDispatchWaitSeconds : string := "mkq_dispatch_wait_seconds".
Definition MetricJobsInFlight : string := "mkq_jobs_in_flight".
Definition SpanQueueAdd : string := "mkq.queue.add".
Definition SpanWorkerProcess : string := "mkq.worker.process".

(** ** worker_options.go *)

Record workerLimiter := mkWorkerLimiter { l_max : Z; l_duration : Z }.

(** The three hooks are user code: the configuration only knows whether one is
    registered, a call is a request to the environment. *)
Record workerConfig := mkWorkerConfig {
  concurrency : Z;
  lockDuration : Z;
  workerName : string;
  idlePollInterval : Z;
  stalledInterval : Z;
  maxStalledCount : Z;
  limiter : option workerLimiter;
  maxDataPoints : Z;
  has_backoffStrategy : bool;
  has_backoffFunc : bool;
  has_retryDelayOverride : bool;
}.

Definition defaultConcurrency : Z := 1.
Definition defaultLockDuration : Z := 30 * Second.
Definition defaultIdlePollInterval : Z := 100 * Millisecond.
Definition defaultStalledInterval : Z := 30 * Second.
Definition defaultMaxStalledCount : Z := 1.

Definition defaultConfig : workerConfig :=
  mkWorkerConfig defaultConcurrency defaultLockDuration "" defaultIdlePollInterval
    defaultStalledInterval defaultMaxStalledCount None 0 false false false.

Definition WorkerOption : Type := workerConfig → workerConfig.

Definition WithConcurrency (n : Z) : WorkerOption := λ c,
  mkWorkerConfig n (lockDuration c) (workerName c) (idlePollInterval c) (stalledInterval c)
    (maxStalledCount c) (limiter c) (maxDataPoints c) (has_backoffStrategy c)
    (has_backoffFunc c) (has_retryDelayOverride c).
Definition WithLockDuration (d : Z) : WorkerOption := λ c,
  mkWorkerConfig (concurrency c) d (workerName c) (idlePollInterval c) (stalledInterval c)
    (maxStalledCount c) (limiter c) (maxDataPoints c) (has_backoffStrategy c)
    (has_backoffFunc c) (has_retryDelayOverride c).
Definition WithWorkerName (name : string) : WorkerOption := λ c,
  mkWorkerConfig (concurrency c) (lockDuration c) name (idlePollInterval c) (stalledInterval c)
    (maxStalledCount c) (limiter c) (maxDataPoints c) (has_backoffStrategy c)
    (has_backoffFunc c) (has_retryDelayOverride c).
Definition WithIdlePollInterval (d : Z) : WorkerOption := λ c,
  mkWorkerConfig (concurrency c) (lockDuration c) (workerName c) d (stalledInterval c)
    (maxStalledCount c) (limiter c) (maxDataPoints c) (has_backoffStrategy c)
    (has_backoffFunc c) (has_retryDelayOverride c).
Definition WithStalledInterval (d : Z) : WorkerOption := λ c,
  mkWorkerConfig (concurrency c) (lockDuration c) (workerName c) (idlePollInterval c) d
    (maxStalledCount c) (limiter c) (maxDataPoints c) (has_backoffStrategy c)
    (has_backoffFunc c) (has_retryDelayOverride c).
Definition WithMaxStalledCount (n : Z) : WorkerOption := λ c,
  mkWorkerConfig (concurrency c) (lockDuration c) (workerName c) (idlePollInterval c)
    (stalledInterval c) n (limiter c) (maxDataPoints c) (has_backoffStrategy c)
    (has_backoffFunc c) (has_retryDelayOverride c).
Definition WithRateLimit (max duration : Z) : WorkerOption := λ c,
  let l := if (max <=? 0) || (duration <=? 0) then None
           else Some (mkWorkerLimiter max duration) in
  mkWorkerConfig (concurrency c) (lockDuration c) (workerName c) (idlePollInterval c)
    (stalledInterval c) (maxStalledCount c) l (maxDataPoints c) (has_backoffStrategy c)
    (has_backoffFunc c) (has_retryDelayOverride c).
Definition WithJobMetrics (n : Z) : WorkerOption := λ c,
  let n := if n <? 0 then 0 else n in
  mkWorkerConfig (concurrency c) (lockDuration c) (workerName c) (idlePollInterval c)
    (stalledInterval c) (maxStalledCount c) (limiter c) n (has_backoffStrategy c)
    (has_backoffFunc c) (has_retryDelayOverride c).
(** The argument of the hook options is whether the function is non-nil. *)
Definition WithBackoffStrategy (fn : bool) : WorkerOption := λ c,
  mkWorkerConfig (concurrency c) (lockDuration c) (workerName c) (idlePollInterval c)
    (stalledInterval c) (maxStalledCount c) (limiter c) (maxDataPoints c) fn
    (has_backoffFunc c) (has_retryDelayOverride c).
Definition WithBackoffStrategyFunc (fn : bool) : WorkerOption := λ c,
  mkWorkerConfig (concurrency c) (lockDuration c) (workerName c) (idlePollInterval c)
    (stalledInterval c) (maxStalledCount c) (limiter c) (maxDataPoints c)
    (has_backoffStrategy c) fn (has_retryDelayOverride c).
Definition WithRetryDelayOverride (fn : bool) : WorkerOption := λ c,
  mkWorkerConfig (concurrency c) (lockDuration c) (workerName c) (idlePollInterval c)
    (stalledInterval c) (maxStalledCount c) (limiter c) (maxDataPoints c)
    (has_backoffStrategy c) (has_backoffFunc c) fn.

(** ** Keys of the worker scripts *)

Record queueKeys := mkQueueKeys {
  wait : string; active : string; prioritized : string; events : string; stalled : string;
  limiterKey : string; delayed : string; paused : string; meta : string; pc : string;
  marker : string;
  completed : string; failed : string;
  metricsCompleted : string; metricsFailed : string;
  stalledCheck : string;
  prefix : string;
  repeat_ : string; id_ : string;
  builder : keys.Builder;
}.

Definition newQueueKeys (q : Queue) : queueKeys :=
  let b := q_keys q in
  {| wait := keys.Wait b; active := keys.Active b; prioritized := keys.Prioritized b;
     events := keys.Events b; stalled := keys.Stalled b; limiterKey := keys.Limiter b;
     delayed := keys.Delayed b; paused := keys.Paused b; meta := keys.Meta b;
     pc := keys.PriorityCounter b; marker := keys.Marker b; completed := keys.Completed b;
     failed := keys.Failed b; metricsCompleted := keys.Metrics b "completed";
     metricsFailed := keys.Metrics b "failed"; stalledCheck := keys.StalledCheck b;
     prefix := keys.Base b; repeat_ := keys.Repeat b; id_ := keys.ID b; builder := b |}.

Definition jobLock (k : queueKeys) (jobID : string) : string := prefix k +:+ jobID +:+ ":lock".
Definition job (k : queueKeys) (jobID : string) : string := prefix k +:+ jobID.

Definition moveToActiveKeys (k : queueKeys) : list string :=
  [wait k; active k; prioritized k; events k; stalled k; limiterKey k; delayed k; paused k;
   meta k; pc k; marker k].

Definition moveToFinishedKeys (k : queueKeys) (jobID target : string) : list string :=
  let '(resultSet, metricsKey) :=
    if String.eqb target "failed" then (failed k, metricsFailed k)
    else (completed k, metricsCompleted k) in
  [wait k; active k; prioritized k; events k; stalled k; limiterKey k; delayed k; paused k;
   meta k; pc k; resultSet; job k jobID; metricsKey; marker k].

Definition retryJobKeys (k : queueKeys) (jobID : string) : list string :=
  [active k; wait k; paused k; job k jobID; meta k; events k; delayed k; prioritized k; pc k;
   marker k; stalled k].

Definition moveStalledKeys (k : queueKeys) : list string :=
  [stalled k; wait k; active k; stalledCheck k; meta k; paused k; marker k; events k; repeat_ k].

Definition moveToDelayedKeys (k : queueKeys) (jobID : string) : list string :=
  [marker k; active k; prioritized k; delayed k; job k jobID; events k; meta k; stalled k;
   wait k; limiterKey k; pc k].

(** ** The worker and [Process] *)

Record Worker := mkWorker {
  cfg : workerConfig;
  wkeys : queueKeys;
  queueName : string;
  wakeKey : string;
}.

(** [os.Hostname], [os.Getpid], [runtime.GOMAXPROCS(0)]. *)
Class Host := { Hostname : res string; Getpid : Z; GOMAXPROCS : Z }.

Definition defaultWorkerName `{Host} : M string :=
  let host := match Hostname with inr h => h | inl _ => "unknown" end in
  u ← ask RUuid; mret (host +:+ "-" +:+ FormatInt Getpid +:+ "-" +:+ stake 8 u).

(** [for i := 0; i < n; i++ { w.run.Add(1); go w.dispatchLoop(shim) }]. *)
Fixpoint spawn (n : nat) (r : req) : M unit :=
  match n with O => mret tt | S n => _ ← ask r; spawn n r end.

Definition applyOptions {C} (opts : list (C → C)) (c : C) : C := foldl (λ c o, o c) c opts.

(** A nil queue is [None]; [h] says whether the handler is non-nil. *)
Definition Process `{Host} (q : option Queue) (h : bool) (opts : list WorkerOption)
    : M (res Worker) :=
  match q with
  | None => mret (inl (EText "mkq: Process requires a non-nil queue"))
  | Some q =>
  if negb h then mret (inl (EText "mkq: Process requires a non-nil handler")) else
  let c := applyOptions opts defaultConfig in
  let c := if concurrency c <? 1 then WithConcurrency 1 c else c in
  c ← (if String.eqb (workerName c) "" then
         name ← defaultWorkerName; mret (WithWorkerName name c)
       else mret c);
  let qk := newQueueKeys q in
  u ← ask RUuid;
  let w := mkWorker c qk (q_name q) (keys.Base (builder qk) +:+ "mkq:wake:" +:+ u) in
  let effectivePoolSize :=
    if configuredPoolSize (q_client q) =? 0 then 10 *! GOMAXPROCS
    else configuredPoolSize (q_client q) in
  _ ← (if effectivePoolSize <? concurrency c +! 8 then
         ask (RLog Warn "mkq: redis pool size below recommended (concurrency + 8)"
           [(AttrQueue, q_name q); ("concurrency", FormatInt (concurrency c));
            ("pool_size", FormatInt effectivePoolSize);
            ("recommended_minimum", FormatInt (concurrency c +! 8))])
       else mret tt);
  _ ← (if has_backoffFunc c && has_backoffStrategy c then
         ask (RLog Warn "mkq: both WithBackoffStrategyFunc and WithBackoffStrategy are set; the context-aware one is used"
           [(AttrQueue, q_name q)])
       else mret tt);
  _ ← spawn (Z.to_nat (concurrency c)) RGoDispatch;
  _ ← (if 0 <? stalledInterval c then ask RGoStalled else mret tt);
  mret (inr w)
  end.
