(* ===== verification/Finalise.v ===== *)
(** * Retry policy and terminal transitions (worker.go)

    What a worker does with a handler's outcome: the retry decision, the delay
    with its three user hooks under panic recovery, and the script call that
    writes the resulting state: moveToFinished, retryJob or moveToDelayed. *)

From S2P Require Import Prelude GoLib Keys Backoff Effects Json Jobs Proto Config.

(** The job handed over by moveToFinished's fetchNext branch. *)
Record prefetchedJob := mkPrefetched {
  pf_jobMap : gmap string string; pf_jobID : string; pf_token : string
}.

Record handlerOutcome := mkOutcome {
  success : bool;
  returnValue : string;
  out_err : err;
  errReason : string;
  stacktrace : string;
}.

Inductive finaliseStatus :=
| finaliseStatusCompleted | finaliseStatusFailed | finaliseStatusRetrying
| finaliseStatusDelayed | finaliseStatusError.

#[export] Instance finaliseStatus_eq_dec : EqDecision finaliseStatus.
Proof. solve_decision. Defined.

Section worker.
Context `{Msgpack} `{GoArch}.
Variable w : Worker.

(** ** The retry delay *)

Definition withBackoffType (bc : BackoffContext) (ty : string) : BackoffContext :=
  mkBackoffContext (bc_JobID bc) (bc_Name bc) (bc_AttemptsMade bc) (bc_Err bc) ty.

Definition callBackoffStrategy (bc : BackoffContext) : M Z :=
  let recovered (r : string) : M Z :=
    _ ← ask (RLog ErrorLevel "mkq: backoff strategy panicked; retrying immediately"
      [(AttrQueue, queueName w); (AttrJobID, bc_JobID bc); ("panic", r)]);
    mret 0 in
  if has_backoffFunc (cfg w) then
    r ← ask (RBackoffFunc bc);
    match r with HookReturn d => mret d | HookPanic p => recovered p end
  else if has_backoffStrategy (cfg w) then
    r ← ask (RBackoffStrategy (bc_AttemptsMade bc));
    match r with HookReturn d => mret d | HookPanic p => recovered p end
  else mret 0.

Definition callRetryDelayOverride (bc : BackoffContext) : M (Z * bool) :=
  r ← ask (RRetryDelayOverride bc);
  match r with
  | HookReturn x => mret x
  | HookPanic p =>
      _ ← ask (RLog ErrorLevel
        "mkq: retry delay override panicked; falling back to the configured backoff"
        [(AttrQueue, queueName w); (AttrJobID, bc_JobID bc); ("panic", p)]);
      mret (0, false)
  end.

Definition computeRetryDelay (b : option BackoffStrategy) (bc : BackoffContext) : M Z :=
  if bc_AttemptsMade bc <? 1 then mret 0 else
  let bc := match b with Some b => withBackoffType bc (Type_ b) | None => bc end in
  o ← (if has_retryDelayOverride (cfg w) then callRetryDelayOverride bc else mret (0, false));
  if (o : Z * bool).2 then mret o.1 else
  match b with
  | None => mret 0
  | Some s =>
      if String.eqb (Type_ s) "fixed" || String.eqb (Type_ s) "exponential" then
        let base := computeBackoffDelay (Some s) (bc_AttemptsMade bc) in
        if proto.f64_pos (Jitter s) then
          r ← ask RRng; mret (applyJitter base (Jitter s) r)
        else mret base
      else callBackoffStrategy bc
  end.

(** ** The retry decision *)

Definition shouldRetry (o : jobOpts) (attemptsMade : Z) (e : err) : bool :=
  if Is e ErrUnrecoverable then false
  else if attempts o <=? 0 then false
  else attemptsMade +! 1 <? attempts o.

Definition fetchAtm (jobID : string) (jobMap : gmap string string) : M Z :=
  v ← ask (RHGet CtxBackground (job (wkeys w) jobID) "atm");
  mret match v with
  | inl _ => parseInt (hget jobMap "atm")
  | inr v => parseInt v
  end.

(** ** Script calls *)

Definition fetchNextFlag : M string :=
  e ← ask (RCtxErr CtxRun);
  mret match e with Some _ => "" | None => "1" end.

Definition finishOpts (token : string) (att : Z) (keep : option retentionLimit)
    : proto.MoveToFinishedOpts :=
  proto.mkMoveToFinished token (Milliseconds (lockDuration (cfg w))) att
    ((λ k : retentionLimit, proto.mkKeepJobs (count k) (default 0 (ageSeconds k))) <$> keep)
    (workerName (cfg w))
    ((λ l, proto.mkLimiter (l_max l) (Milliseconds (l_duration l))) <$> limiter (cfg w))
    (maxDataPoints (cfg w)).

Definition errCode (what : string) (code : Z) : err :=
  EText (what +:+ " returned error code " +:+ FormatInt code).

Definition runMoveToFinished (jobID token : string) (att : Z) (keep : option retentionLimit)
    (target msgProperty msgValue : string) (extraFields : list any)
    : M (option prefetchedJob * option err) :=
  let fail e : M (option prefetchedJob * option err) := mret (None, Some e) in
  now ← ask RNow;
  match proto.EncodeMoveToFinishedOpts (finishOpts token att keep) with
  | inl e => fail (Errorw "encode finish opts" e)
  | inr optsBytes =>
  match proto.EncodeJobFields extraFields with
  | inl e => fail (Errorw "encode job fields" e)
  | inr jobFields =>
  flag ← fetchNextFlag;
  r ← ask (RScript CtxBackground MoveToFinished (moveToFinishedKeys (wkeys w) jobID target)
    [AStr jobID; AInt64 (UnixMilli now); AStr msgProperty; AStr msgValue; AStr target;
     AStr flag; AStr (prefix (wkeys w)); ABytes optsBytes; ABytes jobFields]);
  let what := "moveToFinished(" +:+ target +:+ ")" in
  match r with
  | inl e => fail (Errorw what e)
  | inr (AInt64 code) => if code <? 0 then fail (errCode what code) else mret (None, None)
  | inr v =>
      match parseMoveToActiveResult v with
      | inl e => fail (Errorw (what +:+ " parse fetchNext") e)
      | inr a => mret (if ar_ok a then Some (mkPrefetched (ar_jobMap a) (ar_jobID a) token) else None,
                       None)
      end
  end
  end end.

Definition finishCompleted (jobID token : string) (o : jobOpts) (ret : string)
    : M (option prefetchedJob * option err) :=
  runMoveToFinished jobID token (attempts o) (removeOnComplete o) "completed" "returnvalue" ret [].

Definition finishFailed (jobID token : string) (o : jobOpts) (reason : string)
    (hist : failureHistory) : M (option prefetchedJob * option err) :=
  runMoveToFinished jobID token (attempts o) (removeOnFail o) "failed" "failedReason" reason
    [AStr "stacktrace"; AStr (fh_stacktrace hist); AStr attemptHistoryField;
     AStr (fh_attemptsAt hist)].

(** The tail shared by the retry scripts: an error or a negative code. *)
Definition codeResult (what : string) (r : res any) : option err :=
  match r with
  | inl e => Some (Errorw what e)
  | inr (AInt64 code) => if code <? 0 then Some (errCode what code) else None
  | inr _ => None
  end.

Definition retryFields (reason : string) (hist : failureHistory) : res string :=
  proto.EncodeJobFields
    [AStr "failedReason"; AStr reason; AStr "stacktrace"; AStr (fh_stacktrace hist);
     AStr attemptHistoryField; AStr (fh_attemptsAt hist)].

Definition retryImmediate (jobID token : string) (lf : bool) (reason : string)
    (hist : failureHistory) : M (option err) :=
  now ← ask RNow;
  let pushCmd := if lf then "RPUSH" else "LPUSH" in
  match retryFields reason hist with
  | inl e => mret (Some (Errorw "encode retry job fields" e))
  | inr jobFields =>
      r ← ask (RScript CtxBackground RetryJob (retryJobKeys (wkeys w) jobID)
        [AStr (prefix (wkeys w)); AInt64 (UnixMilli now); AStr pushCmd; AStr jobID; AStr token;
         ABytes jobFields]);
      mret (codeResult "retryJob" r)
  end.

Definition moveToDelayedKeepingAttempts (jobID token : string) (delay : Z) : M (option err) :=
  let delayMs := Z.max (Milliseconds delay) 1 in
  now ← ask RNow;
  r ← ask (RScript CtxBackground MoveToDelayed (moveToDelayedKeys (wkeys w) jobID)
    [AStr (prefix (wkeys w)); AInt64 (UnixMilli now); AStr jobID; AStr token; AInt64 delayMs;
     AStr "1"; AStr ""; AStr ""; AStr ""]);
  mret (codeResult "moveToDelayed" r).

Definition retryDelayed (jobID token : string) (delay : Z) (reason : string)
    (hist : failureHistory) : M (option err) :=
  now ← ask RNow;
  let delayMs := Z.max (Milliseconds delay) 1 in
  match retryFields reason hist with
  | inl e => mret (Some (Errorw "encode retry job fields" e))
  | inr jobFields =>
      r ← ask (RScript CtxBackground MoveToDelayed (moveToDelayedKeys (wkeys w) jobID)
        [AStr (prefix (wkeys w)); AInt64 (UnixMilli now); AStr jobID; AStr token;
         AInt64 delayMs; AStr "0"; ABytes jobFields; AStr ""; AStr ""]);
      mret (codeResult "moveToDelayed" r)
  end.

Definition releaseLock (jobID token : string) : M unit :=
  _ ← ask (RScript CtxBackground ReleaseLock [jobLock (wkeys w) jobID]
    [AStr token; AInt64 (Milliseconds (lockDuration (cfg w)))]);
  mret tt.

Definition releasePrefetchedLock (pj : option prefetchedJob) : M unit :=
  match pj with
  | None => mret tt
  | Some pj =>
      _ ← ask (RLog Debug "mkq: releasing prefetched lock at shutdown"
        [(AttrQueue, queueName w); (AttrJobID, pf_jobID pj)]);
      releaseLock (pf_jobID pj) (pf_token pj)
  end.

(** ** [finalise] *)

Definition statusOf (st : finaliseStatus) (r : option prefetchedJob * option err)
    : option prefetchedJob * finaliseStatus * option err :=
  match r.2 with
  | Some e => (r.1, finaliseStatusError, Some e)
  | None => (r.1, st, None)
  end.

Definition finalise (jobID token : string) (jobMap : gmap string string) (out : handlerOutcome)
    : M (option prefetchedJob * finaliseStatus * option err) :=
  let o := parseJobOpts (hget jobMap "opts") in
  if success out then
    r ← finishCompleted jobID token o (returnValue out);
    mret (statusOf finaliseStatusCompleted r)
  else match AsDelayed (out_err out) with
  | Some d =>
      e ← moveToDelayedKeepingAttempts jobID token d;
      mret (statusOf finaliseStatusDelayed (None, e))
  | None =>
      atm ← fetchAtm jobID jobMap;
      let hist := buildFailureHistory jobMap (errReason out) in
      if negb (shouldRetry o atm (out_err out)) then
        r ← finishFailed jobID token o (errReason out) hist;
        mret (statusOf finaliseStatusFailed r)
      else
        delay ← computeRetryDelay (backoff o)
          (mkBackoffContext jobID (hget jobMap "name") (atm +! 1) (out_err out) "");
        if delay <? 0 then
          r ← finishFailed jobID token o (errReason out) hist;
          mret (statusOf finaliseStatusFailed r)
        else if 0 <? delay then
          e ← retryDelayed jobID token delay (errReason out) hist;
          mret (statusOf finaliseStatusRetrying (None, e))
        else
          e ← retryImmediate jobID token (lifo o) (errReason out) hist;
          mret (statusOf finaliseStatusRetrying (None, e))
  end.

End worker.

(** ** Specification: what each outcome must turn into *)

Inductive transition :=
| TCompleted                 (* to the completed set *)
| TFailed                    (* to the failed set *)
| TRetryNow (push : string)  (* back to wait, an attempt consumed *)
| TRetryDelayed (ms : Z)     (* to delayed, an attempt consumed *)
| TPutBack (ms : Z).         (* to delayed, no attempt consumed *)

Definition transition_status (t : transition) : finaliseStatus :=
  match t with
  | TCompleted => finaliseStatusCompleted
  | TFailed => finaliseStatusFailed
  | TRetryNow _ | TRetryDelayed _ => finaliseStatusRetrying
  | TPutBack _ => finaliseStatusDelayed
  end.

(** The transition a script call asks Redis for, read off its arguments the
    way the scripts read ARGV. *)
Definition asks_for (c : call) : option transition :=
  match c_name c, c_args c with
  | MoveToFinished, [_; _; _; _; AStr target; _; _; _; _] =>
      if String.eqb target "completed" then Some TCompleted
      else if String.eqb target "failed" then Some TFailed else None
  | RetryJob, [_; _; AStr push; _; _; _] => Some (TRetryNow push)
  | MoveToDelayed, [_; _; _; _; AInt64 ms; AStr skip; _; _; _] =>
      Some (if String.eqb skip "1" then TPutBack ms else TRetryDelayed ms)
  | _, _ => None
  end.

(** The transition an answered request brought about: the script ran and did
    not report an error code, and a handed-over job could be read. *)
Definition accepted `{GoArch} (r : req) : resp r → option transition :=
  match r with
  | RScript c n ks args => λ x,
      match asks_for (Call c n ks args) with
      | None => None
      | Some t =>
          match x with
          | inl _ => None
          | inr (AInt64 code) => if code <? 0 then None else Some t
          | inr v =>
              match t with
              | TCompleted | TFailed =>
                  match parseMoveToActiveResult v with inl _ => None | inr _ => Some t end
              | _ => Some t
              end
          end
      end
  | _ => λ _, None
  end.

Definition settled `{GoArch} (l : list event) : list transition :=
  omap (λ e, accepted (ev_req e) (ev_ans e)) l.

Lemma settled_app `{GoArch} l1 l2 : settled (l1 ++ l2) = settled l1 ++ settled l2.
Proof. apply omap_app. Qed.
#[export] Hint Rewrite @settled_app : logs.

Lemma settled_no_calls `{GoArch} l : calls l = [] → settled l = [].
Proof.
  unfold calls, settled. induction l as [|[r x] l IH]; [done|]. cbn.
  unfold call_of. cbn. destruct r; cbn; done || auto.
Qed.

(** The retry policy: a delay request first, then the unrecoverable mark and
    the attempt budget, then the sign of the delay. *)
Definition policy (o : jobOpts) (out : handlerOutcome) (atm delay : Z) : transition :=
  if success out then TCompleted
  else match AsDelayed (out_err out) with
  | Some d => TPutBack (Z.max (Milliseconds d) 1)
  | None =>
      if Is (out_err out) ErrUnrecoverable || (attempts o <=? 0) || (attempts o <=? atm + 1)
         || (delay <? 0)
      then TFailed
      else if delay =? 0 then TRetryNow (if lifo o then "RPUSH" else "LPUSH")
      else TRetryDelayed (Z.max (Milliseconds delay) 1)
  end.

(** ** Reading the attempt counter and the hooks off a log *)

Definition atm_answer (jobMap : gmap string string) (r : req) : resp r → option Z :=
  match r with
  | RHGet _ _ _ => λ v, Some match v with
                             | inl _ => parseInt (hget jobMap "atm")
                             | inr v => parseInt v
                             end
  | _ => λ _, None
  end.

Definition override_answer (r : req) : resp r → option Z :=
  match r with
  | RRetryDelayOverride _ => λ x, match x with HookReturn (d, true) => Some d | _ => None end
  | _ => λ _, None
  end.

Definition strategy_answer (r : req) : resp r → option Z :=
  match r with
  | RBackoffFunc _ | RBackoffStrategy _ =>
      λ x, match x with HookReturn d => Some d | HookPanic _ => None end
  | _ => λ _, None
  end.

Definition rng_answer (r : req) : resp r → option float64 :=
  match r with RRng => λ x, Some x | _ => λ _, None end.

Definition builtin (ty : string) : bool := String.eqb ty "fixed" || String.eqb ty "exponential".

(** The delay before attempt [n + 1], given what the hooks answered: an override
    that has an opinion wins, a built-in curve is jittered when it asks for it,
    any other type is up to the registered strategy, and a hook that panicked
    has no opinion. *)
Definition resolved_delay `{GoArch} (b : option BackoffStrategy) (n : Z) (l : list event) : Z :=
  if n <? 1 then 0
  else match answer override_answer l with
  | Some d => d
  | None =>
      match b with
      | None => 0
      | Some s =>
          if builtin (Type_ s) then
            match answer rng_answer l with
            | Some r => applyJitter (computeBackoffDelay b n) (Jitter s) r
            | None => computeBackoffDelay b n
            end
          else default 0 (answer strategy_answer l)
      end
  end.

(** The hooks a log consulted, in order. *)
Inductive hook := HOverride | HFunc | HStrategy | HRng.

Definition hook_of (e : event) : option hook :=
  match ev_req e with
  | RRetryDelayOverride _ => Some HOverride
  | RBackoffFunc _ => Some HFunc
  | RBackoffStrategy _ => Some HStrategy
  | RRng => Some HRng
  | _ => None
  end.

Definition hooks (l : list event) : list hook := omap hook_of l.

Lemma hooks_app l1 l2 : hooks (l1 ++ l2) = hooks l1 ++ hooks l2.
Proof. apply omap_app. Qed.
#[export] Hint Rewrite hooks_app : logs.

(** Which hooks must be consulted. *)
Definition expected_hooks (c : workerConfig) (b : option BackoffStrategy) (n : Z)
    (overridden : bool) : list hook :=
  if n <? 1 then []
  else (if has_retryDelayOverride c then [HOverride] else []) ++
    (if overridden then []
     else match b with
     | None => []
     | Some s =>
         if builtin (Type_ s) then (if proto.f64_pos (Jitter s) then [HRng] else [])
         else if has_backoffFunc c then [HFunc]
         else if has_backoffStrategy c then [HStrategy] else []
     end).

(** ** Lemmas *)

Section lemmas.
Context `{Msgpack} `{GoArch}.
Variable w : Worker.

Definition delay_spec (b : option BackoffStrategy) (n : Z) (d : Z) (l : list event) : Prop :=
  d = resolved_delay b n l ∧
  hooks l = expected_hooks (cfg w) b n (bool_decide (is_Some (answer override_answer l))) ∧
  calls l = [].

(** The override: an opinion, or nothing. *)
Lemma wp_override bc :
  wp (if has_retryDelayOverride (cfg w) then callRetryDelayOverride w bc else mret (0, false))
    (λ o l, hooks l = (if has_retryDelayOverride (cfg w) then [HOverride] else []) ∧
            answer override_answer l = (if o.2 then Some o.1 else None) ∧
            answer rng_answer l = None ∧ answer strategy_answer l = None ∧ calls l = []).
Proof.
  destruct (has_retryDelayOverride (cfg w)); [|by apply wp_ret].
  unfold callRetryDelayOverride. wp_step. wp_step. destruct x as [[d []]|p]; by repeat wp_step.
Qed.

Lemma wp_strategy bc :
  wp (callBackoffStrategy w bc)
    (λ d l, hooks l = (if has_backoffFunc (cfg w) then [HFunc]
                       else if has_backoffStrategy (cfg w) then [HStrategy] else []) ∧
            d = default 0 (answer strategy_answer l) ∧
            answer override_answer l = None ∧ calls l = []).
Proof.
  unfold callBackoffStrategy.
  destruct (has_backoffFunc (cfg w)); [|destruct (has_backoffStrategy (cfg w)); [|by apply wp_ret]].
  all: wp_step; wp_step; destruct x; by repeat wp_step.
Qed.

Lemma wp_computeRetryDelay b bc :
  wp (computeRetryDelay w b bc) (delay_spec b (bc_AttemptsMade bc)).
Proof.
  unfold computeRetryDelay, delay_spec, resolved_delay, expected_hooks.
  destruct (bc_AttemptsMade bc <? 1) eqn:En; [by apply wp_ret|].
  wp_step. wp_apply wp_override. intros [d ok] l (Hh & Ho & Hr & Hs & Hc). cbn [fst snd] in *.
  destruct ok.
  { cbv iota. wp_step. autorewrite with logs. rewrite Hh, Ho, Hc. cbn. by rewrite ?app_nil_r. }
  destruct b as [s|]; cbn [Type_ Jitter].
  2: { wp_step. autorewrite with logs. rewrite Hh, Ho, Hc. cbn. by rewrite ?app_nil_r. }
  fold (builtin (Type_ s)). destruct (builtin (Type_ s)).
  - destruct (proto.f64_pos (Jitter s)); repeat wp_step;
      autorewrite with logs; rewrite Hh, Ho, Hr, Hc; cbn; rewrite ?app_nil_r; done.
  - wp_apply wp_strategy. intros d' l' (Hh' & -> & Ho' & Hc').
    autorewrite with logs. rewrite Hh, Ho, Hs, Hc, Hh', Ho', Hc'. done.
Qed.

(** A terminal call: it was made with the arguments of [t] unless encoding
    failed first, and nothing was made before it. *)
Definition finish_spec (t : transition) (e : option err) (l : list event) : Prop :=
  hooks l = [] ∧ answer override_answer l = None ∧ answer strategy_answer l = None ∧
  answer rng_answer l = None ∧ (∀ jm, answer (atm_answer jm) l = None) ∧
  (asks_for <$> calls l = [Some t] ∨ calls l = []) ∧
  settled l = match e with None => [t] | Some _ => [] end.

Lemma wp_runMoveToFinished jobID token att keep target prop val extra t :
  (t = TCompleted ∧ target = "completed" ∨ t = TFailed ∧ target = "failed") →
  wp (runMoveToFinished w jobID token att keep target prop val extra)
    (λ r l, finish_spec t r.2 l).
Proof.
  intros Ht. unfold runMoveToFinished, fetchNextFlag, finish_spec.
  wp_step. wp_step.
  destruct (proto.EncodeMoveToFinishedOpts _); [wp_step; cbn; auto 10|].
  destruct (proto.EncodeJobFields _); [wp_step; cbn; auto 10|].
  repeat wp_step.
  destruct Ht as [[-> ->] | [-> ->]]; destruct x1 as [e|v]; [by cbn; auto 20| |by cbn; auto 20|].
  all: destruct v; cbn; repeat case_match; cbn; repeat case_match; simplify_eq; by auto 20.
Qed.

Lemma wp_retryDelayed jobID token d reason hist :
  wp (retryDelayed w jobID token d reason hist)
    (λ e l, finish_spec (TRetryDelayed (Z.max (Milliseconds d) 1)) e l).
Proof.
  unfold retryDelayed, finish_spec. wp_step. wp_step.
  destruct (retryFields _ _); repeat wp_step; [by cbn; auto 10|].
  destruct x0 as [?|[]]; cbn; repeat case_match; simplify_eq; by auto 20.
Qed.

Lemma wp_retryImmediate jobID token lf reason hist :
  wp (retryImmediate w jobID token lf reason hist)
    (λ e l, finish_spec (TRetryNow (if lf then "RPUSH" else "LPUSH")) e l).
Proof.
  unfold retryImmediate, finish_spec. wp_step. wp_step.
  destruct (retryFields _ _); repeat wp_step; [by cbn; auto 10|].
  destruct x0 as [?|[]]; cbn; repeat case_match; simplify_eq; by auto 20.
Qed.

Lemma wp_putBack jobID token d :
  wp (moveToDelayedKeepingAttempts w jobID token d)
    (λ e l, finish_spec (TPutBack (Z.max (Milliseconds d) 1)) e l).
Proof.
  unfold moveToDelayedKeepingAttempts, finish_spec. repeat wp_step.
  destruct x0 as [?|[]]; cbn; repeat case_match; simplify_eq; by auto 20.
Qed.

(** What [finalise] must have done, read off its result and its log (the
    counter of attempts is assumed not to have reached the largest [int]). *)
Definition atm_seen (jobMap : gmap string string) (l : list event) : Z :=
  default 0 (answer (atm_answer jobMap) l).

Definition required (jobMap : gmap string string) (out : handlerOutcome) (l : list event)
    : transition :=
  let o := parseJobOpts (hget jobMap "opts") in
  let atm := atm_seen jobMap l in
  policy o out atm (resolved_delay (backoff o) (atm + 1) l).

Definition finalise_spec (jobMap : gmap string string) (out : handlerOutcome)
    (r : option prefetchedJob * finaliseStatus * option err) (l : list event) : Prop :=
  ∃ t, (atm_seen jobMap l < maxInt64 → t = required jobMap out l) ∧
  (asks_for <$> calls l = [Some t] ∨ calls l = []) ∧
  match r.2 with
  | None => r.1.2 = transition_status t ∧ settled l = [t]
  | Some _ => r.1.2 = finaliseStatusError ∧ settled l = []
  end.

(** Put a terminal call's specification in place of [finalise_spec]'s. *)
Lemma finalise_spec_finish jobMap out t st r l l0 :
  (atm_seen jobMap (l0 ++ l) < maxInt64 → t = required jobMap out (l0 ++ l)) →
  st = transition_status t → calls l0 = [] → finish_spec t r.2 l →
  finalise_spec jobMap out (statusOf st r) (l0 ++ l).
Proof.
  intros Ht -> Hl0 (_ & _ & _ & _ & _ & Hl & Hs). exists t. split; [done|].
  rewrite calls_app, settled_app, (settled_no_calls l0), Hl0 by done. split; [done|].
  unfold statusOf. destruct r as [pf [e|]]; done.
Qed.

Lemma parseInt_in64 s : in64 (parseInt s).
Proof.
  unfold parseInt. destruct (String.eqb s ""); [by vm_compute|].
  destruct (ParseInt s) eqn:E; [by eapply ParseInt_in64 | by vm_compute].
Qed.

Definition atm_read (jobMap : gmap string string) (atm : Z) (l : list event) : Prop :=
  answer (atm_answer jobMap) l = Some atm ∧ in64 atm ∧ hooks l = [] ∧
  answer override_answer l = None ∧ answer strategy_answer l = None ∧
  answer rng_answer l = None ∧ calls l = [].

Lemma wp_fetchAtm jobID jobMap : wp (fetchAtm w jobID jobMap) (atm_read jobMap).
Proof.
  unfold fetchAtm, atm_read. repeat wp_step. cbn -[parseInt]. split; [done|].
  split; [by destruct x; apply parseInt_in64 | done].
Qed.

(** The retry decision of the code is the budget test of the policy. *)
Lemma shouldRetry_policy o atm e :
  in64 atm → atm < maxInt64 →
  shouldRetry o atm e =
    negb (Is e ErrUnrecoverable || (attempts o <=? 0) || (attempts o <=? atm + 1)).
Proof.
  intros Hin Hmax. unfold shouldRetry. rewrite (i64_id (atm + 1)) by (consts; lia).
  destruct (Is e ErrUnrecoverable); [done|]. destruct (attempts o <=? 0); [done|]. cbn.
  apply eq_bool_prop_intro. rewrite Is_true_true, Z.ltb_lt, negb_True, Is_true_true, Z.leb_le. lia.
Qed.

(** [required], once the log has been read. *)
Lemma required_eq jobMap out l atm :
  answer (atm_answer jobMap) l = Some atm → in64 atm → atm < maxInt64 →
  success out = false → AsDelayed (out_err out) = None →
  let o := parseJobOpts (hget jobMap "opts") in
  required jobMap out l =
    let delay := resolved_delay (backoff o) (atm +! 1) l in
    if negb (shouldRetry o atm (out_err out)) || (delay <? 0) then TFailed
    else if delay =? 0 then TRetryNow (if lifo o then "RPUSH" else "LPUSH")
    else TRetryDelayed (Z.max (Milliseconds delay) 1).
Proof.
  intros Ha Hin Hmax Es Ed o. unfold required, atm_seen. rewrite Ha. cbn [default from_option id].
  unfold policy. rewrite Es, Ed, shouldRetry_policy, negb_involutive by done.
  rewrite (i64_id (atm + 1)) by (consts; lia). done.
Qed.

Lemma resolved_delay_mid b n l1 l2 l3 :
  answer override_answer l1 = None → answer strategy_answer l1 = None →
  answer rng_answer l1 = None → answer override_answer l3 = None →
  answer strategy_answer l3 = None → answer rng_answer l3 = None →
  resolved_delay b n (l1 ++ l2 ++ l3) = resolved_delay b n l2.
Proof.
  intros E1 E2 E3 E4 E5 E6. unfold resolved_delay. rewrite !answer_app, E1, E2, E3, E4, E5, E6.
  destruct (n <? 1); [done|]. destruct (answer override_answer l2); [done|].
  destruct b as [s|]; [|done]. destruct (answer rng_answer l2), (answer strategy_answer l2); done.
Qed.

(** The last leg of [finalise]: the delay is known, the terminal call returned. *)
Lemma finalise_spec_retry jobMap out atm delay l1 l2 l3 t st r :
  let o := parseJobOpts (hget jobMap "opts") in
  success out = false → AsDelayed (out_err out) = None → atm_read jobMap atm l1 →
  shouldRetry o atm (out_err out) = true → delay_spec (backoff o) (atm +! 1) delay l2 →
  finish_spec t r.2 l3 → st = transition_status t →
  t = (if delay <? 0 then TFailed
       else if 0 <? delay then TRetryDelayed (Z.max (Milliseconds delay) 1)
       else TRetryNow (if lifo o then "RPUSH" else "LPUSH")) →
  finalise_spec jobMap out (statusOf st r) (l1 ++ l2 ++ l3).
Proof.
  intros o Es Ed (Ha & Hin & _ & Ho1 & Hs1 & Hr1 & Hc1) Er (Hd & _ & Hc2)
    Hl Hst Ht. pose proof Hl as (_ & Ho3 & Hs3 & Hr3 & _).
  rewrite app_assoc. apply (finalise_spec_finish _ _ t); [|done| |done].
  2: by rewrite calls_app, Hc1, Hc2.
  rewrite <- app_assoc. unfold atm_seen. rewrite answer_app, Ha. intros Hmax.
  rewrite (required_eq _ _ _ atm) by (done || by rewrite answer_app, Ha).
  cbv zeta. rewrite resolved_delay_mid by done. fold o. rewrite Er, <- Hd, Ht. cbn.
  zcases; lia || done.
Qed.

Lemma wp_finalise jobID token jobMap out :
  wp (finalise w jobID token jobMap out) (finalise_spec jobMap out).
Proof.
  unfold finalise. set (o := parseJobOpts _).
  destruct (success out) eqn:Es.
  { wp_step. wp_apply wp_runMoveToFinished; [|by left]. intros r l Hl. wp_step. rewrite app_nil_r.
    apply (finalise_spec_finish _ _ TCompleted _ _ l []); try done.
    intros _. unfold required, policy. by rewrite Es. }
  destruct (AsDelayed (out_err out)) as [d|] eqn:Ed.
  { wp_step. wp_apply wp_putBack. intros e l Hl. wp_step. rewrite app_nil_r.
    apply (finalise_spec_finish _ _ (TPutBack (Z.max (Milliseconds d) 1)) _ (None, e) l []);
      try done.
    intros _. unfold required, policy. by rewrite Es, Ed. }
  wp_step. wp_apply wp_fetchAtm. intros atm l1 H1.
  destruct (shouldRetry o atm (out_err out)) eqn:Er; cbn [negb].
  2: { wp_step. wp_apply wp_runMoveToFinished; [|by right]. intros r l Hl.
       destruct H1 as (Ha & Hin & _ & _ & _ & _ & Hc1).
       wp_step. rewrite app_nil_r.
       apply (finalise_spec_finish _ _ TFailed); try done. unfold atm_seen.
       rewrite answer_app, Ha. intros Hmax.
       rewrite (required_eq _ _ _ atm) by (done || by rewrite answer_app, Ha).
       by fold o; rewrite Er. }
  wp_step. wp_apply wp_computeRetryDelay. intros delay l2 H2.
  destruct (delay <? 0) eqn:Eneg; [|destruct (0 <? delay) eqn:Epos]; wp_step.
  - wp_apply wp_runMoveToFinished; [|by right]. intros r l3 H3. wp_step. rewrite app_nil_r.
    eapply (finalise_spec_retry _ _ atm delay); try done. by rewrite Eneg.
  - wp_apply wp_retryDelayed. intros e l3 H3. wp_step. rewrite app_nil_r.
    eapply (finalise_spec_retry _ _ atm delay _ _ _ _ _ (None, e)); try done.
    by rewrite Eneg, Epos.
  - wp_apply wp_retryImmediate. intros e l3 H3. wp_step. rewrite app_nil_r.
    eapply (finalise_spec_retry _ _ atm delay _ _ _ _ _ (None, e)); try done.
    by rewrite Eneg, Epos.
Qed.
End lemmas.

(** ** Properties *)

(** C1. [finalise] implements the retry policy. Whatever Redis, the clock and the
    user's hooks answer, it makes at most one script call, that call asks for
    exactly the transition the policy requires of this outcome, of the
    attempts already made and of the delay the hooks settled on, and the status
    it reports is that transition's (or an error, when the call failed). *)
Theorem finalise_refines_policy `{Msgpack} `{GoArch} {W} (sv : server W) w0 w jobID token jobMap out :
  let m := finalise w jobID token jobMap out in
  finalise_spec jobMap out (result sv m w0) (log sv m w0).
Proof. intros m. apply (wp_run sv m), wp_finalise. Qed.

(** C22. The retry delay is the one the documented precedence gives: the override
    first, whatever the backoff type; then the built-in curve with its jitter,
    or for any other type the context-aware strategy, or the older one; a
    declined or panicking hook falls through and never aborts the worker; and
    no hook out of turn is called. *)
Theorem retry_delay_precedence `{Msgpack} `{GoArch} {W} (sv : server W) w0 w b bc :
  let m := computeRetryDelay w b bc in
  let l := log sv m w0 in
  result sv m w0 = resolved_delay b (bc_AttemptsMade bc) l ∧
  hooks l = expected_hooks (cfg w) b (bc_AttemptsMade bc)
              (bool_decide (is_Some (answer override_answer l))).
Proof.
  intros m l. destruct (wp_run sv m (delay_spec w b (bc_AttemptsMade bc)) w0) as (? & ? & _); [|done].
  apply wp_computeRetryDelay.
Qed.

(** A delay request is not a failure: it wins over everything else the error
    carries, the attempt counter is not even read, no hook is asked, and the
    one call sets the skip-attempt flag and writes no failure fields. *)
Theorem delayed_error_keeps_attempts `{Msgpack} `{GoArch} {W} (sv : server W) w0 w
    jobID token jobMap out d :
  success out = false → AsDelayed (out_err out) = Some d →
  ∃ now,
    ev_req <$> log sv (finalise w jobID token jobMap out) w0 =
      [RNow; RScript CtxBackground MoveToDelayed (moveToDelayedKeys (wkeys w) jobID)
         [AStr (prefix (wkeys w)); AInt64 (UnixMilli now); AStr jobID; AStr token;
          AInt64 (Z.max (Milliseconds d) 1); AStr "1"; AStr ""; AStr ""; AStr ""]].
Proof.
  intros Es Ed. wp_log.
  unfold finalise. rewrite Es, Ed. unfold moveToDelayedKeepingAttempts. repeat wp_step. cbn. eauto.
Qed.

(** An error that wraps a delay request and the unrecoverable mark. *)
Definition wrapsBoth : err :=
  EJoin "host down" (EWrap "host down" (EDelayed (5 * Second))) (ESent ErrUnrecoverable).

(** A worker on queue [email]. *)
Definition sampleWorker : Worker :=
  mkWorker defaultConfig (newQueueKeys (mkQueue (mkClient "bull" 0) "email" (keys.New "bull" "email")))
    "email" "bull:email:mkq:wake:0".

Lemma delayed_error_keeps_attempts_witness :
  ∃ now, ev_req <$> log quiet (finalise (H := plainMsgpack) (H0 := amd64) sampleWorker "7" "t" ∅ (mkOutcome false "" wrapsBoth "host down" "")) tt =
    [RNow; RScript CtxBackground MoveToDelayed (moveToDelayedKeys (wkeys sampleWorker) "7")
       [AStr "bull:email:"; AInt64 (UnixMilli now); AStr "7"; AStr "t"; AInt64 5000;
        AStr "1"; AStr ""; AStr ""; AStr ""]].
Proof.
  by apply (delayed_error_keeps_attempts (H := plainMsgpack) (H0 := amd64) quiet tt sampleWorker "7" "t" ∅ (mkOutcome false "" wrapsBoth "host down" "")
    (5 * Second)).
Defined.
