(* ===== verification/Worker.v ===== *)
(** * Running one job (worker.go)

    [tryOnce] takes a job, [runJob] accounts for it, [processJob] runs the
    handler under a lock heartbeat and hands the outcome to [finalise], and
    [rescheduleNext] queues the next iteration of a recurring schedule. The
    heartbeat is a goroutine of its own: [processJob] starts, cancels and joins
    it, [heartbeat] is its body. *)

From S2P Require Import Prelude GoLib Keys Backoff Effects Json Jobs Proto Cron Config Finalise.

Section worker.
Context `{Msgpack} `{GoArch} `{CronLib} {T : Type} `{Payload T}.
Variable w : Worker.

(** ** The handler *)

(** The closure [newHandlerShim] makes of the user's handler: rebuild the typed
    job, give it its queue, call. *)
Definition newHandlerShim (jobID : string) (jobMap : gmap string string) : M handler_result :=
  match buildJob (T := T) jobID jobMap with
  | inl e => mret (HError (Errorw ("mkq: rebuild job " +:+ jobID) e))
  | inr _ => ask (RHandler jobID jobMap)
  end.

(** [invokeHandler] asserts the type of the closure, which [Process] made with
    [newHandlerShim], and calls it. *)
Definition invokeHandler (jobID : string) (jobMap : gmap string string) : M handler_result :=
  newHandlerShim jobID jobMap.

Definition newline : string := String (byte 10) "".

Definition runHandler (jobID : string) (jobMap : gmap string string) : M handlerOutcome :=
  r ← invokeHandler jobID jobMap;
  mret match r with
  | HPanic v stack =>
      let reason := "panic: " +:+ v +:+ newline +:+ stack in
      mkOutcome false "" (EText ("mkq: handler panic: " +:+ v)) reason
        (marshal_strings (Some [reason]))
  | HError e => mkOutcome false "" e (Error e) (marshal_strings (Some [Error e]))
  | HReturn ret => mkOutcome true (mustJSONString ret) (EText "") "" ""
  end.

(** ** The heartbeat *)

Definition heartbeatTick : Z := Z.max (Z.quot (lockDuration (cfg w)) 2) Second.

(** One turn of the loop: [inr tt] leaves it. *)
Definition heartbeat_turn (token jobID : string) : M (unit + unit) :=
  fired ← ask (RTick heartbeatTick);
  if negb fired then mret (inr tt)
  else
    r ← ask (RScript CtxBackground ExtendLock [jobLock (wkeys w) jobID; stalled (wkeys w)]
      [AStr token; AInt64 (Milliseconds (lockDuration (cfg w))); AStr jobID]);
    match r with
    | inl _ => _ ← ask RCancelJob; mret (inr tt)
    | inr (AInt64 n) => if n =? 0 then _ ← ask RCancelJob; mret (inr tt) else mret (inl tt)
    | inr _ => mret (inl tt)
    end.

Definition heartbeat (fuel : nat) (token jobID : string) : M (unit + unit) :=
  loop fuel (λ _, heartbeat_turn token jobID) tt.

(** ** Rescheduling *)

Definition asString (v : any) : string := match v with AStr s => s | _ => "" end.

Definition rescheduleFields : list string :=
  ["limit"; "ic"; "every"; "startDate"; "endDate"; "pattern"; "tz"; "opts"].

Definition rescheduleKeys : list string :=
  let k := wkeys w in
  [repeat_ k; delayed k; wait k; paused k; meta k; prioritized k; marker k; id_ k; events k;
   pc k; ""; active k].

Definition rescheduleNext (scheduleID currentJobID : string) : M unit :=
  vals ← ask (RHMGet CtxBackground (keys.Schedule (builder (wkeys w)) scheduleID) rescheduleFields);
  match vals with
  | inl _ => mret tt
  | inr [v0; v1; v2; v3; v4; v5; v6; v7] =>
      let limit := parseInt (asString v0) in
      let ic := parseInt (asString v1) in
      if (0 <? limit) && (limit <=? ic) then mret tt else
      let everyMs := (ParseIntV (asString v2)).1 in
      let startDate := (ParseIntV (asString v3)).1 in
      let endDate := (ParseIntV (asString v4)).1 in
      let pattern := asString v5 in
      let tz := asString v6 in
      let '(template, terr) := proto.DecodeScheduleTemplateOpts (asString v7) in
      _ ← match terr with
          | Some e =>
              ask (RLog ErrorLevel
                "mkq: scheduler template opts are unreadable; the next iteration loses them"
                [(AttrQueue, queueName w); ("schedule_id", scheduleID); (AttrError, Error e)])
          | None => mret tt
          end;
      if (everyMs <=? 0) && String.eqb pattern "" then mret tt else
      match proto.EncodeScheduleDelayedOpts
              (proto.mkScheduleOpts "" everyMs pattern tz startDate endDate limit) template with
      | inl _ => mret tt
      | inr delayedOpts =>
          nowTime ← ask RNow;
          let now := UnixMilli nowTime in
          next ← (if negb (String.eqb pattern "") then
                    match parseCronSpec pattern tz with
                    | inl e =>
                        _ ← ask (RLog ErrorLevel "mkq: cron pattern parse failure in rescheduleNext"
                          [(AttrQueue, queueName w); ("schedule_id", scheduleID);
                           ("pattern", pattern); ("tz", tz); (AttrError, Error e)]);
                        mret None
                    | inr cc =>
                        let v := UnixMilli (nextFire cc nowTime) in mret (Some (v, FormatInt v))
                    end
                  else mret (Some (now +! everyMs, "0")));
          match next with
          | None => mret tt
          | Some (nextMillisVal, nextMillisArg) =>
              if (0 <? endDate) && (endDate <? nextMillisVal) then mret tt else
              _ ← ask (RScript CtxBackground UpdateJobScheduler rescheduleKeys
                [AStr nextMillisArg; AStr scheduleID; AStr "{}"; ABytes delayedOpts; AInt64 now;
                 AStr (prefix (wkeys w)); AStr currentJobID]);
              mret tt
          end
      end
  | inr _ => mret tt
  end.

(** ** [processJob] *)

Definition observeWait (jobMap : gmap string string) : M unit :=
  match ParseInt (hget jobMap "timestamp") with
  | Some tsMs =>
      if 0 <? tsMs then
        now ← ask RNow;
        let waitSec := f64_div (f64_of_Z (UnixMilli now -! tsMs)) (f64_of_Z 1000) in
        if SFleb f64_zero waitSec then
          ask (RHistogram MetricDispatchWaitSeconds waitSec [(AttrQueue, queueName w)])
        else mret tt
      else mret tt
  | None => mret tt
  end.

Definition processedCounter (jobName status : string) : req :=
  RCounter MetricJobsProcessedTotal
    [(AttrQueue, queueName w); (AttrJobName, jobName); (AttrProcessStatus, status)].

(** The error branch after [finalise]. *)
Definition finaliseFailed (token jobID : string) (out : handlerOutcome) (e : err) : M unit :=
  _ ← releaseLock w jobID token;
  _ ← ask (RLog Warn "mkq: finalise failed"
    [(AttrQueue, queueName w); (AttrJobID, jobID); (AttrError, Error e)]);
  _ ← (if negb (success out) && negb (String.eqb (errReason out) "") then
         ask (RSpanAttrs [("mkq.handler.error", errReason out)])
       else mret tt);
  ask (RSpanError e).

Definition countOutcome (jobName : string) (status : finaliseStatus) (out : handlerOutcome)
    : M unit :=
  match status with
  | finaliseStatusCompleted => ask (processedCounter jobName "completed")
  | finaliseStatusFailed =>
      _ ← ask (processedCounter jobName "failed"); ask (RSpanError (out_err out))
  | _ => mret tt
  end.

(** What follows the join in [processJob]; the deferred [span.End] and
    [cancelJob] run last, in that order. *)
Definition afterJoin (token jobID : string) (jobMap : gmap string string) (out : handlerOutcome)
    : M (option prefetchedJob) :=
  r ← finalise w jobID token jobMap out;
  let '(prefetched, status, e) := r : option prefetchedJob * finaliseStatus * option err in
  _ ← match e with Some e => finaliseFailed token jobID out e | None => mret tt end;
  _ ← countOutcome (hget jobMap "name") status out;
  _ ← (let rjk := hget jobMap "rjk" in
       if negb (String.eqb rjk "") then rescheduleNext rjk jobID else mret tt);
  _ ← ask RSpanEnd;
  _ ← ask RCancelJob;
  mret prefetched.

Definition processJob (token jobID : string) (jobMap : gmap string string)
    : M (option prefetchedJob) :=
  let jobName := hget jobMap "name" in
  _ ← observeWait jobMap;
  _ ← ask (RSpanStart SpanWorkerProcess
    [(AttrQueue, queueName w); (AttrJobID, jobID); (AttrJobName, jobName);
     (AttrJobAttempts, hget jobMap "atm")]);
  _ ← ask (RSpawnHeartbeat token jobID);
  handlerStart ← ask RNow;
  outcome ← runHandler jobID jobMap;
  handlerEnd ← ask RNow;
  _ ← ask (RHistogram MetricHandlerDurationSeconds (Seconds (handlerEnd -! handlerStart))
    [(AttrQueue, queueName w); (AttrJobName, jobName)]);
  _ ← ask RCancelJob;
  _ ← ask RJoinHeartbeat;
  afterJoin token jobID jobMap outcome.

(** ** [runJob] and [tryOnce] *)

Definition inFlight (delta : Z) : req :=
  RGauge MetricJobsInFlight delta [(AttrQueue, queueName w)].

(** The stalled-too-often branch: straight to failed, no handler. *)
Definition failStalled (token jobID : string) (jobMap : gmap string string) (defa : string)
    : M (option prefetchedJob) :=
  r ← finishFailed w jobID token (parseJobOpts (hget jobMap "opts")) defa
        (buildFailureHistory jobMap defa);
  let '(prefetched, e) := r : option prefetchedJob * option err in
  _ ← match e with
      | Some _ => releaseLock w jobID token
      | None => ask (processedCounter (hget jobMap "name") "failed")
      end;
  mret prefetched.

Definition runJob (token jobID : string) (jobMap : gmap string string)
    : M (option prefetchedJob) :=
  _ ← ask (inFlight 1);
  prefetched ← (let defa := hget jobMap "defa" in
                if negb (String.eqb defa "") then failStalled token jobID jobMap defa
                else processJob token jobID jobMap);
  _ ← ask (inFlight (-1));
  mret prefetched.

Definition activeOpts (token : string) : proto.MoveToActiveOpts :=
  proto.mkMoveToActive token (Milliseconds (lockDuration (cfg w))) (workerName (cfg w))
    ((λ l, proto.mkLimiter (l_max l) (Milliseconds (l_duration l))) <$> limiter (cfg w)).

Record attempt := mkAttempt {
  processed : bool;
  gotPrefetched : option prefetchedJob;
  expireTimeMs : Z;
  nextDelayedTs : Z;
}.

Definition noAttempt : attempt := mkAttempt false None 0 0.

Definition tryOnce : M (res attempt) :=
  token ← ask RUuid;
  now ← ask RNow;
  match proto.EncodeMoveToActiveOpts (activeOpts token) with
  | inl e => mret (inl (Errorw "encode moveToActive opts" e))
  | inr optsBytes =>
      r ← ask (RScript CtxRun MoveToActive (moveToActiveKeys (wkeys w))
        [AStr (prefix (wkeys w)); AInt64 (UnixMilli now); ABytes optsBytes]);
      match r with
      | inl e =>
          if Is e ContextCanceled then mret (inr noAttempt)
          else mret (inl (Errorw "moveToActive" e))
      | inr v =>
          match parseMoveToActiveResult v with
          | inl e => mret (inl (Errorw "parse moveToActive" e))
          | inr a =>
              if negb (ar_ok a) then
                mret (inr (mkAttempt false None (ar_expireTimeMs a) (ar_nextDelayedTs a)))
              else
                prefetched ← runJob token (ar_jobID a) (ar_jobMap a);
                mret (inr (mkAttempt true prefetched 0 0))
          end
      end
  end.

(** ** Stalled jobs *)

Definition stalledCheckTTL (interval : Z) : Z :=
  let ttl := Milliseconds (interval -! Z.quot interval 10) in
  if ttl <? 1 then 1 else ttl.

Definition runStalledCheck : M (option err) :=
  now ← ask RNow;
  r ← ask (RScript CtxRun MoveStalledJobsToWait (moveStalledKeys (wkeys w))
    [AInt (maxStalledCount (cfg w)); AStr (prefix (wkeys w)); AInt64 (UnixMilli now);
     AInt64 (stalledCheckTTL (stalledInterval (cfg w)))]);
  mret match r with
  | inl e => if Is e ContextCanceled then None else Some (Errorw "moveStalledJobsToWait" e)
  | inr _ => None
  end.

End worker.

(** ** Reading the log of a job *)

Definition handlers (l : list event) : nat :=
  length (omap (λ e, match ev_req e with RHandler _ _ => Some tt | _ => None end) l).

Definition gauges (l : list event) : list Z :=
  omap (λ e, match ev_req e with RGauge _ d _ => Some d | _ => None end) l.

(** The locks released by hand, by key and token. *)
Definition releases (l : list event) : list (list string * list any) :=
  omap (λ c, if bool_decide (c_name c = ReleaseLock) then Some (c_keys c, c_args c) else None)
    (calls l).

Lemma handlers_app l1 l2 : handlers (l1 ++ l2) = (handlers l1 + handlers l2)%nat.
Proof. unfold handlers. by rewrite omap_app, length_app. Qed.
Lemma gauges_app l1 l2 : gauges (l1 ++ l2) = gauges l1 ++ gauges l2.
Proof. apply omap_app. Qed.
Lemma releases_app l1 l2 : releases (l1 ++ l2) = releases l1 ++ releases l2.
Proof. unfold releases. by rewrite calls_app, omap_app. Qed.
#[export] Hint Rewrite handlers_app gauges_app releases_app : logs.

(** A log without handler runs, counters and gauges. *)
Definition unseen (r : req) : bool :=
  match r with
  | RHandler _ _ | RCounter _ _ | RGauge _ _ _ | RSpawnHeartbeat _ _ => false
  | _ => true
  end.

(** ... and without script calls either. *)
Definition passive (r : req) : bool :=
  unseen r && match r with RScript _ _ _ _ => false | _ => true end.

(** Script calls that are neither transitions nor releases. *)
Definition harmless (r : req) : bool :=
  unseen r && match r with
              | RScript _ n _ _ => bool_decide (n = UpdateJobScheduler)
              | _ => true
              end.

Lemma unseen_log l :
  forallb unseen (ev_req <$> l) = true → handlers l = 0%nat ∧ counters l = [] ∧ gauges l = [].
Proof.
  unfold handlers, counters, gauges. induction l as [|[r x] l IH]; [done|]. cbn.
  intros [Hr Hl]%andb_true_iff. destruct (IH Hl) as (Hh & Hc & Hg). destruct r; done.
Qed.

Lemma harmless_log `{GoArch} l :
  forallb harmless (ev_req <$> l) = true →
  handlers l = 0%nat ∧ counters l = [] ∧ gauges l = [] ∧ settled l = [] ∧ releases l = [].
Proof.
  intros Hl.
  destruct (unseen_log l) as (? & ? & ?).
  { revert Hl. rewrite !forallb_forall. intros Hf r Hr. specialize (Hf r Hr).
    unfold harmless in Hf. by apply andb_true_iff in Hf as [? _]. }
  split_and!; [done..| |]; clear -Hl; unfold settled, releases, calls;
    (induction l as [|[r x] l IH]; [done|]); cbn in Hl |- *;
    apply andb_true_iff in Hl as [Hr Hl]; specialize (IH Hl);
    destruct r; cbn; try done; unfold harmless in Hr; cbn in Hr; apply bool_decide_eq_true in Hr;
    subst; done.
Qed.

Lemma passive_harmless r : passive r = true → harmless r = true.
Proof. unfold passive, harmless. destruct r; cbn; done. Qed.

Lemma passive_log `{GoArch} l :
  forallb passive (ev_req <$> l) = true →
  calls l = [] ∧ handlers l = 0%nat ∧ counters l = [] ∧ gauges l = [] ∧ settled l = [] ∧
  releases l = [].
Proof.
  intros Hl. split.
  - induction l as [|[r x] l IH]; [done|]. cbn in Hl. apply andb_true_iff in Hl as [Hr Hl].
    unfold calls. cbn. by destruct r; try apply IH.
  - apply harmless_log. revert Hl. rewrite !forallb_forall. intros Hp r Hr.
    by apply passive_harmless, Hp.
Qed.

Section lemmas.
Context `{Msgpack} `{GoArch} `{CronLib} {T : Type} `{Payload T}.
Variable w : Worker.

Lemma finalise_unseen jobID token jobMap out : only unseen (finalise w jobID token jobMap out).
Proof.
  unfold finalise, finishCompleted, finishFailed, runMoveToFinished, fetchNextFlag, fetchAtm,
    computeRetryDelay, callRetryDelayOverride, callBackoffStrategy, retryDelayed, retryImmediate,
    moveToDelayedKeepingAttempts. only_solve.
Qed.

Lemma moveToFinished_unseen jobID token att keep target prop val extra :
  only unseen (runMoveToFinished w jobID token att keep target prop val extra).
Proof. unfold runMoveToFinished, fetchNextFlag. only_solve. Qed.

Lemma reschedule_harmless id cur : only harmless (rescheduleNext w id cur).
Proof. unfold rescheduleNext. only_solve. Qed.

Lemma observeWait_passive jm : only passive (observeWait w jm).
Proof. unfold observeWait. only_solve. Qed.

(** The status label a settled transition is counted under. *)
Definition label (t : transition) : option string :=
  match t with TCompleted => Some "completed" | TFailed => Some "failed" | _ => None end.

Definition processed_counters (jobMap : gmap string string) (ts : list transition)
    : list (string * list (string * string)) :=
  (λ s, (MetricJobsProcessedTotal,
         [(AttrQueue, queueName w); (AttrJobName, hget jobMap "name"); (AttrProcessStatus, s)]))
    <$> omap label ts.

(** Redis ended up with the job in exactly one new place, or with its lock
    released; the metrics say so. *)
Definition accounted (token jobID : string) (jobMap : gmap string string) (l : list event) : Prop :=
  (length (settled l) ≤ 1)%nat ∧
  counters l = processed_counters jobMap (settled l) ∧
  releases l = match settled l with
               | [] => [([jobLock (wkeys w) jobID],
                         [AStr token; AInt64 (Milliseconds (lockDuration (cfg w)))])]
               | _ => []
               end.

Lemma no_releases t l :
  asks_for <$> calls l = [Some t] ∨ calls l = [] → releases l = [].
Proof.
  unfold releases. intros [Hc|Hc]; [|by rewrite Hc].
  destruct (calls l) as [|[c n ks args] [|]]; try done. cbn in *.
  destruct (bool_decide_reflect (n = ReleaseLock)) as [->|]; [done | done].
Qed.

(** The handler part: it runs at most once and makes no script call. *)
Lemma wp_runHandler jobID jobMap :
  wp (runHandler (T := T) jobID jobMap) (λ out l,
    calls l = [] ∧ settled l = [] ∧ counters l = [] ∧ gauges l = [] ∧ releases l = [] ∧
    (handlers l ≤ 1)%nat).
Proof.
  unfold runHandler, invokeHandler, newHandlerShim. destruct (buildJob jobID jobMap).
  - repeat wp_step. by cbn; auto 10.
  - repeat wp_step. by destruct x; cbn; auto 10.
Qed.

Definition handler_first (l : list event) : Prop :=
  ∃ l1 l2, l = l1 ++ Ev RCancelJob tt :: Ev RJoinHeartbeat tt :: l2 ∧
    calls l1 = [] ∧ (handlers l1 ≤ 1)%nat ∧ handlers l2 = 0%nat.

Lemma handler_first_intro l0 l1 l2 e1 e2 e3 e4 e5 :
  calls (l0 ++ [e1] ++ [e2] ++ [e3] ++ l1 ++ [e4] ++ [e5]) = [] →
  handlers l2 = 0%nat →
  (handlers (l0 ++ [e1] ++ [e2] ++ [e3] ++ l1 ++ [e4] ++ [e5]) ≤ 1)%nat →
  handler_first (l0 ++ [e1] ++ [e2] ++ [e3] ++ l1 ++ [e4] ++ [e5] ++
                 [Ev RCancelJob tt] ++ [Ev RJoinHeartbeat tt] ++ l2).
Proof.
  intros Hc Hh2 Hh. exists (l0 ++ [e1] ++ [e2] ++ [e3] ++ l1 ++ [e4] ++ [e5]), l2.
  split; [|done]. by rewrite <- !app_assoc.
Qed.

Lemma wp_finaliseFailed token jobID out e :
  wp (finaliseFailed w token jobID out e) (λ _ l,
    settled l = [] ∧ counters l = [] ∧ gauges l = [] ∧ handlers l = 0%nat ∧
    releases l = [([jobLock (wkeys w) jobID],
                   [AStr token; AInt64 (Milliseconds (lockDuration (cfg w)))])]).
Proof.
  unfold finaliseFailed, releaseLock. repeat wp_step. case_match; by repeat wp_step.
Qed.

Lemma wp_countOutcome jobMap st out :
  wp (countOutcome w (hget jobMap "name") st out) (λ _ l,
    settled l = [] ∧ releases l = [] ∧ gauges l = [] ∧ handlers l = 0%nat ∧
    counters l = processed_counters jobMap
      match st with
      | finaliseStatusCompleted => [TCompleted]
      | finaliseStatusFailed => [TFailed]
      | _ => []
      end).
Proof. unfold countOutcome. destruct st; repeat wp_step; by split_and!. Qed.

Lemma wp_reschedule jobMap jobID :
  wp (let rjk := hget jobMap "rjk" in
      if negb (String.eqb rjk "") then rescheduleNext w rjk jobID else mret tt)
    (λ _ l, handlers l = 0%nat ∧ counters l = [] ∧ gauges l = [] ∧ settled l = [] ∧
            releases l = []).
Proof.
  cbv zeta. case_match; [|by apply wp_ret].
  wp_apply reschedule_harmless. intros _ l. apply harmless_log.
Qed.

Lemma wp_afterJoin token jobID jobMap out :
  wp (afterJoin w token jobID jobMap out) (λ _ l,
    accounted token jobID jobMap l ∧ gauges l = [] ∧ handlers l = 0%nat).
Proof.
  unfold afterJoin. wp_step.
  wp_apply (wp_and _ _ _ (wp_finalise w jobID token jobMap out)
                         (finalise_unseen jobID token jobMap out)).
  intros [[pf st] e] l [(t & _ & Hasks & Hst) Hun]. cbn [fst snd] in Hst.
  apply no_releases in Hasks. destruct (unseen_log l Hun) as (Hh & Hc & Hg). wp_step.
  assert (Hrest : ∀ l1, settled l1 = [] → counters l1 = [] → gauges l1 = [] → handlers l1 = 0%nat →
    releases l1 = match e with
                  | Some _ => [([jobLock (wkeys w) jobID],
                                [AStr token; AInt64 (Milliseconds (lockDuration (cfg w)))])]
                  | None => [] end →
    wp (_ ← countOutcome w (hget jobMap "name") st out;
        _ ← (let rjk := hget jobMap "rjk" in
             if negb (String.eqb rjk "") then rescheduleNext w rjk jobID else mret tt);
        _ ← ask RSpanEnd; _ ← ask RCancelJob; mret pf)
       (λ _ l2, accounted token jobID jobMap (l ++ l1 ++ l2) ∧ gauges (l ++ l1 ++ l2) = [] ∧
                handlers (l ++ l1 ++ l2) = 0%nat)).
  { intros l1 Hs1 Hc1 Hg1 Hh1 Hr1. wp_step. wp_apply wp_countOutcome.
    intros _ l2 (Hs2 & Hr2 & Hg2 & Hh2 & Hc2). wp_step. wp_apply wp_reschedule.
    intros _ l3 (Hh3 & Hc3 & Hg3 & Hs3 & Hr3). repeat wp_step.
    unfold accounted. autorewrite with logs.
    rewrite Hs1, Hs2, Hs3, Hc, Hc1, Hc3, Hg, Hg1, Hg2, Hg3, Hh, Hh1, Hh2, Hh3, Hasks, Hr1, Hr2, Hr3.
    destruct e as [e|]; destruct Hst as [-> ->]; rewrite Hc2; [|destruct t]; cbn; auto 10. }
  destruct e as [e|].
  - wp_apply wp_finaliseFailed. intros _ l1 (? & ? & ? & ? & ?). by apply Hrest.
  - wp_step. by apply Hrest.
Qed.

Lemma wp_processJob token jobID jobMap :
  wp (processJob (T := T) w token jobID jobMap) (λ _ l,
    accounted token jobID jobMap l ∧ gauges l = [] ∧ handler_first l).
Proof.
  unfold processJob. wp_step. wp_apply observeWait_passive. intros _ l0 Hp.
  destruct (passive_log l0 Hp) as (Hk0 & Hh0 & Hc0 & Hg0 & Hs0 & Hr0).
  do 7 wp_step. wp_apply wp_runHandler.
  intros out l1 (Hk1 & Hs1 & Hc1 & Hg1 & Hr1 & Hh1).
  do 8 wp_step. wp_apply wp_afterJoin. intros pf l2 ((Hs2 & Hc2 & Hr2) & Hg2 & Hh2).
  split_and!.
  - unfold accounted. autorewrite with logs. rewrite Hs0, Hc0, Hr0.
    cbn -[processed_counters]. autorewrite with logs. by rewrite Hs1, Hc1, Hr1.
  - autorewrite with logs. rewrite Hg0. cbn. autorewrite with logs. by rewrite Hg1.
  - destruct x4, x5. apply handler_first_intro; [|done|]; autorewrite with logs; cbn.
    + by rewrite Hk0, Hk1.
    + rewrite Hh0. cbn. lia.
Qed.

Lemma wp_failStalled token jobID jobMap defa :
  wp (failStalled w token jobID jobMap defa) (λ _ l,
    accounted token jobID jobMap l ∧ gauges l = [] ∧ handlers l = 0%nat).
Proof.
  unfold failStalled, finishFailed. wp_step.
  wp_apply (wp_and _ _ _ (wp_runMoveToFinished w jobID token _ _ "failed" _ _ _ TFailed
                            (or_intror (conj eq_refl eq_refl)))
                         (moveToFinished_unseen jobID token _ _ "failed" _ _ _)).
  intros [pf e] l [(_ & _ & _ & _ & _ & Hasks & Hs) Hun]. cbn [fst snd] in Hs.
  apply no_releases in Hasks. destruct (unseen_log l Hun) as (Hh & Hc & Hg).
  unfold accounted, releaseLock. destruct e as [e|]; repeat wp_step; autorewrite with logs;
    rewrite Hs, Hc, Hg, Hh, Hasks; cbn; auto 10.
Qed.
(** The life of a job in a log. *)
Definition job_life (token jobID : string) (jobMap : gmap string string) (l : list event) : Prop :=
  accounted token jobID jobMap l ∧
  ∃ mid, l = Ev (inFlight w 1) tt :: mid ++ [Ev (inFlight w (-1)) tt] ∧ gauges mid = [] ∧
         (handlers mid ≤ if String.eqb (hget jobMap "defa") "" then 1 else 0)%nat.

Lemma wp_runJob token jobID jobMap :
  wp (runJob (T := T) w token jobID jobMap) (λ _ l, job_life token jobID jobMap l).
Proof.
  unfold runJob, job_life. do 3 wp_step. apply wp_mono with (Q := λ _ l,
    accounted token jobID jobMap l ∧ gauges l = [] ∧
    (handlers l ≤ if String.eqb (hget jobMap "defa") "" then 1 else 0)%nat).
  - intros pf l ((Hs & Hc & Hr) & Hg & Hh). repeat wp_step. destruct x, x0. split.
    + unfold accounted. by autorewrite with logs.
    + exists l. done.
  - cbv zeta. destruct (String.eqb (hget jobMap "defa") ""); cbn [negb].
    + wp_apply wp_processJob. intros _ l (Ha & Hg & l1 & l2 & -> & _ & Hh1 & Hh2).
      split_and!; [done..|]. rewrite handlers_app. cbn. unfold handlers in *. cbn. lia.
    + wp_apply wp_failStalled. intros _ l (Ha & Hg & Hh). split_and!; [done..|lia].
Qed.
End lemmas.

(** ** Properties *)

(** C2. Every job a worker takes is accounted for exactly once. Whatever Redis and
    the handler do: the in-flight gauge goes up first and down last; Redis
    accepts at most one transition for the job; the processed counter is
    incremented exactly for an accepted completed or failed transition, with
    that label; and the lock is released by hand exactly when no transition was
    accepted, so a job is never left locked behind a failed call. *)
Theorem runJob_accounts `{Msgpack} `{GoArch} `{CronLib} `{Payload T} {W} (sv : server W) w0 w
    token jobID jobMap :
  let l := log sv (runJob (T := T) w token jobID jobMap) w0 in
  job_life w token jobID jobMap l.
Proof. cbv zeta. wp_log. apply wp_runJob. Qed.

(** C21. The lock heartbeat is over before any state is written: in every run of a
    job the handler runs at most once, then the job context is cancelled and
    the heartbeat joined, and every script call comes after that, so an
    extension of the lock cannot race with the call that checks its token. *)
Theorem heartbeat_joined_before_scripts `{Msgpack} `{GoArch} `{CronLib} `{Payload T} {W}
    (sv : server W) w0 w token jobID jobMap :
  handler_first (log sv (processJob (T := T) w token jobID jobMap) w0).
Proof. wp_log. wp_apply wp_processJob. by intros _ l (_ & _ & ?). Qed.

(** ** The heartbeat *)

(** An extension that went through: no error, and not the zero the script
    answers when the lock is gone. *)
Definition kept (x : res any) : bool :=
  match x with inl _ => false | inr (AInt64 n) => negb (n =? 0) | inr _ => true end.

Definition extend (w : Worker) (token jobID : string) : req :=
  RScript CtxBackground ExtendLock [jobLock (wkeys w) jobID; stalled (wkeys w)]
    [AStr token; AInt64 (Milliseconds (lockDuration (cfg w))); AStr jobID].

(** The lives of a heartbeat: it beats while extensions go through, and stops
    when the job ends or, cancelling the job, when an extension does not. *)
Inductive beats (w : Worker) (token jobID : string) : list event → Prop :=
| beats_job_over : beats w token jobID [Ev (RTick (heartbeatTick w)) false]
| beats_lock_lost x :
    kept x = false →
    beats w token jobID
      [Ev (RTick (heartbeatTick w)) true; Ev (extend w token jobID) x; Ev RCancelJob tt]
| beats_again x l :
    kept x = true → beats w token jobID l →
    beats w token jobID (Ev (RTick (heartbeatTick w)) true :: Ev (extend w token jobID) x :: l).

Lemma wp_heartbeat_turn w token jobID :
  wp (heartbeat_turn w token jobID) (λ r l,
    match r with
    | inr _ => beats w token jobID l
    | inl _ => ∃ x, kept x = true ∧
        l = [Ev (RTick (heartbeatTick w)) true; Ev (extend w token jobID) x]
    end).
Proof.
  unfold heartbeat_turn. wp_step. wp_step. destruct x; cbn [negb].
  2: { wp_step. constructor. }
  wp_step. wp_step. destruct x as [e|v].
  { repeat wp_step. destruct x. by constructor. }
  destruct v; try (wp_step; eexists; split; [|done]; done).
  destruct (z =? 0) eqn:Ez; repeat wp_step.
  - destruct x. constructor. cbn. by rewrite Ez.
  - exists (inr (AInt64 z)). split; [|done]. cbn. by rewrite Ez.
Qed.

(** A heartbeat that has returned has lived one of those lives: it extended the
    lock under the job's own token, never after an extension failed, and it
    cancelled the job exactly when one did; a heartbeat that is still running
    after [n] turns has extended the lock [n] times. *)
Theorem heartbeat_lives {W} (sv : server W) w0 w token jobID n :
  match result sv (heartbeat w n token jobID) w0 with
  | inr _ => beats w token jobID (log sv (heartbeat w n token jobID) w0)
  | inl _ => calls (log sv (heartbeat w n token jobID) w0) =
               replicate n (Call CtxBackground ExtendLock
                 [jobLock (wkeys w) jobID; stalled (wkeys w)]
                 [AStr token; AInt64 (Milliseconds (lockDuration (cfg w))); AStr jobID])
  end.
Proof.
  apply (wp_run sv (heartbeat w n token jobID) (λ r l, match r with
    | inr _ => beats w token jobID l | inl _ => calls l = replicate n _ end)).
  unfold heartbeat. induction n as [|n IH]; cbn [loop]; [done|].
  wp_step. wp_apply wp_heartbeat_turn. intros [[]|[]] l.
  - intros (x & Hx & ->). wp_apply IH. intros [?|?] l'; cbn.
    + intros E. unfold calls in *. cbn. by rewrite E.
    + by constructor.
  - intros Hb. wp_step. by rewrite app_nil_r.
Qed.

(** The heartbeat ticks at half the lock duration only from two seconds on:
    below that the one-second floor wins, and for locks of a second or less the
    first extension comes after the lock has expired. *)
Theorem heartbeat_tick_bounds w :
  in64 (lockDuration (cfg w)) →
  (2 * Second ≤ lockDuration (cfg w) → heartbeatTick w = lockDuration (cfg w) / 2) ∧
  (lockDuration (cfg w) < 2 * Second → heartbeatTick w = Second) ∧
  (lockDuration (cfg w) ≤ Second → lockDuration (cfg w) ≤ heartbeatTick w).
Proof.
  unfold heartbeatTick. set (d := lockDuration (cfg w)). intros Hd.
  assert (0 ≤ d → Z.quot d 2 = d / 2) as Hq by (intros; apply Z.quot_div_nonneg; lia).
  assert (d < 0 → Z.quot d 2 ≤ 0) as Hn.
  { intros. rewrite <- (Z.opp_involutive d), Z.quot_opp_l by lia.
    pose proof (Z.quot_pos (- d) 2). lia. }
  pose proof (Z.div_mod d 2). pose proof (Z.mod_pos_bound d 2). consts.
  destruct (Z.le_gt_cases 0 d); lia.
Qed.

Lemma heartbeat_tick_bounds_witness :
  (2 * Second ≤ 30 * Second → heartbeatTick sampleWorker = 30 * Second / 2) ∧
  (30 * Second < 2 * Second → heartbeatTick sampleWorker = Second) ∧
  (30 * Second ≤ Second → 30 * Second ≤ heartbeatTick sampleWorker).
Proof. apply (heartbeat_tick_bounds sampleWorker). by vm_compute. Defined.

(** The stalled-check key expires before the next scan is due: for every scan
    interval above a millisecond its time to live is at least one millisecond,
    strictly below the interval, and within a millisecond of nine tenths of it. *)
Theorem stalledCheckTTL_bounds interval :
  in64 interval → Millisecond < interval →
  let ttl := stalledCheckTTL interval in
  1 ≤ ttl ∧ ttl * Millisecond < interval ∧ 9 * interval < 10 * (ttl + 1) * Millisecond.
Proof.
  intros Hi Hms. unfold stalledCheckTTL, Milliseconds.
  rewrite (Z.quot_div_nonneg interval 10) by (consts; lia).
  pose proof (Z.div_mod interval 10). pose proof (Z.mod_pos_bound interval 10).
  rewrite i64_id by (consts; lia). set (i := interval - interval / 10).
  rewrite Z.quot_div_nonneg by (unfold i; consts; lia).
  pose proof (Z.div_mod i Millisecond). pose proof (Z.mod_pos_bound i Millisecond).
  unfold i in *. zcases; consts; lia.
Qed.

Lemma stalledCheckTTL_bounds_witness :
  let ttl := stalledCheckTTL (30 * Second) in
  1 ≤ ttl ∧ ttl * Millisecond < 30 * Second ∧ 9 * (30 * Second) < 10 * (ttl + 1) * Millisecond.
Proof. apply (stalledCheckTTL_bounds (30 * Second)); by vm_compute. Defined.
