(* ===== verification/Dispatch.v ===== *)
(** * The dispatch and stalled loops (worker.go)

    One slot of the worker pool: [dispatch_turn] is one round of the loop in
    [dispatchLoop], [dispatchFrom] repeats it and runs the deferred release of
    a prefetched lock. The fuel bounds the number of rounds looked at; the
    theorems on shutdown show how many are enough. *)

From S2P Require Import Prelude GoLib Keys Backoff Effects Json Jobs Proto Cron Config Finalise Worker.

Definition maxIdleWait : Z := 30 * Second.
Definition markerWaitFloor : Z := Second.

Definition nextIdleWait (cur base : Z) : Z :=
  if maxIdleWait <=? base then base
  else
    let next := cur *! 2 in
    if maxIdleWait <? next then maxIdleWait else next.

Section dispatch.
Context `{Msgpack} `{GoArch} `{CronLib} {T : Type} `{Payload T}.
Variable w : Worker.

(** [w.runCtx.Err() == nil]. *)
Definition running : M bool :=
  e ← ask (RCtxErr CtxRun); mret match e with Some _ => false | None => true end.

Definition sleep (d : Z) : M bool :=
  if d <=? 0 then running else ask (RTimer d).

Definition awaitMarker (timeout : Z) : M bool :=
  if timeout <=? 0 then running
  else
    let timeout := if timeout <? Second then Second else timeout in
    _ ← ask (RBZPopMin CtxRun timeout [marker (wkeys w); wakeKey w]);
    running.

(** [time.Until(time.UnixMilli(ms))] saturates at the range of a duration. *)
Definition Until (ms now : Z) : Z := Z.max minInt64 (Z.min maxInt64 (ms * Millisecond - now)).

(** What the loop carries round: the prefetched job and the idle wait. *)
Record slot := mkSlot { prefetched : option prefetchedJob; idleWait : Z }.

(** [if !wait { return }; continue]. *)
Definition unless_stopped (ok : bool) (s : slot) : M (slot + option prefetchedJob) :=
  mret (if ok then inl s else inr (prefetched s)).

(** The round of a slot with nothing in hand. *)
Definition fetch_turn (s : slot) : M (slot + option prefetchedJob) :=
  r ← tryOnce (T := T) w;
  match r with
  | inl e =>
      _ ← ask (RLog Warn "mkq: dispatch attempt failed"
        [(AttrQueue, queueName w); (AttrError, Error e)]);
      ok ← sleep (idlePollInterval (cfg w));
      unless_stopped ok s
  | inr a =>
      if processed a then
        mret (inl (mkSlot (gotPrefetched a) (idlePollInterval (cfg w))))
      else if 0 <? expireTimeMs a then
        ok ← sleep (expireTimeMs a *! Millisecond);
        unless_stopped ok s
      else if 0 <? nextDelayedTs a then
        now ← ask RNow;
        let delay := Until (nextDelayedTs a) now in
        if delay <=? 0 then mret (inl s)
        else if delay <? markerWaitFloor then
          ok ← sleep delay;
          unless_stopped ok s
        else
          let delay := if maxIdleWait <? delay then maxIdleWait else delay in
          ok ← awaitMarker delay;
          unless_stopped ok s
      else
        ok ← awaitMarker (idleWait s);
        unless_stopped ok
          (mkSlot None (nextIdleWait (idleWait s) (idlePollInterval (cfg w))))
  end.

(** One round; [inr p] leaves the loop with [p] still in hand. *)
Definition dispatch_turn (s : slot) : M (slot + option prefetchedJob) :=
  alive ← running;
  leave ← (if (alive : bool) then mret false
           else match prefetched s with
           | None => mret true
           | Some _ => e ← ask (RCtxErr CtxJobs);
                       mret match e with Some _ => true | None => false end
           end);
  if (leave : bool) then mret (inr (prefetched s)) else
  match prefetched s with
  | Some pj =>
      next ← runJob (T := T) w (pf_token pj) (pf_jobID pj) (pf_jobMap pj);
      mret (inl (mkSlot next (idleWait s)))
  | None =>
      fetch_turn s
  end.

(** The loop with its deferred release; [inl] if still running. *)
Definition dispatchFrom (fuel : nat) (s : slot) : M (slot + unit) :=
  r ← loop fuel dispatch_turn s;
  match r with
  | inl s => mret (inl s)
  | inr pf => _ ← releasePrefetchedLock w pf; mret (inr tt)
  end.

Definition dispatchLoop (fuel : nat) : M (slot + unit) :=
  dispatchFrom fuel (mkSlot None (idlePollInterval (cfg w))).

(** ** The stalled loop: the timer's next duration is carried round. *)
Definition stalled_turn (d : Z) : M (Z + unit) :=
  fired ← ask (RTimer d);
  if negb (fired : bool) then mret (inr tt)
  else
    e ← runStalledCheck w;
    _ ← match e with
        | Some e => ask (RLog Warn "mkq: stalled-jobs scan failed"
            [(AttrQueue, queueName w); (AttrError, Error e)])
        | None => mret tt
        end;
    mret (inl (stalledInterval (cfg w))).

Definition stalledLoop (fuel : nat) : M (Z + unit) := loop fuel stalled_turn 0.

End dispatch.

(** ** Cancellation as a log shows it *)

(** This event saw the run context cancelled. *)
Definition sees_cancel (e : event) : bool :=
  match e with
  | Ev (RCtxErr CtxRun) x => match x with Some _ => true | None => false end
  | _ => false
  end.

Definition sees_running (e : event) : bool :=
  match e with
  | Ev (RCtxErr CtxRun) x => match x with Some _ => false | None => true end
  | _ => false
  end.

(** An argument that asks a script for the next job. *)
Definition asks_next (i : nat) (args : list any) : bool :=
  match args !! i with Some (AStr s) | Some (ABytes s) => String.eqb s "1" | _ => false end.

(** The calls by which a worker can come to a job: moveToActive, and moveToFinished
    and moveToDelayed with their fetchNext flag (ARGV[6] and ARGV[8]). *)
Definition dequeues (r : req) : bool :=
  match r with
  | RScript _ MoveToActive _ _ => true
  | RScript _ MoveToFinished _ args => asks_next 5 args
  | RScript _ MoveToDelayed _ args => asks_next 7 args
  | _ => false
  end.

(** A context stays cancelled; [c] says whether it already is. *)
Fixpoint honest (c : bool) (l : list event) : Prop :=
  match l with
  | [] => True
  | e :: l => (c = true → sees_running e = false) ∧ honest (c || sees_cancel e) l
  end.

(** Nothing is dequeued once the cancellation has been seen. *)
Fixpoint no_dequeue_after (c : bool) (l : list event) : Prop :=
  match l with
  | [] => True
  | e :: l => (c = true → dequeues (ev_req e) = false) ∧ no_dequeue_after (c || sees_cancel e) l
  end.

Definition cancel_seen (l : list event) : bool := existsb sees_cancel l.

Lemma honest_app c l1 l2 :
  honest c (l1 ++ l2) ↔ honest c l1 ∧ honest (c || cancel_seen l1) l2.
Proof.
  revert c. induction l1 as [|e l1 IH]; intros c; cbn.
  { rewrite orb_false_r. tauto. }
  rewrite IH, orb_assoc. tauto.
Qed.

Lemma no_dequeue_app c l1 l2 :
  no_dequeue_after c (l1 ++ l2) ↔
  no_dequeue_after c l1 ∧ no_dequeue_after (c || cancel_seen l1) l2.
Proof.
  revert c. induction l1 as [|e l1 IH]; intros c; cbn.
  { rewrite orb_false_r. tauto. }
  rewrite IH, orb_assoc. tauto.
Qed.

Definition not_dequeue (r : req) : bool := negb (dequeues r).

Lemma no_dequeue_only c l :
  forallb not_dequeue (ev_req <$> l) = true → no_dequeue_after c l.
Proof.
  revert c. induction l as [|e l IH]; intros c; cbn; [done|].
  intros [He Hl]%andb_true_iff. split; [|by apply IH]. intros _.
  unfold not_dequeue in He. by destruct (dequeues (ev_req e)).
Qed.

Section lemmas.
Context `{Msgpack} `{GoArch} `{CronLib} {T : Type} `{Payload T}.
Variable w : Worker.

(** Whether or not the cancellation has been seen before, nothing is dequeued
    after it. *)
Definition mindful {A} (m : M A) : Prop := ∀ c, wp m (λ _ l, honest c l → no_dequeue_after c l).

Lemma mindful_only {A} (m : M A) : only not_dequeue m → mindful m.
Proof. intros Hm c. eapply wp_mono; [|exact Hm]. cbn. intros _ l Hl _. by apply no_dequeue_only. Qed.

Lemma mindful_ret {A} (a : A) : mindful (mret a).
Proof. intros c. by apply wp_ret. Qed.

Lemma mindful_ask r : dequeues r = false → mindful (ask r).
Proof. intros Hr c x. by cbn. Qed.

Lemma mindful_bind {A B} (m : M A) (f : A → M B) : mindful m → (∀ a, mindful (f a)) → mindful (m ≫= f).
Proof.
  intros Hm Hf c. wp_step. eapply wp_mono; [|exact (Hm c)]. intros a l Hl. cbv beta.
  eapply wp_mono; [|exact (Hf a (c || cancel_seen l))]. cbv beta. intros _ l2 Hl2 [Hh1 Hh2]%honest_app.
  apply no_dequeue_app. auto.
Qed.

(** moveToFinished asks for the next job only if the context still runs. *)
Lemma mindful_finish jobID token att keep target prop val extra :
  mindful (runMoveToFinished w jobID token att keep target prop val extra).
Proof.
  unfold runMoveToFinished. apply mindful_bind; [by apply mindful_ask|]. intros now.
  destruct (proto.EncodeMoveToFinishedOpts _); [apply mindful_ret|].
  destruct (proto.EncodeJobFields _); [apply mindful_ret|].
  intros c. unfold fetchNextFlag. repeat wp_step. apply wp_mono with (Q := λ _ l2, l2 = []).
  { intros _ l2 -> [Hh _]. cbn in *. destruct x; cbn; [by rewrite orb_true_r|].
    destruct c; [by specialize (Hh eq_refl) | done]. }
  repeat case_match; by wp_step.
Qed.

Create HintDb mindful.
#[local] Hint Resolve mindful_ret mindful_finish : mindful.
(** Follow a program down to its requests. *)
Ltac mindful_solve :=
  repeat first
  [ solve [auto 1 with mindful]
  | apply mindful_ask; reflexivity
  | apply mindful_bind; [|intros ?]
  | match goal with |- mindful (match ?x with _ => _ end) => destruct x end
  | progress cbv zeta ].

Lemma mindful_failed jobID token o reason hist : mindful (finishFailed w jobID token o reason hist).
Proof. unfold finishFailed. mindful_solve. Qed.

Lemma mindful_finalise jobID token jobMap out : mindful (finalise w jobID token jobMap out).
Proof.
  unfold finalise, finishCompleted, finishFailed, fetchAtm, computeRetryDelay, callRetryDelayOverride,
    callBackoffStrategy, retryDelayed, retryImmediate, moveToDelayedKeepingAttempts. mindful_solve.
Qed.
#[local] Hint Resolve mindful_failed mindful_finalise : mindful.

Lemma mindful_runJob token jobID jobMap : mindful (runJob (T := T) w token jobID jobMap).
Proof.
  unfold runJob, failStalled, processJob, afterJoin, observeWait, releaseLock, countOutcome, finaliseFailed,
    rescheduleNext, runHandler, invokeHandler, newHandlerShim. mindful_solve.
Qed.

Lemma mindful_sleep d : mindful (sleep d).
Proof. unfold sleep, running. mindful_solve. Qed.

Lemma mindful_await d : mindful (awaitMarker w d).
Proof. unfold awaitMarker, running. mindful_solve. Qed.

Lemma mindful_release pf : mindful (releasePrefetchedLock w pf).
Proof. unfold releasePrefetchedLock, releaseLock. mindful_solve. Qed.
#[local] Hint Resolve mindful_runJob mindful_sleep mindful_await mindful_release : mindful.

(** [tryOnce] asks for a job before anything looks at the context. *)
Lemma wp_tryOnce : wp (tryOnce (T := T) w) (λ _ l, honest false l → no_dequeue_after false l).
Proof.
  unfold tryOnce. do 4 wp_step. destruct (proto.EncodeMoveToActiveOpts _); [by wp_step|]. do 2 wp_step.
  match goal with |- wp ?m _ => assert (mindful m) as Hm by mindful_solve end.
  eapply wp_mono; [|exact (Hm false)]. cbn. intros _ l Hl (_ & _ & _ & Hh). auto 10.
Qed.

Lemma wp_fetch_turn s : wp (fetch_turn (T := T) w s) (λ _ l, honest false l → no_dequeue_after false l).
Proof.
  unfold fetch_turn. wp_step. wp_apply wp_tryOnce. intros r l Hl.
  match goal with |- wp ?m _ => assert (mindful m) as Hm by (unfold unless_stopped; mindful_solve) end.
  eapply wp_mono; [|exact (Hm (false || cancel_seen l))]. cbv beta. intros _ l2 Hl2 [Hh1 Hh2]%honest_app.
  apply no_dequeue_app. auto.
Qed.

Lemma mindful_turn s : mindful (dispatch_turn (T := T) w s).
Proof.
  unfold dispatch_turn, running. destruct (prefetched s) as [pj|]; [mindful_solve|].
  intros c. do 4 wp_step. destruct x as [e|]; [by repeat wp_step|]. do 2 wp_step. wp_apply wp_fetch_turn.
  cbn. intros _ l Hl [Hc Hh]. destruct c; [by specialize (Hc eq_refl) | auto].
Qed.

Lemma mindful_loop n s : mindful (loop n (dispatch_turn (T := T) w) s).
Proof.
  revert s. induction n as [|n IH]; intros s; cbn [loop]; [apply mindful_ret|].
  apply mindful_bind; [apply mindful_turn|]. intros [s'|pf]; [apply IH | apply mindful_ret].
Qed.

Lemma mindful_dispatchFrom n s : mindful (dispatchFrom (T := T) w n s).
Proof. unfold dispatchFrom. apply mindful_bind; [apply mindful_loop|]. intros r. mindful_solve. Qed.
End lemmas.

(** ** Properties *)

(** C16. Shutdown takes no new work: once a slot has seen the run context cancelled
    it never dequeues again, for any number of rounds, neither by moveToActive nor
    by the fetchNext flag of moveToFinished or moveToDelayed, whatever it was doing
    and whatever Redis, the timers and the handlers answer (a cancelled context
    staying cancelled). *)
Theorem no_dequeue_after_cancel `{Msgpack} `{GoArch} `{CronLib} `{Payload T} {W} (sv : server W)
    w0 w n :
  let l := log sv (dispatchLoop (T := T) w n) w0 in
  honest false l → no_dequeue_after false l.
Proof. cbv zeta. wp_log. apply (mindful_dispatchFrom w n _ false). Qed.

(** ** Drain and Stop *)

Definition isSome {A} (o : option A) : bool := match o with Some _ => true | None => false end.

(** The environment after Drain: the run context is cancelled, the job contexts
    are not, and moveToFinished without its fetchNext flag hands no job over. *)
Definition drained (e : event) : bool :=
  match e with
  | Ev (RCtxErr CtxRun) x => isSome x
  | Ev (RCtxErr CtxJobs) x => negb (isSome x)
  | Ev (RScript _ MoveToFinished _ [_; _; _; _; _; AStr flag; _; _; _]) x =>
      negb (String.eqb flag "") || match x with inr (AArr _) => false | _ => true end
  | _ => true
  end.

(** The environment after Stop: both are cancelled. *)
Definition halted (e : event) : bool :=
  match e with
  | Ev (RCtxErr CtxRun) x | Ev (RCtxErr CtxJobs) x => isSome x
  | _ => true
  end.

Section shutdown_lemmas.
Context `{Msgpack} `{GoArch} `{CronLib} {T : Type} `{Payload T}.
Variable w : Worker.

Lemma moveToFinished_drained jobID token att keep target prop val extra :
  under drained (runMoveToFinished w jobID token att keep target prop val extra)
    (λ r, r.1 = None).
Proof.
  unfold runMoveToFinished, fetchNextFlag. apply under_skip. intros now.
  destruct (proto.EncodeMoveToFinishedOpts _); [by apply under_ret|].
  destruct (proto.EncodeJobFields _); [by apply under_ret|].
  apply (under_bind _ _ _ (λ flag, flag = "")).
  { eapply under_bind; [apply under_ask; intros x Hx; exact Hx|].
    intros [e|] He; [by apply under_ret | done]. }
  intros flag ->. eapply under_bind; [apply under_ask; intros x Hx; exact Hx|].
  intros [e|v] Hv; [by apply under_ret|].
  destruct v; try done; by repeat case_match; apply under_ret.
Qed.

Lemma finalise_drained jobID token jobMap out :
  under drained (finalise w jobID token jobMap out) (λ r, r.1.1 = None).
Proof.
  assert (Hst : ∀ st (r : option prefetchedJob * option err), r.1 = None → (statusOf st r).1.1 = None).
  { intros st [pf [e|]]; done. }
  assert (Hfin : ∀ st att keep target prop val extra, under drained
    (r ← runMoveToFinished w jobID token att keep target prop val extra; mret (statusOf st r))
    (λ r, r.1.1 = None)).
  { intros. eapply under_bind; [apply moveToFinished_drained|]. intros r Hr.
    apply under_ret. by apply Hst. }
  assert (Hretry : ∀ st (m : M (option err)), under drained
    (e ← m; mret (statusOf st (None, e))) (λ r, r.1.1 = None)).
  { intros. apply under_skip. intros e. apply under_ret. by apply Hst. }
  unfold finalise, finishCompleted, finishFailed.
  destruct (success out); [apply Hfin|]. destruct (AsDelayed (out_err out)); [apply Hretry|].
  apply under_skip. intros atm. case_match; [apply Hfin|].
  apply under_skip. intros d. case_match; [apply Hfin|]. case_match; apply Hretry.
Qed.

Lemma runJob_drained token jobID jobMap :
  under drained (runJob (T := T) w token jobID jobMap) (λ pf, pf = None).
Proof.
  unfold runJob. apply under_skip. intros _. apply (under_bind _ _ _ (λ pf, pf = None)).
  2: { intros pf ->. apply under_skip. intros _. by apply under_ret. }
  cbv zeta. case_match.
  - unfold failStalled, finishFailed. eapply under_bind; [apply moveToFinished_drained|].
    intros [pf e] Hpf. cbn in Hpf. subst pf. apply under_skip. intros _. by apply under_ret.
  - unfold processJob, afterJoin. do 9 (apply under_skip; intros ?).
    eapply under_bind; [apply finalise_drained|]. intros [[pf st] e] Hpf.
    cbn in Hpf. subst pf.
    do 5 (apply under_skip; intros ?). by apply under_ret.
Qed.

(** A drained slot with a prefetched job: it runs that job and leaves. *)
Lemma wp_drain n pj i :
  wp_env drained (dispatchFrom (T := T) w (2 + n) (mkSlot (Some pj) i)) (λ r l,
    r = inr tt ∧
    ∃ l1 mid l2, l = l1 ++ mid ++ l2 ∧
      job_life w (pf_token pj) (pf_jobID pj) (pf_jobMap pj) mid ∧
      calls l1 = [] ∧ calls l2 = []).
Proof.
  unfold dispatchFrom, dispatch_turn, running. cbn [plus loop prefetched].
  repeat env_step. destruct x; [|done]. repeat env_step. destruct x; [done|]. repeat env_step.
  eapply env_wp; [|apply (wp_and _ _ _ (wp_runJob (T := T) w _ _ _) (runJob_drained _ _ _))].
  intros pf l Hl [Hlife Hpf]. rewrite (Hpf Hl). repeat env_step. cbn [loop prefetched].
  repeat env_step. destruct x as [e0|]; [|done]. repeat env_step. cbn. intros _ _. split; [done|].
  exists [Ev (RCtxErr CtxRun) (Some e); Ev (RCtxErr CtxJobs) None], l,
    [Ev (RCtxErr CtxRun) (Some e0)].
  by rewrite !app_nil_r.
Qed.

(** A halted slot leaves at once and gives its prefetched job's lock back. *)
Lemma wp_halt n s :
  wp_env halted (dispatchFrom (T := T) w (1 + n) s) (λ r l,
    r = inr tt ∧ handlers l = 0%nat ∧
    calls l = match prefetched s with
              | None => []
              | Some pj => [Call CtxBackground ReleaseLock [jobLock (wkeys w) (pf_jobID pj)]
                  [AStr (pf_token pj); AInt64 (Milliseconds (lockDuration (cfg w)))]]
              end).
Proof.
  unfold dispatchFrom, dispatch_turn, running, releasePrefetchedLock, releaseLock.
  cbn [plus loop]. repeat env_step. destruct x; [|done].
  destruct (prefetched s) as [pj|]; repeat env_step; [destruct x; [|done]|]; by repeat env_step.
Qed.
End shutdown_lemmas.

(** C17. Drain loses nothing: with the run context cancelled and the job contexts
    alive, a slot that holds a prefetched job runs exactly that job to its end
    and then leaves, in two rounds at most, making no other script call. *)
Theorem drain_runs_prefetched `{Msgpack} `{GoArch} `{CronLib} `{Payload T} {W} (sv : server W)
    w0 w n pj i :
  let m := dispatchFrom (T := T) w (2 + n) (mkSlot (Some pj) i) in
  forallb drained (log sv m w0) = true →
  result sv m w0 = inr tt ∧
  ∃ l1 mid l2, log sv m w0 = l1 ++ mid ++ l2 ∧
    job_life w (pf_token pj) (pf_jobID pj) (pf_jobMap pj) mid ∧ calls l1 = [] ∧ calls l2 = [].
Proof. intros m. apply (wp_run sv m _ w0 (wp_drain (T := T) w n pj i)). Qed.

(** C18. Stop abandons cleanly: with both contexts cancelled a slot leaves in one
    round, runs no handler, and makes no script call but the release of its
    prefetched job's lock, under that job's token. *)
Theorem stop_releases_prefetched `{Msgpack} `{GoArch} `{CronLib} `{Payload T} {W} (sv : server W)
    w0 w n s :
  let m := dispatchFrom (T := T) w (1 + n) s in
  forallb halted (log sv m w0) = true →
  result sv m w0 = inr tt ∧ handlers (log sv m w0) = 0%nat ∧
  calls (log sv m w0) =
    match prefetched s with
    | None => []
    | Some pj => [Call CtxBackground ReleaseLock [jobLock (wkeys w) (pf_jobID pj)]
        [AStr (pf_token pj); AInt64 (Milliseconds (lockDuration (cfg w)))]]
    end.
Proof. intros m. apply (wp_run sv m _ w0 (wp_halt (T := T) w n s)). Qed.

(** A Redis that is fine, seen by a worker whose contexts are cancelled: the
    run context from the [k]th request on, the job contexts if [stop]. *)
Definition closing (k : nat) (stop : bool) : server nat := λ n r,
  match r as r0 return resp r0 * nat with
  | RCtxErr CtxRun => (if (k <=? n)%nat then Some (ESent ContextCanceled) else None, S n)
  | RCtxErr CtxJobs => (if stop then Some (ESent ContextCanceled) else None, S n)
  | RScript c MoveToActive ks args =>
      (inr (AArr [AArr [AStr "name"; AStr "email"]; AStr "7"; AInt64 0; AInt64 0]), S n)
  | r => ((quiet tt r).1, S n)
  end.

Definition samplePrefetched : prefetchedJob := mkPrefetched {["name" := "email"]} "8" "tok".

Lemma drain_runs_prefetched_witness :
  let m := dispatchFrom (H := plainMsgpack) (H0 := amd64) (H1 := hourly) (H2 := unitPayload)
             sampleWorker (2 + 0) (mkSlot (Some samplePrefetched) Second) in
  result (closing 0 false) m 0%nat = inr tt ∧
  ∃ l1 mid l2, log (closing 0 false) m 0%nat = l1 ++ mid ++ l2 ∧
    job_life (H0 := amd64) sampleWorker "tok" "8" {["name" := "email"]} mid ∧ calls l1 = [] ∧ calls l2 = [].
Proof.
  apply (drain_runs_prefetched (H := plainMsgpack) (H0 := amd64) (H1 := hourly) (H2 := unitPayload)
    (closing 0 false) 0%nat sampleWorker 0 samplePrefetched Second). by vm_compute.
Defined.

Lemma stop_releases_prefetched_witness :
  let m := dispatchFrom (H := plainMsgpack) (H0 := amd64) (H1 := hourly) (H2 := unitPayload)
             sampleWorker (1 + 0) (mkSlot (Some samplePrefetched) Second) in
  result (closing 0 true) m 0%nat = inr tt ∧ handlers (log (closing 0 true) m 0%nat) = 0%nat ∧
  calls (log (closing 0 true) m 0%nat) =
    [Call CtxBackground ReleaseLock ["bull:email:8:lock"] [AStr "tok"; AInt64 30000]].
Proof.
  apply (stop_releases_prefetched (H := plainMsgpack) (H0 := amd64) (H1 := hourly)
    (H2 := unitPayload) (closing 0 true) 0%nat sampleWorker 0 (mkSlot (Some samplePrefetched) Second)).
  by vm_compute.
Defined.

Lemma no_dequeue_after_cancel_witness :
  no_dequeue_after false (log (closing 12 false)
    (dispatchLoop (H := plainMsgpack) (H0 := amd64) (H1 := hourly) (H2 := unitPayload) sampleWorker 3) 0%nat).
Proof.
  apply (no_dequeue_after_cancel (H := plainMsgpack) (H0 := amd64) (H1 := hourly)
    (H2 := unitPayload) (closing 12 false) 0%nat sampleWorker 3).
  vm_compute. intuition congruence.
Defined.

(** ** Idle waits *)

(** The idle backoff is the doubling sequence cut off at thirty seconds: after
    [k] idle wake-ups a slot waits for [min (base * 2^k) 30s], exactly, and an
    operator's base above the cap is left alone. *)
Theorem idle_backoff base k :
  0 < base → in64 base →
  Nat.iter k (λ cur, nextIdleWait cur base) base =
    if maxIdleWait <=? base then base else Z.min (base * 2 ^ Z.of_nat k) maxIdleWait.
Proof.
  intros Hb H64. induction k as [|k IH].
  { cbn. destruct (Z.leb_spec maxIdleWait base); [done|]. rewrite Z.mul_1_r. lia. }
  cbn [Nat.iter nat_rect]. change (nat_rect _ base _ k) with
    (Nat.iter k (λ cur, nextIdleWait cur base) base). rewrite IH. unfold nextIdleWait.
  destruct (Z.leb_spec maxIdleWait base); [done|].
  rewrite Nat2Z.inj_succ, Z.pow_succ_r by lia. pose proof (Z.pow_pos_nonneg 2 (Z.of_nat k)).
  set (p := 2 ^ Z.of_nat k) in *.
  assert (0 < base * p) by (apply Z.mul_pos_pos; lia).
  unfold maxIdleWait in *. rewrite i64_id by (consts; lia).
  destruct (Z.ltb_spec (30 * Second) (Z.min (base * p) (30 * Second) * 2)); lia.
Qed.

Lemma idle_backoff_witness :
  Nat.iter 9 (λ cur, nextIdleWait cur defaultIdlePollInterval) defaultIdlePollInterval =
    Z.min (defaultIdlePollInterval * 2 ^ Z.of_nat 9) maxIdleWait.
Proof. apply (idle_backoff defaultIdlePollInterval 9); by vm_compute. Defined.

(** A request that really waits. *)
Definition blocks (r : req) : bool :=
  match r with
  | RTimer d => 0 <? d
  | RBZPopMin _ t _ => Second <=? t
  | _ => false
  end.

(** moveToActive's cooldown fits a duration. *)
Definition cooldown_fits `{GoArch} (e : event) : bool :=
  match e with
  | Ev (RScript _ MoveToActive _ _) x =>
      match x with
      | inr v => match parseMoveToActiveResult v with
                 | inr a => ar_expireTimeMs a <=? Z.quot maxInt64 Millisecond
                 | inl _ => true
                 end
      | inl _ => true
      end
  | _ => true
  end.

(** The reasons a round may go round again without waiting: a job was run, or a
    delayed job is due. *)
Definition has_work (l : list event) : bool := negb (Nat.eqb (length (gauges l)) 0).

Definition due_answer `{GoArch} (r : req) : resp r → option Z :=
  match r with
  | RScript _ MoveToActive _ _ => λ x,
      match x with
      | inr v => match parseMoveToActiveResult v with
                 | inr a => if 0 <? ar_nextDelayedTs a then Some (ar_nextDelayedTs a) else None
                 | inl _ => None
                 end
      | inl _ => None
      end
  | _ => λ _, None
  end.

Definition due `{GoArch} (l : list event) : Prop :=
  ∃ ts now, answer due_answer l = Some ts ∧ Ev RNow now ∈ l ∧ ts * Millisecond ≤ now.

Section pacing.
Context `{Msgpack} `{GoArch} `{CronLib} {T : Type} `{Payload T}.
Variable w : Worker.

Lemma env_tryOnce :
  wp_env cooldown_fits (tryOnce (T := T) w) (λ r l,
    match r with
    | inl _ => True
    | inr a =>
        (processed a = true → has_work l = true) ∧
        (processed a = false → expireTimeMs a ≤ Z.quot maxInt64 Millisecond ∧
           (0 < nextDelayedTs a → answer due_answer l = Some (nextDelayedTs a)))
    end).
Proof.
  unfold tryOnce. do 4 env_step. destruct (proto.EncodeMoveToActiveOpts _); [by env_step|].
  do 2 env_step. match goal with Hf : cooldown_fits (Ev (RScript _ _ _ _) _) = true |- _ =>
    rename Hf into Hfit end. destruct x1 as [e|v].
  { destruct (Is e ContextCanceled); env_step; [|done]. cbn. split; [done|]. by vm_compute. }
  cbn in Hfit. destruct (parseMoveToActiveResult v) as [e|a] eqn:Ev_; [by env_step|].
  destruct (ar_ok a); cbn [negb].
  - env_step. eapply env_wp; [|apply (wp_runJob (T := T) w)].
    intros pf l _ (_ & mid & -> & _). env_step. cbn. split; [|done]. intros _.
    unfold has_work. unfold gauges. cbn. done.
  - env_step. cbn. split; [done|]. intros _. apply Z.leb_le in Hfit. split; [done|].
    intros Hpos. unfold answer. cbn. rewrite Ev_. zcases; [done | lia].
Qed.

Definition paced (i : Z) : Prop := 0 < i ≤ Z.max maxIdleWait (idlePollInterval (cfg w)).

Lemma nextIdleWait_paced cur :
  0 < idlePollInterval (cfg w) → paced cur → paced (nextIdleWait cur (idlePollInterval (cfg w))).
Proof.
  unfold paced, nextIdleWait. intros Hb Hc. zcases; try lia. unfold maxIdleWait in *.
  rewrite i64_id in * by (consts; lia). consts. lia.
Qed.

Definition waited (l : list event) : Prop :=
  existsb blocks (ev_req <$> l) = true ∨ has_work l = true ∨ due l.

Lemma waited_app_l l1 l2 : waited l1 → waited (l1 ++ l2).
Proof.
  intros [Hb|[Hw|(ts & now & Ha & Hn & Hle)]].
  - left. by rewrite fmap_app, existsb_app, Hb.
  - right; left. unfold has_work in *. rewrite gauges_app, length_app.
    destruct (length (gauges l1)); done.
  - right; right. exists ts, now. rewrite answer_app, Ha. split_and!; [done | set_solver | done].
Qed.

Lemma waited_blocks l1 l2 : existsb blocks (ev_req <$> l2) = true → waited (l1 ++ l2).
Proof. intros Hb. left. rewrite fmap_app, existsb_app, Hb. apply orb_true_r. Qed.

Lemma wp_sleep_blocks d : 0 < d → wp (sleep d) (λ _ l, existsb blocks (ev_req <$> l) = true).
Proof.
  intros Hd. unfold sleep. destruct (Z.leb_spec d 0); [lia|]. wp_step. cbn.
  destruct (Z.ltb_spec 0 d); [done|lia].
Qed.

Lemma wp_await_blocks d :
  0 < d → wp (awaitMarker w d) (λ _ l, existsb blocks (ev_req <$> l) = true).
Proof.
  intros Hd. unfold awaitMarker, running. destruct (Z.leb_spec d 0); [lia|]. repeat wp_step. cbn.
  destruct (Z.ltb_spec d Second); destruct (Z.leb_spec Second (if d <? Second then Second else d));
    zcases; done || lia.
Qed.

Definition turn_paced (r : slot + option prefetchedJob) (l : list event) : Prop :=
  match r with inl s => paced (idleWait s) ∧ waited l | inr _ => True end.

(** A wait, then round again unless stopped. *)
Lemma env_wait (m : M bool) s l1 :
  wp m (λ _ l, existsb blocks (ev_req <$> l) = true) → paced (idleWait s) →
  wp_env cooldown_fits (ok ← m; unless_stopped ok s) (λ r l, turn_paced r (l1 ++ l)).
Proof.
  intros Hm Hs. env_step. eapply env_wp; [|exact Hm]. intros ok l2 _ Hb. unfold unless_stopped.
  env_step. destruct ok; [|done]. split; [done|]. rewrite app_nil_r. by apply waited_blocks.
Qed.

Lemma env_fetch_turn s :
  0 < idlePollInterval (cfg w) → paced (idleWait s) →
  wp_env cooldown_fits (fetch_turn (T := T) w s) turn_paced.
Proof.
  intros Hidle Hs. unfold fetch_turn. env_step. eapply env_mono; [|exact env_tryOnce].
  intros [e|a] l Hl Hpost.
  { env_step. env_step. rename x into u.
    pose proof (env_wait (sleep (idlePollInterval (cfg w))) s (l ++ [Ev _ u])
      (wp_sleep_blocks _ Hidle) Hs) as Hw.
    eapply env_mono; [|exact Hw]. cbn. intros r l2 _ Hr.
    by rewrite <- app_assoc in Hr. }
  destruct Hpost as [Hp Hn]. destruct (processed a) eqn:Epr.
  { env_step. split; [unfold paced; cbn; lia|]. rewrite app_nil_r. right; left. auto. }
  specialize (Hn eq_refl) as [Hexp Hdue]. clear Hp.
  destruct (Z.ltb_spec 0 (expireTimeMs a)).
  { apply env_wait; [|done]. apply wp_sleep_blocks.
    change (Z.quot maxInt64 Millisecond) with 9223372036854 in Hexp.
    rewrite i64_id; consts; lia. }
  destruct (Z.ltb_spec 0 (nextDelayedTs a)) as [Hts|].
  2: { apply env_wait; [apply wp_await_blocks, Hs | by apply nextIdleWait_paced]. }
  env_step. env_step. specialize (Hdue Hts). rename x into now.
  unfold Until. destruct (Z.leb_spec (Z.max minInt64 (Z.min maxInt64
    (nextDelayedTs a * Millisecond - now))) 0) as [Hd|Hd].
  { env_step. split; [done|]. rewrite app_nil_r. right; right. exists (nextDelayedTs a), now.
    rewrite answer_app, Hdue. split_and!; [done | set_solver | consts; lia]. }
  set (d := Z.max _ _) in *.
  assert (Hwait : ∀ m, wp m (λ _ l, existsb blocks (ev_req <$> l) = true) →
    wp_env cooldown_fits (ok ← m; unless_stopped ok s)
      (λ r l2, turn_paced r (l ++ [Ev RNow now] ++ l2))).
  { intros m Hm. eapply env_mono; [|exact (env_wait m s (l ++ [Ev RNow now]) Hm Hs)].
    cbn. intros r l2 _ Hr. by rewrite <- app_assoc in Hr. }
  destruct (d <? markerWaitFloor); apply Hwait; [by apply wp_sleep_blocks|].
  apply wp_await_blocks. unfold maxIdleWait. zcases; consts; lia.
Qed.

Lemma env_turn s :
  0 < idlePollInterval (cfg w) → paced (idleWait s) →
  wp_env cooldown_fits (dispatch_turn (T := T) w s) turn_paced.
Proof.
  intros Hidle Hs. unfold dispatch_turn, running. do 4 env_step.
  assert (Hjob : ∀ pj, wp_env cooldown_fits
    (next ← runJob (T := T) w (pf_token pj) (pf_jobID pj) (pf_jobMap pj);
     mret (inl (mkSlot next (idleWait s)))) turn_paced).
  { intros pj. env_step. eapply env_wp; [|apply (wp_runJob (T := T) w)].
    intros pf l _ (_ & mid & -> & _). env_step. split; [done|]. right; left. done. }
  assert (Hpre : ∀ l1 (m : M (slot + option prefetchedJob)), gauges l1 = [] →
    answer due_answer l1 = None → wp_env cooldown_fits m turn_paced →
    wp_env cooldown_fits m (λ r l, turn_paced r (l1 ++ l))).
  { intros l1 m Hg Ha Hm. eapply env_mono; [|exact Hm]. intros r l _ Hr.
    destruct r as [s'|]; [|done]. destruct Hr as [Hp [Hb|[Hw|(ts & now & Hts & Hn & Hle)]]];
      (split; [done|]).
    - by apply waited_blocks.
    - right; left. unfold has_work in *. by rewrite gauges_app, Hg.
    - right; right. exists ts, now. rewrite answer_app, Ha. split_and!; [done | set_solver | done]. }
  destruct x as [e|].
  - destruct (prefetched s) as [pj|]; [|by repeat env_step].
    do 4 env_step. destruct x; [by env_step|].
    pose proof (Hpre ([Ev (RCtxErr CtxRun) (Some e)] ++ [Ev (RCtxErr CtxJobs) None]) _
      eq_refl eq_refl (Hjob pj)) as Hj.
    eapply env_mono; [|exact Hj]. done.
  - do 2 env_step. apply (Hpre [Ev (RCtxErr CtxRun) None]); [done|done|].
    destruct (prefetched s); [apply Hjob | by apply env_fetch_turn].
Qed.
End pacing.

(** An idle worker does not spin: from a positive poll interval on, every round
    that goes round again has waited (a timer, or at least a second on the
    marker), or has run a job, or found a delayed job due; and the idle wait of
    the next round is positive and capped again. *)
Theorem dispatch_does_not_spin `{Msgpack} `{GoArch} `{CronLib} `{Payload T} {W} (sv : server W)
    w0 w s :
  0 < idlePollInterval (cfg w) → paced w (idleWait s) →
  let m := dispatch_turn (T := T) w s in
  forallb cooldown_fits (log sv m w0) = true →
  match result sv m w0 with
  | inl s' => paced w (idleWait s') ∧ waited (log sv m w0)
  | inr _ => True
  end.
Proof. intros Hi Hs m. apply (wp_run sv m _ w0 (env_turn (T := T) w s Hi Hs)). Qed.

Lemma dispatch_does_not_spin_witness :
  let m := dispatch_turn (H := plainMsgpack) (H0 := amd64) (H1 := hourly) (H2 := unitPayload)
             sampleWorker (mkSlot None defaultIdlePollInterval) in
  match result quiet m tt with
  | inl s' => paced sampleWorker (idleWait s') ∧ waited (H0 := amd64) (log quiet m tt)
  | inr _ => True
  end.
Proof.
  apply (dispatch_does_not_spin (H := plainMsgpack) (H0 := amd64) (H1 := hourly)
    (H2 := unitPayload) quiet tt sampleWorker (mkSlot None defaultIdlePollInterval));
    [by vm_compute | split; by vm_compute | by vm_compute].
Defined.

(** A worker whose poll interval is zero. *)
Definition spinningWorker : Worker :=
  mkWorker (WithIdlePollInterval 0 defaultConfig) (wkeys sampleWorker) "email" (wakeKey sampleWorker).

(** With a zero poll interval a slot does spin: on an empty queue such a worker
    asks Redis for a job again and again and never waits in between. *)
Theorem zero_poll_interval_spins `{Payload T} n :
  let m := dispatchLoop (H := plainMsgpack) (H0 := amd64) (H1 := hourly) (T := T) spinningWorker n in
  result quiet m tt = inl (mkSlot None 0) ∧
  length (calls (log quiet m tt)) = n ∧
  existsb blocks (ev_req <$> log quiet m tt) = false.
Proof.
  unfold dispatchLoop, dispatchFrom, result, log.
  assert (Hturn : run quiet (dispatch_turn (H := plainMsgpack) (H0 := amd64) (H1 := hourly) (T := T)
    spinningWorker (mkSlot None 0)) tt =
    (inl (mkSlot None 0), tt, (run quiet (dispatch_turn (H := plainMsgpack) (H0 := amd64)
      (H1 := hourly) (T := T) spinningWorker (mkSlot None 0)) tt).2)) by reflexivity.
  set (lt := (run quiet (dispatch_turn spinningWorker (mkSlot None 0)) tt).2) in *.
  assert (Hloop : ∃ l, run quiet (loop n (dispatch_turn (H := plainMsgpack) (H0 := amd64)
    (H1 := hourly) (T := T) spinningWorker) (mkSlot None 0)) tt = (inl (mkSlot None 0), tt, l) ∧
    length (calls l) = n ∧ existsb blocks (ev_req <$> l) = false).
  { induction n as [|n (l & IH & Hc & Hb)]; [by exists []|]. cbn [loop].
    rewrite run_bind, Hturn, IH. exists (lt ++ l). split; [done|].
    rewrite calls_app, length_app, fmap_app, existsb_app, Hc, Hb.
    split; [done|]. by rewrite orb_false_r. }
  destruct Hloop as (l & Hl & Hc & Hb). rewrite run_bind.
  change (idlePollInterval (cfg spinningWorker)) with 0. rewrite Hl. cbn. by rewrite app_nil_r.
Qed.
