(* ===== verification/Shutdown.v ===== *)
(** * Stop, Drain and the shutdown latch (worker.go)

    Any number of callers run [Stop] and [Drain] concurrently with the worker's
    goroutines and with the one waiter goroutine the latch starts. The model is
    a transition system: one step per statement that touches shared state, in
    any interleaving. [jobsCtx] and [runCtx] are the two cancellation flags,
    [once] is the [sync.Once], [live] counts the goroutines of the WaitGroup
    that have not returned, [waiter] is the waiter's next statement. *)

From S2P Require Import Prelude GoLib Keys Backoff Effects Config.

(** ** Waking the dispatchers *)

Definition wakeCount (c : workerConfig) : Z := if concurrency c <? 1 then 1 else concurrency c.

Definition wakeMembers (n : Z) : list (Z * string) :=
  (λ i : nat, (0, "stop:" +:+ FormatInt (Z.of_nat i))) <$> seq 0 (Z.to_nat n).

(** The client of a worker is never nil. *)
Definition wakeDispatchers (w : Worker) : M unit :=
  if String.eqb (wakeKey w) "" then mret tt
  else ask (RZAdd CtxBackground (wakeKey w) (wakeMembers (wakeCount (cfg w)))).

Definition dropWakeKey (w : Worker) : M unit :=
  if String.eqb (wakeKey w) "" then mret tt else ask (RDel CtxBackground (wakeKey w)).

(** ** The transition system *)

Inductive method := MStop | MDrain.

(** Where a caller is. [InOnce k]: inside the [stopOnce.Do] body, with [k]
    statements done. [Selecting]: in the final select. *)
Inductive pc :=
| Idle
| AtCancel              (* Stop: before jobsCancel *)
| AtOnce                (* before stopOnce.Do *)
| InOnce (k : nat)      (* runCancel; wakeDispatchers; go waiter *)
| Selecting
| Expired               (* Drain: ctx done, before jobsCancel *)
| Returned (ok : bool). (* nil, or ctx.Err() *)

Inductive once_state := Fresh | Busy | Over.

(** The waiter's next statement: Wait, jobsCancel, dropWakeKey, close. *)
Inductive waiter_pc := NotStarted | AtWait | AtJobsCancel | AtDrop | AtClose | Finished.

Record state := mkState {
  runC : bool;
  jobsC : bool;
  once : once_state;
  live : nat;
  waiter : waiter_pc;
  closed : bool;
  woken : bool;                    (* wakeDispatchers was called *)
  callers : list (method * pc);
}.

Definition init (goroutines : nat) (ms : list method) : state :=
  mkState false false Fresh goroutines NotStarted false false ((λ m, (m, Idle)) <$> ms).

(** Caller [i] moves to [p']; everything else is given. *)
Definition move (s : state) (i : nat) (m : method) (p : pc) : list (method * pc) :=
  <[i := (m, p)]> (callers s).

Inductive step : state → state → Prop :=
(* Stop: w.jobsCancel(); w.beginShutdown() *)
| step_stop s i :
    callers s !! i = Some (MStop, Idle) →
    step s (mkState (runC s) (jobsC s) (once s) (live s) (waiter s) (closed s) (woken s)
              (move s i MStop AtCancel))
| step_stop_cancel s i :
    callers s !! i = Some (MStop, AtCancel) →
    step s (mkState (runC s) true (once s) (live s) (waiter s) (closed s) (woken s)
              (move s i MStop AtOnce))
(* Drain: w.beginShutdown() *)
| step_drain s i :
    callers s !! i = Some (MDrain, Idle) →
    step s (mkState (runC s) (jobsC s) (once s) (live s) (waiter s) (closed s) (woken s)
              (move s i MDrain AtOnce))
(* stopOnce.Do: the first caller enters, the others wait until it is over *)
| step_once_enter s i m :
    callers s !! i = Some (m, AtOnce) → once s = Fresh →
    step s (mkState (runC s) (jobsC s) Busy (live s) (waiter s) (closed s) (woken s)
              (move s i m (InOnce 0)))
| step_once_skip s i m :
    callers s !! i = Some (m, AtOnce) → once s = Over →
    step s (mkState (runC s) (jobsC s) (once s) (live s) (waiter s) (closed s) (woken s)
              (move s i m Selecting))
| step_run_cancel s i m :
    callers s !! i = Some (m, InOnce 0) →
    step s (mkState true (jobsC s) (once s) (live s) (waiter s) (closed s) (woken s)
              (move s i m (InOnce 1)))
| step_wake s i m :
    callers s !! i = Some (m, InOnce 1) →
    step s (mkState (runC s) (jobsC s) (once s) (live s) (waiter s) (closed s) true
              (move s i m (InOnce 2)))
| step_spawn s i m :
    callers s !! i = Some (m, InOnce 2) →
    step s (mkState (runC s) (jobsC s) Over (live s) AtWait (closed s) (woken s)
              (move s i m Selecting))
(* the final selects *)
| step_select_done s i m :
    callers s !! i = Some (m, Selecting) → closed s = true →
    step s (mkState (runC s) (jobsC s) (once s) (live s) (waiter s) (closed s) (woken s)
              (move s i m (Returned true)))
| step_stop_expired s i :
    callers s !! i = Some (MStop, Selecting) →
    step s (mkState (runC s) (jobsC s) (once s) (live s) (waiter s) (closed s) (woken s)
              (move s i MStop (Returned false)))
| step_drain_expired s i :
    callers s !! i = Some (MDrain, Selecting) →
    step s (mkState (runC s) (jobsC s) (once s) (live s) (waiter s) (closed s) (woken s)
              (move s i MDrain Expired))
| step_drain_cancel s i :
    callers s !! i = Some (MDrain, Expired) →
    step s (mkState (runC s) true (once s) (live s) (waiter s) (closed s) (woken s)
              (move s i MDrain (Returned false)))
(* the waiter goroutine *)
| step_wait s :
    waiter s = AtWait → live s = 0%nat →
    step s (mkState (runC s) (jobsC s) (once s) (live s) AtJobsCancel (closed s) (woken s) (callers s))
| step_jobs_cancel s :
    waiter s = AtJobsCancel →
    step s (mkState (runC s) true (once s) (live s) AtDrop (closed s) (woken s) (callers s))
| step_drop s :
    waiter s = AtDrop →
    step s (mkState (runC s) (jobsC s) (once s) (live s) AtClose (closed s) (woken s) (callers s))
| step_close s :
    waiter s = AtClose →
    step s (mkState (runC s) (jobsC s) (once s) (live s) Finished true (woken s) (callers s))
(* a dispatch or stalled goroutine returns: only once its context is cancelled *)
| step_goroutine s n :
    live s = S n → runC s = true →
    step s (mkState (runC s) (jobsC s) (once s) n (waiter s) (closed s) (woken s) (callers s)).

Definition reachable (goroutines : nat) (ms : list method) : state → Prop :=
  rtc step (init goroutines ms).

(** ** Invariant *)

(** A Stop past its first statement, or a Drain whose context expired. *)
Definition cancels (c : method * pc) : bool :=
  match c with
  | (MStop, (AtOnce | InOnce _ | Selecting | Returned _ | Expired)) => true
  | (MDrain, Returned false) => true
  | _ => false
  end.

Definition after_wait (p : waiter_pc) : bool :=
  match p with AtJobsCancel | AtDrop | AtClose | Finished => true | _ => false end.

Definition after_cancel (p : waiter_pc) : bool :=
  match p with AtDrop | AtClose | Finished => true | _ => false end.

Definition past_once (p : pc) : bool :=
  match p with Selecting | Expired | Returned _ => true | _ => false end.

Record inv (s : state) : Prop := {
  inv_over : once s = Over → waiter s ≠ NotStarted;
  inv_started : waiter s ≠ NotStarted → once s = Over;
  inv_busy : ∀ i m k, callers s !! i = Some (m, InOnce k) → once s = Busy;
  inv_one : ∀ i j m m' k k', callers s !! i = Some (m, InOnce k) →
              callers s !! j = Some (m', InOnce k') → i = j;
  inv_run : ∀ i m k, callers s !! i = Some (m, InOnce (S k)) → runC s = true;
  inv_run_over : once s = Over → runC s = true;
  inv_woken : ∀ i m, callers s !! i = Some (m, InOnce 2) → woken s = true;
  inv_woken_over : once s = Over → woken s = true;
  inv_wait : after_wait (waiter s) = true → live s = 0%nat;
  inv_closed : closed s = true → waiter s = Finished;
  inv_finished : waiter s = Finished → closed s = true;
  inv_jobs_waiter : after_cancel (waiter s) = true → jobsC s = true;
  inv_jobs_caller : ∀ i c, callers s !! i = Some c → cancels c = true → jobsC s = true;
  inv_cause : jobsC s = true →
    (∃ i c, callers s !! i = Some c ∧ cancels c = true) ∨ after_cancel (waiter s) = true;
  inv_ok : ∀ i m, callers s !! i = Some (m, Returned true) → closed s = true;
  inv_past : ∀ i m p, callers s !! i = Some (m, p) → past_once p = true → once s = Over;
}.

(** ** Lemmas *)

Lemma init_inv n ms : inv (init n ms).
Proof.
  assert (Hidle : ∀ i c, callers (init n ms) !! i = Some c → c.2 = Idle).
  { intros i c. unfold init. cbn. rewrite list_lookup_fmap.
    destruct (ms !! i); [|done]. by intros [= <-]. }
  split; cbn [init runC jobsC once live waiter closed woken]; try done.
  all: intros; repeat match goal with Hc : callers _ !! _ = Some _ |- _ => apply Hidle in Hc end.
  all: repeat match goal with c : method * pc |- _ => destruct c as [[] ?] end.
  all: cbn in *; by subst.
Qed.

Lemma lookup_move s i m p j c :
  move s i m p !! j = Some c →
  (i = j ∧ c = (m, p)) ∨ (i ≠ j ∧ callers s !! j = Some c).
Proof. unfold move. intros [(? & ? & _)|?]%list_lookup_insert_Some; auto. Qed.

(** A caller that cancels goes on counting as one. *)
Lemma cause_move s i m p p' (Q : Prop) :
  callers s !! i = Some (m, p) → (cancels (m, p) = true → cancels (m, p') = true) →
  (∃ j c, callers s !! j = Some c ∧ cancels c = true) ∨ Q →
  (∃ j c, move s i m p' !! j = Some c ∧ cancels c = true) ∨ Q.
Proof.
  intros Hi Hp [(j & c & Hj & Hc)|]; [left|by right].
  unfold move. destruct (decide (i = j)) as [<-|].
  - exists i, (m, p'). rewrite list_lookup_insert_eq by (by eapply lookup_lt_Some).
    rewrite Hi in Hj. injection Hj as <-. auto.
  - exists j, c. by rewrite list_lookup_insert_ne.
Qed.

Lemma step_inv s s' : step s s' → inv s → inv s'.
Proof.
  intros Hstep Hinv. destruct Hinv. destruct Hstep.
  all: split; cbn [runC jobsC once live waiter closed woken callers]; try done; try congruence.
  all: try (intros; repeat match goal with
    | Hm : move _ _ _ _ !! _ = Some _ |- _ => apply lookup_move in Hm as [[? ?]|[? Hm]] end;
    simplify_eq; eauto; fail).
  all: try (intros Hj; eapply cause_move; [eassumption | by destruct m | by auto]; fail).
  all: try (intros Hj; eapply cause_move; [eassumption | done | by auto]; fail).
  all: try (intros _; left; exists i; eexists; unfold move;
    rewrite list_lookup_insert_eq by (by eapply lookup_lt_Some); done).
  all: try (intros; exfalso; repeat match goal with
    | Hc : closed _ = true |- _ => apply inv_closed0 in Hc end; congruence).
  (* the waiter moves on: its state was already past the latch *)
  all: try (intros _; first [apply inv_started0 | apply inv_wait0 | apply inv_jobs_waiter0];
    match goal with Hw : waiter _ = _ |- _ => rewrite Hw; done end).
  - intros Hw%inv_started0. congruence.
  - intros j j' m1 m2 k k' [[? ?]|[? Hj]]%lookup_move [[? ?]|[? Hj']]%lookup_move; simplify_eq; try done.
    + apply inv_busy0 in Hj'. congruence.
    + apply inv_busy0 in Hj. congruence.
    + by eapply inv_one0.
  - intros j m1 p [[? ?]|[? Hj]]%lookup_move Hp; simplify_eq/=; try done.
    apply inv_past0 in Hj; [congruence | done].
  - intros j m1 k [[? ?]|[? Hj]]%lookup_move; simplify_eq. exfalso. by eapply H0, inv_one0.
  - intros Hc%inv_closed0. pose proof (inv_busy0 _ _ _ H). rewrite inv_started0 in *; congruence.
  - intros Hj. eapply cause_move; [eassumption | by destruct m |].
    destruct (inv_cause0 Hj) as [|Hw]; [by left|]. exfalso.
    pose proof (inv_busy0 _ _ _ H). destruct (waiter s) eqn:E; try done;
      rewrite inv_started0 in *; congruence.
  - intros Hj. destruct (inv_cause0 Hj) as [|Hw]; [by left|]. by rewrite H in Hw.
  - intros Hw%inv_wait0. congruence.
Qed.

Lemma reachable_inv n ms s : reachable n ms s → inv s.
Proof.
  unfold reachable. generalize (init_inv n ms). generalize (init n ms). intros s0 H0 Hr.
  induction Hr; [done|]. by eauto using step_inv.
Qed.

(** ** Properties *)

(** C19. Stop and Drain mean what they promise, for any number of concurrent calls
    in any interleaving: a call that returns nil finds every goroutine of the
    worker returned, the job contexts cancelled, the dispatchers woken and the
    channel closed; and the channel is never closed twice. *)
Theorem shutdown_waits_for_all n ms s :
  reachable n ms s →
  (∀ i m, callers s !! i = Some (m, Returned true) →
     live s = 0%nat ∧ jobsC s = true ∧ runC s = true ∧ woken s = true ∧ closed s = true) ∧
  (waiter s = AtClose → closed s = false).
Proof.
  intros Hr. apply reachable_inv in Hr as [Ho Hs _ _ _ Hrun _ Hwo Hw Hc _ Hj _ _ Hok _]. split.
  - intros i m Hi. apply Hok in Hi. apply Hc in Hi as Hf. rewrite Hf in *.
    assert (once s = Over) by (by apply Hs). split_and!; auto.
  - intros E. destruct (closed s); [|done]. specialize (Hc eq_refl). congruence.
Qed.

(** Drain alone never cancels a running job: as long as goroutines are running,
    the job contexts are cancelled only if some Stop has begun or some Drain's
    own context has expired. *)
Theorem drain_leaves_jobs_alone n ms s :
  reachable n ms s → (0 < live s)%nat →
  (∀ i c, callers s !! i = Some c → cancels c = false) → jobsC s = false.
Proof.
  intros Hr Hl Hno. apply reachable_inv in Hr. destruct (jobsC s) eqn:E; [|done].
  destruct (inv_cause s Hr E) as [(i & c & Hi & Hc)|Hw].
  - rewrite (Hno i c Hi) in Hc. done.
  - pose proof (inv_wait s Hr) as Hz. destruct (waiter s); cbn in *; rewrite ?Hz in Hl by done;
      done || lia.
Qed.

(** The latch lets exactly one caller in, whose shutdown is the only one. *)
Theorem one_shutdown n ms s i j m m' k k' :
  reachable n ms s →
  callers s !! i = Some (m, InOnce k) → callers s !! j = Some (m', InOnce k') →
  i = j ∧ waiter s = NotStarted.
Proof.
  intros Hr Hi Hj. apply reachable_inv in Hr as [_ Hs Hb H1 _ _ _ _ _ _ _ _ _ _ _ _].
  split; [by eapply H1|]. apply Hb in Hi. destruct (waiter s) eqn:E; [done|..];
    rewrite Hs in Hi by (by rewrite ?E); done.
Qed.

(** *** Progress *)

(** Once the goroutines have returned the waiter can always finish. *)
Lemma waiter_finishes s :
  inv s → live s = 0%nat → once s = Over →
  ∃ s', rtc step s s' ∧ closed s' = true ∧ callers s' = callers s.
Proof.
  intros Hi Hl Ho.
  assert (Hclose : ∀ s, waiter s = AtClose → ∃ s', rtc step s s' ∧ closed s' = true ∧ callers s' = callers s).
  { intros t Ht. eexists. split; [apply rtc_once, step_close, Ht | done]. }
  assert (Hdrop : ∀ s, waiter s = AtDrop → ∃ s', rtc step s s' ∧ closed s' = true ∧ callers s' = callers s).
  { intros t Ht. pose proof (step_drop t Ht) as St. edestruct Hclose as (t' & Hr & ? & ?).
    2: { exists t'. split; [eapply rtc_l; [exact St|exact Hr] | done]. } done. }
  assert (Hcancel : ∀ s, waiter s = AtJobsCancel → ∃ s', rtc step s s' ∧ closed s' = true ∧ callers s' = callers s).
  { intros t Ht. pose proof (step_jobs_cancel t Ht) as St. edestruct Hdrop as (t' & Hr & ? & ?).
    2: { exists t'. split; [eapply rtc_l; [exact St|exact Hr] | done]. } done. }
  destruct (waiter s) eqn:E; auto.
  - by destruct (inv_over s Hi Ho).
  - pose proof (step_wait s E Hl) as St. edestruct Hcancel as (t' & Hr & ? & ?).
    2: { exists t'. split; [eapply rtc_l; [exact St|exact Hr] | done]. } done.
  - exists s. split; [done|]. split; [by apply (inv_finished s Hi) | done].
Qed.

Lemma goroutines_return s :
  runC s = true → ∃ s', rtc step s s' ∧ live s' = 0%nat ∧ callers s' = callers s ∧ once s' = once s.
Proof.
  remember (live s) as n eqn:E. revert s E. induction n as [|n IH]; intros s E Hr.
  { exists s. by rewrite <- E. }
  edestruct IH as (s' & Hs & ? & ? & ?); cycle 2.
  { exists s'. split; [eapply rtc_l; [by apply (step_goroutine s n)|exact Hs] | done]. }
  all: done.
Qed.

(** No caller is ever stuck: from every reachable state in which a call is in
    its final select there is a way for that call to return nil, by nothing but
    the goroutines and the waiter finishing. *)
Theorem shutdown_can_complete n ms s i m :
  reachable n ms s → callers s !! i = Some (m, Selecting) →
  ∃ s', rtc step s s' ∧ callers s' !! i = Some (m, Returned true).
Proof.
  intros Hr Hi. apply reachable_inv in Hr.
  assert (once s = Over) as Ho by (by eapply (inv_past s Hr)).
  destruct (goroutines_return s (inv_run_over s Hr Ho)) as (s1 & H1 & Hl & Hc1 & Ho1).
  assert (inv s1) as Hi1.
  { clear -Hr H1. induction H1; [done|]. by eauto using step_inv. }
  destruct (waiter_finishes s1 Hi1 Hl) as (s2 & H2 & Hcl & Hc2); [congruence|].
  assert (callers s2 !! i = Some (m, Selecting)) as Hi2 by congruence.
  eexists. split.
  - transitivity s1; [exact H1|]. eapply rtc_r; [exact H2|].
    by apply (step_select_done s2 i m).
  - cbn. unfold move. rewrite list_lookup_insert_eq by (by eapply lookup_lt_Some). done.
Qed.

(** One wake-up per dispatcher: the members pushed to the private wake key are
    pairwise distinct (a sorted set would merge equal ones) and as many as the
    worker has slots. *)
Theorem wake_one_per_dispatcher c :
  in64 (concurrency c) →
  NoDup (wakeMembers (wakeCount c)).*2 ∧
  Z.of_nat (length (wakeMembers (wakeCount c))) = Z.max 1 (concurrency c).
Proof.
  intros Hc. unfold wakeMembers, wakeCount. split.
  - rewrite <- list_fmap_compose. apply NoDup_fmap_2_strong; [|apply NoDup_seq].
    intros x y Hx Hy. cbn. intros E. injection E as E.
    apply elem_of_seq in Hx, Hy.
    destruct (Z.ltb_spec (concurrency c) 1);
      apply Nat2Z.inj, (FormatInt_inj _ _); try done; consts; lia.
  - rewrite length_fmap, length_seq. zcases; lia.
Qed.

Lemma wake_one_per_dispatcher_witness :
  NoDup (wakeMembers (wakeCount (WithConcurrency 12 defaultConfig))).*2 ∧
  Z.of_nat (length (wakeMembers (wakeCount (WithConcurrency 12 defaultConfig)))) = Z.max 1 12.
Proof. apply (wake_one_per_dispatcher (WithConcurrency 12 defaultConfig)). by vm_compute. Defined.

(** *** A concrete shutdown: one goroutine, a Drain and a Stop that never runs *)

Definition inLatch : state :=
  mkState true false Busy 1 NotStarted false false [(MDrain, InOnce 1); (MStop, Idle)].

Definition waiting : state :=
  mkState true false Over 1 AtWait false true [(MDrain, Selecting); (MStop, Idle)].

Definition over : state :=
  mkState true true Over 0 Finished true true [(MDrain, Returned true); (MStop, Idle)].

Tactic Notation "take" uconstr(rule) := eapply rtc_l; [eapply rule; reflexivity | cbn].

Lemma inLatch_reachable : reachable 1 [MDrain; MStop] inLatch.
Proof.
  unfold reachable, init. cbn. take (step_drain _ 0). take (step_once_enter _ 0).
  take (step_run_cancel _ 0). apply rtc_refl.
Qed.

Lemma waiting_reachable : reachable 1 [MDrain; MStop] waiting.
Proof.
  unfold reachable. etransitivity; [exact inLatch_reachable|]. take (step_wake _ 0). take (step_spawn _ 0).
  apply rtc_refl.
Qed.

Lemma over_reachable : reachable 1 [MDrain; MStop] over.
Proof.
  unfold reachable. etransitivity; [exact waiting_reachable|]. take step_goroutine. take step_wait.
  take step_jobs_cancel. take step_drop. take step_close. take (step_select_done _ 0).
  apply rtc_refl.
Qed.

Lemma shutdown_waits_for_all_witness :
  (∀ i m, callers over !! i = Some (m, Returned true) →
     live over = 0%nat ∧ jobsC over = true ∧ runC over = true ∧ woken over = true ∧
     closed over = true) ∧
  (waiter over = AtClose → closed over = false).
Proof. apply (shutdown_waits_for_all 1 [MDrain; MStop]). exact over_reachable. Defined.

Lemma drain_leaves_jobs_alone_witness : jobsC waiting = false.
Proof.
  apply (drain_leaves_jobs_alone 1 [MDrain; MStop]); [exact waiting_reachable | cbn; lia |].
  intros [|[|]] c; cbn; intros [= <-] || intros [=]; done.
Defined.

Lemma one_shutdown_witness : 0%nat = 0%nat ∧ waiter inLatch = NotStarted.
Proof.
  apply (one_shutdown 1 [MDrain; MStop] inLatch 0 0 MDrain MDrain 1 1);
    [exact inLatch_reachable | done | done].
Defined.

Lemma shutdown_can_complete_witness :
  ∃ s', rtc step waiting s' ∧ callers s' !! 0%nat = Some (MDrain, Returned true).
Proof.
  apply (shutdown_can_complete 1 [MDrain; MStop] waiting 0 MDrain); [exact waiting_reachable | done].
Defined.
