(* ===== verification/Queue.v ===== *)
(** * Adding and reading jobs (queue.go, options.go)

    [Define] with its bootstrap writes, the per-job options, [Add] with its
    choice of script and its deduplication check, and [Get]. *)

From S2P Require Import Prelude GoLib Keys Backoff Effects Json Jobs Proto Config.

(** ** options.go *)

Record addConfig := mkAddConfig {
  ac_jobID : string;
  ac_jobName : string;
  ac_jobNameSet : bool;
  ac_delay : Z;
  ac_attempts : Z;
  ac_priority : Z;
  ac_lifo : bool;
  ac_backoff : option BackoffStrategy;
  ac_keepCompleted : option Z;
  ac_keepFailed : option Z;
  ac_keepCompletedAge : option Z;
  ac_keepFailedAge : option Z;
  ac_dedupID : string;
  ac_dedupTTL : Z;
  ac_dedupSet : bool;
}.

Definition zeroAdd : addConfig :=
  mkAddConfig "" "" false 0 0 0 false None None None None None "" 0 false.

Definition AddOption : Type := addConfig → addConfig.

Definition WithJobID (id : string) : AddOption := λ '(mkAddConfig _ n ns d a p l b kc kf kca kfa di dt ds),
  mkAddConfig id n ns d a p l b kc kf kca kfa di dt ds.
Definition WithJobName (name : string) : AddOption := λ '(mkAddConfig i _ _ d a p l b kc kf kca kfa di dt ds),
  mkAddConfig i name true d a p l b kc kf kca kfa di dt ds.
Definition WithDelay (delay : Z) : AddOption := λ '(mkAddConfig i n ns _ a p l b kc kf kca kfa di dt ds),
  mkAddConfig i n ns delay a p l b kc kf kca kfa di dt ds.
Definition WithAttempts (att : Z) : AddOption := λ '(mkAddConfig i n ns d _ p l b kc kf kca kfa di dt ds),
  mkAddConfig i n ns d att p l b kc kf kca kfa di dt ds.
Definition WithPriority (prio : Z) : AddOption := λ '(mkAddConfig i n ns d a _ l b kc kf kca kfa di dt ds),
  mkAddConfig i n ns d a prio l b kc kf kca kfa di dt ds.
Definition WithLifo (lf : bool) : AddOption := λ '(mkAddConfig i n ns d a p _ b kc kf kca kfa di dt ds),
  mkAddConfig i n ns d a p lf b kc kf kca kfa di dt ds.
Definition WithBackoff (bs : BackoffStrategy) : AddOption := λ '(mkAddConfig i n ns d a p l _ kc kf kca kfa di dt ds),
  mkAddConfig i n ns d a p l (Some bs) kc kf kca kfa di dt ds.
Definition WithKeepCompleted (k : Z) : AddOption := λ '(mkAddConfig i n ns d a p l b _ kf kca kfa di dt ds),
  mkAddConfig i n ns d a p l b (Some k) kf kca kfa di dt ds.
Definition WithKeepFailed (k : Z) : AddOption := λ '(mkAddConfig i n ns d a p l b kc _ kca kfa di dt ds),
  mkAddConfig i n ns d a p l b kc (Some k) kca kfa di dt ds.
Definition WithKeepCompletedAge (age : Z) : AddOption := λ '(mkAddConfig i n ns d a p l b kc kf _ kfa di dt ds),
  mkAddConfig i n ns d a p l b kc kf (Some age) kfa di dt ds.
Definition WithKeepFailedAge (age : Z) : AddOption := λ '(mkAddConfig i n ns d a p l b kc kf kca _ di dt ds),
  mkAddConfig i n ns d a p l b kc kf kca (Some age) di dt ds.
Definition WithDeduplication (id : string) (ttl : Z) : AddOption :=
  λ '(mkAddConfig i n ns d a p l b kc kf kca kfa _ _ _),
  mkAddConfig i n ns d a p l b kc kf kca kfa id ttl true.
Definition WithUnique (id : string) (ttl : Z) : AddOption := WithDeduplication id ttl.

(** ** Define *)

Definition bootstrap (q : Queue) : M unit :=
  _ ← ask (RPipeline CtxBackground
    [CHSetNX (keys.Meta (q_keys q)) "version" versionTag;
     CSAdd (queueRegistryKey (keyPrefix (q_client q))) (q_name q)]);
  mret tt.

Definition Define (c : Client) (name : string) : M Queue :=
  let q := mkQueue c name (keys.New (keyPrefix c) name) in
  _ ← bootstrap q; mret q.

(** ** Add *)

Section add.
Context `{Msgpack} `{GoArch} {T : Type} `{Payload T}.
Variable q : Queue.

Definition buildRetentionLimit (count age : option Z) : option proto.RetentionLimit :=
  match count, age with
  | None, None => None
  | _, _ => Some (proto.mkRetentionLimit count ((λ a, int64_of_f64 (Seconds a)) <$> age))
  end.

Definition toProtoOpts (c : addConfig) (delayMs : Z) : proto.AddOpts :=
  proto.mkAddOpts delayMs (ac_priority c) (ac_attempts c)
    ((λ b, proto.mkBackoff (Type_ b) (Milliseconds (Delay b)) (Jitter b)) <$> ac_backoff c)
    (ac_lifo c)
    (buildRetentionLimit (ac_keepCompleted c) (ac_keepCompletedAge c))
    (buildRetentionLimit (ac_keepFailed c) (ac_keepFailedAge c))
    (if negb (String.eqb (ac_dedupID c) "")
     then Some (proto.mkDedup (ac_dedupID c) (Milliseconds (ac_dedupTTL c))) else None).

Definition dispatch (delayMs priority : Z) : ScriptName * list string :=
  let b := q_keys q in
  if 0 <? delayMs then
    (AddDelayedJob,
     [keys.Marker b; keys.Meta b; keys.ID b; keys.Delayed b; keys.Completed b; keys.Events b])
  else if 0 <? priority then
    (AddPrioritizedJob,
     [keys.Marker b; keys.Meta b; keys.ID b; keys.Prioritized b; keys.Delayed b;
      keys.Completed b; keys.Active b; keys.Events b; keys.PriorityCounter b])
  else
    (AddStandardJob,
     [keys.Wait b; keys.Paused b; keys.Meta b; keys.ID b; keys.Completed b; keys.Delayed b;
      keys.Active b; keys.Events b; keys.Marker b]).

(** The Go type and value printed by the last case are left out of the text. *)
Definition parseAddResult (r : any) : res string :=
  match r with
  | AStr v | ABytes v => inr v
  | AInt64 v =>
      if v <? 0 then inl (EText ("mkq: lua add returned error code " +:+ FormatInt v))
      else inr (FormatInt v)
  | _ => inl (EText "mkq: unexpected lua add result")
  end.

(** The job and the error; the job pointer may be nil. *)
Definition addResult : Type := option (JobT T) * option err.

Definition addJob (jobID jobName : string) (payload : T) (timestampMs : Z) : JobT T :=
  mkJob jobID jobName payload timestampMs 0 0 0 "" true.

(** The body of [Add] after the option validation, up to the deferred span. *)
Definition addBody (payload : T) (c : addConfig) (delayMs : Z) : M addResult :=
  let fail e : M addResult := mret (None, Some e) in
  match MarshalJSON payload with
  | inl e => fail (Errorw "mkq: marshal payload" e)
  | inr dataJSON =>
  now ← ask RNow;
  let timestampMs := UnixMilli now in
  let jobName := if negb (String.eqb (ac_jobName c) "") then ac_jobName c else q_name q in
  _ ← ask (RSpanAttrs [(AttrJobName, jobName)]);
  let dedupKey := if negb (String.eqb (ac_dedupID c) "") then keys.Dedup (q_keys q) (ac_dedupID c)
                  else "" in
  match proto.EncodeAddArgs (proto.mkAddArgs (keys.Base (q_keys q)) (ac_jobID c) jobName
          timestampMs "" "" None "" dedupKey) with
  | inl e => fail (Errorw "mkq: encode args" e)
  | inr argsBytes =>
  match proto.EncodeAddOpts (toProtoOpts c delayMs) with
  | inl e => fail (Errorw "mkq: encode opts" e)
  | inr optsBytes =>
  preDedupID ← (if negb (String.eqb dedupKey "") then
                  v ← ask (RGet CtxCaller dedupKey);
                  mret match v with inr s => s | inl _ => "" end
                else mret "");
  let '(scriptName, ks) := dispatch delayMs (ac_priority c) in
  r ← ask (RScript CtxCaller scriptName ks [ABytes argsBytes; ABytes dataJSON; ABytes optsBytes]);
  match r with
  | inl e => fail (Errorw ("mkq: " +:+ script_name scriptName) e)
  | inr v =>
  match parseAddResult v with
  | inl e => fail e
  | inr jobID =>
  _ ← ask (RSpanAttrs [(AttrJobID, jobID)]);
  let job := addJob jobID jobName payload timestampMs in
  if negb (String.eqb preDedupID "") && String.eqb preDedupID jobID then
    _ ← ask (RSpanAttrs [("mkq.dedup.hit", "true")]);
    mret (Some job, Some (ESent ErrDuplicateJob))
  else
    _ ← ask (RCounter MetricJobsAddedTotal [(AttrQueue, q_name q); (AttrJobName, jobName)]);
    mret (Some job, None)
  end end end end end.

Definition validateAdd (c : addConfig) (delayMs : Z) : option err :=
  if (0 <? delayMs) && (0 <? ac_priority c) then Some (ESent ErrPriorityWithDelay)
  else if ac_dedupSet c && String.eqb (ac_dedupID c) "" then
    Some (EText "mkq: WithDeduplication / WithUnique id must be non-empty")
  else if ac_jobNameSet c && String.eqb (ac_jobName c) "" then
    Some (EText "mkq: WithJobName name must be non-empty")
  else None.

Definition Add (payload : T) (opts : list AddOption) : M addResult :=
  _ ← ask (RSpanStart SpanQueueAdd [(AttrQueue, q_name q)]);
  let c := applyOptions opts zeroAdd in
  let delayMs := Milliseconds (ac_delay c) in
  r ← match validateAdd c delayMs with
      | Some e => mret (None, Some e)
      | None => addBody payload c delayMs
      end;
  _ ← match (r : addResult).2 with
      | Some e => if negb (Is e ErrDuplicateJob) then ask (RSpanError e) else mret tt
      | None => mret tt
      end;
  _ ← ask RSpanEnd;
  mret r.

(** ** Get *)

Definition Get (jobID : string) : M (res (JobT T * JobState)) :=
  h ← ask (RHGetAll CtxCaller (keys.Job (q_keys q) jobID));
  mret match h with
  | inl e => inl (Errorw ("mkq: HGetAll " +:+ jobID) e)
  | inr hash =>
      if bool_decide (hash = ∅) then inl (ESent ErrJobNotFound)
      else match buildJob (T := T) jobID hash with
      | inl e => inl e
      | inr j =>
          inr (mkJob (Job_ID j) (Job_Name j) (Job_Data j) (Job_Timestamp j) (Job_AttemptsMade j)
                 (Job_AttemptsStarted j) (Job_StalledCounter j) (Job_ProcessedBy j) true,
               buildJobState hash)
      end
  end.
End add.

(** ** Reading the log of [Add] *)

Definition spanErrors (l : list event) : list err :=
  omap (λ e, match ev_req e with RSpanError x => Some x | _ => None end) l.

Definition spanMarks (l : list event) : nat :=
  length (omap (λ e, match ev_req e with RSpanStart _ _ | RSpanEnd => Some tt | _ => None end) l).

Lemma spanErrors_app l1 l2 : spanErrors (l1 ++ l2) = spanErrors l1 ++ spanErrors l2.
Proof. apply omap_app. Qed.
Lemma spanMarks_app l1 l2 : spanMarks (l1 ++ l2) = (spanMarks l1 + spanMarks l2)%nat.
Proof. unfold spanMarks. by rewrite omap_app, length_app. Qed.
#[export] Hint Rewrite spanErrors_app spanMarks_app : logs.

Section add_lemmas.
Context `{Msgpack} `{GoArch} {T : Type} `{Payload T}.
Variable q : Queue.

Definition jobNameOf (c : addConfig) : string :=
  if negb (String.eqb (ac_jobName c) "") then ac_jobName c else q_name q.

(** The keys of the queue by name, and the script that takes a job with a delay of
    [ms] and a priority of [prio], with the KEYS its head lists: a delay comes
    first, and a job with neither waits. *)
Definition named (names : list string) : list string :=
  (λ n, keys.Prefix (q_keys q) +:+ ":" +:+ keys.Queue (q_keys q) +:+ ":" +:+ n) <$> names.

Inductive routed (ms prio : Z) : ScriptName → list string → Prop :=
| routed_later : 0 < ms →
    routed ms prio AddDelayedJob (named ["marker"; "meta"; "id"; "delayed"; "completed"; "events"])
| routed_urgent : ms ≤ 0 → 0 < prio →
    routed ms prio AddPrioritizedJob
      (named ["marker"; "meta"; "id"; "prioritized"; "delayed"; "completed"; "active"; "events"; "pc"])
| routed_plain : ms ≤ 0 → prio ≤ 0 →
    routed ms prio AddStandardJob
      (named ["wait"; "paused"; "meta"; "id"; "completed"; "delayed"; "active"; "events"; "marker"]).

Lemma dispatch_routed ms prio : routed ms prio (dispatch q ms prio).1 (dispatch q ms prio).2.
Proof.
  assert (Hk : ∀ n, keys.Base (q_keys q) +:+ n = keys.Prefix (q_keys q) +:+ ":" +:+ keys.Queue (q_keys q) +:+ ":" +:+ n).
  { intros n. unfold keys.Base. by rewrite <-!sapp_assoc. }
  unfold dispatch, keys.Marker, keys.Meta, keys.ID, keys.Delayed, keys.Completed, keys.Events, keys.Prioritized,
    keys.Active, keys.PriorityCounter, keys.Wait, keys.Paused. rewrite !Hk.
  destruct (Z.ltb_spec 0 ms); [by constructor|]. destruct (Z.ltb_spec 0 prio); by constructor.
Qed.

(** What the body did, read off its result. *)
Definition addBody_spec (c : addConfig) (delayMs : Z) (r : addResult (T := T)) (l : list event)
    : Prop :=
  spanErrors l = [] ∧ spanMarks l = 0%nat ∧
  ((∃ k, calls l = [k] ∧ routed delayMs (ac_priority c) (c_name k) (c_keys k)) ∨
   calls l = [] ∧ r.1 = None) ∧
  match r with
  | (Some j, None) =>
      counters l = [(MetricJobsAddedTotal, [(AttrQueue, q_name q); (AttrJobName, jobNameOf c)])] ∧
      Job_Name j = jobNameOf c
  | (Some j, Some e) => e = ESent ErrDuplicateJob ∧ ac_dedupID c ≠ "" ∧ counters l = []
  | (None, Some e) => counters l = []
  | (None, None) => False
  end.

Lemma wp_addBody payload c delayMs :
  wp (addBody q payload c delayMs) (addBody_spec c delayMs).
Proof.
  unfold addBody, addBody_spec. destruct (MarshalJSON payload); [by wp_step; cbn; auto 10|].
  do 4 wp_step. destruct (proto.EncodeAddArgs _); [by wp_step; cbn; auto 10|].
  destruct (proto.EncodeAddOpts _); [by wp_step; cbn; auto 10|].
  wp_step. apply wp_mono with (Q := λ pre l, spanErrors l = [] ∧ spanMarks l = 0%nat ∧
    calls l = [] ∧ counters l = [] ∧ (ac_dedupID c = "" → pre = "")).
  2: { destruct (String.eqb_spec (ac_dedupID c) "") as [->|]; cbn [negb]; [by apply wp_ret|].
       destruct (negb (keys.Dedup _ _ =? "")%string); by repeat wp_step. }
  intros pre l (Hse & Hsm & Hc & Hk & Hpre).
  pose proof (dispatch_routed delayMs (ac_priority c)) as Hd.
  destruct (dispatch q delayMs (ac_priority c)) as [n ks] eqn:Ed. cbn [fst snd] in Hd.
  assert (Hcall : ∀ args, ∃ k, [Call CtxCaller n ks args] = [k] ∧ routed delayMs (ac_priority c) (c_name k) (c_keys k))
    by (intros args; by eexists). do 2 wp_step.
  destruct x1 as [e|v]; [|destruct (parseAddResult v) as [e|jobID]].
  1-2: wp_step; autorewrite with logs; rewrite Hse, Hsm, Hc, Hk; cbn; by auto 10.
  do 2 wp_step. destruct (negb (pre =? "")%string && (pre =? jobID)%string) eqn:Edup.
  - do 3 wp_step. autorewrite with logs. rewrite Hse, Hsm, Hc, Hk. cbn.
    split_and!; try done; [by left|]. intros Hid. by rewrite (Hpre Hid) in Edup.
  - do 3 wp_step. autorewrite with logs. rewrite Hse, Hsm, Hc, Hk. cbn. by auto 10.
Qed.

(** What an [Add] with configuration [c] reports, given its result. *)
Definition add_report (c : addConfig) (r : addResult (T := T)) (l : list event) : Prop :=
  (∃ mid, l = Ev (RSpanStart SpanQueueAdd [(AttrQueue, q_name q)]) tt :: mid ++ [Ev RSpanEnd tt] ∧
          spanMarks mid = 0%nat) ∧
  spanErrors l = match r.2 with
                 | Some e => if Is e ErrDuplicateJob then [] else [e]
                 | None => []
                 end ∧
  counters l = match r.2 with
               | None => [(MetricJobsAddedTotal,
                           [(AttrQueue, q_name q); (AttrJobName, jobNameOf c)])]
               | Some _ => []
               end ∧
  ((∃ k, calls l = [k] ∧ routed (Milliseconds (ac_delay c)) (ac_priority c) (c_name k) (c_keys k)) ∨
   calls l = [] ∧ r.1 = None).

(** The deferred part of [Add]. *)
Lemma wp_add_end c r l x :
  addBody_spec c (Milliseconds (ac_delay c)) r l →
  wp (_ ← match r.2 with
          | Some e => if negb (Is e ErrDuplicateJob) then ask (RSpanError e) else mret tt
          | None => mret tt
          end; _ ← ask RSpanEnd; mret r)
    (λ r l2, add_report c r ([Ev (RSpanStart SpanQueueAdd [(AttrQueue, q_name q)]) x] ++ l ++ l2)).
Proof.
  destruct x, r as [j e]. intros (Hse & Hsm & Hk & Hr). cbn [snd].
  wp_step. apply wp_mono with (Q := λ _ le, spanMarks le = 0%nat ∧ counters le = [] ∧ calls le = [] ∧
    spanErrors le = match e with Some e => if Is e ErrDuplicateJob then [] else [e] | None => [] end).
  2: { destruct e as [e|]; [destruct (Is e ErrDuplicateJob)|]; by repeat wp_step. }
  intros _ le (Hm & Hc & Hk' & He). repeat wp_step. destruct x. unfold add_report. split_and!.
  - exists (l ++ le). cbn [app]. rewrite spanMarks_app, Hsm, Hm. by rewrite <- app_assoc.
  - autorewrite with logs. rewrite Hse, He. cbn. by rewrite ?app_nil_r.
  - autorewrite with logs. rewrite Hc. cbn. rewrite ?app_nil_r.
    destruct j, e; try done; try (by destruct Hr as (? & ? & ?)); try (by destruct Hr).
  - autorewrite with logs. rewrite Hk'. cbn. rewrite ?app_nil_r. exact Hk.
Qed.

Lemma wp_Add payload opts :
  wp (Add q payload opts) (add_report (applyOptions opts zeroAdd)).
Proof.
  unfold Add. do 2 wp_step. cbv zeta. wp_step. set (c := applyOptions opts zeroAdd).
  destruct (validateAdd c (Milliseconds (ac_delay c))) as [e|].
  - wp_step. apply (wp_add_end c (None, Some e) [] x). unfold addBody_spec. cbn. by auto 10.
  - wp_apply wp_addBody. intros r l Hr. by apply wp_add_end.
Qed.
End add_lemmas.

(** ** Properties *)

(** C20. Every [Add] is reported faithfully: its span is opened first and closed
    last, exactly once; the error on the span is the error returned, except
    that a deduplicated add is not an error; the added counter goes up exactly
    when the job is returned without an error (one found under its own id, which
    the scripts do not tell apart, counts as well); at most one script is called,
    and a job is only returned after the call of the script for its delay and
    priority, with the keys in the order that script reads them in. *)
Theorem add_accounts `{Msgpack} `{GoArch} `{Payload T} {W} (sv : server W) w0 q (payload : T) opts :
  let m := Add q payload opts in
  add_report q (applyOptions opts zeroAdd) (result sv m w0) (log sv m w0).
Proof. cbv zeta. wp_res. apply wp_Add. Qed.

(** Invalid options never reach Redis: a priority combined with a delay of a
    millisecond or more, an empty deduplication id or an empty job name is
    refused with nothing but the span recorded. *)
Theorem add_rejects_early `{Msgpack} `{GoArch} `{Payload T} {W} (sv : server W) w0 q (payload : T)
    opts e :
  let c := applyOptions opts zeroAdd in
  validateAdd c (Milliseconds (ac_delay c)) = Some e →
  result sv (Add q payload opts) w0 = (None, Some e) ∧
  ev_req <$> log sv (Add q payload opts) w0 =
    [RSpanStart SpanQueueAdd [(AttrQueue, q_name q)]; RSpanError e; RSpanEnd].
Proof.
  cbv zeta. intros Hv. wp_res. unfold Add. do 2 wp_step. cbv zeta. rewrite Hv. do 2 wp_step.
  assert (Is e ErrDuplicateJob = false) as Hd.
  { unfold validateAdd in Hv. repeat case_match; by simplify_eq/=. }
  cbn [snd]. rewrite Hd. cbn [negb]. by repeat wp_step.
Qed.

Lemma add_rejects_early_witness :
  let q := mkQueue (mkClient "bull" 0) "email" (keys.New "bull" "email") in
  let opts := [WithPriority 3; WithDelay Second] in
  result quiet (Add (H := plainMsgpack) (H0 := amd64) (H1 := unitPayload) q tt opts) tt
    = (None, Some (ESent ErrPriorityWithDelay)) ∧
  ev_req <$> log quiet (Add (H := plainMsgpack) (H0 := amd64) (H1 := unitPayload) q tt opts) tt =
    [RSpanStart SpanQueueAdd [(AttrQueue, "email")]; RSpanError (ESent ErrPriorityWithDelay); RSpanEnd].
Proof.
  apply (add_rejects_early (H := plainMsgpack) (H0 := amd64) (H1 := unitPayload) quiet tt
    (mkQueue (mkClient "bull" 0) "email" (keys.New "bull" "email")) tt
    [WithPriority 3; WithDelay Second]).
  by vm_compute.
Defined.
