(* ===== verification/Wire.v ===== *)
(** * Writer and reader of the job options agree

    The producer side (internal/proto) and the worker side (parseJobOpts and
    its helpers) meet in the JSON that the add scripts store in the job HASH.
    The scripts unpack the msgpack map and re-encode it with cjson, which is
    not part of this repository: the theorems assume of the stored text only
    that it denotes the tree that was sent. *)

From S2P Require Import Prelude GoLib Json Keys Backoff Effects Jobs Proto Config Queue.

(** The JSON tree of a value that went through msgpack and cjson. How floats
    are printed is the [fmt] parameter. *)
Fixpoint json_of (fmt : float64 → string) (v : any) : json :=
  match v with
  | ANil => JNull
  | ABool b => JBool b
  | AStr s | ABytes s => JStr s
  | AInt64 z | AInt z | AInt32 z | AUint32 z => JNum (FormatInt z)
  | AFloat f => JNum (fmt f)
  | AArr l => JArr (json_of fmt <$> l)
  | AMap m => JObj (prod_map id (json_of fmt) <$> m)
  | ANumber l => JNum l
  end.

(** What the reader should see of a retention limit: an age that is not
    positive is not on the wire. *)
Definition effective_age (a : option Z) : option Z :=
  match a with Some n => if n <=? 0 then None else Some n | None => None end.

Definition effective (r : option proto.RetentionLimit) : option retentionLimit :=
  match r with
  | None => None
  | Some r =>
      match proto.Count r, effective_age (proto.AgeSeconds r) with
      | None, None => None
      | c, a => Some (mkRetention c a)
      end
  end.

Definition limit_in64 (r : option proto.RetentionLimit) : Prop :=
  match r with
  | None => True
  | Some r => (∀ c, proto.Count r = Some c → in64 c) ∧ (∀ a, proto.AgeSeconds r = Some a → in64 a)
  end.

(** ** Lemmas: field lookup in an encoded map *)

Lemma field_values_get fields f fmt (m : list (string * any)) :
  NoDup (keys_of m) → find_field fields f = Some f →
  (∀ k, k ∈ keys_of m → find_field fields k = Some f → k = f) →
  field_values fields (prod_map id (json_of fmt) <$> m) f =
    option_list (json_of fmt <$> map_get m f).
Proof.
  unfold keys_of, field_values. intros Hnd Hf Hk. induction m as [|[k v] m IH]; [done|].
  cbn in Hnd. apply NoDup_cons in Hnd as [Hn Hnd].
  assert (field_values fields (prod_map id (json_of fmt) <$> m) f =
          option_list (json_of fmt <$> map_get m f)) as IH'.
  { apply IH; [done|]. intros k' Hin. apply Hk. by right. }
  unfold field_values in IH'. cbn. case_bool_decide as Hc.
  - assert (k = f) as -> by (apply Hk; [by left | done]).
    rewrite String.eqb_refl, IH', map_get_None by done. done.
  - rewrite IH'. destruct (String.eqb_spec f k) as [->|]; [congruence | done].
Qed.

Lemma store_int_num z : in64 z → store_int 0 (JNum (FormatInt z)) = Some z.
Proof. apply ParseInt_FormatInt. Qed.

Lemma parseRemoveOpt_count fmt c :
  in64 c → parseRemoveOpt (Some (json_of fmt (AInt c))) = Some (mkRetention (Some c) None).
Proof. intros. unfold parseRemoveOpt. cbn [json_of]. by rewrite store_int_num. Qed.

Lemma parseRemoveOpt_obj fmt (m : list (string * any)) (c a : option Z) :
  map_get m "count" = AInt <$> c → map_get m "age" = AInt <$> a →
  NoDup (keys_of m) → (∀ k, k ∈ keys_of m → k = "count" ∨ k = "age") →
  (∀ z, c = Some z → in64 z) → (∀ z, a = Some z → in64 z) →
  parseRemoveOpt (Some (json_of fmt (AMap m))) =
    match c, a with None, None => None | _, _ => Some (mkRetention c a) end.
Proof.
  intros Hc Ha Hnd Hk Hcz Haz. cbn [json_of parseRemoveOpt store_int].
  rewrite !field_values_get; try done;
    try (intros k Hin; apply Hk in Hin as [-> | ->]; [done | by vm_compute]);
    try (intros k Hin; apply Hk in Hin as [-> | ->]; [by vm_compute | done]).
  rewrite Hc, Ha. unfold store_all.
  destruct c as [c|], a as [a|]; cbn -[FormatInt ParseInt];
    rewrite ?ParseInt_FormatInt by eauto; done.
Qed.

(** ** Properties *)

(** Retention limits survive the wire: whatever shape the encoder picks, the
    worker that later reads the stored options recovers the same count and age,
    a non-positive age having been left out. *)
Lemma retention_roundtrip fmt r :
  limit_in64 r →
  parseRemoveOpt (json_of fmt <$> proto.encodeRetentionLimit r) = effective r.
Proof.
  destruct r as [[c a]|]; [|done]. cbn [limit_in64 proto.Count proto.AgeSeconds]. intros [Hc Ha].
  unfold proto.encodeRetentionLimit, effective. cbn [proto.Count proto.AgeSeconds].
  assert (Hcount : parseRemoveOpt (json_of fmt <$> (AInt <$> c)) =
            match c with Some c => Some (mkRetention (Some c) None) | None => None end).
  { destruct c; [|done]. apply (parseRemoveOpt_count fmt). by apply Hc. }
  destruct a as [a|]; cbn [effective_age]; [|rewrite Hcount; by destruct c].
  destruct (a <=? 0); [rewrite Hcount; by destruct c|].
  cbn [fmap option_fmap option_map].
  rewrite (parseRemoveOpt_obj _ _ c (Some a)); try (destruct c; done); try (by destruct c).
  - destruct c; cbn; repeat constructor; set_solver.
  - destruct c; cbn; set_solver.
Qed.

(** ** Lemmas: lookups through conditional assignments *)

Lemma map_get_set_if c m k v k' :
  map_get (proto.set_if c m k v) k' = if c && String.eqb k k' then Some v else map_get m k'.
Proof.
  unfold proto.set_if. destruct c; [|done]. cbn. destruct (String.eqb_spec k k') as [->|].
  - apply map_get_set_eq.
  - by apply map_get_set_ne.
Qed.

Lemma map_get_set_opt m k v k' :
  map_get (proto.set_opt m k v) k' =
    match v with Some v => if String.eqb k k' then Some v else map_get m k' | None => map_get m k' end.
Proof.
  unfold proto.set_opt. destruct v as [v|]; [|done]. destruct (String.eqb_spec k k') as [->|].
  - apply map_get_set_eq.
  - by apply map_get_set_ne.
Qed.

(** The keys a map may have. *)
Definition keys_in (ks : list string) (m : list (string * any)) : Prop :=
  NoDup (keys_of m) ∧ ∀ k, k ∈ keys_of m → k ∈ ks.

Lemma keys_in_nil ks : keys_in ks [].
Proof. split; [constructor | set_solver]. Qed.

Lemma keys_in_set_if ks c m k v : k ∈ ks → keys_in ks m → keys_in ks (proto.set_if c m k v).
Proof.
  intros Hk [Hnd Hin]. unfold proto.set_if. destruct c; [|done].
  split; [by apply NoDup_map_set|]. intros k' [->|?]%keys_of_set_sub; auto.
Qed.

Lemma keys_in_set_opt ks m k v : k ∈ ks → keys_in ks m → keys_in ks (proto.set_opt m k v).
Proof.
  intros Hk Hm. destruct v as [v|]; [|done].
  by apply (keys_in_set_if ks true m k v).
Qed.

#[export] Hint Resolve keys_in_nil keys_in_set_if keys_in_set_opt : go.
#[export] Hint Rewrite map_get_set_if map_get_set_opt : gos.

Definition addOptKeys : list string :=
  ["delay"; "priority"; "attempts"; "backoff"; "lifo"; "removeOnComplete"; "removeOnFail"; "de"].

Lemma addOpts_keys o : keys_in addOptKeys (proto.addOpts_map o).
Proof.
  unfold proto.addOpts_map. destruct (proto.Dedup o).
  all: repeat match goal with
    | |- keys_in _ (proto.set_if _ _ _ _) => apply keys_in_set_if
    | |- keys_in _ (proto.set_opt _ _ _) => apply keys_in_set_opt
    | |- keys_in _ [] => apply keys_in_nil
    end.
  all: unfold addOptKeys; rewrite ?elem_of_cons; tauto.
Qed.

Lemma keys_in_unique ks fields f m :
  forallb (λ k, bool_decide (find_field fields k = Some f → k = f)) ks = true →
  keys_in ks m → ∀ k, k ∈ keys_of m → find_field fields k = Some f → k = f.
Proof.
  intros Hall [_ Hin] k Hk. apply Hin in Hk. apply list_elem_of_In in Hk.
  rewrite forallb_forall in Hall. apply Hall in Hk. by apply bool_decide_eq_true in Hk.
Qed.

Lemma addOpts_field fmt o f :
  f ∈ optFields →
  field_values optFields (prod_map id (json_of fmt) <$> proto.addOpts_map o) f =
    option_list (json_of fmt <$> map_get (proto.addOpts_map o) f).
Proof.
  intros Hf. apply field_values_get.
  - apply addOpts_keys.
  - unfold find_field. by rewrite bool_decide_eq_true_2.
  - apply (keys_in_unique addOptKeys); [|apply addOpts_keys].
    unfold optFields in Hf. repeat (apply elem_of_cons in Hf as [->|Hf]; [by vm_compute|]).
    by apply not_elem_of_nil in Hf.
Qed.

Ltac addOpts_get :=
  unfold proto.addOpts_map;
  repeat match goal with
  | |- map_get (match ?d with Some _ => _ | None => _ end) _ = _ => destruct d
  end;
  autorewrite with gos; cbn [String.eqb Ascii.eqb Bool.eqb andb];
  rewrite ?andb_false_r, ?andb_true_r; try done.

Lemma addOpts_attempts o :
  map_get (proto.addOpts_map o) "attempts" =
    if negb (proto.Attempts o =? 0) then Some (AInt (proto.Attempts o)) else None.
Proof. addOpts_get; by repeat case_match. Qed.

Lemma addOpts_lifo o :
  map_get (proto.addOpts_map o) "lifo" = if proto.Lifo o then Some (ABool true) else None.
Proof. addOpts_get; by repeat case_match. Qed.

Lemma addOpts_backoff o :
  map_get (proto.addOpts_map o) "backoff" = proto.backoff_map <$> proto.BackoffOpt o.
Proof. addOpts_get; by repeat case_match. Qed.

Lemma addOpts_complete o :
  map_get (proto.addOpts_map o) "removeOnComplete" =
    proto.encodeRetentionLimit (proto.RemoveOnComplete o).
Proof. addOpts_get; by repeat case_match. Qed.

Lemma addOpts_fail o :
  map_get (proto.addOpts_map o) "removeOnFail" =
    proto.encodeRetentionLimit (proto.RemoveOnFail o).
Proof. addOpts_get; by repeat case_match. Qed.

(** ** The whole record *)

(** What the worker's [jobOpts] should be, given what the producer sent. *)
Definition expectBackoff (b : proto.Backoff) : option BackoffStrategy :=
  if String.eqb (proto.BType b) "" then None
  else Some (mkBackoff (proto.BType b) (proto.BDelay b *! Millisecond)
               (if proto.f64_pos (proto.BJitter b) then proto.BJitter b else f64_zero)).

Definition expectOpts (o : proto.AddOpts) : jobOpts :=
  mkJobOpts (proto.Attempts o) (proto.BackoffOpt o ≫= expectBackoff) (proto.Lifo o)
    (effective (proto.RemoveOnComplete o)) (effective (proto.RemoveOnFail o)).

(** Go's [int] and [int64] fields are in range, and the jitter is printed so
    that it reads back. *)
Definition opts_ok (fmt : float64 → string) (o : proto.AddOpts) : Prop :=
  in64 (proto.Attempts o) ∧ limit_in64 (proto.RemoveOnComplete o) ∧
  limit_in64 (proto.RemoveOnFail o) ∧
  ∀ b, proto.BackoffOpt o = Some b →
    in64 (proto.BDelay b) ∧ ParseFloat (fmt (proto.BJitter b)) = Some (proto.BJitter b).

(** Decide the field names of a concrete object. *)
Ltac eval_fields :=
  repeat match goal with
  | |- context [bool_decide (find_field ?a ?b = ?c)] =>
      let v := eval vm_compute in (bool_decide (find_field a b = c)) in
      change (bool_decide (find_field a b = c)) with v; cbv iota
  end.

Lemma parseBackoff_roundtrip fmt b :
  in64 (proto.BDelay b) → ParseFloat (fmt (proto.BJitter b)) = Some (proto.BJitter b) →
  parseBackoffOpt (Some (json_of fmt (proto.backoff_map b))) = expectBackoff b.
Proof.
  destruct b as [ty d j]. cbn [proto.BDelay proto.BJitter]. intros Hd Hj.
  unfold proto.backoff_map, proto.set_if, expectBackoff, parseBackoffOpt.
  cbn [proto.BType proto.BDelay proto.BJitter].
  destruct (proto.f64_pos j); cbn -[FormatInt ParseInt ParseFloat i64 find_field];
    eval_fields; cbn -[FormatInt ParseInt ParseFloat i64];
    rewrite ParseInt_FormatInt, ?Hj by done; by destruct (String.eqb ty "").
Qed.

Lemma optsOf_addOpts fmt o :
  opts_ok fmt o →
  optsOfObject (prod_map id (json_of fmt) <$> proto.addOpts_map o) = expectOpts o.
Proof.
  intros (Ha & Hc & Hf & Hb). unfold optsOfObject. cbv zeta.
  rewrite !addOpts_field by (apply (bool_decide_unpack _); by vm_compute).
  rewrite addOpts_attempts, addOpts_lifo, addOpts_backoff, addOpts_complete, addOpts_fail.
  unfold expectOpts, store_raw, store_all.
  rewrite <- (retention_roundtrip fmt _ Hc), <- (retention_roundtrip fmt _ Hf).
  assert (Hlast : ∀ v : option json, last (option_list v) = v) by (by intros []).
  rewrite !Hlast.
  replace (parseBackoffOpt (json_of fmt <$> (proto.backoff_map <$> proto.BackoffOpt o)))
    with (proto.BackoffOpt o ≫= expectBackoff).
  2: { destruct (proto.BackoffOpt o) as [b|]; [|done]. destruct (Hb b eq_refl).
       symmetry. by apply parseBackoff_roundtrip. }
  destruct (Z.eqb_spec (proto.Attempts o) 0) as [->|]; destruct (proto.Lifo o);
    cbn -[FormatInt ParseInt parseRemoveOpt]; rewrite ?ParseInt_FormatInt by done; done.
Qed.

Lemma addOpts_roundtrip fmt o raw :
  opts_ok fmt o → parse raw = Some (json_of fmt (AMap (proto.addOpts_map o))) →
  parseJobOpts raw = expectOpts o.
Proof.
  intros Hok Hp. apply optsOf_addOpts in Hok. unfold parseJobOpts.
  destruct (String.eqb_spec raw "") as [->|_]; [done|].
  destruct (String.eqb_spec raw "{}") as [->|_]; cbn [orb].
  - assert (E : parse "{}" = Some (JObj [])) by reflexivity.
    rewrite E in Hp. cbn [json_of] in Hp. injection Hp as Hp. rewrite <- Hp in Hok. exact Hok.
  - rewrite Hp. exact Hok.
Qed.

(** ** From the options of [Add] to the worker *)

(** Go's integer fields are in range, and a jitter is printed so that it reads
    back. *)
Definition config_ok (fmt : float64 → string) (c : addConfig) : Prop :=
  in64 (ac_attempts c) ∧
  (∀ k, ac_keepCompleted c = Some k → in64 k) ∧ (∀ k, ac_keepFailed c = Some k → in64 k) ∧
  ∀ b, ac_backoff c = Some b →
    in64 (Delay b) ∧ ParseFloat (fmt (Jitter b)) = Some (Jitter b).

(** A delay cut to whole milliseconds, toward zero. *)
Definition wholeMs (d : Z) : Z := Milliseconds d * Millisecond.

(** What the worker should act on. *)
Definition seenBackoff (b : BackoffStrategy) : option BackoffStrategy :=
  if String.eqb (Type_ b) "" then None
  else Some (mkBackoff (Type_ b) (wholeMs (Delay b))
               (if proto.f64_pos (Jitter b) then Jitter b else f64_zero)).

(** An age counts when it is at least a second. *)
Definition seenRetention `{GoArch} (k age : option Z) : option retentionLimit :=
  let age := match age with
             | Some a => if 1 <=? int64_of_f64 (Seconds a) then Some (int64_of_f64 (Seconds a)) else None
             | None => None
             end in
  match k, age with None, None => None | _, _ => Some (mkRetention k age) end.

Lemma wholeMs_in64 d : in64 d → in64 (wholeMs d).
Proof.
  intros Hd. unfold wholeMs, Milliseconds. pose proof (Z.quot_rem' d Millisecond) as E.
  pose proof (Z.rem_bound_abs d Millisecond ltac:(consts; lia)).
  destruct (Z.le_gt_cases 0 d).
  - pose proof (Z.rem_nonneg d Millisecond ltac:(consts; lia) ltac:(lia)).
    pose proof (Z.quot_pos d Millisecond ltac:(lia) ltac:(consts; lia)). consts. lia.
  - pose proof (Z.rem_nonpos d Millisecond ltac:(consts; lia) ltac:(lia)). consts. lia.
Qed.

Lemma seenRetention_effective `{GoArch} k age :
  effective (buildRetentionLimit k age) = seenRetention k age.
Proof.
  unfold effective, buildRetentionLimit, seenRetention.
  destruct k as [k|], age as [a|]; cbn; try done;
    destruct (Z.leb_spec (int64_of_f64 (Seconds a)) 0), (Z.leb_spec 1 (int64_of_f64 (Seconds a)));
    done || lia.
Qed.

Lemma buildRetention_in64 `{GoArch} k age :
  (∀ z, k = Some z → in64 z) → limit_in64 (buildRetentionLimit k age).
Proof.
  intros Hk. destruct k as [k|], age as [a|]; cbn; try done; split; intros z [= <-];
    auto using int64_of_f64_in64.
Qed.

(** C23. The options of [Add] are the options the worker acts on: parsing the JSON
    the add script stored gives back the attempts, the lifo flag, the backoff
    with its delay in whole milliseconds, and both retention limits with ages
    in whole seconds; nothing else is lost or altered on the way. *)
Theorem options_reach_worker `{GoArch} fmt c raw :
  config_ok fmt c →
  parse raw = Some (json_of fmt (AMap (proto.addOpts_map (toProtoOpts c (Milliseconds (ac_delay c)))))) →
  parseJobOpts raw =
    mkJobOpts (ac_attempts c) (ac_backoff c ≫= seenBackoff) (ac_lifo c)
      (seenRetention (ac_keepCompleted c) (ac_keepCompletedAge c))
      (seenRetention (ac_keepFailed c) (ac_keepFailedAge c)).
Proof.
  intros (Ha & Hc & Hf & Hb) Hp. erewrite addOpts_roundtrip; [|clear Hp|exact Hp].
  2: { split_and!; cbn; auto using buildRetention_in64. intros b.
       destruct (ac_backoff c) as [b'|]; [|done]. intros [= <-]. cbn.
       destruct (Hb b' eq_refl). auto with go. }
  unfold expectOpts, toProtoOpts. cbn. rewrite !seenRetention_effective. f_equal.
  destruct (ac_backoff c) as [b|]; [|done]. cbn. unfold expectBackoff, seenBackoff. cbn.
  destruct (Hb b eq_refl) as [Hd%wholeMs_in64 _]. unfold wholeMs in *. rewrite i64_id by done. done.
Qed.

(** A job with every option set. *)
Definition sampleAdd : addConfig := applyOptions
  [WithAttempts 4; WithLifo true; WithBackoff (ExponentialBackoff (1000 * Millisecond + 7));
   WithKeepCompleted 10; WithKeepCompletedAge (3600 * Second + 5); WithKeepFailed 7;
   WithKeepFailedAge (Second - 1)] zeroAdd.

Definition sampleRaw : string := quoted
  "{`attempts`:4,`backoff`:{`type`:`exponential`,`delay`:1000},`lifo`:true,`removeOnComplete`:{`count`:10,`age`:3600},`removeOnFail`:7}".

Lemma options_reach_worker_witness :
  parseJobOpts sampleRaw =
    mkJobOpts 4 (Some (ExponentialBackoff Second)) true
      (Some (mkRetention (Some 10) (Some 3600))) (Some (mkRetention (Some 7) None)).
Proof.
  apply (options_reach_worker (H := amd64) (λ _, "0") sampleAdd); [|by vm_compute].
  split; [by vm_compute|]. split; [intros ? [= <-]; by vm_compute|].
  split; [intros ? [= <-]; by vm_compute|]. intros b [= <-]. by vm_compute.
Defined.
