(* ===== verification/Schedule.v ===== *)
(** * Recurring schedules (schedule.go)

    The schedule options with their retention merging, the two upserts with
    their validation and first-fire gate, the wire call they share, and the
    removal. The other end, [rescheduleNext] of the worker, is in Worker.v: the
    theorems of this file follow a schedule from the upsert through the HASH
    that addJobScheduler writes to the iterations the worker queues. *)

From S2P Require Import Prelude GoLib Keys Backoff Effects Json Jobs Proto Cron Config Finalise Worker Queue Wire.

(** The zero [time.Time], January 1 of year 1, as nanoseconds since the epoch. *)
Definition zeroTime : Z := -62135596800 * Second.
Definition IsZero (t : Z) : bool := t =? zeroTime.

(** [t.After(u)]. *)
Definition After (t u : Z) : bool := u <? t.

Record scheduleConfig := mkScheduleConfig {
  sc_limit : Z;
  sc_endDate : Z;
  sc_startDate : Z;
  sc_tz : string;
  sc_immediately : bool;
  sc_template : proto.ScheduleTemplateOpts;
}.

Definition zeroSchedule : scheduleConfig :=
  mkScheduleConfig 0 zeroTime zeroTime "" false proto.noTemplate.

Definition ScheduleOption : Type := scheduleConfig → scheduleConfig.

Definition mergeRetention (cur : option proto.RetentionLimit) (count ageSeconds : option Z)
    : option proto.RetentionLimit :=
  let out := match cur with
             | Some c => proto.mkRetentionLimit (proto.Count c) (proto.AgeSeconds c)
             | None => proto.mkRetentionLimit None None
             end in
  let out := match count with
             | Some n => proto.mkRetentionLimit (Some n) (proto.AgeSeconds out)
             | None => out
             end in
  Some match ageSeconds with
       | Some n => proto.mkRetentionLimit (proto.Count out) (Some n)
       | None => out
       end.

Definition WithScheduleLimit (n : Z) : ScheduleOption := λ '(mkScheduleConfig _ e s tz i t),
  mkScheduleConfig n e s tz i t.
Definition WithScheduleEndDate (d : Z) : ScheduleOption := λ '(mkScheduleConfig l _ s tz i t),
  mkScheduleConfig l d s tz i t.
Definition WithScheduleStartDate (d : Z) : ScheduleOption := λ '(mkScheduleConfig l e _ tz i t),
  mkScheduleConfig l e d tz i t.
Definition WithScheduleTimezone (z : string) : ScheduleOption := λ '(mkScheduleConfig l e s _ i t),
  mkScheduleConfig l e s z i t.
Definition WithScheduleImmediately : ScheduleOption := λ '(mkScheduleConfig l e s tz _ t),
  mkScheduleConfig l e s tz true t.

(** Assign the completed or the failed limit of the template. *)
Definition onComplete (f : option proto.RetentionLimit → option proto.RetentionLimit)
    : ScheduleOption := λ '(mkScheduleConfig l e s tz i (proto.mkTemplate rc rf x)),
  mkScheduleConfig l e s tz i (proto.mkTemplate (f rc) rf x).
Definition onFail (f : option proto.RetentionLimit → option proto.RetentionLimit)
    : ScheduleOption := λ '(mkScheduleConfig l e s tz i (proto.mkTemplate rc rf x)),
  mkScheduleConfig l e s tz i (proto.mkTemplate rc (f rf) x).

Definition WithScheduleKeepCompleted (n : Z) : ScheduleOption :=
  onComplete (λ r, mergeRetention r (Some n) None).
Definition WithScheduleKeepCompletedAge `{GoArch} (age : Z) : ScheduleOption :=
  onComplete (λ r, mergeRetention r None (Some (int64_of_f64 (Seconds age)))).
Definition WithScheduleKeepFailed (n : Z) : ScheduleOption :=
  onFail (λ r, mergeRetention r (Some n) None).
Definition WithScheduleKeepFailedAge `{GoArch} (age : Z) : ScheduleOption :=
  onFail (λ r, mergeRetention r None (Some (int64_of_f64 (Seconds age)))).

(** ** Upserts *)

Section schedule.
Context `{Msgpack} `{GoArch} `{CronLib} {T : Type} `{Payload T}.
Variable q : Queue.

Definition scheduleKeys : list string :=
  let b := q_keys q in
  [keys.Repeat b; keys.Delayed b; keys.Wait b; keys.Paused b; keys.Meta b; keys.Prioritized b;
   keys.Marker b; keys.ID b; keys.Events b; keys.PriorityCounter b; keys.Active b].

Definition upsertSchedule (scheduleID nextMillis : string) (scheduleOpts : proto.ScheduleOpts)
    (template : proto.ScheduleTemplateOpts) (dataJSON : string) : M (option err) :=
  match proto.EncodeScheduleOpts scheduleOpts with
  | inl e => mret (Some (Errorw "mkq: encode schedule opts" e))
  | inr scheduleOptsBytes =>
  match proto.EncodeScheduleTemplateOpts template with
  | inl e => mret (Some (Errorw "mkq: encode template opts" e))
  | inr templateOptsBytes =>
  match proto.EncodeScheduleDelayedOpts scheduleOpts template with
  | inl e => mret (Some (Errorw "mkq: encode delayed opts" e))
  | inr delayedOptsBytes =>
  now ← ask RNow;
  r ← ask (RScript CtxCaller AddJobScheduler scheduleKeys
    [AStr nextMillis; ABytes scheduleOptsBytes; AStr scheduleID; AStr dataJSON;
     ABytes templateOptsBytes; ABytes delayedOptsBytes; AInt64 (UnixMilli now);
     AStr (keys.Base (q_keys q)); AStr ""]);
  mret match r with
  | inl e => Some (Errorw "mkq: addJobScheduler" e)
  | inr (AInt64 code) =>
      if code <? 0 then Some (EText ("mkq: addJobScheduler returned error code " +:+ FormatInt code))
      else None
  | inr _ => None
  end
  end end end.

Definition errScheduleID : err := EText "mkq: scheduleID must be non-empty".

(** The two times printed at the end of the message are left out. *)
Definition errPastEnd : err := EText "mkq: first fire exceeds endDate; schedule would never run".

(** [if !t.IsZero() { ms = t.UnixMilli() }]. *)
Definition dateMs (t : Z) : Z := if IsZero t then 0 else UnixMilli t.

Definition UpsertScheduleEvery (scheduleID : string) (every : Z) (payload : T)
    (opts : list ScheduleOption) : M (option err) :=
  if String.eqb scheduleID "" then mret (Some errScheduleID) else
  if every <=? 0 then mret (Some (EText "mkq: every must be positive")) else
  let c := applyOptions opts zeroSchedule in
  if negb (String.eqb (sc_tz c) "") || sc_immediately c then
    mret (Some (EText "mkq: WithScheduleTimezone / WithScheduleImmediately are pattern-mode only; use UpsertSchedulePattern"))
  else
  match MarshalJSON payload with
  | inl e => mret (Some (Errorw "mkq: marshal schedule payload" e))
  | inr dataJSON =>
  let scheduleOpts := proto.mkScheduleOpts (q_name q) (Milliseconds every) "" ""
    (dateMs (sc_startDate c)) (dateMs (sc_endDate c)) (sc_limit c) in
  dead ← (if negb (IsZero (sc_endDate c)) then
            now ← ask RNow;
            let firstFire := if negb (IsZero (sc_startDate c)) && After (sc_startDate c) now
                             then sc_startDate c else now in
            mret (After firstFire (sc_endDate c))
          else mret false);
  if (dead : bool) then mret (Some errPastEnd)
  else upsertSchedule scheduleID "0" scheduleOpts (sc_template c) dataJSON
  end.

Definition UpsertSchedulePattern (scheduleID pattern : string) (payload : T)
    (opts : list ScheduleOption) : M (option err) :=
  if String.eqb scheduleID "" then mret (Some errScheduleID) else
  let c := applyOptions opts zeroSchedule in
  if sc_immediately c && negb (IsZero (sc_startDate c)) then
    mret (Some (EText "mkq: WithScheduleImmediately and WithScheduleStartDate are mutually exclusive"))
  else
  match parseCronSpec pattern (sc_tz c) with
  | inl e => mret (Some e)
  | inr cc =>
  match MarshalJSON payload with
  | inl e => mret (Some (Errorw "mkq: marshal schedule payload" e))
  | inr dataJSON =>
  let scheduleOpts := proto.mkScheduleOpts (q_name q) 0 pattern (sc_tz c)
    (dateMs (sc_startDate c)) (dateMs (sc_endDate c)) (sc_limit c) in
  now ← ask RNow;
  let firstFire := if sc_immediately c then now
                   else if negb (IsZero (sc_startDate c)) then nextFire cc (sc_startDate c)
                   else nextFire cc now in
  if negb (IsZero (sc_endDate c)) && After firstFire (sc_endDate c) then mret (Some errPastEnd)
  else upsertSchedule scheduleID (FormatInt (UnixMilli firstFire)) scheduleOpts (sc_template c) dataJSON
  end end.

Definition RemoveSchedule (scheduleID : string) : M (option err) :=
  if String.eqb scheduleID "" then mret (Some errScheduleID) else
  r ← ask (RPipeline CtxCaller
    [CDel (keys.Schedule (q_keys q) scheduleID); CZRem (keys.Repeat (q_keys q)) scheduleID]);
  mret match r.1 with
  | Some e => Some (Errorw ("mkq: remove schedule " +:+ scheduleID) e)
  | None => None
  end.
End schedule.

(** ** The upsert, as its callers see it *)

(** When a schedule is to fire. *)
Inductive timing := Every (d : Z) | Cron (pattern : string).

Section upsert.
Context `{Msgpack} `{GoArch} `{CronLib} {T : Type} `{Payload T}.
Variable q : Queue.

Definition upsert (t : timing) (scheduleID : string) (payload : T) (opts : list ScheduleOption)
    : M (option err) :=
  match t with
  | Every d => UpsertScheduleEvery q scheduleID d payload opts
  | Cron p => UpsertSchedulePattern q scheduleID p payload opts
  end.

(** The instant of the first iteration of a schedule set up at [now]. *)
Definition first_fire (t : timing) (c : scheduleConfig) (now : Z) : option Z :=
  match t with
  | Every _ => Some (if IsZero (sc_startDate c) then now else Z.max now (sc_startDate c))
  | Cron p =>
      match parseCronSpec p (sc_tz c) with
      | inl _ => None
      | inr cc => Some (if sc_immediately c then now
                        else if IsZero (sc_startDate c) then nextFire cc now
                        else nextFire cc (sc_startDate c))
      end
  end.

(** Options that contradict each other or the mode. *)
Definition consistent (t : timing) (c : scheduleConfig) : bool :=
  match t with
  | Every d => (0 <? d) && String.eqb (sc_tz c) "" && negb (sc_immediately c)
  | Cron _ => negb (sc_immediately c && negb (IsZero (sc_startDate c)))
  end.

Definition wire_opts (t : timing) (c : scheduleConfig) : proto.ScheduleOpts :=
  let dates := (dateMs (sc_startDate c), dateMs (sc_endDate c)) in
  match t with
  | Every d => proto.mkScheduleOpts (q_name q) (Milliseconds d) "" "" dates.1 dates.2 (sc_limit c)
  | Cron p => proto.mkScheduleOpts (q_name q) 0 p (sc_tz c) dates.1 dates.2 (sc_limit c)
  end.

Definition wire_next (t : timing) (first : Z) : string :=
  match t with Every _ => "0" | Cron _ => FormatInt (UnixMilli first) end.

(** The script took the schedule. *)
Definition taken_up (x : res any) : bool :=
  match x with inl _ => false | inr (AInt64 c) => 0 <=? c | inr _ => true end.

(** The one call of an upsert, with the answer it got. *)
Definition upsert_call (id next data : string) (o : proto.ScheduleOpts)
    (tm : proto.ScheduleTemplateOpts) (l : list event) (x : res any) : Prop :=
  ∃ b1 b2 b3 l0 now,
    proto.EncodeScheduleOpts o = inr b1 ∧ proto.EncodeScheduleTemplateOpts tm = inr b2 ∧
    proto.EncodeScheduleDelayedOpts o tm = inr b3 ∧ calls l0 = [] ∧
    l = l0 ++ [Ev RNow now; Ev (RScript CtxCaller AddJobScheduler (scheduleKeys q)
      [AStr next; ABytes b1; AStr id; AStr data; ABytes b2; ABytes b3; AInt64 (UnixMilli now);
       AStr (keys.Base (q_keys q)); AStr ""]) x].

Definition clock_answer (r : req) : resp r → option Z :=
  match r with RNow => λ x, Some x | _ => λ _, None end.

(** An upsert either leaves Redis alone and returns an error, or makes its one
    call, for a consistent schedule whose first iteration is not past its end,
    and returns nil exactly when the script took it. *)
Definition upsert_spec (t : timing) (id : string) (payload : T) (c : scheduleConfig)
    (r : option err) (l : list event) : Prop :=
  (calls l = [] ∧ r ≠ None) ∨
  ∃ data now first x,
    id ≠ "" ∧ consistent t c = true ∧ MarshalJSON payload = inr data ∧
    answer clock_answer l = Some now ∧ first_fire t c now = Some first ∧
    (IsZero (sc_endDate c) = false → first ≤ sc_endDate c) ∧
    upsert_call id (wire_next t first) data (wire_opts t c) (sc_template c) l x ∧
    (r = None ↔ taken_up x = true).

Lemma wp_upsertSchedule id next o tm data :
  wp (upsertSchedule q id next o tm data) (λ r l,
    (calls l = [] ∧ r ≠ None) ∨
    ∃ x now s, upsert_call id next data o tm l x ∧ (r = None ↔ taken_up x = true) ∧
      l = Ev RNow now :: s ∧ answer clock_answer s = None).
Proof.
  unfold upsertSchedule, upsert_call.
  destruct (proto.EncodeScheduleOpts o) as [|b1] eqn:E1; [by wp_step; left|].
  destruct (proto.EncodeScheduleTemplateOpts tm) as [|b2] eqn:E2; [by wp_step; left|].
  destruct (proto.EncodeScheduleDelayedOpts o tm) as [|b3] eqn:E3; [by wp_step; left|].
  repeat wp_step. right. eexists x0, x, _. split_and!; [|clear | reflexivity | reflexivity].
  - exists b1, b2, b3, [], x. by rewrite ?app_nil_r.
  - destruct x0 as [e|[]]; cbn; try done. destruct (Z.ltb_spec z 0), (Z.leb_spec 0 z); done || lia.
Qed.

Lemma upsert_call_app id next data o tm l0 l x :
  calls l0 = [] → upsert_call id next data o tm l x → upsert_call id next data o tm (l0 ++ l) x.
Proof.
  intros Hl0 (b1 & b2 & b3 & l1 & nw & ? & ? & ? & Hl1 & ->).
  exists b1, b2, b3, (l0 ++ l1), nw. by rewrite calls_app, Hl0, Hl1, app_assoc.
Qed.

(** A validated upsert whose clock has been read, before the shared call. *)
Lemma upsert_spec_call t id payload c data l0 now first :
  id ≠ "" → consistent t c = true → MarshalJSON payload = inr data → calls l0 = [] →
  answer clock_answer l0 = Some now → first_fire t c now = Some first →
  (IsZero (sc_endDate c) = false → first ≤ sc_endDate c) →
  wp (upsertSchedule q id (wire_next t first) (wire_opts t c) (sc_template c) data)
    (λ r l, upsert_spec t id payload c r (l0 ++ l)).
Proof.
  intros Hid Hc Hd Hl0 Hn Hf He. wp_apply wp_upsertSchedule.
  intros r l [[Hl Hr] | (x & nw & s & Hcall & Hr & _ & _)].
  { left. by rewrite calls_app, Hl0, Hl. }
  right. exists data, now, first, x. rewrite answer_app, Hn.
  split_and!; try done. by apply upsert_call_app.
Qed.

Lemma refused (r : option err) (t : timing) id payload c :
  r ≠ None → wp (mret r) (upsert_spec t id payload c).
Proof. intros Hr. apply wp_ret. by left. Qed.

Lemma wp_upsert_every d id payload opts :
  wp (upsert (Every d) id payload opts) (upsert_spec (Every d) id payload (applyOptions opts zeroSchedule)).
Proof.
  cbn [upsert]. unfold UpsertScheduleEvery. destruct (String.eqb_spec id ""); [by apply refused|].
  destruct (Z.leb_spec d 0); [by apply refused|]. cbv zeta.
  set (c := applyOptions opts zeroSchedule). destruct (_ || _) eqn:Etz; [by apply refused|].
  apply orb_false_iff in Etz as [Etz Eim]. apply negb_false_iff in Etz.
  destruct (MarshalJSON payload) as [|data] eqn:Em; [by apply refused|].
  assert (Hc : consistent (Every d) c = true).
  { unfold consistent. rewrite Etz, Eim. destruct (Z.ltb_spec 0 d); [done | lia]. }
  assert (Hff : ∀ now, first_fire (Every d) c now = Some
    (if negb (IsZero (sc_startDate c)) && After (sc_startDate c) now then sc_startDate c else now)).
  { intros now. cbn. unfold After. destruct (IsZero (sc_startDate c)); cbn; [done|].
    destruct (Z.ltb_spec now (sc_startDate c)); f_equal; lia. }
  wp_step. destruct (IsZero (sc_endDate c)) eqn:Ee; cbn [negb].
  - wp_step. cbv iota. wp_apply wp_upsertSchedule.
    intros r l [[Hl Hr] | (x & now & s & Hcall & Hr & -> & Hs)]; [by left|]. right.
    eexists data, now, _, x. split_and!; try done. by rewrite Ee.
  - repeat wp_step. destruct (After _ (sc_endDate c)) eqn:Ea; [by apply wp_ret; left|].
    refine (upsert_spec_call (Every d) id payload c data [Ev RNow x] x _ _ _ _ _ _ (Hff x) _); try done.
    intros _. unfold After in Ea at 1. zbool. exact Ea.
Qed.

Lemma wp_upsert_cron p id payload opts :
  wp (upsert (Cron p) id payload opts) (upsert_spec (Cron p) id payload (applyOptions opts zeroSchedule)).
Proof.
  cbn [upsert]. unfold UpsertSchedulePattern. destruct (String.eqb_spec id ""); [by apply refused|].
  cbv zeta. set (c := applyOptions opts zeroSchedule). destruct (sc_immediately c && _) eqn:Ei; [by apply refused|].
  destruct (parseCronSpec p (sc_tz c)) as [|cc] eqn:Ep; [by apply refused|].
  destruct (MarshalJSON payload) as [|data] eqn:Em; [by apply refused|].
  wp_step. wp_step. cbv zeta.
  set (first := λ now, if sc_immediately c then now else if negb (IsZero (sc_startDate c))
    then nextFire cc (sc_startDate c) else nextFire cc now).
  assert (Hff : ∀ now, first_fire (Cron p) c now = Some (first now)).
  { intros now. unfold first. cbn. rewrite Ep. by destruct (sc_immediately c), (IsZero (sc_startDate c)). }
  destruct (negb (IsZero (sc_endDate c)) && After _ (sc_endDate c)) eqn:Ea; [by apply wp_ret; left|].
  refine (upsert_spec_call (Cron p) id payload c data [Ev RNow x] x _ _ _ _ _ _ (Hff x) _); try done.
  - unfold consistent. by rewrite Ei.
  - intros Ee. rewrite Ee in Ea. cbn [negb andb] in Ea. unfold After in Ea. zbool. exact Ea.
Qed.
End upsert.

(** ** Options in any order *)

(** The retention options, as data; [OOther] is any option that leaves the
    template alone. *)
Inductive sopt :=
| OKeepCompleted (n : Z) | OKeepCompletedAge (age : Z)
| OKeepFailed (n : Z) | OKeepFailedAge (age : Z)
| OOther (f : ScheduleOption) (keeps_template : ∀ c, sc_template (f c) = sc_template c).

Definition denote `{GoArch} (o : sopt) : ScheduleOption :=
  match o with
  | OKeepCompleted n => WithScheduleKeepCompleted n
  | OKeepCompletedAge a => WithScheduleKeepCompletedAge a
  | OKeepFailed n => WithScheduleKeepFailed n
  | OKeepFailedAge a => WithScheduleKeepFailedAge a
  | OOther f _ => f
  end.

Definition kept_counts (failed : bool) (o : sopt) : option Z :=
  match o, failed with
  | OKeepCompleted n, false | OKeepFailed n, true => Some n
  | _, _ => None
  end.

Definition kept_ages `{GoArch} (failed : bool) (o : sopt) : option Z :=
  match o, failed with
  | OKeepCompletedAge a, false | OKeepFailedAge a, true => Some (int64_of_f64 (Seconds a))
  | _, _ => None
  end.

(** The limit a list of options asks for: the last count and the last age. *)
Definition asked_limit `{GoArch} (failed : bool) (os : list sopt) : option proto.RetentionLimit :=
  match last (omap (kept_counts failed) os), last (omap (kept_ages failed) os) with
  | None, None => None
  | c, a => Some (proto.mkRetentionLimit c a)
  end.

Lemma last_omap_snoc {A B} (f : A → option B) l x :
  last (omap f (l ++ [x])) = match f x with Some y => Some y | None => last (omap f l) end.
Proof.
  rewrite omap_app. cbn. destruct (f x); [by rewrite last_snoc | by rewrite app_nil_r].
Qed.

Lemma asked_limit_snoc `{GoArch} failed os o c :
  let lim t := if (failed : bool) then proto.TRemoveOnFail t else proto.TRemoveOnComplete t in
  lim (sc_template c) = asked_limit failed os →
  lim (sc_template (denote o c)) = asked_limit failed (os ++ [o]).
Proof.
  intros lim Hc. subst lim. cbv beta in *. unfold asked_limit in *. rewrite !last_omap_snoc.
  destruct c as [l e s tz i [rc rf x]]. cbn [sc_template proto.TRemoveOnFail proto.TRemoveOnComplete] in Hc.
  destruct o as [n|a|n|a|f Hf]; [| | | | cbn [denote]; rewrite (Hf (mkScheduleConfig l e s tz i (proto.mkTemplate rc rf x))); by destruct failed].
  all: destruct failed; cbn; rewrite Hc; try done.
  all: unfold mergeRetention; destruct (last _), (last _); done.
Qed.

(** ** Values that survive the trip through msgpack, Lua and JSON *)

Section wire_ok.
Variable fmt : float64 → string.

Fixpoint wire_ok (v : any) : Prop :=
  match v with
  | ANil | ABool _ | AStr _ | ABytes _ => True
  | AInt64 z | AInt z | AInt32 z | AUint32 z => in64 z
  | AFloat f => ParseInt (fmt f) = None ∧ ParseFloat (fmt f) = Some f
  | AArr l => (fix go l := match l with [] => True | v :: l => wire_ok v ∧ go l end) l
  | AMap m => NoDup (keys_of m) ∧
      (fix go m := match m with [] => True | (_, v) :: m => wire_ok v ∧ go m end) m
  | ANumber _ => False
  end.

Lemma wire_ok_arr l : wire_ok (AArr l) ↔ Forall wire_ok l.
Proof.
  cbn. induction l as [|v l IH]; [by split|]. rewrite IH, Forall_cons. done.
Qed.

Lemma wire_ok_map m : wire_ok (AMap m) ↔ NoDup (keys_of m) ∧ Forall (λ kv, wire_ok kv.2) m.
Proof.
  cbn. apply and_iff_compat_l. induction m as [|[k v] m IH]; [by split|]. rewrite IH, Forall_cons. done.
Qed.

End wire_ok.

Lemma foldl_set_id {V} (acc m : list (string * V)) :
  NoDup (keys_of (acc ++ m)) → foldl (λ acc kv, map_set acc kv.1 kv.2) acc m = acc ++ m.
Proof.
  unfold keys_of. revert acc. induction m as [|[k v] m IH]; intros acc Hnd; [by rewrite app_nil_r|].
  cbn [foldl fst snd]. assert (map_set acc k v = acc ++ [(k, v)]) as ->.
  { rewrite fmap_app in Hnd. apply NoDup_app in Hnd as (_ & Hk & _).
    assert (k ∉ acc.*1) as Hn by (intros Hin; apply (Hk k Hin); by left). clear -Hn.
    induction acc as [|[k' v'] acc IH]; [done|]. cbn. apply not_elem_of_cons in Hn as [Hne Hn].
    destruct (String.eqb_spec k k') as [->|]; [done|]. by rewrite IH. }
  rewrite IH; [by rewrite <- app_assoc|]. by rewrite <- app_assoc.
Qed.

(** What reading a value back gives: numbers in their canonical type. *)
Definition reread (fmt : float64 → string) (v : any) : any :=
  proto.normaliseJSONNumbers (proto.json_to_any (json_of fmt v)).

Lemma reread_ok fmt v :
  wire_ok fmt v → wire_ok fmt (reread fmt v) ∧ json_of fmt (reread fmt v) = json_of fmt v.
Proof.
  unfold reread. induction v as [ |b|s|s|z|z|z|z|f|l IH|m IH|s] using any_ind_nested; intros Hv; try done.
  1-4: cbn -[FormatInt ParseInt] in *; by rewrite ParseInt_FormatInt.
  - cbn in *. destruct Hv as [Hi Hf]. rewrite Hi, Hf. done.
  - rewrite wire_ok_arr in Hv. cbn [json_of proto.json_to_any proto.normaliseJSONNumbers].
    rewrite wire_ok_arr. induction IH as [|v l Hl _ IHl]; [by split|].
    apply Forall_cons in Hv as [Hv Hvs]. destruct (Hl Hv), (IHl Hvs) as [? [= E]]. cbn. split; [by constructor|].
    do 2 f_equal; done.
  - rewrite wire_ok_map in Hv. destruct Hv as [Hnd Hv].
    cbn [json_of proto.json_to_any].
    assert (Hkeys : ∀ (f : any → json) (g : json → any),
      keys_of (prod_map id g <$> (prod_map id f <$> m)) = keys_of m).
    { intros f g. unfold keys_of. clear. induction m as [|[k v] m IHm]; [done|]. cbn. by rewrite IHm. }
    rewrite foldl_set_id by (cbn [app]; by rewrite Hkeys).
    cbn [app proto.normaliseJSONNumbers json_of]. rewrite wire_ok_map.
    assert (Hall : ∀ m', Forall (λ kv, wire_ok fmt kv.2 → wire_ok fmt (reread fmt kv.2) ∧
        json_of fmt (reread fmt kv.2) = json_of fmt kv.2) m' → Forall (λ kv, wire_ok fmt kv.2) m' →
      let m2 := prod_map id proto.normaliseJSONNumbers <$>
        (prod_map id proto.json_to_any <$> (prod_map id (json_of fmt) <$> m')) in
      keys_of m2 = keys_of m' ∧ Forall (λ kv, wire_ok fmt kv.2) m2 ∧
      prod_map id (json_of fmt) <$> m2 = prod_map id (json_of fmt) <$> m').
    { clear. intros m' HI HO. induction HI as [|[k v] m' Hv _ IHm]; [done|].
      apply Forall_cons in HO as [Ho Hos]. destruct (IHm Hos) as (E1 & E2 & E3), (Hv Ho) as [? E4].
      cbn in *. split_and!.
      - unfold keys_of in *. cbn. by rewrite E1.
      - by constructor.
      - unfold reread in E4. by rewrite E4, E3. }
    destruct (Hall m IH Hv) as (E1 & E2 & E3). rewrite E1, E3. done.
Qed.

(** ** The schedule HASH *)

(** [raw] is the [opts] field storeJobScheduler writes for a template: absent
    for an empty one, else a text that denotes its map. *)
Definition stored_template (fmt : float64 → string) (t : proto.ScheduleTemplateOpts) (raw : string)
    : Prop :=
  raw = "" ∧ proto.toMap t = [] ∨ parse_first raw = Some (json_of fmt (AMap (proto.toMap t))).

(** Two maps with the same reading. *)
Definition same_json (fmt : float64 → string) (m m' : list (string * any)) : Prop :=
  prod_map id (json_of fmt) <$> m = prod_map id (json_of fmt) <$> m'.

#[export] Instance same_json_equiv fmt : Equivalence (same_json fmt).
Proof. unfold same_json. split; [by intros ? | by intros ? ? | intros ? ? ? -> ->; done]. Qed.

Lemma json_of_set fmt m k v :
  prod_map id (json_of fmt) <$> map_set m k v = map_set (prod_map id (json_of fmt) <$> m) k (json_of fmt v).
Proof.
  induction m as [|[k' v'] m IH]; [done|]. cbn. destruct (String.eqb k k'); [done|].
  rewrite fmap_cons, IH. done.
Qed.

#[export] Instance map_set_same fmt : Proper (same_json fmt ==> eq ==> eq ==> same_json fmt) (@map_set any).
Proof. intros m m' Hm k ? <- v ? <-. unfold same_json in *. by rewrite !json_of_set, Hm. Qed.

Lemma toMap_extra e : NoDup (keys_of e) → proto.toMap (proto.mkTemplate None None e) = e.
Proof. intros Hnd. unfold proto.toMap. cbn. by rewrite foldl_set_id. Qed.

Lemma wire_ok_nil fmt : wire_ok fmt (AMap []).
Proof. apply wire_ok_map. split; [apply NoDup_nil_2 | done]. Qed.

(** Decoding the stored template gives a template with the same reading. *)
Lemma decode_template fmt t raw :
  wire_ok fmt (AMap (proto.toMap t)) → stored_template fmt t raw →
  ∃ t', proto.DecodeScheduleTemplateOpts raw = (t', None) ∧
    same_json fmt (proto.toMap t') (proto.toMap t) ∧ wire_ok fmt (AMap (proto.toMap t')).
Proof.
  intros Hok Hst. unfold proto.DecodeScheduleTemplateOpts, same_json.
  destruct (String.eqb_spec raw "") as [->|Hne]; cbn [orb].
  { destruct Hst as [[_ ->] | [=]]. exists proto.noTemplate. split_and!; auto using wire_ok_nil. }
  destruct Hst as [[? _]|Hp]; [done|].
  destruct (String.eqb_spec raw "{}") as [->|_].
  { assert (parse_first "{}" = Some (JObj [])) as E by reflexivity. rewrite E in Hp.
    cbn [json_of] in Hp. injection Hp as Hp. exists proto.noTemplate. split_and!; auto using wire_ok_nil. }
  rewrite Hp. cbn [json_of]. destruct (reread_ok fmt _ Hok) as [Hok' E].
  change (proto.normaliseJSONNumbers _) with (reread fmt (AMap (proto.toMap t))).
  remember (reread fmt (AMap (proto.toMap t))) as v eqn:Ev.
  assert (∃ e, v = AMap e) as [e ->] by (subst v; by eexists).
  apply wire_ok_map in Hok' as Hk. destruct Hk as [Hnd _].
  exists (proto.mkTemplate None None e). rewrite toMap_extra by done. cbn [json_of] in E.
  injection E as E. done.
Qed.

(** A number field of the HASH, written when positive; a string field, written
    when not empty. *)
Definition num_field (z : Z) : any := if 0 <? z then AStr (FormatInt z) else ANil.
Definition str_field (s : string) : any := if String.eqb s "" then ANil else AStr s.

(** What HMGET answers of a schedule stored with options [o], template text
    [raw] and [ic] iterations so far. *)
Definition schedule_fields (o : proto.ScheduleOpts) (raw : string) (ic : Z) : list any :=
  [num_field (proto.Limit o); AStr (FormatInt ic); num_field (proto.EveryMs o);
   num_field (proto.StartDate o); num_field (proto.EndDate o); str_field (proto.Pattern o);
   str_field (proto.TZ o); str_field raw].

Definition timing_in64 (o : proto.ScheduleOpts) : Prop :=
  in64 (proto.EveryMs o) ∧ in64 (proto.StartDate o) ∧ in64 (proto.EndDate o) ∧ in64 (proto.Limit o).

(** What a reader makes of a number field. *)
Definition clamp0 (z : Z) : Z := if 0 <? z then z else 0.

Lemma num_field_ParseInt z : in64 z → (ParseIntV (asString (num_field z))).1 = clamp0 z.
Proof.
  intros Hz. unfold num_field, clamp0. destruct (0 <? z); [|done]. cbn [asString].
  pose proof (ParseInt_FormatInt z Hz) as E. unfold ParseInt in E.
  destruct (ParseIntV (FormatInt z)) as [n []]; [|done]. by injection E as ->.
Qed.

Lemma parseInt_format z : in64 z → parseInt (FormatInt z) = z.
Proof.
  intros Hz. unfold parseInt. pose proof (ParseInt_FormatInt z Hz) as E.
  destruct (String.eqb_spec (FormatInt z) "") as [E0|]; [by rewrite E0 in E|]. by rewrite E.
Qed.

Lemma num_field_parseInt z : in64 z → parseInt (asString (num_field z)) = clamp0 z.
Proof. intros Hz. unfold num_field, clamp0. destruct (0 <? z); [by apply parseInt_format | done]. Qed.

Lemma str_field_id s : asString (str_field s) = s.
Proof. unfold str_field. by destruct (String.eqb_spec s "") as [->|]. Qed.

Lemma clamp0_pos z : (0 <? clamp0 z) = (0 <? z).
Proof. unfold clamp0. by destruct (Z.ltb_spec 0 z) as [H|]; [apply Z.ltb_lt|]. Qed.

(** The options as the worker reconstructs them. *)
Definition reread_opts (o : proto.ScheduleOpts) : proto.ScheduleOpts :=
  proto.mkScheduleOpts "" (clamp0 (proto.EveryMs o)) (proto.Pattern o) (proto.TZ o)
    (clamp0 (proto.StartDate o)) (clamp0 (proto.EndDate o)) (clamp0 (proto.Limit o)).

Lemma repeat_fields_reread o m : proto.repeat_fields (reread_opts o) m = proto.repeat_fields o m.
Proof.
  unfold proto.repeat_fields, reread_opts. cbn. rewrite !clamp0_pos. unfold proto.set_if, clamp0.
  by destruct (0 <? proto.EveryMs o), (0 <? proto.StartDate o), (0 <? proto.EndDate o),
    (0 <? proto.Limit o).
Qed.

Lemma delayedOpts_reread fmt o t t' :
  same_json fmt (proto.toMap t') (proto.toMap t) →
  same_json fmt (proto.delayedOpts_map (reread_opts o) t') (proto.delayedOpts_map o t).
Proof.
  intros E. unfold proto.delayedOpts_map. rewrite repeat_fields_reread. by rewrite E.
Qed.

(** ** The iterations *)

Section iterations.
Context `{Msgpack} `{CronLib}.
Variable w : Worker.

(** May a schedule with [ic] iterations so far have another one? *)
Definition goes_on (o : proto.ScheduleOpts) (ic : Z) : bool :=
  negb ((0 <? proto.Limit o) && (proto.Limit o <=? ic)) &&
  ((0 <? proto.EveryMs o) || negb (String.eqb (proto.Pattern o) "")).

(** The time the end date is held against, and the script's first argument. *)
Definition next_fire (o : proto.ScheduleOpts) (now : Z) : option (Z * string) :=
  if negb (String.eqb (proto.Pattern o) "") then
    match parseCronSpec (proto.Pattern o) (proto.TZ o) with
    | inl _ => None
    | inr cc => let v := UnixMilli (nextFire cc now) in Some (v, FormatInt v)
    end
  else Some (UnixMilli now +! proto.EveryMs o, "0").

Definition in_time (o : proto.ScheduleOpts) (v : Z) : bool :=
  negb ((0 <? proto.EndDate o) && (proto.EndDate o <? v)).

(** The calls that queue the next iteration, with [m] as its options. *)
Definition iteration_calls (o : proto.ScheduleOpts) (ic : Z) (m : list (string * any))
    (id cur : string) (now : Z) : list call :=
  if goes_on o ic then
    match msgpack_Marshal (AMap m), next_fire o now with
    | inr b, Some (v, a) =>
        if in_time o v then
          [Call CtxBackground UpdateJobScheduler (rescheduleKeys w)
             [AStr a; AStr id; AStr "{}"; ABytes b; AInt64 (UnixMilli now);
              AStr (prefix (wkeys w)); AStr cur]]
        else []
    | _, _ => []
    end
  else [].

Definition hmget (id : string) : req :=
  RHMGet CtxBackground (keys.Schedule (builder (wkeys w)) id) rescheduleFields.

Lemma wp_first {W A} (sv : server W) r (k : resp r → M A) w0 (Q : A → list event → Prop) :
  wp (k (sv w0 r).1) (λ a l, Q a (Ev r (sv w0 r).1 :: l)) →
  Q (result sv (ask r ≫= k) w0) (log sv (ask r ≫= k) w0).
Proof.
  intros Hk. apply (wp_run sv _ _ (sv w0 r).2) in Hk. unfold result, log in *. cbn.
  destruct (sv w0 r) as [x w1]. cbn in *. by destruct (run sv (k x) w1) as [[a w2] l].
Qed.

Lemma goes_on_clamp o ic :
  goes_on o ic = negb ((0 <? clamp0 (proto.Limit o)) && (clamp0 (proto.Limit o) <=? ic)) &&
    negb ((clamp0 (proto.EveryMs o) <=? 0) && String.eqb (proto.Pattern o) "").
Proof.
  unfold goes_on, clamp0. destruct (Z.ltb_spec 0 (proto.Limit o)), (Z.ltb_spec 0 (proto.EveryMs o)), (String.eqb (proto.Pattern o) "");
    cbn; repeat (case_match; zbool); try done; zcases; cbn; try done; lia.
Qed.

(** The options of the next iteration are those of the schedule with the
    template [t'] that the worker read, and the clock is asked if there is one. *)
Lemma reschedule_calls {W} (sv : server W) w0 fmt o t raw ic id cur :
  wire_ok fmt (AMap (proto.toMap t)) → stored_template fmt t raw → timing_in64 o → in64 ic →
  (sv w0 (hmget id)).1 = inr (schedule_fields o raw ic) →
  let l := log sv (rescheduleNext w id cur) w0 in
  ∃ t', same_json fmt (proto.toMap t') (proto.toMap t) ∧
    let m := proto.delayedOpts_map (reread_opts o) t' in
    calls l = iteration_calls o ic m id cur (default 0 (answer clock_answer l)) ∧
    (goes_on o ic = true → ∀ b, msgpack_Marshal (AMap m) = inr b → is_Some (answer clock_answer l)).
Proof.
  intros Hok Hst (He & Hs & Hd & Hl) Hic Hsv. cbv zeta. unfold rescheduleNext.
  destruct (decode_template fmt t raw Hok Hst) as (t' & Ht' & Hm & _).
  exists t'. split; [done|].
  match goal with |- context [log sv ?m w0] =>
    pattern (log sv m w0); lazymatch goal with |- ?P _ =>
      refine (wp_first sv (hmget id) _ w0 (λ _ l, P l) _) end end.
  rewrite Hsv. unfold schedule_fields. cbv beta zeta.
  rewrite !num_field_ParseInt, num_field_parseInt, !str_field_id by done. cbn [asString].
  rewrite parseInt_format, Ht' by done.
  unfold iteration_calls. rewrite goes_on_clamp.
  destruct (_ && (clamp0 (proto.Limit o) <=? ic)); [by wp_step|]. do 2 wp_step.
  destruct (_ && (proto.Pattern o =? "")%string) eqn:Et; [by wp_step|].
  cbn [negb andb]. unfold proto.EncodeScheduleDelayedOpts. fold (reread_opts o).
  destruct (msgpack_Marshal _) as [|b]; [by wp_step|]. do 3 wp_step.
  assert (Hend : ∀ v, (0 <? clamp0 (proto.EndDate o)) && (clamp0 (proto.EndDate o) <? v) = negb (in_time o v)).
  { intros v. unfold in_time, clamp0. destruct (Z.ltb_spec 0 (proto.EndDate o)); cbn; [|done].
    destruct (Z.ltb_spec 0 (proto.EndDate o)); [|lia]. by rewrite negb_involutive. }
  unfold next_fire. destruct (negb (proto.Pattern o =? "")%string) eqn:Ep.
  - destruct (parseCronSpec _ _) as [e|cc]; repeat wp_step; [by split|].
    rewrite Hend. destruct (in_time o _) eqn:Ei; cbn [negb]; repeat wp_step;
      cbn -[in_time FormatInt UnixMilli]; rewrite Ei; by split.
  - assert (clamp0 (proto.EveryMs o) = proto.EveryMs o) as ->.
    { apply negb_false_iff in Ep. rewrite Ep, andb_true_r in Et. zbool. unfold clamp0 in *.
      destruct (0 <? proto.EveryMs o); [done | lia]. }
    wp_step. rewrite Hend. destruct (in_time o _) eqn:Ei; cbn [negb]; repeat wp_step;
      cbn -[in_time i64 UnixMilli]; rewrite Ei; by split.
Qed.

Lemma reschedule_reads {W} (sv : server W) w0 fmt o t raw ic id cur :
  wire_ok fmt (AMap (proto.toMap t)) → stored_template fmt t raw → timing_in64 o → in64 ic →
  (sv w0 (hmget id)).1 = inr (schedule_fields o raw ic) →
  let l := log sv (rescheduleNext w id cur) w0 in
  ∃ m, same_json fmt m (proto.delayedOpts_map o t) ∧
    calls l = iteration_calls o ic m id cur (default 0 (answer clock_answer l)).
Proof.
  intros Hok Hst Ht Hic Hsv. destruct (reschedule_calls sv w0 fmt o t raw ic id cur Hok Hst Ht Hic Hsv) as (t' & Hm & Hc & _).
  exists (proto.delayedOpts_map (reread_opts o) t'). split; [by apply delayedOpts_reread | exact Hc].
Qed.
End iterations.

(** ** A schedule and the worker that keeps it going *)

Record sched := mkSched { s_ic : Z; s_clock : Z }.

(** Redis as updateJobScheduler treats a schedule whose last iteration has just
    been run: the next one is queued and [ic] goes up. *)
Definition sched_serve (o : proto.ScheduleOpts) (raw : string) : server sched := λ s r,
  match r as r0 return resp r0 * sched with
  | RNow => (s_clock s, mkSched (s_ic s) (s_clock s + Second))
  | RHMGet _ _ _ => (inr (schedule_fields o raw (s_ic s)), s)
  | RScript _ UpdateJobScheduler _ _ => (inr (AStr "next"), mkSched (s_ic s + 1) (s_clock s))
  | r => ((quiet tt r).1, s)
  end.

Definition updates (cs : list call) : Z :=
  Z.of_nat (length (filter (λ c, c_name c = UpdateJobScheduler) cs)).

Lemma sched_counts {A} o raw (m : M A) s :
  s_ic (world (sched_serve o raw) m s) = s_ic s + updates (calls (log (sched_serve o raw) m s)).
Proof.
  unfold world, log. revert s. induction m as [a|r k IH]; intros s; [unfold updates; cbn; lia|]. cbn [run].
  destruct (sched_serve o raw s r) as [x s1] eqn:E. specialize (IH x s1).
  destruct (run (sched_serve o raw) (k x) s1) as [[a s2] l]. cbn [fst snd] in *. rewrite IH.
  assert (Hic : s_ic s1 = s_ic s + updates (calls [Ev r x])).
  { apply (f_equal snd) in E. cbn in E. subst s1. unfold updates.
    destruct r; cbn; rewrite ?Z.add_0_r; try done. by destruct name; cbn; rewrite ?Z.add_0_r. }
  change (Ev r x :: l) with ([Ev r x] ++ l). rewrite calls_app, Hic. unfold updates.
  rewrite filter_app, length_app. lia.
Qed.

Section limit.
Context `{Msgpack} `{CronLib}.
Variable w : Worker.

Fixpoint rounds (sv : server sched) (id : string) (k : nat) (s : sched) : sched :=
  match k with O => s | S k => rounds sv id k (world sv (rescheduleNext w id "cur") s) end.

(** Nothing but the limit can end the schedule. *)
Definition endless (o : proto.ScheduleOpts) : Prop :=
  proto.EndDate o ≤ 0 ∧ (0 < proto.EveryMs o ∨ proto.Pattern o ≠ "") ∧
  (proto.Pattern o = "" ∨ ∃ cc, parseCronSpec (proto.Pattern o) (proto.TZ o) = inr cc).

Lemma endless_calls o ic m id cur now :
  endless o → (∃ b, msgpack_Marshal (AMap m) = inr b) →
  updates (iteration_calls w o ic m id cur now) =
    if (0 <? proto.Limit o) && (proto.Limit o <=? ic) then 0 else 1.
Proof.
  intros (He & Ht & Hp) [b Hb]. unfold iteration_calls, goes_on.
  assert ((0 <? proto.EveryMs o) || negb (proto.Pattern o =? "")%string = true) as ->.
  { destruct Ht as [Ht|Ht]; apply orb_true_iff.
    - left. by apply Z.ltb_lt.
    - right. apply negb_true_iff. by apply String.eqb_neq. }
  rewrite andb_true_r. destruct (_ && (_ <=? ic)); [done|]. cbn [negb]. rewrite Hb.
  assert (Hin : ∀ v, in_time o v = true).
  { intros v. unfold in_time. destruct (Z.ltb_spec 0 (proto.EndDate o)); [lia | done]. }
  unfold next_fire. destruct (String.eqb_spec (proto.Pattern o) ""); cbn [negb].
  - by rewrite Hin.
  - destruct Hp as [?|[cc ->]]; [done|]. cbv zeta. by rewrite Hin.
Qed.

Lemma rounds_count fmt o t raw id k s :
  (∀ v, ∃ b, msgpack_Marshal v = inr b) → wire_ok fmt (AMap (proto.toMap t)) →
  stored_template fmt t raw → timing_in64 o → endless o →
  0 < s_ic s → s_ic s + Z.of_nat k ≤ maxInt64 → (0 < proto.Limit o → s_ic s ≤ proto.Limit o) →
  s_ic (rounds (sched_serve o raw) id k s) =
    if 0 <? proto.Limit o then Z.min (proto.Limit o) (s_ic s + Z.of_nat k) else s_ic s + Z.of_nat k.
Proof.
  intros Hmar Hok Hst Ho He. revert s. induction k as [|k IH]; intros s Hpos Hmax Hlim.
  { cbn. destruct (Z.ltb_spec 0 (proto.Limit o)); lia. }
  cbn [rounds]. set (s1 := world _ _ s).
  assert (s_ic s1 = s_ic s + if (0 <? proto.Limit o) && (proto.Limit o <=? s_ic s) then 0 else 1) as E.
  { subst s1. rewrite sched_counts. f_equal.
    destruct (reschedule_reads w (sched_serve o raw) s fmt o t raw (s_ic s) id "cur") as (m & _ & ->);
      try done; [consts; lia|]. by apply endless_calls. }
  destruct (Z.ltb_spec 0 (proto.Limit o)), (Z.leb_spec (proto.Limit o) (s_ic s)); cbn in E; rewrite IH; lia.
Qed.
End limit.

(** ** Properties *)

(** C25. No dead schedule is ever created. Whatever the options and the environment
    an upsert either returns an error without touching Redis, or makes exactly
    one addJobScheduler call, for options that do not contradict each other and
    a first iteration that is not past the end date, carrying the encoded
    timing and template, and returns nil exactly when the script took it. *)
Theorem upsert_sound `{Msgpack} `{GoArch} `{CronLib} `{Payload T} {W} (sv : server W) w0 q t id
    (payload : T) opts :
  let m := upsert q t id payload opts in
  upsert_spec q t id payload (applyOptions opts zeroSchedule) (result sv m w0) (log sv m w0).
Proof. cbv zeta. wp_res. destruct t; [apply wp_upsert_every | apply wp_upsert_cron]. Qed.

(** Retention options combine in any order: of the completed and of the failed
    iterations a schedule keeps the last count and the last age it was given,
    and neither clears the other. *)
Theorem schedule_retention_merges `{GoArch} os :
  let t := sc_template (applyOptions (denote <$> os) zeroSchedule) in
  proto.TRemoveOnComplete t = asked_limit false os ∧ proto.TRemoveOnFail t = asked_limit true os.
Proof.
  cbv zeta. unfold applyOptions. induction os as [|o os IH] using rev_ind; [done|].
  rewrite fmap_app, foldl_app. cbn [fmap list_fmap foldl]. destruct IH as [Hc Hf].
  split; [by apply (asked_limit_snoc false) | by apply (asked_limit_snoc true)].
Qed.

(** C24. Every iteration inherits the whole template. When the worker reads back the
    schedule HASH that addJobScheduler wrote, the options it queues the next
    iteration with read the same as those of the first: the retention, and every
    field mkq has no name for, priorities and attempts included. And it queues
    one exactly when the limit is not used up, the pattern still compiles and
    the next fire is not past the end date. *)
Theorem iterations_inherit `{Msgpack} `{CronLib} {W} (sv : server W) w0 w fmt o t raw ic id cur :
  wire_ok fmt (AMap (proto.toMap t)) → stored_template fmt t raw → timing_in64 o → in64 ic →
  (sv w0 (hmget w id)).1 = inr (schedule_fields o raw ic) →
  let l := log sv (rescheduleNext w id cur) w0 in
  ∃ m, same_json fmt m (proto.delayedOpts_map o t) ∧
    calls l = iteration_calls w o ic m id cur (default 0 (answer clock_answer l)).
Proof. apply reschedule_reads. Qed.

(** A limit is exact: of a schedule with limit N that nothing else ends, the
    worker queues iterations until there have been N in all, the first one
    included, and then no more; without a limit each round queues one. *)
Theorem schedule_limit_exact `{Msgpack} `{CronLib} w fmt o t raw id k now :
  (∀ v, ∃ b, msgpack_Marshal v = inr b) → wire_ok fmt (AMap (proto.toMap t)) →
  stored_template fmt t raw → timing_in64 o → endless o → Z.of_nat k < maxInt64 →
  s_ic (rounds w (sched_serve o raw) id k (mkSched 1 now)) =
    if 0 <? proto.Limit o then Z.min (proto.Limit o) (1 + Z.of_nat k) else 1 + Z.of_nat k.
Proof. intros. eapply rounds_count; cbn; eauto; lia. Qed.

Definition sampleTiming : proto.ScheduleOpts := proto.mkScheduleOpts "email" 60000 "" "" 0 0 3.

(** A template with a field mkq has no option for. *)
Definition sampleTemplate : proto.ScheduleTemplateOpts :=
  proto.mkTemplate (Some (proto.mkRetentionLimit (Some 5) None)) None [("attempts", AInt64 3)].

Definition sampleTemplateRaw : string := quoted "{`attempts`:3,`removeOnComplete`:5}".

Lemma iterations_inherit_witness :
  ∃ m, same_json (λ _, "") m [("attempts", AInt64 3); ("removeOnComplete", AInt 5);
         ("repeat", AMap [("every", AInt64 60000); ("limit", AInt 3)])] ∧
    calls (log (sched_serve sampleTiming sampleTemplateRaw)
      (rescheduleNext (H := plainMsgpack) (H1 := hourly) sampleWorker "nightly" "cur") (mkSched 2 0)) =
    iteration_calls (H := plainMsgpack) (H0 := hourly) sampleWorker sampleTiming 2 m "nightly" "cur" 0.
Proof.
  destruct (iterations_inherit (H := plainMsgpack) (H0 := hourly) (sched_serve sampleTiming sampleTemplateRaw)
    (mkSched 2 0) sampleWorker (λ _, "") sampleTiming sampleTemplate sampleTemplateRaw 2 "nightly" "cur")
    as (m & Hm & Hc).
  - apply wire_ok_map. split; [apply (bool_decide_unpack _); by vm_compute|].
    repeat constructor; vm_compute; done.
  - right. by vm_compute.
  - by vm_compute.
  - by vm_compute.
  - reflexivity.
  - exists m. split; [exact Hm|]. exact Hc.
Defined.

Lemma schedule_limit_exact_witness :
  s_ic (rounds (H := plainMsgpack) (H0 := hourly) sampleWorker
    (sched_serve sampleTiming sampleTemplateRaw) "nightly" 7 (mkSched 1 0)) = 3.
Proof.
  apply (schedule_limit_exact (H := plainMsgpack) (H0 := hourly) sampleWorker (λ _, "") sampleTiming
    sampleTemplate sampleTemplateRaw "nightly" 7 0).
  - intros v. by exists "".
  - apply wire_ok_map. split; [apply (bool_decide_unpack _); by vm_compute|].
    repeat constructor; vm_compute; done.
  - right. by vm_compute.
  - by vm_compute.
  - split; [done|]. split; [by left | by left].
  - by vm_compute.
Defined.
