(* ===== verification/Redis.v ===== *)
(** * One Redis under the scripts (internal/lua/scripts)

    The state of a queue in Redis and the vendored scripts that change it, as
    programs over KEYS and ARGV. The store has one map per kind of value, since a
    key of one kind is never read as another; the marker, the event stream, the
    metrics and the job logs, which no script decides by, are left out. Jobs have
    no parents, as [Queue.Add] never gives them any, and deduplication is the
    simple mode mkq sends (an id and perhaps a time to live). What Redis alone
    knows, the remaining life of a key, comes from an [oracle].

    A script also reports its [effect]s on the lock of a job: who took the job
    and whose outcome got past the lock check. *)

From S2P Require Import Prelude GoLib Keys Backoff Effects Json Jobs.

Record store := mkStore {
  lists : gmap string (list string);              (** wait, active, paused; head first *)
  zsets : gmap string (gmap string Z);            (** delayed, prioritized, completed, failed, repeat *)
  hashes : gmap string (gmap string string);      (** jobs, meta, schedules *)
  locks : gmap string string;                     (** the token that holds each job *)
  strs : gmap string string;                      (** deduplication keys, stalled-check *)
  nums : gmap string Z;                           (** id, pc and limiter counters *)
  sets : gmap string (gset string);               (** stalled *)
}.

Inductive effect := Take (jobID token : string) | Settle (jobID token : string).

(** What a script cannot tell from the store. *)
Record oracle := mkOracle {
  o_pttl : Z;      (** the life left of a deduplication key *)
  o_window : Z;    (** the life left of the rate limit counter *)
  o_reply : any;   (** what a script that only reads answers *)
}.

(** What a Go value is to a script once it has been packed and unpacked: a
    script has one kind of string, and numbers that are exact up to 53 bits. *)
Definition lua_int (z : Z) : any := if Z.abs z <=? 2 ^ 53 then AInt64 z else AFloat (f64_of_Z z).

Fixpoint lua_value (v : any) : any :=
  match v with
  | AInt64 z | AInt z | AInt32 z | AUint32 z => lua_int z
  | ABytes s | AStr s | ANumber s => AStr s
  | AArr l => AArr (lua_value <$> l)
  | AMap m => AMap ((λ kv, (kv.1, lua_value kv.2)) <$> m)
  | ANil | ABool _ | AFloat _ => v
  end.

(** [cmsgpack.unpack], on what msgpack packed. *)
Class Codec `{Msgpack} := {
  unpack : string → any;
  unpack_law : ∀ v b, msgpack_Marshal v = inr b → unpack b = lua_value v;
}.

Module lua.

(** ** A script: a state transformer that writes effects *)

Definition Lua (A : Type) : Type := store → A * store * list effect.

#[export] Instance Lua_ret : MRet Lua := λ A a st, (a, st, []).
#[export] Instance Lua_bind : MBind Lua := λ A B f m st,
  let '(a, st1, l1) := m st in
  let '(b, st2, l2) := f a st1 in (b, st2, l1 ++ l2).

Definition gets {A} (f : store → A) : Lua A := λ st, (f st, st, []).
Definition modify (f : store → store) : Lua unit := λ st, (tt, f st, []).
Definition emit (e : effect) : Lua unit := λ st, (tt, st, [e]).

(** ** Redis commands *)

Definition lget (k : string) (st : store) : list string := default [] (lists st !! k).
Definition zget (k : string) (st : store) : gmap string Z := default ∅ (zsets st !! k).
Definition hgetall (k : string) (st : store) : gmap string string := default ∅ (hashes st !! k).

Definition lset (k : string) (l : list string) (st : store) : store :=
  mkStore (<[k := l]> (lists st)) (zsets st) (hashes st) (locks st) (strs st) (nums st) (sets st).
Definition zset (k : string) (z : gmap string Z) (st : store) : store :=
  mkStore (lists st) (<[k := z]> (zsets st)) (hashes st) (locks st) (strs st) (nums st) (sets st).
(** A HASH without fields does not exist. *)
Definition hset (k : string) (h : gmap string string) (st : store) : store :=
  mkStore (lists st) (zsets st) (if bool_decide (h = ∅) then delete k (hashes st) else <[k := h]> (hashes st))
    (locks st) (strs st) (nums st) (sets st).
Definition hdel (k : string) (st : store) : store :=
  mkStore (lists st) (zsets st) (delete k (hashes st)) (locks st) (strs st) (nums st) (sets st).
Definition with_locks (f : gmap string string → gmap string string) (st : store) : store :=
  mkStore (lists st) (zsets st) (hashes st) (f (locks st)) (strs st) (nums st) (sets st).
Definition with_strs (f : gmap string string → gmap string string) (st : store) : store :=
  mkStore (lists st) (zsets st) (hashes st) (locks st) (f (strs st)) (nums st) (sets st).
Definition with_nums (f : gmap string Z → gmap string Z) (st : store) : store :=
  mkStore (lists st) (zsets st) (hashes st) (locks st) (strs st) (f (nums st)) (sets st).
Definition with_sets (f : gmap string (gset string) → gmap string (gset string)) (st : store) : store :=
  mkStore (lists st) (zsets st) (hashes st) (locks st) (strs st) (nums st) (f (sets st)).

Definition LLEN k : Lua Z := gets (λ st, Z.of_nat (length (lget k st))).
Definition LPUSH k x : Lua unit := modify (λ st, lset k (x :: lget k st) st).
Definition RPUSH k x : Lua unit := modify (λ st, lset k (lget k st ++ [x]) st).

(** The last element of one list to the head of another. *)
Definition RPOPLPUSH src dst : Lua (option string) := λ st,
  match last (lget src st) with
  | None => (None, st, [])
  | Some x =>
      let st := lset src (take (length (lget src st) - 1) (lget src st)) st in
      (Some x, lset dst (x :: lget dst st) st, [])
  end.

Fixpoint remove_first (x : string) (l : list string) : list string :=
  match l with
  | [] => []
  | y :: l => if String.eqb x y then l else y :: remove_first x l
  end.

(** LREM with count 1 (from the head) and -1 (from the tail): how many went. *)
Definition LREM_head k x : Lua Z := λ st,
  if bool_decide (x ∈ lget k st) then (1, lset k (remove_first x (lget k st)) st, []) else (0, st, []).
Definition LREM_tail k x : Lua Z := λ st,
  if bool_decide (x ∈ lget k st)
  then (1, lset k (rev (remove_first x (rev (lget k st)))) st, []) else (0, st, []).

Definition ZADD k (score : Z) x : Lua unit := modify (λ st, zset k (<[x := score]> (zget k st)) st).
Definition ZREM k x : Lua Z := λ st,
  if bool_decide (is_Some (zget k st !! x)) then (1, zset k (delete x (zget k st)) st, []) else (0, st, []).
Definition ZSCORE k x : Lua (option Z) := gets (λ st, zget k st !! x).

(** The members by score, ties by name. *)
Definition zle (a b : string * Z) : Prop := a.2 < b.2 ∨ a.2 = b.2 ∧ String.le a.1 b.1.
#[export] Instance zle_dec a b : Decision (zle a b).
Proof. unfold zle. apply _. Defined.
Definition zsorted (z : gmap string Z) : list (string * Z) := merge_sort zle (map_to_list z).

Definition ZPOPMIN k : Lua (option string) := λ st,
  match zsorted (zget k st) with
  | [] => (None, st, [])
  | (x, _) :: _ => (Some x, zset k (delete x (zget k st)) st, [])
  end.

Definition HGET k f : Lua (option string) := gets (λ st, hgetall k st !! f).
Definition HMSET k (kvs : list (string * string)) : Lua unit :=
  modify (λ st, hset k (foldl (λ h kv, <[kv.1 := kv.2]> h) (hgetall k st) kvs) st).
Definition HDEL k (fs : list string) : Lua unit :=
  modify (λ st, hset k (foldl (λ h f, delete f h) (hgetall k st) fs) st).
Definition HINCRBY k f : Lua Z := λ st,
  let n := parseInt (hget (hgetall k st) f) + 1 in
  (n, hset k (<[f := FormatInt n]> (hgetall k st)) st, []).
Definition HEXISTS k : Lua bool := gets (λ st, bool_decide (is_Some (hashes st !! k))).

Definition INCR k : Lua Z := λ st,
  let n := default 0 (nums st !! k) + 1 in (n, with_nums (insert k n) st, []).

(** The id counter stops at the end of the 64-bit range: [None] is the error. *)
Definition INCR64 k : Lua (option Z) := λ st,
  let n := default 0 (nums st !! k) + 1 in
  if n <=? maxInt64 then (Some n, with_nums (insert k n) st, []) else (None, st, []).

Definition overflow : err := EText "ERR increment or decrement would overflow".

(** [tonumber], for the integers the scripts store, 0 standing for nil. *)
Definition tonumber (v : option string) : Z := match v with Some s => parseInt s | None => 0 end.

(** ** Reading ARGV and unpacked options *)

Definition argv (args : list any) (i : nat) : any := default ANil (args !! (i - 1)%nat).
Definition str (v : any) : string :=
  match v with AStr s | ABytes s => s | AInt64 z | AInt z | AInt32 z | AUint32 z => FormatInt z | _ => "" end.
Definition num (v : any) : option Z :=
  match v with
  | AInt64 z | AInt z | AInt32 z | AUint32 z => Some z
  | AStr s | ABytes s => Some (parseInt s)
  | _ => None
  end.
Definition field (v : any) (f : string) : any :=
  match v with AMap m => default ANil (map_get m f) | _ => ANil end.
Definition truthy (v : any) : bool := match v with ANil | ABool false => false | _ => true end.
Definition key (ks : list string) (i : nat) : string := default "" (ks !! (i - 1)%nat).

(** The pairs of an unpacked field array. *)
Fixpoint pairs (l : list any) : list (string * string) :=
  match l with k :: v :: l => (str k, str v) :: pairs l | _ => [] end.

Section scripts.
Context `{Codec}.
(** [cjson.encode]. *)
Variable cjson : any → string.
Variable o : oracle.

(** ** includes *)

Definition isQueuePausedOrMaxed metaKey activeKey : Lua bool :=
  p ← HGET metaKey "paused";
  c ← HGET metaKey "concurrency";
  n ← LLEN activeKey;
  mret match p, c with
  | Some _, _ => true
  | None, Some c => parseInt c <=? n
  | None, None => false
  end.

Definition getOrSetMaxEvents metaKey : Lua unit :=
  m ← HGET metaKey "opts.maxLenEvents";
  match m with Some _ => mret tt | None => HMSET metaKey [("opts.maxLenEvents", "10000")] end.

Definition getPriorityScore (priority : Z) pcKey : Lua Z :=
  c ← INCR pcKey; mret (priority * 0x100000000 + c mod 0x100000000).

Definition addJobWithPriority prioritizedKey (priority : Z) jobId pcKey : Lua unit :=
  score ← getPriorityScore priority pcKey; ZADD prioritizedKey score jobId.

Definition pushCmd (cmd : string) k x : Lua unit :=
  if String.eqb cmd "RPUSH" then RPUSH k x else LPUSH k x.

Fixpoint promote_each (jobs : list string) waitKey prioritizedKey prefix pcKey : Lua unit :=
  match jobs with
  | [] => mret tt
  | jobId :: jobs =>
      let jobKey := prefix +:+ jobId in
      p ← HGET jobKey "priority";
      _ ← (if tonumber p =? 0 then LPUSH waitKey jobId
           else addJobWithPriority prioritizedKey (tonumber p) jobId pcKey);
      _ ← HMSET jobKey [("delay", "0")];
      promote_each jobs waitKey prioritizedKey prefix pcKey
  end.

Fixpoint ZREM_all k (xs : list string) : Lua unit :=
  match xs with [] => mret tt | x :: xs => _ ← ZREM k x; ZREM_all k xs end.

(** The members with a score up to [max], in order. *)
Definition due (max : Z) (z : gmap string Z) : list string :=
  fst <$> filter (λ x, 0 ≤ x.2 ≤ max) (zsorted z).

Definition promoteDelayedJobs delayedKey waitKey prioritizedKey prefix (timestamp : Z) pcKey : Lua unit :=
  jobs ← gets (λ st, take 1000 (due ((timestamp + 1) * 0x1000 - 1) (zget delayedKey st)));
  _ ← ZREM_all delayedKey jobs;
  promote_each jobs waitKey prioritizedKey prefix pcKey.

Definition getRateLimitTTL (maxJobs : option Z) limiterKey : Lua Z :=
  match maxJobs with
  | None => mret 0
  | Some m =>
      n ← gets (λ st, default 0 (nums st !! limiterKey));
      if m <=? n then
        _ ← (if o_window o =? 0 then modify (with_nums (delete limiterKey)) else mret tt);
        mret (Z.max 0 (o_window o))
      else mret 0
  end.

Definition lockKey (jobKey : string) : string := jobKey +:+ ":lock".

Definition prepareJobForProcessing prefix limiterKey jobId (processedOn : Z) (maxJobs : option Z) (opts : any)
    : Lua any :=
  let jobKey := prefix +:+ jobId in
  let token := str (field opts "token") in
  _ ← match maxJobs with
      | None => mret tt
      | Some _ =>
          d ← HGET jobKey "defa";
          match d with
          | Some _ => mret tt
          | None => _ ← INCR limiterKey; mret tt
          end
      end;
  _ ← (if negb (String.eqb token "0") then
         _ ← modify (with_locks (insert (lockKey jobKey) token));
         emit (Take jobId token)
       else mret tt);
  _ ← HMSET jobKey (("processedOn", FormatInt processedOn) ::
        (if truthy (field opts "name") then [("pb", str (field opts "name"))] else []));
  _ ← HINCRBY jobKey "ats";
  h ← gets (hgetall jobKey);
  mret (AArr [AArr (flatten (map_to_list h)); AStr jobId; AInt64 0; AInt64 0]).

Definition moveJobFromPrioritizedToActive prioritizedKey activeKey pcKey : Lua (option string) :=
  x ← ZPOPMIN prioritizedKey;
  match x with
  | Some x => _ ← LPUSH activeKey x; mret (Some x)
  | None => _ ← modify (with_nums (delete pcKey)); mret None
  end.

Definition nothing (expire next : Z) : any := AArr [AInt64 0; AInt64 0; AInt64 expire; AInt64 next].

Definition getNextDelayedTimestamp delayedKey : Lua (option Z) :=
  gets (λ st, match zsorted (zget delayedKey st) with [] => None | (_, s) :: _ => Some (s / 0x1000) end).

Definition legacy_marker (jobId : string) : bool := HasPrefix jobId "0:".

(** [removeLock]; the error code. *)
Definition removeLock jobKey stalledKey token jobId : Lua Z :=
  if String.eqb token "0" then mret 0 else
  t ← gets (λ st, locks st !! lockKey jobKey);
  match t with
  | None => mret (-2)
  | Some t =>
      if String.eqb t token then
        _ ← modify (with_locks (delete (lockKey jobKey)));
        _ ← modify (with_sets (λ m, <[stalledKey := default ∅ (m !! stalledKey) ∖ {[jobId]}]> m));
        _ ← emit (Settle jobId token);
        mret 0
      else mret (-6)
  end.

Definition updateJobFields jobKey (packed : string) : Lua unit :=
  if String.eqb packed "" then mret tt
  else match unpack packed with
  | AArr l => HMSET jobKey (pairs l)
  | _ => mret tt
  end.

(** The queue's part that moveToActive and fetchNextJob share, up to the choice
    of a job. *)
Definition admission metaKey activeKey delayedKey waitKey prioritizedKey prefix (timestamp : Z) pcKey
    limiterKey (opts : any) : Lua (bool * option Z * Z) :=
  stopped ← isQueuePausedOrMaxed metaKey activeKey;
  max ← HGET metaKey "max";
  _ ← promoteDelayedJobs delayedKey waitKey prioritizedKey prefix timestamp pcKey;
  let maxJobs := match max with Some m => Some (parseInt m) | None => num (field (field opts "limiter") "max") end in
  expire ← getRateLimitTTL maxJobs limiterKey;
  mret (stopped, maxJobs, expire).

Definition moveToActive (ks : list string) (args : list any) : Lua any :=
  let waitKey := key ks 1 in let activeKey := key ks 2 in let prioritizedKey := key ks 3 in
  let limiterKey := key ks 6 in let delayedKey := key ks 7 in let metaKey := key ks 9 in
  let pcKey := key ks 10 in
  let prefix := str (argv args 1) in
  let timestamp := default 0 (num (argv args 2)) in
  let opts := unpack (str (argv args 3)) in
  a ← admission metaKey activeKey delayedKey waitKey prioritizedKey prefix timestamp pcKey limiterKey opts;
  let '(stopped, maxJobs, expire) := a : bool * option Z * Z in
  if 0 <? expire then mret (nothing expire 0)
  else if (stopped : bool) then mret (nothing 0 0)
  else
    j ← RPOPLPUSH waitKey activeKey;
    j ← match j with
        | Some j => if legacy_marker j then _ ← LREM_head activeKey j; RPOPLPUSH waitKey activeKey
                    else mret (Some j)
        | None => mret None
        end;
    j ← match j with
        | Some j => mret (Some j)
        | None => moveJobFromPrioritizedToActive prioritizedKey activeKey pcKey
        end;
    match j with
    | Some j => prepareJobForProcessing prefix limiterKey j timestamp maxJobs opts
    | None =>
        next ← getNextDelayedTimestamp delayedKey;
        mret (nothing 0 (default 0 next))
    end.

(** [None] is nil. *)
Definition fetchNextJob waitKey activeKey prioritizedKey limiterKey delayedKey metaKey pcKey prefix
    (timestamp : Z) (opts : any) : Lua (option any) :=
  a ← admission metaKey activeKey delayedKey waitKey prioritizedKey prefix timestamp pcKey limiterKey opts;
  let '(stopped, maxJobs, expire) := a : bool * option Z * Z in
  if 0 <? expire then mret (Some (nothing expire 0))
  else if (stopped : bool) then mret (Some (nothing 0 0))
  else
    j ← RPOPLPUSH waitKey activeKey;
    j ← match j with
        | Some j =>
            if legacy_marker j then
              _ ← LREM_head activeKey j;
              if String.eqb j "0:0" then moveJobFromPrioritizedToActive prioritizedKey activeKey pcKey
              else mret None
            else mret (Some j)
        | None => moveJobFromPrioritizedToActive prioritizedKey activeKey pcKey
        end;
    match j with
    | Some j => v ← prepareJobForProcessing prefix limiterKey j timestamp maxJobs opts; mret (Some v)
    | None =>
        next ← getNextDelayedTimestamp delayedKey;
        mret ((λ n, nothing 0 n) <$> next)
    end.

(** ** The scripts that end an attempt *)

Definition isZero (v : option Z) : bool := match v with Some 0 => true | _ => false end.

(** [removeDeduplicationKeyIfNeededOnFinalization]. *)
Definition dropDedupOnFinish prefix (deid : option string) jobId : Lua unit :=
  match deid with
  | None => mret tt
  | Some d =>
      let k := prefix +:+ "de:" +:+ d in
      if o_pttl o =? 0 then modify (with_strs (delete k))
      else if o_pttl o =? -1 then
        c ← gets (λ st, strs st !! k);
        if bool_decide (c = Some jobId) then modify (with_strs (delete k)) else mret tt
      else mret tt
  end.

(** Out of the set and [removeJob], one by one. *)
Fixpoint expel targetSet prefix (jobs : list string) : Lua unit :=
  match jobs with
  | [] => mret tt
  | j :: jobs =>
      _ ← ZREM targetSet j;
      _ ← modify (hdel (prefix +:+ j));
      expel targetSet prefix jobs
  end.

(** The oldest first for an age, everything behind the newest [n] for a count. *)
Definition removeJobsByMaxAge (timestamp maxAge : Z) targetSet prefix (limit : Z) : Lua unit :=
  jobs ← gets (λ st, take (Z.to_nat limit) (rev (fst <$> filter (λ x, x.2 ≤ timestamp - maxAge * 1000)
                       (zsorted (zget targetSet st)))));
  expel targetSet prefix jobs.

Definition removeJobsByMaxCount (maxCount : Z) targetSet prefix : Lua unit :=
  jobs ← gets (λ st, drop (Z.to_nat maxCount) (rev (fst <$> zsorted (zget targetSet st))));
  expel targetSet prefix jobs.

(** The job with its result, and what its retention leaves of the others. *)
Definition retain targetSet prefix jobId jobKey (timestamp : Z) (target prop value : string) (keep : any) : Lua unit :=
  let maxCount := num (field keep "count") in
  if isZero maxCount then modify (hdel jobKey)
  else
    _ ← ZADD targetSet timestamp jobId;
    _ ← HMSET jobKey [(prop, value); ("finishedOn", FormatInt timestamp)];
    _ ← (if String.eqb target "failed" then HDEL jobKey ["defa"] else mret tt);
    _ ← match num (field keep "age") with
        | Some age => removeJobsByMaxAge timestamp age targetSet prefix (default 1000 (num (field keep "limit")))
        | None => mret tt
        end;
    match maxCount with
    | Some n => if 0 <? n then removeJobsByMaxCount n targetSet prefix else mret tt
    | None => mret tt
    end.

Definition moveToFinished (ks : list string) (args : list any) : Lua any :=
  let jobId := str (argv args 1) in
  let timestamp := default 0 (num (argv args 2)) in
  let target := str (argv args 5) in
  let prefix := str (argv args 7) in
  let jobKey := key ks 12 in
  let opts := unpack (str (argv args 8)) in
  ex ← HEXISTS jobKey;
  if negb ex then mret (AInt64 (-1)) else
  code ← removeLock jobKey (key ks 5) (str (field opts "token")) jobId;
  if code <? 0 then mret (AInt64 code) else
  _ ← updateJobFields jobKey (str (argv args 9));
  n ← LREM_tail (key ks 2) jobId;
  if n <? 1 then mret (AInt64 (-3)) else
  _ ← getOrSetMaxEvents (key ks 9);
  deid ← HGET jobKey "deid";
  _ ← dropDedupOnFinish prefix deid jobId;
  _ ← HINCRBY jobKey "atm";
  _ ← retain (key ks 11) prefix jobId jobKey timestamp target (str (argv args 3)) (str (argv args 4))
        (field opts "keepJobs");
  if String.eqb (str (argv args 6)) "1" then
    r ← fetchNextJob (key ks 1) (key ks 2) (key ks 3) (key ks 6) (key ks 7) (key ks 9) (key ks 10)
          prefix timestamp opts;
    mret match r with Some v => v | None => AInt64 0 end
  else mret (AInt64 0).

Definition retryJob (ks : list string) (args : list any) : Lua any :=
  let prefix := str (argv args 1) in
  let jobId := str (argv args 4) in
  let jobKey := key ks 4 in
  _ ← promoteDelayedJobs (key ks 7) (key ks 2) (key ks 8) prefix (default 0 (num (argv args 2))) (key ks 9);
  ex ← HEXISTS jobKey;
  if negb ex then mret (AInt64 (-1)) else
  code ← removeLock jobKey (key ks 11) (str (argv args 5)) jobId;
  if code <? 0 then mret (AInt64 code) else
  _ ← updateJobFields jobKey (str (argv args 6));
  n ← LREM_tail (key ks 1) jobId;
  if n <? 1 then mret (AInt64 (-3)) else
  p ← HGET jobKey "priority";
  _ ← (if tonumber p =? 0 then pushCmd (str (argv args 3)) (key ks 2) jobId
       else addJobWithPriority (key ks 8) (tonumber p) jobId (key ks 9));
  _ ← HINCRBY jobKey "atm";
  _ ← getOrSetMaxEvents (key ks 5);
  mret (AInt64 0).

(** [getDelayedScore]: the score and the time. *)
Definition getDelayedScore delayedKey (timestamp delay : Z) : Lua Z :=
  let at_ := if 0 <? delay then timestamp + delay else timestamp in
  let minScore := at_ * 0x1000 in
  let maxScore := (at_ + 1) * 0x1000 - 1 in
  top ← gets (λ st, last (snd <$> filter (λ x, minScore ≤ x.2 ≤ maxScore) (zsorted (zget delayedKey st))));
  mret match top with
  | Some s => if maxScore <=? s then maxScore else s + 1
  | None => minScore
  end.

Definition moveToDelayed (ks : list string) (args : list any) : Lua any :=
  let prefix := str (argv args 1) in
  let timestamp := default 0 (num (argv args 2)) in
  let jobId := str (argv args 3) in
  let jobKey := key ks 5 in
  ex ← HEXISTS jobKey;
  if negb ex then mret (AInt64 (-1)) else
  code ← removeLock jobKey (key ks 8) (str (argv args 4)) jobId;
  if code <? 0 then mret (AInt64 code) else
  _ ← updateJobFields jobKey (str (argv args 7));
  n ← LREM_tail (key ks 2) jobId;
  if n <? 1 then mret (AInt64 (-3)) else
  score ← getDelayedScore (key ks 4) timestamp (default 0 (num (argv args 5)));
  _ ← (if String.eqb (str (argv args 6)) "0" then _ ← HINCRBY jobKey "atm"; mret tt else mret tt);
  _ ← HMSET jobKey [("delay", str (argv args 5))];
  _ ← getOrSetMaxEvents (key ks 7);
  _ ← ZADD (key ks 4) score jobId;
  r ← (if String.eqb (str (argv args 8)) "1" then
         fetchNextJob (key ks 9) (key ks 2) (key ks 3) (key ks 10) (key ks 4) (key ks 7) (key ks 11)
           prefix timestamp (unpack (str (argv args 9)))
       else mret None);
  mret match r with Some (AArr (AArr h :: l)) => AArr (AArr h :: l) | _ => AInt64 0 end.

(** ** Adding jobs *)

(** The simple mode of [deduplicateJob]: the id of the job that suppresses this
    one, if there is one. *)
Definition deduplicateJob (de : any) jobId dedupKey prefix : Lua (option string) :=
  if truthy (field de "id") then
    cur ← gets (λ st, strs st !! dedupKey);
    match cur with
    | None => _ ← modify (with_strs (insert dedupKey jobId)); mret None
    | Some cur =>
        ex ← HEXISTS (prefix +:+ cur);
        if (o_pttl o =? -1) && negb ex then
          _ ← modify (with_strs (insert dedupKey jobId)); mret None
        else mret (Some cur)
    end
  else mret None.

Definition storeJob jobKey name data (opts : any) (timestamp : string) (rjk : any) : Lua (Z * Z) :=
  let delay := default 0 (num (field opts "delay")) in
  let priority := default 0 (num (field opts "priority")) in
  _ ← HMSET jobKey ([("name", name); ("data", data); ("opts", cjson opts); ("timestamp", timestamp);
        ("delay", FormatInt delay); ("priority", FormatInt priority)] ++
        (if truthy rjk then [("rjk", str rjk)] else []) ++
        (if truthy (field (field opts "de") "id") then [("deid", str (field (field opts "de") "id"))] else []));
  mret (delay, priority).

(** What the three add scripts share: the id, the duplicate checks, the HASH;
    [enqueue] puts the new job where the script puts it. *)
Definition addJob metaKey idKey (args : list any) (enqueue : string → any → Z → Z → Lua unit) : Lua (res any) :=
  let a i := match unpack (str (argv args 1)) with AArr l => argv l i | _ => ANil end in
  let opts := unpack (str (argv args 3)) in
  let prefix := str (a 1%nat) in
  counter ← INCR64 idKey;
  match counter with
  | None => mret (inl overflow)
  | Some counter =>
      _ ← getOrSetMaxEvents metaKey;
      let custom := str (a 2%nat) in
      let jobId := if String.eqb custom "" then FormatInt counter else custom in
      let jobKey := prefix +:+ jobId in
      ex ← (if String.eqb custom "" then mret false else HEXISTS jobKey);
      if (ex : bool) then mret (inr (AStr jobId)) else
      dup ← deduplicateJob (field opts "de") jobId (str (a 9%nat)) prefix;
      match dup with
      | Some cur => mret (inr (AStr cur))
      | None =>
          dp ← storeJob jobKey (str (a 3%nat)) (str (argv args 2)) opts (str (a 4%nat)) (a 8%nat);
          _ ← enqueue jobId opts (default 0 (num (a 4%nat))) (dp : Z * Z).1;
          mret (inr (AStr jobId))
      end
  end.

Definition addStandardJob (ks : list string) (args : list any) : Lua (res any) :=
  addJob (key ks 3) (key ks 4) args (λ jobId opts _ _,
    pushCmd (if truthy (field opts "lifo") then "RPUSH" else "LPUSH") (key ks 1) jobId).

Definition addDelayedJob (ks : list string) (args : list any) : Lua (res any) :=
  addJob (key ks 2) (key ks 3) args (λ jobId _ timestamp delay,
    score ← getDelayedScore (key ks 4) timestamp delay; ZADD (key ks 4) score jobId).

Definition addPrioritizedJob (ks : list string) (args : list any) : Lua (res any) :=
  addJob (key ks 2) (key ks 3) args (λ jobId opts _ _,
    addJobWithPriority (key ks 4) (default 0 (num (field opts "priority"))) jobId (key ks 9)).

(** [removeJob] of the includes: the deduplication key the job holds, and its HASH. *)
Definition dropJob prefix jobId : Lua unit :=
  deid ← HGET (prefix +:+ jobId) "deid";
  _ ← match deid with
      | Some d => modify (with_strs (λ m, if bool_decide (m !! (prefix +:+ "de:" +:+ d) = Some jobId)
                                          then delete (prefix +:+ "de:" +:+ d) m else m))
      | None => mret tt
      end;
  modify (hdel (prefix +:+ jobId)).

Fixpoint dropJobs prefix (jobs : list string) : Lua unit :=
  match jobs with [] => mret tt | j :: jobs => _ ← dropJob prefix j; dropJobs prefix jobs end.

(** ** Schedules *)

(** The id of the iteration of schedule [sid] in the slot [millis]. *)
Definition iteration (sid : string) (millis : Z) : string := "repeat:" +:+ sid +:+ ":" +:+ FormatInt millis.

(** [t[f] = x]. *)
Definition with_field (t : any) (f : string) (x : any) : any :=
  match t with AMap m => AMap (map_set m f x) | _ => t end.

(** [getJobSchedulerEveryNextMillis]: the next slot and the offset, for an
    interval that is positive. *)
Definition everyNextMillis (prev : option Z) (every now offset : Z) (startDate : option Z) : Z * Z :=
  let aligned := now / every * every + offset in
  let ahead := if aligned <=? now then aligned + every else aligned in
  let next := match prev with
    | None => match startDate with
              | Some s => Z.max s now
              | None => if 0 <? offset then ahead else now
              end
    | Some p => if p + every <? now then ahead else p + every
    end in
  (next, if offset =? 0 then next - next / every * every else offset).

Definition addJobFromScheduler (ks : list string) jobKey jobId name data (opts timestamp : any) sid (delay : Z)
    : Lua unit :=
  let opts := with_field (with_field opts "delay" (AInt64 delay)) "jobId" (AStr jobId) in
  dp ← storeJob jobKey name data opts (str timestamp) (AStr sid);
  if negb (delay =? 0) then
    score ← getDelayedScore (key ks 2) (default 0 (num timestamp)) delay; ZADD (key ks 2) score jobId
  else if 0 <? (dp : Z * Z).2 then addJobWithPriority (key ks 6) dp.2 jobId (key ks 10)
  else pushCmd (if truthy (field opts "lifo") then "RPUSH" else "LPUSH") (key ks 3) jobId.

(** The slot behind [prev]: computed for an interval, given for a pattern. *)
Definition slotBehind (every offset : option string) (opts : any) (prev now given : Z) : Z :=
  let every := match every with Some e => Some (parseInt e) | None => num (field (field opts "repeat") "every") end in
  let offset := match offset with
    | Some f => parseInt f | None => default 0 (num (field (field opts "repeat") "offset")) end in
  match every with Some e => (everyNextMillis (Some prev) e now offset None).1 | None => given end.

Definition updateJobScheduler (ks : list string) (args : list any) : Lua any :=
  let sid := str (argv args 2) in
  let opts := unpack (str (argv args 4)) in
  let now := default 0 (num (argv args 5)) in
  let schedulerKey := key ks 1 +:+ ":" +:+ sid in
  prev ← ZSCORE (key ks 1) sid;
  match prev with
  | None => mret ANil
  | Some prev =>
      name ← HGET schedulerKey "name";
      data ← HGET schedulerKey "data";
      every ← HGET schedulerKey "every";
      offset ← HGET schedulerKey "offset";
      let next := slotBehind every offset opts prev now (default 0 (num (argv args 1))) in
      if String.eqb (str (argv args 7)) (iteration sid prev) then
        _ ← getOrSetMaxEvents (key ks 5);
        let nextKey := schedulerKey +:+ ":" +:+ FormatInt next in
        ex ← HEXISTS nextKey;
        if (ex : bool) then mret ANil else
        _ ← ZADD (key ks 1) next sid;
        _ ← HINCRBY schedulerKey "ic";
        _ ← INCR (key ks 8);
        _ ← addJobFromScheduler ks nextKey (iteration sid next) (default "" name) (default "{}" data) opts
              (argv args 5) sid (Z.max 0 (next - now));
        mret (AStr (iteration sid next))
      else mret ANil
  end.

(** The current iteration, unless it runs or is finished; [true] if it is gone. *)
Definition removeJobFromScheduler (ks : list string) prefix jobId : Lua bool :=
  d ← ZSCORE (key ks 2) jobId;
  match d with
  | Some _ => _ ← dropJob prefix jobId; _ ← ZREM (key ks 2) jobId; mret true
  | None =>
      p ← ZSCORE (key ks 6) jobId;
      match p with
      | Some _ => _ ← dropJob prefix jobId; _ ← ZREM (key ks 6) jobId; mret true
      | None =>
          paused ← HGET (key ks 5) "paused";
          n ← LREM_head (match paused with Some _ => key ks 4 | None => key ks 3 end) jobId;
          if 0 <? n then _ ← dropJob prefix jobId; mret true else mret false
      end
  end.

Definition storeJobScheduler sid schedulerKey repeatKey (nextMillis : Z) (opts : any) data (templateOpts : any)
    : Lua unit :=
  let given f := if truthy (field opts f) then [(f, str (field opts f))] else [] in
  let json := cjson templateOpts in
  _ ← ZADD repeatKey nextMillis sid;
  offset ← HGET schedulerKey "offset";
  ic ← HGET schedulerKey "ic";
  _ ← modify (hdel schedulerKey);
  HMSET schedulerKey ([("name", str (field opts "name"))] ++
    given "tz" ++ given "limit" ++ given "pattern" ++ given "startDate" ++ given "endDate" ++ given "every" ++
    (if truthy (field opts "offset") then given "offset"
     else match offset with Some f => [("offset", f)] | None => [] end) ++
    (if String.eqb json "{}" then [] else [("opts", json)]) ++
    (if String.eqb data "{}" then [] else [("data", data)]) ++
    [("ic", default "1" ic)]).

(** The first of the next [n] slots after [next] whose job does not exist. *)
Fixpoint freeSlot (n : nat) prefix sid (every next : Z) : Lua (option Z) :=
  match n with
  | O => mret None
  | S n =>
      ex ← HEXISTS (prefix +:+ iteration sid (next + every));
      if (ex : bool) then freeSlot n prefix sid every (next + every) else mret (Some (next + every))
  end.

(** The slot, and whether a job is in it. *)
Definition chooseSlot prefix sid (every : option Z) (next : Z) : Lua (option (Z * bool)) :=
  ex ← HEXISTS (prefix +:+ iteration sid next);
  if negb ex then mret (Some (next, false))
  else match every with
  | Some e => s ← freeSlot 32 prefix sid e next; mret ((λ n, (n, false)) <$> s)
  | None => mret (Some (next, true))
  end.

(** Whether the schedule existed with another interval. *)
Definition everyUpdated (every prev : option Z) (prevEvery : option string) : bool :=
  match every, prev with
  | Some _, Some _ => negb (bool_decide ((parseInt <$> prevEvery) = every))
  | _, _ => false
  end.

(** The next slot and the offset: computed for an interval, given for a pattern. *)
Definition nextSlot (every prev : option Z) (now offset : Z) (startDate : option Z) (given : Z) : Z * Z :=
  match every with
  | Some e => everyNextMillis prev e now offset startDate
  | None => (given, offset)
  end.

Definition addJobScheduler (ks : list string) (args : list any) : Lua any :=
  let repeatKey := key ks 1 in
  let sid := str (argv args 3) in
  let data := str (argv args 4) in
  let now := default 0 (num (argv args 7)) in
  let prefix := str (argv args 8) in
  let opts := unpack (str (argv args 2)) in
  let jobOpts := unpack (str (argv args 6)) in
  let schedulerKey := repeatKey +:+ ":" +:+ sid in
  let every := num (field opts "every") in
  let offset := match num (field opts "offset") with
    | Some f => f | None => default 0 (num (field (field jobOpts "repeat") "offset")) end in
  _ ← getOrSetMaxEvents (key ks 5);
  prev ← ZSCORE repeatKey sid;
  prevEvery ← HGET schedulerKey "every";
  let updated := everyUpdated every prev prevEvery in
  let slot := nextSlot every (if updated then None else prev) now offset (num (field opts "startDate"))
                (default 0 (num (argv args 1))) in
  removedPrevJob ← match prev with
    | Some p =>
        ex ← HEXISTS (schedulerKey +:+ ":" +:+ FormatInt p);
        if (ex : bool) then removeJobFromScheduler ks prefix (iteration sid p) else mret false
    | None => mret false
    end;
  let next := match prev, every with
    | Some p, Some _ => if removedPrevJob && negb updated then p else slot.1 | _, _ => slot.1 end in
  let opts := if removedPrevJob : bool then opts else with_field opts "offset" (AInt64 slot.2) in
  chosen ← chooseSlot prefix sid every next;
  match chosen with
  | None => mret (AInt64 (-11))
  | Some (next, hasCollision) =>
      if negb hasCollision || removedPrevJob then
        _ ← storeJobScheduler sid schedulerKey repeatKey next opts data (unpack (str (argv args 5)));
        _ ← INCR (key ks 8);
        _ ← addJobFromScheduler ks (schedulerKey +:+ ":" +:+ FormatInt next) (iteration sid next)
              (str (field opts "name")) data jobOpts (argv args 7) sid (Z.max 0 (next - now));
        mret (AArr [AStr (iteration sid next); AInt64 (Z.max 0 (next - now))])
      else mret (AInt64 (-10))
  end.

(** ** Stalled jobs and locks *)

Fixpoint recover (jobs : list string) waitKey activeKey prefix repeatKey (maxStalled : Z) : Lua (list string) :=
  match jobs with
  | [] => mret []
  | jobId :: jobs =>
      let jobKey := prefix +:+ jobId in
      put_back ← (if legacy_marker jobId then _ ← LREM_head activeKey jobId; mret false
                  else
                    l ← gets (λ st, locks st !! lockKey jobKey);
                    match l with
                    | Some _ => mret false
                    | None => n ← LREM_head activeKey jobId; mret (0 <? n)
                    end);
      if (put_back : bool) then
        n ← HINCRBY jobKey "stc";
        rjk ← HGET jobKey "rjk";
        repeatable ← match rjk with
                     | None => mret false
                     | Some sid =>
                         ex ← HEXISTS (repeatKey +:+ ":" +:+ sid);
                         z ← ZSCORE repeatKey sid;
                         mret (ex || bool_decide (is_Some z))
                     end;
        _ ← (if (maxStalled <? n) && negb repeatable
             then HMSET jobKey [("defa", "job stalled more than allowable limit")] else mret tt);
        _ ← RPUSH waitKey jobId;
        rest ← recover jobs waitKey activeKey prefix repeatKey maxStalled;
        mret (jobId :: rest)
      else recover jobs waitKey activeKey prefix repeatKey maxStalled
  end.

Definition moveStalledJobsToWait (ks : list string) (args : list any) : Lua any :=
  chk ← gets (λ st, strs st !! key ks 4);
  match chk with
  | Some _ => mret (AArr [])
  | None =>
      _ ← modify (with_strs (insert (key ks 4) (str (argv args 3))));
      _ ← getOrSetMaxEvents (key ks 5);
      stalling ← gets (λ st, elements (default ∅ (sets st !! key ks 1)));
      _ ← modify (with_sets (delete (key ks 1)));
      moved ← recover stalling (key ks 2) (key ks 3) (str (argv args 2)) (key ks 9)
                (default 0 (num (argv args 1)));
      active ← gets (lget (key ks 3));
      _ ← modify (with_sets (λ m, <[key ks 1 := default ∅ (m !! key ks 1) ∪ list_to_set active]> m));
      mret (AArr (AStr <$> moved))
  end.

Definition extendLock (ks : list string) (args : list any) : Lua any :=
  t ← gets (λ st, locks st !! key ks 1);
  if bool_decide (t = Some (str (argv args 1))) then
    _ ← modify (with_sets (λ m, <[key ks 2 := default ∅ (m !! key ks 2) ∖ {[str (argv args 3)]}]> m));
    mret (AInt64 1)
  else mret (AInt64 0).

Definition releaseLock (ks : list string) (args : list any) : Lua any :=
  t ← gets (λ st, locks st !! key ks 1);
  if bool_decide (t = Some (str (argv args 1))) then
    _ ← modify (with_locks (delete (key ks 1))); mret (AInt64 1)
  else mret (AInt64 0).

(** ** Administration *)

Definition promote (ks : list string) (args : list any) : Lua any :=
  let jobId := str (argv args 2) in
  let jobKey := str (argv args 1) +:+ jobId in
  n ← ZREM (key ks 1) jobId;
  if n =? 1 then
    p ← HGET jobKey "priority";
    m ← gets (λ st, head (lget (key ks 2) st));
    _ ← match m with
        | Some m => if legacy_marker m then _ ← LREM_head (key ks 2) m; mret tt else mret tt
        | None => mret tt
        end;
    _ ← (if tonumber p =? 0 then LPUSH (key ks 2) jobId
         else addJobWithPriority (key ks 5) (tonumber p) jobId (key ks 7));
    _ ← HMSET jobKey [("delay", "0")];
    mret (AInt64 0)
  else mret (AInt64 (-3)).

Definition reprocessJob (ks : list string) (args : list any) : Lua any :=
  let jobId := str (argv args 1) in
  let jobKey := key ks 1 in
  ex ← HEXISTS jobKey;
  if negb ex then mret (AInt64 (-1)) else
  n ← ZREM (key ks 3) jobId;
  if n =? 1 then
    _ ← HDEL jobKey (["finishedOn"; "processedOn"; str (argv args 3)] ++
          (if String.eqb (str (argv args 5)) "1" then ["atm"] else []) ++
          (if String.eqb (str (argv args 6)) "1" then ["ats"] else []));
    p ← HGET jobKey "priority";
    _ ← (if tonumber p =? 0 then pushCmd (str (argv args 2)) (key ks 4) jobId
         else addJobWithPriority (key ks 8) (tonumber p) jobId (key ks 9));
    _ ← getOrSetMaxEvents (key ks 5);
    mret (AInt64 1)
  else mret (AInt64 (-3)).

(** [removeJobFromAnyState]. *)
Definition removeJobFromAnyState prefix jobId : Lua unit :=
  let z k rest := (n ← ZREM (prefix +:+ k) jobId; if n =? 1 then mret tt else rest) : Lua unit in
  let l k rest := (n ← LREM_head (prefix +:+ k) jobId; if n =? 1 then mret tt else rest) : Lua unit in
  z "completed" (z "delayed" (z "failed" (z "prioritized"
    (l "wait" (l "paused" (l "active" (mret tt))))))).

Definition removeJob (ks : list string) (args : list any) : Lua any :=
  let jobId := str (argv args 1) in
  let prefix := str (argv args 3) in
  rjk ← HGET (key ks 1) "rjk";
  z ← match rjk with Some s => ZSCORE (key ks 2) s | None => mret None end;
  let scheduled := match rjk, z with
    | Some s, Some m => String.eqb jobId ("repeat:" +:+ s +:+ ":" +:+ FormatInt m)
    | _, _ => false end in
  if scheduled then mret (AInt64 (-8)) else
  lk ← gets (λ st, locks st !! lockKey (prefix +:+ jobId));
  match lk with
  | Some _ => mret (AInt64 0)
  | None =>
      _ ← removeJobFromAnyState prefix jobId;
      _ ← dropJob prefix jobId;
      mret (AInt64 1)
  end.

(** [removeListJobs]: the jobs but those to ignore are deleted, and as many
    entries are cut off at the head of the list. *)
Definition removeListJobs k prefix (ignore : list string) : Lua unit :=
  jobs ← gets (λ st, filter (λ j, j ∉ ignore) (lget k st));
  _ ← dropJobs prefix jobs;
  modify (λ st, lset k (drop (length jobs) (lget k st)) st).

Definition removeZSetJobs k prefix (ignore : list string) : Lua unit :=
  jobs ← gets (λ st, filter (λ j, j ∉ ignore) (fst <$> zsorted (zget k st)));
  _ ← dropJobs prefix jobs;
  ZREM_all k jobs.

(** The ids of the current iterations of all schedules. *)
Definition currentIterations repeatKey (st : store) : list string :=
  (λ x, iteration x.1 x.2) <$> zsorted (zget repeatKey st).

Definition drain (ks : list string) (args : list any) : Lua any :=
  let prefix := str (argv args 1) in
  scheduled ← gets (currentIterations (key ks 5));
  _ ← removeListJobs (key ks 1) prefix scheduled;
  _ ← removeListJobs (key ks 2) prefix scheduled;
  _ ← (if String.eqb (str (argv args 2)) "1" then removeZSetJobs (key ks 3) prefix scheduled else mret tt);
  _ ← removeZSetJobs (key ks 4) prefix scheduled;
  mret ANil.

Definition pause (ks : list string) (args : list any) : Lua any :=
  if String.eqb (str (argv args 1)) "paused" then
    _ ← HMSET (key ks 3) [("paused", "1")]; mret (AInt64 0)
  else
    _ ← HDEL (key ks 3) ["paused"];
    src ← gets (lget (key ks 1));
    dst ← gets (lget (key ks 2));
    match src, dst with
    | [], _ => mret (AInt64 0)
    | _, [] => _ ← modify (lset (key ks 1) []); _ ← modify (lset (key ks 2) src); mret (AInt64 0)
    | _, _ =>
        _ ← modify (lset (key ks 2) (dst ++ take (Z.to_nat 7000) src));
        _ ← modify (lset (key ks 1) (drop (Z.to_nat 7000) src));
        mret (AInt64 (Z.of_nat (length (drop (Z.to_nat 7000) src))))
    end.

Definition updateData (ks : list string) (args : list any) : Lua any :=
  ex ← HEXISTS (key ks 1);
  if (ex : bool) then _ ← HMSET (key ks 1) [("data", str (argv args 1))]; mret (AInt64 0)
  else mret (AInt64 (-1)).

Definition updateProgress (ks : list string) (args : list any) : Lua any :=
  ex ← HEXISTS (key ks 1);
  if (ex : bool) then _ ← getOrSetMaxEvents (key ks 3); _ ← HMSET (key ks 1) [("progress", str (argv args 2))]; mret (AInt64 0)
  else mret (AInt64 (-1)).

(** The scripts by name. The ones that only read answer anything and change
    nothing; a script that returns nothing is the error [redis.Nil] to the client. *)
Definition script (n : ScriptName) (ks : list string) (args : list any) : Lua (res any) :=
  let ok m := v ← m; mret (inr v) in
  let nilable m := v ← m; mret (match v with ANil => inl (ESent RedisNil) | _ => inr v end) in
  match n with
  | AddStandardJob => addStandardJob ks args
  | AddDelayedJob => addDelayedJob ks args
  | AddPrioritizedJob => addPrioritizedJob ks args
  | MoveToActive => ok (moveToActive ks args)
  | MoveToFinished => ok (moveToFinished ks args)
  | ExtendLock => ok (extendLock ks args)
  | ReleaseLock => ok (releaseLock ks args)
  | RetryJob => ok (retryJob ks args)
  | MoveToDelayed => ok (moveToDelayed ks args)
  | MoveStalledJobsToWait => ok (moveStalledJobsToWait ks args)
  | AddJobScheduler => ok (addJobScheduler ks args)
  | UpdateJobScheduler => nilable (updateJobScheduler ks args)
  | UpdateProgress => ok (updateProgress ks args)
  | UpdateData => ok (updateData ks args)
  | RemoveJob => ok (removeJob ks args)
  | Promote => ok (promote ks args)
  | ReprocessJob => ok (reprocessJob ks args)
  | Pause => ok (pause ks args)
  | Drain => nilable (drain ks args)
  | AddLog | GetCounts | GetRanges | GetMetrics => mret (inr (o_reply o))
  end.
End scripts.
End lua.

(** ** A codec

    Any injective serialisation will do to run the scripts on; this one counts
    values as trees and writes the number in binary. *)

#[export] Instance float_eq_dec : EqDecision float64.
Proof. solve_decision. Defined.

#[export] Instance float_countable : Countable float64.
Proof.
  refine (inj_countable'
    (λ f : float64, match f with
      | S754_zero s => inl (inl s) | S754_infinity s => inl (inr s) | S754_nan => inr (inl tt)
      | S754_finite s m e => inr (inr (s, m, e)) end)
    (λ x : (bool + bool) + (unit + bool * positive * Z), match x with
      | inl (inl s) => S754_zero s | inl (inr s) => S754_infinity s | inr (inl _) => S754_nan
      | inr (inr (s, m, e)) => S754_finite s m e end) _).
  by intros [].
Defined.

Definition leaf : Type := string + Z + bool + float64.

Fixpoint to_tree (v : any) : gen_tree leaf :=
  match v with
  | ANil => GenNode 0 []
  | ABool x => GenNode 1 [GenLeaf (inl (inr x))]
  | AStr s => GenNode 2 [GenLeaf (inl (inl (inl s)))]
  | ABytes s => GenNode 3 [GenLeaf (inl (inl (inl s)))]
  | AInt64 z => GenNode 4 [GenLeaf (inl (inl (inr z)))]
  | AInt z => GenNode 5 [GenLeaf (inl (inl (inr z)))]
  | AInt32 z => GenNode 6 [GenLeaf (inl (inl (inr z)))]
  | AUint32 z => GenNode 7 [GenLeaf (inl (inl (inr z)))]
  | AFloat f => GenNode 8 [GenLeaf (inr f)]
  | AArr l => GenNode 9 (to_tree <$> l)
  | AMap m => GenNode 10 ((λ kv, GenNode 0 [GenLeaf (inl (inl (inl kv.1))); to_tree kv.2]) <$> m)
  | ANumber s => GenNode 11 [GenLeaf (inl (inl (inl s)))]
  end.

Fixpoint of_tree (t : gen_tree leaf) : any :=
  match t with
  | GenNode 1 [GenLeaf (inl (inr x))] => ABool x
  | GenNode 2 [GenLeaf (inl (inl (inl s)))] => AStr s
  | GenNode 3 [GenLeaf (inl (inl (inl s)))] => ABytes s
  | GenNode 4 [GenLeaf (inl (inl (inr z)))] => AInt64 z
  | GenNode 5 [GenLeaf (inl (inl (inr z)))] => AInt z
  | GenNode 6 [GenLeaf (inl (inl (inr z)))] => AInt32 z
  | GenNode 7 [GenLeaf (inl (inl (inr z)))] => AUint32 z
  | GenNode 8 [GenLeaf (inr f)] => AFloat f
  | GenNode 9 l => AArr (of_tree <$> l)
  | GenNode 10 l => AMap ((λ t, match t with GenNode _ [GenLeaf (inl (inl (inl k))); v] => (k, of_tree v) | _ => ("", ANil) end) <$> l)
  | GenNode 11 [GenLeaf (inl (inl (inl s)))] => ANumber s
  | _ => ANil
  end.

Lemma of_to_tree v : of_tree (to_tree v) = v.
Proof.
  induction v as [ |b|s|s|z|z|z|z|f|l IH|m IH|s] using any_ind_nested; try done; cbn; f_equal;
    rewrite <-list_fmap_compose.
  - rewrite <-(list_fmap_id l) at 2. by apply Forall_fmap_ext.
  - rewrite <-(list_fmap_id m) at 2. apply Forall_fmap_ext. eapply Forall_impl; [exact IH|]. intros [k v]. cbn. by intros ->.
Qed.

Fixpoint bits (p : positive) : string :=
  match p with xH => "" | xO p => String "0" (bits p) | xI p => String "1" (bits p) end.
Fixpoint unbits (s : string) : positive :=
  match s with EmptyString => xH | String c s => if Ascii.eqb c "0" then xO (unbits s) else xI (unbits s) end.

Lemma unbits_bits p : unbits (bits p) = p.
Proof. induction p as [p IH|p IH|]; cbn; congruence. Qed.

Definition treeMsgpack : Msgpack := {| msgpack_Marshal v := inr (bits (encode (to_tree v))) |}.

Definition treeCodec : Codec (H := treeMsgpack).
Proof.
  refine {| unpack s := match decode (unbits s) with Some t => lua_value (of_tree t) | None => ANil end |}.
  intros v b [= <-]. by rewrite unbits_bits, decode_encode, of_to_tree.
Defined.

(** A server on which nothing is stored, and answers that decide nothing. *)
Definition emptyStore : store := mkStore ∅ ∅ ∅ ∅ ∅ ∅ ∅.
Definition plainOracle : oracle := mkOracle (-2) 1000 ANil.
Definition sampleJson : any → string := λ _, "{}".
