(* ===== verification/RedisInv.v ===== *)
(** * What the scripts keep of a queue

    [inv]: every job of a queue is in exactly one place. The places are the
    lists wait, active and paused and the sorted sets delayed, prioritized,
    completed and failed; the jobs are the HASHes under the queue's prefix that
    carry a timestamp. The scripts take a job out of one place before they put
    it into another: [inv pend] is the invariant with the jobs [pend] in hand.

    The lemmas follow the commands ([hoare] triples over the [Lua] monad), and
    [script_inv] says that every script called with the KEYS and the ARGV its
    documentation asks for ([proper_call]) keeps the invariant. *)

From S2P Require Import Prelude GoLib Keys Backoff Effects Json Jobs Redis.
Import lua.

Fixpoint has_colon (s : string) : bool :=
  match s with EmptyString => false | String c s => Ascii.eqb c ":"%char || has_colon s end.

Lemma has_colon_app s t : has_colon (s +:+ t) = has_colon s || has_colon t.
Proof. induction s as [|c s IH]; cbn; [done|]. by rewrite IH, orb_assoc. Qed.

(** No job has the key of a schedule, whose id has no colon, or of a worker's
    wake-up set. *)
Definition unreserved (id : string) : Prop :=
  (∀ sid, id = "repeat:" +:+ sid → has_colon sid = true) ∧ ∀ u, id ≠ "mkq:wake:" +:+ u.

Lemma filter_all {A} (P : A → Prop) `{∀ x, Decision (P x)} (l : list A) : (∀ x, x ∈ l → P x) → filter P l = l.
Proof.
  induction l as [|x l IH]; intros Hl; [done|]. rewrite filter_cons_True by (apply Hl; by left).
  f_equal. apply IH. intros y Hy. apply Hl. by right.
Qed.

Section inv.
Variable b : keys.Builder.

Definition lplaces : list string := [keys.Wait b; keys.Active b; keys.Paused b].
Definition zplaces : list string :=
  [keys.Delayed b; keys.Prioritized b; keys.Completed b; keys.Failed b].

Definition members (k : string) (st : store) : list string := (map_to_list (zget k st)).*1.

(** The places one after the other. *)
Definition ids (st : store) : list string :=
  mjoin ((λ k, lget k st) <$> lplaces) ++ mjoin ((λ k, members k st) <$> zplaces).

Definition is_job (st : store) (id : string) : Prop :=
  is_Some (hgetall (keys.Job b id) st !! "timestamp").

Record inv (pend : list string) (st : store) : Prop := mkInv {
  inv_nodup : NoDup (pend ++ ids st);
  inv_jobs : ∀ id, id ∈ pend ++ ids st ↔ is_job st id;
  inv_counter : ∀ n, in64 n → is_job st (FormatInt n) → n ≤ default 0 (nums st !! keys.ID b);
  inv_marker : ∀ id, is_job st id → legacy_marker id = false;
  inv_nonneg : 0 ≤ default 0 (nums st !! keys.ID b);
  inv_reserved : ∀ id, is_job st id → unreserved id;
}.

(** ** Places *)

Lemma place_keys : NoDup (lplaces ++ zplaces ++ [keys.Repeat b]).
Proof.
  change (NoDup ((λ s, keys.Base b +:+ s) <$>
    ["wait"; "active"; "paused"; "delayed"; "prioritized"; "completed"; "failed"; "repeat"])).
  apply NoDup_app_prefix. apply (bool_decide_unpack _). by vm_compute.
Qed.

Lemma lget_lset k k' l st : lget k (lset k' l st) = if bool_decide (k' = k) then l else lget k st.
Proof.
  unfold lget, lset. cbn. rewrite lookup_insert. by repeat case_decide || case_bool_decide.
Qed.

Lemma zget_zset k k' z st : zget k (zset k' z st) = if bool_decide (k' = k) then z else zget k st.
Proof.
  unfold zget, zset. cbn. rewrite lookup_insert. by repeat case_decide || case_bool_decide.
Qed.

(** A family of disjoint pieces, one of which is replaced. *)
Lemma join_replace (f g : string → list string) ks k :
  NoDup ks → k ∈ ks → (∀ k', k' ≠ k → g k' = f k') →
  ∃ rest, mjoin (f <$> ks) ≡ₚ f k ++ rest ∧ mjoin (g <$> ks) ≡ₚ g k ++ rest.
Proof.
  intros Hnd Hk Hfg. induction ks as [|k' ks IH]; [by apply not_elem_of_nil in Hk|].
  apply NoDup_cons in Hnd as [Hni Hnd]. cbn. destruct (decide (k' = k)) as [->|Hne].
  - exists (mjoin (f <$> ks)). split; [done|]. f_equiv.
    assert (g <$> ks = f <$> ks) as ->; [|done]. apply list_fmap_ext. intros i k' Hi. apply Hfg.
    intros ->. apply Hni. by eapply list_elem_of_lookup_2.
  - apply elem_of_cons in Hk as [->|Hk]; [done|]. destruct (IH Hnd Hk) as (rest & H1 & H2).
    exists (f k' ++ rest). rewrite (Hfg k' Hne), H1, H2. split; by rewrite !(assoc_L (++)), (Permutation_app_comm (f k')).
Qed.

Lemma ids_lset k l st :
  k ∈ lplaces → ∃ rest, ids st ≡ₚ lget k st ++ rest ∧ ids (lset k l st) ≡ₚ l ++ rest.
Proof.
  intros Hk. pose proof place_keys as Hnd. apply NoDup_app in Hnd as [Hnd _].
  destruct (join_replace (λ k, lget k st) (λ k', lget k' (lset k l st)) lplaces k Hnd Hk) as (rest & H1 & H2).
  { intros k' Hne. rewrite lget_lset. by rewrite bool_decide_eq_false_2. }
  rewrite lget_lset, bool_decide_eq_true_2 in H2 by done.
  exists (rest ++ mjoin ((λ k, members k st) <$> zplaces)).
  unfold ids. change (λ k0, members k0 (lset k l st)) with (λ k0, members k0 st).
  by rewrite H1, H2, <-!(assoc_L (++)).
Qed.

Lemma ids_zset k z st :
  k ∈ zplaces → ∃ rest, ids st ≡ₚ members k st ++ rest ∧ ids (zset k z st) ≡ₚ (map_to_list z).*1 ++ rest.
Proof.
  intros Hk. pose proof place_keys as Hnd. apply NoDup_app in Hnd as (_ & _ & Hnd).
  apply NoDup_app in Hnd as [Hnd _].
  destruct (join_replace (λ k, members k st) (λ k', members k' (zset k z st)) zplaces k Hnd Hk) as (rest & H1 & H2).
  { intros k' Hne. unfold members. rewrite zget_zset. by rewrite bool_decide_eq_false_2. }
  unfold members in H2 at 2. rewrite zget_zset, bool_decide_eq_true_2 in H2 by done.
  exists (mjoin ((λ k, lget k st) <$> lplaces) ++ rest).
  unfold ids. change (λ k0, lget k0 (zset k z st)) with (λ k0, lget k0 st).
  rewrite H1, H2. split; by rewrite !(assoc_L (++)), (Permutation_app_comm (mjoin _)).
Qed.

Lemma elem_of_members k st x : x ∈ members k st ↔ is_Some (zget k st !! x).
Proof.
  unfold members. rewrite list_elem_of_fmap. split.
  - intros ([y s] & -> & H%elem_of_map_to_list). by exists s.
  - intros [s H]. exists (x, s). by rewrite elem_of_map_to_list.
Qed.

Lemma ids_place k st x : k ∈ lplaces → x ∈ lget k st → x ∈ ids st.
Proof. intros Hk Hx. destruct (ids_lset k [] st Hk) as (rest & H & _). rewrite H. set_solver. Qed.

Lemma ids_member k st x : k ∈ zplaces → is_Some (zget k st !! x) → x ∈ ids st.
Proof.
  intros Hk Hx. destruct (ids_zset k ∅ st Hk) as (rest & H & _). rewrite H.
  apply elem_of_app. left. by apply elem_of_members.
Qed.

(** ** Moves *)

(** The same jobs, perhaps in other places, and a counter that only grew. *)
Lemma inv_via pend pend' st st' :
  inv pend st → pend ++ ids st ≡ₚ pend' ++ ids st' → (∀ id, is_job st' id ↔ is_job st id) →
  default 0 (nums st !! keys.ID b) ≤ default 0 (nums st' !! keys.ID b) → inv pend' st'.
Proof.
  intros [Hnd Hj Hc Hm Hz Ht] Hp Hjob Hn. split; [..|lia|].
  - by rewrite <-Hp.
  - intros id. by rewrite <-Hp, Hj, Hjob.
  - intros n Hn'. rewrite Hjob. intros H%Hc; [lia|done].
  - intros id. rewrite Hjob. apply Hm.
  - intros id. rewrite Hjob. apply Ht.
Qed.

(** Some jobs left their places and are no jobs any more. *)
Lemma inv_wipe pend st st' jobs :
  inv pend st → ids st ≡ₚ jobs ++ ids st' → (∀ id, is_job st' id ↔ is_job st id ∧ id ∉ jobs) →
  nums st' = nums st → inv pend st'.
Proof.
  intros [Hnd Hj Hc Hm Hz Ht] Hp Hjob Hn. rewrite Hp in Hnd.
  assert (Hnd' : NoDup (jobs ++ pend ++ ids st')) by (by rewrite (assoc_L (++)), (Permutation_app_comm jobs), <-(assoc_L (++))).
  apply NoDup_app in Hnd' as (_ & Hdis & Hnd'). split; [done | | | |by rewrite Hn|].
  - intros id. rewrite Hjob, <-Hj, Hp, !elem_of_app. specialize (Hdis id). rewrite elem_of_app in Hdis. tauto.
  - intros n Hin [Hs _]%Hjob. rewrite Hn. by apply Hc.
  - intros id [Hs _]%Hjob. by apply Hm.
  - intros id [Hs _]%Hjob. by apply Ht.
Qed.

Lemma inv_places pend pend' st st' :
  inv pend st → pend ++ ids st ≡ₚ pend' ++ ids st' → hashes st' = hashes st → nums st' = nums st →
  inv pend' st'.
Proof.
  intros Hi Hp Hh Hn. eapply inv_via; [exact Hi | done | | by rewrite Hn].
  intros id. unfold is_job, hgetall. by rewrite Hh.
Qed.

Lemma inv_perm pend pend' st : pend ≡ₚ pend' → inv pend st → inv pend' st.
Proof. intros Hp Hi. by eapply inv_places; [exact Hi | rewrite Hp | |]. Qed.

Lemma inv_lput pend st k l x :
  inv (x :: pend) st → k ∈ lplaces → l ≡ₚ x :: lget k st → inv pend (lset k l st).
Proof.
  intros Hi Hk Hl. eapply inv_places; [exact Hi | | done | done].
  destruct (ids_lset k l st Hk) as (rest & H1 & H2). rewrite H1, H2, Hl. solve_Permutation.
Qed.

Lemma inv_ltake pend st k l x :
  inv pend st → k ∈ lplaces → lget k st ≡ₚ x :: l → inv (x :: pend) (lset k l st).
Proof.
  intros Hi Hk Hl. eapply inv_places; [exact Hi | | done | done].
  destruct (ids_lset k l st Hk) as (rest & H1 & H2). rewrite H1, H2, Hl. solve_Permutation.
Qed.

Lemma inv_zput pend st k x s :
  inv (x :: pend) st → k ∈ zplaces → inv pend (zset k (<[x := s]> (zget k st)) st).
Proof.
  intros Hi Hk. assert (zget k st !! x = None) as Hx.
  { apply eq_None_not_Some. intros Hs. pose proof (inv_nodup _ _ Hi) as Hnd.
    apply (ids_member k) in Hs; [|done]. apply NoDup_cons in Hnd as [Hni _]. apply Hni. set_solver. }
  eapply inv_places; [exact Hi | | done | done].
  destruct (ids_zset k (<[x := s]> (zget k st)) st Hk) as (rest & H1 & H2).
  rewrite H1, H2, map_to_list_insert by done. cbn. unfold members. solve_Permutation.
Qed.

Lemma inv_ztake pend st k x :
  inv pend st → k ∈ zplaces → is_Some (zget k st !! x) →
  inv (x :: pend) (zset k (delete x (zget k st)) st).
Proof.
  intros Hi Hk [s Hs]. eapply inv_places; [exact Hi | | done | done].
  destruct (ids_zset k (delete x (zget k st)) st Hk) as (rest & H1 & H2).
  rewrite H1, H2. unfold members. rewrite <-(map_to_list_delete _ _ _ Hs). cbn. solve_Permutation.
Qed.

(** ** Jobs *)

Lemma Job_inj x y : keys.Job b x = keys.Job b y → x = y.
Proof. apply sapp_inv_head. Qed.

Lemma hgetall_hset k k' h st : hgetall k (hset k' h st) = if bool_decide (k' = k) then h else hgetall k st.
Proof.
  unfold hgetall, hset. cbn. case_bool_decide as Hh.
  - rewrite lookup_delete. repeat case_decide || case_bool_decide; subst; done.
  - rewrite lookup_insert. by repeat case_decide || case_bool_decide.
Qed.

Lemma hgetall_hdel k k' st : hgetall k (hdel k' st) = if bool_decide (k' = k) then ∅ else hgetall k st.
Proof.
  unfold hgetall, hdel. cbn. rewrite lookup_delete. by repeat case_decide || case_bool_decide.
Qed.

(** HASH writes that neither make nor unmake a job. *)
Lemma inv_hset pend st k h :
  inv pend st → (is_Some (h !! "timestamp") ↔ is_Some (hgetall k st !! "timestamp")) → inv pend (hset k h st).
Proof.
  intros Hi Hh. eapply inv_via; [exact Hi | done | | done].
  intros id. unfold is_job. rewrite hgetall_hset. case_bool_decide; subst; done.
Qed.

Lemma inv_new pend st id h :
  inv pend st → ¬ is_job st id → is_Some (h !! "timestamp") → legacy_marker id = false →
  (∀ n, in64 n → id = FormatInt n → n ≤ default 0 (nums st !! keys.ID b)) → unreserved id →
  inv (id :: pend) (hset (keys.Job b id) h st).
Proof.
  intros [Hnd Hj Hc Hm Hz Ht] Hnew Hh Hleg Hnum Htm.
  assert (∀ x, is_job (hset (keys.Job b id) h st) x ↔ x = id ∨ is_job st x) as Hjob.
  { intros x. unfold is_job. rewrite hgetall_hset. case_bool_decide as E.
    - apply Job_inj in E as ->. tauto.
    - split; [by right|]. intros [->|?]; done. }
  split; [..|done|].
  - apply NoDup_cons. split; [|done]. by intros ?%Hj.
  - intros x. rewrite Hjob, <-Hj. cbn. apply elem_of_cons.
  - intros n Hn. rewrite Hjob. intros [E|?]; [by apply Hnum | by apply Hc].
  - intros x. rewrite Hjob. intros [->|?]; [done | by apply Hm].
  - intros x. rewrite Hjob. intros [->|?]; [done | by apply Ht].
Qed.

Lemma inv_drop pend st id : inv (id :: pend) st → inv pend (hdel (keys.Job b id) st).
Proof.
  intros [Hnd Hj Hc Hm Hz Ht]. apply NoDup_cons in Hnd as [Hni Hnd].
  assert (∀ x, is_job (hdel (keys.Job b id) st) x ↔ x ≠ id ∧ is_job st x) as Hjob.
  { intros x. unfold is_job. rewrite hgetall_hdel. case_bool_decide as E.
    - apply Job_inj in E as ->. rewrite lookup_empty. split; [by intros [] | by intros []].
    - split; [|tauto]. intros Hx. split; [by intros ->|done]. }
  split; [done | | | |done|].
  - intros x. rewrite Hjob, <-Hj. cbn. rewrite elem_of_cons. split; [|tauto].
    intros Hx. split; [by intros ->|by right].
  - intros n Hn. rewrite Hjob. intros [_ ?]. by apply Hc.
  - intros x. rewrite Hjob. intros [_ ?]. by apply Hm.
  - intros x. rewrite Hjob. intros [_ ?]. by apply Ht.
Qed.

Lemma inv_hdel_other pend st id : inv pend st → ¬ is_job st id → inv pend (hdel (keys.Job b id) st).
Proof.
  intros Hi Hn. eapply inv_via; [exact Hi | done | | done].
  intros x. unfold is_job. rewrite hgetall_hdel. case_bool_decide as E; [|done].
  apply Job_inj in E as ->. rewrite lookup_empty. split; [by intros [] | done].
Qed.

(** ** Triples *)

Definition hoare {A} (P : store → Prop) (m : Lua A) (Q : A → store → Prop) : Prop :=
  ∀ st, P st → Q (m st).1.1 (m st).1.2.

Lemma hoare_ret {A} (P : store → Prop) (a : A) (Q : A → store → Prop) :
  (∀ st, P st → Q a st) → hoare P (mret a) Q.
Proof. done. Qed.

Lemma hoare_bind {A B} P (m : Lua A) (f : A → Lua B) R Q :
  hoare P m R → (∀ a, hoare (R a) (f a) Q) → hoare P (m ≫= f) Q.
Proof.
  intros Hm Hf st HP. specialize (Hm st HP). unfold mbind, Lua_bind.
  destruct (m st) as [[a st1] l1]. cbn in Hm. specialize (Hf a st1 Hm).
  destruct (f a st1) as [[c st2] l2]. exact Hf.
Qed.

(** A step that keeps what holds. *)
Lemma hoare_keep {A B} P (m : Lua A) (f : A → Lua B) Q :
  hoare P m (λ _, P) → (∀ a, hoare P (f a) Q) → hoare P (m ≫= f) Q.
Proof. apply hoare_bind. Qed.

Lemma hoare_conseq {A} (P P' : store → Prop) (m : Lua A) (Q Q' : A → store → Prop) :
  (∀ st, P' st → P st) → (∀ a st, Q a st → Q' a st) → hoare P m Q → hoare P' m Q'.
Proof. intros HP HQ Hm st H. apply HQ, Hm, HP, H. Qed.

Lemma hoare_gets {A} P (f : store → A) : hoare P (gets f) (λ a st, P st ∧ a = f st).
Proof. intros st HP. done. Qed.

(** A read whose value does not matter. *)
Lemma hoare_read {A} P (f : store → A) : hoare P (gets f) (λ _ st, P st).
Proof. intros st HP. done. Qed.

Lemma hoare_modify P f (Q : unit → store → Prop) : (∀ st, P st → Q tt (f st)) → hoare P (modify f) Q.
Proof. intros Hf st HP. by apply Hf. Qed.

Lemma hoare_emit P e : hoare P (emit e) (λ _, P).
Proof. intros st HP. done. Qed.

Lemma hoare_pure {A} (φ : Prop) P (m : Lua A) Q :
  (φ → hoare P m Q) → hoare (λ st, φ ∧ P st) m Q.
Proof. intros Hm st [Hφ HP]. by apply Hm. Qed.

Lemma hoare_known {A B} P (a : A) (f : A → Lua B) Q : hoare P (f a) Q → hoare P (mret a ≫= f) Q.
Proof. intros Hf st HP. specialize (Hf st HP). unfold mbind, Lua_bind. cbn. by destruct (f a st) as [[c st2] l2]. Qed.

(** Name the state. *)
Lemma hoare_at {A} P (m : Lua A) Q : (∀ st0, P st0 → hoare (λ st, st = st0) m Q) → hoare P m Q.
Proof. intros Hm st HP. by apply (Hm st HP). Qed.

Lemma hoare_or {A} P1 P2 (m : Lua A) Q :
  hoare P1 m Q → hoare P2 m Q → hoare (λ st, P1 st ∨ P2 st) m Q.
Proof. intros H1 H2 st [HP|HP]; [by apply H1 | by apply H2]. Qed.

(** ** Commands *)

Lemma inv_locks pend f st : inv pend st → inv pend (with_locks f st).
Proof. intros Hi. by eapply inv_places. Qed.
Lemma inv_strs pend f st : inv pend st → inv pend (with_strs f st).
Proof. intros Hi. by eapply inv_places. Qed.
Lemma inv_sets pend f st : inv pend st → inv pend (with_sets f st).
Proof. intros Hi. by eapply inv_places. Qed.
Lemma inv_nums pend f st :
  inv pend st → f (nums st) !! keys.ID b = nums st !! keys.ID b → inv pend (with_nums f st).
Proof. intros Hi Hf. eapply inv_via; [exact Hi | done | done | cbn; by rewrite Hf]. Qed.

Lemma hoare_LPUSH pend k x : k ∈ lplaces → hoare (inv (x :: pend)) (LPUSH k x) (λ _, inv pend).
Proof. intros Hk. apply hoare_modify. intros st Hi. by apply inv_lput with x. Qed.

Lemma hoare_RPUSH pend k x : k ∈ lplaces → hoare (inv (x :: pend)) (RPUSH k x) (λ _, inv pend).
Proof.
  intros Hk. apply hoare_modify. intros st Hi. apply inv_lput with x; [done..|].
  by rewrite Permutation_app_comm.
Qed.

Lemma hoare_pushCmd pend c k x : k ∈ lplaces → hoare (inv (x :: pend)) (pushCmd c k x) (λ _, inv pend).
Proof. intros Hk. unfold pushCmd. destruct (String.eqb c "RPUSH"); [by apply hoare_RPUSH | by apply hoare_LPUSH]. Qed.

Lemma hoare_ZADD pend k s x : k ∈ zplaces → hoare (inv (x :: pend)) (ZADD k s x) (λ _, inv pend).
Proof. intros Hk. apply hoare_modify. intros st Hi. by apply inv_zput. Qed.

(** A removal either took the job in hand or found nothing. *)
Definition removed (pend : list string) (x : string) (absent : store → Prop) (n : Z) (st : store) : Prop :=
  (n = 1 ∧ inv (x :: pend) st) ∨ (n = 0 ∧ inv pend st ∧ absent st).

Lemma remove_first_perm x l : x ∈ l → l ≡ₚ x :: remove_first x l.
Proof.
  induction l as [|y l IH]; intros Hx; [by apply not_elem_of_nil in Hx|]. cbn.
  destruct (String.eqb_spec x y) as [->|Hne]; [done|].
  apply elem_of_cons in Hx as [->|Hx]; [done|]. rewrite (IH Hx) at 1. solve_Permutation.
Qed.

Lemma hoare_LREM_head pend k x :
  k ∈ lplaces → hoare (inv pend) (LREM_head k x) (removed pend x (λ st, x ∉ lget k st)).
Proof.
  intros Hk st Hi. unfold LREM_head. case_bool_decide as Hx; cbn; [left | right; done].
  split; [done|]. apply inv_ltake; [done..|]. by apply remove_first_perm.
Qed.

Lemma hoare_LREM_tail pend k x :
  k ∈ lplaces → hoare (inv pend) (LREM_tail k x) (removed pend x (λ st, x ∉ lget k st)).
Proof.
  intros Hk st Hi. unfold LREM_tail. case_bool_decide as Hx; cbn; [left | right; done].
  split; [done|]. apply inv_ltake; [done..|]. rewrite <-!Permutation_rev.
  rewrite <-remove_first_perm; [by rewrite <-Permutation_rev|]. by rewrite <-Permutation_rev.
Qed.

Lemma hoare_ZREM pend k x :
  k ∈ zplaces → hoare (inv pend) (ZREM k x) (removed pend x (λ st, zget k st !! x = None)).
Proof.
  intros Hk st Hi. unfold ZREM. case_bool_decide as Hx; cbn; [left | right].
  - split; [done|]. by apply inv_ztake.
  - split_and!; [done..|]. by apply eq_None_not_Some.
Qed.

(** The job a command hands out is a job. *)
Definition handed (pend : list string) (r : option string) (st : store) : Prop :=
  inv pend st ∧ ∀ j, r = Some j → is_job st j.

Lemma handed_in pend st k j : inv pend st → k ∈ lplaces → j ∈ lget k st → handed pend (Some j) st.
Proof.
  intros Hi Hk Hj. split; [done|]. intros ? [= <-]. apply (inv_jobs _ _ Hi).
  apply elem_of_app. right. by eapply ids_place.
Qed.

Lemma take_last (l : list string) x : last l = Some x → l = take (length l - 1) l ++ [x].
Proof.
  intros [l' ->]%last_Some. rewrite length_app. cbn. by rewrite Nat.add_sub, take_app_length.
Qed.

Lemma hoare_RPOPLPUSH pend src dst :
  src ∈ lplaces → dst ∈ lplaces → hoare (inv pend) (RPOPLPUSH src dst) (handed pend).
Proof.
  intros Hs Hd st Hi. unfold RPOPLPUSH. destruct (last (lget src st)) as [x|] eqn:E; cbn; [|done].
  set (st1 := lset src _ st).
  assert (H1 : inv (x :: pend) st1).
  { apply inv_ltake; [done..|]. rewrite (take_last _ _ E) at 1. by rewrite Permutation_app_comm. }
  eapply handed_in; [by eapply inv_lput | exact Hd |]. rewrite lget_lset, bool_decide_eq_true_2 by done. by left.
Qed.

Lemma zsorted_perm z : (zsorted z).*1 ≡ₚ (map_to_list z).*1.
Proof. unfold zsorted. by rewrite merge_sort_Permutation. Qed.

Lemma zsorted_member z x s : (x, s) ∈ zsorted z → is_Some (z !! x).
Proof. unfold zsorted. rewrite merge_sort_Permutation, elem_of_map_to_list. eauto. Qed.

(** A field that neither makes a job nor limits the rate of a queue. *)
Definition ordinary (f : string) : Prop := f ≠ "timestamp" ∧ f ≠ "max".
Definition unstamped (kvs : list (string * string)) : Prop := Forall (λ kv, ordinary kv.1) kvs.

Lemma hmset_stamp kvs (h : gmap string string) :
  unstamped kvs → foldl (λ h kv, <[kv.1 := kv.2]> h) h kvs !! "timestamp" = h !! "timestamp".
Proof.
  revert h. induction kvs as [|[f v] kvs IH]; intros h Hu; [done|].
  apply Forall_cons in Hu as [[Hf _] Hu]. cbn in *. rewrite IH by done. by apply lookup_insert_ne.
Qed.

Lemma hoare_HMSET pend k kvs : unstamped kvs → hoare (inv pend) (HMSET k kvs) (λ _, inv pend).
Proof. intros Hu. apply hoare_modify. intros st Hi. apply inv_hset; [done|]. by rewrite hmset_stamp. Qed.

Lemma hoare_HINCRBY pend k f : f ≠ "timestamp" → hoare (inv pend) (HINCRBY k f) (λ _, inv pend).
Proof. intros Hf st Hi. cbn. apply inv_hset; [done|]. by rewrite lookup_insert_ne. Qed.

Lemma hdel_stamp fs (h : gmap string string) :
  "timestamp" ∉ fs → foldl (λ h f, delete f h) h fs !! "timestamp" = h !! "timestamp".
Proof.
  revert h. induction fs as [|f fs IH]; intros h Hu; [done|]. apply not_elem_of_cons in Hu as [Hne Hu]. cbn.
  rewrite IH by done. by apply lookup_delete_ne.
Qed.

Lemma hoare_HDEL pend k fs : "timestamp" ∉ fs → hoare (inv pend) (HDEL k fs) (λ _, inv pend).
Proof. intros Hu. apply hoare_modify. intros st Hi. apply inv_hset; [done|]. by rewrite hdel_stamp. Qed.

Lemma hoare_INCR pend k : hoare (inv pend) (INCR k) (λ _, inv pend).
Proof.
  intros st Hi. cbn. eapply inv_via; [exact Hi | done | done |]. cbn. rewrite lookup_insert.
  case_decide; subst; cbn; lia.
Qed.

Lemma hoare_nums_delete pend k : k ≠ keys.ID b → hoare (inv pend) (modify (with_nums (delete k))) (λ _, inv pend).
Proof.
  intros Hk. apply hoare_modify. intros st Hi. apply inv_nums; [done|]. by rewrite lookup_delete_ne.
Qed.

Lemma hoare_removed {A} pend x absent n (m : Lua A) Q :
  (n = 1 → hoare (inv (x :: pend)) m Q) → (n = 0 → hoare (inv pend) m Q) →
  hoare (removed pend x absent n) m Q.
Proof. intros H1 H0 st [[Hn Hi]|(Hn & Hi & _)]; [by apply H1 | by apply H0]. Qed.

Lemma hoare_branch {A} (c : bool) P (m1 m2 : Lua A) Q :
  hoare P m1 Q → hoare P m2 Q → hoare P (if c then m1 else m2) Q.
Proof. by destruct c. Qed.

(** Forget what a precondition says beyond the invariant. *)
Lemma hoare_weaken {A} (P P' : store → Prop) (m : Lua A) Q : (∀ st, P' st → P st) → hoare P m Q → hoare P' m Q.
Proof. intros HP. by apply hoare_conseq. Qed.
End inv.

Create HintDb lua.
#[export] Hint Resolve hoare_read hoare_emit hoare_LPUSH hoare_RPUSH hoare_pushCmd hoare_ZADD hoare_HMSET
  hoare_HINCRBY hoare_HDEL hoare_INCR hoare_nums_delete : lua.
#[export] Hint Extern 1 (_ ∈ lplaces _) => (repeat constructor) : lua.
#[export] Hint Extern 1 (_ ∈ zplaces _) => (repeat constructor) : lua.
#[export] Hint Extern 1 (unstamped _) => (repeat constructor; cbn; done) : lua.
#[export] Hint Extern 1 (_ ≠ _) => done : lua.

(** Advance through the next command, read or return. *)
Ltac lua_rule := first
  [ apply hoare_read | apply hoare_emit | solve [eauto 2 with lua]
  | apply hoare_modify; intros ? ?; first [by apply inv_locks | by apply inv_strs | by apply inv_sets] ].
Ltac lua_step :=
  lazymatch goal with
  | |- hoare _ (mret _) _ => apply hoare_ret; intros ? ?
  | |- hoare _ (_ ≫= _) _ =>
      first [ apply hoare_keep; [solve [lua_rule] | intros ?; cbn beta]
            | eapply hoare_bind; [lua_rule | intros ?; cbn beta] ]
  | |- hoare _ (match ?x with _ => _ end) _ => destruct x
  end.

(** The KEYS a call has to have, by position. *)
Definition keyed (ks : list string) (spec : list (nat * string)) : Prop := Forall (λ p, key ks p.1 = p.2) spec.

Lemma keyed_take n ks l : keyed ks l → keyed ks (take n l).
Proof. apply Forall_take. Qed.

Ltac use_keys H :=
  cbv zeta; repeat (let E := fresh "E" in apply Forall_cons in H as [E H]; cbn [fst snd] in E); clear H;
  repeat match goal with E : key _ _ = _ |- _ => rewrite ?E; clear E end.

Section scripts_inv.
Context `{Codec}.
Variable o : oracle.
Variable b : keys.Builder.
Implicit Types pend : list string.

Lemma ID_fresh : keys.Limiter b ≠ keys.ID b ∧ keys.PriorityCounter b ≠ keys.ID b.
Proof. split; intros E%sapp_inv_head; done. Qed.

Lemma hoare_maxEvents pend k : hoare (inv b pend) (getOrSetMaxEvents k) (λ _, inv b pend).
Proof. unfold getOrSetMaxEvents. lua_step. lua_step; [by lua_step | lua_rule]. Qed.

Lemma hoare_addJobWithPriority pend k p x pc :
  k ∈ zplaces b → hoare (inv b (x :: pend)) (addJobWithPriority k p x pc) (λ _, inv b pend).
Proof.
  intros Hk. unfold addJobWithPriority, getPriorityScore. apply hoare_keep.
  - apply hoare_keep; [apply hoare_INCR|]. intros c. by apply hoare_ret.
  - intros s. by apply hoare_ZADD.
Qed.
Hint Resolve hoare_maxEvents hoare_addJobWithPriority : lua.

(** Put a job in hand where its priority says. *)
Lemma hoare_requeue pend (c : bool) cmd wait prio p x pc :
  wait ∈ lplaces b → prio ∈ zplaces b →
  hoare (inv b (x :: pend)) (if c then pushCmd cmd wait x else addJobWithPriority prio p x pc) (λ _, inv b pend).
Proof. intros Hw Hp. destruct c; lua_rule. Qed.

Lemma hoare_promote_each pend jobs wait prio prefix pc :
  wait ∈ lplaces b → prio ∈ zplaces b →
  hoare (inv b (jobs ++ pend)) (promote_each jobs wait prio prefix pc) (λ _, inv b pend).
Proof.
  intros Hw Hp. induction jobs as [|j jobs IH]; cbn [promote_each app]; [by lua_step|].
  lua_step. eapply hoare_bind; [apply (hoare_requeue _ _ "LPUSH"); done|]. intros []. by lua_step.
Qed.

(** A sorted set emptied of some of its members, each then dealt with by [k]. *)
Definition listed (key : string) (jobs : list string) (st : store) : Prop :=
  NoDup jobs ∧ Forall (λ j, is_Some (zget key st !! j)) jobs.

Lemma listed_rest key j jobs st z :
  listed key (j :: jobs) st → z = delete j (zget key st) → ∀ st', zget key st' = z → listed key jobs st'.
Proof.
  intros [[Hni Hnd]%NoDup_cons [_ Hall]%Forall_cons] -> st' E. split; [done|]. rewrite E.
  rewrite Forall_forall in *. intros x Hx. rewrite lookup_delete_ne; [by apply Hall|]. by intros ->.
Qed.

Lemma hoare_ZREM_all pend key jobs :
  key ∈ zplaces b →
  hoare (λ st, inv b pend st ∧ listed key jobs st) (ZREM_all key jobs) (λ _, inv b (jobs ++ pend)).
Proof.
  intros Hk. revert pend. induction jobs as [|j jobs IH]; intros pend; cbn [ZREM_all].
  { apply hoare_ret. by intros st [Hi _]. }
  eapply hoare_bind with (R := λ _ st, inv b (j :: pend) st ∧ listed key jobs st).
  - intros st [Hi Hl]. pose proof Hl as [_ [Hj _]%Forall_cons].
    unfold ZREM. rewrite bool_decide_eq_true_2 by done. cbn. split; [by apply inv_ztake|].
    eapply listed_rest; [exact Hl | done |]. by rewrite zget_zset, bool_decide_eq_true_2.
  - intros n. eapply hoare_conseq; [| | apply IH]; cbn beta; [done|]. intros _ st. apply inv_perm. cbn. solve_Permutation.
Qed.

Lemma listed_all key st : listed key (zsorted (zget key st)).*1 st.
Proof.
  split; [rewrite zsorted_perm; apply NoDup_fst_map_to_list|].
  apply Forall_fmap, Forall_forall. intros [x s] Hx. by eapply zsorted_member.
Qed.

Lemma listed_sub key jobs jobs' st : jobs' ⊆+ jobs → listed key jobs st → listed key jobs' st.
Proof.
  intros [rest Hp]%submseteq_Permutation [Hnd Hall]. rewrite Hp in Hnd, Hall. split.
  - by apply NoDup_app in Hnd as [? _].
  - by apply Forall_app in Hall as [? _].
Qed.

Lemma listed_filter key (P : string * Z → Prop) `{∀ x, Decision (P x)} st :
  listed key (filter P (zsorted (zget key st))).*1 st.
Proof. eapply listed_sub; [|apply listed_all]. apply sublist_submseteq. by rewrite sublist_filter. Qed.

Lemma hoare_promoteDelayedJobs pend delayed wait prio prefix ts pc :
  delayed ∈ zplaces b → wait ∈ lplaces b → prio ∈ zplaces b →
  hoare (inv b pend) (promoteDelayedJobs delayed wait prio prefix ts pc) (λ _, inv b pend).
Proof.
  intros Hd Hw Hp. unfold promoteDelayedJobs.
  eapply hoare_bind; [apply hoare_gets|]. intros jobs. cbn beta.
  eapply hoare_bind with (R := λ _, inv b (jobs ++ pend)); [|intros []; by apply hoare_promote_each].
  eapply hoare_weaken; [|by apply hoare_ZREM_all]. intros st [Hi ->]. split; [done|].
  eapply listed_sub; [apply submseteq_take|]. apply listed_filter.
Qed.
Hint Resolve hoare_promoteDelayedJobs : lua.

(** ** Taking a job *)

Lemma hoare_rateLimit pend max : hoare (inv b pend) (getRateLimitTTL o max (keys.Limiter b)) (λ _, inv b pend).
Proof.
  unfold getRateLimitTTL. destruct max as [m|]; [|by lua_step]. lua_step. destruct (m <=? _); [|by lua_step].
  apply hoare_keep; [|intros; by lua_step]. destruct (o_window o =? 0); [|by lua_step].
  apply hoare_nums_delete, ID_fresh.
Qed.

Lemma hoare_admit pend meta prefix ts opts :
  hoare (inv b pend) (admission o meta (keys.Active b) (keys.Delayed b) (keys.Wait b) (keys.Prioritized b) prefix ts
    (keys.PriorityCounter b) (keys.Limiter b) opts) (λ _, inv b pend).
Proof.
  unfold admission, isQueuePausedOrMaxed. apply hoare_keep; [repeat lua_step; done|]. intros stopped.
  lua_step. lua_step. apply hoare_keep; [apply hoare_rateLimit|]. intros e. by lua_step.
Qed.

Lemma hoare_prepare pend prefix limiter j ts max opts :
  hoare (inv b pend) (prepareJobForProcessing prefix limiter j ts max opts) (λ _, inv b pend).
Proof.
  unfold prepareJobForProcessing. apply hoare_keep.
  { destruct max; [|by lua_step]. lua_step. lua_step; [by lua_step|]. lua_step. by lua_step. }
  intros _. apply hoare_keep.
  { destruct (negb _); [|by lua_step]. lua_step. lua_rule. }
  intros _. apply hoare_keep.
  { apply hoare_HMSET. constructor; [done|]. destruct (truthy _); repeat constructor; done. }
  intros _. repeat lua_step. done.
Qed.

Lemma hoare_popmin pend :
  hoare (inv b pend) (moveJobFromPrioritizedToActive (keys.Prioritized b) (keys.Active b) (keys.PriorityCounter b))
    (handed b pend).
Proof.
  intros st Hi. unfold moveJobFromPrioritizedToActive, mbind, Lua_bind, ZPOPMIN.
  destruct (zsorted (zget (keys.Prioritized b) st)) as [|[x s] l] eqn:E; cbn.
  { split; [|done]. apply (hoare_nums_delete b pend (keys.PriorityCounter b)); [apply ID_fresh | done]. }
  assert (Hx : is_Some (zget (keys.Prioritized b) st !! x)).
  { eapply zsorted_member with s. rewrite E. by left. }
  eapply (handed_in b pend _ (keys.Active b)); [|by auto with lua |].
  - apply inv_lput with x; [|by auto with lua | done].
    apply inv_ztake; [done | by auto with lua | done].
  - rewrite lget_lset, bool_decide_eq_true_2 by done. by left.
Qed.

(** A job is never taken for the marker older versions put in the lists. *)
Lemma hoare_unmarked {A} pend j (m1 m2 : Lua A) Q :
  hoare (handed b pend (Some j)) m2 Q → hoare (handed b pend (Some j)) (if legacy_marker j then m1 else m2) Q.
Proof.
  intros Hm st Hst. pose proof Hst as [Hi Hj]. rewrite (inv_marker _ _ _ Hi j) by auto. by apply Hm.
Qed.

Lemma handed_inv {A} pend r (m : Lua A) Q : hoare (inv b pend) m Q → hoare (handed b pend r) m Q.
Proof. apply hoare_weaken. by intros st []. Qed.

Lemma hoare_choose pend wait :
  wait ∈ lplaces b →
  hoare (inv b pend) (RPOPLPUSH wait (keys.Active b)) (handed b pend).
Proof. intros Hw. apply hoare_RPOPLPUSH; [done|]. auto with lua. Qed.

Lemma hoare_fetch pend meta prefix ts opts :
  hoare (inv b pend) (fetchNextJob o (keys.Wait b) (keys.Active b) (keys.Prioritized b) (keys.Limiter b)
    (keys.Delayed b) meta (keys.PriorityCounter b) prefix ts opts) (λ _, inv b pend).
Proof.
  unfold fetchNextJob. apply hoare_keep; [apply hoare_admit|]. intros [[stopped max] expire].
  lua_step; [by lua_step|]. lua_step; [by lua_step|].
  eapply hoare_bind; [apply hoare_choose; auto with lua|]. intros j.
  eapply hoare_bind with (R := handed b pend).
  { destruct j as [j|]; [|apply handed_inv, hoare_popmin]. apply hoare_unmarked. by lua_step. }
  intros [k|]; apply handed_inv; [|lua_step; by lua_step].
  apply hoare_keep; [apply hoare_prepare|]. intros v. by lua_step.
Qed.

Lemma hoare_moveToActive pend ks args :
  keyed ks [(1%nat, keys.Wait b); (2%nat, keys.Active b); (3%nat, keys.Prioritized b); (6%nat, keys.Limiter b);
            (7%nat, keys.Delayed b); (10%nat, keys.PriorityCounter b)] →
  hoare (inv b pend) (moveToActive o ks args) (λ _, inv b pend).
Proof.
  intros Hk. unfold moveToActive. use_keys Hk. apply hoare_keep; [apply hoare_admit|].
  intros [[stopped max] expire]. lua_step; [by lua_step|]. lua_step; [by lua_step|].
  eapply hoare_bind; [apply hoare_choose; auto with lua|]. intros j.
  eapply hoare_bind with (R := handed b pend).
  { destruct j as [j|]; [|by lua_step]. apply hoare_unmarked. by lua_step. }
  intros j2. eapply hoare_bind with (R := handed b pend).
  { destruct j2 as [j2|]; [by lua_step | apply handed_inv, hoare_popmin]. }
  intros [k|]; apply handed_inv; [apply hoare_prepare | lua_step; by lua_step].
Qed.

(** ** Ending an attempt *)

Lemma hoare_removeLock pend jobKey stalled token j :
  hoare (inv b pend) (removeLock jobKey stalled token j) (λ _, inv b pend).
Proof.
  unfold removeLock. lua_step; [by lua_step|]. lua_step. lua_step; [|by lua_step].
  lua_step; [|by lua_step]. do 3 lua_step. by lua_step.
Qed.

(** The packed fields name no timestamp. *)
Definition fields_ok (packed : string) : Prop :=
  packed = "" ∨ ∀ l, unpack packed = AArr l → unstamped (pairs l).

Lemma hoare_updateJobFields pend k packed :
  fields_ok packed → hoare (inv b pend) (updateJobFields k packed) (λ _, inv b pend).
Proof.
  intros Hp. unfold updateJobFields. destruct (String.eqb_spec packed ""); [by lua_step|].
  destruct Hp as [?|Hp]; [done|]. destruct (unpack packed); try (by lua_step). apply hoare_HMSET. auto.
Qed.

Lemma hoare_dropDedup pend prefix d j : hoare (inv b pend) (dropDedupOnFinish o prefix d j) (λ _, inv b pend).
Proof.
  unfold dropDedupOnFinish. lua_step; [|by lua_step]. lua_step; [lua_rule|]. lua_step; [|by lua_step].
  lua_step. lua_step; [lua_rule | by lua_step].
Qed.

Lemma hoare_expel pend key jobs :
  key ∈ zplaces b →
  hoare (λ st, inv b pend st ∧ listed key jobs st) (expel key (keys.Base b) jobs) (λ _, inv b pend).
Proof.
  intros Hk. induction jobs as [|j jobs IH]; cbn [expel].
  { apply hoare_ret. by intros st [Hi _]. }
  eapply hoare_bind with (R := λ _ st, inv b (j :: pend) st ∧ listed key jobs st).
  { intros st [Hi Hl]. pose proof Hl as [_ [Hj _]%Forall_cons].
    unfold ZREM. rewrite bool_decide_eq_true_2 by done. cbn. split; [by apply inv_ztake|].
    eapply listed_rest; [exact Hl | done |]. by rewrite zget_zset, bool_decide_eq_true_2. }
  intros n. eapply hoare_bind with (R := λ _ st, inv b pend st ∧ listed key jobs st); [|intros []; apply IH].
  apply hoare_modify. intros st [Hi Hl]. split; [by apply (inv_drop b) | exact Hl].
Qed.

Lemma hoare_maxAge pend ts age key limit :
  key ∈ zplaces b → hoare (inv b pend) (removeJobsByMaxAge ts age key (keys.Base b) limit) (λ _, inv b pend).
Proof.
  intros Hk. unfold removeJobsByMaxAge. eapply hoare_bind; [apply hoare_gets|]. intros jobs.
  eapply hoare_weaken; [|by apply hoare_expel]. intros st [Hi ->]. split; [done|].
  eapply listed_sub; [|apply listed_filter with (P := λ x, x.2 ≤ ts - age * 1000)].
  etrans; [apply submseteq_take|]. by rewrite <-Permutation_rev.
Qed.

Lemma hoare_maxCount pend n key :
  key ∈ zplaces b → hoare (inv b pend) (removeJobsByMaxCount n key (keys.Base b)) (λ _, inv b pend).
Proof.
  intros Hk. unfold removeJobsByMaxCount. eapply hoare_bind; [apply hoare_gets|]. intros jobs.
  eapply hoare_weaken; [|by apply hoare_expel]. intros st [Hi ->]. split; [done|].
  eapply listed_sub; [|apply listed_all]. etrans; [apply submseteq_drop|]. by rewrite <-Permutation_rev.
Qed.

(** A job that had to be in a list, or the script gives up. *)
Lemma hoare_needed {A} pend x absent n (m1 m2 : Lua A) Q :
  hoare (inv b pend) m1 Q → hoare (inv b (x :: pend)) m2 Q →
  hoare (removed b pend x absent n) (if n <? 1 then m1 else m2) Q.
Proof. intros H1 H2. apply hoare_removed; intros ->; done. Qed.

(** A result written, and the old ones thrown out. *)
Lemma hoare_retain pend j set ts target prop value keep :
  set ∈ zplaces b → ordinary prop →
  hoare (inv b (j :: pend)) (retain set (keys.Base b) j (keys.Job b j) ts target prop value keep) (λ _, inv b pend).
Proof.
  intros Hs Hf. unfold retain. cbv zeta. destruct (isZero _).
  { apply hoare_modify. intros st. apply inv_drop. }
  lua_step. apply hoare_keep; [apply hoare_HMSET; constructor; [done | by repeat constructor]|]. intros _.
  apply hoare_keep; [lua_step; [apply hoare_HDEL; set_solver | by lua_step]|]. intros _.
  apply hoare_keep; [lua_step; [by apply hoare_maxAge | by lua_step]|]. intros _.
  destruct (num _) as [n|]; [|by lua_step]. destruct (0 <? n); [by apply hoare_maxCount | by lua_step].
Qed.

Lemma hoare_moveToFinished pend ks args :
  keyed ks [(1%nat, keys.Wait b); (2%nat, keys.Active b); (3%nat, keys.Prioritized b); (6%nat, keys.Limiter b);
            (7%nat, keys.Delayed b); (10%nat, keys.PriorityCounter b); (12%nat, keys.Job b (str (argv args 1)))] →
  key ks 11 ∈ zplaces b → ordinary (str (argv args 3)) → str (argv args 7) = keys.Base b →
  fields_ok (str (argv args 9)) →
  hoare (inv b pend) (moveToFinished o ks args) (λ _, inv b pend).
Proof.
  intros Hk Hset Hf Hpre Hp. unfold moveToFinished. rewrite Hpre. use_keys Hk. unfold HEXISTS.
  lua_step. lua_step; [by lua_step|]. apply hoare_keep; [apply hoare_removeLock|]. intros code.
  lua_step; [by lua_step|]. apply hoare_keep; [by apply hoare_updateJobFields|]. intros _.
  eapply hoare_bind; [apply hoare_LREM_tail; auto with lua|]. intros n. apply hoare_needed; [by lua_step|].
  lua_step. unfold HGET at 1. lua_step. apply hoare_keep; [apply hoare_dropDedup|]. intros _. lua_step.
  eapply hoare_bind with (R := λ _, inv b pend); [by apply hoare_retain|]. intros _.
  lua_step; [|by lua_step]. apply hoare_keep; [apply hoare_fetch|]. intros r. by lua_step.
Qed.

Lemma hoare_retryJob pend ks args :
  keyed ks [(1%nat, keys.Active b); (2%nat, keys.Wait b); (4%nat, keys.Job b (str (argv args 4)));
            (7%nat, keys.Delayed b); (8%nat, keys.Prioritized b)] →
  fields_ok (str (argv args 6)) →
  hoare (inv b pend) (retryJob ks args) (λ _, inv b pend).
Proof.
  intros Hk Hp. unfold retryJob. use_keys Hk. unfold HEXISTS. lua_step. lua_step. lua_step; [by lua_step|].
  apply hoare_keep; [apply hoare_removeLock|]. intros code. lua_step; [by lua_step|].
  apply hoare_keep; [by apply hoare_updateJobFields|]. intros _.
  eapply hoare_bind; [apply hoare_LREM_tail; auto with lua|]. intros n. apply hoare_needed; [by lua_step|].
  unfold HGET. lua_step. eapply hoare_bind with (R := λ _, inv b pend); [apply hoare_requeue; auto with lua|].
  intros _. lua_step. lua_step. by lua_step.
Qed.

Lemma hoare_delayedScore pend k ts d : hoare (inv b pend) (getDelayedScore k ts d) (λ _, inv b pend).
Proof. unfold getDelayedScore. lua_step. by lua_step. Qed.
Hint Resolve hoare_delayedScore : lua.

Lemma hoare_moveToDelayed pend ks args :
  keyed ks [(2%nat, keys.Active b); (3%nat, keys.Prioritized b); (4%nat, keys.Delayed b);
            (5%nat, keys.Job b (str (argv args 3))); (9%nat, keys.Wait b); (10%nat, keys.Limiter b);
            (11%nat, keys.PriorityCounter b)] →
  fields_ok (str (argv args 7)) →
  hoare (inv b pend) (moveToDelayed o ks args) (λ _, inv b pend).
Proof.
  intros Hk Hp. unfold moveToDelayed. use_keys Hk. unfold HEXISTS. lua_step. lua_step; [by lua_step|].
  apply hoare_keep; [apply hoare_removeLock|]. intros code. lua_step; [by lua_step|].
  apply hoare_keep; [by apply hoare_updateJobFields|]. intros _.
  eapply hoare_bind; [apply hoare_LREM_tail; auto with lua|]. intros n. apply hoare_needed; [by lua_step|].
  lua_step. apply hoare_keep; [lua_step; [lua_step|]; by lua_step|]. intros _. do 3 lua_step.
  apply hoare_keep; [lua_step; [apply hoare_fetch | by lua_step]|]. intros r. by lua_step.
Qed.

(** ** Adding jobs *)

(** An id that is free to become a job. *)
Definition vacant (pend : list string) (id : string) (st : store) : Prop :=
  inv b pend st ∧ ¬ is_job b st id ∧ legacy_marker id = false ∧ unreserved id ∧
  ∀ n, in64 n → id = FormatInt n → n ≤ default 0 (nums st !! keys.ID b).

(** A script part that touches no place and no job, and counts up at most. *)
Definition calm {A} (m : Lua A) : Prop := ∀ st, let st' := (m st).1.2 in
  ids b st' = ids b st ∧ default 0 (nums st !! keys.ID b) ≤ default 0 (nums st' !! keys.ID b) ∧
  (∀ id, is_job b st' id ↔ is_job b st id).

Lemma calm_vacant {A} pend id (m : Lua A) : calm m → hoare (vacant pend id) m (λ _, vacant pend id).
Proof.
  intros Hm st (Hi & Hn & Hl & Ht & Hc). destruct (Hm st) as (E1 & E2 & E3). split_and!; [| |done|done|].
  - eapply inv_via; [exact Hi | by rewrite E1 | exact E3 | exact E2].
  - by rewrite E3.
  - intros n H1 H2. specialize (Hc n H1 H2). lia.
Qed.

Lemma calm_read {A} (f : store → A) : calm (gets f).
Proof. done. Qed.

Lemma calm_HMSET k kvs : unstamped kvs → calm (HMSET k kvs).
Proof.
  intros Hu st. cbn. split_and!; [done..|]. intros id. unfold is_job. rewrite hgetall_hset.
  case_bool_decide as E; [|done]. by rewrite <-E, hmset_stamp.
Qed.

Lemma calm_HINCRBY k f : f ≠ "timestamp" → calm (HINCRBY k f).
Proof.
  intros Hf st. cbn. split_and!; [done..|]. intros id. unfold is_job. rewrite hgetall_hset.
  case_bool_decide as E; [|done]. by rewrite <-E, lookup_insert_ne.
Qed.

Lemma calm_INCR k : calm (INCR k).
Proof. intros st. cbn. split_and!; [done| |done]. rewrite lookup_insert. case_decide; subst; cbn; lia. Qed.

Lemma calm_ZADD_repeat s x : calm (ZADD (keys.Repeat b) s x).
Proof.
  intros st. split_and!; [|done..]. unfold ids, ZADD, modify. cbn [fst snd]. set (st' := zset _ _ st).
  assert ((λ k, members k st') <$> zplaces b = (λ k, members k st) <$> zplaces b) as ->; [|done].
  apply list_fmap_ext. intros i k Hk. unfold members, st'. rewrite zget_zset, bool_decide_eq_false_2; [done|]. intros <-.
  pose proof (place_keys b) as (_ & _ & Hd)%NoDup_app. apply NoDup_app in Hd as (_ & Hd & _).
  apply (Hd (keys.Repeat b)); [by eapply list_elem_of_lookup_2 | by left].
Qed.

Lemma calm_bind {A B} (m : Lua A) (f : A → Lua B) : calm m → (∀ a, calm (f a)) → calm (m ≫= f).
Proof.
  intros Hm Hf st. unfold mbind, Lua_bind. specialize (Hm st). destruct (m st) as [[a st1] l1].
  specialize (Hf a st1). destruct (f a st1) as [[c st2] l2]. cbn [fst snd] in *.
  destruct Hm as (E & ? & Hj), Hf as (E' & ? & Hj'). split_and!; [congruence | lia |]. intros id. by rewrite Hj'.
Qed.

Lemma calm_maxEvents k : calm (getOrSetMaxEvents k).
Proof.
  apply calm_bind; [apply calm_read|]. intros [|]; [done|]. apply calm_HMSET. by repeat constructor.
Qed.

Lemma maxEvents_places k st :
  lists (getOrSetMaxEvents k st).1.2 = lists st ∧ zsets (getOrSetMaxEvents k st).1.2 = zsets st.
Proof. unfold getOrSetMaxEvents, HGET, gets, mbind, Lua_bind. by destruct (hgetall k st !! _). Qed.

Lemma calm_dedup de j k prefix : calm (deduplicateJob o de j k prefix).
Proof.
  intros st. unfold deduplicateJob, HEXISTS, gets, mbind, Lua_bind.
  destruct (truthy _); cbn; [|done]. destruct (strs st !! k); cbn; [|done].
  by destruct (_ && _).
Qed.

Lemma numeral_unmarked n : in64 n → legacy_marker (FormatInt n) = false.
Proof.
  intros Hn. apply parse_signed_FormatInt in Hn. unfold legacy_marker.
  destruct (HasPrefix (FormatInt n) "0:") eqn:E; [|done].
  apply HasPrefix_spec in E as [s E]. rewrite E in Hn. done.
Qed.

Lemma numeral_unreserved n : in64 n → unreserved (FormatInt n).
Proof. intros Hn. split; intros s E; apply (f_equal ParseInt) in E; by rewrite ParseInt_FormatInt in E. Qed.

Lemma hoare_INCR64 pend :
  hoare (inv b pend) (INCR64 (keys.ID b))
    (λ c st, match c with Some c => vacant pend (FormatInt c) st | None => inv b pend st end).
Proof.
  intros st Hi. unfold INCR64. destruct (Z.leb_spec (default 0 (nums st !! keys.ID b) + 1) maxInt64) as [Hle|]; cbn; [|done].
  set (c := default 0 (nums st !! keys.ID b) + 1) in *. pose proof (inv_nonneg _ _ _ Hi).
  assert (in64 c) as Hc by (unfold in64, minInt64; lia). split_and!.
  - eapply inv_via; [exact Hi | done | done |]. cbn. rewrite lookup_insert, decide_True by done. cbn. lia.
  - intros Hj%(inv_counter _ _ _ Hi); [lia | done].
  - by apply numeral_unmarked.
  - by apply numeral_unreserved.
  - intros n Hn E%FormatInt_inj; [|done..]. subst n. cbn. by rewrite lookup_insert, decide_True.
Qed.

Lemma hoare_storeJob (cjson : any → string) pend id name data opts ts rjk :
  hoare (vacant pend id) (storeJob cjson (keys.Job b id) name data opts ts rjk) (λ _, inv b (id :: pend)).
Proof.
  unfold storeJob. eapply hoare_bind with (R := λ _, inv b (id :: pend)); [|intros; by lua_step].
  apply hoare_modify. intros st (Hi & Hn & Hl & Ht & Hc). apply inv_new; [done..| |done|done|done].
  cbn [foldl app fst snd]. destruct (truthy rjk), (truthy _); cbn [foldl app fst snd];
    rewrite ?lookup_insert_ne, lookup_insert by done; by rewrite decide_True.
Qed.

(** An id of the caller's choice: no numeral, which the counter hands out, no
    marker, and no name with a meaning of its own under the queue's prefix. *)
Definition custom_ok (id : string) : bool :=
  match ParseInt id with Some n => negb (String.eqb (FormatInt n) id) | None => true end &&
  negb (has_colon id) &&
  negb (bool_decide (keys.Base b +:+ id ∈ queue_level_keys b)).

Lemma custom_numeral id n : custom_ok id = true → in64 n → id ≠ FormatInt n.
Proof.
  unfold custom_ok. intros Hid Hn ->. rewrite ParseInt_FormatInt, String.eqb_refl in Hid by done. done.
Qed.

Lemma custom_unmarked id : custom_ok id = true → legacy_marker id = false.
Proof.
  unfold custom_ok, legacy_marker. intros Hid. destruct (HasPrefix id "0:") eqn:E; [|done].
  apply HasPrefix_spec in E as [s ->]. rewrite !andb_true_iff in Hid. by destruct Hid as [[_ ?] _].
Qed.

Lemma custom_unreserved id : custom_ok id = true → unreserved id.
Proof.
  unfold custom_ok. rewrite !andb_true_iff, negb_true_iff. intros [[_ Hid] _].
  split; intros s ->; by rewrite has_colon_app in Hid.
Qed.

(** The packed ARGV of an add script: the queue's prefix and the custom id. *)
Definition add_args_ok (args : list any) : Prop :=
  match unpack (str (argv args 1)) with
  | AArr l => str (argv l 1) = keys.Base b ∧ (str (argv l 2) = "" ∨ custom_ok (str (argv l 2)) = true)
  | _ => False
  end.

Lemma hoare_addJob (cjson : any → string) meta args enqueue :
  add_args_ok args →
  (∀ id opts ts d, hoare (inv b [id]) (enqueue id opts ts d) (λ _, inv b [])) →
  hoare (inv b []) (addJob cjson o meta (keys.ID b) args enqueue) (λ _, inv b []).
Proof.
  unfold add_args_ok. intros Ha Hq. unfold addJob. destruct (unpack (str (argv args 1))) as [| | | | | | | | |l| |]; try done.
  destruct Ha as [-> Hid]. eapply hoare_bind; [apply hoare_INCR64|]. intros [c|]; [|by lua_step].
  eapply hoare_bind; [apply calm_vacant, calm_maxEvents|]. intros [].
  set (id := if String.eqb (str (argv l 2)) "" then FormatInt c else str (argv l 2)).
  eapply hoare_bind with (R := λ ex st, inv b [] st ∧ (ex = false → vacant [] id st)).
  { subst id. destruct (String.eqb_spec (str (argv l 2)) ""); [by apply hoare_ret; intros st Hv; split; [apply Hv|]|].
    destruct Hid as [?|Hid]; [done|]. intros st [Hi _]. cbn. split; [done|]. intros Hx%bool_decide_eq_false.
    split_and!; [done | | by apply custom_unmarked | by apply custom_unreserved | by intros m Hm ?%custom_numeral].
    intros [v Hv]. apply Hx. unfold hgetall in Hv. destruct (hashes st !! _) eqn:E in Hv; [|done].
    unfold keys.Job in E. by rewrite E. }
  intros [|]; [apply hoare_ret; by intros st []|].
  eapply hoare_weaken; [intros st [_ Hv]; exact (Hv eq_refl)|].
  eapply hoare_bind; [apply calm_vacant, calm_dedup|]. intros [cur|]; [apply hoare_ret; by intros st []|].
  eapply hoare_bind; [apply hoare_storeJob|]. intros dp. eapply hoare_bind; [apply Hq|]. intros []. by lua_step.
Qed.

(** The id under a schedule's key is no job while the HASH does not exist. *)
Lemma absent_job st id : hashes st !! keys.Job b id = None → ¬ is_job b st id.
Proof. unfold is_job, hgetall. intros ->. by intros []. Qed.

(** An iteration whose HASH does not exist is free to become a job. *)
Lemma iteration_vacant pend sid m st :
  inv b pend st → ¬ is_job b st (iteration sid m) → vacant pend (iteration sid m) st.
Proof.
  intros Hi Hn. split_and!; [done | done | done | |].
  - split; [|done]. intros sid' E. unfold iteration in E. apply sapp_inv_head in E as <-. rewrite has_colon_app. cbn.
    by rewrite orb_true_r.
  - intros n Hn' E%(f_equal ParseInt). rewrite ParseInt_FormatInt in E by done. done.
Qed.

Lemma iteration_key sid m : (keys.Repeat b +:+ ":" +:+ sid) +:+ ":" +:+ FormatInt m = keys.Job b (iteration sid m).
Proof. unfold keys.Job, keys.Repeat, iteration. by rewrite <-!sapp_assoc. Qed.

Lemma hoare_HEXISTS_iteration pend sid m :
  hoare (inv b pend) (HEXISTS (keys.Job b (iteration sid m)))
    (λ ex st, inv b pend st ∧ (ex = false → vacant pend (iteration sid m) st)).
Proof.
  intros st Hi. cbn. split; [done|]. intros Hx%bool_decide_eq_false.
  apply iteration_vacant; [done|]. by apply absent_job, eq_None_not_Some.
Qed.

Lemma hoare_addJobFromScheduler (cjson : any → string) pend ks sid m name data opts ts delay :
  keyed ks [(2%nat, keys.Delayed b); (3%nat, keys.Wait b); (6%nat, keys.Prioritized b)] →
  hoare (vacant pend (iteration sid m))
    (addJobFromScheduler cjson ks (keys.Job b (iteration sid m)) (iteration sid m) name data opts ts sid delay)
    (λ _, inv b pend).
Proof.
  intros Hk. unfold addJobFromScheduler. use_keys Hk. eapply hoare_bind; [apply hoare_storeJob|]. intros [d p].
  lua_step; [lua_step; apply hoare_ZADD; auto with lua|]. lua_step; lua_rule.
Qed.

Lemma hoare_updateJobScheduler (cjson : any → string) ks args :
  keyed ks [(1%nat, keys.Repeat b); (2%nat, keys.Delayed b); (3%nat, keys.Wait b); (6%nat, keys.Prioritized b)] →
  hoare (inv b []) (updateJobScheduler cjson ks args) (λ _, inv b []).
Proof.
  intros Hk. pose proof Hk as [E1 Hk']%Forall_cons. cbn [fst snd] in E1. unfold updateJobScheduler. cbv zeta. rewrite E1.
  unfold ZSCORE, HGET. lua_step. lua_step; [|by lua_step]. do 4 lua_step. lua_step; [|by lua_step]. lua_step.
  match goal with |- context [FormatInt ?n] => generalize n end. intros next. rewrite iteration_key.
  eapply hoare_bind; [apply hoare_HEXISTS_iteration|].
  intros [|]; [apply hoare_ret; by intros st []|].
  eapply hoare_weaken; [intros st [_ Hv]; exact (Hv eq_refl)|].
  eapply hoare_bind; [apply calm_vacant, calm_ZADD_repeat|]. intros [].
  eapply hoare_bind; [by apply calm_vacant, calm_HINCRBY|]. intros ic.
  eapply hoare_bind; [apply calm_vacant, calm_INCR|]. intros c.
  eapply hoare_bind; [by apply hoare_addJobFromScheduler|]. intros []. by lua_step.
Qed.

(** ** Stalled jobs, locks, administration *)

(** Taking a marker out never takes a job. *)
Lemma hoare_drop_marker pend k x :
  k ∈ lplaces b → legacy_marker x = true → hoare (inv b pend) (LREM_head k x) (λ _, inv b pend).
Proof.
  intros Hk Hx. eapply hoare_conseq; [done| |by apply hoare_LREM_head].
  intros n st [[_ Hi]|(_ & Hi & _)]; [|done]. exfalso.
  assert (is_job b st x) as Hj by (apply (inv_jobs _ _ _ Hi); by left).
  apply (inv_marker _ _ _ Hi) in Hj. congruence.
Qed.

Lemma hoare_recover pend jobs prefix repeat max :
  hoare (inv b pend) (recover jobs (keys.Wait b) (keys.Active b) prefix repeat max) (λ _, inv b pend).
Proof.
  induction jobs as [|j jobs IH]; cbn [recover]; [by lua_step|].
  eapply hoare_bind with (R := λ put st, if put : bool then inv b (j :: pend) st else inv b pend st).
  { destruct (legacy_marker j) eqn:E.
    - eapply hoare_bind; [apply hoare_drop_marker; [auto with lua | done]|]. intros n. by lua_step.
    - lua_step. lua_step; [by lua_step|]. eapply hoare_bind; [apply hoare_LREM_head; auto with lua|].
      intros n. apply hoare_removed; intros ->; by lua_step. }
  intros [|]; [|apply IH]. lua_step. unfold HGET. lua_step.
  apply hoare_keep. { lua_step; [|by lua_step]. unfold HEXISTS, ZSCORE. lua_step. lua_step. by lua_step. }
  intros rep. apply hoare_keep; [lua_step; [lua_rule | by lua_step]|]. intros _.
  lua_step. apply hoare_keep; [apply IH|]. intros rest. by lua_step.
Qed.

Lemma hoare_moveStalled pend ks args :
  keyed ks [(2%nat, keys.Wait b); (3%nat, keys.Active b)] →
  hoare (inv b pend) (moveStalledJobsToWait ks args) (λ _, inv b pend).
Proof.
  intros Hk. unfold moveStalledJobsToWait. use_keys Hk. lua_step. lua_step; [by lua_step|].
  do 4 lua_step. apply hoare_keep; [apply hoare_recover|]. intros moved. lua_step. lua_step. by lua_step.
Qed.

Lemma hoare_extendLock pend ks args : hoare (inv b pend) (extendLock ks args) (λ _, inv b pend).
Proof. unfold extendLock. lua_step. lua_step; [lua_step|]; by lua_step. Qed.

Lemma hoare_releaseLock pend ks args : hoare (inv b pend) (releaseLock ks args) (λ _, inv b pend).
Proof. unfold releaseLock. lua_step. lua_step; [lua_step|]; by lua_step. Qed.

Lemma hoare_promote pend ks args :
  keyed ks [(1%nat, keys.Delayed b); (2%nat, keys.Wait b); (5%nat, keys.Prioritized b)] →
  hoare (inv b pend) (promote ks args) (λ _, inv b pend).
Proof.
  intros Hk. unfold promote. use_keys Hk. eapply hoare_bind; [apply hoare_ZREM; auto with lua|].
  intros n. apply hoare_removed; intros ->; cbn [Z.eqb Pos.eqb]; [|by lua_step]. unfold HGET. lua_step. lua_step.
  apply hoare_keep.
  { lua_step; [|by lua_step]. destruct (legacy_marker s) eqn:E; [|by lua_step].
    apply hoare_keep; [apply hoare_drop_marker; [auto with lua|done]|]. intros; by lua_step. }
  intros _. eapply hoare_bind with (R := λ _, inv b pend).
  { apply (hoare_requeue _ _ "LPUSH"); auto with lua. }
  intros _. lua_step. by lua_step.
Qed.

Lemma hoare_reprocess pend ks args :
  keyed ks [(4%nat, keys.Wait b); (8%nat, keys.Prioritized b)] → key ks 3 ∈ zplaces b →
  str (argv args 3) ≠ "timestamp" →
  hoare (inv b pend) (reprocessJob ks args) (λ _, inv b pend).
Proof.
  intros Hk Hs Hf. unfold reprocessJob. use_keys Hk. unfold HEXISTS, HGET. lua_step. lua_step; [by lua_step|].
  eapply hoare_bind; [apply hoare_ZREM; auto with lua|].
  intros n. apply hoare_removed; intros ->; cbn [Z.eqb Pos.eqb]; [|by lua_step].
  apply hoare_keep; [apply hoare_HDEL; destruct (String.eqb _ "1"), (String.eqb _ "1"); set_solver|]. intros _.
  lua_step. eapply hoare_bind with (R := λ _, inv b pend); [apply hoare_requeue; auto with lua|].
  intros _. lua_step. by lua_step.
Qed.

(** Out of wherever it was, or it was nowhere. *)
Definition out (pend : list string) (j : string) (st : store) : Prop :=
  inv b (j :: pend) st ∨ inv b pend st ∧ j ∉ pend ++ ids b st.

Lemma hoare_out_z (P : store → Prop) pend j k (rest : Lua unit) :
  k ∈ zplaces b →
  hoare (λ st, (P st ∧ j ∉ members k st) ∧ inv b pend st) rest (λ _, out pend j) →
  hoare (λ st, P st ∧ inv b pend st) (n ← ZREM k j; if n =? 1 then mret tt else rest) (λ _, out pend j).
Proof.
  intros Hk Hr st [HP Hi]. unfold mbind, Lua_bind, ZREM. case_bool_decide as Hx; cbn.
  - left. by apply inv_ztake.
  - specialize (Hr st). destruct (rest st) as [[u st'] l]. apply Hr. by rewrite elem_of_members.
Qed.

Lemma hoare_out_l (P : store → Prop) pend j k (rest : Lua unit) :
  k ∈ lplaces b →
  hoare (λ st, (P st ∧ j ∉ lget k st) ∧ inv b pend st) rest (λ _, out pend j) →
  hoare (λ st, P st ∧ inv b pend st) (n ← LREM_head k j; if n =? 1 then mret tt else rest) (λ _, out pend j).
Proof.
  intros Hk Hr st [HP Hi]. unfold mbind, Lua_bind, LREM_head. case_bool_decide as Hx; cbn.
  - left. apply inv_ltake; [done..|]. by apply remove_first_perm.
  - specialize (Hr st). destruct (rest st) as [[u st'] l]. by apply Hr.
Qed.

Lemma hoare_fromAnyState j :
  hoare (inv b []) (removeJobFromAnyState (keys.Base b) j) (λ _, out [] j).
Proof.
  eapply hoare_weaken; [intros st Hi; exact (conj I Hi)|]. unfold removeJobFromAnyState. cbv zeta.
  do 4 (apply hoare_out_z; [auto with lua|]).
  do 3 (apply hoare_out_l; [auto with lua|]).
  apply hoare_ret. intros st [Hn Hi]. right. split; [done|].
  unfold ids, lplaces, zplaces. cbn. rewrite !elem_of_app, !elem_of_nil.
  unfold keys.Wait, keys.Active, keys.Paused, keys.Delayed, keys.Prioritized, keys.Completed, keys.Failed. tauto.
Qed.

(** A deletion: a deduplication key at most, and the HASH. *)
Lemma dropJob_state j st : ∃ f, dropJob (keys.Base b) j st = (tt, hdel (keys.Job b j) (with_strs f st), []).
Proof.
  unfold dropJob, HGET, mbind, Lua_bind, gets. destruct (hgetall _ st !! "deid") as [d|]; [by eexists|].
  exists id. by destruct st.
Qed.

Lemma hoare_dropJob pend j : hoare (out pend j) (dropJob (keys.Base b) j) (λ _, inv b pend).
Proof.
  intros st Ho. destruct (dropJob_state j st) as [f ->]. cbn [fst snd]. destruct Ho as [Hi|[Hi Hn]].
  - by apply inv_drop, inv_strs.
  - apply inv_hdel_other; [by apply inv_strs|]. intros Hj. by apply (inv_jobs _ _ _ Hi) in Hj.
Qed.

(** What the deletion of some jobs leaves: everything but their HASHes. *)
Record dropped (jobs : list string) (st st' : store) : Prop := mkDropped {
  dr_lists : lists st' = lists st;
  dr_zsets : zsets st' = zsets st;
  dr_nums : nums st' = nums st;
  dr_jobs : ∀ id, is_job b st' id ↔ is_job b st id ∧ id ∉ jobs;
}.

Lemma dropJobs_dropped jobs st : dropped jobs st (dropJobs (keys.Base b) jobs st).1.2.
Proof.
  revert st. induction jobs as [|j jobs IH]; intros st; cbn [dropJobs].
  { split; [done..|]. intros id. cbn. split; [|by intros []]. intros Hj. split; [done | by apply not_elem_of_nil]. }
  unfold mbind, Lua_bind. destruct (dropJob_state j st) as [f ->].
  destruct (IH (hdel (keys.Job b j) (with_strs f st))) as [H1 H2 H3 H4].
  destruct (dropJobs (keys.Base b) jobs _) as [[u st2] l2]. cbn [fst snd] in *.
  split; [by rewrite H1 | by rewrite H2 | by rewrite H3 |]. intros id. rewrite H4, not_elem_of_cons.
  unfold is_job at 1. rewrite hgetall_hdel. case_bool_decide as E.
  - apply Job_inj in E as ->. rewrite lookup_empty. split; [by intros [[] _] | by intros (_ & [] & _)].
  - change (hgetall (keys.Job b id) (with_strs f st)) with (hgetall (keys.Job b id) st).
    assert (id ≠ j) by (by intros ->). unfold is_job. tauto.
Qed.

Lemma dropped_ids jobs st st' : dropped jobs st st' → ids b st' = ids b st.
Proof. intros [H1 H2 _ _]. unfold ids, members, lget, zget. by rewrite H1, H2. Qed.

(** The members of a sorted set, removed one by one. *)
Lemma ZREM_all_state key jobs st :
  key ∈ zplaces b → listed key jobs st →
  let st' := (ZREM_all key jobs st).1.2 in
  ids b st ≡ₚ jobs ++ ids b st' ∧ hashes st' = hashes st ∧ nums st' = nums st ∧ lists st' = lists st ∧
  (∀ k, k ≠ key → zget k st' = zget k st) ∧ (∀ x, zget key st' !! x = if bool_decide (x ∈ jobs) then None else zget key st !! x).
Proof.
  intros Hk. revert st. induction jobs as [|j jobs IH]; intros st Hl; cbn [ZREM_all]; [done|].
  pose proof Hl as [_ [[s Hj] _]%Forall_cons]. unfold mbind, Lua_bind, ZREM. rewrite bool_decide_eq_true_2 by by eexists.
  set (st1 := zset key (delete j (zget key st)) st).
  assert (Hz : zget key st1 = delete j (zget key st)) by (unfold st1; by rewrite zget_zset, bool_decide_eq_true_2).
  assert (Hl1 : listed key jobs st1) by (by eapply listed_rest).
  destruct (IH st1 Hl1) as (E1 & E2 & E3 & E4 & E5 & E6). destruct (ZREM_all key jobs st1) as [[u st2] l2].
  cbn [fst snd] in *. split_and!; [|done | done | done | |].
  - cbn [app]. rewrite <-E1. destruct (ids_zset b key (delete j (zget key st)) st Hk) as (rest & H1 & H2).
    fold st1 in H2. rewrite H1, H2. unfold members. by rewrite <-(map_to_list_delete _ _ _ Hj).
  - intros k Hne. rewrite E5 by done. unfold st1. rewrite zget_zset, bool_decide_eq_false_2; [done|]. by apply not_eq_sym.
  - intros x. rewrite E6, Hz. repeat case_bool_decide; set_unfold; try tauto.
    + destruct (decide (x = j)) as [->|]; [by rewrite lookup_delete_eq | exfalso; tauto].
    + apply lookup_delete_ne. intros ->. tauto.
Qed.

(** ** Draining *)

(** A list none of whose jobs is to be kept. *)
Lemma removeListJobs_state pend k ignore st :
  k ∈ lplaces b → (∀ j, j ∈ lget k st → j ∉ ignore) → inv b pend st →
  let st' := (removeListJobs k (keys.Base b) ignore st).1.2 in
  inv b pend st' ∧ zsets st' = zsets st ∧ (∀ k', lget k' st' = if bool_decide (k = k') then [] else lget k' st) ∧
  (∀ id, is_job b st' id ↔ is_job b st id ∧ id ∉ lget k st).
Proof.
  intros Hk Hall Hi. unfold removeListJobs, mbind, Lua_bind, gets, modify.
  assert (filter (λ j, j ∉ ignore) (lget k st) = lget k st) as ->.
  { by apply filter_all. }
  pose proof (dropJobs_dropped (lget k st) st) as Hd. destruct (dropJobs _ _ st) as [[u st1] l1]. cbn [fst snd] in *.
  assert (El : ∀ k', lget k' st1 = lget k' st) by (intros k'; unfold lget; by rewrite (dr_lists _ _ _ Hd)).
  rewrite El, drop_all. split_and!.
  - eapply inv_wipe; [exact Hi | | exact (dr_jobs _ _ _ Hd) | exact (dr_nums _ _ _ Hd)].
    destruct (ids_lset b k [] st1 Hk) as (rest & H1 & H2). rewrite (dropped_ids _ _ _ Hd), El in H1. by rewrite H1, H2.
  - apply (dr_zsets _ _ _ Hd).
  - intros k'. rewrite lget_lset. case_bool_decide; [done | apply El].
  - apply (dr_jobs _ _ _ Hd).
Qed.

(** What is taken out of a sorted set, whatever else is in the store. *)
Lemma removeZSetJobs_places k ignore st :
  k ∈ zplaces b →
  let st' := (removeZSetJobs k (keys.Base b) ignore st).1.2 in
  let jobs := filter (λ j, j ∉ ignore) (zsorted (zget k st)).*1 in
  lists st' = lists st ∧ nums st' = nums st ∧ ids b st ≡ₚ jobs ++ ids b st' ∧
  (∀ id, is_job b st' id ↔ is_job b st id ∧ id ∉ jobs) ∧
  (∀ x, x ∈ jobs ↔ is_Some (zget k st !! x) ∧ x ∉ ignore) ∧
  (∀ k' x, zget k' st' !! x = if bool_decide (k = k' ∧ x ∉ ignore) then None else zget k' st !! x).
Proof.
  intros Hk. cbv zeta. unfold removeZSetJobs, mbind, Lua_bind, gets.
  set (jobs := filter (λ j, j ∉ ignore) (zsorted (zget k st)).*1).
  assert (Hin : ∀ x, x ∈ jobs ↔ is_Some (zget k st !! x) ∧ x ∉ ignore).
  { intros x. unfold jobs. rewrite list_elem_of_filter, zsorted_perm. rewrite (elem_of_members k st x). tauto. }
  pose proof (dropJobs_dropped jobs st) as Hd. destruct (dropJobs _ jobs st) as [[u st1] l1]. cbn [fst snd] in *.
  assert (Ez : ∀ k', zget k' st1 = zget k' st) by (intros k'; unfold zget; by rewrite (dr_zsets _ _ _ Hd)).
  assert (Hl : listed k jobs st1).
  { unfold listed. rewrite Ez. eapply (listed_sub k); [|apply listed_all]. apply sublist_submseteq. unfold jobs. by rewrite sublist_filter. }
  destruct (ZREM_all_state k jobs st1 Hk Hl) as (E1 & E2 & E3 & E4 & E5 & E6).
  destruct (ZREM_all k jobs st1) as [[u2 st2] l2]. cbn [fst snd] in *. split_and!; [| | | | done |].
  - by rewrite E4, (dr_lists _ _ _ Hd).
  - by rewrite E3, (dr_nums _ _ _ Hd).
  - by rewrite <-E1, (dropped_ids _ _ _ Hd).
  - intros id. rewrite <-(dr_jobs _ _ _ Hd). unfold is_job, hgetall. by rewrite E2.
  - intros k' x. destruct (decide (k = k')) as [<-|Hne].
    + rewrite E6, Ez. repeat case_bool_decide; try done; rewrite Hin in *; [tauto|].
      apply eq_None_not_Some. tauto.
    + rewrite E5, Ez, bool_decide_eq_false_2 by naive_solver. done.
Qed.

Lemma removeZSetJobs_state pend k ignore st :
  k ∈ zplaces b → inv b pend st →
  let st' := (removeZSetJobs k (keys.Base b) ignore st).1.2 in
  inv b pend st' ∧ lists st' = lists st ∧
  (∀ k' x, zget k' st' !! x = if bool_decide (k = k' ∧ x ∉ ignore) then None else zget k' st !! x) ∧
  (∀ id, is_job b st' id ↔ is_job b st id ∧ ¬ (is_Some (zget k st !! id) ∧ id ∉ ignore)).
Proof.
  intros Hk Hi. destruct (removeZSetJobs_places k ignore st Hk) as (El & En & Eids & Hj & Hin & Hz).
  split_and!; [by eapply inv_wipe | done | done |]. intros id. by rewrite Hj, Hin.
Qed.

(** No iteration that is still due waits in a list. *)
Definition drainable (st : store) : Prop :=
  ∀ j, j ∈ currentIterations (keys.Repeat b) st → (j ∉ lget (keys.Wait b) st) ∧ (j ∉ lget (keys.Paused b) st).

(** The jobs a drain takes, and what it leaves. *)
Definition drains (withDelayed : bool) (st : store) (id : string) : Prop :=
  id ∈ lget (keys.Wait b) st ∨ id ∈ lget (keys.Paused b) st ∨
  (id ∉ currentIterations (keys.Repeat b) st) ∧
    (is_Some (zget (keys.Prioritized b) st !! id) ∨ withDelayed = true ∧ is_Some (zget (keys.Delayed b) st !! id)).

#[export] Instance drains_dec withDelayed st id : Decision (drains withDelayed st id).
Proof. unfold drains. apply _. Defined.

Record drained (withDelayed : bool) (st st' : store) : Prop := mkDrained {
  dn_jobs : ∀ id, is_job b st' id ↔ is_job b st id ∧ ¬ drains withDelayed st id;
  dn_wait : lget (keys.Wait b) st' = [];
  dn_paused : lget (keys.Paused b) st' = [];
  dn_lists : ∀ k, k ≠ keys.Wait b → k ≠ keys.Paused b → lget k st' = lget k st;
  dn_zsets : ∀ k x, zget k st' !! x =
    if bool_decide ((k = keys.Prioritized b ∨ withDelayed = true ∧ k = keys.Delayed b) ∧
                    x ∉ currentIterations (keys.Repeat b) st) then None else zget k st !! x;
}.

Lemma drain_state ks args st :
  keyed ks [(1%nat, keys.Wait b); (2%nat, keys.Paused b); (3%nat, keys.Delayed b); (4%nat, keys.Prioritized b);
            (5%nat, keys.Repeat b)] →
  str (argv args 1) = keys.Base b → inv b [] st → drainable st →
  let st' := (drain ks args st).1.2 in
  inv b [] st' ∧ drained (String.eqb (str (argv args 2)) "1") st st'.
Proof.
  intros Hk Hp Hi Hdr. unfold drain. rewrite Hp. use_keys Hk. unfold mbind, Lua_bind, gets. cbv zeta.
  set (cur := currentIterations (keys.Repeat b) st).
  assert (Hwp : keys.Wait b ≠ keys.Paused b) by by intros ?%sapp_inv_head.
  destruct (removeListJobs_state [] (keys.Wait b) cur st) as (Hi1 & Z1 & L1 & J1);
    [auto with lua | intros j Hj Hc; by destruct (Hdr j Hc) | done|].
  destruct (removeListJobs (keys.Wait b) _ _ st) as [[u1 st1] l1]. cbn [fst snd] in *.
  assert (Ep : lget (keys.Paused b) st1 = lget (keys.Paused b) st) by (by rewrite L1, bool_decide_eq_false_2).
  destruct (removeListJobs_state [] (keys.Paused b) cur st1) as (Hi2 & Z2 & L2 & J2);
    [auto with lua | rewrite Ep; intros j Hj Hc; by destruct (Hdr j Hc) | done|].
  destruct (removeListJobs (keys.Paused b) _ _ st1) as [[u2 st2] l2]. cbn [fst snd] in *. rewrite Ep in J2.
  assert (Hz2 : zsets st2 = zsets st) by by rewrite Z2.
  set (d := String.eqb (str (argv args 2)) "1").
  set (m3 := if d then removeZSetJobs (keys.Delayed b) (keys.Base b) cur else mret tt).
  assert (H3 : let st3 := (m3 st2).1.2 in inv b [] st3 ∧ lists st3 = lists st2 ∧
    (∀ k x, zget k st3 !! x = if bool_decide ((d = true ∧ k = keys.Delayed b) ∧ x ∉ cur) then None else zget k st !! x) ∧
    (∀ id, is_job b st3 id ↔ is_job b st2 id ∧ ¬ ((d = true ∧ is_Some (zget (keys.Delayed b) st !! id)) ∧ id ∉ cur))).
  { assert (Ez : ∀ k, zget k st2 = zget k st) by (intros k; unfold zget; by rewrite Hz2).
    unfold m3. destruct d.
    - destruct (removeZSetJobs_state [] (keys.Delayed b) cur st2) as (Hi3 & L3 & Z3 & J3); [auto with lua | done|].
      split_and!; [done | done | |].
      + intros k x. rewrite Z3, Ez. repeat case_bool_decide; naive_solver.
      + intros id. rewrite J3, Ez. naive_solver.
    - cbn. split_and!; [done | done | |].
      + intros k x. rewrite bool_decide_eq_false_2 by naive_solver. by rewrite Ez.
      + intros id. naive_solver. }
  destruct (m3 st2) as [[u3 st3] l3]. cbn [fst snd] in H3. destruct H3 as (Hi3 & L3 & Z3 & J3).
  destruct (removeZSetJobs_state [] (keys.Prioritized b) cur st3) as (Hi4 & L4 & Z4 & J4); [auto with lua | done|].
  destruct (removeZSetJobs (keys.Prioritized b) _ _ st3) as [[u4 st4] l4]. cbn [fst snd mret Lua_ret] in *.
  assert (Hdp : keys.Delayed b ≠ keys.Prioritized b) by by intros ?%sapp_inv_head.
  assert (El : ∀ k, lget k st4 = lget k st2) by (intros k; unfold lget; by rewrite L4, L3).
  split; [done|]. split.
  - intros id. rewrite J4, J3, J2, J1, Z3. unfold drains. fold cur.
    rewrite bool_decide_eq_false_2 by (intros [[_ E] _]; by apply Hdp). tauto.
  - by rewrite El, L2, bool_decide_eq_false_2, L1, bool_decide_eq_true_2.
  - by rewrite El, L2, bool_decide_eq_true_2.
  - intros k Hk1 Hk2. by rewrite El, L2, bool_decide_eq_false_2, L1, bool_decide_eq_false_2.
  - intros k x. fold cur. rewrite Z4, Z3. repeat case_bool_decide; naive_solver.
Qed.

(** ** Setting a schedule up *)

(** The job waits for its turn. *)
Definition queued (st : store) (j : string) : Prop :=
  is_Some (zget (keys.Delayed b) st !! j) ∨ is_Some (zget (keys.Prioritized b) st !! j) ∨
  j ∈ lget (keys.Wait b) st ∨ j ∈ lget (keys.Paused b) st.

(** The HASH goes before the place, or after it: all the same. *)
Lemma drop_placed pend j st st1 :
  inv b (j :: pend) st1 → hashes st1 = hashes st →
  inv b pend (dropJob (keys.Base b) j st1).1.2 ∧
  ∀ id, is_job b (dropJob (keys.Base b) j st1).1.2 id ↔ is_job b st id ∧ id ≠ j.
Proof.
  intros Hi Hh. split; [by apply hoare_dropJob; left|]. intros id. destruct (dropJob_state j st1) as [f ->]. cbn [fst snd].
  unfold is_job. rewrite hgetall_hdel. case_bool_decide as E.
  - apply Job_inj in E as ->. rewrite lookup_empty. split; [by intros [] | by intros []].
  - assert (id ≠ j) by (by intros ->). unfold hgetall. cbn. rewrite Hh. tauto.
Qed.

(** A sorted set from which a job is taken once its HASH is gone. *)
Lemma drop_then_ZREM pend k j st :
  k ∈ zplaces b → inv b pend st → is_Some (zget k st !! j) →
  let st1 := (dropJob (keys.Base b) j st).1.2 in let st2 := (ZREM k j st1).1.2 in
  inv b pend st2 ∧ ∀ id, is_job b st2 id ↔ is_job b st id ∧ id ≠ j.
Proof.
  intros Hk Hi Hj. destruct (drop_placed pend j st (zset k (delete j (zget k st)) st)) as [H1 H2]; [by apply inv_ztake | done|].
  destruct (dropJob_state j st) as [f E]. cbv zeta. rewrite E. cbn [fst snd]. unfold ZREM.
  change (zget k (hdel (keys.Job b j) (with_strs f st))) with (zget k st). rewrite bool_decide_eq_true_2 by done.
  cbn [fst snd]. split.
  - apply (inv_drop b pend (with_strs f (zset k (delete j (zget k st)) st)) j). by apply inv_strs, inv_ztake.
  - intros id. rewrite <-H2. destruct (dropJob_state j (zset k (delete j (zget k st)) st)) as [g ->]. done.
Qed.

#[export] Instance queued_dec st j : Decision (queued st j).
Proof. unfold queued. apply _. Defined.

Lemma removeJobFromScheduler_state ks j st :
  keyed ks [(2%nat, keys.Delayed b); (3%nat, keys.Wait b); (4%nat, keys.Paused b); (6%nat, keys.Prioritized b)] →
  inv b [] st →
  let r := (removeJobFromScheduler ks (keys.Base b) j st).1.1 in
  let st' := (removeJobFromScheduler ks (keys.Base b) j st).1.2 in
  inv b [] st' ∧ (∀ id, is_job b st' id ↔ is_job b st id ∧ ¬ (r = true ∧ id = j)) ∧ (r = true → queued st j).
Proof.
  intros Hk Hi. unfold removeJobFromScheduler. use_keys Hk. unfold mbind, Lua_bind, ZSCORE, HGET, gets.
  assert (Hz : ∀ k, k ∈ zplaces b → is_Some (zget k st !! j) → queued st j →
    let m := (_ ← dropJob (keys.Base b) j; _ ← ZREM k j; mret true) : Lua bool in
    inv b [] (m st).1.2 ∧ (∀ id, is_job b (m st).1.2 id ↔ is_job b st id ∧ ¬ ((m st).1.1 = true ∧ id = j)) ∧
    ((m st).1.1 = true → queued st j)).
  { intros k Hk Hs Hq. destruct (drop_then_ZREM [] k j st Hk Hi Hs) as [H1 H2]. unfold mbind, Lua_bind.
    destruct (dropJob _ j st) as [[u1 st1] l1]. cbn [fst snd] in *. destruct (ZREM k j st1) as [[n st2] l2].
    cbn in *. split_and!; [done | | done]. intros id. rewrite H2. naive_solver. }
  unfold mbind, Lua_bind in Hz.
  destruct (zget (keys.Delayed b) st !! j) as [s|] eqn:E1.
  { specialize (Hz (keys.Delayed b)). cbn in *.
    destruct (dropJob _ j st) as [[u1 st1] l1]. destruct (ZREM _ j st1) as [[n st2] l2].
    apply Hz; [auto with lua | by rewrite E1 | left; by rewrite E1]. }
  destruct (zget (keys.Prioritized b) st !! j) as [s|] eqn:E2.
  { specialize (Hz (keys.Prioritized b)). cbn in *.
    destruct (dropJob _ j st) as [[u1 st1] l1]. destruct (ZREM _ j st1) as [[n st2] l2].
    apply Hz; [auto with lua | by rewrite E2 | right; left; by rewrite E2]. }
  clear Hz. set (k := match hgetall _ st !! _ with Some _ => keys.Paused b | None => keys.Wait b end).
  assert (Hk : k ∈ lplaces b) by (unfold k; case_match; auto with lua).
  unfold LREM_head. case_bool_decide as Hx; cbn [fst snd Z.ltb Z.compare].
  - set (st1 := lset k (remove_first j (lget k st)) st).
    destruct (drop_placed [] j st st1) as [H1 H2]; [apply inv_ltake; [done..|by apply remove_first_perm] | done|].
    destruct (dropJob _ j st1) as [[u st2] l2]. cbn [fst snd mret Lua_ret] in *. split_and!; [done | |].
    + intros id. rewrite H2. naive_solver.
    + intros _. unfold queued. revert Hx. unfold k. case_match; tauto.
  - cbn. split_and!; [done | | done]. intros id. naive_solver.
Qed.

(** The key of a schedule is no job's. *)
Lemma schedule_job_key sid : keys.Repeat b +:+ ":" +:+ sid = keys.Job b ("repeat:" +:+ sid).
Proof. unfold keys.Repeat, keys.Job. by rewrite <-!sapp_assoc. Qed.

Lemma template_no_job pend sid st : has_colon sid = false → inv b pend st → ¬ is_job b st ("repeat:" +:+ sid).
Proof. intros Hs Hi Hj. apply (inv_reserved _ _ _ Hi) in Hj as [Hj _]. specialize (Hj sid eq_refl). congruence. Qed.

Lemma given_unstamped (opts : any) f :
  ordinary f → unstamped (if truthy (field opts f) then [(f, str (field opts f))] else []).
Proof. intros Hf. destruct (truthy _); [by apply Forall_singleton | constructor]. Qed.

Lemma hoare_storeJobScheduler (cjson : any → string) pend id sid next opts data tmpl :
  has_colon sid = false →
  hoare (vacant pend id)
    (storeJobScheduler cjson sid (keys.Repeat b +:+ ":" +:+ sid) (keys.Repeat b) next opts data tmpl) (λ _, vacant pend id).
Proof.
  intros Hs. unfold storeJobScheduler. cbv zeta. rewrite schedule_job_key.
  eapply hoare_bind; [apply calm_vacant, calm_ZADD_repeat|]. intros [].
  eapply hoare_bind; [apply calm_vacant, calm_read|]. intros off.
  eapply hoare_bind; [apply calm_vacant, calm_read|]. intros ic.
  eapply hoare_bind with (R := λ _, vacant pend id).
  { apply hoare_modify. intros st (Hi & Hn & Hl & Ht & Hc). split_and!; [|  |done|done|done].
    - apply inv_hdel_other; [done|]. by eapply template_no_job.
    - unfold is_job. rewrite hgetall_hdel. case_bool_decide; [by intros [] | done]. }
  intros []. apply calm_vacant, calm_HMSET. unfold unstamped. rewrite !Forall_app.
  split_and!; try by apply given_unstamped.
  - by repeat constructor.
  - destruct (truthy (field opts "offset")); [by repeat constructor | destruct off; by repeat constructor].
  - destruct (String.eqb _ _); by repeat constructor.
  - destruct (String.eqb _ _); by repeat constructor.
  - by repeat constructor.
Qed.

(** The slots that [freeSlot] and [chooseSlot] name are free, or said to be taken. *)
Lemma hoare_freeSlot n sid every next :
  hoare (inv b []) (freeSlot n (keys.Base b) sid every next)
    (λ r st, inv b [] st ∧ ∀ m, r = Some m → vacant [] (iteration sid m) st).
Proof.
  revert next. induction n as [|n IH]; intros next; cbn [freeSlot]; [by apply hoare_ret|].
  eapply hoare_bind; [apply (hoare_HEXISTS_iteration [] sid)|]. intros [|].
  - eapply hoare_weaken; [|apply IH]. by intros st [].
  - apply hoare_ret. intros st [Hi Hv]. split; [done|]. intros m [= <-]. by apply Hv.
Qed.

Lemma chooseSlot_reads prefix sid every next st : (chooseSlot prefix sid every next st).1.2 = st.
Proof.
  assert (Hf : ∀ n e m, (freeSlot n prefix sid e m st).1.2 = st).
  { induction n as [|n IH]; intros e m; cbn [freeSlot]; [done|]. unfold mbind, Lua_bind, HEXISTS, gets.
    case_bool_decide; [|done]. specialize (IH e (m + e)). by destruct (freeSlot _ _ _ _ _ _) as [[]]. }
  unfold chooseSlot, mbind, Lua_bind, HEXISTS, gets. case_bool_decide; cbn [negb]; [|done].
  destruct every as [e|]; [|done]. specialize (Hf 32%nat e next). by destruct (freeSlot _ _ _ _ _ _) as [[]].
Qed.

Lemma hoare_chooseSlot sid every next :
  hoare (inv b []) (chooseSlot (keys.Base b) sid every next)
    (λ r st, inv b [] st ∧ ∀ n c, r = Some (n, c) →
      if c : bool then every = None ∧ n = next else vacant [] (iteration sid n) st).
Proof.
  unfold chooseSlot. eapply hoare_bind; [apply (hoare_HEXISTS_iteration [] sid)|]. intros [|]; cbn [negb].
  - destruct every as [e|]; [|apply hoare_ret; intros st [Hi _]; split; [done|]; by intros n c [= <- <-]].
    eapply hoare_bind; [eapply hoare_weaken; [|apply hoare_freeSlot]; by intros st []|]. intros r.
    apply hoare_ret. intros st [Hi Hr]. split; [done|]. intros n c E. destruct r as [m|]; [|done].
    injection E as <- <-. by apply Hr.
  - apply hoare_ret. intros st [Hi Hv]. split; [done|]. intros n c [= <- <-]. by apply Hv.
Qed.

(** A cron schedule is not given the slot of another job it has left behind
    while its current iteration is replaced. *)
Definition slot_free (args : list any) (st : store) : Prop :=
  let sid := str (argv args 3) in let next := default 0 (num (argv args 1)) in
  num (field (unpack (str (argv args 2))) "every") = None →
  ∀ m, zget (keys.Repeat b) st !! sid = Some m → m ≠ next → ¬ is_job b st (iteration sid next).

Lemma hoare_addJobScheduler (cjson : any → string) ks args :
  keyed ks [(1%nat, keys.Repeat b); (2%nat, keys.Delayed b); (3%nat, keys.Wait b); (4%nat, keys.Paused b);
            (6%nat, keys.Prioritized b)] →
  str (argv args 8) = keys.Base b → has_colon (str (argv args 3)) = false →
  hoare (λ st, inv b [] st ∧ slot_free args st) (addJobScheduler cjson ks args) (λ _, inv b []).
Proof.
  intros Hk Hp Hs. pose proof Hk as Hk0. repeat (apply Forall_cons in Hk0 as [? Hk0]). cbn [fst snd] in *.
  unfold addJobScheduler. cbv zeta. rewrite Hp.
  match goal with E : key ks 1 = _ |- _ => rewrite E end.
  set (sid := str (argv args 3)) in *. set (every := num (field (unpack (str (argv args 2))) "every")).
  apply hoare_keep.
  { intros st [Hi Hf]. pose proof (calm_maxEvents (key ks 5) st) as (E1 & E2 & E3).
    assert (Ez : zget (keys.Repeat b) (getOrSetMaxEvents (key ks 5) st).1.2 = zget (keys.Repeat b) st).
    { unfold zget. by rewrite (proj2 (maxEvents_places _ _)). }
    split; [eapply inv_via; [exact Hi | by rewrite E1 | exact E3 | exact E2]|].
    unfold slot_free. cbv zeta. rewrite Ez. intros He m Hm Hne. rewrite E3. by eapply Hf. }
  intros _. eapply hoare_bind; [apply hoare_gets|]. intros prev. cbn beta.
  eapply hoare_bind; [apply hoare_read|]. intros prevEvery. cbn beta zeta.
  set (slot := nextSlot every _ _ _ _ _).
  set (replaced := λ st, is_Some prev ∧ (every = None → ¬ is_job b st (iteration sid slot.1))).
  eapply hoare_bind with (R := λ removed st, inv b [] st ∧ (removed = true → replaced st)).
  { destruct prev as [p|]; [|apply hoare_ret; by intros st [[Hi _] _]]. rewrite iteration_key.
    unfold HEXISTS. eapply hoare_bind; [apply hoare_read|]. intros [|]; [|apply hoare_ret; by intros st [[Hi _] _]].
    intros st [[Hi Hf] Hprev].
    destruct (removeJobFromScheduler_state ks (iteration sid p) st) as (Hi' & Hj & _); [by repeat constructor | done|].
    split; [done|]. intros Hr. split; [by eexists|]. intros He Hx. apply Hj in Hx as [Hx Hne].
    destruct (decide (p = slot.1)) as [Ep|Hn]; [apply Hne; split; [exact Hr | by rewrite <-Ep]|]. assert (Es : slot.1 = default 0 (num (argv args 1))) by (unfold slot; by rewrite He). rewrite Es in Hn, Hx.
    by apply (Hf He p (eq_sym Hprev) Hn). }
  intros removed. set (next := match prev with Some _ => _ | None => _ end).
  eapply hoare_bind with (R := λ r st, inv b [] st ∧ ∀ n c, r = Some (n, c) →
    negb c || removed = true → vacant [] (iteration sid n) st).
  { intros st [Hi Hb]. destruct (hoare_chooseSlot sid every next st Hi) as [Hi' Hr].
    rewrite chooseSlot_reads in *. split; [done|]. intros n c E. specialize (Hr n c E). destruct c; [|done].
    destruct Hr as [He ->]. cbn. intros ->. apply iteration_vacant; [done|]. unfold next. rewrite He.
    destruct (Hb eq_refl) as [[p Ep] Hn]. rewrite Ep. by apply Hn. }
  intros [[n c]|]; [|apply hoare_ret; by intros st []]. destruct (negb c || removed) eqn:Ec; [|apply hoare_ret; by intros st []].
  eapply hoare_weaken; [intros st [_ Hv]; exact (Hv n c eq_refl Ec)|].
  eapply hoare_bind; [by apply hoare_storeJobScheduler|]. intros [].
  eapply hoare_bind; [apply calm_vacant, calm_INCR|]. intros i. rewrite iteration_key.
  eapply hoare_bind; [apply hoare_addJobFromScheduler; by repeat constructor|]. intros []. by lua_step.
Qed.

Lemma hoare_removeJob ks args :
  str (argv args 3) = keys.Base b → hoare (inv b []) (removeJob ks args) (λ _, inv b []).
Proof.
  intros Hp. unfold removeJob, HGET. rewrite Hp. lua_step.
  apply hoare_keep; [lua_step; [lua_rule | by lua_step]|]. intros z. lua_step; [by lua_step|].
  lua_step. lua_step; [by lua_step|]. set (j := str (argv args 1)).
  eapply hoare_bind; [apply hoare_fromAnyState|]. intros [].
  eapply hoare_bind; [apply hoare_dropJob|]. intros []. by lua_step.
Qed.

(** Two lists after a shuffle between them. *)
Lemma inv_lmove pend st k1 k2 l1 l2 :
  inv b pend st → k1 ∈ lplaces b → k2 ∈ lplaces b → k1 ≠ k2 → l1 ++ l2 ≡ₚ lget k1 st ++ lget k2 st →
  inv b pend (lset k2 l2 (lset k1 l1 st)).
Proof.
  intros Hi H1 H2 Hne Hp. eapply inv_places; [exact Hi | | done | done]. f_equiv.
  destruct (ids_lset b k1 l1 st H1) as (r1 & E1 & E2).
  destruct (ids_lset b k2 l2 (lset k1 l1 st) H2) as (r2 & E3 & E4).
  rewrite lget_lset, bool_decide_eq_false_2 in E3 by done.
  apply (Permutation_app_inv_l l1). rewrite E1, E4, (assoc_L (++) l1 l2), Hp, <-(assoc_L (++) _ _ r2), <-E3, E2.
  solve_Permutation.
Qed.

Lemma hoare_pause pend ks args :
  (str (argv args 1) ≠ "paused" → keyed ks [(1%nat, keys.Paused b); (2%nat, keys.Wait b)]) →
  hoare (inv b pend) (pause ks args) (λ _, inv b pend).
Proof.
  intros Hk. unfold pause. destruct (String.eqb_spec (str (argv args 1)) "paused") as [E|E].
  { lua_step. by lua_step. }
  specialize (Hk E). use_keys Hk. apply hoare_keep; [apply hoare_HDEL; set_solver|]. intros _.
  eapply hoare_bind; [apply hoare_gets|]. intros src. eapply hoare_bind; [apply hoare_gets|]. intros dst.
  assert (keys.Paused b ≠ keys.Wait b) as Hne by by intros ?%sapp_inv_head.
  intros st [[Hi ->] ->].
  assert (Hp : keys.Paused b ∈ lplaces b) by auto with lua. assert (Hw : keys.Wait b ∈ lplaces b) by auto with lua.
  destruct (lget (keys.Paused b) st) as [|x src] eqn:E1; cbn; [done|].
  destruct (lget (keys.Wait b) st) as [|y dst] eqn:E2;
    unfold mbind, Lua_bind, modify, mret, Lua_ret; cbn [fst snd].
  - apply inv_lmove; [done..|]. by rewrite E1, E2, app_nil_r.
  - rewrite <-E2. apply inv_lmove; [done..| by apply not_eq_sym |]. rewrite E1, E2.
    rewrite <-(assoc_L (++)), (take_drop _ (x :: src)). by rewrite Permutation_app_comm.
Qed.

Lemma hoare_updateData pend ks args : hoare (inv b pend) (updateData ks args) (λ _, inv b pend).
Proof. unfold updateData, HEXISTS. lua_step. lua_step; [lua_step|]; by lua_step. Qed.

Lemma hoare_updateProgress pend ks args : hoare (inv b pend) (updateProgress ks args) (λ _, inv b pend).
Proof. unfold updateProgress, HEXISTS. lua_step. lua_step; [lua_step; lua_step|]; by lua_step. Qed.

(** ** Every script *)

(** What each script asks of its KEYS and ARGV: the documented keys of the
    queue at the positions that matter, the queue's prefix, the HASH of the job
    that ARGV names, packed fields that leave the timestamp alone, and an id
    without colon for a schedule. *)
Definition proper_call (n : ScriptName) (ks : list string) (args : list any) : Prop :=
  match n with
  | AddStandardJob =>
      keyed ks [(1%nat, keys.Wait b); (4%nat, keys.ID b)] ∧ add_args_ok args
  | AddDelayedJob =>
      keyed ks [(3%nat, keys.ID b); (4%nat, keys.Delayed b)] ∧ add_args_ok args
  | AddPrioritizedJob =>
      keyed ks [(3%nat, keys.ID b); (4%nat, keys.Prioritized b); (9%nat, keys.PriorityCounter b)] ∧ add_args_ok args
  | MoveToActive =>
      keyed ks [(1%nat, keys.Wait b); (2%nat, keys.Active b); (3%nat, keys.Prioritized b);
        (6%nat, keys.Limiter b); (7%nat, keys.Delayed b); (10%nat, keys.PriorityCounter b); (9%nat, keys.Meta b)]
  | MoveToFinished =>
      keyed ks [(1%nat, keys.Wait b); (2%nat, keys.Active b); (3%nat, keys.Prioritized b);
        (6%nat, keys.Limiter b); (7%nat, keys.Delayed b); (10%nat, keys.PriorityCounter b);
        (12%nat, keys.Job b (str (argv args 1))); (9%nat, keys.Meta b)] ∧
      (key ks 11 = keys.Completed b ∨ key ks 11 = keys.Failed b) ∧ ordinary (str (argv args 3)) ∧
      str (argv args 7) = keys.Base b ∧
      fields_ok (str (argv args 9))
  | RetryJob =>
      keyed ks [(1%nat, keys.Active b); (2%nat, keys.Wait b); (4%nat, keys.Job b (str (argv args 4)));
        (7%nat, keys.Delayed b); (8%nat, keys.Prioritized b); (9%nat, keys.PriorityCounter b)] ∧
      fields_ok (str (argv args 6))
  | MoveToDelayed =>
      keyed ks [(2%nat, keys.Active b); (3%nat, keys.Prioritized b); (4%nat, keys.Delayed b);
        (5%nat, keys.Job b (str (argv args 3))); (9%nat, keys.Wait b); (10%nat, keys.Limiter b);
        (11%nat, keys.PriorityCounter b)] ∧ fields_ok (str (argv args 7))
  | MoveStalledJobsToWait => keyed ks [(2%nat, keys.Wait b); (3%nat, keys.Active b)]
  | UpdateJobScheduler =>
      keyed ks [(1%nat, keys.Repeat b); (2%nat, keys.Delayed b); (3%nat, keys.Wait b); (6%nat, keys.Prioritized b);
        (8%nat, keys.ID b); (10%nat, keys.PriorityCounter b)]
  | Promote =>
      keyed ks [(1%nat, keys.Delayed b); (2%nat, keys.Wait b); (5%nat, keys.Prioritized b);
        (7%nat, keys.PriorityCounter b)]
  | ReprocessJob =>
      keyed ks [(4%nat, keys.Wait b); (8%nat, keys.Prioritized b); (9%nat, keys.PriorityCounter b)] ∧
      (key ks 3 = keys.Completed b ∨ key ks 3 = keys.Failed b) ∧ str (argv args 3) ≠ "timestamp"
  | RemoveJob => str (argv args 3) = keys.Base b
  | Pause => str (argv args 1) ≠ "paused" → keyed ks [(1%nat, keys.Paused b); (2%nat, keys.Wait b)]
  | AddJobScheduler =>
      keyed ks [(1%nat, keys.Repeat b); (2%nat, keys.Delayed b); (3%nat, keys.Wait b); (4%nat, keys.Paused b);
        (6%nat, keys.Prioritized b); (8%nat, keys.ID b); (10%nat, keys.PriorityCounter b)] ∧
      str (argv args 8) = keys.Base b ∧ has_colon (str (argv args 3)) = false
  | Drain =>
      keyed ks [(1%nat, keys.Wait b); (2%nat, keys.Paused b); (3%nat, keys.Delayed b); (4%nat, keys.Prioritized b);
        (5%nat, keys.Repeat b)] ∧ str (argv args 1) = keys.Base b
  | _ => True
  end.

(** The two calls that are not right in every state: a drain while a current
    iteration waits in a list, and a cron schedule set up on a slot that still
    has the job of an older iteration. *)
Definition timely (n : ScriptName) (args : list any) (st : store) : Prop :=
  match n with
  | Drain => drainable st
  | AddJobScheduler => slot_free args st
  | _ => True
  end.

Lemma hoare_ok {A B} P Q (m : Lua A) (f : A → B) : hoare P m (λ _, Q) → hoare P (v ← m; mret (f v)) (λ _, Q).
Proof. intros Hm. eapply hoare_bind; [exact Hm|]. intros v. by apply hoare_ret. Qed.

Lemma hoare_addStandardJob cjson ks args :
  keyed ks [(1%nat, keys.Wait b); (4%nat, keys.ID b)] → add_args_ok args →
  hoare (inv b []) (addStandardJob cjson o ks args) (λ _, inv b []).
Proof.
  intros Hk Ha. unfold addStandardJob. use_keys Hk. apply hoare_addJob; [done|]. intros. lua_rule.
Qed.

Lemma hoare_addDelayedJob cjson ks args :
  keyed ks [(3%nat, keys.ID b); (4%nat, keys.Delayed b)] → add_args_ok args →
  hoare (inv b []) (addDelayedJob cjson o ks args) (λ _, inv b []).
Proof.
  intros Hk Ha. unfold addDelayedJob. use_keys Hk. apply hoare_addJob; [done|]. intros.
  lua_step. apply hoare_ZADD. auto with lua.
Qed.

Lemma hoare_addPrioritizedJob cjson ks args :
  keyed ks [(3%nat, keys.ID b); (4%nat, keys.Prioritized b)] → add_args_ok args →
  hoare (inv b []) (addPrioritizedJob cjson o ks args) (λ _, inv b []).
Proof.
  intros Hk Ha. unfold addPrioritizedJob. use_keys Hk. apply hoare_addJob; [done|]. intros. lua_rule.
Qed.

(** Every script, properly called, keeps every job in one place. *)
Lemma script_inv cjson n ks args :
  proper_call n ks args → hoare (λ st, inv b [] st ∧ timely n args st) (script cjson o n ks args) (λ _, inv b []).
Proof.
  destruct n; cbn [proper_call script timely]; intros Hp; cbv zeta;
    first [apply hoare_ret; by intros st [] | apply hoare_ok | idtac];
    try match goal with |- hoare (λ st, _ ∧ True) _ _ => eapply hoare_weaken; [intros st [Hi _]; exact Hi|] end.
  - destruct Hp as [??]. by apply hoare_addStandardJob.
  - destruct Hp as [??]. by apply hoare_addDelayedJob.
  - destruct Hp as [Hk ?]. apply (keyed_take 2) in Hk. by apply hoare_addPrioritizedJob.
  - apply (keyed_take 6) in Hp. by apply hoare_moveToActive.
  - destruct Hp as (Hk & Hs & ? & ? & ?). apply (keyed_take 7) in Hk. apply hoare_moveToFinished; try done. destruct Hs as [-> | ->]; auto with lua.
  - apply hoare_extendLock.
  - apply hoare_releaseLock.
  - destruct Hp as [Hk ?]. apply (keyed_take 5) in Hk. by apply hoare_retryJob.
  - destruct Hp as [??]. by apply hoare_moveToDelayed.
  - by apply hoare_moveStalled.
  - destruct Hp as (Hk & ? & ?). apply (keyed_take 5) in Hk. by apply hoare_addJobScheduler.
  - apply (keyed_take 4) in Hp. by apply hoare_updateJobScheduler.
  - apply hoare_updateProgress.
  - apply hoare_updateData.
  - by apply hoare_removeJob.
  - destruct Hp as [Hk Hb]. intros st [Hi Hd]. by apply drain_state.
  - apply (keyed_take 3) in Hp. by apply hoare_promote.
  - destruct Hp as (Hk & Hs & ?). apply (keyed_take 2) in Hk. apply hoare_reprocess; [done | | done].
    destruct Hs as [-> | ->]; auto with lua.
  - by apply hoare_pause.
Qed.
End scripts_inv.
