(* ===== verification/Inspect.v ===== *)
(** * Inspection and administration

    inspector.go, inspector_list.go, inspector_admin.go, job_mutation.go and
    queue_metrics.go: counting and listing jobs, removing, promoting, retrying
    and draining them, pausing and resuming a queue, the per-job mutations and
    the metrics snapshot. The Go type names that some messages end with are
    left out of the error texts. *)

From S2P Require Import Prelude GoLib Keys Backoff Effects Json Jobs Proto Cron Config Queue Redis RedisInv.

(** ** Buckets *)

(** [type JobBucket string]: any string converts to it. *)
Definition JobBucket : Type := string.
Definition JobBucketWait : JobBucket := "wait".
Definition JobBucketActive : JobBucket := "active".
Definition JobBucketDelayed : JobBucket := "delayed".
Definition JobBucketPrioritized : JobBucket := "prioritized".
Definition JobBucketCompleted : JobBucket := "completed".
Definition JobBucketFailed : JobBucket := "failed".
Definition JobBucketPaused : JobBucket := "paused".

Definition allBuckets : list JobBucket :=
  [JobBucketWait; JobBucketActive; JobBucketDelayed; JobBucketPrioritized; JobBucketCompleted;
   JobBucketFailed; JobBucketPaused].

Record QueueCounts := mkCounts {
  Wait : Z; Active : Z; Delayed : Z; Prioritized : Z; Completed : Z; Failed : Z; Paused : Z;
}.

Definition zeroCounts : QueueCounts := mkCounts 0 0 0 0 0 0 0.

Definition assignBucket (c : QueueCounts) (b : JobBucket) (n : Z) : QueueCounts :=
  let '(mkCounts w a d p co f pa) := c in
  if String.eqb b JobBucketWait then mkCounts n a d p co f pa
  else if String.eqb b JobBucketActive then mkCounts w n d p co f pa
  else if String.eqb b JobBucketDelayed then mkCounts w a n p co f pa
  else if String.eqb b JobBucketPrioritized then mkCounts w a d n co f pa
  else if String.eqb b JobBucketCompleted then mkCounts w a d p n f pa
  else if String.eqb b JobBucketFailed then mkCounts w a d p co n pa
  else if String.eqb b JobBucketPaused then mkCounts w a d p co f n
  else c.

Definition setPaused (c : QueueCounts) (n : Z) : QueueCounts :=
  mkCounts (Wait c) (Active c) (Delayed c) (Prioritized c) (Completed c) (Failed c) n.

Definition containsBucket (buckets : list JobBucket) (want : JobBucket) : bool :=
  existsb (λ b, String.eqb b want) buckets.

Definition isListBucket (b : JobBucket) : bool :=
  String.eqb b JobBucketWait || String.eqb b JobBucketPaused || String.eqb b JobBucketActive.

Definition errJobID : err := EText "mkq: jobID must be non-empty".

Section inspect.
Context `{GoArch} {T : Type} `{Payload T}.
Variable q : Queue.

(** ** inspector.go *)

Definition IsPaused : M (res bool) :=
  r ← ask (RHExists CtxCaller (keys.Meta (q_keys q)) "paused");
  mret match r with inl e => inl (Errorw "mkq: isPaused" e) | inr b => inr b end.

(** The loop over the answers: the counts so far and the wait count. *)
Fixpoint collectCounts (wantWait : bool) (query : list JobBucket) (arr : list any)
    (out : QueueCounts) (waitCount : Z) : QueueCounts * Z :=
  match query, arr with
  | b :: query, raw :: arr =>
      let n := (toInt64 raw).1 in
      if String.eqb b JobBucketWait then
        if negb wantWait then collectCounts wantWait query arr out n
        else collectCounts wantWait query arr (assignBucket out b n) n
      else collectCounts wantWait query arr (assignBucket out b n) waitCount
  | _, _ => (out, waitCount)
  end.

Definition Counts (buckets : list JobBucket) : M (res QueueCounts) :=
  let buckets := match buckets with [] => allBuckets | _ => buckets end in
  let wantPaused := containsBucket buckets JobBucketPaused in
  let wantWait := containsBucket buckets JobBucketWait in
  let query := if wantPaused && negb wantWait then buckets ++ [JobBucketWait] else buckets in
  r ← ask (RScript CtxCaller GetCounts [keys.Base (q_keys q)] (AStr <$> query));
  match r with
  | inl e => mret (inl (Errorw "mkq: getCounts" e))
  | inr (AArr arr) =>
      if negb (length arr =? length query)%nat then
        mret (inl (EText ("mkq: getCounts: result length " +:+ FormatInt (Z.of_nat (length arr)) +:+
          " != buckets " +:+ FormatInt (Z.of_nat (length query)))))
      else
        let '(out, waitCount) := collectCounts wantWait query arr zeroCounts 0 in
        if wantPaused && (Paused out =? 0) then
          p ← IsPaused;
          mret match p with
          | inl e => inl e
          | inr true => inr (setPaused out waitCount)
          | inr false => inr out
          end
        else mret (inr out)
  | inr _ => mret (inl (EText "mkq: getCounts: unexpected result type"))
  end.

(** ** inspector_list.go *)

Definition ListedJob : Type := JobT T * JobState.

Fixpoint toStrings (i : nat) (arr : list any) : res (list string) :=
  match arr with
  | [] => inr []
  | AStr s :: arr =>
      match toStrings (S i) arr with inl e => inl e | inr l => inr (s :: l) end
  | _ :: _ => inl (EText ("element " +:+ FormatInt (Z.of_nat i) +:+ " not a string"))
  end.

Definition toStringSlice (v : any) : res (list string) :=
  match v with
  | ANil => inr []
  | AArr arr => toStrings 0 arr
  | _ => inl (EText "expected []any")
  end.

(** The reply of HGETALL in a pipeline. *)
Definition hashOf (v : any) : gmap string string :=
  match v with
  | AMap m => list_to_map ((λ kv, (kv.1, match kv.2 with AStr s => s | _ => "" end)) <$> m)
  | _ => ∅
  end.

(** [cmds[i].Result()]; a command the pipeline never answered has no value. *)
Definition cmdResult (cmds : list (res any)) (i : nat) : res any :=
  match cmds !! i with Some r => r | None => inr ANil end.

Definition attached (j : JobT T) : JobT T :=
  mkJob (Job_ID j) (Job_Name j) (Job_Data j) (Job_Timestamp j) (Job_AttemptsMade j)
    (Job_AttemptsStarted j) (Job_StalledCounter j) (Job_ProcessedBy j) true.

(** The loop over the answers, from the id at index [i] on. *)
Fixpoint collectJobs (cmds : list (res any)) (i : nat) (ids : list string)
    : res (list ListedJob) :=
  match ids with
  | [] => inr []
  | id :: ids =>
      match cmdResult cmds i with
      | inl (ESent RedisNil) => collectJobs cmds (S i) ids
      | inl e => inl (Errorw ("mkq: HGetAll " +:+ id) e)
      | inr v =>
          let hash := hashOf v in
          if bool_decide (hash = ∅) then collectJobs cmds (S i) ids
          else match buildJob (T := T) id hash with
          | inl e => inl (Errorw ("mkq: buildJob " +:+ id) e)
          | inr j =>
              match collectJobs cmds (S i) ids with
              | inl e => inl e
              | inr out => inr ((attached j, buildJobState hash) :: out)
              end
          end
      end
  end.

Definition fetchJobs (ids : list string) : M (res (list ListedJob)) :=
  r ← ask (RPipeline CtxCaller ((λ id, CHGetAll (keys.Job (q_keys q) id)) <$> ids));
  mret match r.1 with
  | Some (ESent RedisNil) | None => collectJobs r.2 0 ids
  | Some e => inl (Errorw "mkq: pipeline HGetAll" e)
  end.

(** The bucket to read, or [None] when there is nothing to list. *)
Definition listSource (bucket : JobBucket) : M (res (option JobBucket)) :=
  if String.eqb bucket JobBucketPaused then
    l ← ask (RLLen CtxCaller (keys.Paused (q_keys q)));
    match l with
    | inl e => mret (inl (Errorw "mkq: LLEN paused" e))
    | inr legacy =>
        if legacy =? 0 then
          p ← IsPaused;
          mret match p with
          | inl e => inl e
          | inr false => inr None
          | inr true => inr (Some JobBucketWait)
          end
        else mret (inr (Some bucket))
    end
  else mret (inr (Some bucket)).

Definition ListJobs (bucket : JobBucket) (start stop : Z) (ascending : bool)
    : M (res (list ListedJob)) :=
  src ← listSource bucket;
  match src with
  | inl e => mret (inl e)
  | inr None => mret (inr [])
  | inr (Some source) =>
      r ← ask (RScript CtxCaller GetRanges [keys.Base (q_keys q)]
        [AStr (FormatInt start); AStr (FormatInt stop); AStr (if ascending then "1" else "0");
         AStr source]);
      match r with
      | inl e => mret (inl (Errorw "mkq: getRanges" e))
      | inr (AArr []) => mret (inr [])
      | inr (AArr (v :: _)) =>
          match toStringSlice v with
          | inl e => mret (inl (Errorw "mkq: getRanges" e))
          | inr [] => mret (inr [])
          | inr ids => fetchJobs (if ascending && isListBucket source then rev ids else ids)
          end
      | inr _ => mret (inl (EText "mkq: getRanges: unexpected result type"))
      end
  end.

(** ** inspector_admin.go *)

Definition RemoveJob (jobID : string) : M (option err) :=
  if String.eqb jobID "" then mret (Some errJobID) else
  r ← ask (RScript CtxCaller Effects.RemoveJob [keys.Job (q_keys q) jobID; keys.Repeat (q_keys q)]
    [AStr jobID; AStr "0"; AStr (keys.Base (q_keys q))]);
  mret match r with
  | inl e => Some (Errorw "mkq: removeJob" e)
  | inr (AInt64 code) =>
      if code =? 1 then None
      else if code =? 0 then Some (ESent ErrJobActive)
      else if code =? -8 then Some (ESent ErrJobIsScheduler)
      else Some (EText ("mkq: removeJob returned error code " +:+ FormatInt code))
  | inr _ => Some (EText "mkq: removeJob: unexpected result type")
  end.

Definition DrainOption : Type := bool → bool.
Definition WithDrainDelayed (b : bool) : DrainOption := λ _, b.

(** The configuration is its one field, [includeDelayed]. *)
Definition DrainPending (opts : list DrainOption) : M (option err) :=
  let includeDelayed := applyOptions opts false in
  let b := q_keys q in
  r ← ask (RScript CtxCaller Drain
    [keys.Wait b; keys.Paused b; keys.Delayed b; keys.Prioritized b; keys.Repeat b]
    [AStr (keys.Base b); AStr (if includeDelayed then "1" else "0")]);
  mret match r with
  | inl e => if Is e RedisNil then None else Some (Errorw "mkq: drain" e)
  | inr _ => None
  end.

Definition PromoteJob (jobID : string) : M (option err) :=
  if String.eqb jobID "" then mret (Some errJobID) else
  let b := q_keys q in
  r ← ask (RScript CtxCaller Promote
    [keys.Delayed b; keys.Wait b; keys.Paused b; keys.Meta b; keys.Prioritized b; keys.Active b;
     keys.PriorityCounter b; keys.Events b; keys.Marker b]
    [AStr (keys.Base b); AStr jobID]);
  mret match r with
  | inl e => Some (Errorw "mkq: promote" e)
  | inr (AInt64 code) =>
      if code =? 0 then None
      else if code =? -3 then Some (ESent ErrJobNotInDelayed)
      else Some (EText ("mkq: promote returned error code " +:+ FormatInt code))
  | inr _ => Some (EText "mkq: promote: unexpected result type")
  end.

Record retryConfig := mkRetry { fromState : JobBucket; resetAtm : bool; resetAts : bool }.

Definition RetryOption : Type := retryConfig → retryConfig.
Definition WithRetryFromState (state : JobBucket) : RetryOption := λ c,
  mkRetry state (resetAtm c) (resetAts c).
Definition WithResetAttempts (reset : bool) : RetryOption := λ c,
  mkRetry (fromState c) reset reset.

Definition RetryJob (jobID : string) (opts : list RetryOption) : M (option err) :=
  if String.eqb jobID "" then mret (Some errJobID) else
  let c := applyOptions opts (mkRetry JobBucketFailed true true) in
  let b := q_keys q in
  match (if String.eqb (fromState c) JobBucketFailed then
           Some (keys.Failed b, "failedReason", "failed")
         else if String.eqb (fromState c) JobBucketCompleted then
           Some (keys.Completed b, "returnvalue", "completed")
         else None) with
  | None => mret (Some (EText ("mkq: RetryJob source state " +:+ Quote (fromState c) +:+
      " must be JobBucketFailed or JobBucketCompleted")))
  | Some (stateKey, propVal, prevState) =>
  r ← ask (RScript CtxCaller ReprocessJob
    [keys.Job b jobID; keys.Events b; stateKey; keys.Wait b; keys.Meta b; keys.Active b;
     keys.Marker b; keys.Prioritized b; keys.PriorityCounter b]
    [AStr jobID; AStr "LPUSH"; AStr propVal; AStr prevState;
     AStr (if resetAtm c then "1" else "0"); AStr (if resetAts c then "1" else "0")]);
  mret match r with
  | inl e => Some (Errorw "mkq: reprocessJob" e)
  | inr (AInt64 code) =>
      if code =? 1 then None
      else if code =? -1 then Some (ESent ErrJobNotFound)
      else if code =? -3 then Some (ESent ErrJobNotInExpectedState)
      else Some (EText ("mkq: reprocessJob returned error code " +:+ FormatInt code))
  | inr _ => Some (EText "mkq: reprocessJob: unexpected result type")
  end
  end.

Definition legacyDrainRounds : nat := 100.

Definition runPauseScript (source target event : string) : M (res Z) :=
  let b := q_keys q in
  r ← ask (RScript CtxCaller Effects.Pause
    [source; target; keys.Meta b; keys.Prioritized b; keys.Events b; keys.Delayed b; keys.Marker b]
    [AStr event; AStr "1"]);
  mret match r with
  | inl e => if Is e RedisNil then inr 0 else inl (Errorw ("mkq: " +:+ event) e)
  | inr (AInt64 remaining) => inr remaining
  | inr _ => inr 0
  end.

(** [rounds] is what is left of the cap. *)
Fixpoint pauseRounds (rounds : nat) (source target event : string) : M (option err) :=
  r ← runPauseScript source target event;
  match r with
  | inl e => mret (Some e)
  | inr remaining =>
      if remaining <=? 0 then mret None
      else match rounds with
      | O | S O => mret (Some (EText ("mkq: " +:+ event +:+ ": " +:+ FormatInt remaining +:+
          " jobs still parked in the legacy paused list after " +:+
          FormatInt (Z.of_nat legacyDrainRounds) +:+ " rounds")))
      | S rounds => pauseRounds rounds source target event
      end
  end.

Definition pauseResume (source target event : string) : M (option err) :=
  pauseRounds legacyDrainRounds source target event.

Definition Pause : M (option err) :=
  pauseResume (keys.Wait (q_keys q)) (keys.Paused (q_keys q)) "paused".
Definition Resume : M (option err) :=
  pauseResume (keys.Paused (q_keys q)) (keys.Wait (q_keys q)) "resumed".

(** ** job_mutation.go *)

Definition classifyMutationResult (r : any) : option err :=
  match r with
  | AInt64 code =>
      if code =? -1 then Some (ESent ErrJobNotFound)
      else if code <? 0 then
        Some (EText ("mkq: mutation lua returned error code " +:+ FormatInt code))
      else None
  | _ => None
  end.

(** [progress] is observed through [json.Marshal] alone. *)
Definition UpdateJobProgress (jobID : string) (progress : res string) : M (option err) :=
  if String.eqb jobID "" then mret (Some errJobID) else
  match progress with
  | inl e => mret (Some (Errorw "mkq: marshal progress" e))
  | inr progJSON =>
      let b := q_keys q in
      r ← ask (RScript CtxCaller Effects.UpdateProgress [keys.Job b jobID; keys.Events b; keys.Meta b]
        [AStr jobID; AStr progJSON]);
      mret match r with
      | inl e => Some (Errorw "mkq: updateProgress" e)
      | inr v => classifyMutationResult v
      end
  end.

Definition UpdateJobData (jobID : string) (data : T) : M (option err) :=
  if String.eqb jobID "" then mret (Some errJobID) else
  match MarshalJSON data with
  | inl e => mret (Some (Errorw "mkq: marshal data" e))
  | inr dataJSON =>
      r ← ask (RScript CtxCaller Effects.UpdateData [keys.Job (q_keys q) jobID] [AStr dataJSON]);
      mret match r with
      | inl e => Some (Errorw "mkq: updateData" e)
      | inr v => classifyMutationResult v
      end
  end.

Definition AppendJobLog (jobID line : string) : M (option err) :=
  if String.eqb jobID "" then mret (Some errJobID) else
  r ← ask (RScript CtxCaller AddLog [keys.Job (q_keys q) jobID; keys.JobLogs (q_keys q) jobID]
    [AStr jobID; AStr line; AStr ""]);
  mret match r with
  | inl e => Some (Errorw "mkq: addLog" e)
  | inr (AInt64 code) => if code <? 0 then Some (ESent ErrJobNotFound) else None
  | inr _ => None
  end.

(** The methods of a job: its queue back-pointer decides. *)
Definition UpdateProgress (j : JobT T) (progress : res string) : M (option err) :=
  if negb (Job_queue j) then mret (Some (ESent ErrJobDetached))
  else UpdateJobProgress (Job_ID j) progress.
Definition UpdateData (j : JobT T) (d : T) : M (option err) :=
  if negb (Job_queue j) then mret (Some (ESent ErrJobDetached)) else UpdateJobData (Job_ID j) d.
Definition Log (j : JobT T) (line : string) : M (option err) :=
  if negb (Job_queue j) then mret (Some (ESent ErrJobDetached)) else AppendJobLog (Job_ID j) line.

Record JobLogs := mkJobLogs { Logs : list string; LogCount : Z }.

Definition stringsOf (v : any) : list string :=
  match v with AArr l => (λ x, match x with AStr s => s | _ => "" end) <$> l | _ => [] end.

(** A command's error, [redis.Nil] not counting as one. *)
Definition realErr (e : option err) : option err :=
  match e with Some e => if Is e RedisNil then None else Some e | None => None end.

Definition errOf (r : res any) : option err := match r with inl e => Some e | inr _ => None end.

Definition GetJobLogs (jobID : string) (start stop : Z) : M (res JobLogs) :=
  if String.eqb jobID "" then mret (inl errJobID) else
  let key := keys.JobLogs (q_keys q) jobID in
  r ← ask (RPipeline CtxCaller [CLRange key start stop; CLLen key]);
  let lrange := cmdResult r.2 0 in
  let llen := cmdResult r.2 1 in
  mret match realErr r.1, realErr (errOf lrange), realErr (errOf llen) with
  | Some e, _, _ | None, Some e, _ | None, None, Some e =>
      inl (Errorw ("mkq: getJobLogs " +:+ jobID) e)
  | None, None, None =>
      inr (mkJobLogs (match lrange with inr v => stringsOf v | inl _ => [] end)
             (match llen with inr v => (toInt64 v).1 | inl _ => 0 end))
  end.

(** ** queue_metrics.go *)

Record QueueMetricsMeta := mkMetricsMeta { MCount : Z; PrevTS : Z; PrevCount : Z }.
Record QueueMetrics := mkMetrics { Meta : QueueMetricsMeta; Data : list Z; Count : Z }.

Definition parseMetricsInt (v : any) : Z :=
  match v with
  | ANil => 0
  | AStr x => if String.eqb x "" then 0 else (ParseIntV x).1
  | AInt64 x => x
  | v => let '(n, ok) := toInt64 v in if ok then n else 0
  end.

Definition parseMetricsMeta (raw : any) : res QueueMetricsMeta :=
  match raw with
  | AArr [a; b; c] =>
      inr (mkMetricsMeta (parseMetricsInt a) (parseMetricsInt b) (parseMetricsInt c))
  | AArr arr => inl (EText ("mkq: getMetrics meta: expected 3 fields, got " +:+
      FormatInt (Z.of_nat (length arr))))
  | _ => inl (EText "mkq: getMetrics meta: unexpected type")
  end.

Definition parseMetricsData (raw : any) : res (list Z) :=
  match raw with
  | AArr arr => inr (parseMetricsInt <$> arr)
  | _ => inl (EText "mkq: getMetrics data: unexpected type")
  end.

Definition GetMetrics (kind : JobBucket) (start stop : Z) : M (res QueueMetrics) :=
  if negb (String.eqb kind JobBucketCompleted) && negb (String.eqb kind JobBucketFailed) then
    mret (inl (EWrap (sentinel_text ErrInvalidMetricsBucket +:+ " (got " +:+ Quote kind +:+ ")")
                 (ESent ErrInvalidMetricsBucket)))
  else
  let metricsKey := keys.Metrics (q_keys q) kind in
  r ← ask (RScript CtxCaller Effects.GetMetrics [metricsKey; metricsKey +:+ ":data"]
    [AInt64 start; AInt64 stop]);
  mret match r with
  | inl e => inl (Errorw "mkq: getMetrics" e)
  | inr (AArr [a0; a1; a2]) =>
      match parseMetricsMeta a0, parseMetricsData a1 with
      | inl e, _ | inr _, inl e => inl e
      | inr meta, inr data => inr (mkMetrics meta data (toInt64 a2).1)
      end
  | inr _ => inl (EText "mkq: getMetrics: unexpected result type")
  end.
End inspect.

(** ** Redis, as the inspection reads it

    The store of Redis.v under the commands and scripts that inspection uses, every
    one of them at the keys it is given. Lists hold the newest job first, sorted
    sets the lowest score first. The deprecated markers that old versions left in
    the wait list are not there. *)

(** The jobs of one state, at the key the scripts form from the prefix. *)
Definition inState (prefix : string) (st : store) (b : JobBucket) : list string :=
  if String.eqb b "wait" || String.eqb b "paused" || String.eqb b "active" then lua.lget (prefix +:+ b) st
  else (lua.zsorted (lua.zget (prefix +:+ b) st)).*1.

(** LRANGE and ZRANGE. *)
Definition lrange (s e : Z) (l : list string) : list string :=
  let n := Z.of_nat (length l) in
  let s := Z.max 0 (if s <? 0 then s + n else s) in
  let e := Z.min (n - 1) (if e <? 0 then e + n else e) in
  if e <? s then [] else take (Z.to_nat (e - s + 1)) (drop (Z.to_nat s) l).

(** getRanges-1.lua for one state. *)
Definition getRange (prefix : string) (st : store) (b : JobBucket) (s e : Z) (asc : bool) : list string :=
  if String.eqb b "wait" || String.eqb b "paused" || String.eqb b "active" then
    if asc then lrange (if e =? -1 then 0 else - (e + 1)) (if s =? -1 then 0 else - (s + 1)) (inState prefix st b)
    else lrange s e (inState prefix st b)
  else lrange s e (if asc then inState prefix st b else rev (inState prefix st b)).

Definition hashReply (st : store) (c : cmd) : res any :=
  match c with
  | CHGetAll k => inr (AMap ((λ kv, (kv.1, AStr kv.2)) <$> map_to_list (lua.hgetall k st)))
  | _ => inr ANil
  end.

(** getCounts-1.lua for one state. *)
Definition count_any (prefix : string) (st : store) (a : any) : any :=
  match a with AStr b => AInt64 (Z.of_nat (length (inState prefix st b))) | _ => ANil end.

Definition qserve : server store := λ st r,
  match r as r0 return resp r0 * store with
  | RScript _ Effects.GetCounts ks args => (inr (AArr (count_any (lua.key ks 1) st <$> args)), st)
  | RScript _ Effects.GetRanges ks [AStr s; AStr e; AStr asc; AStr b] =>
      (inr (AArr [AArr (AStr <$> getRange (lua.key ks 1) st b (parseInt s) (parseInt e) (String.eqb asc "1"))]), st)
  | RScript _ Effects.Pause ks args => let '(v, st', _) := lua.pause ks args st in (inr v, st')
  | RHExists _ k f => (inr (bool_decide (is_Some (lua.hgetall k st !! f))), st)
  | RLLen _ k => (inr (Z.of_nat (length (lua.lget k st))), st)
  | RPipeline _ cmds => ((None, hashReply st <$> cmds), st)
  | r => ((quiet tt r).1, st)
  end.

(** ** Lemmas *)

Lemma take_drop_range {A} (l : list A) (s e : nat) :
  (s ≤ e)%nat → take (e - s) (drop s l) = drop s (take e l).
Proof. intros. rewrite take_drop_commute. f_equal. f_equal. lia. Qed.

(** [l[s..e]] counted from the front, [e] = -1 meaning to the end. *)
Definition window (s e : Z) (l : list string) : list string :=
  if e =? -1 then drop (Z.to_nat s) l else take (Z.to_nat (e - s + 1)) (drop (Z.to_nat s) l).

Lemma lrange_window s e l : 0 ≤ s → (e = -1 ∨ s ≤ e) → lrange s e l = window s e l.
Proof.
  intros Hs He. unfold lrange, window. destruct (Z.ltb_spec s 0); [lia|].
  destruct (Z.eqb_spec e (-1)) as [->|Hne].
  - replace (-1 <? 0) with true by done. destruct (Z.ltb_spec (Z.min (Z.of_nat (length l) - 1) (-1 + Z.of_nat (length l))) (Z.max 0 s)).
    + rewrite drop_ge; [done | lia].
    + rewrite Z.max_r by lia. apply take_ge. rewrite length_drop. lia.
  - destruct (Z.ltb_spec e 0); [lia|]. rewrite Z.max_r by lia.
    destruct (Z.ltb_spec (Z.min (Z.of_nat (length l) - 1) e) s).
    + rewrite drop_ge by lia. by rewrite take_nil.
    + destruct (Z.le_gt_cases e (Z.of_nat (length l) - 1)); [by rewrite Z.min_r by lia|].
      rewrite !take_ge; [done | rewrite length_drop; lia..].
Qed.

(** The same window counted from the other end. *)
Lemma lrange_rev s e l :
  0 ≤ s → (e = -1 ∨ s ≤ e) →
  rev (lrange (if e =? -1 then 0 else - (e + 1)) (if s =? -1 then 0 else - (s + 1)) l) = window s e (rev l).
Proof.
  intros Hs He. destruct (Z.eqb_spec s (-1)) as [|_]; [lia|]. unfold window, lrange.
  set (n := length l). rewrite skipn_rev. fold n.
  replace (- (s + 1) <? 0) with true by (symmetry; apply Z.ltb_lt; lia).
  rewrite (Z.min_r (Z.of_nat n - 1)) by lia.
  destruct (Z.le_gt_cases (Z.of_nat n) s) as [Hge|Hlt].
  { destruct (Z.ltb_spec (- (s + 1) + Z.of_nat n) (Z.max 0 (if (if e =? -1 then 0 else - (e + 1)) <? 0
      then (if e =? -1 then 0 else - (e + 1)) + Z.of_nat n else if e =? -1 then 0 else - (e + 1)))); [|lia].
    replace (n - Z.to_nat s)%nat with 0%nat by lia. cbn. destruct (e =? -1); [done | by destruct (Z.to_nat (e - s + 1))]. }
  destruct (Z.eqb_spec e (-1)) as [->|Hne].
  - replace (0 <? 0) with false by done. replace (Z.max 0 0) with 0 by done.
    destruct (Z.ltb_spec (- (s + 1) + Z.of_nat n) 0); [lia|]. rewrite drop_0. f_equal. f_equal. lia.
  - replace (- (e + 1) <? 0) with true by (symmetry; apply Z.ltb_lt; lia).
    rewrite firstn_rev, length_take, Nat.min_l by lia.
    destruct (Z.ltb_spec (- (s + 1) + Z.of_nat n) (Z.max 0 (- (e + 1) + Z.of_nat n))); [lia|].
    f_equal. rewrite <- take_drop_range by lia. f_equal; [lia|]. f_equal. lia.
Qed.

Section inspect_lemmas.
Context `{GoArch} {T : Type} `{Payload T}.
Variable q : Queue.

(** Results against [qserve], which never changes when only read. *)
Definition reads {A} (m : M A) (st : store) (a : A) : Prop :=
  (run qserve m st).1 = (a, st).

Lemma reads_ret {A} (a : A) st : reads (mret a) st a.
Proof. done. Qed.

Lemma reads_bind {A B} (m : M A) (f : A → M B) st a b :
  reads m st a → reads (f a) st b → reads (m ≫= f) st b.
Proof.
  unfold reads. rewrite run_bind. destruct (run qserve m st) as [[x s1] l]. cbn. intros [= -> ->] Hf.
  destruct (run qserve (f a) st) as [[y s2] l2]. exact Hf.
Qed.

Lemma reads_ask r st x : qserve st r = (x, st) → reads (ask r) st x.
Proof. intros E. unfold reads. cbn. by rewrite E. Qed.

Lemma reads_result {A} (m : M A) st a : reads m st a → result qserve m st = a.
Proof. unfold reads, result. by intros ->. Qed.

(** *** Listing *)

Definition hashAt (st : store) (id : string) : gmap string string :=
  lua.hgetall (keys.Job (q_keys q) id) st.

(** Every job HASH that exists decodes. *)
Definition decodes (st : store) (ids : list string) : Prop :=
  Forall (λ id, hashAt st id = ∅ ∨ ∃ j, buildJob (T := T) id (hashAt st id) = inr j) ids.

Lemma hashOf_reply (h : gmap string string) :
  hashOf (AMap ((λ kv, (kv.1, AStr kv.2)) <$> map_to_list h)) = h.
Proof.
  unfold hashOf. rewrite <- list_fmap_compose. rewrite <- (list_to_map_to_list h) at 2. f_equal.
  rewrite <- (list_fmap_id (map_to_list h)) at 2. apply list_fmap_ext. by intros ? [k v] _.
Qed.

Lemma buildJob_ID id h j : buildJob (T := T) id h = inr j → Job_ID j = id.
Proof. unfold buildJob. intros E. repeat case_match; simplify_eq; done. Qed.

Lemma collectJobs_ids st pre ids :
  decodes st ids →
  ∃ js, collectJobs (T := T) (pre ++ ((λ id, hashReply st (CHGetAll (keys.Job (q_keys q) id))) <$> ids))
          (length pre) ids = inr js ∧
    (λ j : ListedJob, Job_ID j.1) <$> js = filter (λ id, hashAt st id ≠ ∅) ids.
Proof.
  intros Hd. revert pre. induction Hd as [|id ids Hid _ IH]; intros pre; [by exists []|].
  destruct (IH (pre ++ [hashReply st (CHGetAll (keys.Job (q_keys q) id))])) as (js & E & Ejs).
  rewrite length_app, Nat.add_1_r, <- app_assoc in E. cbn [collectJobs fmap list_fmap].
  unfold cmdResult. rewrite list_lookup_middle by done. cbn [hashReply].
  rewrite hashOf_reply. fold (hashAt st id). change ([?x] ++ ?l) with (x :: l) in E.
  cbn [hashReply] in E. rewrite filter_cons. fold (hashAt st id) in E.
  case_bool_decide as Hh.
  - exists js. split; [exact E|]. rewrite decide_False by (by intros []). done.
  - destruct Hid as [?|[j Ej]]; [done|]. rewrite Ej, E.
    eexists. split; [reflexivity|]. rewrite decide_True by done. cbn. by rewrite (buildJob_ID _ _ _ Ej), Ejs.
Qed.

Lemma fetchJobs_reads st ids :
  decodes st ids →
  ∃ js, reads (fetchJobs q ids) st (inr js) ∧
    (λ j : ListedJob (T := T), Job_ID j.1) <$> js = filter (λ id, hashAt st id ≠ ∅) ids.
Proof.
  intros Hd. destruct (collectJobs_ids st [] ids Hd) as (js & E & Ejs). exists js. split; [|done].
  unfold fetchJobs. eapply reads_bind; [unfold reads; reflexivity|]. cbn [fst snd].
  rewrite <- list_fmap_compose. unfold reads. cbn [run mret M_ret fst].
  cbn [length app] in E. unfold compose. by rewrite E.
Qed.

Lemma toStrings_id i l : toStrings i (AStr <$> l) = inr l.
Proof. revert i. induction l as [|s l IH]; intros i; [done|]. cbn. by rewrite IH. Qed.

Lemma parseInt_Format z : in64 z → parseInt (FormatInt z) = z.
Proof.
  intros Hz. unfold parseInt. pose proof (ParseInt_FormatInt z Hz) as E.
  destruct (String.eqb_spec (FormatInt z) "") as [E0|]; [by rewrite E0 in E|]. by rewrite E.
Qed.

(** The jobs of a bucket of this queue. *)
Definition members (st : store) (b : JobBucket) : list string := inState (keys.Base (q_keys q)) st b.

(** The meta HASH has the paused flag. *)
Definition flagged (st : store) : bool :=
  bool_decide (is_Some (lua.hgetall (keys.Meta (q_keys q)) st !! "paused")).

(** The jobs of a bucket in the order a listing promises. *)
Definition ordered (st : store) (b : JobBucket) (asc : bool) : list string :=
  if isListBucket b then (if asc then rev (members st b) else members st b)
  else (if asc then members st b else rev (members st b)).

(** What is fetched after the range was read. *)
Lemma range_window st b s e asc :
  0 ≤ s → (e = -1 ∨ s ≤ e) →
  (if asc && isListBucket b then rev (getRange (keys.Base (q_keys q)) st b s e asc) else getRange (keys.Base (q_keys q)) st b s e asc) =
    window s e (ordered st b asc).
Proof.
  intros Hs He. unfold getRange, ordered.
  change (String.eqb b "wait" || String.eqb b "paused" || String.eqb b "active") with (isListBucket b).
  destruct (isListBucket b), asc; cbn [andb].
  - by apply lrange_rev.
  - by apply lrange_window.
  - by apply lrange_window.
  - by apply lrange_window.
Qed.

(** The part of [ListJobs] after the source was chosen. *)
Lemma list_from_source st source s e asc :
  0 ≤ s → (e = -1 ∨ s ≤ e) → in64 s → in64 e →
  decodes st (window s e (ordered st source asc)) →
  ∃ js, reads (r ← ask (RScript CtxCaller GetRanges [keys.Base (q_keys q)]
      [AStr (FormatInt s); AStr (FormatInt e); AStr (if asc then "1" else "0"); AStr source]);
    match r with
    | inl er => mret (inl (Errorw "mkq: getRanges" er))
    | inr (AArr []) => mret (inr [])
    | inr (AArr (v :: _)) =>
        match toStringSlice v with
        | inl er => mret (inl (Errorw "mkq: getRanges" er))
        | inr [] => mret (inr [])
        | inr ids => fetchJobs q (if asc && isListBucket source then rev ids else ids)
        end
    | inr _ => mret (inl (EText "mkq: getRanges: unexpected result type"))
    end) st (inr js) ∧
    (λ j : ListedJob (T := T), Job_ID j.1) <$> js =
      filter (λ id, hashAt st id ≠ ∅) (window s e (ordered st source asc)).
Proof.
  intros Hs He Hs64 He64 Hd. pose proof (range_window st source s e asc Hs He) as Hw.
  destruct (fetchJobs_reads st _ Hd) as (js & Hjs & E).
  exists js. split; [|done]. eapply reads_bind; [unfold reads; reflexivity|]. cbn [toStringSlice].
  change (lua.key [keys.Base (q_keys q)] 1) with (keys.Base (q_keys q)).
  rewrite toStrings_id, !parseInt_Format by done.
  replace (String.eqb (if asc then "1" else "0") "1") with asc by (by destruct asc).
  rewrite <- Hw in Hjs, E. destruct (getRange (keys.Base (q_keys q)) st source s e asc) as [|i l] eqn:El; [|exact Hjs].
  assert (js = []) as ->; [|done]. clear -E.
  destruct (asc && isListBucket source); by destruct js.
Qed.

(** The bucket a listing of [b] reads in state [st]. *)
Definition viewed (st : store) (b : JobBucket) : option JobBucket :=
  if String.eqb b JobBucketPaused then
    match members st JobBucketPaused with
    | [] => if flagged st then Some JobBucketWait else None
    | _ => Some b
    end
  else Some b.

(** The jobs a bucket shows, in the promised order: a paused queue shows its
    waiting jobs under [paused], unless an old list is still there. *)
Definition shown (st : store) (b : JobBucket) (asc : bool) : list string :=
  match viewed st b with Some b => ordered st b asc | None => [] end.

Lemma listSource_reads st b : reads (listSource q b) st (inr (viewed st b)).
Proof.
  unfold listSource, viewed. destruct (String.eqb b JobBucketPaused); [|apply reads_ret].
  eapply reads_bind; [unfold reads; reflexivity|]. cbn beta iota.
  change (lua.lget (keys.Paused (q_keys q)) st) with (members st JobBucketPaused).
  destruct (members st JobBucketPaused) as [|p ps]; cbn [length].
  - eapply reads_bind; [unfold reads; reflexivity|]. fold (flagged st). by destruct (flagged st).
  - destruct (Z.eqb_spec (Z.of_nat (S (length ps))) 0); [lia | apply reads_ret].
Qed.

Lemma window_nil s e : window s e [] = [].
Proof. unfold window. rewrite drop_nil. destruct (e =? -1); [done | by destruct (Z.to_nat _)]. Qed.

Lemma ListJobs_reads st b s e asc :
  0 ≤ s → (e = -1 ∨ s ≤ e) → in64 s → in64 e →
  decodes st (window s e (shown st b asc)) →
  ∃ js, reads (ListJobs q b s e asc) st (inr js) ∧
    (λ j : ListedJob (T := T), Job_ID j.1) <$> js =
      filter (λ id, hashAt st id ≠ ∅) (window s e (shown st b asc)).
Proof.
  intros Hs He Hs64 He64. unfold shown, ListJobs. pose proof (listSource_reads st b) as Hsrc.
  destruct (viewed st b) as [source|]; intros Hd.
  - destruct (list_from_source st source s e asc Hs He Hs64 He64 Hd) as (js & Hjs & E).
    exists js. split; [|done]. eapply reads_bind; [exact Hsrc | exact Hjs].
  - exists []. rewrite window_nil. split; [|done]. eapply reads_bind; [exact Hsrc | apply reads_ret].
Qed.

(** Every job has a HASH that decodes. *)
Definition readable (st : store) (ids : list string) : Prop :=
  Forall (λ id, hashAt st id ≠ ∅ ∧ ∃ j, buildJob (T := T) id (hashAt st id) = inr j) ids.

(** A listing of the whole bucket. *)
Lemma ListJobs_all st b asc :
  readable st (shown st b asc) →
  ∃ js : list (ListedJob (T := T)), reads (ListJobs q b 0 (-1) asc) st (inr js) ∧ length js = length (shown st b asc).
Proof.
  intros Hr. destruct (ListJobs_reads st b 0 (-1) asc) as (js & Hjs & E); [lia | by left | by vm_compute | by vm_compute | |].
  { unfold window. cbn. eapply Forall_impl; [exact Hr|]. cbn. intros id [_ ?]. by right. }
  exists js. split; [done|]. apply (f_equal length) in E. rewrite length_fmap in E. rewrite E.
  unfold window. cbn. rewrite filter_all; [done|]. intros id Hid. eapply Forall_forall in Hr; [|done]. apply Hr.
Qed.

(** *** Counting *)

(** The count of a bucket in the snapshot. *)
Definition countOf (c : QueueCounts) (b : JobBucket) : Z :=
  if String.eqb b JobBucketWait then Wait c
  else if String.eqb b JobBucketActive then Active c
  else if String.eqb b JobBucketDelayed then Delayed c
  else if String.eqb b JobBucketPrioritized then Prioritized c
  else if String.eqb b JobBucketCompleted then Completed c
  else if String.eqb b JobBucketFailed then Failed c
  else if String.eqb b JobBucketPaused then Paused c
  else 0.

Definition size (st : store) (b : JobBucket) : Z := Z.of_nat (length (members st b)).

Lemma countOf_assign c b n b' :
  b' ∈ allBuckets → countOf (assignBucket c b n) b' = if String.eqb b b' then n else countOf c b'.
Proof.
  intros Hb'. destruct c. unfold allBuckets in Hb'.
  repeat (apply elem_of_cons in Hb' as [->|Hb']); [..|by apply not_elem_of_nil in Hb'];
    unfold assignBucket, countOf; cbn;
    repeat (match goal with |- context [String.eqb b ?x] => destruct (String.eqb_spec b x) as [->|] end; try done).
Qed.

Lemma collectCounts_spec st wantWait query out wc :
  let '(out', wc') := collectCounts wantWait query (count_any (keys.Base (q_keys q)) st <$> (AStr <$> query)) out wc in
  wc' = (if containsBucket query JobBucketWait then size st JobBucketWait else wc) ∧
  ∀ b, b ∈ allBuckets → countOf out' b =
    if containsBucket query b && (wantWait || negb (String.eqb b JobBucketWait))
    then size st b else countOf out b.
Proof.
  revert out wc. induction query as [|b0 query IH]; intros out wc; [done|].
  cbn [fmap list_fmap collectCounts count_any toInt64 fst containsBucket existsb].
  fold (containsBucket query JobBucketWait). fold (size st b0).
  assert (Hin : ∀ b, b ∈ allBuckets → countOf (assignBucket out b0 (size st b0)) b =
    if String.eqb b0 b then size st b else countOf out b).
  { intros b Hb. rewrite countOf_assign by done. by destruct (String.eqb_spec b0 b) as [->|]. }
  destruct (String.eqb_spec b0 JobBucketWait) as [->|Hne].
  - destruct wantWait; cbn [negb].
    + specialize (IH (assignBucket out JobBucketWait (size st JobBucketWait)) (size st JobBucketWait)).
      destruct (collectCounts _ _ _ _ _) as [out' wc']. destruct IH as [-> IH]. cbn [orb andb] in *.
      split; [by destruct (containsBucket query JobBucketWait)|]. intros b Hb. rewrite (IH b Hb), (Hin b Hb).
      cbn [containsBucket existsb]. fold (containsBucket query b).
      by destruct (String.eqb JobBucketWait b), (containsBucket query b).
    + specialize (IH out (size st JobBucketWait)).
      destruct (collectCounts _ _ _ _ _) as [out' wc']. destruct IH as [-> IH]. cbn [orb andb] in *.
      split; [by destruct (containsBucket query JobBucketWait)|]. intros b Hb. rewrite (IH b Hb).
      cbn [containsBucket existsb]. fold (containsBucket query b).
      destruct (String.eqb_spec JobBucketWait b) as [<-|]; cbn; [by rewrite andb_false_r|done].
  - specialize (IH (assignBucket out b0 (size st b0)) wc).
    destruct (collectCounts _ _ _ _ _) as [out' wc']. destruct IH as [-> IH]. cbn [orb andb] in *.
    split; [done|]. intros b Hb. rewrite (IH b Hb), (Hin b Hb).
    cbn [containsBucket existsb]. fold (containsBucket query b).
    destruct (String.eqb_spec b0 b) as [->|]; cbn [orb]; [|done].
    destruct (String.eqb_spec b JobBucketWait); [done|]. rewrite orb_true_r.
    by destruct (containsBucket query b).
Qed.

Definition requested (buckets : list JobBucket) : list JobBucket :=
  match buckets with [] => allBuckets | _ => buckets end.

Lemma length_ordered st b asc : Z.of_nat (length (ordered st b asc)) = size st b.
Proof. unfold ordered, size. destruct (isListBucket b), asc; by rewrite ?length_rev. Qed.

Lemma containsBucket_app l b b' :
  containsBucket (l ++ [b]) b' = containsBucket l b' || String.eqb b b'.
Proof. unfold containsBucket. rewrite existsb_app. cbn. by rewrite orb_false_r. Qed.

Lemma countOf_setPaused c n b :
  countOf (setPaused c n) b = if String.eqb b JobBucketPaused then n else countOf c b.
Proof.
  unfold countOf, setPaused. cbn. destruct (String.eqb_spec b JobBucketPaused) as [->|]; [done|].
  by repeat case_match.
Qed.

(** The jobs shown under [paused], when the legacy list has [n] and [wait] is
    the number of waiting jobs. *)
Lemma shown_paused st asc :
  Z.of_nat (length (shown st JobBucketPaused asc)) =
    if size st JobBucketPaused =? 0 then if flagged st then size st JobBucketWait else 0
    else size st JobBucketPaused.
Proof.
  unfold shown, viewed, size. cbn [String.eqb Ascii.eqb Bool.eqb JobBucketPaused].
  destruct (members st JobBucketPaused) as [|p ps] eqn:E; cbn [length].
  - destruct (flagged st); [|done]. by rewrite length_ordered.
  - rewrite length_ordered. unfold size. by rewrite E.
Qed.

Lemma shown_other st b asc :
  b ≠ JobBucketPaused → Z.of_nat (length (shown st b asc)) = size st b.
Proof.
  intros Hb. unfold shown, viewed. rewrite (proj2 (String.eqb_neq _ _) Hb). apply length_ordered.
Qed.

(** The buckets the script is asked about: [wait] too when [paused] needs it. *)
Definition queried (bs : list JobBucket) : list JobBucket :=
  if containsBucket bs JobBucketPaused && negb (containsBucket bs JobBucketWait)
  then bs ++ [JobBucketWait] else bs.

Lemma collected st bs :
  let '(out, wc) := collectCounts (containsBucket bs JobBucketWait) (queried bs)
    (count_any (keys.Base (q_keys q)) st <$> (AStr <$> queried bs)) zeroCounts 0 in
  (∀ b, b ∈ allBuckets → countOf out b = if containsBucket bs b then size st b else 0) ∧
  (containsBucket bs JobBucketPaused = true → wc = size st JobBucketWait).
Proof.
  unfold queried. set (wp := containsBucket bs JobBucketPaused). set (ww := containsBucket bs JobBucketWait).
  set (query := if wp && negb ww then bs ++ [JobBucketWait] else bs).
  pose proof (collectCounts_spec st ww query zeroCounts 0) as Hc.
  destruct (collectCounts ww query _ zeroCounts 0) as [out wc]. destruct Hc as [Hwc Hout]. split.
  - intros b Hb. rewrite (Hout b Hb). assert (countOf zeroCounts b = 0) as ->.
    { unfold countOf. by repeat case_match. }
    subst query. destruct (wp && negb ww) eqn:Ew.
    + rewrite containsBucket_app. apply andb_true_iff in Ew as [_ Ew]. apply negb_true_iff in Ew.
      rewrite Ew. cbn [orb]. destruct (String.eqb_spec JobBucketWait b) as [<-|Hne].
      * cbn. fold ww. by rewrite Ew, andb_false_r.
      * rewrite orb_false_r. destruct (String.eqb_spec b JobBucketWait); [congruence|]. by rewrite andb_true_r.
    + destruct (String.eqb_spec b JobBucketWait) as [->|]; [|by rewrite orb_true_r, andb_true_r].
      fold ww. cbn [negb]. rewrite orb_false_r. by destruct ww.
  - intros Ewp. rewrite Hwc. subst query. rewrite Ewp. cbn [andb]. destruct ww eqn:Eww; cbn [negb].
    + fold ww. by rewrite Eww.
    + by rewrite containsBucket_app, orb_true_r.
Qed.

(** A snapshot whose paused count is the shown one and whose other counts are
    those collected is right everywhere. *)
Lemma counts_final st bs asc out c :
  (∀ b, b ∈ allBuckets → countOf out b = if containsBucket bs b then size st b else 0) →
  (∀ b, b ≠ JobBucketPaused → countOf c b = countOf out b) →
  countOf c JobBucketPaused = (if containsBucket bs JobBucketPaused
    then Z.of_nat (length (shown st JobBucketPaused asc)) else 0) →
  ∀ b, b ∈ allBuckets → countOf c b =
    if containsBucket bs b then Z.of_nat (length (shown st b asc)) else 0.
Proof.
  intros Hq Hc Hp b Hb. destruct (String.eqb_spec b JobBucketPaused) as [->|Hne]; [exact Hp|].
  rewrite Hc, Hq by done. by rewrite shown_other.
Qed.

Lemma Counts_reads st buckets asc :
  ∃ c, reads (Counts q buckets) st (inr c) ∧
    ∀ b, b ∈ allBuckets → countOf c b =
      if containsBucket (requested buckets) b then Z.of_nat (length (shown st b asc)) else 0.
Proof.
  unfold Counts. fold (requested buckets). set (bs := requested buckets). fold (queried bs).
  pose proof (collected st bs) as Hc.
  destruct (collectCounts _ (queried bs) (count_any (keys.Base (q_keys q)) st <$> (AStr <$> queried bs)) zeroCounts 0)
    as [out wc] eqn:Ec. destruct Hc as [Hq Hw].
  assert (Hpo : Paused out = if containsBucket bs JobBucketPaused then size st JobBucketPaused else 0).
  { apply (Hq JobBucketPaused), (bool_decide_unpack _). by vm_compute. }
  set (ask_flag := containsBucket bs JobBucketPaused && (Paused out =? 0)).
  exists (if ask_flag && flagged st then setPaused out wc else out). split.
  { eapply reads_bind; [unfold reads; reflexivity|]. cbn beta iota.
    change (lua.key [keys.Base (q_keys q)] 1) with (keys.Base (q_keys q)).
    rewrite !length_fmap, Nat.eqb_refl, Ec. cbn [negb]. fold ask_flag. destruct ask_flag; [|apply reads_ret].
    eapply reads_bind; [unfold reads; reflexivity|]. fold (flagged st). by destruct (flagged st). }
  apply (counts_final st bs asc out _ Hq).
  - intros b Hne. destruct (ask_flag && flagged st); [|done]. rewrite countOf_setPaused.
    by rewrite (proj2 (String.eqb_neq _ _) Hne).
  - change (countOf ?c JobBucketPaused) with (Paused c). unfold ask_flag. rewrite shown_paused, Hpo.
    destruct (containsBucket bs JobBucketPaused); [|done]. rewrite (Hw eq_refl).
    destruct (Z.eqb_spec (size st JobBucketPaused) 0) as [E|]; cbn [andb]; [|exact Hpo].
    destruct (flagged st); [done|]. by rewrite Hpo.
Qed.
End inspect_lemmas.

(** ** Pausing and resuming *)

(** How many parked jobs one resume call moves. *)
Definition resumeBatch : nat := Z.to_nat 7000.

Section resume.
Import lua.
Variable q : Queue.
Abbreviation b := (q_keys q).

(** The store after [k] calls of the resume script: as many batches have gone from
    the legacy list behind the waiting jobs, the queue is not paused, and nothing
    else has changed. *)
Record resumed (st : store) (k : nat) (st' : store) : Prop := mkResumed {
  r_wait : lua.lget (keys.Wait b) st' = lua.lget (keys.Wait b) st ++ take (k * resumeBatch) (lua.lget (keys.Paused b) st);
  r_paused : lua.lget (keys.Paused b) st' = drop (k * resumeBatch) (lua.lget (keys.Paused b) st);
  r_meta : lua.hgetall (keys.Meta b) st' = delete "paused" (lua.hgetall (keys.Meta b) st);
  r_lists : ∀ k, k ≠ keys.Wait b → k ≠ keys.Paused b → lua.lget k st' = lua.lget k st;
  r_hashes : ∀ k, k ≠ keys.Meta b → lua.hgetall k st' = lua.hgetall k st;
  r_rest : zsets st' = zsets st ∧ locks st' = locks st ∧ strs st' = strs st ∧ nums st' = nums st ∧ sets st' = sets st;
}.

(** The keys and arguments [Resume] sends. *)
Definition resumeKeys : list string :=
  [keys.Paused b; keys.Wait b; keys.Meta b; keys.Prioritized b; keys.Events b; keys.Delayed b; keys.Marker b].

Lemma resume_once st :
  lua.lget (keys.Wait b) st ≠ [] →
  let r := (lua.pause resumeKeys [AStr "resumed"; AStr "1"] st).1 in
  r.1 = AInt64 (Z.of_nat (length (drop resumeBatch (lua.lget (keys.Paused b) st)))) ∧ resumed st 1 r.2.
Proof.
  assert (Hne : keys.Wait b ≠ keys.Paused b) by by intros ?%sapp_inv_head.
  intros Hw. set (st1 := lua.hset (keys.Meta b) (delete "paused" (lua.hgetall (keys.Meta b) st)) st).
  assert (Hmeta : ∀ k, lua.hgetall k st1 = if bool_decide (keys.Meta b = k) then delete "paused" (lua.hgetall k st) else lua.hgetall k st).
  { intros k. unfold st1. rewrite hgetall_hset. case_bool_decide as E; [by rewrite <-E | done]. }
  assert (Hfirst : ∀ st', hashes st' = hashes st1 → zsets st' = zsets st → locks st' = locks st → strs st' = strs st →
    nums st' = nums st → sets st' = sets st →
    (∀ k, lua.lget k st' = if bool_decide (k = keys.Wait b) then lua.lget (keys.Wait b) st ++ take resumeBatch (lua.lget (keys.Paused b) st)
      else if bool_decide (k = keys.Paused b) then drop resumeBatch (lua.lget (keys.Paused b) st) else lua.lget k st) →
    resumed st 1 st').
  { intros st' Eh Ez El Es En Et Hl. assert (Hh : ∀ k, lua.hgetall k st' = lua.hgetall k st1) by (intros k; unfold lua.hgetall; by rewrite Eh).
    split; rewrite ?Nat.mul_1_l; [| | | | |done].
    - by rewrite Hl, bool_decide_eq_true_2.
    - by rewrite Hl, bool_decide_eq_false_2, bool_decide_eq_true_2 by congruence.
    - by rewrite Hh, Hmeta, bool_decide_eq_true_2.
    - intros k H1 H2. by rewrite Hl, !bool_decide_eq_false_2.
    - intros k Hk. by rewrite Hh, Hmeta, bool_decide_eq_false_2. }
  set (parked := lua.lget (keys.Paused b) st) in *. set (waiting := lua.lget (keys.Wait b) st) in *.
  assert (E : (lua.pause resumeKeys [AStr "resumed"; AStr "1"] st).1 =
    match parked with
    | [] => (AInt64 0, st1)
    | _ => (AInt64 (Z.of_nat (length (drop resumeBatch parked))),
            lset (keys.Paused b) (drop resumeBatch parked) (lset (keys.Wait b) (waiting ++ take resumeBatch parked) st1))
    end).
  { unfold lua.pause. change (String.eqb (str (argv [AStr "resumed"; AStr "1"] 1)) "paused") with false.
    change (key resumeKeys 1) with (keys.Paused b). change (key resumeKeys 2) with (keys.Wait b).
    change (key resumeKeys 3) with (keys.Meta b). unfold mbind, Lua_bind, HDEL, gets, modify, mret, Lua_ret.
    cbv beta iota zeta. cbn [foldl]. fold st1.
    change (lget (keys.Paused b) st1) with parked. change (lget (keys.Wait b) st1) with waiting.
    destruct parked; [done|]. by destruct waiting. }
  rewrite E. destruct parked as [|p ps] eqn:Ep; cbn [fst snd].
  - split; [by rewrite drop_nil|]. apply Hfirst; try done. intros k. rewrite take_nil, drop_nil, app_nil_r.
    case_bool_decide as E1; [by subst k|]. by case_bool_decide as E2; [subst k|].
  - split; [done|]. apply Hfirst; try done. intros k. rewrite !lget_lset.
    destruct (decide (k = keys.Wait b)) as [->|H1]; [by rewrite bool_decide_eq_false_2, !bool_decide_eq_true_2 by congruence|].
    rewrite (bool_decide_eq_false_2 (k = _)), (bool_decide_eq_false_2 (keys.Wait b = k)) by congruence.
    destruct (decide (k = keys.Paused b)) as [->|H2]; [by rewrite !bool_decide_eq_true_2|]. by rewrite !bool_decide_eq_false_2 by congruence.
Qed.

Lemma resumed_trans st st1 st2 k : resumed st 1 st1 → resumed st1 k st2 → resumed st (S k) st2.
Proof.
  intros [W1 P1 M1 L1 H1 R1] [W2 P2 M2 L2 H2 R2]. rewrite Nat.mul_1_l in *. split.
  - rewrite W2, W1, P1, <-app_assoc. f_equal. apply take_take_drop.
  - rewrite P2, P1, drop_drop. reflexivity.
  - by rewrite M2, M1, delete_delete_eq.
  - intros k' ??. by rewrite L2, L1.
  - intros k' ?. by rewrite H2, H1.
  - destruct R1 as (?&?&?&?&?), R2 as (?&?&?&?&?). split_and!; congruence.
Qed.
End resume.

Definition stillParked (n : Z) : err :=
  EText ("mkq: resumed: " +:+ FormatInt n +:+ " jobs still parked in the legacy paused list after " +:+
    FormatInt (Z.of_nat legacyDrainRounds) +:+ " rounds").

(** With [k] rounds to go and somebody waiting. *)
Lemma resume_rounds q k st :
  let b := q_keys q in
  (0 < k)%nat → lua.lget (keys.Wait b) st ≠ [] →
  let m := pauseRounds q k (keys.Paused b) (keys.Wait b) "resumed" in
  let left := drop (k * resumeBatch) (lua.lget (keys.Paused b) st) in
  result qserve m st = (match left with [] => None | _ => Some (stillParked (Z.of_nat (length left))) end) ∧
  ∃ j, (j ≤ k)%nat ∧ resumed q st j (world qserve m st) ∧
    length (calls (log qserve m st)) = j ∧ (left ≠ [] → j = k).
Proof.
  cbv zeta. revert st. induction k as [|k IH]; intros st Hk Hw; [lia|].
  unfold result, world, log. cbn [pauseRounds]. rewrite run_bind.
  destruct (resume_once q st Hw) as [Hv Hst1]. set (parked := lua.lget (keys.Paused (q_keys q)) st) in *.
  assert (Hrun : ∃ l, run qserve (runPauseScript q (keys.Paused (q_keys q)) (keys.Wait (q_keys q)) "resumed") st =
    (inr (Z.of_nat (length (drop resumeBatch parked))), (lua.pause (resumeKeys q) [AStr "resumed"; AStr "1"] st).1.2, l) ∧
    length (calls l) = 1%nat).
  { unfold runPauseScript. cbn -[lua.pause resumeBatch]. fold (resumeKeys q).
    destruct (lua.pause _ _ st) as [[v st1] es]. cbn -[resumeBatch] in *. subst v. by eexists. }
  destruct Hrun as (l & -> & Hl). cbn [fst snd]. set (st1 := (lua.pause _ _ st).1.2) in *.
  destruct (drop resumeBatch parked) as [|p ps] eqn:Ed.
  { change (Z.of_nat (length []) <=? 0) with true. cbn [run mret M_ret fst snd].
    assert (drop (S k * resumeBatch) parked = []) as ->.
    { apply drop_ge. assert (length (drop resumeBatch parked) = 0%nat) as E by (by rewrite Ed).
      rewrite length_drop in E. cbn [Nat.mul]. lia. }
    split; [done|]. exists 1%nat. split_and!; [lia | done | by rewrite ?app_nil_r | done]. }
  destruct (Z.leb_spec (Z.of_nat (length (p :: ps))) 0) as [Hle|_]; [cbn in Hle; lia|].
  destruct k as [|k].
  - rewrite Nat.mul_1_l, Ed. split; [done|]. exists 1%nat. cbn [run mret M_ret fst snd].
    split_and!; [lia | done | by rewrite app_nil_r | done].
  - destruct (IH st1) as (Hr & j & Hj & Hwd & Hc & H2); [lia | rewrite (r_wait _ _ _ _ Hst1); by destruct (lua.lget _ st)|].
    rewrite (r_paused _ _ _ _ Hst1), Nat.mul_1_l, drop_drop in *. fold parked in Hr, H2.
    change (resumeBatch + S k * resumeBatch)%nat with (S (S k) * resumeBatch)%nat in *. unfold result, world, log in *.
    destruct (run qserve (pauseRounds q (S k) _ _ _) st1) as [[r s2] l2]. cbn [fst snd] in *.
    split; [exact Hr|]. exists (S j). rewrite calls_app, length_app, Hl, Hc.
    split_and!; [lia | by eapply resumed_trans | lia |]. intros Hne. by rewrite H2.
Qed.

(** ** Properties *)

(** C26. Listings show the right jobs in the right order. For every bucket, every
    window of non-negative bounds (or an open end) and both directions, the
    listed jobs are the window of the bucket's jobs counted oldest first when
    ascending and newest first when not, over the whole bucket and so across
    pages, less those whose HASH is gone; and [paused] shows the waiting jobs of
    a paused queue. *)
Theorem listing_is_window `{GoArch} `{Payload T} q st b s e asc :
  0 ≤ s → (e = -1 ∨ s ≤ e) → in64 s → in64 e →
  decodes (T := T) q st (window s e (shown q st b asc)) →
  ∃ js, result qserve (ListJobs (T := T) q b s e asc) st = inr js ∧
    (λ j : ListedJob (T := T), Job_ID j.1) <$> js =
      filter (λ id, hashAt q st id ≠ ∅) (window s e (shown q st b asc)).
Proof.
  intros Hs He Hs64 He64 Hd. destruct (ListJobs_reads q st b s e asc Hs He Hs64 He64 Hd) as (js & Hr & E).
  exists js. split; [by apply reads_result | exact E].
Qed.

(** C27. Counts and listings agree: on a queue whose listed jobs have readable
    HASHes, whatever buckets are asked for, the count of each of them is the
    number of jobs that a listing of the whole bucket returns, in either
    direction, the paused bucket with its flag and its legacy list included, and
    the buckets not asked for are zero. *)
Theorem counts_match_listings `{GoArch} `{Payload T} q st buckets asc :
  (∀ b, b ∈ allBuckets → readable (T := T) q st (shown q st b asc)) →
  ∃ c, result qserve (Counts q buckets) st = inr c ∧
    ∀ b, b ∈ allBuckets → ∃ js, result qserve (ListJobs (T := T) q b 0 (-1) asc) st = inr js ∧
      countOf c b = if containsBucket (requested buckets) b then Z.of_nat (length js) else 0.
Proof.
  intros Hrd. destruct (Counts_reads q st buckets asc) as (c & Hr & E). exists c. split; [by apply reads_result|].
  intros b Hb. destruct (ListJobs_all q st b asc (Hrd b Hb)) as (js & Hjs & Hlen). exists js.
  split; [by apply reads_result|]. by rewrite E, Hlen.
Qed.


(** Pausing moves no job: one call sets the flag and changes nothing else. *)
Theorem pause_moves_nothing q st :
  result qserve (Pause q) st = None ∧ length (calls (log qserve (Pause q) st)) = 1%nat ∧
  world qserve (Pause q) st =
    lua.hset (keys.Meta (q_keys q)) (<["paused" := "1"]> (lua.hgetall (keys.Meta (q_keys q)) st)) st.
Proof. split_and!; reflexivity. Qed.

(** The administrative calls, with the code their script answers on success. *)
Inductive admin := DoRemove | DoPromote | DoRetry (opts : list RetryOption).

Definition administer (q : Queue) (a : admin) (jobID : string) : M (option err) :=
  match a with
  | DoRemove => RemoveJob q jobID
  | DoPromote => PromoteJob q jobID
  | DoRetry opts => RetryJob q jobID opts
  end.

Definition success_code (a : admin) : Z := match a with DoPromote => 0 | _ => 1 end.

(** The sentinel a documented failure code stands for. *)
Definition known_code (a : admin) (code : Z) : option sentinel :=
  match a with
  | DoRemove => if code =? 0 then Some ErrJobActive else if code =? -8 then Some ErrJobIsScheduler else None
  | DoPromote => if code =? -3 then Some ErrJobNotInDelayed else None
  | DoRetry _ =>
      if code =? -1 then Some ErrJobNotFound else if code =? -3 then Some ErrJobNotInExpectedState else None
  end.

Definition script_answers (l : list event) : list (res any) :=
  omap (λ e, match ev_req e as r return resp r → option (res any) with
             | RScript _ _ _ _ => λ x, Some x | _ => λ _, None end (ev_ans e)) l.

(** The report [r] is right about the answers [xs] the scripts gave. *)
Definition truthful (a : admin) (r : option err) (xs : list (res any)) : Prop :=
  (length xs ≤ 1)%nat ∧ (r = None ↔ xs = [inr (AInt64 (success_code a))]) ∧
  (∀ code s, xs = [inr (AInt64 code)] → known_code a code = Some s → r = Some (ESent s)).

Lemma truthful_refused a e : truthful a (Some e) [].
Proof. split; [cbn; lia|]. split; [split; intros [=] | intros ? ? [=]]. Qed.

Lemma truthful_odd a e x : (∀ c, x ≠ inr (AInt64 c)) → truthful a (Some e) [x].
Proof.
  intros Hx. split; [cbn; lia|]. split; [split; [intros [=] | intros [= ->]; by edestruct Hx]|].
  intros c ? [= ->]. by edestruct Hx.
Qed.

Lemma truthful_code a r c :
  (r = None ↔ c = success_code a) → (∀ s, known_code a c = Some s → r = Some (ESent s)) →
  truthful a r [inr (AInt64 c)].
Proof.
  intros Hr Hs. split; [cbn; lia|]. split; [rewrite Hr; split; congruence|].
  intros ? ? [= <-]. apply Hs.
Qed.

(** An administrative call reports what happened: it makes at most one script
    call; it returns nil exactly when that call was made and answered the
    success code; and a documented failure code comes back as its sentinel. *)
Theorem admin_reports_truth {W} (sv : server W) w0 q a jobID :
  let m := administer q a jobID in
  truthful a (result sv m w0) (script_answers (log sv m w0)).
Proof.
  cbv zeta. wp_res. destruct a as [| |opts]; cbn [administer];
    unfold RemoveJob, PromoteJob, RetryJob;
    (destruct (String.eqb jobID ""); [wp_step; apply truthful_refused|]).
  3: cbv zeta; destruct (if String.eqb _ _ then _ else _) as [[[? ?] ?]|];
     [|wp_step; apply truthful_refused].
  all: repeat wp_step; destruct x as [e|[]]; try (by apply truthful_odd); apply truthful_code;
    cbn [success_code known_code];
    repeat match goal with |- context [?z =? ?k] => destruct (Z.eqb_spec z k) as [->|] end;
    cbn; (split; congruence) || (intros ? [=]; congruence) || congruence.
Qed.

(** ** Concrete runs *)

Definition sampleQueue : Queue := mkQueue (mkClient "bull" 0) "email" (keys.New "bull" "email").

(** Three jobs waiting in a paused queue, with the HASHes of those in [read]. *)
Definition sampleState (parked read : list string) : store :=
  mkStore (list_to_map [("bull:email:wait", ["3"; "2"; "1"]); ("bull:email:paused", parked)]) ∅
    (list_to_map (("bull:email:meta", {["paused" := "1"]}) ::
      ((λ id, ("bull:email:" +:+ id, {["name" := "n" +:+ id]})) <$> read))) ∅ ∅ ∅ ∅.

Lemma listing_is_window_witness :
  ∃ js, result qserve (ListJobs (T := unit) (H0 := unitPayload) sampleQueue JobBucketPaused 0 (-1) true)
          (sampleState [] ["3"; "1"]) = inr js ∧
    (λ j : ListedJob (T := unit), Job_ID j.1) <$> js = ["1"; "3"].
Proof.
  destruct (listing_is_window (H := amd64) (H0 := unitPayload) sampleQueue (sampleState [] ["3"; "1"]) JobBucketPaused
    0 (-1) true) as (js & Hr & E);
    [lia | by left | by vm_compute | by vm_compute | |].
  - change (window 0 (-1) (shown sampleQueue (sampleState [] ["3"; "1"]) JobBucketPaused true)) with ["1"; "2"; "3"].
    unfold decodes. rewrite !Forall_cons, Forall_nil.
    split_and!; [right | left | right | done]; [by eexists | by vm_compute | by eexists].
  - exists js. split; [exact Hr|]. rewrite E. by vm_compute.
Defined.

Lemma counts_match_listings_witness :
  ∃ c, result qserve (Counts (H := amd64) sampleQueue []) (sampleState [] ["3"; "2"; "1"]) = inr c ∧
    ∃ js, result qserve (ListJobs (T := unit) (H0 := unitPayload) sampleQueue JobBucketPaused 0 (-1) true)
            (sampleState [] ["3"; "2"; "1"]) = inr js ∧ Paused c = Z.of_nat (length js) ∧ length js = 3%nat.
Proof.
  destruct (counts_match_listings (H := amd64) (H0 := unitPayload) sampleQueue (sampleState [] ["3"; "2"; "1"]) [] true)
    as (c & Hc & Hall).
  - intros b Hb. unfold allBuckets in Hb.
    repeat (apply elem_of_cons in Hb as [->|Hb];
      [match goal with |- readable _ _ ?l => let l' := eval vm_compute in l in change l with l' end;
       unfold readable; rewrite ?Forall_cons, Forall_nil; split_and?;
         try done; try (by vm_compute); by eexists|]).
    by apply not_elem_of_nil in Hb.
  - exists c. split; [exact Hc|]. destruct (Hall JobBucketPaused) as (js & Hjs & E); [apply (bool_decide_unpack _); by vm_compute|].
    exists js. split; [exact Hjs|]. split; [exact E|].
    assert (Hl : match result qserve (ListJobs (T := unit) (H0 := unitPayload) sampleQueue JobBucketPaused 0 (-1) true)
            (sampleState [] ["3"; "2"; "1"]) with inr js => length js | _ => 0%nat end = 3%nat) by by vm_compute.
    by rewrite Hjs in Hl.
Defined.

