(* ===== verification/Discover.v ===== *)
(** * Queue discovery (mkq.go)

    [Queues] reads the registry SET; [DiscoverQueues] scans the key space for
    meta keys and keeps those that really are queue metadata. How Redis matches
    a SCAN pattern is not part of the repository: the class [Glob] states what
    its documentation says of the patterns mkq builds. *)

From S2P Require Import Prelude GoLib Keys Backoff Effects Config.

Definition defaultKeyPrefix : string := "bull".

(** ** Queues *)

Definition Queues (c : Client) : M (res (list string)) :=
  r ← ask (RSMembers CtxCaller (queueRegistryKey (keyPrefix c)));
  mret match r with
  | inl e => inl (Errorw ("mkq: SMembers " +:+ queueRegistryKey (keyPrefix c)) e)
  | inr l => inr l
  end.

(** ** DiscoverQueues *)

Definition DiscoverOption : Type := Z → Z.
Definition WithDiscoverCount (n : Z) : DiscoverOption := λ count, if 0 <? n then n else count.
Definition defaultDiscoverCount : Z := 100.

Fixpoint escapeGlob (s : string) : string :=
  match s with
  | EmptyString => ""
  | String c s =>
      if existsb (Ascii.eqb c) ["*"%char; "?"%char; "["%char; "]"%char; "\"%char]
      then String "\"%char (String c (escapeGlob s)) else String c (escapeGlob s)
  end.

Definition isWrongType (e : err) : bool := HasPrefix (Error e) "WRONGTYPE".

Definition metaMarkerFields : list string := ["version"; "opts.maxLenEvents"; "paused"].

(** One SCAN call: the keys so far and the cursor. *)
Definition scan_turn (node : option nat) (pattern : string) (count : Z) (s : list string * Z)
    : M (list string * Z + res (list string)) :=
  r ← ask (RScan CtxCaller node s.2 pattern count);
  mret match r with
  | inl e => inr (inl e)
  | inr (ks, next) => if next =? 0 then inr (inr (s.1 ++ ks)) else inl (s.1 ++ ks, next)
  end.

(** [scanNode], at most [fuel] calls; [None] when that was not enough. *)
Definition scanNode (fuel : nat) (node : option nat) (pattern : string) (count : Z)
    : M (option (res (list string))) :=
  r ← loop fuel (scan_turn node pattern count) ([], 0);
  mret match r with inl _ => None | inr x => Some x end.

(** The closure of [scanAll] on every master, as [ForEachMaster] calls it: all
    masters are scanned, whatever happens on the others, and the first error is
    returned. The goroutines append to one slice under a mutex; the list is the
    order in which they do. *)
Fixpoint scanMasters (fuel : nat) (masters : list nat) (pattern : string) (count : Z)
    : M (option (res (list string))) :=
  match masters with
  | [] => mret (Some (inr []))
  | n :: masters =>
      r ← scanNode fuel (Some n) pattern count;
      rest ← scanMasters fuel masters pattern count;
      mret match r, rest with
      | None, _ | _, None => None
      | Some (inl e), _ | _, Some (inl e) => Some (inl e)
      | Some (inr ks), Some (inr ks') => Some (inr (ks ++ ks'))
      end
  end.

(** [cluster] says whether the client is a [*redis.ClusterClient]. *)
Definition scanAll (fuel : nat) (cluster : bool) (pattern : string) (count : Z)
    : M (option (res (list string))) :=
  r ← (if cluster then
         m ← ask (RMasters CtxCaller);
         match m with
         | inl e => mret (Some (inl e))
         | inr masters => scanMasters fuel masters pattern count
         end
       else scanNode fuel None pattern count);
  mret match r with
  | Some (inl e) => Some (inl (Errorw ("mkq: scan " +:+ pattern) e))
  | r => r
  end.

Definition isNil (v : any) : bool := match v with ANil => true | _ => false end.

(** The loop over the answers. *)
Fixpoint keepMarked (ks : list string) (cmds : list (res any)) : res (list string) :=
  match ks, cmds with
  | k :: ks, r :: cmds =>
      match r with
      | inl e =>
          if isWrongType e then keepMarked ks cmds else inl (Errorw "mkq: discover queues" e)
      | inr v =>
          match keepMarked ks cmds with
          | inl e => inl e
          | inr out =>
              inr (if match v with AArr l => existsb (λ x, negb (isNil x)) l | _ => false end
                   then k :: out else out)
          end
      end
  | _, _ => inr []
  end.

Definition keepQueueMeta (ks : list string) : M (res (list string)) :=
  match ks with
  | [] => mret (inr [])
  | _ =>
      r ← ask (RPipeline CtxCaller ((λ k, CHMGet k metaMarkerFields) <$> ks));
      mret match r.1 with
      | Some e =>
          if isWrongType e then keepMarked ks r.2 else inl (Errorw "mkq: discover queues" e)
      | None => keepMarked ks r.2
      end
  end.

(** [sort.Strings]. *)
Definition sortStrings (l : list string) : list string := merge_sort String.le l.

(** The names of the keys, each once; a slice expression out of bounds panics. *)
Fixpoint namesOf (keyPrefix : string) (ks : list string) : may_panic (list string) :=
  match ks with
  | [] => Returns []
  | k :: ks =>
      match queueNameFromMetaKey keyPrefix k, namesOf keyPrefix ks with
      | Returns (Some n), Returns ns => Returns (if bool_decide (n ∈ ns) then ns else n :: ns)
      | Returns None, Returns ns => Returns ns
      | _, _ => Panics
      end
  end.

(** A discovery still scanning, panicked, or done. *)
Inductive discovery := Scanning | Panicked | Done (r : res (list string)).

Definition DiscoverQueues (fuel : nat) (cluster : bool) (c : Client) (opts : list DiscoverOption)
    : M discovery :=
  let count := applyOptions opts defaultDiscoverCount in
  scanned ← scanAll fuel cluster (escapeGlob (keyPrefix c) +:+ ":*:meta") count;
  match scanned with
  | None => mret Scanning
  | Some (inl e) => mret (Done (inl e))
  | Some (inr ks) =>
      kept ← keepQueueMeta ks;
      mret match kept with
      | inl e => Done (inl e)
      | inr ks =>
          match namesOf (keyPrefix c) ks with
          | Panics => Panicked
          | Returns found => Done (inr (sortStrings found))
          end
      end
  end.

(** ** SCAN patterns *)

(** What the Redis documentation says of the characters mkq's patterns use. *)
Class Glob := {
  glob : string → string → bool;
  glob_end : ∀ s, glob "" s = String.eqb s "";
  glob_star : ∀ p s, glob (String "*"%char p) s = true ↔ ∃ a b, s = a +:+ b ∧ glob p b = true;
  glob_escaped : ∀ c p s, glob (String "\"%char (String c p)) s = true ↔
    ∃ t, s = String c t ∧ glob p t = true;
  glob_literal : ∀ c p s,
    existsb (Ascii.eqb c) ["*"%char; "?"%char; "["%char; "\"%char] = false →
    glob (String c p) s = true ↔ ∃ t, s = String c t ∧ glob p t = true;
}.

Section glob_lemmas.
Context `{Glob}.

Lemma glob_escape p rest s :
  glob (escapeGlob p +:+ rest) s = true ↔ ∃ t, s = p +:+ t ∧ glob rest t = true.
Proof.
  revert s. induction p as [|c p IH]; intros s.
  { cbn. split; [eauto | by intros (t & -> & ?)]. }
  assert (Hstep : glob (escapeGlob (String c p) +:+ rest) s = true ↔
    ∃ t, s = String c t ∧ glob (escapeGlob p +:+ rest) t = true).
  { cbn [escapeGlob]. destruct (existsb _ _) eqn:E; [apply glob_escaped|]. apply glob_literal.
    cbn in *. rewrite !orb_false_iff in *. tauto. }
  rewrite Hstep. split.
  - intros (t & -> & (t' & -> & ?)%IH). by exists t'.
  - intros (t & -> & ?). exists (p +:+ t). split; [done|]. apply IH. eauto.
Qed.

Lemma glob_text w rest s :
  forallb (λ c, negb (existsb (Ascii.eqb c) ["*"%char; "?"%char; "["%char; "\"%char]))
    (String.list_ascii_of_string w) = true →
  glob (w +:+ rest) s = true ↔ ∃ t, s = w +:+ t ∧ glob rest t = true.
Proof.
  revert s. induction w as [|c w IH]; intros s Hw.
  { cbn. split; [eauto | by intros (t & -> & ?)]. }
  cbn [String.list_ascii_of_string forallb] in Hw. apply andb_true_iff in Hw as [Hc%negb_true_iff Hw].
  change (String c w +:+ rest) with (String c (w +:+ rest)). rewrite glob_literal by exact Hc. split.
  - intros (t & -> & (t' & -> & ?)%IH); [|done]. by exists t'.
  - intros (t & -> & ?). exists (w +:+ t). split; [done|]. apply IH; eauto.
Qed.

(** The pattern of [DiscoverQueues] matches exactly the keys of its shape. *)
Lemma pattern_matches p key :
  glob (escapeGlob p +:+ ":*:meta") key = true ↔ ∃ x, key = keys.Meta (keys.mkBuilder p x).
Proof.
  unfold keys.Meta, keys.Base. cbn [keys.Prefix keys.Queue]. rewrite glob_escape.
  change ":*:meta" with (":" +:+ String "*"%char (":meta" +:+ "")). split.
  - intros (t & -> & Ht). apply glob_text in Ht as (t1 & -> & (a & b & -> & Hb)%glob_star); [|done].
    apply glob_text in Hb as (t2 & -> & Ht2); [|done]. rewrite glob_end in Ht2.
    apply String.eqb_eq in Ht2 as ->. exists a. rewrite !sapp_nil_r. by rewrite <- !sapp_assoc.
  - intros (x & ->). exists (":" +:+ x +:+ ":meta"). split; [by rewrite <- !sapp_assoc|].
    apply glob_text; [done|]. exists (x +:+ ":meta"). split; [done|]. apply glob_star.
    exists x, ":meta". split; [done|]. apply glob_text; [done|]. exists "".
    split; [by rewrite sapp_nil_r|]. by rewrite glob_end.
Qed.
End glob_lemmas.

(** ** A key space *)

Inductive entry := KHash (h : gmap string string) | KString.

Definition keyspace : Type := gmap string entry.

(** Queue metadata: a HASH with one of the marker fields. *)
Definition is_meta (ks : keyspace) (k : string) : bool :=
  match ks !! k with
  | Some (KHash h) => existsb (λ f, bool_decide (is_Some (h !! f))) metaMarkerFields
  | _ => false
  end.

Definition hmget_reply (ks : keyspace) (k : string) (fs : list string) : res any :=
  match ks !! k with
  | Some (KHash h) => inr (AArr ((λ f, match h !! f with Some v => AStr v | None => ANil end) <$> fs))
  | Some KString =>
      inl (ERedis "WRONGTYPE Operation against a key holding the wrong kind of value")
  | None => inr (AArr ((λ _, ANil) <$> fs))
  end.

Definition first_error (l : list (res any)) : option err :=
  head (omap (λ r, match r with inl e => Some e | inr _ => None end) l).

(** A key space that does not change, spread over nodes. Each node is scanned in
    [pages] of its keys; cursor [i] stands for the page of that number, of which
    SCAN returns the keys that match the pattern it was given. COUNT is a hint. *)
Definition layout : Type := option nat → list (list string).

Definition kserve `{Glob} (ks : keyspace) (masters : list nat) (pages : layout) : server unit := λ w r,
  match r as r0 return resp r0 * unit with
  | RMasters _ => (inr masters, w)
  | RScan _ node cursor pattern _ =>
      let next := cursor + 1 in
      (inr (filter (λ k, glob pattern k = true) (default [] (pages node !! Z.to_nat cursor)),
            if next <? Z.of_nat (length (pages node)) then next else 0), w)
  | RPipeline _ cmds =>
      let rs := (λ c, match c with CHMGet k fs => hmget_reply ks k fs | _ => inr ANil end) <$> cmds in
      ((first_error rs, rs), w)
  | r => ((quiet tt r).1, w)
  end.

(** The nodes a client scans. *)
Definition nodes (cluster : bool) (masters : list nat) : list (option nat) :=
  if cluster then Some <$> masters else [None].

(** SCAN's guarantee: full scans of all nodes come by every key, perhaps more
    than once, and by nothing else. *)
Definition full_scan (ks : keyspace) (ns : list (option nat)) (pages : layout) : Prop :=
  (∀ n, n ∈ ns → pages n ≠ []) ∧
  ∀ k, k ∈ mjoin (mjoin (pages <$> ns)) ↔ is_Some (ks !! k).

(** What is left of some pages. *)
Definition matching `{Glob} (pattern : string) (ps : list (list string)) : list string :=
  filter (λ k, glob pattern k = true) (mjoin ps).

Section discover_lemmas.
Context `{Glob}.
Variable ks : keyspace.
Variable masters : list nat.
Variable pages : layout.

Definition value {A} (m : M A) : A := result (kserve ks masters pages) m tt.

Lemma value_bind {A B} (m : M A) (f : A → M B) : value (m ≫= f) = value (f (value m)).
Proof.
  unfold value, result. rewrite run_bind. destruct (run (kserve ks masters pages) m tt) as [[a []] l]. cbn.
  by destruct (run (kserve ks masters pages) (f a) tt) as [[b []] l2].
Qed.

Lemma scan_rest node pattern count i out fuel :
  (i < length (pages node))%nat → (length (pages node) - i ≤ fuel)%nat →
  value (loop fuel (scan_turn node pattern count) (out, Z.of_nat i)) =
    inr (inr (out ++ matching pattern (drop i (pages node)))).
Proof.
  revert i out. induction fuel as [|fuel IH]; intros i out Hi Hf; [lia|]. cbn [loop].
  destruct (lookup_lt_is_Some_2 (pages node) i Hi) as [page Hp].
  rewrite value_bind, (drop_S _ page i Hp).
  assert (value (scan_turn node pattern count (out, Z.of_nat i)) =
    if Z.of_nat i + 1 <? Z.of_nat (length (pages node))
    then inl (out ++ filter (λ k, glob pattern k = true) page, Z.of_nat i + 1)
    else inr (inr (out ++ filter (λ k, glob pattern k = true) page))) as ->.
  { unfold value, result, scan_turn. cbn. rewrite Nat2Z.id, Hp. cbn.
    destruct (Z.ltb_spec (Z.of_nat i + 1) (Z.of_nat (length (pages node)))); [|done].
    destruct (Z.eqb_spec (Z.of_nat i + 1) 0); [lia | done]. }
  destruct (Z.ltb_spec (Z.of_nat i + 1) (Z.of_nat (length (pages node)))).
  - replace (Z.of_nat i + 1) with (Z.of_nat (S i)) by lia. rewrite IH by lia.
    unfold matching. cbn [mjoin list_join]. by rewrite filter_app, app_assoc.
  - rewrite drop_ge by lia. unfold matching. cbn [mjoin list_join]. by rewrite app_nil_r.
Qed.

Lemma scanNode_value node pattern count fuel :
  pages node ≠ [] → (length (pages node) ≤ fuel)%nat →
  value (scanNode fuel node pattern count) = Some (inr (matching pattern (pages node))).
Proof.
  intros Hne Hf. unfold scanNode. rewrite value_bind, (scan_rest node _ _ 0 [] fuel); [done | | lia].
  by destruct (pages node); [|cbn; lia].
Qed.

Lemma scanMasters_value ns pattern count fuel :
  (∀ n, n ∈ ns → pages (Some n) ≠ [] ∧ (length (pages (Some n)) ≤ fuel)%nat) →
  value (scanMasters fuel ns pattern count) = Some (inr (matching pattern (mjoin (pages ∘ Some <$> ns)))).
Proof.
  induction ns as [|n ns IH]; intros Hns; [done|]. cbn [scanMasters].
  destruct (Hns n) as [Hne Hf]; [by left|].
  rewrite value_bind, scanNode_value, value_bind, IH by (done || intros; apply Hns; by right).
  cbn. unfold matching. by rewrite join_app, filter_app.
Qed.

Lemma scanAll_value cluster pattern count fuel :
  (∀ n, n ∈ nodes cluster masters → pages n ≠ [] ∧ (length (pages n) ≤ fuel)%nat) →
  value (scanAll fuel cluster pattern count) =
    Some (inr (matching pattern (mjoin (pages <$> nodes cluster masters)))).
Proof.
  intros Hns. unfold scanAll. rewrite value_bind. destruct cluster; cbn [nodes] in *.
  - rewrite value_bind. change (value (ask (RMasters CtxCaller))) with (inr masters : res (list nat)).
    cbv iota. rewrite scanMasters_value by (intros; apply Hns; by apply list_elem_of_fmap_2).
    by rewrite list_fmap_compose.
  - destruct (Hns None) as [Hne Hf]; [by left|]. rewrite scanNode_value by done. cbn. by rewrite app_nil_r.
Qed.

Lemma marked_reply (h : gmap string string) fs :
  existsb (λ x, negb (isNil x)) ((λ f, match h !! f with Some v => AStr v | None => ANil end) <$> fs) =
    existsb (λ f, bool_decide (is_Some (h !! f))) fs.
Proof.
  induction fs as [|f fs IH]; [done|]. cbn. rewrite IH. f_equal. by destruct (h !! f).
Qed.

Lemma keepMarked_spec l :
  keepMarked l ((λ k, hmget_reply ks k metaMarkerFields) <$> l) = inr (filter (λ k, is_meta ks k = true) l).
Proof.
  induction l as [|k l IH]; [done|]. cbn [fmap list_fmap keepMarked]. rewrite IH, filter_cons.
  assert (Hm : is_meta ks k = match ks !! k with
    | Some (KHash h) => existsb (λ f, bool_decide (is_Some (h !! f))) metaMarkerFields | _ => false end) by done.
  rewrite Hm. unfold hmget_reply at 1. destruct (ks !! k) as [[h|]|]; [|done..].
  rewrite marked_reply. by destruct (existsb _ _).
Qed.

Lemma keepQueueMeta_value l :
  value (keepQueueMeta l) = inr (filter (λ k, is_meta ks k = true) l).
Proof.
  destruct l as [|k l]; [done|]. set (ls := k :: l).
  assert (value (keepQueueMeta ls) =
    let rs := (λ c, match c with CHMGet k fs => hmget_reply ks k fs | _ => inr ANil end) <$>
                ((λ k, CHMGet k metaMarkerFields) <$> ls) in
    match first_error rs with
    | Some e => if isWrongType e then keepMarked ls rs else inl (Errorw "mkq: discover queues" e)
    | None => keepMarked ls rs
    end) as -> by reflexivity.
  rewrite <- list_fmap_compose. unfold compose. cbv zeta. rewrite keepMarked_spec.
  destruct (first_error _) as [e|] eqn:E; [|done].
  assert (isWrongType e = true) as ->; [|done]. revert E. unfold first_error. clear. generalize ls.
  intros l'. induction l' as [|k' l' IH]; [done|]. cbn [fmap list_fmap omap list_omap].
  unfold hmget_reply at 1. destruct (ks !! k') as [[h|]|]; cbn; auto. by intros [= <-].
Qed.

Lemma namesOf_spec p l :
  (∀ k, k ∈ l → ∃ x, k = keys.Meta (keys.mkBuilder p x)) →
  ∃ ns, namesOf p l = Returns ns ∧ NoDup ns ∧
    ∀ x, x ∈ ns ↔ x ≠ "" ∧ keys.Meta (keys.mkBuilder p x) ∈ l.
Proof.
  induction l as [|k l IH]; intros Hl.
  { exists []. split_and!; [done | constructor |]. intros x. rewrite !elem_of_nil. tauto. }
  destruct IH as (ns & E & Hnd & Hns); [intros k' Hk'; apply Hl; by right|].
  destruct (Hl k) as [x ->]; [by left|]. cbn [namesOf]. rewrite name_of_meta, E.
  assert (Hinj : ∀ a b, keys.Meta (keys.mkBuilder p a) = keys.Meta (keys.mkBuilder p b) → a = "" ∨ a = b).
  { intros a b Eab. pose proof (name_of_meta p a) as E1. rewrite Eab, name_of_meta in E1.
    destruct (String.eqb_spec a ""); [by left|]. destruct (String.eqb_spec b ""); simplify_eq. by right. }
  destruct (String.eqb_spec x "") as [->|Hx].
  - exists ns. split_and!; [done..|]. intros y. rewrite Hns, elem_of_cons. split; [tauto|].
    intros [Hy [E'|?]]; [destruct (Hinj _ _ E'); congruence | done].
  - eexists. split; [reflexivity|]. case_bool_decide as Hin.
    + split; [done|]. intros y. rewrite Hns, elem_of_cons. split; [tauto|].
      intros [Hy [E'|?]]; [|done]. destruct (Hinj _ _ E') as [?|<-]; [done | by apply Hns in Hin].
    + split; [by constructor|]. intros y. rewrite !elem_of_cons, Hns. split.
      * intros [->|[? ?]]; auto.
      * intros [Hy [E'|?]]; [|by right]. destruct (Hinj _ _ E') as [?|<-]; [done | by left].
Qed.
End discover_lemmas.

(** ** Properties *)

(** C32. Discovery is exact: it neither misses nor invents a queue. Whatever the
    prefix (glob characters included), on a plain client and on a cluster of any
    number of masters, whatever the page sizes and the other keys (jobs,
    schedules and deduplication keys that end the same way, keys of other
    types), once the scan is over the result is the sorted list, without
    repetition, of the non-empty names whose meta key is a HASH with a marker
    field; and no key makes the name extraction panic. *)
Theorem discover_exact `{Glob} ks masters pages cluster c opts fuel :
  full_scan ks (nodes cluster masters) pages →
  (∀ n, n ∈ nodes cluster masters → length (pages n) ≤ fuel)%nat →
  ∃ names, result (kserve ks masters pages) (DiscoverQueues fuel cluster c opts) tt = Done (inr names) ∧
    NoDup names ∧ Sorted String.le names ∧
    ∀ x, x ∈ names ↔ x ≠ "" ∧ is_meta ks (keys.Meta (keys.mkBuilder (keyPrefix c) x)) = true.
Proof.
  intros [Hne Hscan] Hfuel. fold (value ks masters pages (DiscoverQueues fuel cluster c opts)).
  unfold DiscoverQueues. cbv zeta. rewrite value_bind, scanAll_value by auto.
  rewrite value_bind, keepQueueMeta_value.
  set (kept := filter _ (matching _ _)).
  assert (Hkept : ∀ k, k ∈ kept ↔ is_meta ks k = true ∧ ∃ x, k = keys.Meta (keys.mkBuilder (keyPrefix c) x)).
  { intros k. unfold kept, matching. rewrite !list_elem_of_filter, Hscan, pattern_matches. split; [tauto|].
    intros [Hm Hx]. split_and!; [done | done |]. unfold is_meta in Hm. by destruct (ks !! k). }
  destruct (namesOf_spec (keyPrefix c) kept) as (ns & E & Hnd & Hns); [by intros k [_ ?]%Hkept|].
  change (value ks masters pages (mret ?x)) with x. rewrite E. exists (sortStrings ns).
  split; [done|]. unfold sortStrings. pose proof (merge_sort_Permutation String.le ns) as Hp.
  split_and!; [by rewrite Hp | apply (Sorted_merge_sort _) |].
  intros x. rewrite Hp, Hns. split; intros [Hx Hk]; (split; [done|]); apply Hkept in Hk || apply Hkept; tauto || eauto.
Qed.

(** *** A concrete matcher

    Stars, escapes and literal characters; [?] and classes, which mkq's patterns
    never contain unescaped, match nothing. *)

Fixpoint gmatch (p s : string) : bool :=
  match p with
  | EmptyString => String.eqb s ""
  | String c p' =>
      if Ascii.eqb c "*"%char then
        (fix star s := gmatch p' s || match s with EmptyString => false | String _ s' => star s' end) s
      else if Ascii.eqb c "\"%char then
        match p', s with
        | String e p'', String d s' => Ascii.eqb e d && gmatch p'' s'
        | _, _ => false
        end
      else if Ascii.eqb c "?"%char || Ascii.eqb c "["%char then false
      else match s with String d s' => Ascii.eqb c d && gmatch p' s' | EmptyString => false end
  end.

Lemma gmatch_star p s :
  gmatch (String "*"%char p) s = true ↔ ∃ a b, s = a +:+ b ∧ gmatch p b = true.
Proof.
  cbn [gmatch Ascii.eqb Bool.eqb]. induction s as [|d s IH].
  - rewrite orb_false_r. split; [intros Hp; by exists "", "" | intros ([|] & b & E & Hb); [by rewrite E | done]].
  - rewrite orb_true_iff, IH. split.
    + intros [Hp|(a & b & -> & Hb)]; [by exists "", (String d s) | by exists (String d a), b].
    + intros ([|e a] & b & E & Hb); [left; by rewrite E|]. right. injection E as -> ->. eauto.
Qed.

Lemma gmatch_cons c (k : string → bool) s :
  match s with String d s' => Ascii.eqb c d && k s' | EmptyString => false end = true ↔
  ∃ t, s = String c t ∧ k t = true.
Proof.
  destruct s as [|d s]; [split; [done | intros (t & [=] & _)]|]. rewrite andb_true_iff, Ascii.eqb_eq.
  split; [intros [-> ?]; eauto | intros (t & [= -> ->] & ?); done].
Qed.

Program Definition simpleGlob : Glob := {| glob := gmatch |}.
Next Obligation. done. Qed.
Next Obligation. apply gmatch_star. Qed.
Next Obligation. intros c p s. apply (gmatch_cons c (gmatch p) s). Qed.
Next Obligation.
  intros c p s Hc. cbn in Hc. rewrite !orb_false_iff in Hc. destruct Hc as (H1 & H2 & H3 & H4 & _).
  cbn [gmatch]. rewrite H1, H2, H3, H4. apply (gmatch_cons c (gmatch p) s).
Qed.

(** A prefix with glob characters, one queue, and a job and a deduplication key
    whose names end like a meta key. *)
Definition sampleKeys : keyspace :=
  {["bull[1]:email:meta" := KHash {["version" := "v"]};
    "bull[1]:email:job:meta" := KHash {["name" := "x"]};
    "bull[1]:email:de:a:meta" := KString;
    "bull1:other:meta" := KHash {["version" := "v"]}]}.

(** Two masters, the first with two pages. *)
Definition samplePages : layout := λ n,
  match n with
  | Some O => [["bull[1]:email:job:meta"]; ["bull[1]:email:meta"; "bull[1]:email:de:a:meta"]]
  | _ => [["bull1:other:meta"; "bull[1]:email:meta"]]
  end.

Lemma sample_scanned : full_scan sampleKeys (nodes true [0; 1]%nat) samplePages.
Proof.
  split; [by intros [[|n]|]|]. intros k. split.
  - intros Hk. cbn in Hk. repeat (apply elem_of_cons in Hk as [->|Hk]; [by eexists; vm_compute|]).
    by apply not_elem_of_nil in Hk.
  - intros [e He]. unfold sampleKeys in He.
    repeat (apply lookup_insert_Some in He as [[<- _]|[_ He]];
            [apply (bool_decide_unpack _); by vm_compute|]).
    apply lookup_singleton_Some in He as [<- _]. apply (bool_decide_unpack _). by vm_compute.
Qed.

Lemma discover_exact_witness :
  ∃ names, result (kserve (H := simpleGlob) sampleKeys [0; 1]%nat samplePages)
    (DiscoverQueues 5 true (mkClient "bull[1]" 0) [WithDiscoverCount 2]) tt = Done (inr names) ∧
    ∀ x, x ∈ names ↔ x ≠ "" ∧ is_meta sampleKeys (keys.Meta (keys.mkBuilder "bull[1]" x)) = true.
Proof.
  destruct (discover_exact (H := simpleGlob) sampleKeys [0; 1]%nat samplePages true (mkClient "bull[1]" 0)
    [WithDiscoverCount 2] 5 sample_scanned) as (names & E & _ & _ & Hn);
    [intros [[|n]|] _; cbn; lia|].
  exists names. split; [exact E | exact Hn].
Defined.
