(* ===== verification/Loader.v ===== *)
(** * Include expansion (internal/lua/preprocess.go)

    Turns a vendored entry point into one script: the directives are found as the
    regular expression of the code finds them, their targets resolved and
    inlined, each once. The file system is a parameter, as it is in the code. *)

From S2P Require Import Prelude GoLib Backoff Effects Cron.

(** ** The package [path] *)

Definition slash : ascii := "/"%char.

(** The elements between slashes. *)
Fixpoint split_path (s : string) : list string :=
  match s with
  | EmptyString => [""]
  | String c s =>
      if Ascii.eqb c slash then "" :: split_path s
      else match split_path s with
      | e :: es => String c e :: es
      | [] => [String c ""]
      end
  end.

Fixpoint join_path (es : list string) : string :=
  match es with
  | [] => ""
  | [e] => e
  | e :: es => e +:+ "/" +:+ join_path es
  end.

(** The rules of [path.Clean]: no empty and no dot elements, a dot-dot removes
    the element before it, or stays at the front of a relative path. [acc] is
    reversed. *)
Fixpoint clean_elems (rooted : bool) (acc es : list string) : list string :=
  match es with
  | [] => rev acc
  | e :: es =>
      if String.eqb e "" || String.eqb e "." then clean_elems rooted acc es
      else if String.eqb e ".." then
        match acc with
        | a :: acc' => if String.eqb a ".." then clean_elems rooted (e :: acc) es
                       else clean_elems rooted acc' es
        | [] => if rooted then clean_elems rooted [] es else clean_elems rooted [e] es
        end
      else clean_elems rooted (e :: acc) es
  end.

Definition Clean (p : string) : string :=
  let rooted := HasPrefix p "/" in
  let es := clean_elems rooted [] (split_path p) in
  if rooted then "/" +:+ join_path es
  else match es with [] => "." | _ => join_path es end.

(** [path.Join] of two elements. *)
Definition Join (a b : string) : string :=
  if String.eqb a "" then (if String.eqb b "" then "" else Clean b)
  else if String.eqb b "" then Clean a else Clean (a +:+ "/" +:+ b).

(** [path.Dir]: up to the last slash, cleaned. *)
Definition Dir (p : string) : string :=
  match rev (split_path p) with
  | _ :: (e :: es) => Clean (join_path (rev (e :: es)) +:+ "/")
  | _ => "."
  end.

(** ** preprocess.go *)

Definition scriptsRoot : string := "scripts".
Definition maxIncludeDepth : nat := 32.

Definition newline : ascii := byte 10.
Definition dquote : ascii := byte 34.

(** [\s]. *)
Definition is_space (c : ascii) : bool :=
  existsb (Z.eqb (byte_of c)) [9; 10; 12; 13; 32].

Fixpoint skip_space (s : string) : string :=
  match s with
  | String c s' => if is_space c then skip_space s' else s
  | EmptyString => s
  end.

Definition strip (w s : string) : option string :=
  if String.prefix w s then Some (sdrop (String.length w) s) else None.

(** Up to a double quote, and what follows it. *)
Fixpoint upto_quote (s : string) : option (string * string) :=
  match s with
  | EmptyString => None
  | String c s =>
      if Ascii.eqb c dquote then Some ("", s)
      else match upto_quote s with Some (a, b) => Some (String c a, b) | None => None end
  end.

(** The greedy [\s*$] in multi-line mode: how many blanks the longest match
    takes; it ends before a line break or at the end of the text. *)
Fixpoint tail_space (s : string) : option nat :=
  match s with
  | EmptyString => Some 0%nat
  | String c s' =>
      match (if is_space c then tail_space s' else None) with
      | Some j => Some (S j)
      | None => if Ascii.eqb c newline then Some 0%nat else None
      end
  end.

(** [includeRe] anchored at a position: the reference and the length matched. *)
Definition match_at (s : string) : option (string * nat) :=
  match strip "---" (skip_space s) with
  | None => None
  | Some s1 =>
  match strip "@include" (skip_space s1) with
  | None => None
  | Some s2 =>
  match s2 with
  | EmptyString => None
  | String c _ =>
  if negb (is_space c) then None else
  match skip_space s2 with
  | EmptyString => None
  | String d s3 =>
  if negb (Ascii.eqb d dquote) then None else
  match upto_quote s3 with
  | None => None
  | Some (ref, s4) =>
  if String.eqb ref "" then None else
  match tail_space s4 with
  | None => None
  | Some j => Some (ref, (String.length s - String.length s4 + j)%nat)
  end end end end end end.

(** [includeRe.FindAllSubmatchIndex(data, -1)]: start, end and reference of the
    matches, left to right; [skip] bytes of the last match are still to pass,
    [bol] says whether the position is at the beginning of a line. *)
Fixpoint find_from (s : string) (pos skip : nat) (bol : bool) : list (nat * nat * string) :=
  match s with
  | EmptyString => []
  | String c s' =>
      let next skip := find_from s' (S pos) skip (Ascii.eqb c newline) in
      match skip with
      | S k => next k
      | O =>
          if bol then
            match match_at s with
            | Some (ref, len) => (pos, (pos + len)%nat, ref) :: next (len - 1)%nat
            | None => next 0%nat
            end
          else next 0%nat
      end
  end.

Definition findAll (data : string) : list (nat * nat * string) := find_from data 0 0 true.

Definition resolveInclude (dir ref : string) : res string :=
  if HasPrefix ref "/" || Contains ref ".." then
    inl (EText ("lua include reference escapes scripts root: " +:+ Quote ref))
  else
    let target := Clean (Join dir ref) +:+ ".lua" in
    if negb (HasPrefix target (scriptsRoot +:+ "/")) then
      inl (EText ("lua include resolved outside scripts root: " +:+ Quote ref +:+ " -> " +:+ Quote target))
    else inr target.

Section preprocess.
Variable readFile : string → res string.

(** The cursor after a match that ends at [stop]. *)
Definition past_line (data : string) (stop : nat) : nat :=
  match sdrop stop data with
  | String c _ => if Ascii.eqb c newline then S stop else stop
  | EmptyString => stop
  end.

(** The loop over the matches of one file; [inline] expands a target that was
    not included yet. *)
Fixpoint walk (inline : string → string → gset string → may_panic (res (string * gset string)))
    (data filePath dir : string) (stack : gset string) (ms : list (nat * nat * string))
    (cursor : nat) (buf : string) (included : gset string)
    : may_panic (res (string * gset string)) :=
  match ms with
  | [] =>
      match slice data cursor (String.length data) with
      | Panics => Panics
      | Returns rest => Returns (inr (buf +:+ rest, included))
      end
  | (start, stop, ref) :: ms =>
      match slice data cursor start with
      | Panics => Panics
      | Returns text =>
          let buf := buf +:+ text in
          match resolveInclude dir ref with
          | inl e => Returns (inl e)
          | inr target =>
              if bool_decide (target ∈ stack) then
                Returns (inl (EText ("lua include cycle detected at " +:+ filePath +:+ " -> " +:+ target)))
              else if bool_decide (target ∈ included) then
                walk inline data filePath dir stack ms (past_line data stop) buf included
              else
                match inline target buf ({[target]} ∪ included) with
                | Panics => Panics
                | Returns (inl e) => Returns (inl e)
                | Returns (inr (buf, included)) =>
                    walk inline data filePath dir stack ms (past_line data stop) buf included
                end
          end
      end
  end.

(** [expand]; [budget] is [maxIncludeDepth + 1 - depth]. *)
Fixpoint expand (budget : nat) (filePath buf : string) (included stack : gset string)
    : may_panic (res (string * gset string)) :=
  match budget with
  | O => Returns (inl (EText ("lua include depth exceeded " +:+ FormatInt (Z.of_nat maxIncludeDepth)
           +:+ " at " +:+ filePath)))
  | S budget =>
      if bool_decide (filePath ∈ stack) then
        Returns (inl (EText ("lua include cycle detected at " +:+ filePath)))
      else
        match readFile filePath with
        | inl e => Returns (inl (Errorw ("read lua " +:+ filePath) e))
        | inr data =>
            let stack := {[filePath]} ∪ stack in
            walk (λ target buf included, expand budget target buf included stack)
              data filePath (Dir filePath) stack (findAll data) 0 buf included
        end
  end.

Definition preprocess (name : string) : may_panic (res string) :=
  match expand (S maxIncludeDepth) (Join scriptsRoot (name +:+ ".lua")) "" ∅ ∅ with
  | Panics => Panics
  | Returns (inl e) => Returns (inl e)
  | Returns (inr (buf, _)) => Returns (inr buf)
  end.
End preprocess.

(** ** Witness inputs *)

Definition include_line (ref : string) : string := quoted ("--- @include `" +:+ ref +:+ "`").

Definition nl : string := String newline "".

Example match_plain : match_at (include_line "a" +:+ nl +:+ "x") = Some ("a", 16%nat).
Proof. by vm_compute. Qed.

Example clean_dots : Clean "scripts/includes/./a//b/../c" = "scripts/includes/a/c".
Proof. by vm_compute. Qed.

Example dir_nested : Dir "scripts/includes/a.lua" = "scripts/includes".
Proof. by vm_compute. Qed.

(** Two files, one included twice. *)
Definition sampleFS (p : string) : res string :=
  if String.eqb p "scripts/main.lua" then
    inr (include_line "includes/a" +:+ nl +:+ include_line "includes/b" +:+ nl +:+ "main")
  else if String.eqb p "scripts/includes/a.lua" then inr (include_line "b" +:+ nl +:+ "a" +:+ nl)
  else if String.eqb p "scripts/includes/b.lua" then inr ("b" +:+ nl)
  else inl (EText "file does not exist").

Example sample_expanded : preprocess sampleFS "main" = Returns (inr ("b" +:+ nl +:+ "a" +:+ nl +:+ "main")).
Proof. by vm_compute. Qed.

(** ** What expansion does *)

(** [weave a b s]: [s] is made of the characters of [a] and of [b], each in
    their order; [weaves ts s] the same for several texts. *)
Inductive weave : string → string → string → Prop :=
| weave_nil : weave "" "" ""
| weave_l c a b s : weave a b s → weave (String c a) b (String c s)
| weave_r c a b s : weave a b s → weave a (String c b) (String c s).

Fixpoint weaves (ts : list string) (s : string) : Prop :=
  match ts with
  | [] => s = ""
  | t :: ts => ∃ s', weaves ts s' ∧ weave t s' s
  end.

Lemma weave_right b : weave "" b b.
Proof. induction b; by constructor. Qed.

Lemma weave_left a : weave a "" a.
Proof. induction a; by constructor. Qed.

Lemma weave_app a b s a' b' s' :
  weave a b s → weave a' b' s' → weave (a +:+ a') (b +:+ b') (s +:+ s').
Proof. intros H H'. induction H; cbn; [done | by constructor..]. Qed.

Lemma weaves_app ts s us s' : weaves ts s → weaves us s' → weaves (ts ++ us) (s +:+ s').
Proof.
  revert s. induction ts as [|t ts IH]; intros s; cbn; [by intros ->|].
  intros (s0 & H0 & Hw) Hus. exists (s0 +:+ s'). split; [by apply IH|].
  rewrite <-(sapp_nil_r t). apply weave_app; [done | apply weave_right].
Qed.

(** Texts woven one after the other, the first of each in one. *)
Lemma weaves_join a ts s b us s' :
  weaves (a :: ts) s → weaves (b :: us) s' → weaves ((a +:+ b) :: ts ++ us) (s +:+ s').
Proof.
  intros (s0 & H0 & Hw) (s1 & H1 & Hw'). exists (s0 +:+ s1).
  split; [by apply weaves_app | by apply weave_app].
Qed.

Lemma weaves_one t : weaves [t] t.
Proof. exists "". split; [done | apply weave_left]. Qed.

Lemma weaves_skip ts s : weaves ts s → weaves ("" :: ts) s.
Proof. intros H. exists s. split; [done | apply weave_right]. Qed.

Section expansion.
Variable readFile : string → res string.

(** A file's own text: what is left of it without its directive lines. *)
Fixpoint own_from (data : string) (ms : list (nat * nat * string)) (cursor : nat) : may_panic string :=
  match ms with
  | [] => slice data cursor (String.length data)
  | (start, stop, _) :: ms =>
      match slice data cursor start, own_from data ms (past_line data stop) with
      | Returns a, Returns b => Returns (a +:+ b)
      | _, _ => Panics
      end
  end.

Definition own (data : string) : may_panic string := own_from data (findAll data) 0.

Definition own_text (f : string) : string :=
  match readFile f with
  | inr data => match own data with Returns s => s | Panics => "" end
  | inl _ => ""
  end.

(** [g] is included by [f]. *)
Definition includes (f g : string) : Prop :=
  ∃ data m, readFile f = inr data ∧ m ∈ findAll data ∧ resolveInclude (Dir f) m.2 = inr g.

(** [f] was read, and everything it includes is in [inc]. *)
Definition complete (f : string) (inc : gset string) : Prop :=
  ∃ data s, readFile f = inr data ∧ own data = Returns s ∧
    ∀ m, m ∈ findAll data → ∃ t, resolveInclude (Dir f) m.2 = inr t ∧ t ∈ inc.

Lemma complete_mono f inc inc' : inc ⊆ inc' → complete f inc → complete f inc'.
Proof. intros Hs (d & s & Hd & Ho & Hm). exists d, s. split_and!; auto. intros m [t ?]%Hm. set_solver. Qed.

(** An expansion step below [root] with the text [extra] of its own: it includes
    [new] files, each once, each complete and reachable, none of them on the
    [stack], and appends [extra] and their texts woven together. *)
Definition expands (root : string) (stack : gset string) (extra : string)
    (buf : string) (inc : gset string) (buf' : string) (inc' : gset string) : Prop :=
  ∃ new, NoDup new ∧ (∀ g, g ∈ new → (g ∉ inc) ∧ (g ∉ stack)) ∧ inc' = list_to_set new ∪ inc ∧
    (∃ out, buf' = buf +:+ out ∧ weaves (extra :: (own_text <$> new)) out) ∧
    ∀ g, g ∈ new → complete g inc' ∧ rtc includes root g.

Definition inlines (f : string) (stack : gset string)
    (inline : string → string → gset string → may_panic (res (string * gset string))) : Prop :=
  ∀ t buf inc buf' inc', includes f t → t ∉ stack →
    inline t buf inc = Returns (inr (buf', inc')) →
    complete t inc' ∧ expands t stack (own_text t) buf inc buf' inc'.

Lemma walk_expands inline f data stack ms cursor buf inc buf' inc' :
  inlines f stack inline → readFile f = inr data → (∀ m, m ∈ ms → m ∈ findAll data) →
  walk inline data f (Dir f) stack ms cursor buf inc = Returns (inr (buf', inc')) →
  ∃ s, own_from data ms cursor = Returns s ∧ expands f stack s buf inc buf' inc' ∧
    ∀ m, m ∈ ms → ∃ t, resolveInclude (Dir f) m.2 = inr t ∧ t ∈ inc'.
Proof.
  intros Hin Hf. revert cursor buf inc. induction ms as [|[[start stop] ref] ms IH]; intros cursor buf inc Hms E.
  { cbn in E |- *. destruct (slice data cursor (String.length data)) as [rest|]; [|done].
    injection E as <- <-. exists rest. split; [done|]. split; [|intros m []%not_elem_of_nil].
    exists []. split_and!; [constructor | set_solver | set_solver | |set_solver].
    exists rest. split; [done | apply weaves_one]. }
  cbn [walk own_from] in E |- *. destruct (slice data cursor start) as [text|]; [|done].
  destruct (resolveInclude (Dir f) ref) as [|t] eqn:Er; [done|].
  case_bool_decide as Hst; [done|].
  assert (Hinc : includes f t).
  { exists data, (start, stop, ref). split_and!; [done | apply Hms; by left | done]. }
  case_bool_decide as Hi.
  - destruct (IH (past_line data stop) (buf +:+ text) inc) as (s & -> & (new & Hnd & Hdis & -> & (out & -> & Hl) & Hg) & Hm);
      [intros m ?; apply Hms; by right | done |].
    exists (text +:+ s). split; [done|]. split.
    + exists new. split_and!; auto. exists (text +:+ out). split; [by rewrite sapp_assoc|].
      apply (weaves_join text [] text); [apply weaves_one | done].
    + intros m [->|?]%elem_of_cons; [exists t; split; [done | set_solver] | auto].
  - destruct (inline t (buf +:+ text) ({[t]} ∪ inc)) as [[|[buf1 inc1]]|] eqn:Et; [done| |done].
    apply Hin in Et as (Hct & new1 & Hnd1 & Hdis1 & Einc1 & (out1 & -> & Hl1) & Hg1); [|done..].
    destruct (IH (past_line data stop) ((buf +:+ text) +:+ out1) inc1)
      as (s & -> & (new & Hnd & Hdis & -> & (out & -> & Hl) & Hg) & Hm);
      [intros m ?; apply Hms; by right | done |].
    exists (text +:+ s). split; [done|]. split.
    + exists (t :: new1 ++ new). rewrite Einc1 in *. split_and!.
      * constructor; [set_solver|]. apply NoDup_app. split_and!; [done | set_solver | done].
      * intros g Hgin. apply elem_of_cons in Hgin as [->|[Hgin|Hgin]%elem_of_app]; set_solver.
      * set_solver.
      * exists (text +:+ out1 +:+ out). split; [by rewrite !sapp_assoc|].
        rewrite fmap_cons, fmap_app. apply (weaves_join text [] text); [apply weaves_one|].
        apply (weaves_join "" (own_text t :: (own_text <$> new1)) out1); [by apply weaves_skip | done].
      * intros g Hgin. apply elem_of_cons in Hgin as [->|[Hgin|Hgin]%elem_of_app].
        -- split; [eapply complete_mono; [|exact Hct]; set_solver | by apply rtc_once].
        -- destruct (Hg1 g Hgin) as [? ?]. split; [eapply complete_mono; [|done]; set_solver|].
           by eapply rtc_l.
        -- by apply Hg.
    + intros m [->|?]%elem_of_cons; [exists t; split; [done | set_solver] | auto].
Qed.

Lemma expand_expands budget f buf inc stack buf' inc' :
  expand readFile budget f buf inc stack = Returns (inr (buf', inc')) →
  complete f inc' ∧ expands f ({[f]} ∪ stack) (own_text f) buf inc buf' inc'.
Proof.
  revert f buf inc stack buf' inc'. induction budget as [|budget IH]; intros f buf inc stack buf' inc' E; [done|].
  cbn [expand] in E. case_bool_decide; [done|]. destruct (readFile f) as [|data] eqn:Ef; [done|].
  apply walk_expands in E as (s & Hs & He & Hm); [|clear E|done|done].
  - split; [by exists data, s|]. unfold own_text, own. by rewrite Ef, Hs.
  - intros t b i b' i' _ Ht Et. apply IH in Et as [Hc (new & Hnd & Hdis & Hi & Hl & Hg)].
    split; [done|]. exists new. split_and!; [done | | done..]. intros g Hgin. apply Hdis in Hgin. set_solver.
Qed.

(** A file tree without cycles, as a rank that includes bring down: every file
    below [f] can be read and cut up, and its references resolve. *)
Definition tidy (rank : string → nat) (f : string) : Prop :=
  ∀ g, rtc includes f g → ∃ data s, readFile g = inr data ∧ own data = Returns s ∧
    ∀ m, m ∈ findAll data → ∃ t, resolveInclude (Dir g) m.2 = inr t ∧ (rank t < rank g)%nat.

Lemma walk_succeeds inline rank f data stack ms cursor s buf inc :
  tidy rank f → readFile f = inr data → (∀ m, m ∈ ms → m ∈ findAll data) →
  (∀ g, g ∈ stack → (rank f ≤ rank g)%nat) →
  (∀ t buf inc, includes f t → (rank t < rank f)%nat → ∃ r, inline t buf inc = Returns (inr r)) →
  own_from data ms cursor = Returns s →
  ∃ r, walk inline data f (Dir f) stack ms cursor buf inc = Returns (inr r).
Proof.
  intros Ht Hf Hms Hst Hin. revert cursor s buf inc.
  induction ms as [|[[start stop] ref] ms IH]; intros cursor s buf inc Hs; cbn [own_from walk] in *.
  { rewrite Hs. by eexists. }
  destruct (slice data cursor start) as [text|]; [|done].
  destruct (own_from data ms (past_line data stop)) as [rest|] eqn:Erest; [|done].
  destruct (Ht f) as (data' & s' & Hf' & _ & Hm); [done|]. rewrite Hf in Hf'. injection Hf' as <-.
  assert (Hmem : (start, stop, ref) ∈ findAll data) by (apply Hms; by left).
  destruct (Hm _ Hmem) as (t & Et & Hrank). cbn [snd] in Et. rewrite Et.
  assert (Hms' : ∀ m, m ∈ ms → m ∈ findAll data) by (intros; apply Hms; by right).
  rewrite bool_decide_eq_false_2; [|intros Hin'; apply Hst in Hin'; lia].
  case_bool_decide; [by eapply IH|].
  destruct (Hin t (buf +:+ text) ({[t]} ∪ inc)) as [[b1 i1] ->]; [|done|by eapply IH].
  by exists data, (start, stop, ref).
Qed.

Lemma expand_succeeds rank budget f buf inc stack :
  tidy rank f → (rank f < budget)%nat → (∀ g, g ∈ stack → (rank f < rank g)%nat) →
  ∃ r, expand readFile budget f buf inc stack = Returns (inr r).
Proof.
  revert f buf inc stack. induction budget as [|budget IH]; intros f buf inc stack Ht Hb Hst; [lia|].
  destruct (Ht f) as (data & s & Hf & Hs & _); [done|]. cbn [expand].
  rewrite bool_decide_eq_false_2; [|intros Hin; apply Hst in Hin; lia]. rewrite Hf.
  eapply walk_succeeds; [done.. | | | exact Hs].
  - intros g [->%elem_of_singleton|Hg%Hst]%elem_of_union; lia.
  - intros t b i Hinc Hrank. apply IH; [|lia|].
    + intros g Hg. apply Ht. by eapply rtc_l.
    + intros g [->%elem_of_singleton|Hg%Hst]%elem_of_union; lia.
Qed.
End expansion.

(** ** Properties of the expansion *)

Definition entryPath (name : string) : string := Join scriptsRoot (name +:+ ".lua").

(** C31. Every file an entry point needs is inlined, exactly once. The files the
    expansion is made of are those reachable from the entry point through
    include directives, without repetition, and the script is exactly their own
    texts woven together, each in its order: nothing is left out, doubled or
    added. *)
Theorem preprocess_inlines_once readFile name src :
  preprocess readFile name = Returns (inr src) →
  ∃ files, NoDup files ∧ (∀ f, f ∈ files ↔ rtc (includes readFile) (entryPath name) f) ∧
    weaves (own_text readFile <$> files) src.
Proof.
  unfold preprocess. fold (entryPath name). intros E.
  destruct (expand _ _ _ _ _ _) as [[|[buf inc]]|] eqn:Ee; try done. injection E as ->.
  apply expand_expands in Ee as [Hc (new & Hnd & Hdis & -> & (out & -> & Hl) & Hg)].
  rewrite union_empty_r_L in *. exists (entryPath name :: new).
  split; [constructor; [|done]; intros Hin; apply Hdis in Hin; set_solver|]. split; [|done].
  assert (Hall : ∀ g, g ∈ entryPath name :: new → complete readFile g (list_to_set new)).
  { intros g [->|Hin]%elem_of_cons; [done | by apply Hg]. }
  intros f. split.
  - intros [->|Hin]%elem_of_cons; [done | by apply Hg].
  - revert f. apply rtc_ind_r; [by left|]. intros g h _ (data & m & Hd & Hm & Ht) IH.
    destruct (Hall g IH) as (data' & _ & Hd' & _ & Hts). rewrite Hd in Hd'. injection Hd' as <-.
    destruct (Hts m Hm) as (t & Et & Hin). rewrite Ht in Et. injection Et as <-. right. set_solver.
Qed.

(** Expansion always succeeds on a tree without cycles that is at most
    thirty-two includes deep, readable, and free of references that do not
    resolve. *)
Theorem preprocess_succeeds readFile rank name :
  tidy readFile rank (entryPath name) → (rank (entryPath name) ≤ maxIncludeDepth)%nat →
  ∃ src, preprocess readFile name = Returns (inr src).
Proof.
  intros Ht Hr. unfold preprocess. fold (entryPath name).
  destruct (expand_succeeds readFile rank (S maxIncludeDepth) (entryPath name) "" ∅ ∅ Ht) as [[b i] ->];
    [lia | set_solver | by eexists].
Qed.

(** A script with a blank line between two directives. *)
Definition blankScript : string :=
  include_line "includes/a" +:+ nl +:+ nl +:+ include_line "includes/b" +:+ nl +:+ "return 1".

(** A blank line between two include directives makes the loader panic: the
    first match extends over the line break of its own line up to the blank
    line's, the second one starts at that line break, and the cursor has moved
    past it. *)
Theorem blank_line_between_includes_panics readFile :
  readFile "scripts/main.lua" = inr blankScript → readFile "scripts/includes/a.lua" = inr "" →
  preprocess readFile "main" = Panics.
Proof.
  intros Hm Ha. unfold preprocess. change (Join scriptsRoot ("main" +:+ ".lua")) with "scripts/main.lua".
  cbn [expand]. rewrite bool_decide_eq_false_2 by set_solver. rewrite Hm.
  change (findAll blankScript) with [(0, 26, "includes/a"); (26, 52, "includes/b")]%nat.
  change (Dir "scripts/main.lua") with "scripts". cbn [walk].
  change (slice blankScript 0 0) with (Returns "" : may_panic string).
  change (resolveInclude "scripts" "includes/a") with (inr "scripts/includes/a.lua" : res string).
  cbv iota zeta beta. rewrite !bool_decide_eq_false_2 by set_solver.
  cbn [expand maxIncludeDepth]. rewrite bool_decide_eq_false_2 by set_solver. rewrite Ha.
  change (findAll "") with (@nil (nat * nat * string)). cbn [walk].
  change (past_line blankScript 26) with 27%nat.
  change (slice blankScript 27 26) with (Panics : may_panic string). done.
Qed.

Lemma preprocess_inlines_once_witness :
  ∃ files, NoDup files ∧ (∀ f, f ∈ files ↔ rtc (includes sampleFS) "scripts/main.lua" f) ∧
    weaves (own_text sampleFS <$> files) ("b" +:+ nl +:+ "a" +:+ nl +:+ "main").
Proof. apply (preprocess_inlines_once sampleFS "main"). by vm_compute. Defined.

Lemma tidy_list readFile rank l f :
  f ∈ l →
  Forall (λ g, ∃ data s, readFile g = inr data ∧ own data = Returns s ∧
    Forall (λ m, ∃ t, resolveInclude (Dir g) m.2 = inr t ∧ (rank t < rank g)%nat ∧ t ∈ l) (findAll data)) l →
  tidy readFile rank f.
Proof.
  intros Hf Hl. rewrite Forall_forall in Hl. intros g Hg.
  assert (g ∈ l) as Hgl.
  { revert g Hg. apply rtc_ind_r; [done|]. intros g h _ (data & m & Hd & Hm & Ht) Hgl.
    destruct (Hl g Hgl) as (data' & s & Hd' & _ & Hms). rewrite Hd in Hd'. injection Hd' as <-.
    rewrite Forall_forall in Hms. destruct (Hms m Hm) as (t & Et & _ & Hin). congruence. }
  destruct (Hl g Hgl) as (data & s & Hd & Ho & Hms). exists data, s. split_and!; [done..|].
  rewrite Forall_forall in Hms. intros m (t & ? & ? & _)%Hms. eauto.
Qed.

Definition sampleRank (f : string) : nat :=
  if String.eqb f "scripts/main.lua" then 2 else if String.eqb f "scripts/includes/a.lua" then 1 else 0.

Lemma preprocess_succeeds_witness : ∃ src, preprocess sampleFS "main" = Returns (inr src).
Proof.
  apply (preprocess_succeeds sampleFS sampleRank "main"); [|cbn; unfold maxIncludeDepth; lia].
  apply (tidy_list _ _ ["scripts/main.lua"; "scripts/includes/a.lua"; "scripts/includes/b.lua"]); [by left|].
  repeat (apply Forall_cons; split); [..|done].
  all: eexists _, _; split; [reflexivity|]; split; [by vm_compute|].
  all: match goal with |- Forall _ ?l => let l' := eval vm_compute in l in change l with l' end.
  all: repeat first [apply Forall_nil_2 | apply Forall_cons_2].
  all: eexists; split; [by vm_compute|]; split; [vm_compute; lia | apply (bool_decide_unpack _); by vm_compute].
Defined.

Definition blankFS (p : string) : res string :=
  if String.eqb p "scripts/main.lua" then inr blankScript else inr "".

Lemma blank_line_between_includes_panics_witness : preprocess blankFS "main" = Panics.
Proof. apply (blank_line_between_includes_panics blankFS); reflexivity. Defined.
