(* ===== verification/Scripter.v ===== *)
(** * Running scripts by hash (internal/lua/loader.go)

    [Scripter] keeps the source and the hash of every vendored script, runs a
    script with EVALSHA and loads it again, once, when Redis has lost it. The
    rest of the development takes a script call as one request; this file is
    what stands behind it. Loads of one script by several goroutines are merged
    by a single-flight group, which one goroutine does not notice; Flight has the
    callers all at once. *)

From S2P Require Import Prelude GoLib Backoff Effects Cron Loader.

Record loadedScript := mkLoaded { source : string; sha : string }.

(** The map of loaded scripts. *)
Definition scripts : Type := list (ScriptName * loadedScript).

Fixpoint script_get (s : scripts) (n : ScriptName) : option loadedScript :=
  match s with
  | [] => None
  | (n', ls) :: s => if bool_decide (n' = n) then Some ls else script_get s n
  end.

(** [errors.As] with a [redis.Error] target; [redis.Nil] is one. *)
Fixpoint AsRedis (e : err) : option string :=
  match e with
  | ERedis m => Some m
  | ESent RedisNil => Some (sentinel_text RedisNil)
  | EWrap _ i => AsRedis i
  | EJoin _ a b => match AsRedis a with Some m => Some m | None => AsRedis b end
  | _ => None
  end.

Definition isNoScript (e : err) : bool :=
  match AsRedis e with
  | Some m => HasPrefix m "NOSCRIPT"
  | None => Contains (Error e) "NOSCRIPT"
  end.

Section scripter.
(** [Preprocess] on the embedded file system; the vendored scripts do not make
    it panic. *)
Variable Preprocess : string → res string.

Definition get (s : scripts) (name : ScriptName) : res loadedScript :=
  match script_get s name with
  | Some ls => inr ls
  | None => inl (EText ("script " +:+ Quote (script_name name) +:+ " not loaded"))
  end.

Definition load (s : scripts) (name : ScriptName) : M (res loadedScript * scripts) :=
  match Preprocess (script_name name) with
  | inl e => mret (inl e, s)
  | inr src =>
      r ← ask (RScriptLoad CtxCaller src);
      mret match r with
      | inl e => (inl (Errorw ("script load " +:+ script_name name) e), s)
      | inr h => let ls := mkLoaded src h in (inr ls, (name, ls) :: s)
      end
  end.

Definition Run (s : scripts) (name : ScriptName) (ks : list string) (args : list any)
    : M (res any * scripts) :=
  match get s name with
  | inl e => mret (inl e, s)
  | inr ls =>
      r ← ask (REvalSha CtxCaller (sha ls) ks args);
      match r with
      | inr v => mret (inr v, s)
      | inl e =>
          if negb (isNoScript e) then mret (inl e, s) else
          _ ← ask (RLog Debug "mkq: lua script reload after NOSCRIPT" [("script", script_name name)]);
          l ← load s name;
          match l with
          | (inl e, s) => mret (inl (Errorw ("reload " +:+ script_name name +:+ " after NOSCRIPT") e), s)
          | (inr ls, s) =>
              r ← ask (REvalSha CtxCaller (sha ls) ks args);
              mret (r, s)
          end
      end
  end.

Definition allScripts : list ScriptName :=
  [AddStandardJob; AddDelayedJob; AddPrioritizedJob; MoveToActive; MoveToFinished; ExtendLock;
   ReleaseLock; RetryJob; MoveToDelayed; MoveStalledJobsToWait; AddJobScheduler; UpdateJobScheduler;
   UpdateProgress; UpdateData; AddLog; GetCounts; GetRanges; GetMetrics; RemoveJob; Drain; Promote;
   ReprocessJob; Pause].

Fixpoint preload (s : scripts) (ns : list ScriptName) : M (res scripts) :=
  match ns with
  | [] => mret (inr s)
  | n :: ns =>
      r ← load s n;
      match r with
      | (inl e, _) => mret (inl (Errorw ("preload " +:+ script_name n) e))
      | (inr _, s) => preload s ns
      end
  end.

Definition NewScripter : M (res scripts) := preload [] allScripts.

(** ** Redis with a script cache *)

(** [eval] runs a script's source on the data; [hash] is SHA-1; [flushes] says
    before which of the coming commands the cache is flushed. *)
Variable D : Type.
Variable eval : string → list string → list any → D → res any * D.
Variable hash : string → string.

Record rstate := mkRState { cache : list string; data : D; flushes : list bool }.

Definition noScript : err := ERedis "NOSCRIPT No matching script. Please use EVAL.".

(** The next flush decision, taken before a command. *)
Definition tick (w : rstate) : rstate :=
  match flushes w with
  | true :: fs => mkRState [] (data w) fs
  | false :: fs => mkRState (cache w) (data w) fs
  | [] => w
  end.

Definition redis : server rstate := λ w r,
  match r as r0 return resp r0 * rstate with
  | REvalSha _ h ks args =>
      let w := tick w in
      match find (λ src, String.eqb (hash src) h) (cache w) with
      | Some src => let '(v, d) := eval src ks args (data w) in (v, mkRState (cache w) d (flushes w))
      | None => (inl noScript, w)
      end
  | RScriptLoad _ src => let w := tick w in (inr (hash src), mkRState (src :: cache w) (data w) (flushes w))
  | r => ((quiet tt r).1, w)
  end.

(** Scripts never answer a NOSCRIPT error of their own, and hashes tell the
    vendored sources apart. *)
Hypothesis eval_answers : ∀ src ks args d e, (eval src ks args d).1 = inl e → isNoScript e = false.
Hypothesis hash_inj : ∀ a b, hash a = hash b → a = b.

(** Every entry holds its script's source and hash. *)
Definition coherent (s : scripts) : Prop :=
  ∀ n ls, script_get s n = Some ls → Preprocess (script_name n) = inr (source ls) ∧ sha ls = hash (source ls).

Lemma find_hash l src s' :
  find (λ x, String.eqb (hash x) (hash src)) l = Some s' → s' = src.
Proof using hash_inj. intros [_ E%String.eqb_eq]%find_some. by apply hash_inj. Qed.

Lemma redis_evalsha w src ks args :
  redis w (REvalSha CtxCaller (hash src) ks args) =
    if existsb (λ x, String.eqb (hash x) (hash src)) (cache (tick w)) then
      let '(v, d) := eval src ks args (data w) in (v, mkRState (cache (tick w)) d (flushes (tick w)))
    else (inl noScript, tick w).
Proof using hash_inj.
  assert (Hd : data (tick w) = data w) by (unfold tick; by destruct (flushes w) as [|[] ?]).
  cbn [redis]. destruct (find _ (cache (tick w))) as [s'|] eqn:E.
  - pose proof (find_hash _ _ _ E) as ->. apply find_some in E as [Hin Hh].
    rewrite (proj2 (existsb_exists _ _)) by eauto. by rewrite Hd.
  - destruct (existsb _ _) eqn:Ex; [|done]. apply existsb_exists in Ex as (x & Hin & Hx).
    by rewrite (find_none _ _ E x Hin) in Hx.
Qed.

(** The outcome of one call: the script ran once, or, after a flush between the
    reload and the retry, not at all. *)
Definition ran_once (src : string) (ks : list string) (args : list any) (w w' : rstate) (r : res any) : Prop :=
  (r, data w') = eval src ks args (data w).

Lemma coherent_cons s n ls :
  Preprocess (script_name n) = inr (source ls) → sha ls = hash (source ls) → coherent s →
  coherent ((n, ls) :: s).
Proof.
  intros H1 H2 Hc n' ls'. cbn. case_bool_decide as E; [|apply Hc]. subst n'. by intros [= <-].
Qed.

Lemma tick_spec w :
  data (tick w) = data w ∧ flushes (tick w) = tail (flushes w) ∧
  cache (tick w) = if bool_decide (head (flushes w) = Some true) then [] else cache w.
Proof. unfold tick. by destruct w as [c d [|[] fs]]. Qed.

(** The retry, on a cache that has just been given the script. *)
Lemma retry_outcome src ks args c d fs :
  let w := mkRState (src :: c) d fs in
  let '(r, w') := redis w (REvalSha CtxCaller (hash src) ks args) in
  (r, data w') = eval src ks args d ∨ r = inl noScript ∧ data w' = d ∧ head fs = Some true.
Proof using hash_inj.
  cbv zeta. rewrite redis_evalsha. destruct (tick_spec (mkRState (src :: c) d fs)) as (Hd & _ & Hc).
  rewrite Hc. cbn [cache flushes data] in *. case_bool_decide as E.
  - cbn [existsb]. right. by rewrite Hd.
  - cbn [existsb]. rewrite String.eqb_refl. cbn [orb]. destruct (eval src ks args d). by left.
Qed.

Lemma run_outcome s name ks args w ls :
  coherent s → script_get s name = Some ls →
  let '(r, s', w') := (run redis (Run s name ks args) w).1 in
  coherent s' ∧
  (ran_once (source ls) ks args w w' r ∨
   r = inl noScript ∧ data w' = data w ∧ flushes w !! 2%nat = Some true).
Proof using eval_answers hash_inj.
  intros Hc Hg. destruct (Hc _ _ Hg) as [Hp Hs]. unfold Run, get. rewrite Hg, Hs.
  rewrite run_bind. cbn [run ask]. rewrite redis_evalsha. unfold ran_once.
  destruct (existsb _ (cache (tick w))) eqn:Ex.
  { destruct (eval (source ls) ks args (data w)) as [[e|v] d] eqn:Ee; cbn; [|auto].
    rewrite (eval_answers (source ls) ks args (data w)) by (by rewrite Ee). cbn. auto. }
  change (isNoScript noScript) with true. cbn [negb]. unfold load. rewrite Hp.
  destruct (tick_spec w) as (Hd1 & Hf1 & _), (tick_spec (tick w)) as (Hd2 & Hf2 & _).
  pose proof (retry_outcome (source ls) ks args (cache (tick (tick w))) (data (tick (tick w)))
    (flushes (tick (tick w)))) as Hr. cbv zeta in Hr. rewrite Hd2, Hd1 in Hr.
  cbn [run mbind M_bind ask redis mret M_ret sha]. rewrite ?Hd2, ?Hd1.
  match type of Hr with context [redis ?a ?b] => destruct (redis a b) as [r w'] eqn:Er end.
  cbn [redis] in Er. rewrite ?Hd2, ?Hd1 in Er. cbn [fst snd run] in *.
  rewrite Er. cbn [fst]. split.
  - by apply coherent_cons.
  - rewrite Hf2, Hf1 in Hr. destruct Hr as [Hr|(-> & -> & Hh)]; [left; exact Hr|]. right. split_and!; [done..|].
    by destruct (flushes w) as [|? [|? [|? ?]]].
Qed.

Lemma preload_ready s ns w :
  (∀ n, ∃ src, Preprocess (script_name n) = inr src) → coherent s →
  ∃ s', result redis (preload s ns) w = inr s' ∧ coherent s' ∧
    ∀ n, n ∈ ns ∨ is_Some (script_get s n) → is_Some (script_get s' n).
Proof.
  intros Hp. revert s w. induction ns as [|n ns IH]; intros s w Hc.
  { exists s. split_and!; [done..|]. intros n [[]%not_elem_of_nil|?]; done. }
  destruct (Hp n) as [src Hsrc]. unfold result. cbn [preload]. rewrite run_bind. unfold load. rewrite Hsrc.
  cbn [run mbind M_bind ask redis mret M_ret].
  match goal with |- context [run redis (preload ?s1 ns) ?w1] =>
    destruct (IH s1 w1) as (s' & E & Hc' & Hall) end.
  { by apply coherent_cons. }
  unfold result in E. destruct (run redis (preload _ ns) _) as [[r w2] l2]. cbn in E |- *. subst r.
  exists s'. split_and!; [done..|]. intros n' Hn. apply Hall. cbn.
  case_bool_decide as En; [right; by eexists|]. destruct Hn as [[->|?]%elem_of_cons|?]; [done | by left | by right].
Qed.

Lemma every_script n : n ∈ allScripts.
Proof. destruct n; apply (bool_decide_unpack _); by vm_compute. Qed.
End scripter.

(** ** Properties *)

(** A new scripter can run everything: when the sources expand, it ends with a
    coherent entry for every vendored script, so that no later call can find its
    script missing from the table. *)
Theorem new_scripter_ready Preprocess D eval hash (w : rstate D) :
  (∀ n, ∃ src, Preprocess (script_name n) = inr src) →
  ∃ s, result (redis D eval hash) (NewScripter Preprocess) w = inr s ∧ coherent Preprocess hash s ∧
    ∀ n, ∃ ls, get s n = inr ls.
Proof.
  intros Hp. destruct (preload_ready Preprocess D eval hash [] allScripts w Hp) as (s & E & Hc & Hall); [done|].
  exists s. split_and!; [done..|]. intros n. unfold get.
  destruct (Hall n) as [ls ->]; [left; apply every_script | by eexists].
Qed.

(** A script call survives the loss of the script cache. Whatever is cached and
    whenever Redis is flushed, a call of a loaded script either has run it
    exactly once and answers what it answered, or, when a second flush fell
    between the reload and the retry, has not run it at all and answers the
    NOSCRIPT error; a script is never run twice, and the table stays right. *)
Theorem run_survives_flush Preprocess D eval hash s name ks args (w : rstate D) ls :
  (∀ src ks args d e, (eval src ks args d).1 = inl e → isNoScript e = false) →
  (∀ a b, hash a = hash b → a = b) →
  coherent Preprocess hash s → script_get s name = Some ls →
  let '(r, s', w') := (run (redis D eval hash) (Run Preprocess s name ks args) w).1 in
  coherent Preprocess hash s' ∧
  (ran_once D eval (source ls) ks args w w' r ∨
   r = inl noScript ∧ data D w' = data D w ∧ flushes D w !! 2%nat = Some true).
Proof. intros He Hh. by apply run_outcome. Qed.

(** A counter script, a cache that has lost it, and one more flush to come. *)
Definition countScript (src : string) (ks : list string) (args : list any) (d : Z) : res any * Z :=
  (inr (AInt64 (d + 1)), d + 1).

Definition ownName (n : string) : res string := inr n.

Definition loadedPause : scripts := [(Pause, mkLoaded "pause-7" "pause-7")].

Lemma new_scripter_ready_witness :
  ∃ s, result (redis Z countScript id) (NewScripter ownName) (mkRState Z [] 0 []) = inr s.
Proof.
  destruct (new_scripter_ready ownName Z countScript id (mkRState Z [] 0 [])) as (s & E & _).
  - intros n. by eexists.
  - by exists s.
Defined.

Lemma run_survives_flush_witness :
  let '(r, s', w') := (run (redis Z countScript id) (Run ownName loadedPause Pause [] [])
    (mkRState Z ["pause-7"] 41 [true; false; false])).1 in
  coherent ownName id s' ∧
  (ran_once Z countScript "pause-7" [] [] (mkRState Z ["pause-7"] 41 [true; false; false]) w' r ∨
   r = inl noScript ∧ data Z w' = 41 ∧ [true; false; false] !! 2%nat = Some true).
Proof.
  apply (run_survives_flush ownName Z countScript id loadedPause Pause [] []
    (mkRState Z ["pause-7"] 41 [true; false; false]) (mkLoaded "pause-7" "pause-7")); try done.
  intros n ls. cbn. case_bool_decide as E; [|done]. subst n. by intros [= <-].
Defined.
