(* ===== verification/Events.v ===== *)
(** * The event stream (events.go)

    Decoding of stream entries into typed events, and the subscription loop,
    which reads the stream from its last position, hands every entry to the
    user's handler and stops on cancellation, on [Close] or on the handler's
    error. *)

From S2P Require Import Prelude GoLib Keys Backoff Effects Json Jobs Config.

(** A subscriber: whether [closeOnce] has run and whether [closeCh] is closed. *)
Record QueueEvents := mkQueueEvents { qe_keys : keys.Builder; closeOnce : bool; closeCh : bool }.

Definition NewQueueEvents (q : Queue) : QueueEvents := mkQueueEvents (q_keys q) false false.

(** Closing a closed channel panics; the [sync.Once] keeps that from happening. *)
Definition Close (qe : QueueEvents) : may_panic QueueEvents :=
  if closeOnce qe then Returns qe
  else if closeCh qe then Panics
  else Returns (mkQueueEvents (qe_keys qe) true true).

Fixpoint close_times (n : nat) (qe : QueueEvents) : may_panic QueueEvents :=
  match n with
  | O => Returns qe
  | S n => match Close qe with Panics => Panics | Returns qe => close_times n qe end
  end.

Lemma close_any_times q n :
  close_times (S n) (NewQueueEvents q) = Returns (mkQueueEvents (q_keys q) true true).
Proof. induction n as [|n IH]; done. Qed.

Definition rawJSON (s : string) : option string := if String.eqb s "" then None else Some s.

Section events.
(** [fmt.Sprintf] with [%v], for values that are neither strings nor bytes. *)
Variable Sprintv : any → string.

Definition fieldText (v : any) : string :=
  match v with AStr x | ABytes x => x | v => Sprintv v end.

Definition decodeStreamMessage (msg : XMessage) : Event :=
  let fields : gmap string string :=
    foldl (λ m kv, <[kv.1 := fieldText kv.2]> m) ∅ (x_Values msg) in
  let f := hget fields in
  let id := x_ID msg in
  let ev := f "event" in
  if String.eqb ev "added" then AddedEvent id (f "jobId") (f "name")
  else if String.eqb ev "waiting" then WaitingEvent id (f "jobId") (f "prev")
  else if String.eqb ev "active" then ActiveEvent id (f "jobId") (f "prev")
  else if String.eqb ev "completed" then
    CompletedEvent id (f "jobId") (rawJSON (f "returnvalue")) (f "prev")
  else if String.eqb ev "failed" then FailedEvent id (f "jobId") (f "failedReason") (f "prev")
  else if String.eqb ev "delayed" then DelayedEvent id (f "jobId") (ParseIntV (f "delay")).1
  else if String.eqb ev "stalled" then StalledEvent id (f "jobId")
  else if String.eqb ev "drained" then DrainedEvent id
  else if String.eqb ev "retries-exhausted" then
    RetriesExhaustedEvent id (f "jobId") (ParseIntV (f "attemptsMade")).1
  else if String.eqb ev "removed" then RemovedEvent id (f "jobId") (f "prev")
  else if String.eqb ev "progress" then ProgressEvent id (f "jobId") (rawJSON (f "data"))
  else RawEvent id ev fields.

(** The [ID] method. *)
Definition event_ID (e : Event) : string :=
  match e with
  | AddedEvent id _ _ | WaitingEvent id _ _ | ActiveEvent id _ _ | CompletedEvent id _ _ _
  | FailedEvent id _ _ _ | DelayedEvent id _ _ | StalledEvent id _ | DrainedEvent id
  | RetriesExhaustedEvent id _ _ | RemovedEvent id _ _ | ProgressEvent id _ _
  | RawEvent id _ _ => id
  end.

Definition streamBlockTimeout : Z := 200 * Millisecond.

(** The messages of a reply, one after the other: the last position, or the
    handler's error. *)
Fixpoint deliver (msgs : list XMessage) (lastID : string) : M (string + option err) :=
  match msgs with
  | [] => mret (inl lastID)
  | msg :: msgs =>
      r ← ask (ROnEvent (decodeStreamMessage msg));
      match r with
      | Some e => mret (inr (Some e))
      | None => deliver msgs (x_ID msg)
      end
  end.

(** One round of the loop. When both channels of the select are ready Go takes
    either; the environment chooses by what it answers here. *)
Definition subscribe_turn (streamKey lastID : string) : M (string + option err) :=
  c ← ask (RCtxErr CtxCaller);
  match c with
  | Some e => mret (inr (Some e))
  | None =>
      closed ← ask RClosed;
      if (closed : bool) then mret (inr None)
      else
        r ← ask (RXRead CtxCaller streamKey lastID streamBlockTimeout);
        match r with
        | inl e =>
            if Is e RedisNil then mret (inl lastID)
            else if Is e ContextCanceled || Is e ContextDeadlineExceeded then
              c ← ask (RCtxErr CtxCaller); mret (inr c)
            else mret (inr (Some (Errorw "mkq: XREAD events" e)))
        | inr streams => deliver (mjoin streams) lastID
        end
  end.

(** [Subscribe], at most [fuel] rounds; [h] says whether the handler is
    non-nil. *)
Definition Subscribe (fuel : nat) (b : keys.Builder) (h : bool) : M (string + option err) :=
  if negb h then
    mret (inr (Some (EText "mkq: QueueEvents.Subscribe requires a non-nil handler")))
  else loop fuel (subscribe_turn (keys.Events b)) "$".

(** ** Reading the log of a subscription *)

Definition received_at (e : event) : list XMessage :=
  match ev_req e as r return resp r → list XMessage with
  | RXRead _ _ _ _ => λ x, match x with inr streams => mjoin streams | inl _ => [] end
  | _ => λ _, []
  end (ev_ans e).

Definition received (l : list event) : list XMessage := mjoin (received_at <$> l).

Definition delivered (l : list event) : list Event :=
  omap (λ e, match ev_req e with ROnEvent ev => Some ev | _ => None end) l.

Lemma received_app l1 l2 : received (l1 ++ l2) = received l1 ++ received l2.
Proof. unfold received. by rewrite fmap_app, join_app. Qed.
Lemma delivered_app l1 l2 : delivered (l1 ++ l2) = delivered l1 ++ delivered l2.
Proof. apply omap_app. Qed.
Hint Rewrite received_app delivered_app : logs.

Lemma received_read c key id d streams :
  received [Ev (RXRead c key id d) (inr streams)] = mjoin streams.
Proof. apply app_nil_r. Qed.

(** The position after some messages. *)
Definition position (lastID : string) (ms : list XMessage) : string :=
  match last ms with Some m => x_ID m | None => lastID end.

Lemma position_app id a b : position id (a ++ b) = position (position id a) b.
Proof. unfold position. rewrite last_app. by destruct (last b). Qed.

(** Every read of the log starts where the messages before it ended. *)
Fixpoint in_step (id : string) (l : list event) : Prop :=
  match l with
  | [] => True
  | e :: l =>
      match ev_req e with RXRead _ _ from _ => from = id | _ => True end ∧
      in_step (position id (received_at e)) l
  end.

Lemma in_step_app id l1 l2 :
  in_step id (l1 ++ l2) ↔ in_step id l1 ∧ in_step (position id (received l1)) l2.
Proof.
  revert id. induction l1 as [|e l1 IH]; intros id; cbn [app in_step]; [cbn; tauto|].
  rewrite IH. change (received (e :: l1)) with (received_at e ++ received l1).
  rewrite position_app. tauto.
Qed.

(** Why a subscription ended, as its last event shows: the context was done
    (before a read or when the read was interrupted), the subscription was
    closed, the handler returned an error, or the read failed. *)
Definition stopped (e : event) (o : option err) : Prop :=
  match ev_req e as r return resp r → Prop with
  | RCtxErr CtxCaller => λ x, o = x
  | RClosed => λ x, x = true ∧ o = None
  | ROnEvent _ => λ x, x ≠ None ∧ o = x
  | RXRead _ _ _ _ => λ x, match x with
      | inl e => Is e RedisNil = false ∧ o = Some (Errorw "mkq: XREAD events" e)
      | inr _ => False
      end
  | _ => λ _, False
  end (ev_ans e).

(** A subscription from position [id]: in step; while it runs, everything
    received was delivered, in order; when it ended, what was delivered is a
    prefix of what was received, a strict one only if the handler refused. *)
Definition faithful (id : string) (r : string + option err) (l : list event) : Prop :=
  in_step id l ∧
  match r with
  | inl id' => id' = position id (received l) ∧ delivered l = decodeStreamMessage <$> received l
  | inr o => ∃ n e, delivered l = decodeStreamMessage <$> take n (received l) ∧
      last l = Some e ∧ stopped e o ∧
      (length (received l) ≤ n ∨ ∃ ev, ev_req e = ROnEvent ev)%nat
  end.

Lemma faithful_app id id' l1 l2 r :
  faithful id (inl id') l1 → faithful id' r l2 → faithful id r (l1 ++ l2).
Proof.
  intros (Hs1 & -> & Hd1) (Hs2 & Hr). unfold faithful.
  rewrite in_step_app, received_app, delivered_app, Hd1. split; [done|].
  destruct r as [id''|o].
  - destruct Hr as [-> ->]. by rewrite position_app, fmap_app.
  - destruct Hr as (n & e & -> & Hl & Hst & Hn).
    exists (length (received l1) + n)%nat, e. rewrite take_app_add, fmap_app, last_app, Hl.
    repeat split; [done..|]. rewrite length_app. destruct Hn; [left; lia | by right].
Qed.

Lemma deliver_spec msgs id :
  wp (deliver msgs id) (λ r l, received l = [] ∧ (∀ i, in_step i l) ∧
    match r with
    | inl id' => id' = position id msgs ∧ delivered l = decodeStreamMessage <$> msgs
    | inr o => ∃ n ev e, delivered l = decodeStreamMessage <$> take n msgs ∧
        last l = Some (Ev (ROnEvent ev) (Some e)) ∧ o = Some e
    end).
Proof.
  revert id. induction msgs as [|m msgs IH]; intros id; cbn [deliver]; [done|].
  wp_step. wp_step. destruct x as [e|].
  - wp_step. split; [done|]. split; [done|]. by exists 1%nat, (decodeStreamMessage m), e.
  - eapply wp_mono; [|apply IH]. cbn beta. intros r l (Hr & Hs & H).
    split; [exact Hr|]. split; [intros i; split; [done | apply Hs]|].
    destruct r as [id'|o].
    + destruct H as [-> Hd]. split; [by destruct msgs using rev_ind; [|rewrite app_comm_cons;
        unfold position; rewrite !last_snoc]|].
      change (decodeStreamMessage m :: delivered l = decodeStreamMessage m :: (decodeStreamMessage <$> msgs)).
      by rewrite Hd.
    + destruct H as (n & ev & e & Hd & Hl & ->). exists (S n), ev, e.
      split; [|split; [by destruct l|done]].
      change (decodeStreamMessage m :: delivered l = decodeStreamMessage m :: (decodeStreamMessage <$> take n msgs)).
      by rewrite Hd.
Qed.

Lemma turn_faithful key id : wp (subscribe_turn key id) (faithful id).
Proof.
  unfold subscribe_turn. wp_step. wp_step. destruct x as [e|].
  { wp_step. split; [done|]. exists 0%nat, (Ev (RCtxErr CtxCaller) (Some e)). by repeat split; try left. }
  wp_step. wp_step. destruct x as [|].
  { wp_step. split; [done|]. exists 0%nat, (Ev RClosed true). by repeat split; try left. }
  wp_step. wp_step. destruct x as [e|streams].
  - destruct (Is e RedisNil) eqn:EN; [by wp_step|].
    destruct (Is e ContextCanceled || Is e ContextDeadlineExceeded).
    + wp_step. wp_step. wp_step. split; [done|]. exists 0%nat, (Ev (RCtxErr CtxCaller) x). by repeat split; try left.
    + wp_step. split; [done|]. exists 0%nat. eexists. by repeat split; try left.
  - eapply wp_mono; [|apply deliver_spec]. cbn beta. intros r l (Hr & Hs & H).
    unfold faithful. rewrite !received_app, !delivered_app, Hr, app_nil_r.
    rewrite received_read.
    split; [by repeat split|]. destruct r as [id'|o]; [exact H|].
    destruct H as (n & ev & e & Hd & Hl & ->). exists n. eexists. split; [exact Hd|].
    rewrite !last_app, Hl. split; [done|]. split; [done|]. right. by eexists.
Qed.

Lemma loop_faithful fuel key id : wp (loop fuel (subscribe_turn key) id) (faithful id).
Proof.
  revert id. induction fuel as [|n IH]; intros id; cbn [loop]; [by wp_step|].
  apply wp_bind. eapply wp_mono; [|apply turn_faithful]. cbn beta. intros [id'|o] l Hl.
  - eapply wp_mono; [|apply IH]. cbn beta. intros r l'. by apply faithful_app.
  - wp_step. by rewrite app_nil_r.
Qed.

(** C33. Every subscription, against any Redis, any handler and any moment of
    cancellation: each read continues from the last entry handled, the handler
    gets the decoded entries of the replies in order, each exactly once, and the
    return value says why the loop ended. *)
Theorem subscribe_faithful {W} (sv : server W) fuel b h w :
  let r := result sv (Subscribe fuel b h) w in
  let l := log sv (Subscribe fuel b h) w in
  if h then faithful "$" r l
  else l = [] ∧ r = inr (Some (EText "mkq: QueueEvents.Subscribe requires a non-nil handler")).
Proof.
  cbv zeta. unfold Subscribe. destruct h; [|done]. cbn [negb].
  apply (wp_run sv _ (faithful "$")), loop_faithful.
Qed.

(** ** A growing stream

    A stream that only grows: entries arrive between two reads and while a read
    blocks. A read from an id answers at once what is behind that id; otherwise,
    and always from [$], it answers what arrives during the block, or nothing.
    Nobody cancels and the handler accepts everything. *)
Record stream := mkStream {
  s_entries : list XMessage;
  s_plan : list (list XMessage * list XMessage);   (** before, during each read *)
}.

Definition behind (id : string) (es : list XMessage) : list XMessage :=
  if String.eqb id "$" then []
  else match list_find (λ m, x_ID m = id) es with
       | Some (i, _) => drop (S i) es
       | None => es
       end.

Definition read (id : string) (s : stream) : list XMessage * stream :=
  let '(before, during, plan) :=
    match s_plan s with (b, d) :: p => (b, d, p) | [] => ([], [], []) end in
  let there := s_entries s ++ before in
  (match behind id there with [] => during | ms => ms end, mkStream (there ++ during) plan).

Definition streaming : server stream := λ s r,
  match r return resp r * stream with
  | RXRead _ _ id _ =>
      let '(ms, s) := read id s in
      (match ms with [] => inl (ESent RedisNil) | ms => inr [ms] end, s)
  | r => ((quiet tt r).1, s)
  end.

(** A position in a stream: an id one of its entries has, and [$] none. *)
Definition located (id : string) (s : stream) : Prop :=
  id ≠ "$" ∧ id ∈ x_ID <$> s_entries s.

(** Entry ids are unique and never [$], those to come included. *)
Definition arrivals (s : stream) : list XMessage :=
  s_entries s ++ mjoin ((λ p, p.1 ++ p.2) <$> s_plan s).
Definition well_numbered (s : stream) : Prop :=
  NoDup (x_ID <$> arrivals s) ∧ Forall (λ m, x_ID m ≠ "$") (arrivals s).

Lemma behind_split id a m b :
  id ≠ "$" → x_ID m = id → NoDup (x_ID <$> a ++ m :: b) → behind id (a ++ m :: b) = b.
Proof.
  intros Hid Hm Hnd. unfold behind.
  destruct (String.eqb_spec id "$") as [|_]; [done|].
  assert (HN : list_find (λ m, x_ID m = id) a = None).
  { apply list_find_None. rewrite Forall_forall. intros x Hx Hxid.
    rewrite fmap_app, fmap_cons in Hnd. apply NoDup_app in Hnd as (_ & Hd & _).
    apply (Hd id); [rewrite <-Hxid; by apply list_elem_of_fmap_2|]. rewrite Hm. left. }
  rewrite list_find_app_r by done. cbn. rewrite decide_True by done. cbn.
  by rewrite drop_app_ge, Nat.sub_succ_l, Nat.sub_diag by lia.
Qed.

Lemma located_split id s : located id s →
  ∃ a m b, s_entries s = a ++ m :: b ∧ x_ID m = id ∧ id ≠ "$".
Proof.
  intros [Hid Hin]. apply list_elem_of_fmap in Hin as (m & -> & Hm).
  apply list_elem_of_split in Hm as (a & b & ->). eauto 6.
Qed.

Lemma behind_app id s ext :
  located id s → NoDup (x_ID <$> s_entries s ++ ext) →
  behind id (s_entries s ++ ext) = behind id (s_entries s) ++ ext.
Proof.
  intros (a & m & b & -> & Hm & Hid)%located_split Hnd.
  rewrite <-app_assoc in Hnd |- *. cbn in Hnd |- *.
  rewrite !behind_split; try done.
  rewrite app_comm_cons, app_assoc, fmap_app in Hnd. by apply NoDup_app in Hnd as [? _].
Qed.

Lemma behind_last id s ms :
  located id s → NoDup (x_ID <$> s_entries s) → Forall (λ m, x_ID m ≠ "$") (s_entries s) →
  ms `prefix_of` behind id (s_entries s) →
  located (position id ms) s ∧
  behind id (s_entries s) = ms ++ behind (position id ms) (s_entries s).
Proof.
  intros Hl Hnd Hds [rest Hrest]. pose proof Hl as (a & m & b & E & Hm & Hid)%located_split.
  rewrite E in Hnd, Hds, Hrest. rewrite behind_split in Hrest by done. subst b.
  destruct ms as [|m' ms _] using rev_ind; [by split|].
  unfold position. rewrite last_snoc. cbn.
  rewrite Forall_app, Forall_cons, !Forall_app, Forall_singleton in Hds.
  split; [split; [tauto | rewrite E; set_solver]|].
  rewrite E. rewrite behind_split by done. f_equal.
  rewrite <-app_assoc, app_comm_cons, app_assoc in Hnd |- *. symmetry. apply behind_split; tauto.
Qed.

(** One read: it keeps the numbering, its answer is what comes next behind the
    position, and only what arrived during the block can be left behind the new
    position. *)
Lemma read_step id s ms s' b d plan :
  located id s → well_numbered s → s_plan s = (b, d) :: plan → read id s = (ms, s') →
  well_numbered s' ∧ s_plan s' = plan ∧ s_entries s' = s_entries s ++ b ++ d ∧
  located (position id ms) s' ∧
  behind id (s_entries s') = ms ++ behind (position id ms) (s_entries s') ∧
  behind (position id ms) (s_entries s') `suffix_of` d.
Proof.
  intros Hl [Hnd Hds] Hp Hr. unfold read in Hr. rewrite Hp in Hr. injection Hr as <- <-.
  unfold arrivals in Hnd, Hds. rewrite Hp in Hnd, Hds. cbn in Hnd, Hds |- *.
  rewrite !app_assoc in Hnd, Hds.
  assert (Hw : well_numbered (mkStream ((s_entries s ++ b) ++ d) plan)) by by split.
  split; [exact Hw|]. split; [done|]. split; [by rewrite app_assoc|].
  rewrite fmap_app in Hnd. apply NoDup_app in Hnd as [Hnd _]. apply Forall_app in Hds as [Hds _].
  set (s1 := mkStream (s_entries s ++ b) []). set (s2 := mkStream ((s_entries s ++ b) ++ d) plan).
  assert (Hl1 : located id s1) by (destruct Hl; split; [done | cbn; set_solver]).
  assert (Hl2 : located id s2) by (destruct Hl; split; [done | cbn; set_solver]).
  assert (HB : behind id (s_entries s2) = behind id (s_entries s ++ b) ++ d)
    by by apply (behind_app id s1).
  destruct (behind id (s_entries s ++ b)) as [|m ms] eqn:E.
  - destruct (behind_last id s2 d Hl2 Hnd Hds) as [Hp1 Hp2]; [by rewrite HB|].
    split; [done|]. split; [done|]. rewrite HB in Hp2. cbn in Hp2.
    rewrite <-(app_nil_r d) in Hp2 at 1. apply app_inv_head in Hp2. cbn in Hp2.
    rewrite <-Hp2. apply suffix_nil.
  - destruct (behind_last id s2 (m :: ms) Hl2 Hnd Hds) as [Hp1 Hp2]; [rewrite HB; by exists d|].
    split; [done|]. split; [done|]. rewrite HB in Hp2. apply app_inv_head in Hp2. by exists [].
Qed.

Lemma deliver_run ms id s :
  ∃ l, run streaming (deliver ms id) s = (inl (position id ms), s, l) ∧
       delivered l = decodeStreamMessage <$> ms.
Proof.
  revert id. induction ms as [|m ms IH]; intros id; [by exists []|].
  destruct (IH (x_ID m)) as (l & Hr & Hd). exists (Ev (ROnEvent (decodeStreamMessage m)) None :: l).
  cbn [deliver]. rewrite run_bind. cbn. rewrite Hr.
  split; [|change (decodeStreamMessage m :: delivered l = decodeStreamMessage m :: (decodeStreamMessage <$> ms)); by rewrite Hd].
  by destruct ms using rev_ind; [|rewrite app_comm_cons; unfold position; rewrite !last_snoc].
Qed.

Lemma turn_run key id s :
  ∃ l, run streaming (subscribe_turn key id) s =
         (inl (position id (read id s).1), (read id s).2, l) ∧
       delivered l = decodeStreamMessage <$> (read id s).1.
Proof.
  unfold subscribe_turn. rewrite run_bind. cbn. destruct (read id s) as [ms s1]. cbn.
  destruct ms as [|m ms]; [by eexists|].
  destruct (deliver_run (m :: ms) id s1) as (l & Hr & Hd). cbn [mjoin list_join].
  rewrite app_nil_r. rewrite Hr. by eexists.
Qed.

Lemma loop_stream key plan id s :
  located id s → well_numbered s → s_plan s = plan →
  ∃ id' s' l ds ext,
    run streaming (loop (length plan) (subscribe_turn key) id) s = (inl id', s', l) ∧
    delivered l = decodeStreamMessage <$> ds ∧
    s_entries s' = s_entries s ++ ext ∧ ext = mjoin ((λ p, p.1 ++ p.2) <$> plan) ∧
    NoDup (x_ID <$> s_entries s') ∧
    behind id (s_entries s') = ds ++ behind id' (s_entries s') ∧
    (∀ b d, last plan = Some (b, d) → behind id' (s_entries s') `suffix_of` d).
Proof.
  revert id s. induction plan as [|[b d] plan IH]; intros id s Hl Hw Hp; cbn [length loop].
  { exists id, s, [], [], []. rewrite app_nil_r. destruct Hw as [Hnd _].
    unfold arrivals in Hnd. rewrite Hp, app_nil_r in Hnd. by repeat split. }
  destruct (turn_run key id s) as (l1 & Hr1 & Hd1).
  destruct (read id s) as [ms s1] eqn:Hread. cbn [fst snd] in *.
  destruct (read_step id s ms s1 b d plan Hl Hw Hp Hread) as (Hw1 & Hp1 & He1 & Hl1 & Hb1 & Hsuf).
  destruct (IH (position id ms) s1 Hl1 Hw1 Hp1)
    as (id' & s' & l & ds & ext & Hr & Hd & He & Hext & Hnd & Hb & Hlast).
  exists id', s', (l1 ++ l), (ms ++ ds), (b ++ d ++ ext).
  rewrite run_bind, Hr1, Hr, delivered_app, Hd1, Hd, fmap_app. split; [done|]. split; [done|].
  split; [by rewrite He, He1, <-!app_assoc|]. split; [by rewrite Hext; cbn; rewrite <-app_assoc|].
  split; [done|]. split.
  - rewrite <-app_assoc, <-Hb. rewrite He in Hnd |- *.
    rewrite !(behind_app _ s1); [by rewrite Hb1, app_assoc | done | done | | done].
    destruct Hl as [? Hin]. split; [done|]. rewrite He1, fmap_app. set_solver.
  - intros b' d' Hbd. destruct plan as [|p plan]; [|by apply Hlast in Hbd].
    injection Hbd as <- <-. cbn in Hr. injection Hr as <- <- _. done.
Qed.

(** C34. Once the subscription knows a position, nothing is lost or repeated: over
    any sequence of reads, with entries arriving between the reads and while
    they block, the handler gets exactly the entries behind that position, in
    stream order, up to those that arrived during the last read, which the next
    one returns. *)
Theorem nothing_lost_after_first key id s :
  located id s → well_numbered s →
  ∃ id' s' l ds,
    run streaming (loop (length (s_plan s)) (subscribe_turn key) id) s = (inl id', s', l) ∧
    s_entries s' = arrivals s ∧
    delivered l = decodeStreamMessage <$> ds ∧
    behind id (arrivals s) = ds ++ behind id' (arrivals s) ∧
    (∀ b d, last (s_plan s) = Some (b, d) → behind id' (arrivals s) `suffix_of` d).
Proof.
  intros Hl Hw. destruct (loop_stream key (s_plan s) id s Hl Hw eq_refl)
    as (id' & s' & l & ds & ext & Hr & Hd & He & -> & _ & Hb & Hlast).
  exists id', s', l, ds. fold (arrivals s) in He. rewrite <-He. auto 6.
Qed.

(** Before its first entry it knows none: a read from [$] sees only what arrives
    while it blocks, so entries written between two reads, long after
    [Subscribe] was called, are never delivered. *)
Theorem dollar_gap_loses_events fuel b s :
  Forall (λ p, p.2 = []) (s_plan s) →
  delivered (log streaming (Subscribe fuel b true) s) = [].
Proof.
  unfold Subscribe. cbn [negb]. unfold log. revert s. induction fuel as [|n IH]; [done|].
  intros s Hp. cbn [loop]. rewrite run_bind.
  destruct (turn_run (keys.Events b) "$" s) as (l1 & -> & Hd1).
  assert (HR : (read "$" s).1 = [] ∧ Forall (λ p, p.2 = []) (s_plan (read "$" s).2)).
  { unfold read. cbn. destruct (s_plan s) as [|[b0 d] plan]; cbn; [done|].
    by inversion Hp. }
  destruct HR as [HR1 HR2]. rewrite HR1 in *. change (position "$" []) with "$".
  specialize (IH _ HR2).
  destruct (run streaming (loop n (subscribe_turn (keys.Events b)) "$") (read "$" s).2) as [[r s'] l].
  cbn in *. by rewrite delivered_app, Hd1.
Qed.
End events.

(** A completed job's entry, in the stream's own form. *)
Definition sample_entry (id job : string) : XMessage :=
  mkXMessage id [("event", AStr "completed"); ("jobId", AStr job); ("returnvalue", AStr "true")].

Definition sample_stream : stream :=
  mkStream [sample_entry "1-0" "a"]
    [([], [sample_entry "2-0" "b"]); ([sample_entry "3-0" "c"], [sample_entry "4-0" "d"]); ([], [])].

Lemma nothing_lost_after_first_witness :
  ∃ id' s' l ds,
    run (streaming) (loop 3 (subscribe_turn (λ _, "") "bull:q:events") "1-0") sample_stream
      = (inl id', s', l) ∧
    delivered l = decodeStreamMessage (λ _, "") <$> ds ∧ x_ID <$> ds = ["2-0"; "3-0"; "4-0"].
Proof.
  destruct (nothing_lost_after_first (λ _, "") "bull:q:events" "1-0" sample_stream)
    as (id' & s' & l & ds & Hr & _ & Hd & Hb & Hl).
  - split; [done|]. cbn. set_solver.
  - split; [apply (bool_decide_unpack _); vm_compute; done|]. by repeat constructor.
  - exists id', s', l, ds. split; [exact Hr|]. split; [exact Hd|].
    specialize (Hl [] [] eq_refl). apply suffix_nil_inv in Hl. rewrite Hl, app_nil_r in Hb.
    by rewrite <-Hb.
Defined.

(** One read comes back empty, an entry is written, the next reads come back
    empty too. *)
Lemma dollar_gap_loses_events_witness :
  let s := mkStream [] [([], []); ([sample_entry "1-0" "a"], []); ([], [])] in
  delivered (log streaming (Subscribe (λ _, "") 3 (keys.mkBuilder "bull" "q") true) s) = [] ∧
  s_entries (world streaming (Subscribe (λ _, "") 3 (keys.mkBuilder "bull" "q") true) s)
    = [sample_entry "1-0" "a"].
Proof.
  split; [|reflexivity]. apply dollar_gap_loses_events. by repeat constructor.
Defined.
