(* ===== verification/Pool.v ===== *)
(** * The encoder pool (internal/proto/pool.go)

    The encoders of the dispatch path share a [sync.Pool] of a buffer and a
    msgpack encoder. What goes back into the pool was written to, by a closure
    that may have failed or panicked half-way. The model is the pool with any
    number of goroutines between [Get] and [Put], in any interleaving; [Get] may
    return any pooled value or a new one, and the runtime may drop pooled values
    at any time, as [sync.Pool] documents. *)

From S2P Require Import Prelude GoLib.

Definition shrinkCap : Z := 4096.

Section pool.
(** The encoder's internal state, and the one [NewEncoder] and [Reset] give it. *)
Context {S : Type}.
Variable fresh : S.
(** The capacity of a buffer of capacity [cap] that has to hold [len] bytes. *)
Variable grow : Z → nat → Z.

Record pooledEncoder := mkPooled { pe_buf : string; pe_cap : Z; pe_enc : S }.

(** How a call of a closure ends. *)
Inductive ending := Fine | Failed (e : err) | Panicked.

(** A closure: what it makes of the encoder's state, the bytes it has written
    to the buffer when it ends, and how it ends. *)
Definition closure : Type := S → S * string * ending.

(** [encoderPool.New]. *)
Definition newEncoder : pooledEncoder := mkPooled "" (grow 0 256) fresh.

(** The deferred function: what goes back into the pool, if anything. *)
Definition release (pe : pooledEncoder) : option pooledEncoder :=
  if shrinkCap <? pe_cap pe then None else Some (mkPooled "" (pe_cap pe) fresh).

(** [encodeMsgpack] from the value [Get] returned to its own return, with what it
    [Put]s. *)
Definition encodeMsgpack (pe : pooledEncoder) (fn : closure)
    : may_panic (res string) * option pooledEncoder :=
  let '(enc, bytes, o) := fn (pe_enc pe) in
  let buf := pe_buf pe +:+ bytes in
  let pe := mkPooled buf (grow (pe_cap pe) (String.length buf)) enc in
  (match o with
   | Panicked => Panics
   | Failed e => Returns (inl e)
   | Fine => Returns (inr buf)
   end, release pe).

(** The same call on an encoder nobody has used. *)
Definition alone (fn : closure) : may_panic (res string) := (encodeMsgpack newEncoder fn).1.

(** ** Goroutines *)

Record pool_state := mkPool {
  pooled : list pooledEncoder;
  busy : list (closure * pooledEncoder);                   (** between Get and Put *)
  finished : list (closure * may_panic (res string));      (** the calls that returned *)
}.

Inductive pool_step : pool_state → pool_state → Prop :=
| pool_get p1 pe p2 b f fn :
    pool_step (mkPool (p1 ++ pe :: p2) b f) (mkPool (p1 ++ p2) ((fn, pe) :: b) f)
| pool_new p b f fn :
    pool_step (mkPool p b f) (mkPool p ((fn, newEncoder) :: b) f)
| pool_drop p1 pe p2 b f :
    pool_step (mkPool (p1 ++ pe :: p2) b f) (mkPool (p1 ++ p2) b f)
| pool_return p b1 fn pe b2 f :
    pool_step (mkPool p (b1 ++ (fn, pe) :: b2) f)
      (mkPool (option_list (encodeMsgpack pe fn).2 ++ p) (b1 ++ b2)
         ((fn, (encodeMsgpack pe fn).1) :: f)).

Definition pool_reachable : pool_state → Prop := rtc pool_step (mkPool [] [] []).

(** Nothing is left of earlier calls. *)
Definition clean (pe : pooledEncoder) : Prop := pe_buf pe = "" ∧ pe_enc pe = fresh.

Lemma clean_alone pe fn : clean pe → (encodeMsgpack pe fn).1 = alone fn.
Proof.
  intros [Hb He]. unfold alone, encodeMsgpack. rewrite Hb, He. cbn.
  by destruct (fn fresh) as [[enc bytes] []].
Qed.

Lemma released_clean pe fn pe' :
  (encodeMsgpack pe fn).2 = Some pe' → clean pe' ∧ pe_cap pe' ≤ shrinkCap.
Proof.
  unfold encodeMsgpack, release. destruct (fn (pe_enc pe)) as [[enc bytes] o]. cbn.
  destruct (Z.ltb_spec shrinkCap (grow (pe_cap pe) (String.length (pe_buf pe +:+ bytes)))); [done|].
  by intros [= <-].
Qed.

Definition pool_inv (s : pool_state) : Prop :=
  Forall (λ pe, clean pe ∧ pe_cap pe ≤ shrinkCap) (pooled s) ∧
  Forall (λ x, clean x.2) (busy s) ∧
  Forall (λ x, x.2 = alone x.1) (finished s).

Lemma pool_step_inv s s' : pool_step s s' → pool_inv s → pool_inv s'.
Proof.
  unfold pool_inv. intros []; cbn; rewrite ?Forall_app, ?Forall_cons, ?Forall_app; try tauto.
  - intros (? & ? & ?). by split_and!.
  - intros (Hp & (Hb1 & Hpe & Hb2) & Hf). cbn in Hpe.
    split_and!; [|done..| by apply clean_alone | done].
    destruct (encodeMsgpack pe fn).2 as [pe'|] eqn:E; [|done]. constructor; [|done].
    by apply released_clean in E.
Qed.

Lemma pool_invariant s : pool_reachable s → pool_inv s.
Proof.
  unfold pool_reachable. intros H. eapply (rtc_ind_r pool_inv); [| |exact H].
  - by split_and!.
  - intros x y _ Hxy Hx. by eapply pool_step_inv.
Qed.
End pool.
Arguments pool_state S : clear implicits.

(** The pool cannot be told from fresh encoders: however calls interleave, fail
    or panic, and whatever the pool hands out, every call of [encodeMsgpack] that
    has returned gave what it gives on an unused encoder, and no buffer above
    [shrinkCap] is ever kept. *)
Theorem pool_transparent {S} (fresh : S) grow (s : pool_state S) :
  pool_reachable fresh grow s →
  (∀ fn r, (fn, r) ∈ finished s → r = alone fresh grow fn) ∧
  (∀ pe, pe ∈ pooled s → pe_cap pe ≤ shrinkCap).
Proof.
  intros (Hp & _ & Hf)%pool_invariant. split.
  - intros fn r Hin. by rewrite Forall_forall in Hf; apply (Hf (fn, r)).
  - intros pe Hin. rewrite Forall_forall in Hp. by apply Hp.
Qed.

(** A call that fails after three bytes, and one that reuses its encoder. *)
Definition failing : closure := λ n : nat, (Datatypes.S n, "abc", Failed (EText "unsupported type")).
Definition counting : closure := λ n : nat, (Datatypes.S n, (if Nat.eqb n 0 then "clean" else "dirty"), Fine).

Lemma pool_transparent_witness :
  let grow c n := Z.max c (Z.of_nat n) in
  let reused := mkPooled "" (grow 0 256%nat) 0%nat in
  let s := mkPool [reused] [] [(counting, Returns (inr "clean")); (failing, Returns (inl (EText "unsupported type")))] in
  pool_reachable 0%nat grow s ∧ alone 0%nat grow counting = Returns (inr "clean").
Proof.
  intros grow reused s.
  assert (Hs : pool_reachable 0%nat grow s).
  { eapply rtc_l; [apply (pool_new 0%nat grow [] [] [] failing)|].
    eapply rtc_l; [apply (pool_return 0%nat grow [] [] failing _ [])|].
    eapply rtc_l; [apply (pool_get 0%nat grow [] reused [] [] _ counting)|].
    eapply rtc_l; [apply (pool_return 0%nat grow [] [] counting reused [])|]. apply rtc_refl. }
  split; [exact Hs|]. symmetry. apply (proj1 (pool_transparent 0%nat grow s Hs)). left.
Defined.
