(* ===== verification/Connect.v ===== *)
(** * Connecting (mkq.go)

    [NewClient] opens a connection pool, pings Redis and loads the scripts;
    [Close] gives the pool back. A missing logger, metrics sink or tracer is
    replaced by one that does nothing, which the requests of the model cannot
    tell from a given one. *)

From S2P Require Import Prelude GoLib Keys Backoff Effects Config Cron Loader Scripter Discover.

Record Config := mkConfig { Addrs : list string; PoolSize : Z; KeyPrefix : string }.

Section connect.
Variable Preprocess : string → res string.

Definition NewClient (c : Config) : M (res (Client * scripts)) :=
  match Addrs c with
  | [] => mret (inl (EText "mkq: Config.Redis.Addrs is required"))
  | addrs =>
      _ ← ask (ROpenClient addrs);
      p ← ask (RPing CtxCaller);
      match p with
      | Some e => _ ← ask RCloseClient; mret (inl (Errorw "mkq: redis ping" e))
      | None =>
          s ← NewScripter Preprocess;
          match s with
          | inl e => _ ← ask RCloseClient; mret (inl (Errorw "mkq: load scripts" e))
          | inr s =>
              let prefix := if String.eqb (KeyPrefix c) "" then defaultKeyPrefix else KeyPrefix c in
              mret (inr (mkClient prefix (PoolSize c), s))
          end
      end
  end.

Definition Close : M (option err) := ask RCloseClient.

(** ** Reading the log *)

Definition balance_of (r : req) : Z :=
  match r with ROpenClient _ => 1 | RCloseClient => -1 | _ => 0 end.

(** The number of open pools after a log that starts with [n] of them, provided
    it is zero or one at every moment. *)
Fixpoint pools (n : Z) (l : list event) : option Z :=
  if (0 <=? n) && (n <=? 1) then
    match l with [] => Some n | e :: l => pools (n + balance_of (ev_req e)) l end
  else None.

Lemma pools_app n l1 l2 : pools n (l1 ++ l2) = pools n l1 ≫= λ m, pools m l2.
Proof.
  revert n. induction l1 as [|e l1 IH]; intros n; cbn [app pools].
  - destruct ((0 <=? n) && (n <=? 1)) eqn:E; [done|]. destruct l2; cbn [pools]; by rewrite E.
  - destruct ((0 <=? n) && (n <=? 1)); [apply IH | done].
Qed.

(** Requests that leave the connection alone. *)
Definition loads_only (r : req) : bool := match r with RScriptLoad _ _ => true | _ => false end.

Lemma pools_loads l : forallb loads_only (ev_req <$> l) = true → pools 1 l = Some 1.
Proof.
  induction l as [|[r x] l IH]; cbn; [done|]. rewrite andb_true_iff. intros [Hr Hl].
  destruct r; try done. by apply IH.
Qed.

Lemma pools_session addrs x y l tl :
  forallb loads_only (ev_req <$> l) = true →
  pools 0 ([Ev (ROpenClient addrs) x] ++ [Ev (RPing CtxCaller) y] ++ l ++ tl) = pools 1 tl.
Proof.
  intros Hl. transitivity (pools 1 (l ++ tl)); [done|]. by rewrite pools_app, pools_loads.
Qed.

Lemma preload_only s ns : only loads_only (preload Preprocess s ns).
Proof.
  revert s. induction ns as [|n ns IH]; intros s; cbn [preload]; [only_solve|].
  unfold load. destruct (Preprocess (script_name n)); only_solve; apply IH.
Qed.

Definition loaded (s : scripts) (n : ScriptName) : bool :=
  match script_get s n with Some _ => true | None => false end.

Lemma preload_all s ns :
  wp (preload Preprocess s ns) (λ r _,
    ∀ s', r = inr s' → ∀ n, n ∈ ns ∨ loaded s n = true → loaded s' n = true).
Proof.
  revert s. induction ns as [|n ns IH]; intros s; cbn [preload].
  { wp_step. intros s' [= <-] n [[]%not_elem_of_nil|?]; done. }
  wp_step. unfold load. destruct (Preprocess (script_name n)); [by wp_step; wp_step|].
  wp_step. wp_step. destruct x as [e|h]; wp_step; [by wp_step|].
  eapply wp_mono; [|apply IH]. cbn beta. intros r l Hr s' -> n' Hn. apply (Hr s' eq_refl).
  unfold loaded. cbn. case_bool_decide as E; [by right|].
  destruct Hn as [[->|?]%elem_of_cons|?]; [done | by left | by right].
Qed.

(** What [NewClient] leaves behind: no pool on an error; on success one open pool,
    answering a ping, every script loaded, and a key prefix that is not empty. *)
Definition connected (c : Config) (r : res (Client * scripts)) (l : list event) : Prop :=
  match r with
  | inl _ => pools 0 l = Some 0
  | inr (cl, s) => pools 0 l = Some 1 ∧ Ev (RPing CtxCaller) None ∈ l ∧
      (∀ n, loaded s n = true) ∧ keyPrefix cl ≠ "" ∧
      (KeyPrefix c ≠ "" → keyPrefix cl = KeyPrefix c)
  end.

Lemma wp_NewClient c : wp (NewClient c) (connected c).
Proof.
  unfold NewClient. destruct (Addrs c) as [|a addrs]; [by wp_step|].
  wp_step. wp_step. wp_step. wp_step. destruct x0 as [e|]; [by wp_step; wp_step; wp_step|].
  wp_step. eapply wp_mono; [|apply wp_and; [apply (preload_only [] allScripts) | apply (preload_all [] allScripts)]].
  cbn beta. intros [e|s] l [Hl Hs].
  - wp_step. wp_step. wp_step. red. by rewrite pools_session.
  - wp_step. split_and!.
    + by rewrite pools_session.
    + set_solver.
    + intros n. apply (Hs s eq_refl). left. apply every_script.
    + cbn. by destruct (String.eqb_spec (KeyPrefix c) "").
    + cbn. by destruct (String.eqb_spec (KeyPrefix c) "").
Qed.
End connect.

(** Connecting leaks nothing and promises what it says. Whatever Redis answers,
    [NewClient] never has two connection pools nor closes one twice; on every
    error path the pool it opened is closed again; on success it is open, Redis
    has answered the ping, all scripts are loaded, and the key prefix is the
    configured one or the default. Closing the client then leaves no pool. *)
Theorem connect_leaks_nothing {W} (sv : server W) Preprocess c w :
  connected c (result sv (NewClient Preprocess c) w) (log sv (NewClient Preprocess c) w) ∧
  pools 1 (log sv Close w) = Some 0.
Proof.
  split; [apply (wp_run sv), wp_NewClient|]. wp_log. unfold Close. by wp_step.
Qed.
