(* ===== verification/Frame.v ===== *)
(** * What a script leaves alone

    [frames R m]: whatever state the script [m] runs in, the state it leaves is
    related to it by [R]. A preorder is framed by a script as soon as it is by
    its commands; [Footprint] says that [R] looks at no list, lock, string or set,
    so that the commands on these frame it. *)

From S2P Require Import Prelude GoLib Keys Redis.
Import lua.

Definition frames (R : store → store → Prop) {A} (m : Lua A) : Prop := ∀ st, R st (m st).1.2.

Class Footprint (R : store → store → Prop) : Prop := {
  foot_pre :: PreOrder R;
  foot_lset k l st : R st (lset k l st);
  foot_locks f st : R st (with_locks f st);
  foot_strs f st : R st (with_strs f st);
  foot_sets f st : R st (with_sets f st);
}.

Section frames.
Variable R : store → store → Prop.
Context `{!Footprint R}.
#[local] Set Default Proof Using "Type*".

Lemma frames_bind {A B} (m : Lua A) (f : A → Lua B) : frames R m → (∀ a, frames R (f a)) → frames R (m ≫= f).
Proof.
  intros Hm Hf st. unfold mbind, Lua_bind. specialize (Hm st). destruct (m st) as [[a st1] l1]. specialize (Hf a st1).
  destruct (f a st1) as [[c st2] l2]. cbn in *. by transitivity st1.
Qed.

Lemma frames_same {A} (m : Lua A) : (∀ st, (m st).1.2 = st) → frames R m.
Proof. intros Hm st. by rewrite Hm. Qed.
Lemma frames_ret {A} (a : A) : frames R (mret a).
Proof. by apply frames_same. Qed.
Lemma frames_gets {A} (f : store → A) : frames R (gets f).
Proof. by apply frames_same. Qed.
Lemma frames_emit e : frames R (emit e).
Proof. by apply frames_same. Qed.
Lemma frames_ok {A B} (m : Lua A) (f : A → B) : frames R m → frames R (v ← m; mret (f v)).
Proof. intros Hm. apply frames_bind; [done|]. intros v. apply frames_ret. Qed.

Lemma frames_locks f : frames R (modify (with_locks f)).
Proof. intros st. apply foot_locks. Qed.
Lemma frames_strs f : frames R (modify (with_strs f)).
Proof. intros st. apply foot_strs. Qed.
Lemma frames_sets f : frames R (modify (with_sets f)).
Proof. intros st. apply foot_sets. Qed.
Lemma frames_lset k (f : store → list string) : frames R (modify (λ st, lset k (f st) st)).
Proof. intros st. apply foot_lset. Qed.
Lemma frames_LPUSH k x : frames R (LPUSH k x).
Proof. apply frames_lset. Qed.
Lemma frames_RPUSH k x : frames R (RPUSH k x).
Proof. apply frames_lset. Qed.
Lemma frames_RPOPLPUSH s d : frames R (RPOPLPUSH s d).
Proof.
  intros st. unfold RPOPLPUSH. destruct (last _); [|done]. cbn. etrans; apply foot_lset.
Qed.
Lemma frames_LREM_head k x : frames R (LREM_head k x).
Proof. intros st. unfold LREM_head. case_bool_decide; [apply foot_lset | done]. Qed.
Lemma frames_LREM_tail k x : frames R (LREM_tail k x).
Proof. intros st. unfold LREM_tail. case_bool_decide; [apply foot_lset | done]. Qed.
End frames.

Create HintDb frames.
#[export] Hint Resolve frames_ret frames_gets frames_emit frames_locks frames_strs frames_sets frames_lset
  frames_LPUSH frames_RPUSH frames_RPOPLPUSH frames_LREM_head frames_LREM_tail : frames.

(** Follow a script down to the commands, [leaf] being what is known of them. *)
Ltac frame_solve leaf :=
  repeat first
  [ solve [auto 2 with frames nocore]
  | leaf
  | apply (frames_bind _); [|intros ?]
  | match goal with |- frames _ (match ?x with _ => _ end) => destruct x end
  | progress (unfold HGET, HEXISTS, ZSCORE, LLEN; autounfold with keeps; cbv zeta) ].
