(* ===== verification/Fencing.v ===== *)
(** * Locks as fences

    Which goroutine holds a job, and whose outcome counts. The history of a
    queue is the list of the scripts' [effect]s with the goroutine that called
    each script. [guarded] ties it to the store: the lock of a job carries the
    token of its last taker, every token was drawn by the goroutine that uses
    it, and every outcome that got past a lock check ([Settle]) came from the
    job's last taker. Every script keeps [guarded] ([script_safe]). *)

From S2P Require Import Prelude GoLib Keys Backoff Effects Json Jobs Redis RedisInv.
Import lua.

Definition history : Type := list (nat * effect).

(** The last taker of a job and the token it took it with, until it settles the
    job. *)
Definition taken (j : string) (h : option (nat * string)) (e : nat * effect) : option (nat * string) :=
  match e with
  | (i, Take j' t) => if String.eqb j' j then Some (i, t) else h
  | (_, Settle j' _) => if String.eqb j' j then None else h
  end.
Definition holder (tr : history) (j : string) : option (nat * string) := foldl (taken j) None tr.

(** No outcome from anyone but the last taker, and one at most. *)
Definition fenced (tr : history) : Prop :=
  ∀ l1 i j t l2, tr = l1 ++ (i, Settle j t) :: l2 → holder l1 j = Some (i, t).

Lemma holder_snoc tr e j : holder (tr ++ [e]) j = taken j (holder tr j) e.
Proof. unfold holder. by rewrite foldl_app. Qed.

Lemma fenced_snoc tr e :
  fenced tr → (∀ i j t, e = (i, Settle j t) → holder tr j = Some (i, t)) → fenced (tr ++ [e]).
Proof.
  intros Hf He l1 i j t l2 E. destruct l2 as [|x l2] using rev_ind.
  - apply app_inj_tail in E as [<- ->]. by apply He.
  - rewrite app_comm_cons, (assoc_L (++)) in E. apply app_inj_tail in E as [-> _]. by eapply Hf.
Qed.

(** A part of a script that gives no lock to anyone and reports nothing. *)
Definition tame {A} (m : Lua A) : Prop := ∀ st, locks (m st).1.2 ⊆ locks st ∧ (m st).2 = [].

Lemma tame_ret {A} (a : A) : tame (mret a).
Proof. by intros st. Qed.

Lemma tame_bind {A B} (m : Lua A) (f : A → Lua B) : tame m → (∀ a, tame (f a)) → tame (m ≫= f).
Proof.
  intros Hm Hf st. unfold mbind, Lua_bind. specialize (Hm st). destruct (m st) as [[a st1] l1].
  specialize (Hf a st1). destruct (f a st1) as [[c st2] l2]. cbn in *.
  destruct Hm as [H1 ->], Hf as [H2 ->]. split; [by etrans | done].
Qed.

Lemma tame_gets {A} (f : store → A) : tame (gets f).
Proof. by intros st. Qed.
Lemma tame_modify f : (∀ st, locks (f st) ⊆ locks st) → tame (modify f).
Proof. intros Hf st. split; [apply Hf | done]. Qed.
Lemma tame_RPOPLPUSH s d : tame (RPOPLPUSH s d).
Proof. intros st. unfold RPOPLPUSH. by destruct (last _). Qed.
Lemma tame_LREM_head k x : tame (LREM_head k x).
Proof. intros st. unfold LREM_head. by case_bool_decide. Qed.
Lemma tame_LREM_tail k x : tame (LREM_tail k x).
Proof. intros st. unfold LREM_tail. by case_bool_decide. Qed.
Lemma tame_ZREM k x : tame (ZREM k x).
Proof. intros st. unfold ZREM. by case_bool_decide. Qed.
Lemma tame_ZPOPMIN k : tame (ZPOPMIN k).
Proof. intros st. unfold ZPOPMIN. by destruct (zsorted _) as [|[]]. Qed.
Lemma tame_HINCRBY k f : tame (HINCRBY k f).
Proof. by intros st. Qed.
Lemma tame_INCR k : tame (INCR k).
Proof. by intros st. Qed.
Lemma tame_INCR64 k : tame (INCR64 k).
Proof. intros st. unfold INCR64. by destruct (_ <=? _). Qed.

Create HintDb tame.
#[export] Hint Resolve tame_RPOPLPUSH tame_LREM_head tame_LREM_tail tame_ZREM tame_ZPOPMIN tame_HINCRBY
  tame_INCR tame_INCR64 : tame.

(** Follow a script that is tame. *)
Ltac tame_solve :=
  repeat first
  [ apply tame_ret | apply tame_gets | solve [auto 1 with tame nocore]
  | apply tame_modify; intros ?; first [done | apply delete_subseteq]
  | apply tame_bind; [|intros ?]
  | match goal with |- tame (match ?x with _ => _ end) => destruct x end ].

Section scripts.
Context `{Codec}.
Variable cjson : any → string.
Variable o : oracle.

Lemma tame_LPUSH k x : tame (LPUSH k x).
Proof. by intros st. Qed.
Lemma tame_RPUSH k x : tame (RPUSH k x).
Proof. by intros st. Qed.
Lemma tame_ZADD k s x : tame (ZADD k s x).
Proof. by intros st. Qed.
Lemma tame_HMSET k kvs : tame (HMSET k kvs).
Proof. by intros st. Qed.
Lemma tame_HDEL k fs : tame (HDEL k fs).
Proof. by intros st. Qed.
Lemma tame_HGET k f : tame (HGET k f).
Proof. by intros st. Qed.
Lemma tame_ZSCORE k f : tame (ZSCORE k f).
Proof. by intros st. Qed.
Lemma tame_HEXISTS k : tame (HEXISTS k).
Proof. by intros st. Qed.
Hint Resolve tame_LPUSH tame_RPUSH tame_ZADD tame_HMSET tame_HDEL tame_HGET tame_ZSCORE tame_HEXISTS : tame.

Lemma tame_pushCmd c k x : tame (pushCmd c k x).
Proof. unfold pushCmd. tame_solve. Qed.
Lemma tame_maxEvents k : tame (getOrSetMaxEvents k).
Proof. unfold getOrSetMaxEvents. tame_solve. Qed.
Lemma tame_withPriority k p x pc : tame (addJobWithPriority k p x pc).
Proof. unfold addJobWithPriority, getPriorityScore. tame_solve. Qed.
Hint Resolve tame_pushCmd tame_maxEvents tame_withPriority : tame.

Lemma tame_promote_each jobs w p pre pc : tame (promote_each jobs w p pre pc).
Proof. induction jobs as [|j jobs IH]; cbn [promote_each]; tame_solve. Qed.
Lemma tame_ZREM_all k xs : tame (ZREM_all k xs).
Proof. induction xs as [|x xs IH]; cbn [ZREM_all]; tame_solve. Qed.
Hint Resolve tame_promote_each tame_ZREM_all : tame.
Lemma tame_promoteDelayed d w p pre ts pc : tame (promoteDelayedJobs d w p pre ts pc).
Proof. unfold promoteDelayedJobs. tame_solve. Qed.
Lemma tame_rateLimit m k : tame (getRateLimitTTL o m k).
Proof. unfold getRateLimitTTL. tame_solve. Qed.
Lemma tame_expel k pre jobs : tame (expel k pre jobs).
Proof. induction jobs as [|x xs IH]; cbn [expel]; tame_solve. Qed.
Hint Resolve tame_promoteDelayed tame_rateLimit tame_expel : tame.
Lemma tame_admit m a d w p pre ts pc l opts : tame (admission o m a d w p pre ts pc l opts).
Proof. unfold admission, isQueuePausedOrMaxed, LLEN. tame_solve. Qed.
Lemma tame_popmin p a pc : tame (moveJobFromPrioritizedToActive p a pc).
Proof. unfold moveJobFromPrioritizedToActive. tame_solve. Qed.
Lemma tame_updateJobFields k p : tame (updateJobFields k p).
Proof. unfold updateJobFields. tame_solve. Qed.
Lemma tame_dropDedup pre d j : tame (dropDedupOnFinish o pre d j).
Proof. unfold dropDedupOnFinish. tame_solve. Qed.
Lemma tame_maxAge ts a k pre l : tame (removeJobsByMaxAge ts a k pre l).
Proof. unfold removeJobsByMaxAge. tame_solve. Qed.
Lemma tame_maxCount n k pre : tame (removeJobsByMaxCount n k pre).
Proof. unfold removeJobsByMaxCount. tame_solve. Qed.
Lemma tame_retain k pre j jk ts t p v keep : tame (retain k pre j jk ts t p v keep).
Proof. unfold retain, removeJobsByMaxAge, removeJobsByMaxCount. cbv zeta. tame_solve. Qed.
Lemma tame_delayedScore k ts d : tame (getDelayedScore k ts d).
Proof. unfold getDelayedScore. tame_solve. Qed.
Lemma tame_storeJob k n d opts ts r : tame (storeJob cjson k n d opts ts r).
Proof. unfold storeJob. tame_solve. Qed.
Lemma tame_dedup de j k pre : tame (deduplicateJob o de j k pre).
Proof. unfold deduplicateJob. tame_solve. Qed.
Lemma tame_nextDelayed k : tame (getNextDelayedTimestamp k).
Proof. unfold getNextDelayedTimestamp. tame_solve. Qed.
Hint Resolve tame_admit tame_popmin tame_updateJobFields tame_dropDedup tame_maxAge tame_maxCount
  tame_retain tame_delayedScore tame_storeJob tame_dedup tame_nextDelayed : tame.

Lemma tame_recover jobs w a pre r m : tame (recover jobs w a pre r m).
Proof. induction jobs as [|j jobs IH]; cbn [recover]; tame_solve. Qed.
Lemma tame_anyState pre j : tame (removeJobFromAnyState pre j).
Proof. unfold removeJobFromAnyState. cbv zeta. tame_solve. Qed.
Lemma tame_dropJob pre j : tame (dropJob pre j).
Proof. unfold dropJob. tame_solve. Qed.
Lemma tame_freeSlot n pre sid e m : tame (freeSlot n pre sid e m).
Proof. revert m. induction n as [|n IH]; intros m; cbn [freeSlot]; tame_solve. Qed.
Lemma tame_fromScheduler ks jk j n d opts ts sid dl : tame (addJobFromScheduler cjson ks jk j n d opts ts sid dl).
Proof. unfold addJobFromScheduler. cbv zeta. tame_solve. Qed.
Hint Resolve tame_recover tame_anyState tame_dropJob tame_freeSlot tame_fromScheduler : tame.
Lemma tame_dropJobs pre jobs : tame (dropJobs pre jobs).
Proof. induction jobs as [|j jobs IH]; cbn [dropJobs]; tame_solve. Qed.
Lemma tame_offScheduler ks pre j : tame (removeJobFromScheduler ks pre j).
Proof. unfold removeJobFromScheduler. tame_solve. Qed.
Lemma tame_storeScheduler sid sk rk n opts d t : tame (storeJobScheduler cjson sid sk rk n opts d t).
Proof. unfold storeJobScheduler. cbv zeta. tame_solve. Qed.
Lemma tame_chooseSlot pre sid e n : tame (chooseSlot pre sid e n).
Proof. unfold chooseSlot. tame_solve. Qed.
Hint Resolve tame_dropJobs tame_offScheduler tame_storeScheduler tame_chooseSlot : tame.

Lemma tame_addJob m k args enqueue :
  (∀ j opts ts d, tame (enqueue j opts ts d)) → tame (addJob cjson o m k args enqueue).
Proof. intros He. unfold addJob. cbv zeta. tame_solve. Qed.

(** The scripts that neither take nor settle a job. *)
Definition unlocked (n : ScriptName) : bool :=
  match n with MoveToActive | MoveToFinished | RetryJob | MoveToDelayed => false | _ => true end.

Lemma script_tame n ks args : unlocked n = true → tame (script cjson o n ks args).
Proof.
  intros Hn. destruct n; try done; cbn [script];
    first [ apply tame_addJob; intros; tame_solve
          | apply tame_bind; [|intros ?; apply tame_ret]
          | apply tame_ret ].
  - unfold extendLock. tame_solve.
  - unfold releaseLock. tame_solve.
  - unfold moveStalledJobsToWait. tame_solve.
  - unfold addJobScheduler. cbv zeta. tame_solve.
  - unfold updateJobScheduler. cbv zeta. tame_solve.
  - unfold updateProgress. tame_solve.
  - unfold updateData. tame_solve.
  - unfold removeJob. cbv zeta. tame_solve.
  - unfold drain, removeListJobs, removeZSetJobs. cbv zeta. tame_solve.
  - unfold promote. cbv zeta. tame_solve.
  - unfold reprocessJob. cbv zeta. tame_solve.
  - unfold pause. tame_solve.
Qed.
End scripts.
#[export] Hint Resolve tame_LPUSH tame_RPUSH tame_ZADD tame_HMSET tame_HDEL tame_HGET tame_ZSCORE tame_HEXISTS
  tame_pushCmd tame_maxEvents tame_withPriority tame_promote_each tame_ZREM_all tame_promoteDelayed
  tame_rateLimit tame_expel tame_admit tame_popmin tame_updateJobFields tame_dropDedup tame_maxAge
  tame_maxCount tame_retain tame_delayedScore tame_storeJob tame_dedup tame_nextDelayed tame_recover tame_anyState : tame.

(** ** The history and the locks *)

Section guarded.
Context `{Codec}.
Variable b : keys.Builder.
(** Which goroutine drew each token. *)
Variable drawn : gmap string nat.

Record guarded (st : store) (tr : history) : Prop := mkGuarded {
  g_lock : ∀ j t, locks st !! lockKey (keys.Job b j) = Some t → ∃ i, holder tr j = Some (i, t);
  g_drawn : ∀ j i t, holder tr j = Some (i, t) → drawn !! t = Some i;
  g_fenced : fenced tr;
}.

(** What goroutine [i] runs keeps the history right. *)
Definition safe {A} (i : nat) (m : Lua A) : Prop :=
  ∀ st tr, guarded st tr → guarded (m st).1.2 (tr ++ (pair i <$> (m st).2)).

Lemma guarded_shrink st st' tr : locks st' ⊆ locks st → guarded st tr → guarded st' tr.
Proof. intros Hl [H1 H2 H3]. split; [|done..]. intros j t Ht. eapply H1, lookup_weaken, Hl. exact Ht. Qed.

Lemma safe_tame {A} i (m : Lua A) : tame m → safe i m.
Proof.
  intros Hm st tr Hg. destruct (Hm st) as [Hl ->]. cbn. rewrite app_nil_r. by eapply guarded_shrink.
Qed.

Lemma safe_bind {A B} i (m : Lua A) (f : A → Lua B) : safe i m → (∀ a, safe i (f a)) → safe i (m ≫= f).
Proof.
  intros Hm Hf st tr Hg. unfold mbind, Lua_bind. specialize (Hm st tr Hg). destruct (m st) as [[a st1] l1].
  specialize (Hf a st1 _ Hm). destruct (f a st1) as [[c st2] l2]. cbn in *.
  by rewrite fmap_app, (assoc_L (++)).
Qed.

Lemma lockKey_inj j j' : lockKey (keys.Job b j) = lockKey (keys.Job b j') → j = j'.
Proof. intros E%sapp_inv_tail. by apply sapp_inv_head in E. Qed.

(** Taking a job with a token of one's own. *)
Lemma safe_take i j token :
  drawn !! token = Some i →
  safe i (_ ← modify (with_locks (insert (lockKey (keys.Job b j)) token)); emit (Take j token)).
Proof.
  intros Hd st tr [H1 H2 H3]. unfold mbind, Lua_bind, modify, emit. cbn [fst snd app fmap list_fmap]. split.
  - intros j' t. cbn [locks with_locks]. rewrite lookup_insert, holder_snoc. cbn [taken]. case_decide as E.
    + apply lockKey_inj in E as ->. rewrite String.eqb_refl. intros [= <-]. eauto.
    + intros Ht. destruct (String.eqb_spec j j') as [->|_]; [done | by apply H1].
  - intros j' i' t. rewrite holder_snoc. cbn. destruct (String.eqb j j'); [by intros [= <- <-] | apply H2].
  - by apply fenced_snoc.
Qed.

(** The lock check lets only the last taker through. *)
Lemma safe_removeLock i j stalled token :
  drawn !! token = Some i → safe i (removeLock (keys.Job b j) stalled token j).
Proof.
  intros Hd st tr Hg. unfold removeLock, mbind, Lua_bind, gets, modify, emit, mret, Lua_ret.
  assert (Hsame : guarded st (tr ++ (pair i <$> []))) by by rewrite app_nil_r.
  destruct (String.eqb token "0"); [done|]. destruct (locks st !! _) as [t|] eqn:E; [|done].
  destruct (String.eqb_spec t token) as [->|_]; [|done]. cbn [fst snd app fmap list_fmap].
  destruct (g_lock _ _ Hg j token E) as [i' Hh]. pose proof (g_drawn _ _ Hg _ _ _ Hh) as Hd'. simplify_eq.
  destruct Hg as [H1 H2 H3]. split.
  - intros j' t. cbn [locks with_locks with_sets]. rewrite lookup_delete, holder_snoc. cbn [taken].
    case_decide as Hk; [done|]. destruct (String.eqb_spec j j') as [->|_]; [done | apply H1].
  - intros j' i' t. rewrite holder_snoc. cbn. destruct (String.eqb j j'); [done | apply H2].
  - apply fenced_snoc; [done|]. intros ??? [= <- <- <-]. done.
Qed.

Variable o : oracle.
Variable cjson : any → string.

Lemma safe_prepare i limiter j ts max opts :
  drawn !! str (field opts "token") = Some i →
  safe i (prepareJobForProcessing (keys.Base b) limiter j ts max opts).
Proof.
  intros Hd. unfold prepareJobForProcessing. cbv zeta. apply safe_bind; [apply safe_tame; tame_solve|]. intros _.
  apply safe_bind; [destruct (negb _); [by apply (safe_take i j) | by apply safe_tame]|]. intros _.
  apply safe_tame. tame_solve.
Qed.

Lemma safe_fetch i w a p l d m pc ts opts :
  drawn !! str (field opts "token") = Some i →
  safe i (fetchNextJob o w a p l d m pc (keys.Base b) ts opts).
Proof.
  intros Hd. unfold fetchNextJob. apply safe_bind; [apply safe_tame, tame_admit|]. intros [[stopped mx] e].
  destruct (0 <? e); [by apply safe_tame|]. destruct stopped; [by apply safe_tame|].
  apply safe_bind; [apply safe_tame, tame_RPOPLPUSH|]. intros j.
  apply safe_bind; [apply safe_tame; tame_solve|]. intros [k|].
  - apply safe_bind; [by apply safe_prepare|]. intros v. by apply safe_tame.
  - apply safe_tame. tame_solve.
Qed.

(** The tokens a call uses are the caller's own, and the job the lock check is
    about is the one ARGV names. *)
Definition fenced_call (mine : string → Prop) (n : ScriptName) (ks : list string) (args : list any) : Prop :=
  match n with
  | MoveToActive =>
      str (argv args 1) = keys.Base b ∧ mine (str (field (unpack (str (argv args 3))) "token"))
  | MoveToFinished =>
      key ks 12 = keys.Job b (str (argv args 1)) ∧ str (argv args 7) = keys.Base b ∧
      mine (str (field (unpack (str (argv args 8))) "token"))
  | RetryJob => key ks 4 = keys.Job b (str (argv args 4)) ∧ mine (str (argv args 5))
  | MoveToDelayed =>
      key ks 5 = keys.Job b (str (argv args 3)) ∧ str (argv args 1) = keys.Base b ∧
      mine (str (argv args 4)) ∧
      (str (argv args 8) = "1" → mine (str (field (unpack (str (argv args 9))) "token")))
  | _ => True
  end.

Lemma fenced_call_mono (P Q : string → Prop) n ks args :
  (∀ t, P t → Q t) → fenced_call P n ks args → fenced_call Q n ks args.
Proof. intros HPQ. destruct n; cbn; naive_solver. Qed.

Definition drawn_by (i : nat) (t : string) : Prop := drawn !! t = Some i.

Lemma safe_moveToActive i ks args : fenced_call (drawn_by i) MoveToActive ks args → safe i (moveToActive o ks args).
Proof.
  intros [Hp Hm]. unfold moveToActive. cbv zeta. rewrite Hp.
  apply safe_bind; [apply safe_tame, tame_admit|]. intros [[stopped mx] e].
  destruct (0 <? e); [by apply safe_tame|]. destruct stopped; [by apply safe_tame|].
  apply safe_bind; [apply safe_tame, tame_RPOPLPUSH|]. intros j.
  apply safe_bind; [apply safe_tame; tame_solve|]. intros j2.
  apply safe_bind; [apply safe_tame; tame_solve|]. intros [k|].
  - by apply safe_prepare.
  - apply safe_tame. tame_solve.
Qed.

Lemma safe_moveToFinished i ks args : fenced_call (drawn_by i) MoveToFinished ks args → safe i (moveToFinished o ks args).
Proof.
  intros (Hk & Hp & Hm). unfold moveToFinished. cbv zeta. rewrite Hk, Hp.
  apply safe_bind; [by apply safe_tame|]. intros ex. destruct (negb ex); [by apply safe_tame|].
  apply safe_bind; [by apply safe_removeLock|]. intros code. destruct (code <? 0); [by apply safe_tame|].
  apply safe_bind; [apply safe_tame, tame_updateJobFields|]. intros _.
  apply safe_bind; [apply safe_tame, tame_LREM_tail|]. intros n. destruct (n <? 1); [by apply safe_tame|].
  apply safe_bind; [apply safe_tame, tame_maxEvents|]. intros _. apply safe_bind; [by apply safe_tame|]. intros d.
  apply safe_bind; [apply safe_tame, tame_dropDedup|]. intros _. apply safe_bind; [by apply safe_tame|]. intros _.
  apply safe_bind; [apply safe_tame; tame_solve|]. intros _.
  destruct (String.eqb _ "1"); [|by apply safe_tame].
  apply safe_bind; [by apply safe_fetch|]. intros r. by apply safe_tame.
Qed.

Lemma safe_retryJob i ks args : fenced_call (drawn_by i) RetryJob ks args → safe i (retryJob ks args).
Proof.
  intros [Hk Hm]. unfold retryJob. cbv zeta. rewrite Hk.
  apply safe_bind; [apply safe_tame, tame_promoteDelayed|]. intros _.
  apply safe_bind; [by apply safe_tame|]. intros ex. destruct (negb ex); [by apply safe_tame|].
  apply safe_bind; [by apply safe_removeLock|]. intros code. destruct (code <? 0); [by apply safe_tame|].
  apply safe_tame. tame_solve.
Qed.

Lemma safe_moveToDelayed i ks args : fenced_call (drawn_by i) MoveToDelayed ks args → safe i (moveToDelayed o ks args).
Proof.
  intros (Hk & Hp & Hm & Hf). unfold moveToDelayed. cbv zeta. rewrite Hk, Hp.
  apply safe_bind; [by apply safe_tame|]. intros ex. destruct (negb ex); [by apply safe_tame|].
  apply safe_bind; [by apply safe_removeLock|]. intros code. destruct (code <? 0); [by apply safe_tame|].
  apply safe_bind; [apply safe_tame, tame_updateJobFields|]. intros _.
  apply safe_bind; [apply safe_tame, tame_LREM_tail|]. intros n. destruct (n <? 1); [by apply safe_tame|].
  apply safe_bind; [apply safe_tame, tame_delayedScore|]. intros s.
  apply safe_bind; [apply safe_tame; tame_solve|]. intros _.
  apply safe_bind; [by apply safe_tame|]. intros _. apply safe_bind; [apply safe_tame, tame_maxEvents|]. intros _.
  apply safe_bind; [by apply safe_tame|]. intros _.
  apply safe_bind; [destruct (String.eqb_spec (str (argv args 8)) "1"); [by apply safe_fetch, Hf | by apply safe_tame]|].
  intros r. by apply safe_tame.
Qed.

Lemma script_safe i n ks args : fenced_call (drawn_by i) n ks args → safe i (script cjson o n ks args).
Proof.
  intros Hc. destruct (unlocked n) eqn:E; [by apply safe_tame, script_tame|].
  destruct n; try done; cbn [script]; (apply safe_bind; [|intros v; by apply safe_tame]).
  - by apply safe_moveToActive.
  - by apply safe_moveToFinished.
  - by apply safe_retryJob.
  - by apply safe_moveToDelayed.
Qed.
End guarded.

Lemma guarded_more b drawn drawn' st tr : drawn ⊆ drawn' → guarded b drawn st tr → guarded b drawn' st tr.
Proof. intros Hd [H1 H2 H3]. split; [done| |done]. intros j i t Hh. eapply lookup_weaken, Hd. eauto. Qed.
