(* ===== verification/Persist.v ===== *)
(** * Jobs stay

    A job, once stored, is only ever deleted by four scripts: removeJob and
    drain, which an administrator calls, moveToFinished, which applies the job's
    retention, and addJobScheduler, which replaces the iteration that is due.
    [script_keeps] says so of the store. *)

From S2P Require Import Prelude GoLib Keys Backoff Effects Json Jobs Redis RedisInv.
Import lua.

Section keeps.
Variable b : keys.Builder.

Definition keeps {A} (m : Lua A) : Prop := ∀ st id, is_job b st id → is_job b (m st).1.2 id.

Lemma keeps_bind {A B} (m : Lua A) (f : A → Lua B) : keeps m → (∀ a, keeps (f a)) → keeps (m ≫= f).
Proof.
  intros Hm Hf st id Hi. unfold mbind, Lua_bind. specialize (Hm st id Hi). destruct (m st) as [[a st1] l1].
  specialize (Hf a st1 id Hm). by destruct (f a st1) as [[c st2] l2].
Qed.

Lemma keeps_ret {A} (a : A) : keeps (mret a).
Proof. by intros st id ?. Qed.

(** What writes no HASH. *)
Lemma keeps_same {A} (m : Lua A) : (∀ st, hashes (m st).1.2 = hashes st) → keeps m.
Proof. intros Hm st id. unfold is_job, hgetall. by rewrite Hm. Qed.

Lemma keeps_gets {A} (f : store → A) : keeps (gets f).
Proof. by intros st id ?. Qed.
Lemma keeps_modify f : (∀ st, hashes (f st) = hashes st) → keeps (modify f).
Proof. intros Hf. by apply keeps_same. Qed.
Lemma keeps_emit e : keeps (emit e).
Proof. by intros st id ?. Qed.
Lemma keeps_RPOPLPUSH s d : keeps (RPOPLPUSH s d).
Proof. apply keeps_same. intros st. unfold RPOPLPUSH. by destruct (last _). Qed.
Lemma keeps_LREM_head k x : keeps (LREM_head k x).
Proof. apply keeps_same. intros st. unfold LREM_head. by case_bool_decide. Qed.
Lemma keeps_LREM_tail k x : keeps (LREM_tail k x).
Proof. apply keeps_same. intros st. unfold LREM_tail. by case_bool_decide. Qed.
Lemma keeps_ZREM k x : keeps (ZREM k x).
Proof. apply keeps_same. intros st. unfold ZREM. by case_bool_decide. Qed.
Lemma keeps_ZPOPMIN k : keeps (ZPOPMIN k).
Proof. apply keeps_same. intros st. unfold ZPOPMIN. by destruct (zsorted _) as [|[]]. Qed.
Lemma keeps_INCR k : keeps (INCR k).
Proof. by intros st id ?. Qed.
Lemma keeps_INCR64 k : keeps (INCR64 k).
Proof. apply keeps_same. intros st. unfold INCR64. by destruct (_ <=? _). Qed.
Lemma keeps_lpush k x : keeps (LPUSH k x).
Proof. by intros st id ?. Qed.
Lemma keeps_rpush k x : keeps (RPUSH k x).
Proof. by intros st id ?. Qed.
Lemma keeps_ZADD k s x : keeps (ZADD k s x).
Proof. by intros st id ?. Qed.
Lemma keeps_HGET k f : keeps (HGET k f).
Proof. by intros st id ?. Qed.
Lemma keeps_ZSCORE k f : keeps (ZSCORE k f).
Proof. by intros st id ?. Qed.
Lemma keeps_HEXISTS k : keeps (HEXISTS k).
Proof. by intros st id ?. Qed.

(** A HASH that keeps its timestamp. *)
Lemma keeps_hset (h : gmap string string) k st id :
  (is_Some (hgetall k st !! "timestamp") → is_Some (h !! "timestamp")) →
  is_job b st id → is_job b (hset k h st) id.
Proof. intros Hf. unfold is_job. rewrite hgetall_hset. by case_bool_decide as E; subst. Qed.

Lemma hmset_keeps kvs (h : gmap string string) f :
  is_Some (h !! f) → is_Some (foldl (λ h kv, <[kv.1 := kv.2]> h) h kvs !! f).
Proof.
  revert h. induction kvs as [|[k v] kvs IH]; intros h Hh; [done|]. cbn. apply IH.
  rewrite lookup_insert. by case_decide.
Qed.

Lemma keeps_HMSET k kvs : keeps (HMSET k kvs).
Proof. intros st id. unfold HMSET, modify. cbn [fst snd]. apply keeps_hset, hmset_keeps. Qed.
Lemma keeps_HINCRBY k f : keeps (HINCRBY k f).
Proof. intros st id. unfold HINCRBY. cbn [fst snd]. apply keeps_hset. intros Hs. rewrite lookup_insert. by case_decide. Qed.
Lemma keeps_HDEL k fs : "timestamp" ∉ fs → keeps (HDEL k fs).
Proof. intros Hn st id. unfold HDEL, modify. cbn [fst snd]. apply keeps_hset. by rewrite hdel_stamp. Qed.
End keeps.

Create HintDb keeps.
#[export] Hint Resolve keeps_RPOPLPUSH keeps_LREM_head keeps_LREM_tail keeps_ZREM keeps_ZPOPMIN keeps_INCR
  keeps_INCR64 keeps_lpush keeps_rpush keeps_ZADD keeps_HGET keeps_ZSCORE keeps_HEXISTS keeps_HMSET
  keeps_HINCRBY keeps_emit : keeps.
#[export] Hint Unfold pushCmd getOrSetMaxEvents addJobWithPriority getPriorityScore promoteDelayedJobs
  getRateLimitTTL admission isQueuePausedOrMaxed LLEN moveJobFromPrioritizedToActive updateJobFields
  getDelayedScore storeJob deduplicateJob getNextDelayedTimestamp prepareJobForProcessing removeLock
  fetchNextJob addJob : keeps.

Ltac keeps_solve :=
  repeat first
  [ apply keeps_ret | apply keeps_gets | solve [auto 1 with keeps nocore]
  | apply keeps_modify; intros ?; done
  | apply keeps_bind; [|intros ?]
  | match goal with |- keeps _ (match ?x with _ => _ end) => destruct x end
  | progress (autounfold with keeps; cbv zeta) ].

Section scripts.
Context `{Codec}.
Variable o : oracle.
Variable b : keys.Builder.

Lemma keeps_promote_each jobs w p pre pc : keeps b (promote_each jobs w p pre pc).
Proof. induction jobs as [|j jobs IH]; cbn [promote_each]; keeps_solve. Qed.
Lemma keeps_ZREM_all k xs : keeps b (ZREM_all k xs).
Proof. induction xs as [|x xs IH]; cbn [ZREM_all]; keeps_solve. Qed.
Lemma keeps_recover jobs w a pre r m : keeps b (recover jobs w a pre r m).
Proof. induction jobs as [|j jobs IH]; cbn [recover]; keeps_solve. Qed.
Hint Resolve keeps_promote_each keeps_ZREM_all keeps_recover : keeps.

Lemma keeps_fetch w a p l d m pc pre ts opts : keeps b (fetchNextJob o w a p l d m pc pre ts opts).
Proof. keeps_solve. Qed.
Hint Resolve keeps_fetch : keeps.

(** The scripts that may delete a job. *)
Definition deletes (n : ScriptName) : bool :=
  match n with Effects.RemoveJob | MoveToFinished | Effects.Drain | AddJobScheduler => true | _ => false end.

Lemma script_keeps (cjson : any → string) n ks args :
  proper_call b n ks args → deletes n = false → keeps b (script cjson o n ks args).
Proof.
  intros Hp Hd. destruct n; try done; cbn [script];
    first [apply keeps_ret | apply keeps_bind; [|intros ?; apply keeps_ret] | idtac].
  - unfold addStandardJob. keeps_solve.
  - unfold addDelayedJob. keeps_solve.
  - unfold addPrioritizedJob. keeps_solve.
  - unfold moveToActive. cbv zeta. keeps_solve.
  - unfold extendLock. keeps_solve.
  - unfold releaseLock. keeps_solve.
  - unfold retryJob. cbv zeta. keeps_solve.
  - unfold moveToDelayed. cbv zeta. keeps_solve.
  - unfold moveStalledJobsToWait. keeps_solve.
  - unfold updateJobScheduler. cbv zeta. keeps_solve.
  - unfold updateProgress. keeps_solve.
  - unfold updateData. keeps_solve.
  - unfold promote. cbv zeta. keeps_solve.
  - destruct Hp as (_ & _ & Hf). unfold reprocessJob. cbv zeta. keeps_solve.
    apply keeps_HDEL. destruct (String.eqb _ "1"), (String.eqb _ "1"); set_solver.
  - unfold pause. keeps_solve. apply keeps_HDEL. set_solver.
Qed.

(** ** The scripts that delete *)

(** [removeJob] deletes the job it is called for. *)
Lemma removeJob_keeps ks args st id :
  proper_call b Effects.RemoveJob ks args → id ≠ str (argv args 1) →
  is_job b st id → is_job b (removeJob ks args st).1.2 id.
Proof.
  intros Hp Hne. revert st. change (hoare (λ st, is_job b st id) (removeJob ks args) (λ _ st, is_job b st id)).
  assert (Hk : ∀ A (m : Lua A), keeps b m → hoare (λ st, is_job b st id) m (λ _ st, is_job b st id)) by (intros A m Hm st; apply Hm).
  unfold removeJob. rewrite (Hp : str (argv args 3) = _).
  apply hoare_keep; [apply Hk; keeps_solve|]. intros rjk. apply hoare_keep; [apply Hk; keeps_solve|]. intros z.
  destruct (match rjk with Some _ => _ | None => _ end); [by apply Hk, keeps_ret|].
  apply hoare_keep; [apply Hk; keeps_solve|]. intros [t|]; [by apply Hk, keeps_ret|].
  apply hoare_keep; [apply Hk; unfold removeJobFromAnyState; cbv zeta; keeps_solve|]. intros _.
  apply hoare_keep; [|intros; by apply Hk, keeps_ret]. intros st Hj. destruct (dropJob_state b (str (argv args 1)) st) as [f ->].
  unfold is_job. cbn [fst snd]. rewrite hgetall_hdel, bool_decide_eq_false_2; [done|]. intros E. by apply Hne, (Job_inj b).
Qed.

(** [drain] deletes the jobs that wait, with or without the delayed ones. *)
Lemma drain_keeps ks args st id :
  proper_call b Effects.Drain ks args → inv b [] st → drainable b st → is_job b st id →
  is_job b (drain ks args st).1.2 id ∨ drains b (String.eqb (str (argv args 2)) "1") st id.
Proof.
  intros [Hk Hp] Hi Hd Hj. destruct (drain_state b ks args st Hk Hp Hi Hd) as [_ Hs].
  rewrite (dn_jobs _ _ _ _ Hs). destruct (decide (drains b (String.eqb (str (argv args 2)) "1") st id)); tauto.
Qed.

(** [addJobScheduler] deletes the iteration that is due and has not begun. *)
Definition replaces (args : list any) (st : store) (id : string) : Prop :=
  match zget (keys.Repeat b) st !! str (argv args 3) with
  | Some m => id = iteration (str (argv args 3)) m ∧ queued b st id
  | None => False
  end.

#[export] Instance replaces_dec args st id : Decision (replaces args st id).
Proof. unfold replaces. destruct (_ !! _); apply _. Defined.

Lemma storeScheduler_keeps (cjson : any → string) sid next opts data tmpl id :
  has_colon sid = false →
  hoare (λ st, inv b [] st ∧ is_job b st id)
    (storeJobScheduler cjson sid (keys.Repeat b +:+ ":" +:+ sid) (keys.Repeat b) next opts data tmpl) (λ _ st, is_job b st id).
Proof.
  intros Hs. assert (Hk : ∀ A (m : Lua A), keeps b m → hoare (λ st, is_job b st id) m (λ _ st, is_job b st id)) by (intros A m Hm st; apply Hm).
  unfold storeJobScheduler. cbv zeta. rewrite schedule_job_key.
  apply hoare_keep.
  { intros st [Hi Hj]. split; [|done]. destruct (calm_ZADD_repeat b next sid st) as (E1 & E2 & E3).
    eapply inv_via; [exact Hi | by rewrite E1 | exact E3 | exact E2]. }
  intros _. do 2 (apply hoare_keep; [apply hoare_read|]; intros ?).
  eapply hoare_bind with (R := λ _ st, is_job b st id); [|intros _; apply Hk; keeps_solve].
  apply hoare_modify. intros st [Hi Hj]. unfold is_job. rewrite hgetall_hdel, bool_decide_eq_false_2; [done|].
  intros E%(Job_inj b). subst id. by apply (template_no_job b [] sid st).
Qed.

Lemma addJobScheduler_keeps (cjson : any → string) ks args st id :
  proper_call b AddJobScheduler ks args → inv b [] st → is_job b st id →
  is_job b (addJobScheduler cjson ks args st).1.2 id ∨ replaces args st id.
Proof.
  intros (Hk & Hp & Hs) Hi Hj. destruct (decide (replaces args st id)) as [|Hn]; [by right | left].
  apply (λ Hh : hoare (λ st, inv b [] st ∧ is_job b st id ∧ ¬ replaces args st id) (addJobScheduler cjson ks args)
    (λ _ st, is_job b st id), Hh st (conj Hi (conj Hj Hn))). clear st Hi Hj Hn.
  pose proof Hk as Hk0. repeat (apply Forall_cons in Hk0 as [? Hk0]). cbn [fst snd] in *.
  assert (Hkeep : ∀ A (m : Lua A), keeps b m → hoare (λ st, is_job b st id) m (λ _ st, is_job b st id)) by (intros A m Hm st; apply Hm).
  unfold addJobScheduler. cbv zeta. rewrite Hp. match goal with E : key ks 1 = _ |- _ => rewrite E end.
  set (sid := str (argv args 3)) in *.
  apply hoare_keep.
  { intros st (Hi & Hj & Hn). destruct (calm_maxEvents b (key ks 5) st) as (E1 & E2 & E3).
    destruct (maxEvents_places (key ks 5) st) as [El Ez].
    split_and!; [eapply inv_via; [exact Hi | by rewrite E1 | exact E3 | exact E2] | by apply E3|].
    unfold replaces, queued, zget, lget. by rewrite El, Ez. }
  intros _. eapply hoare_bind; [apply hoare_gets|]. intros prev. cbn beta.
  eapply hoare_bind; [apply hoare_read|]. intros prevEvery. cbn beta.
  eapply hoare_bind with (R := λ _ st, inv b [] st ∧ is_job b st id).
  { destruct prev as [p|]; [|apply hoare_ret; by intros st [(Hi & Hj & _) _]].
    unfold HEXISTS. eapply hoare_bind; [apply hoare_read|]. intros [|]; [|apply hoare_ret; by intros st [(Hi & Hj & _) _]].
    intros st [(Hi & Hj & Hn) Hprev].
    destruct (removeJobFromScheduler_state b ks (iteration sid p) st) as (Hi' & Hj' & Hq); [by repeat constructor | done|].
    split; [done|]. apply Hj'. split; [done|]. intros [Hr ->]. apply Hn. unfold replaces. fold sid. rewrite <-Hprev. split; [done | by apply Hq]. }
  intros removed. apply hoare_keep; [intros st Hst; by rewrite chooseSlot_reads|].
  intros [[n c]|]; [|apply hoare_ret; by intros st []]. destruct (negb c || removed); [|apply hoare_ret; by intros st []].
  eapply hoare_bind; [by apply storeScheduler_keeps|]. intros ?.
  apply Hkeep. unfold addJobFromScheduler. cbv zeta. keeps_solve.
Qed.


(** A job outside the set a finished job goes to. *)
Definition aside (k id : string) (st : store) : Prop := is_job b st id ∧ zget k st !! id = None.

Lemma hoare_aside {A} k id (m : Lua A) :
  keeps b m → (∀ st, zsets (m st).1.2 = zsets st) → hoare (aside k id) m (λ _, aside k id).
Proof. intros Hk Hz st [Hj Hn]. split; [by apply Hk|]. unfold zget. by rewrite Hz. Qed.

Lemma aside_expel k id jobs :
  id ∉ jobs → hoare (aside k id) (expel k (keys.Base b) jobs) (λ _, aside k id).
Proof.
  induction jobs as [|j jobs IH]; intros Hn; cbn [expel]; [by apply hoare_ret|].
  apply not_elem_of_cons in Hn as [Hne Hn]. apply hoare_keep; [|intros n; apply hoare_keep; [|intros; by apply IH]].
  - intros st [Hj Hz]. unfold ZREM. case_bool_decide; cbn; [|done]. split; [done|].
    rewrite zget_zset, bool_decide_eq_true_2, lookup_delete_ne; done.
  - apply hoare_modify. intros st [Hj Hz]. split; [|done]. unfold is_job. rewrite hgetall_hdel, bool_decide_eq_false_2; [done|].
    intros E. by apply Hne, eq_sym, (Job_inj b).
Qed.

Lemma aside_listed k id st jobs : aside k id st → listed k jobs st → id ∉ jobs.
Proof. intros [_ Hn] [_ Hall] Hin. rewrite Forall_forall in Hall. apply Hall in Hin as [s Hs]. congruence. Qed.

Lemma aside_maxAge k id ts age limit :
  hoare (aside k id) (removeJobsByMaxAge ts age k (keys.Base b) limit) (λ _, aside k id).
Proof.
  unfold removeJobsByMaxAge. eapply hoare_bind; [apply hoare_gets|]. intros jobs st [Ha ->].
  apply aside_expel; [|done]. eapply aside_listed; [exact Ha|].
  eapply listed_sub; [|apply listed_filter with (P := λ x, x.2 ≤ ts - age * 1000)].
  etrans; [apply submseteq_take|]. by rewrite <-Permutation_rev.
Qed.

Lemma aside_maxCount k id n : hoare (aside k id) (removeJobsByMaxCount n k (keys.Base b)) (λ _, aside k id).
Proof.
  unfold removeJobsByMaxCount. eapply hoare_bind; [apply hoare_gets|]. intros jobs st [Ha ->].
  apply aside_expel; [|done]. eapply aside_listed; [exact Ha|].
  eapply listed_sub; [|apply listed_all]. etrans; [apply submseteq_drop|]. by rewrite <-Permutation_rev.
Qed.

Lemma aside_retain k id j ts target prop value keep :
  id ≠ j →
  hoare (aside k id) (retain k (keys.Base b) j (keys.Job b j) ts target prop value keep) (λ _, aside k id).
Proof.
  intros Hne. unfold retain. cbv zeta.
  destruct (isZero _).
  { apply hoare_modify. intros st [Hj Hz]. split; [|done]. unfold is_job. rewrite hgetall_hdel, bool_decide_eq_false_2; [done|].
    intros E. by apply Hne, eq_sym, (Job_inj b). }
  apply hoare_keep.
  { apply hoare_modify. intros st [Hj Hz]. split; [done|]. by rewrite zget_zset, bool_decide_eq_true_2, lookup_insert_ne. }
  intros _. apply hoare_keep; [by apply hoare_aside; [keeps_solve|]|]. intros _.
  apply hoare_keep.
  { destruct (String.eqb _ "failed"); [|by apply hoare_ret]. by apply hoare_aside; [apply keeps_HDEL; set_solver|]. }
  intros _. apply hoare_keep; [destruct (num _); [apply aside_maxAge | by apply hoare_ret]|]. intros _.
  destruct (num _) as [c|]; [|by apply hoare_ret]. destruct (0 <? c); [apply aside_maxCount | by apply hoare_ret].
Qed.

Lemma moveToFinished_keeps ks args st id :
  proper_call b MoveToFinished ks args → id ≠ str (argv args 1) → zget (key ks 11) st !! id = None →
  is_job b st id → is_job b (moveToFinished o ks args st).1.2 id.
Proof.
  intros (Hk & _ & _ & Hpre & _) Hne Hz Hj.
  assert (Hend : ∀ A (m : Lua A), keeps b m → hoare (aside (key ks 11) id) m (λ _ st, is_job b st id))
    by (intros A m Hm st' [Hj' _]; by apply Hm).
  apply (λ Hh : hoare (aside (key ks 11) id) (moveToFinished o ks args) (λ _ st, is_job b st id), Hh st (conj Hj Hz)).
  clear st Hj Hz. repeat (apply Forall_cons in Hk as [? Hk]). cbn [fst snd] in *.
  match goal with E : key ks 12 = _ |- _ => rename E into Ek end.
  unfold moveToFinished. cbv zeta. rewrite Hpre, Ek.
  apply hoare_keep; [by apply hoare_aside; [keeps_solve|]|]. intros ex. destruct (negb ex); [by apply Hend, keeps_ret|].
  apply hoare_keep.
  { apply hoare_aside; [keeps_solve|]. intros st. unfold removeLock, mbind, Lua_bind, gets.
    destruct (String.eqb _ _); [done|]. destruct (locks st !! _); [|done]. by destruct (String.eqb _ _). }
  intros code. destruct (code <? 0); [by apply Hend, keeps_ret|].
  apply hoare_keep; [apply hoare_aside; [keeps_solve|]; intros st; unfold updateJobFields; by repeat case_match|]. intros _.
  apply hoare_keep; [apply hoare_aside; [keeps_solve|]; intros st; unfold LREM_tail; by case_bool_decide|]. intros n.
  destruct (n <? 1); [by apply Hend, keeps_ret|].
  apply hoare_keep.
  { apply hoare_aside; [keeps_solve|]. intros st. unfold getOrSetMaxEvents, HGET, mbind, Lua_bind, gets.
    by destruct (_ !! _). }
  intros _. apply hoare_keep; [by apply hoare_aside; [keeps_solve|]|]. intros d.
  apply hoare_keep.
  { apply hoare_aside; [unfold dropDedupOnFinish; keeps_solve|]. intros st.
    unfold dropDedupOnFinish, mbind, Lua_bind, gets. destruct d; [|done]. destruct (_ =? 0); [done|].
    destruct (_ =? -1); [|done]. by case_bool_decide. }
  intros _. apply hoare_keep; [by apply hoare_aside; [keeps_solve|]|]. intros _.
  apply hoare_keep; [|intros _; apply Hend; keeps_solve].
  by apply aside_retain.
Qed.
End scripts.
