(* ===== verification/Concurrent.v ===== *)
(** * Many goroutines, one queue

    Any number of goroutines of any number of processes run the operations of
    one queue against one Redis. A state of the system ([sys]) holds what each
    goroutine has left to do, the store, the tokens drawn so far and the
    history of the locks; an [action] moves one goroutine over its next request
    or lets a key expire. A script call runs whole, as Redis runs it, and its
    reply may get lost; a refused call changes nothing; reads are answered by
    anything; a goroutine that never moves again is a crashed one. Two calls
    have to come at the right time ([allowed]): a drain not while the current
    iteration of a schedule waits, and a cron schedule not on the slot of a job
    it has left behind.

    [good]: a Go program calls the scripts with the keys and arguments they ask
    for, and with tokens it drew itself. [sys_ok] holds in every reachable
    state: every job is in exactly one place, and an outcome counts only if it
    comes from the goroutine that took the job last. *)

From S2P Require Import Prelude GoLib Keys Backoff Effects Json Jobs Proto Cron Config Finalise Worker Dispatch Shutdown Queue Schedule Inspect Redis RedisInv Fencing.
Import lua.

(** ** Lawful programs *)

Section good.
Context `{Codec}.
Variable b : keys.Builder.

(** The keys a Go function deletes itself: a schedule and a wake-up set. *)
Definition waking (k : string) : Prop := ∃ u, k = keys.Base b +:+ "mkq:wake:" +:+ u.
Definition disposable (k : string) : Prop :=
  (∃ sid, has_colon sid = false ∧ k = keys.Schedule b sid) ∨ waking k.

Definition lawful_cmd (c : cmd) : Prop :=
  match c with
  | CHSetNX _ f _ => ordinary f
  | CDel k => disposable k
  | CZRem k _ => k = keys.Repeat b
  | _ => True
  end.

Definition lawful (own : list string) (r : req) : Prop :=
  match r with
  | RScript _ n ks args => proper_call b n ks args ∧ fenced_call b (λ t, t ∈ own) n ks args
  | RPipeline _ cmds => Forall lawful_cmd cmds
  | RZAdd _ k _ => waking k
  | RDel _ k => disposable k
  | REvalSha _ _ _ _ | RScriptLoad _ _ => False
  | _ => True
  end.

(** The tokens a goroutine has drawn once it has its answer. *)
Definition learn (r : req) : resp r → list string → list string :=
  match r with RUuid => λ x own, x :: own | _ => λ _ own, own end.

(** [good own m Q]: [m] is lawful for a goroutine with the tokens [own], whatever
    it is answered, and ends with tokens and a result that satisfy [Q]. *)
Fixpoint good {A} (own : list string) (m : M A) (Q : list string → A → Prop) : Prop :=
  match m with
  | Ret a => Q own a
  | Vis r k => lawful own r ∧ ∀ x, good (learn r x own) (k x) Q
  end.

Lemma good_mono {A} own (m : M A) (Q Q' : list string → A → Prop) :
  (∀ own a, Q own a → Q' own a) → good own m Q → good own m Q'.
Proof.
  revert own. induction m as [a|r k IH]; intros own HQ; cbn; [apply HQ|]. intros [Hl Hk]. eauto.
Qed.

Lemma good_bind {A B} own (m : M A) (f : A → M B) Q :
  good own m (λ own' a, good own' (f a) Q) → good own (m ≫= f) Q.
Proof.
  revert own. induction m as [a|r k IH]; intros own; cbn; [done|]. intros [Hl Hk].
  split; [done|]. intros x. apply IH, Hk.
Qed.

Lemma good_ret {A} own (a : A) (Q : list string → A → Prop) : Q own a → good own (mret a) Q.
Proof. done. Qed.

Lemma good_ask own r (Q : list string → resp r → Prop) :
  lawful own r → (∀ x, Q (learn r x own) x) → good own (ask r) Q.
Proof. done. Qed.

(** A round of a loop keeps what the loop needs. *)
Lemma good_loop {S A} (body : S → M (S + A)) (I : list string → S → Prop) (Q : list string → S + A → Prop) fuel :
  (∀ own s, I own s → good own (body s) (λ own' r, match r with inl s => I own' s | inr a => Q own' (inr a) end)) →
  (∀ own s, I own s → Q own (inl s)) →
  ∀ own s, I own s → good own (loop fuel body s) Q.
Proof.
  intros Hb Hq. induction fuel as [|n IH]; intros own s Hs; cbn [loop]; [by apply good_ret, Hq|].
  apply good_bind. eapply good_mono; [|by apply Hb]. intros own' [s'|a]; [apply IH | apply good_ret].
Qed.

(** [m] draws no token, and its result satisfies [φ]. *)
Definition steady {A} (own : list string) (m : M A) (φ : A → Prop) : Prop :=
  good own m (λ own' a, own' = own ∧ φ a).

Lemma steady_bind {A B} own (m : M A) (f : A → M B) φ ψ :
  steady own m φ → (∀ a, φ a → steady own (f a) ψ) → steady own (m ≫= f) ψ.
Proof. intros Hm Hf. apply good_bind. eapply good_mono; [|exact Hm]. intros own' a [-> Ha]. by apply Hf. Qed.

Lemma steady_seq {A B} own (m : M A) (f : A → M B) ψ :
  steady own m (λ _, True) → (∀ a, steady own (f a) ψ) → steady own (m ≫= f) ψ.
Proof. intros Hm Hf. eapply steady_bind; [exact Hm | auto]. Qed.

Lemma steady_ret {A} own (a : A) (φ : A → Prop) : φ a → steady own (mret a) φ.
Proof. done. Qed.

Lemma steady_mono {A} own (m : M A) (φ ψ : A → Prop) : (∀ a, φ a → ψ a) → steady own m φ → steady own m ψ.
Proof. intros Hi. apply good_mono. intros own' a [-> Ha]. auto. Qed.

Definition draws (r : req) : bool := match r with RUuid => true | _ => false end.

Lemma steady_ask own r (φ : resp r → Prop) :
  lawful own r → draws r = false → (∀ x, φ x) → steady own (ask r) φ.
Proof. intros Hl Hd Hφ. apply good_ask; [done|]. intros x. split; [by destruct r | apply Hφ]. Qed.

End good.

(** Follow a program whose requests no law is about, up to the calls of others. *)
Ltac law_step :=
  lazymatch goal with
  | |- steady _ _ (mret _) _ => apply steady_ret
  | |- steady _ _ (ask _) _ => apply steady_ask; [exact I | reflexivity | ]
  | |- steady _ _ (_ ≫= _) _ => apply steady_seq; [|intros ?]
  | |- steady _ _ (match ?x with _ => _ end) _ => destruct x
  | |- steady _ _ (let x := ?t in @?f x) _ => change (steady _ _ (f t) _); cbv beta
  end.
Ltac law_solve := repeat first [done | law_step].

(** ** What the scripts read of the packed arguments *)

Lemma field_lua v f : field (lua_value v) f = lua_value (field v f).
Proof.
  destruct v as [| | | | | | | | | |m|]; cbn; try done. 1-4: unfold lua_int; by destruct (_ <=? _).
  induction m as [|[k v] m IH]; cbn; [done|]. by destruct (String.eqb f k).
Qed.

Section worker.
Context `{Codec} `{GoArch} `{CronLib} {T : Type} `{Payload T}.
Variable w : Worker.
Variable q : Queue.

Lemma active_token token bs :
  proto.EncodeMoveToActiveOpts (activeOpts w token) = inr bs → str (field (unpack bs) "token") = token.
Proof.
  intros E. apply unpack_law in E as ->. rewrite field_lua. cbn [field].
  assert (map_get (proto.moveToActive_map (activeOpts w token)) "token" = Some (AStr token)) as ->; [|done].
  unfold proto.moveToActive_map, proto.set_if, proto.set_opt.
  destruct (negb _), (_ <$> proto.Limiter _); cbn [proto.WorkerName]; by rewrite ?map_get_set_ne.
Qed.

Lemma finish_token token att keep bs :
  proto.EncodeMoveToFinishedOpts (finishOpts w token att keep) = inr bs → str (field (unpack bs) "token") = token.
Proof.
  intros E. apply unpack_law in E as ->. rewrite field_lua. cbn [field].
  assert (map_get (proto.moveToFinished_map (finishOpts w token att keep)) "token" = Some (AStr token)) as ->; [|done].
  unfold proto.moveToFinished_map, proto.set_if.
  destruct (negb _), (proto.FLimiter _) as [l|]; try destruct (_ && _); by rewrite ?map_get_set_ne.
Qed.

Lemma fields_law l bs :
  proto.EncodeJobFields l = inr bs → unstamped (pairs (lua_value <$> l)) → fields_ok bs.
Proof.
  unfold proto.EncodeJobFields, fields_ok. destruct (negb _); [done|]. destruct l as [|x l].
  { intros [= <-] _. by left. }
  intros E Hu. right. intros l' E'. apply unpack_law in E. rewrite E in E'. cbn in E'. by injection E' as <-.
Qed.

(** ** The worker *)

Hypothesis Hw : wkeys w = newQueueKeys q.
#[local] Set Default Proof Using "Type*".

Abbreviation steady := (steady (q_keys q)).
Abbreviation good := (good (q_keys q)).
Abbreviation lawful := (lawful (q_keys q)).

(** A prefetched job comes with a token of one's own. *)
Definition held (own : list string) (r : option prefetchedJob) : Prop :=
  ∀ pj, r = Some pj → pf_token pj ∈ own.

Lemma lawful_finished own jobID token (target prop value flag : string) ts opts fields :
  target = "failed" ∨ target = "completed" → ordinary prop → fields_ok fields →
  str (field (unpack opts) "token") = token → token ∈ own →
  lawful own (RScript CtxBackground MoveToFinished (moveToFinishedKeys (wkeys w) jobID target)
    [AStr jobID; AInt64 ts; AStr prop; AStr value; AStr target; AStr flag; AStr (prefix (wkeys w));
     ABytes opts; ABytes fields]).
Proof.
  intros Ht Hp Hf Hk Ho. rewrite Hw. unfold moveToFinishedKeys. split.
  - cbn [proper_call]. split_and!; [..|done]; [|destruct Ht as [-> | ->]; [by right | by left] | done | done].
    destruct (String.eqb target "failed"); repeat constructor.
  - cbn. rewrite Hk. destruct (String.eqb target "failed"); done.
Qed.

Lemma steady_finish own jobID token att keep target prop value extra :
  token ∈ own → target = "failed" ∨ target = "completed" → ordinary prop →
  unstamped (pairs (lua_value <$> extra)) →
  steady own (runMoveToFinished w jobID token att keep target prop value extra) (λ r, held own r.1).
Proof.
  intros Ho Ht Hp Hu. unfold runMoveToFinished. law_step; [law_solve|].
  destruct (proto.EncodeMoveToFinishedOpts _) as [e|opts] eqn:Eo; [by law_step|].
  destruct (proto.EncodeJobFields extra) as [e|fields] eqn:Ef; [by law_step|].
  law_step; [unfold fetchNextFlag; law_solve|]. apply steady_seq.
  { apply steady_ask; [|done|done]. apply lawful_finished with token; [done | done | by eapply fields_law | by eapply finish_token | done]. }
  intros [e|v]; [by law_step|].
  assert (Hparse : steady own match parseMoveToActiveResult v with
    | inl e => mret (None, Some (Errorw (("moveToFinished(" +:+ target +:+ ")") +:+ " parse fetchNext") e))
    | inr a => mret (if ar_ok a then Some (mkPrefetched (ar_jobMap a) (ar_jobID a) token) else None, None)
    end (λ r, held own r.1)).
  { destruct (parseMoveToActiveResult v) as [e|got]; [by law_step|]. law_step. cbn. destruct (ar_ok got); [|done].
    by intros pj [= <-]. }
  destruct v; try exact Hparse. law_step; by law_step.
Qed.

Lemma steady_finishCompleted own jobID token o ret :
  token ∈ own → steady own (finishCompleted w jobID token o ret) (λ r, held own r.1).
Proof. intros Ho. apply steady_finish; [done | by right | done | constructor]. Qed.

Lemma steady_finishFailed own jobID token o reason hist :
  token ∈ own → steady own (finishFailed w jobID token o reason hist) (λ r, held own r.1).
Proof. intros Ho. apply steady_finish; [done | by left | done | by repeat constructor]. Qed.

Lemma retryFields_law reason hist bs : retryFields reason hist = inr bs → fields_ok bs.
Proof. intros E. eapply fields_law; [exact E | by repeat constructor]. Qed.

Lemma steady_retryImmediate own jobID token lf reason hist :
  token ∈ own → steady own (retryImmediate w jobID token lf reason hist) (λ _, True).
Proof.
  intros Ho. unfold retryImmediate. law_step; [law_solve|].
  destruct (retryFields reason hist) as [e|fields] eqn:Ef; [by law_step|]. law_step; [|by law_step].
  apply steady_ask; [|done|done]. rewrite Hw. split; [|done]. cbn [proper_call].
  split; [by repeat constructor | by eapply retryFields_law].
Qed.

Lemma lawful_delayed own jobID token ts delay skip fields :
  token ∈ own → fields_ok (str fields) →
  lawful own (RScript CtxBackground MoveToDelayed (moveToDelayedKeys (wkeys w) jobID)
    [AStr (prefix (wkeys w)); AInt64 ts; AStr jobID; AStr token; AInt64 delay; AStr skip; fields; AStr ""; AStr ""]).
Proof.
  intros Ho Hf. rewrite Hw. split; [|by cbn; split_and!]. cbn [proper_call]. split; [by repeat constructor | done].
Qed.

Lemma steady_putBack own jobID token d :
  token ∈ own → steady own (moveToDelayedKeepingAttempts w jobID token d) (λ _, True).
Proof.
  intros Ho. unfold moveToDelayedKeepingAttempts. law_step; law_step; [law_solve|  |by law_step].
  apply steady_ask; [|done|done]. apply lawful_delayed; [done | by left].
Qed.

Lemma steady_retryDelayed own jobID token d reason hist :
  token ∈ own → steady own (retryDelayed w jobID token d reason hist) (λ _, True).
Proof.
  intros Ho. unfold retryDelayed. law_step; [law_solve|].
  destruct (retryFields reason hist) as [e|fields] eqn:Ef; [by law_step|]. law_step; [|by law_step].
  apply steady_ask; [|done|done]. apply lawful_delayed; [done | by eapply retryFields_law].
Qed.

Lemma steady_releaseLock own jobID token : steady own (Finalise.releaseLock w jobID token) (λ _, True).
Proof. unfold Finalise.releaseLock. law_step; [|by law_step]. by apply steady_ask. Qed.

Lemma steady_delay own st bc : steady own (computeRetryDelay w st bc) (λ _, True).
Proof.
  unfold computeRetryDelay, callRetryDelayOverride, callBackoffStrategy. law_solve.
Qed.

Lemma steady_finalise own jobID token jobMap out :
  token ∈ own → steady own (finalise w jobID token jobMap out) (λ r, held own r.1.1).
Proof.
  intros Ho. unfold finalise. law_step.
  { eapply steady_bind; [by apply steady_finishCompleted|]. intros [p e] Hp. law_step. by destruct e. }
  law_step.
  { law_step; [by apply steady_putBack|]. law_step. by destruct a. }
  law_step; [unfold fetchAtm; law_solve|].
  assert (Hfail : ∀ o reason hist, steady own (r ← finishFailed w jobID token o reason hist;
    mret (statusOf finaliseStatusFailed r)) (λ r, held own r.1.1)).
  { intros o reason hist. eapply steady_bind; [by apply steady_finishFailed|]. intros [p e] Hp. law_step. by destruct e. }
  law_step; [apply Hfail|]. law_step; [apply steady_delay|]. law_step; [apply Hfail|].
  law_step; (law_step; [by apply steady_retryDelayed || by apply steady_retryImmediate|]);
    law_step; match goal with |- held _ (statusOf _ (_, ?e)).1.1 => by destruct e end.
Qed.

Lemma lawful_reschedule own millis sid opts now j :
  lawful own (RScript CtxBackground UpdateJobScheduler (rescheduleKeys w)
    [AStr millis; AStr sid; AStr "{}"; ABytes opts; AInt64 now; AStr (prefix (wkeys w)); AStr j]).
Proof. unfold rescheduleKeys. rewrite Hw. split; [by repeat constructor | done]. Qed.

Lemma steady_reschedule own sid j : steady own (rescheduleNext w sid j) (λ _, True).
Proof.
  unfold rescheduleNext. pose proof (lawful_reschedule own) as Hl.
  repeat first [done | by apply steady_ask | law_step].
Qed.

Lemma steady_processJob own token jobID jobMap :
  token ∈ own → steady own (processJob (T := T) w token jobID jobMap) (held own).
Proof.
  intros Ho. unfold processJob. law_step; [unfold observeWait; law_solve|]. do 3 (law_step; [law_solve|]).
  law_step; [unfold runHandler, invokeHandler, newHandlerShim; law_solve|]. do 4 (law_step; [law_solve|]).
  unfold afterJoin. eapply steady_bind; [by apply steady_finalise|]. intros [[p st] e] Hp.
  law_step; [destruct e; [unfold finaliseFailed|]; repeat first [done | apply steady_releaseLock | law_step]|].
  law_step; [unfold countOutcome; law_solve|].
  law_step; [law_step; [apply steady_reschedule | law_solve]|]. do 2 (law_step; [law_solve|]). by law_step.
Qed.

Lemma steady_runJob own token jobID jobMap :
  token ∈ own → steady own (runJob (T := T) w token jobID jobMap) (held own).
Proof.
  intros Ho. unfold runJob. law_step; [law_solve|]. eapply steady_bind with (φ := held own).
  { law_step; [|by apply steady_processJob]. unfold failStalled.
    eapply steady_bind; [by apply steady_finishFailed|]. intros [p e] Hp.
    law_step; [law_step; [apply steady_releaseLock | law_solve]|]. by law_step. }
  intros p Hp. law_step; [law_solve|]. by law_step.
Qed.

(** A fetch draws its token first. *)
Lemma good_tryOnce own :
  good own (tryOnce (T := T) w) (λ own' r, ∀ a, r = inr a → held own' (gotPrefetched a)).
Proof.
  unfold tryOnce. apply good_bind, good_ask; [done|]. intros token. cbn [learn].
  eapply good_mono with (Q := λ own' r, own' = token :: own ∧ ∀ a, r = inr a → held (token :: own) (gotPrefetched a));
    [by intros own' r [-> Hr]|].
  apply (steady_seq (q_keys q) (token :: own)); [law_solve|]. intros now.
  destruct (proto.EncodeMoveToActiveOpts _) as [e|opts] eqn:Eo; [by law_step|]. law_step.
  { apply steady_ask; [|done|done]. rewrite Hw. split; [by repeat constructor|]. cbn. split; [done|].
    rewrite (active_token _ _ Eo). by left. }
  assert (Hnone : ∀ p y z, steady (token :: own) (mret (inr (mkAttempt p None y z)))
    (λ r : res attempt, ∀ a, r = inr a → held (token :: own) (gotPrefetched a))).
  { intros p y z. law_step. by intros got [= <-]. }
  law_step; [law_step; [apply Hnone | by law_step]|]. law_step; [by law_step|].
  law_step; [apply Hnone|]. eapply steady_bind; [apply steady_runJob; by left|]. intros p Hp.
  law_step. by intros got [= <-].
Qed.

Definition slot_ok (own : list string) (s : slot) : Prop := held own (Dispatch.prefetched s).

(** A turn that leaves a slot as it was, or with other pacing. *)
Lemma steady_pause own (m : M bool) (s : slot) :
  steady own m (λ _, True) → slot_ok own s →
  good own (ok ← m; unless_stopped ok s) (λ own' r, match r with inl s => slot_ok own' s | inr _ => True end).
Proof.
  intros Hm Hs. apply good_bind. eapply good_mono; [|exact Hm]. intros own' ok [-> _]. apply good_ret. by destruct ok.
Qed.

Lemma good_steady {A B} own (m : M A) (f : A → M B) Q :
  steady own m (λ _, True) → (∀ a, good own (f a) Q) → good own (m ≫= f) Q.
Proof. intros Hm Hf. apply good_bind. eapply good_mono; [|exact Hm]. intros own' a [-> _]. apply Hf. Qed.

Lemma steady_running own : steady own running (λ _, True).
Proof. unfold running. law_solve. Qed.
Lemma steady_sleep own d : steady own (sleep d) (λ _, True).
Proof. unfold sleep. law_step; [apply steady_running | law_solve]. Qed.
Lemma steady_await own d : steady own (awaitMarker w d) (λ _, True).
Proof. unfold awaitMarker. law_step; [apply steady_running|]. law_step; [law_solve | apply steady_running]. Qed.

Definition turn_ok (own : list string) (r : slot + option prefetchedJob) : Prop :=
  match r with inl s => slot_ok own s | inr _ => True end.

Lemma good_fetch_turn own i : good own (fetch_turn (T := T) w (mkSlot None i)) turn_ok.
Proof.
  unfold fetch_turn. apply good_bind. eapply good_mono; [|apply good_tryOnce]. intros own' [e|a] Ha.
  { apply good_steady; [law_solve|]. intros _. apply steady_pause; [apply steady_sleep | done]. }
  destruct (processed a); [apply good_ret, Ha; done|].
  destruct (0 <? expireTimeMs a); [apply steady_pause; [apply steady_sleep | done]|].
  destruct (0 <? nextDelayedTs a); [|apply steady_pause; [apply steady_await | done]].
  apply good_steady; [law_solve|]. intros now. destruct (_ <=? 0); [by apply good_ret|].
  destruct (_ <? markerWaitFloor); (apply steady_pause; [apply steady_sleep || apply steady_await | done]).
Qed.

Lemma good_dispatch_turn own s : slot_ok own s → good own (dispatch_turn (T := T) w s) turn_ok.
Proof.
  intros Hs. destruct s as [p i]. unfold dispatch_turn. apply good_steady; [apply steady_running|]. intros alive.
  apply good_steady; [law_solve|]. intros leave. destruct leave; [by apply good_ret|]. cbn [Dispatch.prefetched].
  destruct p as [pj|]; [|apply good_fetch_turn]. apply good_bind.
  eapply good_mono; [|apply steady_runJob, Hs; done]. intros own' next [-> Hn]. by apply good_ret.
Qed.

Lemma good_dispatchLoop own fuel : good own (dispatchLoop (T := T) w fuel) (λ _ _, True).
Proof.
  unfold dispatchLoop, dispatchFrom. apply good_bind.
  apply good_loop with (I := slot_ok); [| |done].
  - intros own' s Hs. eapply good_mono; [|by apply good_dispatch_turn]. intros own'' [s'|p]; [done|]. intros _.
    apply good_steady; [|done]. unfold releasePrefetchedLock. law_step; [|law_solve].
    law_step; [law_solve | apply steady_releaseLock].
  - intros own' s _. by apply good_ret.
Qed.

Lemma good_stalledLoop own fuel : good own (stalledLoop w fuel) (λ _ _, True).
Proof.
  apply good_loop with (I := λ _ _, True); [|done..]. intros own' d _. unfold stalled_turn.
  apply good_steady; [law_solve|]. intros fired. destruct (negb fired); [by apply good_ret|].
  apply good_steady.
  { unfold runStalledCheck. law_step; [law_solve|]. law_step; [|by law_step].
    apply steady_ask; [|done|done]. rewrite Hw. split; [by repeat constructor | done]. }
  intros e. apply good_steady; [law_solve|]. intros _. by apply good_ret.
Qed.

Lemma good_heartbeat own fuel token jobID : good own (heartbeat w fuel token jobID) (λ _ _, True).
Proof.
  apply good_loop with (I := λ _ _, True); [|done..]. intros own' [] _. unfold heartbeat_turn.
  apply good_steady; [law_solve|]. intros fired. destruct (negb fired); [by apply good_ret|].
  apply good_steady; [by apply steady_ask|]. intros [e|v].
  { by apply good_steady; [law_solve|]. }
  destruct v; try (by apply good_ret). destruct (_ =? 0); [|by apply good_ret]. by apply good_steady; [law_solve|].
Qed.
End worker.

(** ** Producers and administrators *)

Section producer.
Context `{Codec} `{GoArch} {T : Type} `{Payload T}.
Variable q : Queue.
Abbreviation steady := (steady (q_keys q)).

(** The custom id of an [Add] is acceptable, or there is none. *)
Definition id_ok (opts : list AddOption) : bool :=
  let id := ac_jobID (applyOptions opts zeroAdd) in String.eqb id "" || custom_ok (q_keys q) id.

Lemma lawful_add own delayMs prio id name ts dedupKey args data opts :
  proto.EncodeAddArgs (proto.mkAddArgs (keys.Base (q_keys q)) id name ts "" "" None "" dedupKey) = inr args →
  String.eqb id "" || custom_ok (q_keys q) id = true →
  lawful (q_keys q) own (RScript CtxCaller (dispatch q delayMs prio).1 (dispatch q delayMs prio).2
    [ABytes args; ABytes data; ABytes opts]).
Proof.
  intros E Hid. apply unpack_law in E. assert (Ha : add_args_ok (q_keys q) [ABytes args; ABytes data; ABytes opts]).
  { unfold add_args_ok. cbn [argv str]. unfold argv. cbn. rewrite E. cbn. split; [done|].
    destruct (String.eqb_spec id ""); [by left | by right]. }
  unfold dispatch. destruct (0 <? delayMs); [|destruct (0 <? prio)]; (split; [split; [by repeat constructor | done] | done]).
Qed.

Lemma steady_addBody own payload c delayMs :
  String.eqb (ac_jobID c) "" || custom_ok (q_keys q) (ac_jobID c) = true →
  steady own (addBody (T := T) q payload c delayMs) (λ _, True).
Proof.
  intros Hid. unfold addBody. law_step; [law_solve|]. law_step; [law_solve|]. law_step; [law_solve|].
  destruct (proto.EncodeAddArgs _) as [e|args] eqn:Ea; [law_solve|]. law_step; [law_solve|].
  law_step; [law_solve|]. pose proof (lawful_add own delayMs (ac_priority c) _ _ _ _ _ s s0 Ea Hid) as Hl.
  destruct (dispatch q delayMs (ac_priority c)) as [n ks]. law_step; [by apply steady_ask|]. law_solve.
Qed.

Lemma steady_Add own payload opts : id_ok opts = true → steady own (Add (T := T) q payload opts) (λ _, True).
Proof.
  intros Hid. unfold Add. law_step; [law_solve|]. law_step; [law_step; [law_solve | by apply steady_addBody]|].
  law_solve.
Qed.

Lemma steady_bootstrap own : steady own (bootstrap q) (λ _, True).
Proof. unfold bootstrap. law_step; [|law_solve]. apply steady_ask; [by repeat constructor | done | done]. Qed.

Lemma steady_RemoveJob own j : steady own (RemoveJob q j) (λ _, True).
Proof. unfold RemoveJob. law_step; [law_solve|]. law_step; [by apply steady_ask | law_solve]. Qed.

Lemma steady_PromoteJob own j : steady own (PromoteJob q j) (λ _, True).
Proof.
  unfold PromoteJob. law_step; [law_solve|]. law_step; [|law_solve].
  apply steady_ask; [split; [by repeat constructor | done] | done | done].
Qed.

Lemma steady_RetryJob own j opts : steady own (RetryJob q j opts) (λ _, True).
Proof.
  unfold RetryJob. law_step; [law_solve|].
  destruct (String.eqb _ JobBucketFailed); [|destruct (String.eqb _ JobBucketCompleted); [|law_solve]];
    (law_step; [|law_solve]; apply steady_ask; [|done|done]; split; [|done];
     split_and!; [by repeat constructor | cbn; auto | done]).
Qed.

Lemma steady_pauseRounds own n src dst ev :
  (ev ≠ "paused" → src = keys.Paused (q_keys q) ∧ dst = keys.Wait (q_keys q)) →
  steady own (pauseRounds q n src dst ev) (λ _, True).
Proof.
  intros He. assert (Hrun : steady own (runPauseScript q src dst ev) (λ _, True)).
  { unfold runPauseScript. law_step; [|law_solve]. apply steady_ask; [|done|done]. split; [|done].
    cbn. intros Hne. destruct (He Hne) as [-> ->]. by repeat constructor. }
  induction n as [|n IH]; cbn [pauseRounds]; (law_step; [exact Hrun|]); law_solve; destruct n; law_solve.
Qed.

Lemma steady_Pause own : steady own (Pause q) (λ _, True).
Proof. by apply steady_pauseRounds. Qed.
Lemma steady_Resume own : steady own (Resume q) (λ _, True).
Proof. by apply steady_pauseRounds. Qed.

Lemma steady_UpdateJobProgress own j p : steady own (UpdateJobProgress q j p) (λ _, True).
Proof. unfold UpdateJobProgress. law_step; [law_solve|]. law_step; [law_solve|]. law_step; [by apply steady_ask | law_solve]. Qed.
Lemma steady_UpdateJobData own j (d : T) : steady own (UpdateJobData q j d) (λ _, True).
Proof. unfold UpdateJobData. law_step; [law_solve|]. law_step; [law_solve|]. law_step; [by apply steady_ask | law_solve]. Qed.
Lemma steady_AppendJobLog own j l : steady own (AppendJobLog q j l) (λ _, True).
Proof. unfold AppendJobLog. law_step; [law_solve|]. law_step; [by apply steady_ask | law_solve]. Qed.
Lemma steady_Counts own bs : steady own (Counts q bs) (λ _, True).
Proof. unfold Counts, IsPaused. repeat first [done | by apply steady_ask | law_step]. Qed.
Lemma steady_Get own j : steady own (Get (T := T) q j) (λ _, True).
Proof. unfold Get. law_solve. Qed.

Lemma steady_IsPaused own : steady own (IsPaused q) (λ _, True).
Proof. unfold IsPaused. law_solve. Qed.
Lemma steady_GetMetrics own k i j : steady own (GetMetrics q k i j) (λ _, True).
Proof. unfold GetMetrics. law_step; [law_solve|]. law_step; [by apply steady_ask | law_solve]. Qed.
Lemma steady_GetJobLogs own j i k : steady own (GetJobLogs q j i k) (λ _, True).
Proof. unfold GetJobLogs. law_step; [law_solve|]. law_step; [|law_solve]. apply steady_ask; [by repeat constructor | done | done]. Qed.
Lemma steady_fetchJobs own js : steady own (fetchJobs (T := T) q js) (λ _, True).
Proof.
  unfold fetchJobs. law_step; [|law_solve]. apply steady_ask; [|done|done]. cbn. apply Forall_fmap. by apply Forall_forall.
Qed.
Lemma steady_ListJobs own bk i j asc : steady own (ListJobs (T := T) q bk i j asc) (λ _, True).
Proof.
  unfold ListJobs. law_step; [unfold listSource; repeat first [done | apply steady_IsPaused | law_step]|].
  repeat first [done | by apply steady_ask | apply steady_fetchJobs | law_step].
Qed.

Lemma steady_DrainPending own opts : steady own (DrainPending q opts) (λ _, True).
Proof. unfold DrainPending. law_step; [|law_solve]. apply steady_ask; [split; [split; [by repeat constructor | done] | done] | done | done]. Qed.

(** ** Schedules *)

Lemma steady_upsertSchedule own id next o t data :
  has_colon id = false → steady own (upsertSchedule q id next o t data) (λ _, True).
Proof.
  intros Hid. unfold upsertSchedule. do 3 (law_step; [law_solve|]). law_step; [law_solve|]. law_step; [|law_solve].
  apply steady_ask; [split; [split_and!; [by repeat constructor | done | done] | done] | done | done].
Qed.

Lemma steady_upsert `{CronLib} own t id (payload : T) opts :
  has_colon id = false → steady own (upsert q t id payload opts) (λ _, True).
Proof.
  intros Hid. pose proof (steady_upsertSchedule own id) as Hu.
  destruct t; cbn [upsert]; unfold UpsertScheduleEvery, UpsertSchedulePattern; cbv zeta;
    repeat first [done | by apply Hu | law_step].
Qed.

Lemma steady_RemoveSchedule own id : has_colon id = false → steady own (RemoveSchedule q id) (λ _, True).
Proof.
  intros Hid. unfold RemoveSchedule. law_step; [law_solve|]. law_step; [|law_solve]. apply steady_ask; [|done|done].
  constructor; [left; by exists id|]. by repeat constructor.
Qed.

(** ** The wake-up set of a worker that shuts down *)

Lemma steady_wake own w :
  waking (q_keys q) (wakeKey w) → steady own (_ ← wakeDispatchers w; dropWakeKey w) (λ _, True).
Proof.
  intros Hw. unfold wakeDispatchers, dropWakeKey.
  law_step; (law_step; [law_solve|]); apply steady_ask; try done. by right.
Qed.
End producer.

(** ** The system *)

Section system.
Context `{Codec} `{GoArch} `{CronLib} {T : Type} `{Payload T}.
Variable cjson : any → string.
Variable q : Queue.
Abbreviation b := (q_keys q).

(** What a goroutine can be started for. Any number of workers share the queue;
    each of them has its own settings, wake key and pool. *)
Inductive program :=
| PDefine
| PAdd (payload : T) (opts : list AddOption)
| PDispatch (w : Worker) (fuel : nat)
| PStalled (w : Worker) (fuel : nat)
| PHeartbeat (w : Worker) (fuel : nat) (token jobID : string)
| PRemove (jobID : string)
| PPromote (jobID : string)
| PRetry (jobID : string) (opts : list RetryOption)
| PPause
| PResume
| PProgress (jobID : string) (progress : res string)
| PData (jobID : string) (data : T)
| PLog (jobID line : string)
| PCounts (buckets : list JobBucket)
| PGet (jobID : string)
| PList (bucket : JobBucket) (start stop : Z) (ascending : bool)
| PMetrics (kind : JobBucket) (start stop : Z)
| PLogs (jobID : string) (start stop : Z)
| PDrain (opts : list DrainOption)
| PSchedule (t : timing) (scheduleID : string) (payload : T) (opts : list ScheduleOption)
| PUnschedule (scheduleID : string)
| PShutdown (w : Worker).

Definition void {A} (m : M A) : M unit := _ ← m; mret tt.

Definition code_of (p : program) : M unit :=
  match p with
  | PDefine => void (bootstrap q)
  | PAdd payload opts => void (Add q payload opts)
  | PDispatch w fuel => void (dispatchLoop (T := T) w fuel)
  | PStalled w fuel => void (stalledLoop w fuel)
  | PHeartbeat w fuel token jobID => void (heartbeat w fuel token jobID)
  | PRemove jobID => void (RemoveJob q jobID)
  | PPromote jobID => void (PromoteJob q jobID)
  | PRetry jobID opts => void (RetryJob q jobID opts)
  | PPause => void (Pause q)
  | PResume => void (Resume q)
  | PProgress jobID p => void (UpdateJobProgress q jobID p)
  | PData jobID d => void (UpdateJobData q jobID d)
  | PLog jobID line => void (AppendJobLog q jobID line)
  | PCounts bs => void (Counts q bs)
  | PGet jobID => void (Get (T := T) q jobID)
  | PList bk i j asc => void (ListJobs (T := T) q bk i j asc)
  | PMetrics k i j => void (GetMetrics q k i j)
  | PLogs jobID i j => void (GetJobLogs q jobID i j)
  | PDrain opts => void (DrainPending q opts)
  | PSchedule t id payload opts => void (upsert q t id payload opts)
  | PUnschedule id => void (RemoveSchedule q id)
  | PShutdown w => void (_ ← wakeDispatchers w; dropWakeKey w)
  end.

(** Workers of this queue, no custom id that means something else, and no colon
    in the id of a schedule. *)
Definition admissible (p : program) : Prop :=
  match p with
  | PAdd _ opts => id_ok q opts = true
  | PDispatch w _ | PStalled w _ | PHeartbeat w _ _ _ => wkeys w = newQueueKeys q
  | PSchedule _ id _ _ | PUnschedule id => has_colon id = false
  | PShutdown w => waking b (wakeKey w)
  | _ => True
  end.

Record goroutine := Go { code : M unit; own : list string }.

Record sys := Sys {
  gos : list goroutine;
  drawn : gmap string nat;
  redis : store;
  hist : history;
}.

Definition del (k : string) (st : store) : store :=
  mkStore (delete k (lists st)) (delete k (zsets st)) (delete k (hashes st)) (delete k (locks st))
    (delete k (strs st)) (delete k (nums st)) (delete k (sets st)).

(** One pipelined command. *)
Definition apply_cmd (c : cmd) (st : store) : store :=
  match c with
  | CHSetNX k f v =>
      match hgetall k st !! f with
      | Some _ => st
      | None => hset k (<[f := v]> (hgetall k st)) st
      end
  | CSAdd k m => with_sets (λ s, <[k := default ∅ (s !! k) ∪ {[m]}]> s) st
  | CZRem k m => zset k (delete m (zget k st)) st
  | CDel k => del k st
  | _ => st
  end.

(** The first [n] commands of a pipeline, or the one command; any other request
    but a script call leaves the store alone. *)
Definition written (r : req) (n : nat) (st : store) : store :=
  match r with
  | RPipeline _ cmds => foldl (λ st c, apply_cmd c st) st (take n cmds)
  | RZAdd _ k ms => if (0 <? n)%nat then zset k (foldl (λ z m, <[m.2 := m.1]> z) (zget k st) ms) st else st
  | RDel _ k => if (0 <? n)%nat then del k st else st
  | _ => st
  end.

Inductive action :=
| Spawn (p : program)
| Serve (i : nat) (o : oracle) (lost : option err)   (* a script call runs; its reply may get lost *)
| Refuse (i : nat) (e : err)                         (* a script call never reaches Redis *)
| Draw (i : nat) (uuid : string)
| Answer (i : nat) (ans : ∀ r, resp r) (n : nat)     (* anything else *)
| ExpireLock (k : string)
| ExpireStr (k : string)
| ExpireLimiter.

Definition moved (s : sys) (i : nat) (g : goroutine) : sys :=
  Sys (<[i := g]> (gos s)) (drawn s) (redis s) (hist s).

Definition perform (a : action) (s : sys) : option sys :=
  match a with
  | Spawn p => Some (Sys (gos s ++ [Go (code_of p) []]) (drawn s) (redis s) (hist s))
  | Serve i o lost =>
      match gos s !! i with
      | Some (Go (Vis (RScript c n ks args) k) own) =>
          let '(v, st, es) := script cjson o n ks args (redis s) in
          Some (Sys (<[i := Go (k match lost with Some e => inl e | None => v end) own]> (gos s))
                  (drawn s) st (hist s ++ (pair i <$> es)))
      | _ => None
      end
  | Refuse i e =>
      match gos s !! i with
      | Some (Go (Vis (RScript c n ks args) k) own) => Some (moved s i (Go (k (inl e)) own))
      | _ => None
      end
  | Draw i x =>
      match gos s !! i with
      | Some (Go (Vis RUuid k) own) =>
          if bool_decide (drawn s !! x = None) && negb (String.eqb x "0") then
            Some (Sys (<[i := Go (k x) (x :: own)]> (gos s)) (<[x := i]> (drawn s)) (redis s) (hist s))
          else None
      | _ => None
      end
  | Answer i ans n =>
      match gos s !! i with
      | Some (Go (Vis r k) own) =>
          match r with
          | RScript _ _ _ _ | RUuid => None
          | _ => Some (Sys (<[i := Go (k (ans r)) own]> (gos s)) (drawn s) (written r n (redis s)) (hist s))
          end
      | _ => None
      end
  | ExpireLock k => Some (Sys (gos s) (drawn s) (with_locks (delete k) (redis s)) (hist s))
  | ExpireStr k => Some (Sys (gos s) (drawn s) (with_strs (delete k) (redis s)) (hist s))
  | ExpireLimiter => Some (Sys (gos s) (drawn s) (with_nums (delete (keys.Limiter b)) (redis s)) (hist s))
  end.

(** The call that an action runs on the server, if it runs one. *)
Definition serves (a : action) (s : sys) : option (ScriptName * list any) :=
  match a with
  | Serve i _ _ =>
      match gos s !! i with Some (Go (Vis (RScript _ n _ args) _) _) => Some (n, args) | _ => None end
  | _ => None
  end.

Definition allowed (a : action) (s : sys) : Prop :=
  match a with
  | Spawn p => admissible p
  | _ => match serves a s with Some (n, args) => timely b n args (redis s) | None => True end
  end.

(** An interleaving from a state in which nothing runs and no lock is held. *)
Definition starts (st : store) : sys := Sys [] ∅ st [].

Inductive reachable (st : store) : sys → Prop :=
| reach_start : reachable st (starts st)
| reach_step s a s' : reachable st s → allowed a s → perform a s = Some s' → reachable st s'.

Record sys_ok (s : sys) : Prop := mkOk {
  ok_store : inv b [] (redis s);
  ok_locks : guarded b (drawn s) (redis s) (hist s);
  ok_code : ∀ i g, gos s !! i = Some g → good b (own g) (code g) (λ _ _, True);
  ok_own : ∀ i g t, gos s !! i = Some g → t ∈ own g → drawn s !! t = Some i;
}.

Lemma good_void {A} own (m : M A) Q : good b own m Q → good b own (void m) (λ _ _, True).
Proof. intros Hm. apply good_bind. by eapply good_mono; [|exact Hm]. Qed.

Lemma program_good p : admissible p → good b [] (code_of p) (λ _ _, True).
Proof.
  destruct p; cbn [admissible code_of]; intros Hp; eapply good_void.
  - apply steady_bootstrap.
  - by apply steady_Add.
  - by apply good_dispatchLoop.
  - by apply good_stalledLoop.
  - by apply good_heartbeat.
  - apply steady_RemoveJob.
  - apply steady_PromoteJob.
  - apply steady_RetryJob.
  - apply steady_Pause.
  - apply steady_Resume.
  - apply steady_UpdateJobProgress.
  - apply steady_UpdateJobData.
  - apply steady_AppendJobLog.
  - apply steady_Counts.
  - apply steady_Get.
  - apply steady_ListJobs.
  - apply steady_GetMetrics.
  - apply steady_GetJobLogs.
  - apply steady_DrainPending.
  - by apply steady_upsert.
  - by apply steady_RemoveSchedule.
  - by apply steady_wake.
Qed.

(** A goroutine moved on, and perhaps drew a token. *)
Lemma ok_move s i g g' dr :
  sys_ok s → gos s !! i = Some g → good b (own g') (code g') (λ _ _, True) →
  drawn s ⊆ dr → (∀ t, t ∈ own g' → dr !! t = Some i) →
  (∀ j h, <[i := g']> (gos s) !! j = Some h → good b (own h) (code h) (λ _ _, True)) ∧
  (∀ j h t, <[i := g']> (gos s) !! j = Some h → t ∈ own h → dr !! t = Some j).
Proof.
  intros Hok Hi Hg Hd Ho. apply lookup_lt_Some in Hi. split.
  - intros j h. rewrite list_lookup_insert. case_decide as E; [by intros [= <-]|]. by apply (ok_code s).
  - intros j h t. rewrite list_lookup_insert. case_decide as E.
    + intros [= <-]. destruct E as [-> _]. apply Ho.
    + intros Hj Ht. eapply lookup_weaken, Hd. by eapply (ok_own s).
Qed.

(** What a disposable key may name: no place, no counter and no job. *)
Lemma disposable_apart k : disposable b k → (k ∉ lplaces b ++ zplaces b) ∧ k ≠ keys.ID b.
Proof.
  assert (Hne : ∀ x y : string, keys.Base b +:+ x = keys.Base b +:+ y → x = y) by (intros x y; apply sapp_inv_head).
  intros [(sid & _ & ->)|[u ->]]; (split; [|intros E%Hne; done]);
    unfold lplaces, zplaces; cbn [app]; rewrite !elem_of_cons, elem_of_nil; intros Hk;
    repeat destruct Hk as [E%Hne|Hk]; done.
Qed.

Lemma disposable_no_job k st id : disposable b k → inv b [] st → is_job b st id → keys.Job b id ≠ k.
Proof.
  intros Hk Hi Hj E. destruct (inv_reserved _ _ _ Hi id Hj) as [Hr1 Hr2]. destruct Hk as [(sid & Hs & ->)|[u ->]].
  - apply sapp_inv_head in E. specialize (Hr1 sid E). congruence.
  - apply sapp_inv_head in E. by apply (Hr2 u).
Qed.

Lemma del_inv k st : disposable b k → inv b [] st → inv b [] (del k st).
Proof.
  intros Hk Hi. destruct (disposable_apart k Hk) as [Hp Hid]. eapply inv_via; [exact Hi | | | ].
  - assert (ids b (del k st) = ids b st) as ->; [|done]. unfold ids, members, lget, zget, del. cbn [lists zsets].
    assert (Hd : ∀ (A : Type) (m : gmap string A) k', k' ∈ lplaces b ++ zplaces b → delete k m !! k' = m !! k').
    { intros A m k' Hk'. apply lookup_delete_ne. by intros ->. }
    f_equal; f_equal; apply list_fmap_ext; intros i k' Hi'%list_elem_of_lookup_2; by rewrite Hd by set_solver.
  - intros id. unfold is_job, hgetall, del. cbn. destruct (decide (keys.Job b id = k)) as [E|Hne].
    + split; [by rewrite E, lookup_delete_eq; intros [] | intros Hj; by destruct (disposable_no_job k st id Hk Hi Hj)].
    + by rewrite lookup_delete_ne.
  - unfold del. cbn. by rewrite lookup_delete_ne.
Qed.

(** A sorted set that is no place of jobs. *)
Lemma zset_inv k z st : k ∉ zplaces b → inv b [] st → inv b [] (zset k z st).
Proof.
  intros Hk Hi. eapply inv_places; [exact Hi | | done | done].
  assert (ids b (zset k z st) = ids b st) as ->; [|done]. unfold ids. f_equal. f_equal.
  apply list_fmap_ext. intros i k' Hi'%list_elem_of_lookup_2. unfold members.
  rewrite zget_zset, bool_decide_eq_false_2; [done|]. by intros ->.
Qed.

Lemma apply_cmd_inv c st : lawful_cmd b c → inv b [] st → inv b [] (apply_cmd c st).
Proof.
  destruct c as [k f v|k m|k|k m| | | |]; cbn; intros Hl Hi; try done; [|by apply inv_sets|..].
  - destruct (hgetall k st !! f); [done|]. apply inv_hset; [done|]. rewrite lookup_insert_ne; [done | apply Hl].
  - by apply del_inv.
  - apply zset_inv; [|done]. rewrite Hl. pose proof (place_keys b) as (_ & _ & Hd)%NoDup_app.
    apply NoDup_app in Hd as (_ & Hd & _). intros Hin. apply (Hd _ Hin). by left.
Qed.

Lemma apply_cmd_locks c st : locks (apply_cmd c st) ⊆ locks st.
Proof. destruct c; cbn; try done; [by destruct (_ !! _) | apply delete_subseteq]. Qed.

Lemma written_ok own r n st :
  lawful b own r → inv b [] st → inv b [] (written r n st) ∧ locks (written r n st) ⊆ locks st.
Proof.
  intros Hl Hi. destruct r; cbn; try done.
  - cbn in Hl. apply (Forall_take _ n) in Hl.
    revert st Hi. induction Hl as [|d ds Hd Hds IH]; intros st Hi; cbn; [done|].
    destruct (IH (apply_cmd d st)) as [H5 H6]; [by apply apply_cmd_inv|]. split; [done|].
    etrans; [exact H6 | apply apply_cmd_locks].
  - destruct n as [|n]; [done|]. cbn. split; [|done]. apply zset_inv; [|done].
    destruct (disposable_apart key0) as [Hp _]; [by right|]. intros Hin. apply Hp, elem_of_app. by right.
  - destruct n as [|n]; [done|]. cbn. split; [by apply del_inv | apply delete_subseteq].
Qed.

Lemma spawn_ok s p : sys_ok s → admissible p →
  sys_ok (Sys (gos s ++ [Go (code_of p) []]) (drawn s) (redis s) (hist s)).
Proof.
  intros Hok Hp. split; cbn; [apply (ok_store s Hok) | apply (ok_locks s Hok) | |].
  - intros i g. rewrite lookup_app_Some, list_lookup_singleton_Some. intros [Hi|(_ & _ & <-)].
    + by eapply ok_code.
    + by apply program_good.
  - intros i g t. rewrite lookup_app_Some, list_lookup_singleton_Some. intros [Hi|(_ & _ & <-)] Ht.
    + by eapply ok_own.
    + by apply not_elem_of_nil in Ht.
Qed.

Lemma serve_ok s i o c n ks args k own v st es x :
  sys_ok s → gos s !! i = Some (Go (Vis (RScript c n ks args) k) own) → timely b n args (redis s) →
  script cjson o n ks args (redis s) = (v, st, es) →
  sys_ok (Sys (<[i := Go (k x) own]> (gos s)) (drawn s) st (hist s ++ (pair i <$> es))).
Proof.
  intros Hok Hi Htm E. destruct (ok_code s Hok i _ Hi) as [[Hp Hf] Hk]. cbn in Hk.
  destruct (ok_move s i _ (Go (k x) own) (drawn s) Hok Hi) as [H5 H6]; [apply Hk | done | |].
  { intros t Ht. by apply (ok_own s Hok i _ t Hi). }
  split; cbn; [| |done|done].
  - pose proof (script_inv o b cjson n ks args Hp (redis s) (conj (ok_store s Hok) Htm)) as Hs. by rewrite E in Hs.
  - assert (Hc : fenced_call b (drawn_by (drawn s) i) n ks args).
    { eapply fenced_call_mono; [|exact Hf]. intros t Ht. by apply (ok_own s Hok i _ t Hi). }
    pose proof (script_safe b (drawn s) o cjson i n ks args Hc _ _ (ok_locks s Hok)) as Hs. by rewrite E in Hs.
Qed.

Lemma perform_ok s a s' : sys_ok s → allowed a s → perform a s = Some s' → sys_ok s'.
Proof.
  intros Hok Ha. destruct a as [p|i o lost|i e|i x|i ans n|k|k|]; cbn [perform].
  - intros [= <-]. by apply spawn_ok.
  - cbn in Ha. destruct (gos s !! i) as [[[|[] k] own]|] eqn:Hi; try done.
    destruct (script _ _ _ _ _ _) as [[v st] es] eqn:E. intros [= <-]. by eapply serve_ok.
  - destruct (gos s !! i) as [[[|[] k] own]|] eqn:Hi; try done. intros [= <-].
    destruct (ok_code s Hok i _ Hi) as [_ Hk]. unfold moved.
    destruct (ok_move s i _ (Go (k (inl e)) own) (drawn s) Hok Hi) as [H5 H6]; [apply Hk | done | |].
    { intros t Ht. by apply (ok_own s Hok i _ t Hi). }
    split; cbn; [apply (ok_store s Hok) | apply (ok_locks s Hok) | done | done].
  - destruct (gos s !! i) as [[[|[] k] own]|] eqn:Hi; try done. case_bool_decide as Hx; cbn [andb]; [|done].
    destruct (negb _); [|done]. intros [= <-]. destruct (ok_code s Hok i _ Hi) as [_ Hk].
    assert (Hsub : drawn s ⊆ <[x := i]> (drawn s)) by by apply insert_subseteq.
    destruct (ok_move s i _ (Go (k x) (x :: own)) (<[x := i]> (drawn s)) Hok Hi) as [H5 H6]; [apply Hk | done | |].
    { intros t Ht. apply elem_of_cons in Ht as [->|Ht]; [by rewrite lookup_insert, decide_True|].
      eapply lookup_weaken, Hsub. by apply (ok_own s Hok i _ t Hi). }
    split; cbn; [apply (ok_store s Hok) | eapply guarded_more, (ok_locks s Hok); done | done | done].
  - destruct (gos s !! i) as [[[|r k] own]|] eqn:Hi; try done. intros E.
    destruct (ok_code s Hok i _ Hi) as [Hl Hk]. cbn in Hl, Hk.
    destruct (written_ok own r n (redis s) Hl (ok_store s Hok)) as [Hw1 Hw2].
    destruct (ok_move s i _ (Go (k (ans r)) own) (drawn s) Hok Hi) as [H5 H6]; [|done| |].
    { specialize (Hk (ans r)). destruct r; done. }
    { intros t Ht. by apply (ok_own s Hok i _ t Hi). }
    assert (sys_ok (Sys (<[i := Go (k (ans r)) own]> (gos s)) (drawn s) (written r n (redis s)) (hist s))) as Hres.
    { split; cbn; [done | | done | done]. by eapply guarded_shrink; [exact Hw2|apply (ok_locks s Hok)]. }
    destruct r; try done; injection E as <-; exact Hres.
  - intros [= <-]. split; cbn; [by apply inv_locks, ok_store | | by apply (ok_code s) | by apply (ok_own s)].
    eapply guarded_shrink; [|apply (ok_locks s Hok)]. apply delete_subseteq.
  - intros [= <-]. split; cbn; [by apply inv_strs, ok_store | | by apply (ok_code s) | by apply (ok_own s)].
    by eapply guarded_shrink; [|apply (ok_locks s Hok)].
  - intros [= <-]. split; cbn; [| | by apply (ok_code s) | by apply (ok_own s)].
    + apply inv_nums; [by apply ok_store|]. rewrite lookup_delete_ne; [done|]. apply ID_fresh.
    + by eapply guarded_shrink; [|apply (ok_locks s Hok)].
Qed.

Lemma reachable_ok st s : inv b [] st → locks st = ∅ → reachable st s → sys_ok s.
Proof.
  intros Hi Hl. induction 1 as [|s a s' _ IH Ha E]; [|by eapply perform_ok].
  split; cbn; [done | | done | done]. split; [|done|].
  - intros j t. by rewrite Hl, lookup_empty.
  - by intros [|] i j t l2 ?.
Qed.
End system.
