(* ===== verification/Walk.v ===== *)
(** * What the programs may ask

    Every program a goroutine of the queue runs ([Concurrent.code_of]) followed
    once, for any predicate [P] on requests: [program_only]. [P] is free to look
    at the signals, of which the programs emit the documented ones, and at the
    three calls that may hand out a job, whose arguments the worker's
    configuration determines; of anything else it holds. *)

From S2P Require Import Prelude GoLib Keys Backoff Effects Json Jobs Proto Cron Config Finalise Worker Dispatch Shutdown Queue Schedule Inspect Redis RedisInv Fencing Concurrent.

(** The table of the [Metrics] interface: each signal with its attributes. *)
Definition documented : list (string * list string) :=
  [(MetricJobsAddedTotal, [AttrQueue; AttrJobName]);
   (MetricJobsProcessedTotal, [AttrQueue; AttrJobName; AttrProcessStatus]);
   (MetricHandlerDurationSeconds, [AttrQueue; AttrJobName]);
   (MetricDispatchWaitSeconds, [AttrQueue]);
   (MetricJobsInFlight, [AttrQueue])].

(** A request reports as documented, under the right kind. *)
Definition reports (r : req) : bool :=
  match r with
  | RCounter n attrs =>
      bool_decide ((n, attrs.*1) ∈ take 2 documented)
  | RHistogram n _ attrs => bool_decide ((n, attrs.*1) ∈ take 2 (drop 2 documented))
  | RGauge n _ attrs => bool_decide ((n, attrs.*1) ∈ drop 4 documented)
  | _ => true
  end.

(** A call that may hand out a job. *)
Definition fetches (r : req) : bool :=
  match r with RScript _ (MoveToActive | MoveToFinished | MoveToDelayed) _ _ => true | _ => false end.

Lemma only_loop {S A} P (body : S → M (S + A)) fuel s : (∀ s, only P (body s)) → only P (loop fuel body s).
Proof. intros Hb. revert s. induction fuel as [|n IH]; intros s; cbn [loop]; only_solve; auto. Qed.

Section walk.
Context `{Codec} `{GoArch} `{CronLib} {T : Type} `{Payload T}.
Variable P : req → bool.

(** [P] holds of the calls of [w] that hand out jobs. *)
Record respects (w : Worker) : Prop := mkRespects {
  re_active : ∀ token bs ts, proto.EncodeMoveToActiveOpts (activeOpts w token) = inr bs →
    P (RScript CtxRun MoveToActive (moveToActiveKeys (wkeys w)) [AStr (prefix (wkeys w)); AInt64 ts; ABytes bs]) = true;
  re_finished : ∀ token att keep bs jobID ts prop value target flag fields,
    proto.EncodeMoveToFinishedOpts (finishOpts w token att keep) = inr bs →
    P (RScript CtxBackground MoveToFinished (moveToFinishedKeys (wkeys w) jobID target)
         [AStr jobID; AInt64 ts; AStr prop; AStr value; AStr target; AStr flag; AStr (prefix (wkeys w));
          ABytes bs; ABytes fields]) = true;
  re_delayed : ∀ jobID token ts delay skip fields,
    P (RScript CtxBackground MoveToDelayed (moveToDelayedKeys (wkeys w) jobID)
         [AStr (prefix (wkeys w)); AInt64 ts; AStr jobID; AStr token; AInt64 delay; AStr skip; fields; AStr ""; AStr ""]) = true;
}.

Hypothesis Hrest : ∀ r, fetches r = false → reports r = true → P r = true.
#[local] Set Default Proof Using "Type*".

Lemma only_rest r : fetches r = false → reports r = true → only P (ask r).
Proof. intros. by apply only_ask, Hrest. Qed.

Ltac walk :=
  repeat first [apply only_rest; [reflexivity | reflexivity] | progress only_solve].

Section worker.
Variable w : Worker.
Hypothesis Hw : respects w.

Lemma finish_only jobID token att keep target prop value extra :
  only P (runMoveToFinished w jobID token att keep target prop value extra).
Proof.
  unfold runMoveToFinished, fetchNextFlag. apply only_bind; [walk|]. intros now.
  destruct (proto.EncodeMoveToFinishedOpts _) as [e|bs] eqn:E; walk. apply only_ask. by eapply re_finished.
Qed.

Lemma putBack_only jobID token d : only P (moveToDelayedKeepingAttempts w jobID token d).
Proof. unfold moveToDelayedKeepingAttempts. walk. apply only_ask. by apply re_delayed. Qed.

Lemma retryDelayed_only jobID token d reason hist : only P (retryDelayed w jobID token d reason hist).
Proof. unfold retryDelayed. walk. apply only_ask. by apply re_delayed. Qed.

Lemma runJob_only token jobID jobMap : only P (runJob (T := T) w token jobID jobMap).
Proof.
  unfold runJob, failStalled, processJob, afterJoin, finaliseFailed, countOutcome, observeWait, runHandler, invokeHandler,
    newHandlerShim, finalise, finishFailed, finishCompleted, fetchAtm, computeRetryDelay, callRetryDelayOverride,
    callBackoffStrategy, retryImmediate, rescheduleNext, releaseLock.
  repeat first [apply finish_only | apply putBack_only | apply retryDelayed_only | progress walk].
Qed.

Lemma tryOnce_only : only P (tryOnce (T := T) w).
Proof.
  unfold tryOnce. do 2 (apply only_bind; [walk|]; intros ?).
  destruct (proto.EncodeMoveToActiveOpts _) as [e|bs] eqn:E; [walk|].
  apply only_bind; [apply only_ask; by eapply re_active|]. intros r. repeat first [apply runJob_only | progress walk].
Qed.

Lemma dispatch_only fuel : only P (dispatchLoop (T := T) w fuel).
Proof.
  unfold dispatchLoop, dispatchFrom. apply only_bind.
  - apply only_loop. intros s. unfold dispatch_turn, fetch_turn, sleep, awaitMarker, unless_stopped, running.
    repeat first [apply runJob_only | apply tryOnce_only | progress walk].
  - intros r. unfold releasePrefetchedLock, releaseLock. walk.
Qed.
End worker.

Variable q : Queue.

Lemma pause_only n src dst ev : only P (pauseRounds q n src dst ev).
Proof.
  induction n as [|n IH]; cbn [pauseRounds]; unfold runPauseScript; walk; destruct n; walk.
Qed.

Lemma addBody_only payload c d : only P (addBody (T := T) q payload c d).
Proof. unfold addBody, dispatch. destruct (0 <? d), (0 <? ac_priority c); walk. Qed.

(** The worker that a program runs. *)
Definition worker_of (p : program (T := T)) : option Worker :=
  match p with PDispatch w _ => Some w | _ => None end.

Lemma program_only (p : program (T := T)) :
  (∀ w, worker_of p = Some w → respects w) → only P (code_of q p).
Proof.
  intros Hp. destruct p; cbn [code_of]; (apply only_bind; [|intros ?; apply only_ret]).
  - unfold bootstrap. walk.
  - unfold Add. repeat first [apply addBody_only | progress walk].
  - by apply dispatch_only, Hp.
  - apply only_loop. intros d. unfold stalled_turn, runStalledCheck. walk.
  - apply only_loop. intros []. unfold heartbeat_turn. walk.
  - unfold RemoveJob. walk.
  - unfold PromoteJob. walk.
  - unfold RetryJob. walk.
  - apply pause_only.
  - apply pause_only.
  - unfold UpdateJobProgress. walk.
  - unfold UpdateJobData. walk.
  - unfold AppendJobLog. walk.
  - unfold Counts, IsPaused. walk.
  - unfold Get. walk.
  - unfold ListJobs, listSource, IsPaused, fetchJobs. walk.
  - unfold GetMetrics. walk.
  - unfold GetJobLogs. walk.
  - unfold DrainPending. walk.
  - destruct t; cbn [upsert]; unfold UpsertScheduleEvery, UpsertSchedulePattern, upsertSchedule; walk.
  - unfold RemoveSchedule. walk.
  - unfold wakeDispatchers, dropWakeKey. walk.
Qed.
End walk.

(** Every goroutine of the queue reports as documented. *)
Lemma program_reports `{Codec} `{GoArch} `{CronLib} {T : Type} `{Payload T} (q : Queue) (p : program (T := T)) :
  only reports (code_of q p).
Proof. apply program_only; [done|]. intros w _. by split. Qed.
