(* ===== verification/Recovery.v ===== *)
(** * Jobs whose worker died

    [runStalledCheck] against the store: the first check marks the active jobs,
    the next one puts those that are still marked and unlocked back into wait.
    [redis_server] answers the script calls of a Go program from the store. *)

From S2P Require Import Prelude GoLib Keys Backoff Effects Json Jobs Proto Cron Config Finalise Worker Queue Inspect Redis RedisInv Fencing.
Import lua.

Section server.
Context `{Codec}.
Variable cjson : any → string.
Variable o : oracle.

Definition redis_server : server store := λ st r,
  match r return resp r * store with
  | RScript _ n ks args => let '(v, st', _) := script cjson o n ks args st in (v, st')
  | r => ((quiet tt r).1, st)
  end.
End server.

(** ** What recovering does to the lists *)

(** A part of a script that leaves the lists and the locks alone. *)
Definition still {A} (m : Lua A) : Prop :=
  ∀ st, lists (m st).1.2 = lists st ∧ locks (m st).1.2 = locks st.

Lemma still_bind {A B} (m : Lua A) (f : A → Lua B) : still m → (∀ a, still (f a)) → still (m ≫= f).
Proof.
  intros Hm Hf st. unfold mbind, Lua_bind. specialize (Hm st). destruct (m st) as [[a st1] l1].
  specialize (Hf a st1). destruct (f a st1) as [[c st2] l2]. cbn in *. destruct Hm, Hf. split; congruence.
Qed.

Lemma hoare_still {A} (P : store → Prop) (m : Lua A) :
  (∀ st st', lists st' = lists st → locks st' = locks st → P st → P st') → still m → hoare P m (λ _, P).
Proof. intros HP Hm st Hst. destruct (Hm st). by eapply HP. Qed.

Section recover.
Variable b : keys.Builder.

(** [j] is where the check left it: recovered, or active and unlocked. *)
Definition waits (j : string) (st : store) : Prop := j ∈ lget (keys.Wait b) st.
Definition orphan (j : string) (st : store) : Prop :=
  j ∈ lget (keys.Active b) st ∧ locks st !! lockKey (keys.Job b j) = None.

Lemma waits_still j st st' : lists st' = lists st → locks st' = locks st → waits j st → waits j st'.
Proof. unfold waits, lget. intros El _. by rewrite El. Qed.
Lemma orphan_still j st st' : lists st' = lists st → locks st' = locks st → orphan j st → orphan j st'.
Proof. unfold orphan, lget. intros El Ek. by rewrite El, Ek. Qed.

Lemma Active_Wait : keys.Active b ≠ keys.Wait b.
Proof. by intros ?%sapp_inv_head. Qed.

Lemma remove_first_other x y l : x ≠ y → x ∈ l → x ∈ remove_first y l.
Proof.
  intros Hne. induction l as [|z l IH]; intros Hx; [by apply not_elem_of_nil in Hx|]. cbn.
  apply elem_of_cons in Hx as [->|Hx]; destruct (String.eqb_spec y z) as [->|]; try done; [by left | right; auto].
Qed.

(** The rest of a round once the job is out of active. *)
Lemma hoare_put_back {A} (P : store → Prop) jobId jobKey repeatKey maxStalled (m : Lua A) Q :
  (∀ st st', lists st' = lists st → locks st' = locks st → P st → P st') →
  hoare P (_ ← RPUSH (keys.Wait b) jobId; m) Q →
  hoare P
    (n ← HINCRBY jobKey "stc";
     rjk ← HGET jobKey "rjk";
     repeatable ← match rjk with
                  | None => mret false
                  | Some sid =>
                      ex ← HEXISTS (repeatKey +:+ ":" +:+ sid);
                      z ← ZSCORE repeatKey sid;
                      mret (ex || bool_decide (is_Some z))
                  end;
     _ ← (if (maxStalled <? n) && negb repeatable
          then HMSET jobKey [("defa", "job stalled more than allowable limit")] else mret tt);
     _ ← RPUSH (keys.Wait b) jobId; m) Q.
Proof.
  intros HP Hm. apply hoare_keep; [by apply hoare_still|]. intros n. apply hoare_keep; [by apply hoare_still|].
  intros rjk. apply hoare_keep; [apply hoare_still; [done|]; by destruct rjk|]. intros rep.
  apply hoare_keep; [apply hoare_still; [done|]; by destruct (_ && _)|]. by intros _.
Qed.

(** What a round for [x] does not disturb. *)
Record undisturbed (x : string) (P : store → Prop) : Prop := mkUndisturbed {
  u_still : ∀ st st', lists st' = lists st → locks st' = locks st → P st → P st';
  u_take : ∀ st, P st → P (lset (keys.Active b) (remove_first x (lget (keys.Active b) st)) st);
  u_put : ∀ st, P st → P (lset (keys.Wait b) (lget (keys.Wait b) st ++ [x]) st);
}.

Lemma undisturbed_LREM x P : undisturbed x P → hoare P (LREM_head (keys.Active b) x) (λ _, P).
Proof. intros Hu st Hst. unfold LREM_head. case_bool_decide; cbn; [by apply (u_take x) | done]. Qed.

(** A round for another job, then the rest. *)
Lemma hoare_round x jobs P Q prefix rep max :
  undisturbed x P →
  hoare P (recover jobs (keys.Wait b) (keys.Active b) prefix rep max) (λ _, Q) →
  hoare P (recover (x :: jobs) (keys.Wait b) (keys.Active b) prefix rep max) (λ _, Q).
Proof.
  intros Hx IH. cbn [recover]. apply hoare_keep.
  { destruct (legacy_marker x).
    - apply hoare_keep; [by apply undisturbed_LREM | intros; by apply hoare_ret].
    - apply hoare_keep; [apply hoare_read|]. intros [t|]; [by apply hoare_ret|].
      apply hoare_keep; [by apply undisturbed_LREM | intros; by apply hoare_ret]. }
  intros [|]; [|exact IH]. apply hoare_put_back; [apply (u_still x _ Hx)|].
  apply hoare_keep; [apply hoare_modify; apply (u_put x _ Hx)|]. intros _.
  eapply hoare_bind; [exact IH | intros; by apply hoare_ret].
Qed.

Lemma hoare_recover_frame jobs P prefix rep max :
  Forall (λ x, undisturbed x P) jobs →
  hoare P (recover jobs (keys.Wait b) (keys.Active b) prefix rep max) (λ _, P).
Proof. induction 1 as [|x jobs Hx Hjobs IH]; [by apply hoare_ret | by apply hoare_round]. Qed.

Lemma waits_undisturbed x j : undisturbed x (waits j).
Proof.
  split.
  - apply waits_still.
  - intros st. unfold waits. rewrite lget_lset, bool_decide_eq_false_2; [done | apply Active_Wait].
  - intros st Hw. unfold waits in *. rewrite lget_lset, bool_decide_eq_true_2 by done. set_solver.
Qed.

Lemma orphan_undisturbed x j : x ≠ j → undisturbed x (orphan j).
Proof.
  intros Hne. split.
  - apply orphan_still.
  - intros st [Ha Hl]. split; [|done]. rewrite lget_lset, bool_decide_eq_true_2 by done. by apply remove_first_other.
  - intros st [Ha Hl]. split; [|done]. rewrite lget_lset, bool_decide_eq_false_2; [done|].
    by apply not_eq_sym, Active_Wait.
Qed.

(** An unlocked active job among those to recover is recovered. *)
Lemma hoare_recover_orphan jobs j rep max :
  j ∈ jobs → NoDup jobs → legacy_marker j = false →
  hoare (orphan j) (recover jobs (keys.Wait b) (keys.Active b) (keys.Base b) rep max) (λ _, waits j).
Proof.
  intros Hj Hnd Hm. induction jobs as [|x jobs IH]; [by apply not_elem_of_nil in Hj|].
  apply NoDup_cons in Hnd as [Hni Hnd]. destruct (decide (x = j)) as [->|Hne].
  - cbn [recover]. rewrite Hm. eapply hoare_bind with (R := λ put st, put = true ∧ True).
    + intros st [Ha Hl]. unfold mbind, Lua_bind, gets, LREM_head. cbn [fst snd].
      change (locks st !! lockKey (keys.Base b +:+ j)) with (locks st !! lockKey (keys.Job b j)). rewrite Hl.
      by rewrite bool_decide_eq_true_2.
    + intros put. apply hoare_pure. intros ->. apply hoare_put_back; [done|].
      eapply hoare_bind with (R := λ _, waits j).
      { apply hoare_modify. intros st _. unfold waits. rewrite lget_lset, bool_decide_eq_true_2 by done. set_solver. }
      intros _. apply hoare_keep; [|intros; by apply hoare_ret].
      apply hoare_recover_frame, Forall_forall. intros x _. apply waits_undisturbed.
  - apply elem_of_cons in Hj as [?|Hj]; [done|]. apply hoare_round; [by apply orphan_undisturbed | auto].
Qed.
End recover.

(** ** The check *)

Section check.
Context `{Codec}.
Variable b : keys.Builder.

Definition marked (st : store) : gset string := default ∅ (sets st !! keys.Stalled b).
Definition check_due (st : store) : Prop := strs st !! keys.StalledCheck b = None.

(** What setting the check up does not touch. *)
Definition steady_part (P : store → Prop) : Prop :=
  ∀ st st', lists st' = lists st → locks st' = locks st → sets st' = sets st → P st → P st'.

Lemma hoare_check P (Q : store → Prop) ks args :
  keyed ks [(1%nat, keys.Stalled b); (2%nat, keys.Wait b); (3%nat, keys.Active b); (4%nat, keys.StalledCheck b);
            (9%nat, keys.Repeat b)] →
  str (argv args 2) = keys.Base b → steady_part P →
  (∀ st0, P st0 →
    hoare (λ st, lists st = lists st0 ∧ locks st = locks st0)
      (recover (elements (marked st0)) (keys.Wait b) (keys.Active b) (keys.Base b) (keys.Repeat b)
        (default 0 (num (argv args 1)))) (λ _ st, Q (with_sets (λ m, <[keys.Stalled b :=
          default ∅ (m !! keys.Stalled b) ∪ list_to_set (lget (keys.Active b) st)]> m) st))) →
  hoare (λ st, check_due st ∧ P st) (moveStalledJobsToWait ks args) (λ _, Q).
Proof.
  intros Hk Hp HP Hrec. unfold moveStalledJobsToWait. use_keys Hk. rewrite Hp.
  eapply hoare_bind; [apply hoare_gets|]. intros chk. destruct chk as [t|].
  { intros st [[Hd _] Hc]. unfold check_due in Hd. congruence. }
  eapply hoare_bind with (R := λ _, P). { apply hoare_modify. intros st [[_ Hst] _]. by apply (HP st). }
  intros _. apply hoare_keep.
  { intros st Hst. unfold getOrSetMaxEvents, HGET, gets, mbind, Lua_bind. destruct (_ !! _); by apply (HP st). }
  intros _. eapply hoare_bind; [apply hoare_gets|]. intros stalling.
  apply hoare_at. intros st0 [Hst0 ->].
  eapply hoare_bind with (R := λ _ st, lists st = lists st0 ∧ locks st = locks st0);
    [apply hoare_modify; by intros st ->|]. intros _.
  eapply hoare_bind; [by apply Hrec|]. intros moved. cbn beta.
  eapply hoare_bind; [apply hoare_gets|]. intros act. cbn beta.
  eapply hoare_bind with (R := λ _, Q); [|intros; by apply hoare_ret].
  apply hoare_modify. by intros st [HQ ->].
Qed.

Lemma steady_waits j : steady_part (waits b j).
Proof. intros st st' El Ek _. by apply waits_still. Qed.
Lemma steady_orphan j : steady_part (orphan b j).
Proof. intros st st' El Ek _. by apply orphan_still. Qed.

Definition check_keys (ks : list string) : Prop :=
  keyed ks [(1%nat, keys.Stalled b); (2%nat, keys.Wait b); (3%nat, keys.Active b); (4%nat, keys.StalledCheck b);
            (9%nat, keys.Repeat b)].

(** Recovered jobs stay in wait. *)
Lemma check_waits j ks args :
  check_keys ks → str (argv args 2) = keys.Base b →
  hoare (λ st, check_due st ∧ waits b j st) (moveStalledJobsToWait ks args) (λ _, waits b j).
Proof.
  intros Hk Hp. apply hoare_check; [done | done | apply steady_waits|]. intros st0 Hw.
  eapply hoare_weaken; [|eapply hoare_conseq; [| |apply hoare_recover_frame with (P := waits b j)]].
  - intros st [El Ek]. apply (waits_still b j st0); done.
  - done.
  - done.
  - apply Forall_forall. intros x _. apply waits_undisturbed.
Qed.

(** An unlocked active job is recovered, or marked for the next check; a marked
    one is recovered. *)
Lemma check_orphan j ks args :
  check_keys ks → str (argv args 2) = keys.Base b → legacy_marker j = false →
  hoare (λ st, check_due st ∧ orphan b j st) (moveStalledJobsToWait ks args)
    (λ _ st, waits b j st ∨ orphan b j st ∧ j ∈ marked st).
Proof.
  intros Hk Hp Hm. apply hoare_check; [done | done | apply steady_orphan|]. intros st0 Ho.
  destruct (decide (j ∈ marked st0)) as [Hj|Hj].
  - eapply hoare_conseq; [| |apply hoare_recover_orphan with (j := j); [by apply elem_of_elements | apply NoDup_elements | done]].
    + intros st [El Ek]. apply (orphan_still b j st0); done.
    + intros ? st Hwt. by left.
  - eapply hoare_conseq; [| |apply hoare_recover_frame with (P := orphan b j)].
    + intros st [El Ek]. apply (orphan_still b j st0); done.
    + intros ? st Hs. right. split; [done|]. unfold marked. cbn. rewrite lookup_insert, decide_True by done. cbn.
      apply elem_of_union_r, elem_of_list_to_set, Hs.
    + apply Forall_forall. intros x Hx. apply orphan_undisturbed. intros ->. by apply Hj, elem_of_elements.
Qed.

Lemma check_marked j ks args :
  check_keys ks → str (argv args 2) = keys.Base b → legacy_marker j = false →
  hoare (λ st, check_due st ∧ orphan b j st ∧ j ∈ marked st) (moveStalledJobsToWait ks args) (λ _, waits b j).
Proof.
  intros Hk Hp Hm. apply hoare_check; [done | done | |].
  { intros st st' El Ek Es [Ho Hj]. split; [by apply (steady_orphan j st)|]. unfold marked in *. by rewrite Es. }
  intros st0 [Ho Hj].
  eapply hoare_conseq; [| |apply hoare_recover_orphan with (j := j); [by apply elem_of_elements | apply NoDup_elements | done]].
  - intros st [El Ek]. apply (orphan_still b j st0); done.
  - by intros ? st Hwt.
Qed.
End check.
