(* ===== verification/System.v ===== *)
(** * What a queue promises to everyone at once

    The properties of every interleaving of every operation (Concurrent):
    every job is in exactly one place, a job is only ever deleted by a removal,
    a drain, a schedule's replacement or its retention, an outcome counts once
    and only if it comes from the goroutine that holds the job, and a job whose
    worker died goes back to wait. These hold from a store in which no lock is
    held, for workers of this queue, tokens that are never drawn twice, custom
    ids that are no numerals, have no colon and do not name a key of the queue,
    and ids of schedules without colon ([admissible]), and for drains and cron
    schedules at the right time ([timely]). [numeric_id_collides] and
    [drain_strands_schedule] show that the code does not see to this itself. *)

From S2P Require Import Prelude GoLib Keys Backoff Effects Json Jobs Proto Cron Config Finalise Worker Dispatch Queue Inspect Redis RedisInv Fencing Persist Concurrent Recovery.
Import lua.

Section system.
Context `{Codec} `{GoArch} `{CronLib} {T : Type} `{Payload T}.
Variable cjson : any → string.
Variable q : Queue.
Abbreviation b := (q_keys q).
Abbreviation reachable := (reachable (T := T) cjson q).
Abbreviation perform := (perform (T := T) cjson q).

(** A store no worker holds anything in. *)
Definition at_rest (st : store) : Prop := inv b [] st ∧ locks st = ∅.

(** C4. Whatever producers, schedules, workers, stalled checks,
    heartbeats, shutdowns and administrators do on one queue, however their
    script calls interleave, whichever replies get lost and whichever locks
    expire, as long as a custom id is no numeral, has no colon and is no key name
    of the queue, the id of a schedule has no colon, a drain finds no due
    iteration in a list and a cron schedule that is set up anew finds no other
    job of its own in the slot: every job stored under the queue's prefix is in exactly one of wait, active, paused, delayed,
    prioritized, completed and failed, and these hold nothing but stored jobs. *)
Theorem queue_conserves st s :
  at_rest st → reachable st s →
  NoDup (ids b (redis s)) ∧ ∀ id, id ∈ ids b (redis s) ↔ is_job b (redis s) id.
Proof.
  intros [Hi Hl] Hr. destruct (reachable_ok cjson q st s Hi Hl Hr) as [[Hnd Hj _ _ _] _ _ _]. done.
Qed.

(** C5. In every interleaving, an outcome that a
    script accepts (completion, failure, retry or delay) comes from the
    goroutine that took the job last, under the token it took it with, and no
    outcome was accepted since: a worker that lost its lock cannot settle a job
    that someone else runs, and no take is settled twice. *)
Theorem outcomes_fenced st s l1 i j t l2 :
  at_rest st → reachable st s → hist s = l1 ++ (i, Settle j t) :: l2 → holder l1 j = Some (i, t).
Proof.
  intros [Hi Hl] Hr Hh. by eapply (g_fenced _ _ _ _ (ok_locks _ _ (reachable_ok cjson q st s Hi Hl Hr))).
Qed.

(** The calls that may delete job [id]: its removal, its own end, another job's
    end while [id] lies among the finished jobs, a drain while it waits, and a
    new version of its schedule while it is the iteration that is due. *)
Definition may_delete (st : store) (id : string) (call : ScriptName * list any) : Prop :=
  match call with
  | (Effects.RemoveJob, args) => str (argv args 1) = id
  | (MoveToFinished, args) =>
      str (argv args 1) = id ∨ id ∈ members (keys.Completed b) st ∨ id ∈ members (keys.Failed b) st
  | (Effects.Drain, args) => drains b (String.eqb (str (argv args 2)) "1") st id
  | (AddJobScheduler, args) => replaces b args st id
  | _ => False
  end.

Lemma script_deletes o n ks args st id :
  proper_call b n ks args → inv b [] st → timely b n args st → is_job b st id → ¬ is_job b (script cjson o n ks args st).1.2 id →
  may_delete st id (n, args).
Proof.
  intros Hp Hi Ht Hj Hn. destruct (deletes n) eqn:Ed.
  2: { exfalso. by apply Hn, script_keeps. }
  destruct n; try done; cbn [may_delete].
  2: { destruct (addJobScheduler_keeps b cjson ks args st id Hp Hi Hj) as [Hk|Hk]; [|done]. exfalso. apply Hn. cbn.
       unfold mbind, Lua_bind. by destruct (addJobScheduler cjson ks args st) as [[v st'] es]. }
  - destruct (decide (id = str (argv args 1))) as [->|Hne]; [by left|]. right.
    destruct (zget (key ks 11) st !! id) eqn:Ez.
    + destruct Hp as (_ & [Hk|Hk] & _); rewrite Hk in Ez; [left | right]; apply elem_of_members; eauto.
    + exfalso. apply Hn. pose proof (moveToFinished_keeps o b ks args st id Hp Hne Ez Hj) as Hk. cbn.
      unfold mbind, Lua_bind. by destruct (moveToFinished o ks args st) as [[v st'] es].
  - destruct (decide (id = str (argv args 1))) as [->|Hne]; [done|]. exfalso. apply Hn.
    pose proof (removeJob_keeps b ks args st id Hp Hne Hj) as Hk. cbn.
    unfold mbind, Lua_bind. by destruct (removeJob ks args st) as [[v st'] es].
  - destruct (drain_keeps b ks args st id Hp Hi Ht Hj) as [Hk|Hk]; [|done]. exfalso. apply Hn. cbn.
    unfold mbind, Lua_bind. by destruct (drain ks args st) as [[v st'] es].
Qed.

(** Pipelines and expiring keys delete no job. *)
Lemma written_keeps own r n st id :
  lawful b own r → inv b [] st → is_job b st id → is_job b (written r n st) id.
Proof.
  assert (Hdel : ∀ k st, disposable b k → inv b [] st → is_job b st id → is_job b (del k st) id).
  { intros k st' Hk Hi Hj. pose proof (disposable_no_job q k st' id Hk Hi Hj) as Hne.
    unfold is_job, hgetall, del. cbn. by rewrite lookup_delete_ne. }
  intros Hc Hi Hj. destruct r; try done; cbn in *.
  - apply (Forall_take _ n) in Hc. revert st Hi Hj.
    induction Hc as [|d ds Hd Hds IH]; intros st Hi Hj; cbn; [done|]. apply IH; [by apply apply_cmd_inv|].
    destruct d; try done; cbn; [|by apply Hdel]. destruct (_ !! _); [done|]. apply keeps_hset; [|done].
    intros Hs. rewrite lookup_insert. by case_decide.
  - by destruct n.
  - destruct n; [done|]. by apply Hdel.
Qed.

(** C6. A job vanishes only through a call of removeJob for it,
    of moveToFinished, for it or while it lies in completed or failed, where
    retention applies, of drain while it waits, or of addJobScheduler while it
    waits as the iteration of that schedule that is due. No retry, delay,
    promotion, stalled check, pause, crash, lost reply or expired key ever loses
    one, and no job that waits, is delayed, or runs elsewhere is ever deleted by
    another's outcome. *)
Theorem jobs_never_lost st s a s' id :
  at_rest st → reachable st s → allowed q a s → perform a s = Some s' →
  is_job b (redis s) id → ¬ is_job b (redis s') id →
  ∃ call, serves a s = Some call ∧ may_delete (redis s) id call.
Proof.
  intros [Hi Hl] Hr Ha Hp Hj Hn. pose proof (reachable_ok cjson q st s Hi Hl Hr) as Hok.
  destruct a as [p|i o lost|i e|i x|i ans n|k|k|]; cbn [Concurrent.perform] in Hp; cbn [serves];
    try (by injection Hp as <-); destruct (gos s !! i) as [[[|r k] own]|] eqn:Hg; try done.
  - destruct r; try done. pose proof (script_deletes o name keys args (redis s) id) as Hd.
    cbn in Ha. rewrite Hg in Ha. destruct (script _ _ _ _ _ _) as [[v st'] es]. injection Hp as <-.
    destruct (ok_code _ _ Hok i _ Hg) as [[Hc _] _]. eexists. split; [done|]. by apply Hd, Hn; [|apply Hok|..].
  - destruct r; try done. by injection Hp as <-.
  - destruct r; try done. by destruct (_ && _); [injection Hp as <-|].
  - destruct (ok_code _ _ Hok i _ Hg) as [Hc _].
    exfalso. apply Hn. assert (redis s' = written r n (redis s)) as -> by (destruct r; try done; by injection Hp as <-).
    eapply written_keeps; [exact Hc | apply Hok | done].
Qed.
End system.

(** ** Jobs whose worker died *)

Section recovery.
Context `{Codec}.
Variable cjson : any → string.
Variable q : Queue.
Variable w : Worker.

(** The store after a stalled check, and after its check key expired. *)
Definition checked (o : oracle) (st : store) : store := world (redis_server cjson o) (runStalledCheck w) st.
Definition expired (st : store) : store := with_strs (delete (keys.StalledCheck (q_keys q))) st.

Lemma checked_script o st :
  wkeys w = newQueueKeys q → ∃ ks args,
    checked o st = (moveStalledJobsToWait ks args st).1.2 ∧ check_keys (q_keys q) ks ∧
    str (argv args 2) = keys.Base (q_keys q).
Proof.
  intros Hw. exists (moveStalledKeys (newQueueKeys q)),
    [AInt (maxStalledCount (cfg w)); AStr (prefix (newQueueKeys q)); AInt64 (UnixMilli (1700000000000 * Millisecond));
     AInt64 (stalledCheckTTL (stalledInterval (cfg w)))].
  split; [|split; [by repeat constructor | done]].
  unfold checked, world, runStalledCheck. rewrite Hw. cbn -[moveStalledJobsToWait UnixMilli stalledCheckTTL].
  unfold mbind, Lua_bind. by destruct (moveStalledJobsToWait _ _ st) as [[v st'] es].
Qed.

(** C15. A job whose worker died: still in active, its
    lock gone. Two stalled checks, the second once the first one's check key has
    expired, put it back into wait and take it out of active, whatever else is
    in the store and however many jobs are recovered with it. *)
Theorem stalled_jobs_recovered o1 o2 st j :
  wkeys w = newQueueKeys q → inv (q_keys q) [] st → check_due (q_keys q) st → orphan (q_keys q) j st →
  let st' := checked o2 (expired (checked o1 st)) in
  j ∈ lget (keys.Wait (q_keys q)) st' ∧ j ∉ lget (keys.Active (q_keys q)) st'.
Proof.
  intros Hw Hi Hd Ho. set (b := q_keys q) in *. cbv zeta.
  assert (Hm : legacy_marker j = false).
  { apply (inv_marker _ _ _ Hi), (inv_jobs _ _ _ Hi). cbn. eapply ids_place, Ho. auto with lua. }
  destruct (checked_script o1 st Hw) as (ks1 & args1 & -> & Hk1 & Hp1).
  set (st1 := (moveStalledJobsToWait ks1 args1 st).1.2).
  destruct (checked_script o2 (expired st1) Hw) as (ks2 & args2 & -> & Hk2 & Hp2).
  assert (Hdue : check_due b (expired st1)) by (unfold check_due, expired; cbn; by rewrite lookup_delete_eq).
  assert (Hkeep : ∀ ks args, check_keys b ks → hoare (inv b []) (moveStalledJobsToWait ks args) (λ _, inv b [])).
  { intros ks args Hk. apply hoare_moveStalled. repeat (apply Forall_cons in Hk as [? Hk]). by repeat constructor. }
  assert (Hi2 : inv b [] (moveStalledJobsToWait ks2 args2 (expired st1)).1.2).
  { apply Hkeep; [done|]. apply inv_strs. by apply Hkeep. }
  assert (Hw2 : waits b j (moveStalledJobsToWait ks2 args2 (expired st1)).1.2).
  { destruct (check_orphan b j ks1 args1 Hk1 Hp1 Hm st (conj Hd Ho)) as [Hwt|[Ho1 Hj1]].
    - by apply check_waits.
    - by apply check_marked. }
  split; [exact Hw2|]. intros Ha. pose proof (inv_nodup _ _ _ Hi2) as Hnd. cbn in Hnd.
  unfold ids, lplaces in Hnd. cbn in Hnd. apply NoDup_app in Hnd as (Hnd & _ & _).
  apply NoDup_app in Hnd as (_ & Hnd & _). apply (Hnd j Hw2). apply elem_of_app. by left.
Qed.
End recovery.

(** ** Concrete runs *)

Section runs.
Context `{Codec} `{GoArch} `{CronLib} {T : Type} `{Payload T}.
Variable cjson : any → string.
Variable q : Queue.

(** No call that has to come at the right time. *)
Definition anytime (a : action (T := T)) (s : sys) : bool :=
  match serves a s with Some (Effects.Drain, _) | Some (AddJobScheduler, _) => false | _ => true end.

Fixpoint runs (acts : list (action (T := T))) (s : sys) : option sys :=
  match acts with
  | [] => Some s
  | a :: acts => if anytime a s then s' ← perform cjson q a s; runs acts s' else None
  end.

(** The programs that a list of actions starts. *)
Definition spawns (a : action (T := T)) : Prop := match a with Spawn p => admissible q p | _ => True end.

Lemma anytime_allowed a s : spawns a → anytime a s = true → allowed q a s.
Proof. unfold allowed, anytime. destruct a; try done. intros _. destruct (serves _ _) as [[[] args]|]; done. Qed.

Lemma runs_reachable st acts s s' :
  reachable (T := T) cjson q st s → Forall spawns acts → runs acts s = Some s' →
  reachable (T := T) cjson q st s'.
Proof.
  intros Hr Ha. revert s Hr. induction Ha as [|a acts Ha Has IH]; intros s Hr; cbn; [by intros [= <-]|].
  destruct (anytime a s) eqn:Et; [|done]. apply (anytime_allowed _ _ Ha) in Et.
  destruct (perform cjson q a s) as [s1|] eqn:E; [|done]. cbn. intros Hs. apply (IH s1); [|done].
  by eapply reach_step.
Qed.

(** Goroutine [i] takes [n] steps against an environment in which nothing is
    wrong, drawing [uuid] when it asks for a token. *)
Definition plain_step (i : nat) (uuid : string) (o : oracle) (s : sys) : option (action (T := T)) :=
  match gos s !! i with
  | Some (Go (Vis r _) _) =>
      Some match r with
      | RScript _ _ _ _ => Serve i o None
      | RUuid => Draw i uuid
      | _ => Answer i (λ r, (quiet tt r).1) 9
      end
  | _ => None
  end.

Fixpoint plan (n i : nat) (uuid : string) (o : oracle) (s : sys) : list (action (T := T)) :=
  match n with
  | O => []
  | S n =>
      match plain_step i uuid o s with
      | None => []
      | Some a => a :: match perform cjson q a s with Some s' => plan n i uuid o s' | None => [] end
      end
  end.
End runs.

(** A plan starts nothing. *)
Lemma plan_allowed `{Codec} `{GoArch} `{CronLib} {T : Type} `{Payload T} cjson q n i uuid o s :
  Forall (spawns q) (plan (T := T) cjson q n i uuid o s).
Proof.
  revert s. induction n as [|n IH]; intros s; cbn; [constructor|]. unfold plain_step.
  destruct (gos s !! i) as [[[|r k] own]|]; try constructor; [by destruct r|].
  destruct (perform _ _ _ _); [apply IH | constructor].
Qed.

Lemma empty_inv b : inv b [] emptyStore.
Proof.
  assert (Hn : ∀ id, ¬ is_job b emptyStore id) by by intros id [].
  split; cbn; [constructor | | | |done|by intros id ?%Hn].
  - intros id. split; [by intros ?%not_elem_of_nil | by intros ?%Hn].
  - by intros n _ ?%Hn.
  - by intros id ?%Hn.
Qed.

Section sample.
#[local] Existing Instance treeMsgpack.
#[local] Existing Instance treeCodec.
#[local] Existing Instance amd64.
#[local] Existing Instance hourly.
#[local] Existing Instance rawPayload.

Abbreviation acts_of := (plan (T := string) sampleJson sampleQueue).
Abbreviation run_acts := (runs (T := string) sampleJson sampleQueue).
Abbreviation sb := (q_keys sampleQueue).

(** One goroutine adds a job, another one takes it and completes it. *)
Definition sampleUpTo (n : nat) : list (action (T := string)) :=
  let a0 := [Spawn (PAdd "order-1" []); Spawn (PDispatch sampleWorker 1)] in
  match run_acts a0 (starts emptyStore) with
  | None => a0
  | Some s =>
      let a1 := acts_of 20 0 "t0" plainOracle s in
      match run_acts a1 s with
      | None => a0
      | Some s => a0 ++ a1 ++ acts_of n 1 "t1" plainOracle s
      end
  end.

Definition sampleActs : list (action (T := string)) := sampleUpTo 40.

Lemma sample_allowed n : Forall (spawns sampleQueue) (sampleUpTo n).
Proof.
  assert (Hspawn : Forall (spawns sampleQueue) [Spawn (PAdd "order-1" []); Spawn (PDispatch sampleWorker 1)]).
  { repeat constructor. }
  unfold sampleUpTo. destruct (run_acts _ _) as [s1|]; [|done]. destruct (run_acts _ _) as [s2|]; [|done].
  apply Forall_app. split; [done|]. apply Forall_app. split; apply plan_allowed.
Qed.

Lemma sample_reachable acts :
  isSome (run_acts acts (starts emptyStore)) = true → Forall (spawns sampleQueue) acts →
  ∃ s, run_acts acts (starts emptyStore) = Some s ∧ reachable (T := string) sampleJson sampleQueue emptyStore s.
Proof.
  intros Hs Ha. destruct (run_acts acts (starts emptyStore)) as [s|] eqn:E; [|done].
  exists s. split; [done|]. by eapply runs_reachable; [apply reach_start | |].
Qed.

Lemma sample_rest : at_rest sampleQueue emptyStore.
Proof. split; [apply empty_inv | done]. Qed.

(** What a run computes, once its state is named. *)
Lemma sample_value {A} (f : sys → A) acts s x :
  run_acts acts (starts emptyStore) = Some s → f <$> run_acts acts (starts emptyStore) = Some x → f s = x.
Proof. intros ->. by intros [= ->]. Qed.

Lemma queue_conserves_witness :
  ∃ s, run_acts sampleActs (starts emptyStore) = Some s ∧ ids sb (redis s) = ["1"] ∧
    NoDup (ids sb (redis s)) ∧ ∀ id, id ∈ ids sb (redis s) ↔ is_job sb (redis s) id.
Proof.
  destruct (sample_reachable sampleActs) as (s & E & Hr); [by vm_compute | apply sample_allowed|].
  exists s. split; [exact E|]. split; [apply (sample_value (λ s, ids sb (redis s)) _ _ _ E); by vm_compute|].
  apply (queue_conserves (T := string) sampleJson sampleQueue emptyStore s sample_rest Hr).
Defined.

Lemma outcomes_fenced_witness :
  ∃ s l1 l2, run_acts sampleActs (starts emptyStore) = Some s ∧
    hist s = l1 ++ (1%nat, Settle "1" "t1") :: l2 ∧ holder l1 "1" = Some (1%nat, "t1").
Proof.
  destruct (sample_reachable sampleActs) as (s & E & Hr); [by vm_compute | apply sample_allowed|].
  assert (Hh : hist s = [(1%nat, Take "1" "t1")] ++ (1%nat, Settle "1" "t1") :: []).
  { apply (sample_value hist _ _ _ E). by vm_compute. }
  exists s, [(1%nat, Take "1" "t1")], []. split; [exact E|]. split; [exact Hh|].
  apply (outcomes_fenced (T := string) sampleJson sampleQueue emptyStore s _ _ _ _ _ sample_rest Hr Hh).
Defined.

(** The completed job, and an administrator about to remove it. *)
Definition removeActs : list (action (T := string)) := sampleActs ++ [Spawn (PRemove "1")].

Definition has_job (id : string) (s : sys) : bool :=
  bool_decide (is_Some (hgetall (keys.Job sb id) (redis s) !! "timestamp")).

Lemma jobs_never_lost_witness :
  ∃ s s' call, run_acts removeActs (starts emptyStore) = Some s ∧
    perform sampleJson sampleQueue (Serve 2 plainOracle None) s = Some s' ∧
    serves (T := string) (Serve 2 plainOracle None) s = Some call ∧ may_delete sampleQueue (redis s) "1" call.
Proof.
  destruct (sample_reachable removeActs) as (s & E & Hr); [by vm_compute | |].
  { apply Forall_app. split; [apply sample_allowed | by repeat constructor]. }
  assert (Hj : is_job sb (redis s) "1").
  { apply (bool_decide_eq_true (is_Some _)), (sample_value (has_job "1") _ _ _ E). by vm_compute. }
  assert (Hrm : has_job "1" <$> perform sampleJson sampleQueue (Serve 2 plainOracle None) s = Some false).
  { apply (sample_value (λ s, has_job "1" <$> perform sampleJson sampleQueue (Serve 2 plainOracle None) s) _ _ _ E).
    by vm_compute. }
  assert (Ha : allowed (T := string) sampleQueue (Serve 2 plainOracle None) s).
  { apply anytime_allowed; [done|]. apply (sample_value (anytime (Serve 2 plainOracle None)) _ _ _ E). by vm_compute. }
  apply fmap_Some in Hrm as (s' & E' & Hb). symmetry in Hb. apply bool_decide_eq_false in Hb.
  destruct (jobs_never_lost (T := string) sampleJson sampleQueue emptyStore s (Serve 2 plainOracle None) s' "1"
    sample_rest Hr Ha E' Hj Hb) as (call & Hc & Hd).
  exists s, s', call. exact (conj E (conj E' (conj Hc Hd))).
Defined.

(** The job taken, and its lock expired before the handler was done. *)
Definition orphanActs : list (action (T := string)) := sampleUpTo 4 ++ [ExpireLock (lockKey (keys.Job sb "1"))].

Lemma stalled_jobs_recovered_witness :
  ∃ s, run_acts orphanActs (starts emptyStore) = Some s ∧
  let st' := checked sampleJson sampleWorker plainOracle
               (expired sampleQueue (checked sampleJson sampleWorker plainOracle (redis s))) in
  "1" ∈ lget (keys.Wait sb) st' ∧ "1" ∉ lget (keys.Active sb) st'.
Proof.
  destruct (sample_reachable orphanActs) as (s & E & Hr); [by vm_compute | |].
  { apply Forall_app. split; [apply sample_allowed | by repeat constructor]. }
  assert (Hi : inv sb [] (redis s)) by apply (ok_store _ _ (reachable_ok _ _ _ _ (empty_inv sb) eq_refl Hr)).
  assert (Hv : strs (redis s) !! keys.StalledCheck sb = None ∧ lget (keys.Active sb) (redis s) = ["1"] ∧
    locks (redis s) !! lockKey (keys.Job sb "1") = None).
  { split_and!.
    - apply (sample_value (λ s, strs (redis s) !! keys.StalledCheck sb) _ _ _ E). by vm_compute.
    - apply (sample_value (λ s, lget (keys.Active sb) (redis s)) _ _ _ E). by vm_compute.
    - apply (sample_value (λ s, locks (redis s) !! lockKey (keys.Job sb "1")) _ _ _ E). by vm_compute. }
  destruct Hv as (Hd & Ha & Hl). exists s. split; [exact E|].
  apply (stalled_jobs_recovered sampleJson sampleQueue sampleWorker plainOracle plainOracle (redis s) "1");
    [reflexivity | exact Hi | exact Hd |].
  split; [rewrite Ha; by left | exact Hl].
Defined.

End sample.
