(* ===== verification/Delivery.v ===== *)
(** * From [Add] to the handler

    A producer and a worker against one store: what [Add] is given is what the
    handler of the next worker that asks is given, through the packing of the
    arguments, the scripts, the stored HASH and the parsing of the reply. *)

From S2P Require Import Prelude GoLib Keys Backoff Effects Json Jobs Proto Cron Config Finalise Worker Queue Inspect Redis RedisInv Fencing Concurrent Recovery.
Import lua.

(** msgpack packs everything mkq builds. *)
Class Packs `{Msgpack} := packs : ∀ v, ∃ bs, msgpack_Marshal v = inr bs.

Section delivery.
Context `{Codec} `{!Packs} `{GoArch} `{CronLib} {T : Type} `{Payload T}.
Variable cjson : any → string.
Variable o : oracle.
Variable q : Queue.
Abbreviation b := (q_keys q).

(** A queue that is neither paused nor capped, with nothing delayed. *)
Definition flowing (st : store) : Prop :=
  hgetall (keys.Meta b) st !! "paused" = None ∧ hgetall (keys.Meta b) st !! "concurrency" = None ∧
  hgetall (keys.Meta b) st !! "max" = None ∧ zget (keys.Delayed b) st = ∅.

(** The next id, not yet stored. *)
Definition next_id (st : store) : string := FormatInt (default 0 (nums st !! keys.ID b) + 1).

Definition vacant_next (st : store) : Prop :=
  0 ≤ default 0 (nums st !! keys.ID b) < maxInt64 ∧ hashes st !! keys.Job b (next_id st) = None.

(** The job [id] waits alone, with its name and data. *)
Definition parked (id name data : string) (st : store) : Prop :=
  flowing st ∧ lget (keys.Wait b) st = [id] ∧
  hgetall (keys.Job b id) st !! "name" = Some name ∧ hgetall (keys.Job b id) st !! "data" = Some data ∧
  hgetall (keys.Job b id) st !! "defa" = None.

Lemma numeral_not_meta st : 0 ≤ default 0 (nums st !! keys.ID b) < maxInt64 → keys.Job b (next_id st) ≠ keys.Meta b.
Proof.
  intros Hc E%sapp_inv_head. apply (f_equal ParseInt) in E. unfold next_id in E.
  rewrite ParseInt_FormatInt in E; [done|]. unfold in64, minInt64. lia.
Qed.

(** Writes to the HASH of [id] keep the queue flowing. *)
Lemma flowing_hset id h st : keys.Job b id ≠ keys.Meta b → flowing st → flowing (hset (keys.Job b id) h st).
Proof.
  intros Hne. unfold flowing. rewrite hgetall_hset, bool_decide_eq_false_2 by done. done.
Qed.

(** The id is free, and nothing waits. *)
Definition free_id (id : string) (st : store) : Prop :=
  flowing st ∧ hashes st !! keys.Job b id = None ∧ keys.Job b id ≠ keys.Meta b ∧ lget (keys.Wait b) st = [].

Lemma hashes_hset_ne k k' h st : k ≠ k' → hashes (hset k h st) !! k' = hashes st !! k'.
Proof. intros Hne. unfold hset. cbn [hashes]. case_bool_decide; [by apply lookup_delete_ne | by apply lookup_insert_ne]. Qed.

Lemma free_maxEvents id : hoare (free_id id) (getOrSetMaxEvents (keys.Meta b)) (λ _, free_id id).
Proof.
  intros st (Hf & Hh & Hne & Hw). unfold getOrSetMaxEvents, HGET, gets, mbind, Lua_bind.
  destruct (hgetall (keys.Meta b) st !! "opts.maxLenEvents"); [done|]. unfold HMSET, modify. cbn [fst snd foldl].
  split_and!; [|rewrite hashes_hset_ne; [done | congruence] | done | done].
  unfold flowing in *. rewrite hgetall_hset, bool_decide_eq_true_2 by done. rewrite !lookup_insert_ne by done. exact Hf.
Qed.

(** A HASH freshly stored. *)
Lemma free_store id name data opts ts :
  truthy (field (field opts "de") "id") = false →
  hoare (free_id id) (storeJob cjson (keys.Job b id) name data opts ts ANil)
    (λ _ st, flowing st ∧ lget (keys.Wait b) st = [] ∧ hgetall (keys.Job b id) st !! "name" = Some name ∧
      hgetall (keys.Job b id) st !! "data" = Some data ∧ hgetall (keys.Job b id) st !! "defa" = None).
Proof.
  intros Hde. unfold storeJob. rewrite Hde. cbn [truthy app]. eapply hoare_bind; [|intros ?; apply hoare_ret; intros ? HR; exact HR].
  apply hoare_modify. intros st (Hf & Hh & Hne & Hw). cbn [foldl fst snd].
  assert (hgetall (keys.Job b id) st = ∅) as -> by (unfold hgetall; by rewrite Hh).
  split_and!; [by apply flowing_hset | done | | |]; rewrite hgetall_hset, bool_decide_eq_true_2 by done;
    rewrite ?lookup_insert_ne, ?lookup_insert by done; by rewrite ?decide_True.
Qed.

(** ** The producer's side *)

(** An [Add] without a delay, a priority, an id or a deduplication of its own. *)
Definition plain (c : addConfig) : Prop :=
  ac_jobID c = "" ∧ ac_dedupID c = "" ∧ ac_dedupSet c = false ∧ ac_jobNameSet c = negb (String.eqb (ac_jobName c) "") ∧
  Milliseconds (ac_delay c) = 0 ∧ ac_priority c = 0.

Lemma no_dedup c ms : ac_dedupID c = "" → map_get (proto.addOpts_map (toProtoOpts c ms)) "de" = None.
Proof.
  intros Hd. unfold proto.addOpts_map, toProtoOpts. cbn [proto.Dedup]. rewrite Hd. cbn [negb String.eqb].
  unfold proto.set_if, proto.set_opt. repeat (case_match; simplify_eq); by rewrite ?map_get_set_ne.
Qed.

Lemma plain_dedup c : plain c → map_get (proto.addOpts_map (toProtoOpts c 0)) "de" = None.
Proof. intros (_ & Hd & _). by apply no_dedup. Qed.

Lemma add_parks st c args opts name data ts :
  flowing st → vacant_next st → lget (keys.Wait b) st = [] → plain c →
  msgpack_Marshal (proto.addArgs_array (proto.mkAddArgs (keys.Base b) "" name ts "" "" None "" "")) = inr args →
  proto.EncodeAddOpts (toProtoOpts c 0) = inr opts →
  let r := addStandardJob cjson o (dispatch q 0 0).2 [ABytes args; ABytes data; ABytes opts] st in
  r.1.1 = inr (AStr (next_id st)) ∧ parked (next_id st) name data r.1.2.
Proof.
  intros Hf (Hc & Hh) Hw Hp Ea Eo. pose proof (numeral_not_meta st Hc) as Hne.
  apply unpack_law in Ea, Eo. set (id := next_id st) in *. cbv zeta.
  assert (Hde : field (unpack opts) "de" = ANil) by (rewrite Eo, field_lua; cbn [field]; by rewrite plain_dedup).
  pattern (addStandardJob cjson o (dispatch q 0 0).2 [ABytes args; ABytes data; ABytes opts] st).
  apply (λ Hh : hoare (λ st', st' = st) (addStandardJob cjson o (dispatch q 0 0).2 [ABytes args; ABytes data; ABytes opts])
    (λ r st', r = inr (AStr id) ∧ parked id name data st'), Hh st eq_refl).
  unfold addStandardJob, addJob, dispatch. cbn [key]. unfold key, argv. cbn -[FormatInt]. rewrite Ea, Hde. cbn -[FormatInt].
  eapply hoare_bind with (R := λ cnt st', (∃ n, cnt = Some n ∧ FormatInt n = id) ∧ free_id id st').
  { intros st' ->. unfold INCR64. destruct (Z.leb_spec (default 0 (nums st !! keys.ID b) + 1) maxInt64); [|lia].
    cbn -[FormatInt]. split; [by eexists|]. done. }
  intros cnt. apply hoare_pure. intros (n & -> & En). rewrite En.
  apply hoare_keep; [apply free_maxEvents|]. intros _. do 2 apply hoare_known.
  eapply hoare_bind; [apply free_store; by rewrite Hde|]. intros ?.
  eapply hoare_bind with (R := λ _, parked id name data); [|intros _; by apply hoare_ret].
  intros st' (Hf' & Hw' & Hj). unfold pushCmd.
  destruct (String.eqb _ "RPUSH"); unfold RPUSH, LPUSH, modify; cbn [fst snd]; rewrite Hw';
    (split_and!; [done | by rewrite lget_lset, bool_decide_eq_true_2 | apply Hj..]).
Qed.

#[local] Set Default Proof Using "Type*".

Definition name_for (c : addConfig) : string :=
  if negb (String.eqb (ac_jobName c) "") then ac_jobName c else q_name q.

(** [Add] sends the script what it was given, and reports the id it answers. *)
Lemma Add_calls st payload data opts :
  let c := applyOptions opts zeroAdd in
  MarshalJSON payload = inr data → plain c →
  ∃ args optsB ts,
    msgpack_Marshal (proto.addArgs_array (proto.mkAddArgs (keys.Base b) "" (name_for c) ts "" "" None "" "")) = inr args ∧
    proto.EncodeAddOpts (toProtoOpts c 0) = inr optsB ∧
    let a := addStandardJob cjson o (dispatch q 0 0).2 [ABytes args; ABytes data; ABytes optsB] st in
    ∀ id, a.1.1 = inr (AStr id) →
    let r := result (redis_server cjson o) (Add (T := T) q payload opts) st in
    Job_ID <$> r.1 = Some id ∧ r.2 = None ∧ world (redis_server cjson o) (Add (T := T) q payload opts) st = a.1.2.
Proof.
  intros c Hm Hp. unfold result, world, Add. fold c. pose proof Hp as (Hid & Hd & Hds & Hns & Hdl & Hpr).
  assert (validateAdd c (Milliseconds (ac_delay c)) = None) as ->.
  { unfold validateAdd. rewrite Hdl, Hds, Hns. cbn. by destruct (String.eqb (ac_jobName c) ""). }
  unfold addBody. rewrite Hm, Hid, Hd, Hdl, Hpr. cbn [negb String.eqb].
  set (ts := UnixMilli (1700000000000 * Millisecond)).
  destruct (packs (proto.addArgs_array (proto.mkAddArgs (keys.Base b) "" (name_for c) ts "" "" None "" ""))) as [args Ea].
  destruct (packs (AMap (proto.addOpts_map (toProtoOpts c 0)))) as [optsB Eo].
  exists args, optsB, ts. split; [done|]. split; [done|]. intros id E.
  cbn -[UnixMilli script]. fold (name_for c) ts. unfold proto.EncodeAddArgs, proto.EncodeAddOpts. rewrite Ea, Eo.
  cbn -[UnixMilli addStandardJob]. cbn -[addStandardJob] in E.
  destruct (addStandardJob _ _ _ _ st) as [[v st1] es]. cbn in E. subst v. done.
Qed.

(** [Add] stores the job under the next id and reports that id. *)
Lemma Add_parks st payload data opts :
  MarshalJSON payload = inr data → flowing st → vacant_next st → lget (keys.Wait b) st = [] →
  let c := applyOptions opts zeroAdd in plain c →
  Job_ID <$> (result (redis_server cjson o) (Add (T := T) q payload opts) st).1 = Some (next_id st) ∧
  (result (redis_server cjson o) (Add (T := T) q payload opts) st).2 = None ∧
  parked (next_id st) (name_for c) data (world (redis_server cjson o) (Add (T := T) q payload opts) st).
Proof.
  intros Hm Hf Hv Hw c Hp. destruct (Add_calls st payload data opts Hm Hp) as (args & optsB & ts & Ea & Eo & Hadd).
  destruct (add_parks st c args optsB (name_for c) data ts Hf Hv Hw Hp Ea Eo) as [E Hpk].
  destruct (Hadd _ E) as (E1 & E2 & E3). by rewrite E3.
Qed.

(** ** Ids that collide *)

(** A plain [Add]'s script when the next number is taken. *)
Lemma add_overwrites st c args opts name data ts :
  0 ≤ default 0 (nums st !! keys.ID b) < maxInt64 → plain c →
  msgpack_Marshal (proto.addArgs_array (proto.mkAddArgs (keys.Base b) "" name ts "" "" None "" "")) = inr args →
  proto.EncodeAddOpts (toProtoOpts c 0) = inr opts →
  let r := addStandardJob cjson o (dispatch q 0 0).2 [ABytes args; ABytes data; ABytes opts] st in
  r.1.1 = inr (AStr (next_id st)) ∧ lget (keys.Wait b) r.1.2 ≡ₚ next_id st :: lget (keys.Wait b) st ∧
  hgetall (keys.Job b (next_id st)) r.1.2 !! "data" = Some data ∧
  hgetall (keys.Job b (next_id st)) r.1.2 !! "name" = Some name.
Proof.
  intros Hc Hp Ea Eo. apply unpack_law in Ea, Eo. set (id := next_id st) in *. cbv zeta.
  assert (Hde : field (unpack opts) "de" = ANil) by (rewrite Eo, field_lua; cbn [field]; by rewrite plain_dedup).
  set (Post := λ st', lget (keys.Wait b) st' ≡ₚ id :: lget (keys.Wait b) st ∧
    hgetall (keys.Job b id) st' !! "data" = Some data ∧ hgetall (keys.Job b id) st' !! "name" = Some name).
  apply (λ Hm : hoare (λ st', st' = st) (addStandardJob cjson o (dispatch q 0 0).2 [ABytes args; ABytes data; ABytes opts])
    (λ r st', r = inr (AStr id) ∧ Post st'), Hm st eq_refl).
  unfold addStandardJob, addJob, dispatch. cbn [key]. unfold key, argv. cbn -[FormatInt]. rewrite Ea, Hde. cbn -[FormatInt].
  eapply hoare_bind with (R := λ cnt st', (∃ n, cnt = Some n ∧ FormatInt n = id) ∧ lists st' = lists st).
  { intros st' ->. unfold INCR64. destruct (Z.leb_spec (default 0 (nums st !! keys.ID b) + 1) maxInt64); [|lia].
    cbn -[FormatInt]. split; [by eexists | done]. }
  intros cnt. apply hoare_pure. intros (n & -> & En). rewrite En.
  apply hoare_keep.
  { intros st' E. unfold getOrSetMaxEvents, HGET, gets, mbind, Lua_bind. by destruct (hgetall _ st' !! _). }
  intros _. do 2 apply hoare_known.
  eapply hoare_bind with (R := λ _ st', lists st' = lists st ∧ hgetall (keys.Job b id) st' !! "data" = Some data ∧
    hgetall (keys.Job b id) st' !! "name" = Some name).
  { unfold storeJob. rewrite Hde. cbn [truthy field app]. eapply hoare_bind; [|intros ?; apply hoare_ret; intros ? HR; exact HR].
    apply hoare_modify. intros st' E. cbn [foldl fst snd]. split; [done|].
    split; (rewrite hgetall_hset, bool_decide_eq_true_2 by done); rewrite ?lookup_insert_ne by done; by rewrite lookup_insert_eq. }
  intros dp. eapply hoare_bind with (R := λ _, Post); [|intros _; by apply hoare_ret].
  intros st' (E & Hj). unfold Post, pushCmd.
  assert (Ew : lget (keys.Wait b) st' = lget (keys.Wait b) st) by (unfold lget; by rewrite E).
  destruct (String.eqb _ "RPUSH"); unfold RPUSH, LPUSH, modify; cbn [fst snd]; rewrite lget_lset, bool_decide_eq_true_2, Ew by done;
    (split; [|done]); [by rewrite Permutation_app_comm | done].
Qed.

(** C37. A custom id that is a numeral collides with the counter.
    Whatever the store: when the next number of the counter is the id of a job
    that waits, [Add] without an id of its own reports that id and no error, but
    the HASH of that job now has the new name and payload, and the id is in the
    wait list once more than before, so that the old payload is lost and the new
    one runs twice. *)
Theorem numeric_id_collides st payload data opts :
  let c := applyOptions opts zeroAdd in
  MarshalJSON payload = inr data → 0 ≤ default 0 (nums st !! keys.ID b) < maxInt64 → plain c →
  next_id st ∈ lget (keys.Wait b) st →
  let id := next_id st in
  let r := result (redis_server cjson o) (Add (T := T) q payload opts) st in
  let st' := world (redis_server cjson o) (Add (T := T) q payload opts) st in
  Job_ID <$> r.1 = Some id ∧ r.2 = None ∧ hgetall (keys.Job b id) st' !! "data" = Some data ∧
  ∃ l, lget (keys.Wait b) st' ≡ₚ id :: id :: l ∧ lget (keys.Wait b) st ≡ₚ id :: l.
Proof.
  intros c Hm Hc Hp Hin. destruct (Add_calls st payload data opts Hm Hp) as (args & optsB & ts & Ea & Eo & Hadd).
  destruct (add_overwrites st c args optsB (name_for c) data ts Hc Hp Ea Eo) as (E & Hw & Hda & _).
  destruct (Hadd _ E) as (E1 & E2 & E3). cbv zeta. rewrite E3. split_and!; [done | done | done |].
  apply elem_of_Permutation in Hin as [l Hl]. exists l. by rewrite Hw, Hl.
Qed.

(** ** The worker's side *)

Definition stored (id name data : string) (h : gmap string string) : Prop :=
  h !! "name" = Some name ∧ h !! "data" = Some data ∧ h !! "defa" = None.

Lemma stored_insert id name data h f v :
  f ≠ "name" → f ≠ "data" → f ≠ "defa" → stored id name data h → stored id name data (<[f := v]> h).
Proof. intros H1' H2' H3'. unfold stored. by rewrite !lookup_insert_ne. Qed.

Lemma prepare_gives id name data limiter ts opts :
  hoare (λ st, stored id name data (hgetall (keys.Job b id) st))
    (prepareJobForProcessing (keys.Base b) limiter id ts None opts)
    (λ r _, ∃ h, r = AArr [AArr (flatten (map_to_list h)); AStr id; AInt64 0; AInt64 0] ∧ stored id name data h).
Proof.
  unfold prepareJobForProcessing. cbv zeta. apply hoare_known.
  apply hoare_keep; [destruct (negb _); [|by apply hoare_ret]; apply hoare_keep; [by apply hoare_modify | intros; apply hoare_emit]|].
  intros _. apply hoare_keep.
  { apply hoare_modify. intros st Hs. change (keys.Base b +:+ id) with (keys.Job b id).
    rewrite hgetall_hset, bool_decide_eq_true_2 by done. cbn [foldl fst snd].
    destruct (truthy _); cbn [foldl fst snd]; by repeat apply stored_insert. }
  intros _. apply hoare_keep.
  { intros st Hs. unfold HINCRBY. cbn [fst snd]. change (keys.Base b +:+ id) with (keys.Job b id).
    rewrite hgetall_hset, bool_decide_eq_true_2 by done. by apply stored_insert. }
  intros _. eapply hoare_bind; [apply hoare_gets|]. intros h. apply hoare_ret. intros st [Hs ->]. by eexists.
Qed.

Lemma admit_flows st ts opts :
  flowing st → num (field (field opts "limiter") "max") = None →
  admission o (keys.Meta b) (keys.Active b) (keys.Delayed b) (keys.Wait b) (keys.Prioritized b) (keys.Base b) ts
    (keys.PriorityCounter b) (keys.Limiter b) opts st = ((false, None, 0), st, []).
Proof.
  intros (Hp & Hc & Hm & Hd) Hl. unfold admission, isQueuePausedOrMaxed, promoteDelayedJobs, HGET, LLEN, gets, mbind, Lua_bind.
  rewrite Hp, Hc. unfold mret, Lua_ret. rewrite Hm, Hd, Hl. done.
Qed.

Lemma take_gives w token opts id name data ts st :
  limiter (cfg w) = None → legacy_marker id = false →
  proto.EncodeMoveToActiveOpts (activeOpts w token) = inr opts → parked id name data st →
  ∃ h, (moveToActive o (moveToActiveKeys (newQueueKeys q)) [AStr (keys.Base b); AInt64 ts; ABytes opts] st).1.1 =
    AArr [AArr (flatten (map_to_list h)); AStr id; AInt64 0; AInt64 0] ∧ stored id name data h.
Proof.
  intros Hl Hm Eo (Hf & Hw & Hs).
  assert (Hlim : num (field (field (unpack opts) "limiter") "max") = None).
  { apply unpack_law in Eo as ->. rewrite !field_lua. cbn [field].
    unfold proto.moveToActive_map, activeOpts. rewrite Hl. cbn [proto.Limiter proto.set_opt fmap option_fmap option_map].
    unfold proto.set_if. destruct (negb _); by rewrite ?map_get_set_ne. }
  apply (λ Hh : hoare (λ st', st' = st) (moveToActive o (moveToActiveKeys (newQueueKeys q))
      [AStr (keys.Base b); AInt64 ts; ABytes opts]) (λ v _, ∃ h, v = AArr [AArr (flatten (map_to_list h));
      AStr id; AInt64 0; AInt64 0] ∧ stored id name data h), Hh st eq_refl).
  unfold moveToActive, moveToActiveKeys, key, argv. cbn -[admission prepareJobForProcessing].
  eapply hoare_bind with (R := λ a st', a = (false, None, 0) ∧ st' = st).
  { intros st' ->. by rewrite admit_flows. }
  intros a. apply hoare_pure. intros ->. cbn -[prepareJobForProcessing].
  eapply hoare_bind with (R := λ j st', j = Some id ∧ stored id name data (hgetall (keys.Job b id) st')).
  { intros st' ->. unfold RPOPLPUSH. rewrite Hw. cbn. done. }
  intros j. apply hoare_pure. intros ->. rewrite Hm. do 2 apply hoare_known. apply prepare_gives.
Qed.

(** A readable job without the stalled mark reaches the handler. *)
Lemma runJob_handles w token jobID jobMap j :
  jobMap !! "defa" = None → buildJob (T := T) jobID jobMap = inr j →
  wp (runJob (T := T) w token jobID jobMap) (λ _ l, ∃ x, Ev (RHandler jobID jobMap) x ∈ l).
Proof.
  intros Hd Hj. unfold runJob, hget. rewrite Hd. cbn [default negb String.eqb].
  do 3 wp_step. unfold processJob. wp_step. wp_apply wp_true. intros _ l0 _. do 7 wp_step.
  unfold runHandler, invokeHandler, newHandlerShim. rewrite Hj. do 3 wp_step. wp_apply wp_true. intros p l1 _. wp_step. wp_step.
  wp_step. exists x3. set_solver.
Qed.

Lemma tryOnce_handles w id name data payload st :
  wkeys w = newQueueKeys q → limiter (cfg w) = None → legacy_marker id = false → id ≠ "" → data ≠ "" →
  UnmarshalJSON data = inr payload → parked id name data st →
  ∃ jobMap x j, Ev (RHandler id jobMap) x ∈ log (redis_server cjson o) (tryOnce (T := T) w) st ∧
    buildJob id jobMap = inr j ∧ Job_Data j = payload ∧ Job_Name j = name.
Proof.
  intros Hw Hl Hm Hid Hne Hu Hp. unfold tryOnce.
  set (token := "00000000-0000-0000-0000-000000000000").
  destruct (packs (AMap (proto.moveToActive_map (activeOpts w token)))) as [opts Eo].
  pose proof (take_gives w token opts id name data (UnixMilli (1700000000000 * Millisecond)) st Hl Hm Eo Hp) as (h & Ev & Hs).
  assert (Hj : ∃ j, buildJob id h = inr j ∧ Job_Data j = payload ∧ Job_Name j = name).
  { destruct Hs as (Hn & Hd & _). unfold buildJob, hget. rewrite Hd, Hn, Hu.
    destruct (String.eqb_spec data ""); [done|]. by eexists. }
  destruct Hj as (j & Ej & Hj).
  unfold log. cbn -[UnixMilli moveToActive runJob]. fold token. unfold proto.EncodeMoveToActiveOpts. rewrite Eo.
  cbn -[UnixMilli moveToActive runJob]. rewrite Hw. unfold mbind at 1, Lua_bind at 1.
  destruct (moveToActive _ _ _ st) as [[v st'] es]. cbn [fst snd] in Ev. subst v. cbn -[runJob].
  destruct (String.eqb_spec id ""); [done|].
  rewrite flatHashToMap_roundtrip by apply NoDup_fst_map_to_list. rewrite list_to_map_to_list. cbn [ar_ok negb ar_jobID ar_jobMap].
  rewrite run_bind.
  pose proof (wp_run (redis_server cjson o) _ _ st' (runJob_handles w token id h j (proj2 (proj2 Hs)) Ej)) as [x Hx].
  unfold log in Hx. destruct (run (redis_server cjson o) (runJob w token id h) st') as [[p w2] l]. cbn in Hx. cbn.
  exists h, x, j. split; [|done]. set_solver.
Qed.

(** From [Add] to the handler: on a queue that flows,
    a job added with no delay, priority or id of its own is what the next worker
    that asks runs: the handler is called with the id [Add] reported, and the
    job rebuilt for it carries the payload and the name that were added. *)
Theorem add_reaches_handler w st payload data opts :
  MarshalJSON payload = inr data → data ≠ "" → UnmarshalJSON data = inr payload →
  flowing st → vacant_next st → lget (keys.Wait b) st = [] →
  wkeys w = newQueueKeys q → limiter (cfg w) = None →
  let c := applyOptions opts zeroAdd in plain c →
  let sv := redis_server cjson o in
  ∃ id jobMap x j,
    Job_ID <$> (result sv (Add (T := T) q payload opts) st).1 = Some id ∧
    (result sv (Add (T := T) q payload opts) st).2 = None ∧
    Ev (RHandler id jobMap) x ∈ log sv (tryOnce (T := T) w) (world sv (Add (T := T) q payload opts) st) ∧
    buildJob id jobMap = inr j ∧ Job_Data j = payload ∧
    Job_Name j = (if negb (String.eqb (ac_jobName c) "") then ac_jobName c else q_name q).
Proof.
  intros Hm Hne Hu Hf Hv Hw Hk Hl c Hp sv.
  destruct (Add_parks st payload data opts Hm Hf Hv Hw Hp) as (E1 & E2 & Hpk).
  assert (Hc : in64 (default 0 (nums st !! keys.ID b) + 1)) by (destruct Hv as [Hc _]; unfold in64, minInt64; lia).
  assert (Hid : next_id st ≠ "").
  { intros E. apply (f_equal ParseInt) in E. unfold next_id in E. by rewrite ParseInt_FormatInt in E. }
  destruct (tryOnce_handles w _ _ data payload _ Hk Hl (numeral_unmarked _ Hc) Hid Hne Hu Hpk) as (jobMap & x & j & Hx & Hj).
  by exists (next_id st), jobMap, x, j.
Qed.
End delivery.

Lemma treePacks : Packs (H := treeMsgpack).
Proof. intros v. by eexists. Qed.

Lemma add_reaches_handler_witness :
  let sv := redis_server (H := treeMsgpack) (H0 := treeCodec) sampleJson plainOracle in
  let add := Add (H := treeMsgpack) (H0 := amd64) (H1 := rawPayload) sampleQueue "[1]" [WithJobName "resize"] in
  let try_ := tryOnce (H := treeMsgpack) (H0 := amd64) (H1 := hourly) (H2 := rawPayload) sampleWorker in
  ∃ id jobMap x j, Job_ID <$> (result sv add emptyStore).1 = Some id ∧ (result sv add emptyStore).2 = None ∧
    Ev (RHandler id jobMap) x ∈ log sv try_ (world sv add emptyStore) ∧
    buildJob (H := rawPayload) id jobMap = inr j ∧ Job_Data j = "[1]" ∧ Job_Name j = "resize".
Proof.
  apply (add_reaches_handler (H := treeMsgpack) (H0 := treeCodec) (H1 := treePacks) (H2 := amd64) (H3 := hourly)
    (H4 := rawPayload) sampleJson plainOracle sampleQueue sampleWorker emptyStore "[1]" "[1]" [WithJobName "resize"]);
    try reflexivity; repeat split; by vm_compute.
Defined.

(** A job under the custom id 2, and the counter at 1. *)
Lemma numeric_id_collides_witness :
  let sv := redis_server (H := treeMsgpack) (H0 := treeCodec) sampleJson plainOracle in
  let add := Add (H := treeMsgpack) (H0 := amd64) (H1 := rawPayload) sampleQueue in
  let st := world sv (add "[1]" [WithJobID "2"]) emptyStore in
  Job_ID <$> (result sv (add "[2]" []) st).1 = Some "2" ∧ (result sv (add "[2]" []) st).2 = None ∧
  hgetall (keys.Job (q_keys sampleQueue) "2") (world sv (add "[2]" []) st) !! "data" = Some "[2]".
Proof.
  cbv zeta.
  destruct (numeric_id_collides (H := treeMsgpack) (H0 := treeCodec) (H1 := treePacks) (H2 := amd64)
    (H4 := rawPayload) sampleJson plainOracle sampleQueue
    (world (redis_server (H := treeMsgpack) (H0 := treeCodec) sampleJson plainOracle)
      (Add (H := treeMsgpack) (H0 := amd64) (H1 := rawPayload) sampleQueue "[1]" [WithJobID "2"]) emptyStore)
    "[2]" "[2]" []) as (E1 & E2 & E3 & _);
    [reflexivity | by vm_compute | by repeat split | by apply (bool_decide_unpack _); vm_compute|].
  split; [exact E1|]. split; [exact E2 | exact E3].
Defined.
