(* ===== verification/Order.v ===== *)
(** * First in, first out

    Any number of plain jobs added one after the other, and one dispatch loop that
    finds them: the handler gets them in the order in which they were added,
    each with the payload and the name it was added with. The first job comes
    from moveToActive, each further one with the reply of moveToFinished for the
    job before it. *)

From S2P Require Import Prelude GoLib Keys Backoff Effects Json Jobs Proto Cron Config Finalise Worker Dispatch Queue Inspect Wire Redis RedisInv Fencing Concurrent Recovery Delivery.
Import lua.

(** A job as it lies in the queue. *)
Record item := mkItem { i_id : string; i_name : string; i_data : string }.

Section store.
Context `{Codec} `{!Packs} `{GoArch} `{CronLib} {T : Type} `{Payload T}.
Variable cjson : any → string.
Variable o : oracle.
Variable q : Queue.
Abbreviation b := (q_keys q).
Abbreviation flowing := (flowing q).

(** Completed jobs are none of [l], and none of them is the queue's meta HASH. *)
Definition apart (l : list item) (st : store) : Prop :=
  ∀ x, is_Some (zget (keys.Completed b) st !! x) → ¬ (x ∈ i_id <$> l) ∧ keys.Job b x ≠ keys.Meta b.

(** The jobs [l] wait, the oldest first, and nothing else does. *)
Definition lined (l : list item) (st : store) : Prop :=
  flowing st ∧ lget (keys.Wait b) st = rev (i_id <$> l) ∧
  (∀ i, i ∈ l → stored (i_id i) (i_name i) (i_data i) (hgetall (keys.Job b (i_id i)) st)) ∧ apart l st.

(** Ids that name jobs and nothing else. *)
Definition plain_id (id : string) : Prop := id ≠ "" ∧ legacy_marker id = false ∧ keys.Job b id ≠ keys.Meta b.

Definition sane (l : list item) : Prop := NoDup (i_id <$> l) ∧ Forall plain_id (i_id <$> l).

(** Job [id] is held under [token]. *)
Definition held_by (id token : string) (st : store) : Prop :=
  is_Some (hashes st !! keys.Job b id) ∧ locks st !! lockKey (keys.Job b id) = Some token ∧
  id ∈ lget (keys.Active b) st.

(** ** What leaves the line alone *)

Lemma line_hset l id h st :
  keys.Job b id ≠ keys.Meta b → ¬ (id ∈ i_id <$> l) → lined l st → lined l (hset (keys.Job b id) h st).
Proof.
  intros Hm Hn (Hf & Hw & Hs & Ha). split_and!; [by apply flowing_hset | done | | done].
  intros i Hi. rewrite hgetall_hset, bool_decide_eq_false_2; [by apply Hs|]. intros E%Job_inj. subst id.
  apply Hn. by apply list_elem_of_fmap_2.
Qed.

Lemma line_hdel l id st :
  keys.Job b id ≠ keys.Meta b → ¬ (id ∈ i_id <$> l) → lined l st → lined l (hdel (keys.Job b id) st).
Proof.
  intros Hm Hn (Hf & Hw & Hs & Ha). unfold lined, Delivery.flowing in *. split_and!; try done.
  1-3: rewrite hgetall_hdel, bool_decide_eq_false_2 by done; apply Hf.
  - apply Hf.
  - intros i Hi. rewrite hgetall_hdel, bool_decide_eq_false_2; [by apply Hs|]. intros E%Job_inj. subst id.
    apply Hn. by apply list_elem_of_fmap_2.
Qed.

Lemma line_active l xs st : lined l st → lined l (lset (keys.Active b) xs st).
Proof.
  intros (Hf & Hw & Hs & Ha). split_and!; [done | | done | done].
  rewrite lget_lset, bool_decide_eq_false_2; [done|]. by intros E%sapp_inv_head.
Qed.

(** The completed set changes, by jobs that are not in the line. *)
Lemma line_completed l z st :
  (∀ x, is_Some (z !! x) → ¬ (x ∈ i_id <$> l) ∧ keys.Job b x ≠ keys.Meta b) →
  lined l st → lined l (zset (keys.Completed b) z st).
Proof.
  intros Hz ((Hp & Hc & Hm & Hd) & Hw & Hs & Ha). unfold lined, Delivery.flowing, apart. split_and!; try done.
  - rewrite zget_zset, bool_decide_eq_false_2; [done|]. by intros E%sapp_inv_head.
  - intros x. rewrite zget_zset, bool_decide_eq_true_2 by done. apply Hz.
Qed.

(** ** Taking the next job *)

Lemma last_rev_cons {A} (x : A) l : last (rev (x :: l)) = Some x.
Proof. cbn. by rewrite last_snoc. Qed.

Lemma take_rev_cons {A} (x : A) l : take (length (rev (x :: l)) - 1) (rev (x :: l)) = rev l.
Proof. cbn [rev]. rewrite length_app. cbn. replace (length (rev l) + 1 - 1)%nat with (length (rev l)) by lia. apply take_app_length. Qed.

Lemma Active_not_Wait : keys.Active b ≠ keys.Wait b.
Proof. by intros E%sapp_inv_head. Qed.

(** The oldest job leaves the line for active. *)
Lemma pop_next i l :
  sane (i :: l) →
  hoare (lined (i :: l)) (RPOPLPUSH (keys.Wait b) (keys.Active b)) (λ j st, j = Some (i_id i) ∧
    lined l st ∧ stored (i_id i) (i_name i) (i_data i) (hgetall (keys.Job b (i_id i)) st) ∧
    is_Some (hashes st !! keys.Job b (i_id i)) ∧ i_id i ∈ lget (keys.Active b) st).
Proof.
  intros [Hnd Hp] st (Hf & Hw & Hs & Ha). rewrite fmap_cons in Hnd. apply NoDup_cons in Hnd as [Hni Hnd].
  pose proof (Hs i ltac:(by left)) as Hi.
  unfold RPOPLPUSH. rewrite Hw, fmap_cons, last_rev_cons, take_rev_cons. cbn [fst snd]. split; [done|].
  split; [|split; [exact Hi|split]].
  - apply line_active. split_and!; [done | by rewrite lget_lset, bool_decide_eq_true_2 | |].
    + intros j Hj. apply Hs. by right.
    + intros x Hx. destruct (Ha x Hx) as [Hn Hm]. split; [|done]. intros Hin. apply Hn. by right.
  - destruct Hi as [Hi _]. unfold hgetall in Hi. cbn in *. by destruct (hashes st !! keys.Job b (i_id i)).
  - rewrite lget_lset, bool_decide_eq_true_2 by done. by left.
Qed.

(** The job that was taken is stamped and locked. *)
Lemma prepare_next i l limiter ts token opts :
  sane (i :: l) → str (field opts "token") = token → token ≠ "0" →
  hoare (λ st, lined l st ∧ stored (i_id i) (i_name i) (i_data i) (hgetall (keys.Job b (i_id i)) st) ∧
      is_Some (hashes st !! keys.Job b (i_id i)) ∧ i_id i ∈ lget (keys.Active b) st)
    (prepareJobForProcessing (keys.Base b) limiter (i_id i) ts None opts)
    (λ r st, ∃ h, r = AArr [AArr (flatten (map_to_list h)); AStr (i_id i); AInt64 0; AInt64 0] ∧
      stored (i_id i) (i_name i) (i_data i) h ∧ lined l st ∧ held_by (i_id i) token st).
Proof.
  intros [Hnd Hp] Ht H0'. rewrite fmap_cons in Hnd, Hp. apply NoDup_cons in Hnd as [Hni _].
  apply Forall_cons in Hp as [(_ & _ & Hm) _].
  assert (Hex : ∀ st h, h ≠ ∅ → is_Some (hashes (hset (keys.Job b (i_id i)) h st) !! keys.Job b (i_id i))).
  { intros st h Hh. unfold hset. cbn. rewrite bool_decide_eq_false_2 by done. by rewrite lookup_insert_eq. }
  unfold prepareJobForProcessing. cbv zeta. rewrite Ht. apply hoare_known.
  destruct (String.eqb_spec token "0"); [done|]. cbn [negb].
  eapply hoare_bind with (R := λ _ st, lined l st ∧ stored (i_id i) (i_name i) (i_data i) (hgetall (keys.Job b (i_id i)) st) ∧
    held_by (i_id i) token st).
  { eapply hoare_bind; [|intros ?; apply hoare_emit]. apply hoare_modify. intros st (Hl & Hs & He & Ha).
    split; [done|]. split; [done|]. split; [done|]. split; [|done]. cbn. change (keys.Base b +:+ i_id i) with (keys.Job b (i_id i)). by rewrite lookup_insert_eq. }
  intros _. apply hoare_keep.
  { apply hoare_modify. intros st (Hl & Hs & He & Hk & Ha). change (keys.Base b +:+ i_id i) with (keys.Job b (i_id i)).
    cbn [foldl fst snd]. split; [by apply line_hset|]. rewrite hgetall_hset, bool_decide_eq_true_2 by done.
    split; [destruct (truthy _); cbn [foldl fst snd]; by repeat apply stored_insert|].
    split; [|done]. apply Hex. destruct (truthy _); cbn [foldl fst snd]; apply insert_non_empty. }
  intros _. apply hoare_keep.
  { intros st (Hl & Hs & He & Hk & Ha). unfold HINCRBY. cbn [fst snd]. change (keys.Base b +:+ i_id i) with (keys.Job b (i_id i)).
    split; [by apply line_hset|]. rewrite hgetall_hset, bool_decide_eq_true_2 by done.
    split; [by apply stored_insert|]. split; [|done]. apply Hex, insert_non_empty. }
  intros _. eapply hoare_bind; [apply hoare_gets|]. intros h. apply hoare_ret. intros st [(Hl & Hs & Hr) ->]. by eexists.
Qed.

(** The reply that hands job [i] over, and what it leaves. *)
Definition handed_over (token : string) (i : item) (l : list item) (r : any) (st : store) : Prop :=
  ∃ h, r = AArr [AArr (flatten (map_to_list h)); AStr (i_id i); AInt64 0; AInt64 0] ∧
    stored (i_id i) (i_name i) (i_data i) h ∧ lined l st ∧ held_by (i_id i) token st.

Lemma sane_unmarked i l : sane (i :: l) → legacy_marker (i_id i) = false.
Proof. intros [_ Hp]. rewrite fmap_cons in Hp. by apply Forall_cons in Hp as [(_ & ? & _) _]. Qed.

Lemma take_line i l ts token opts :
  sane (i :: l) → str (field (unpack opts) "token") = token → token ≠ "0" →
  num (field (field (unpack opts) "limiter") "max") = None →
  hoare (lined (i :: l)) (moveToActive o (moveToActiveKeys (newQueueKeys q)) [AStr (keys.Base b); AInt64 ts; ABytes opts])
    (handed_over token i l).
Proof.
  intros Hs Ht Hz Hlim. unfold moveToActive, moveToActiveKeys, key, argv. cbn -[admission prepareJobForProcessing].
  eapply hoare_bind with (R := λ a st, a = (false, None, 0) ∧ lined (i :: l) st).
  { intros st Hl. rewrite (admit_flows o q); [done | apply Hl | done]. }
  intros a. apply hoare_pure. intros ->. cbn -[prepareJobForProcessing].
  eapply hoare_bind; [by apply pop_next|]. intros j. apply hoare_pure. intros ->.
  rewrite (sane_unmarked i l Hs). do 2 apply hoare_known. by apply prepare_next.
Qed.

(** The same on the way of moveToFinished. *)
Lemma fetch_line i l ts token opts :
  sane (i :: l) → str (field opts "token") = token → token ≠ "0" →
  num (field (field opts "limiter") "max") = None →
  hoare (lined (i :: l)) (fetchNextJob o (keys.Wait b) (keys.Active b) (keys.Prioritized b) (keys.Limiter b) (keys.Delayed b)
      (keys.Meta b) (keys.PriorityCounter b) (keys.Base b) ts opts)
    (λ r st, ∃ v, r = Some v ∧ handed_over token i l v st).
Proof.
  intros Hs Ht Hz Hlim. unfold fetchNextJob.
  eapply hoare_bind with (R := λ a st, a = (false, None, 0) ∧ lined (i :: l) st).
  { intros st Hl. rewrite (admit_flows o q); [done | apply Hl | done]. }
  intros a. apply hoare_pure. intros ->. cbn -[prepareJobForProcessing].
  eapply hoare_bind; [by apply pop_next|]. intros j. apply hoare_pure. intros ->.
  rewrite (sane_unmarked i l Hs). apply hoare_known.
  eapply hoare_bind; [by eapply prepare_next|]. intros v. apply hoare_ret. intros st Hv. by exists v.
Qed.

(** ** Ending the job that runs *)

(** A job that is not in the line. *)
Definition aside (l : list item) (id : string) : Prop := ¬ (id ∈ i_id <$> l) ∧ keys.Job b id ≠ keys.Meta b.

Lemma line_expel l jobs :
  Forall (aside l) jobs → hoare (lined l) (expel (keys.Completed b) (keys.Base b) jobs) (λ _, lined l).
Proof.
  induction 1 as [|j jobs [Hn Hm] _ IH]; cbn [expel]; [by apply hoare_ret|].
  apply hoare_keep.
  { intros st Hl. unfold ZREM. case_bool_decide; [|done]. cbn [fst snd]. apply line_completed; [|done].
    intros x [s Hx]. apply lookup_delete_Some in Hx as [_ Hx]. apply Hl. by exists s. }
  intros _. apply hoare_keep; [|intros _; exact IH]. apply hoare_modify. intros st Hl. by apply line_hdel.
Qed.

Lemma elem_of_part {A} n (l : list A) x : x ∈ take n l → x ∈ l.
Proof. rewrite <-(take_drop n l) at 2. rewrite elem_of_app. by left. Qed.

Lemma elem_of_rest {A} n (l : list A) x : x ∈ drop n l → x ∈ l.
Proof. rewrite <-(take_drop n l) at 2. rewrite elem_of_app. by right. Qed.

(** Members of the completed set are not in the line. *)
Lemma completed_aside l jobs st :
  (∀ x, x ∈ jobs → x ∈ fst <$> zsorted (zget (keys.Completed b) st)) → lined l st → Forall (aside l) jobs.
Proof.
  intros Hj Hl. apply Forall_forall. intros x Hx%Hj. apply list_elem_of_fmap in Hx as ([y s] & -> & Hx).
  apply Hl. by eapply zsorted_member.
Qed.

Lemma line_maxAge l ts age limit :
  hoare (lined l) (removeJobsByMaxAge ts age (keys.Completed b) (keys.Base b) limit) (λ _, lined l).
Proof.
  unfold removeJobsByMaxAge. eapply hoare_bind; [apply hoare_gets|]. intros jobs st [Hl ->].
  apply line_expel; [|done]. apply completed_aside with st; [|done]. intros x Hx%elem_of_part.
  rewrite <-Permutation_rev in Hx.
  apply list_elem_of_fmap in Hx as (y & -> & Hy). apply list_elem_of_filter in Hy as [_ Hy]. by apply list_elem_of_fmap_2.
Qed.

Lemma line_maxCount l n : hoare (lined l) (removeJobsByMaxCount n (keys.Completed b) (keys.Base b)) (λ _, lined l).
Proof.
  unfold removeJobsByMaxCount. eapply hoare_bind; [apply hoare_gets|]. intros jobs st [Hl ->].
  apply line_expel; [|done]. apply completed_aside with st; [|done].
  intros x Hx%elem_of_rest. by rewrite <-Permutation_rev in Hx.
Qed.

Lemma line_retain l id ts prop value keep :
  aside l id →
  hoare (lined l) (retain (keys.Completed b) (keys.Base b) id (keys.Job b id) ts "completed" prop value keep) (λ _, lined l).
Proof.
  intros [Hn Hm]. unfold retain. cbv zeta. destruct (isZero _); [apply hoare_modify; intros st Hl; by apply line_hdel|].
  apply hoare_keep.
  { apply hoare_modify. intros st Hl. apply line_completed; [|done]. intros x [s Hx].
    apply lookup_insert_Some in Hx as [[<- _]|[_ Hx]]; [done|]. apply Hl. by exists s. }
  intros _. apply hoare_keep; [apply hoare_modify; intros st Hl; by apply line_hset|]. intros _. apply hoare_known.
  apply hoare_keep; [destruct (num _); [apply line_maxAge | by apply hoare_ret]|]. intros _.
  destruct (num _); [|by apply hoare_ret]. destruct (0 <? _); [apply line_maxCount | by apply hoare_ret].
Qed.

Lemma line_maxEvents l : hoare (lined l) (getOrSetMaxEvents (keys.Meta b)) (λ _, lined l).
Proof.
  unfold getOrSetMaxEvents. eapply hoare_bind; [apply hoare_read|]. intros m. destruct m; [by apply hoare_ret|].
  apply hoare_modify. intros st (Hf & Hw & Hs & Ha). split_and!; [|done | |done].
  - unfold Delivery.flowing in *. rewrite hgetall_hset, bool_decide_eq_true_2 by done. cbn [foldl fst snd].
    rewrite !lookup_insert_ne by done. exact Hf.
  - intros i Hi. specialize (Hs i Hi). rewrite hgetall_hset. case_bool_decide as E; [|exact Hs].
    rewrite <-E in Hs. cbn [foldl fst snd]. by apply stored_insert.
Qed.

Lemma line_dropDedup l deid id : hoare (lined l) (dropDedupOnFinish o (keys.Base b) deid id) (λ _, lined l).
Proof.
  unfold dropDedupOnFinish. destruct deid as [d|]; [|by apply hoare_ret].
  destruct (o_pttl o =? 0); [by apply hoare_modify|]. destruct (o_pttl o =? -1); [|by apply hoare_ret].
  eapply hoare_bind; [apply hoare_read|]. intros c. case_bool_decide; [by apply hoare_modify | by apply hoare_ret].
Qed.

(** A running job is completed and the next one handed over. *)
Lemma finish_line id l ts token ret opts :
  aside l id → sane l → str (field (unpack opts) "token") = token → token ≠ "0" →
  num (field (field (unpack opts) "limiter") "max") = None →
  hoare (λ st, lined l st ∧ held_by id token st)
    (moveToFinished o (moveToFinishedKeys (newQueueKeys q) id "completed")
      [AStr id; AInt64 ts; AStr "returnvalue"; AStr ret; AStr "completed"; AStr "1"; AStr (keys.Base b); ABytes opts; ABytes ""])
    (λ v st, match l with [] => True | i :: l => handed_over token i l v st end).
Proof.
  intros Ha Hs Ht Hz Hlim. unfold moveToFinished, moveToFinishedKeys, key, argv.
  cbn -[removeLock retain fetchNextJob getOrSetMaxEvents dropDedupOnFinish]. rewrite Ht.
  eapply hoare_bind with (R := λ ex st, ex = true ∧ lined l st ∧ held_by id token st).
  { intros st [Hl Hr]. split; [|done]. cbn. apply bool_decide_eq_true. apply Hr. }
  intros ex. apply hoare_pure. intros ->. cbn [negb].
  eapply hoare_bind with (R := λ c st, c = 0 ∧ lined l st ∧ id ∈ lget (keys.Active b) st).
  { intros st (Hl & _ & Hk & Hin). unfold removeLock. destruct (String.eqb_spec token "0"); [done|].
    unfold keys.Job in Hk. unfold gets, mbind, Lua_bind. rewrite Hk, String.eqb_refl. done. }
  intros c. apply hoare_pure. intros ->. cbn -[retain fetchNextJob getOrSetMaxEvents dropDedupOnFinish].
  apply hoare_known.
  eapply hoare_bind with (R := λ n st, n = 1 ∧ lined l st).
  { intros st [Hl Hin]. unfold LREM_tail. change (active (newQueueKeys q)) with (keys.Active b).
    rewrite bool_decide_eq_true_2 by done. cbn [fst snd]. split; [done|]. by apply line_active. }
  intros n. apply hoare_pure. intros ->. cbn -[retain fetchNextJob getOrSetMaxEvents dropDedupOnFinish].
  apply hoare_keep; [apply line_maxEvents|]. intros _.
  eapply hoare_bind; [apply hoare_read|]. intros deid. apply hoare_keep; [apply line_dropDedup|]. intros _.
  apply hoare_keep; [intros st Hl; unfold HINCRBY; cbn [fst snd]; apply line_hset; [apply Ha..|done]|]. intros _.
  apply hoare_keep; [by apply line_retain|]. intros _. destruct l as [|i l].
  - eapply hoare_bind with (R := λ _ _, True); [done|]. intros r. by apply hoare_ret.
  - eapply hoare_bind; [by eapply fetch_line|]. intros r. apply hoare_ret. by intros st (v & -> & Hv).
Qed.

(** ** Programs against the store *)

(** The handler calls of a log: the job and its HASH. *)
Definition ran (l : list event) : list (string * gmap string string) :=
  omap (λ e, match ev_req e with RHandler id h => Some (id, h) | _ => None end) l.

Lemma ran_app l1 l2 : ran (l1 ++ l2) = ran l1 ++ ran l2.
Proof. apply omap_app. Qed.

Abbreviation sv := (redis_server cjson o).

(** [m] run from a store with [P]: its result, the handler calls it makes, and
    the store it leaves. *)
Definition gives {A} (P : store → Prop) (m : M A) (Q : A → list (string * gmap string string) → store → Prop) : Prop :=
  ∀ st, P st → Q (run sv m st).1.1 (ran (run sv m st).2) (run sv m st).1.2.

Lemma gives_ret {A} P (a : A) Q : (∀ st, P st → Q a [] st) → gives P (mret a) Q.
Proof. intros HQ st HP. by apply HQ. Qed.

Lemma gives_bind {A B} P (m : M A) (f : A → M B) R Q :
  gives P m R → (∀ a h, gives (R a h) (f a) (λ x h' st, Q x (h ++ h') st)) → gives P (m ≫= f) Q.
Proof.
  intros Hm Hf st HP. specialize (Hm st HP). rewrite run_bind. destruct (run sv m st) as [[a st1] l1]. cbn in Hm.
  specialize (Hf a _ st1 Hm). destruct (run sv (f a) st1) as [[x st2] l2]. cbn in *. by rewrite ran_app.
Qed.

(** A step whose handler calls are none. *)
Lemma gives_quiet {A B} P (m : M A) (f : A → M B) R Q :
  gives P m (λ a h st, h = [] ∧ R a st) → (∀ a, gives (R a) (f a) Q) → gives P (m ≫= f) Q.
Proof. intros Hm Hf. eapply gives_bind; [exact Hm|]. intros a h st [-> HR]. by apply Hf. Qed.

Lemma gives_pure {A} (φ : Prop) P (m : M A) Q : (φ → gives P m Q) → gives (λ st, φ ∧ P st) m Q.
Proof. intros Hm st [Hφ HP]. by apply Hm. Qed.

Lemma gives_conseq {A} P P' (m : M A) Q Q' :
  (∀ st, P' st → P st) → (∀ a h st, Q a h st → Q' a h st) → gives P m Q → gives P' m Q'.
Proof. intros HP HQ Hm st Hst. apply HQ, Hm, HP, Hst. Qed.

(** Requests that neither Redis nor the handler answers. *)
Definition calm (r : req) : bool := match r with RScript _ _ _ _ | RHandler _ _ => false | _ => true end.

Lemma gives_ask {B} P r (f : resp r → M B) Q :
  calm r = true → gives P (f (quiet tt r).1) Q → gives P (ask r ≫= f) Q.
Proof.
  intros Hc Hf st HP. specialize (Hf st HP). rewrite run_bind.
  assert (run sv (ask r) st = ((quiet tt r).1, st, [Ev r (quiet tt r).1])) as -> by by destruct r.
  destruct (run sv (f _) st) as [[x st'] l]. cbn in *. unfold ran in *. by destruct r.
Qed.

Lemma gives_script P c n ks args R :
  hoare P (script cjson o n ks args) R → gives P (ask (RScript c n ks args)) (λ v h st, h = [] ∧ R v st).
Proof.
  intros Hs st HP. specialize (Hs st HP). unfold ask. cbn. by destruct (script cjson o n ks args st) as [[v st'] es].
Qed.

Lemma gives_calm {A} P (m : M A) : only calm m → gives P m (λ _ h st, h = [] ∧ P st).
Proof.
  unfold only. induction m as [a|r k IH]; intros Hm st HP; [done|]. cbn -[calm] in Hm |- *.
  destruct (calm r) eqn:Hc.
  - assert (E : sv st r = ((quiet tt r).1, st)) by by destruct r. rewrite E.
    specialize (IH (quiet tt r).1 (Hm _) st HP). destruct (run sv (k _) st) as [[a st'] l]. cbn in *.
    destruct IH as [IH1 IH2]. split; [|done]. unfold ran in *. cbn. by destruct r.
  - exfalso. specialize (Hm (quiet tt r).1). revert Hm. generalize (k (quiet tt r).1) as m'. clear IH.
    induction m' as [a|r' k' IH]; cbn -[calm]; rewrite ?Hc; [done|]. intros Hm. by apply (IH (quiet tt r').1), Hm.
Qed.

Lemma gives_skip {A B} P (m : M A) (f : A → M B) Q : only calm m → (∀ a, gives P (f a) Q) → gives P (m ≫= f) Q.
Proof. intros Hm Hf. apply gives_quiet with (R := λ _, P); [by apply gives_calm | done]. Qed.

(** No handler call, whatever else. *)
Definition no_handler (r : req) : bool := match r with RHandler _ _ => false | _ => true end.

Lemma gives_none {A} P (m : M A) : only no_handler m → gives P m (λ _ h _, h = []).
Proof.
  intros Hm st _. pose proof (wp_run sv m _ st Hm) as Hl. unfold log in Hl.
  destruct (run sv m st) as [[a st'] l]. cbn in *. clear -Hl. induction l as [|[r x] l IH]; [done|].
  cbn in Hl. apply andb_true_iff in Hl as [Hr Hl]. unfold ran in *. cbn. destruct r; try done; by apply IH.
Qed.

(** ** The worker *)

Section worker.
Variable w : Worker.
Hypothesis Hw : wkeys w = newQueueKeys q.
Hypothesis Hlim : limiter (cfg w) = None.
#[local] Set Default Proof Using "Type*".

(** The options packed for a worker without a limit name no limit. *)
Lemma active_unlimited token bs :
  proto.EncodeMoveToActiveOpts (activeOpts w token) = inr bs → num (field (field (unpack bs) "limiter") "max") = None.
Proof.
  intros E. apply unpack_law in E as ->. rewrite !field_lua. cbn [field].
  unfold proto.moveToActive_map, activeOpts. rewrite Hlim. cbn [proto.Limiter proto.set_opt fmap option_fmap option_map].
  unfold proto.set_if. destruct (negb _); by rewrite ?map_get_set_ne.
Qed.

Lemma finish_unlimited token att keep bs :
  proto.EncodeMoveToFinishedOpts (finishOpts w token att keep) = inr bs →
  num (field (field (unpack bs) "limiter") "max") = None.
Proof.
  intros E. apply unpack_law in E as ->. rewrite !field_lua. cbn [field].
  unfold proto.moveToFinished_map, finishOpts. rewrite Hlim. cbn [proto.FLimiter fmap option_fmap option_map].
  unfold proto.set_if. destruct (negb _); by rewrite ?map_get_set_ne.
Qed.

(** What ending a job hands back when [l] waits. *)
Definition next_of (token : string) (l : list item) (p : option prefetchedJob) (st : store) : Prop :=
  match l with
  | [] => True
  | i :: l => ∃ h, p = Some (mkPrefetched h (i_id i) token) ∧ stored (i_id i) (i_name i) (i_data i) h ∧
      lined l st ∧ held_by (i_id i) token st
  end.

(** A reply that hands a job over is read as that job. *)
Lemma parse_handed h id :
  id ≠ "" → parseMoveToActiveResult (AArr [AArr (flatten (map_to_list h)); AStr id; AInt64 0; AInt64 0]) =
    inr (mkActive h id true 0 0).
Proof.
  intros Hid. cbn. destruct (String.eqb_spec id ""); [done|].
  rewrite flatHashToMap_roundtrip by apply NoDup_fst_map_to_list. by rewrite list_to_map_to_list.
Qed.

Lemma sane_id i l : sane (i :: l) → i_id i ≠ "" ∧ aside l (i_id i) ∧ sane l.
Proof.
  intros [Hnd Hp]. rewrite fmap_cons in Hnd, Hp. apply NoDup_cons in Hnd as [Hn Hnd].
  apply Forall_cons in Hp as [(H1' & _ & H2') Hp]. done.
Qed.

Lemma complete_line id l token jo ret :
  aside l id → sane l → token ≠ "0" →
  gives (λ st, lined l st ∧ held_by id token st) (finishCompleted w id token jo ret)
    (λ r h st, h = [] ∧ (l = [] ∨ r.2 = None) ∧ next_of token l r.1 st).
Proof.
  intros Ha Hs Hz. unfold finishCompleted, runMoveToFinished.
  apply gives_ask; [done|]. set (now := (quiet tt RNow).1).
  destruct (packs (AMap (proto.moveToFinished_map (finishOpts w token (attempts jo) (removeOnComplete jo))))) as [opts Eo].
  change (proto.EncodeMoveToFinishedOpts ?x) with (msgpack_Marshal (AMap (proto.moveToFinished_map x))). rewrite Eo.
  change (proto.EncodeJobFields []) with (inr "" : res string). cbv iota beta zeta.
  eapply gives_quiet with (R := λ f st, f = "1" ∧ lined l st ∧ held_by id token st).
  { unfold fetchNextFlag. apply gives_ask; [done|]. by apply gives_ret. }
  intros flag. apply gives_pure. intros ->. rewrite Hw.
  eapply gives_quiet with (R := λ v st, match v with
    | inl _ => False | inr x => match l with [] => True | i :: l => handed_over token i l x st end end).
  { apply gives_script. cbn [script]. eapply hoare_bind.
    - apply finish_line; [done | done | by eapply finish_token | done | by eapply finish_unlimited].
    - intros v. by apply hoare_ret. }
  intros [e|x]; [done|]. destruct l as [|i l].
  { destruct x; try (destruct (parseMoveToActiveResult _); apply gives_ret; by auto). destruct (_ <? _); apply gives_ret; auto. }
  intros st (h & -> & Hsh & Hl & Hr). rewrite parse_handed by (by apply (sane_id i l)). cbn.
  split; [done|]. split; [by right|]. by exists h.
Qed.

(** The data of [i] are read back as a payload. *)
Definition readable (i : item) : Prop := i_data i ≠ "" ∧ ∃ p, UnmarshalJSON (T := T) (i_data i) = inr p.

Lemma readable_builds i h :
  readable i → stored (i_id i) (i_name i) (i_data i) h → ∃ j, buildJob (T := T) (i_id i) h = inr j.
Proof.
  intros [Hne [p Hp]] (Hn & Hd & _). unfold buildJob. rewrite Hd, Hp.
  destruct (String.eqb_spec (i_data i) ""); [done|]. by eexists.
Qed.

(** A held job is run once, and the next one comes back with its end. *)
Lemma runJob_line i l token h :
  sane (i :: l) → token ≠ "0" → readable i → stored (i_id i) (i_name i) (i_data i) h →
  gives (λ st, lined l st ∧ held_by (i_id i) token st) (runJob (T := T) w token (i_id i) h)
    (λ p hs st, hs = [(i_id i, h)] ∧ next_of token l p st).
Proof.
  intros Hs Hz Hrd Hh. destruct (readable_builds i h Hrd Hh) as [j Ej]. destruct (sane_id i l Hs) as (_ & Ha & Hsl).
  unfold runJob. apply gives_ask; [done|].
  assert (hget h "defa" = "") as -> by (unfold hget; by rewrite (proj2 (proj2 Hh))). cbn [negb String.eqb].
  eapply gives_bind with (R := λ p hs st, hs = [(i_id i, h)] ∧ next_of token l p st).
  2: { intros p hs. apply gives_pure. intros ->. apply gives_ask; [done|]. by apply gives_ret. }
  unfold processJob. apply gives_skip; [unfold observeWait; only_solve|]. intros _.
  do 3 (apply gives_ask; [done|]).
  eapply gives_bind with (R := λ out hs st, (out = mkOutcome true (mustJSONString (inr "null")) (EText "") "" "" ∧
    hs = [(i_id i, h)]) ∧ lined l st ∧ held_by (i_id i) token st).
  { unfold runHandler, invokeHandler, newHandlerShim. rewrite Ej. intros st Hst. done. }
  intros out hs. apply gives_pure. intros [-> ->]. do 4 (apply gives_ask; [done|]).
  unfold afterJoin, finalise. cbn [success returnValue]. set (jo := parseJobOpts _).
  eapply gives_conseq with (Q := λ p hs st, hs = [] ∧ next_of token l p st); [intros st Hst; exact Hst | by intros p hs st [-> ?] |].
  eapply gives_quiet with (R := λ r st, (l = [] ∨ r.2 = None) ∧ next_of token l r.1.1 st).
  { eapply gives_quiet; [by apply complete_line|]. intros [p e]. apply gives_ret. intros st Hn. split; [done|]. by destruct e. }
  intros [[p stt] e]. apply gives_pure. cbn [fst snd]. intros He.
  assert (Hlast : l = [] → ∀ m : M (option prefetchedJob), only no_handler m →
    gives (next_of token l p) m (λ r hs st, hs = [] ∧ next_of token l r st)).
  { intros -> m Hm st _. split; [by apply (gives_none (λ _, True)) | done]. }
  destruct He as [El| ->].
  { apply Hlast; [done|]. unfold finaliseFailed, countOutcome, rescheduleNext, Finalise.releaseLock. only_solve. }
  apply gives_skip; [only_solve|]. intros _. apply gives_skip; [unfold countOutcome; only_solve|]. intros _.
  eapply gives_quiet with (R := λ _, next_of token l p).
  { destruct (negb _); [|by apply gives_ret]. unfold rescheduleNext. apply gives_ask; [done|]. by apply gives_ret. }
  intros _. do 2 (apply gives_ask; [done|]). by apply gives_ret.
Qed.

(** ** The loop *)

(** A handler call with job [i], as it was added. *)
Definition matches (c : string * gmap string string) (i : item) : Prop :=
  c.1 = i_id i ∧ stored (i_id i) (i_name i) (i_data i) c.2.

Lemma matches_cons i h hs l :
  stored (i_id i) (i_name i) (i_data i) h → Forall2 matches hs l → Forall2 matches ([(i_id i, h)] ++ hs) (i :: l).
Proof. intros Hh Hl. by apply Forall2_cons_2. Qed.

Abbreviation turn := (dispatch_turn (T := T) w).

(** A round with a job in hand. *)
Lemma turn_prefetched i l token h idle :
  sane (i :: l) → token ≠ "0" → readable i → stored (i_id i) (i_name i) (i_data i) h →
  gives (λ st, lined l st ∧ held_by (i_id i) token st) (turn (mkSlot (Some (mkPrefetched h (i_id i) token)) idle))
    (λ r hs st, hs = [(i_id i, h)] ∧ ∃ p, r = inl (mkSlot p idle) ∧ next_of token l p st).
Proof.
  intros Hs Hz Hrd Hh. unfold dispatch_turn, Dispatch.running.
  eapply gives_quiet with (R := λ a st, a = true ∧ lined l st ∧ held_by (i_id i) token st).
  { apply gives_ask; [done|]. by apply gives_ret. }
  intros a. apply gives_pure. intros ->. eapply gives_quiet with (R := λ a st, a = false ∧ lined l st ∧ held_by (i_id i) token st).
  { by apply gives_ret. }
  intros a. apply gives_pure. intros ->. cbn [prefetched pf_token pf_jobID pf_jobMap idleWait].
  eapply gives_bind; [by apply runJob_line|]. intros p hs. apply gives_pure. intros ->. apply gives_ret.
  intros st Hn. split; [done|]. by exists p.
Qed.

(** A round with empty hands and jobs waiting. *)
Lemma turn_fetch i l idle :
  sane (i :: l) → readable i →
  gives (lined (i :: l)) (turn (mkSlot None idle))
    (λ r hs st, ∃ h token p, token ≠ "0" ∧ hs = [(i_id i, h)] ∧ stored (i_id i) (i_name i) (i_data i) h ∧
      r = inl (mkSlot p (idlePollInterval (cfg w))) ∧ next_of token l p st).
Proof.
  intros Hs Hrd. set (token := "00000000-0000-0000-0000-000000000000"). assert (Hz : token ≠ "0") by done.
  unfold dispatch_turn, Dispatch.running.
  eapply gives_quiet with (R := λ a st, a = true ∧ lined (i :: l) st).
  { apply gives_ask; [done|]. by apply gives_ret. }
  intros a. apply gives_pure. intros ->. eapply gives_quiet with (R := λ a st, a = false ∧ lined (i :: l) st).
  { by apply gives_ret. }
  intros a. apply gives_pure. intros ->. cbn [prefetched]. unfold fetch_turn, tryOnce.
  eapply gives_bind with (R := λ r hs st, ∃ h p, r = inr (mkAttempt true p 0 0) ∧ hs = [(i_id i, h)] ∧
    stored (i_id i) (i_name i) (i_data i) h ∧ next_of token l p st).
  2: { intros r hs st (h & p & -> & -> & Hh & Hn). exists h, token, p. done. }
  apply gives_ask; [done|]. apply gives_ask; [done|]. set (now := (quiet tt RNow).1). fold token.
  destruct (packs (AMap (proto.moveToActive_map (activeOpts w token)))) as [opts Eo].
  change (proto.EncodeMoveToActiveOpts ?x) with (msgpack_Marshal (AMap (proto.moveToActive_map x))).
  change ((quiet tt RUuid).1) with token. rewrite Eo, Hw.
  eapply gives_quiet with (R := λ v st, match v with inl _ => False | inr x => handed_over token i l x st end).
  { apply gives_script. cbn [script]. eapply hoare_bind.
    - apply (take_line i l); [done | by eapply active_token | done | by eapply active_unlimited].
    - intros v. by apply hoare_ret. }
  intros [e|x]; [intros st []|]. intros st (h & -> & Hh & Hl & Hr). rewrite parse_handed by (by apply (sane_id i l)).
  cbn [ar_ok negb ar_jobID ar_jobMap]. revert st Hl Hr.
  assert (Hg : gives (λ st, lined l st ∧ held_by (i_id i) token st)
    (p ← runJob (T := T) w token (i_id i) h; mret (inr (mkAttempt true p 0 0) : res attempt))
    (λ r hs st, ∃ h p, r = inr (mkAttempt true p 0 0) ∧ hs = [(i_id i, h)] ∧
      stored (i_id i) (i_name i) (i_data i) h ∧ next_of token l p st)).
  { eapply gives_bind; [by apply runJob_line|]. intros p hs. apply gives_pure. intros ->. apply gives_ret.
    intros st Hn. by exists h, p. }
  intros st Hl Hr. by apply Hg.
Qed.

(** From a job in hand to the end of the line. *)
Lemma loop_line l : ∀ i token h idle,
  sane (i :: l) → token ≠ "0" → Forall readable (i :: l) → stored (i_id i) (i_name i) (i_data i) h →
  gives (λ st, lined l st ∧ held_by (i_id i) token st)
    (loop (S (length l)) turn (mkSlot (Some (mkPrefetched h (i_id i) token)) idle))
    (λ _ hs _, Forall2 matches hs (i :: l)).
Proof.
  induction l as [|i' l IH]; intros i token h idle Hs Hz Hrd Hh; apply Forall_cons in Hrd as [Hri Hrd];
    (eapply gives_bind; [by apply turn_prefetched|]); intros r hs; apply gives_pure; intros ->.
  - intros st (p & -> & _). by apply matches_cons, Forall2_nil_2.
  - intros st (p & -> & h' & -> & Hh' & Hl & Hr).
    assert (Hs' : sane (i' :: l)) by by apply (sane_id i).
    apply matches_cons; [done|]. by apply (IH i' token h' idle Hs' Hz Hrd Hh' st).
Qed.

(** A dispatch loop on a line runs the line, in order. *)
Lemma dispatch_line i l :
  sane (i :: l) → Forall readable (i :: l) →
  gives (lined (i :: l)) (dispatchLoop (T := T) w (length (i :: l))) (λ _ hs _, Forall2 matches hs (i :: l)).
Proof.
  intros Hs Hrd. unfold dispatchLoop, dispatchFrom.
  eapply gives_bind with (R := λ _ hs _, Forall2 matches hs (i :: l)).
  2: { intros r hs st Hall.
       match goal with |- context [run sv ?m st] => assert (ran (run sv m st).2 = []) as ->; [|by rewrite app_nil_r] end.
       apply (gives_none (λ _, True)); [|done]. destruct r; unfold releasePrefetchedLock, Finalise.releaseLock; only_solve. }
  cbn [length loop]. apply Forall_cons in Hrd as [Hri Hrd]. eapply gives_bind; [by apply turn_fetch|].
  intros r hs st (h & token & p & Hz & -> & Hh & -> & Hn). destruct l as [|i' l].
  - by apply matches_cons, Forall2_nil_2.
  - destruct Hn as (h' & -> & Hh' & Hl & Hr). assert (Hs' : sane (i' :: l)) by by apply (sane_id i).
    apply matches_cons; [done|]. by apply (loop_line l i' token h' (idlePollInterval (cfg w)) Hs' Hz Hrd Hh' st).
Qed.
End worker.

(** ** The producer *)

(** The counter stands at [c], and no id beyond it is in use. *)
Definition spare (c : Z) (st : store) : Prop :=
  ∀ n, c < n → in64 n → hashes st !! keys.Job b (FormatInt n) = None ∧ zget (keys.Completed b) st !! FormatInt n = None.

Definition counted (c : Z) (st : store) : Prop := default 0 (nums st !! keys.ID b) = c ∧ spare c st.

Lemma numeral_plain n : in64 n → plain_id (FormatInt n).
Proof.
  intros Hn. split_and!; [| by apply numeral_unmarked |].
  - intros E. apply (f_equal ParseInt) in E. by rewrite ParseInt_FormatInt in E.
  - intros E%sapp_inv_head. apply (f_equal ParseInt) in E. by rewrite ParseInt_FormatInt in E.
Qed.

(** A free id is the id of no job that waits. *)
Lemma free_aside l id st : lined l st → hashes st !! keys.Job b id = None → ¬ (id ∈ i_id <$> l).
Proof.
  intros (_ & _ & Hs & _) Hn Hin. apply list_elem_of_fmap in Hin as (i & -> & Hi).
  destruct (Hs i Hi) as [Hs' _]. unfold hgetall in Hs'. by rewrite Hn in Hs'.
Qed.

Lemma count_maxEvents l c :
  0 ≤ c → hoare (λ st, lined l st ∧ spare c st) (getOrSetMaxEvents (keys.Meta b)) (λ _ st, lined l st ∧ spare c st).
Proof.
  intros Hc st [Hl Hs]. split; [by apply line_maxEvents|]. unfold getOrSetMaxEvents, HGET, gets, mbind, Lua_bind.
  destruct (hgetall (keys.Meta b) st !! "opts.maxLenEvents"); [done|]. intros n Hn Hi. cbn -[hset].
  rewrite hashes_hset_ne; [by apply Hs|]. intros E. by apply (numeral_plain n Hi).
Qed.

(** Where a new job goes: to the back, with LIFO to the front. *)
Definition place_in (front : bool) (l : list item) (i : item) : list item := if front then i :: l else l ++ [i].

Lemma store_line l n name data opts ts :
  in64 n → truthy (field (field opts "de") "id") = false →
  hoare (λ st, lined l st ∧ spare (n - 1) st) (storeJob cjson (keys.Job b (FormatInt n)) name data opts ts ANil)
    (λ _ st, (lined l st ∧ ¬ (FormatInt n ∈ i_id <$> l)) ∧
      stored (FormatInt n) name data (hgetall (keys.Job b (FormatInt n)) st) ∧
      zget (keys.Completed b) st !! FormatInt n = None ∧ spare n st).
Proof.
  intros Hn Hde. unfold storeJob. rewrite Hde. cbn [truthy app]. eapply hoare_bind; [|intros ?; apply hoare_ret; intros ? HR; exact HR].
  apply hoare_modify. intros st [Hl Hs]. cbn [foldl fst snd]. destruct (Hs n ltac:(lia) Hn) as [Hh Hz].
  pose proof (free_aside l _ st Hl Hh) as Hni. assert (hgetall (keys.Job b (FormatInt n)) st = ∅) as -> by (unfold hgetall; by rewrite Hh).
  destruct (numeral_plain n Hn) as (_ & _ & Hm).
  split; [split; [by apply line_hset | done]|]. split; [|split; [done|]].
  - rewrite hgetall_hset, bool_decide_eq_true_2 by done. unfold stored.
    split_and!; rewrite ?lookup_insert_ne, ?lookup_insert by done; by rewrite ?decide_True.
  - intros m Hlt Hm'. rewrite hashes_hset_ne; [apply Hs; [lia | done]|]. intros E%Job_inj%FormatInt_inj; [lia | done | done].
Qed.

Lemma push_line l n (front : bool) cmd i :
  cmd = (if front then "RPUSH" else "LPUSH") →
  hoare (λ st, (lined l st ∧ ¬ (i_id i ∈ i_id <$> l)) ∧
      stored (i_id i) (i_name i) (i_data i) (hgetall (keys.Job b (i_id i)) st) ∧
      zget (keys.Completed b) st !! i_id i = None ∧ spare n st)
    (pushCmd cmd (keys.Wait b) (i_id i)) (λ _ st, lined (place_in front l i) st ∧ spare n st).
Proof.
  intros -> st ((Hl & Hni) & Hi & Hz & Hs).
  assert (Hgo : ∀ l' ws, ws = rev (i_id <$> l') → (∀ j, j ∈ l' → j = i ∨ j ∈ l) → lined l' (lset (keys.Wait b) ws st)).
  { intros l' ws Hws Hsub. destruct Hl as (Hf & Hw & Hst & Ha). split_and!; [done | | |].
    - by rewrite lget_lset, bool_decide_eq_true_2.
    - intros j Hj. by destruct (Hsub j Hj) as [->|Hj']; [|apply Hst].
    - intros x Hx. destruct (Ha x Hx) as [Hn' Hm]. split; [|done]. intros Hin. apply list_elem_of_fmap in Hin as (j & -> & Hj).
      destruct (Hsub j Hj) as [->|Hj']; [destruct Hx as [s Hx]; change (zget (keys.Completed b) st !! i_id i = Some s) in Hx; congruence|]. apply Hn'. by apply list_elem_of_fmap_2. }
  assert (Hw : lget (keys.Wait b) st = rev (i_id <$> l)) by apply Hl.
  destruct front; unfold pushCmd; cbn [String.eqb Ascii.eqb Bool.eqb]; unfold RPUSH, LPUSH, modify; cbn [fst snd place_in];
    (split; [|done]); apply Hgo; rewrite ?Hw.
  - by rewrite fmap_cons.
  - intros j. rewrite elem_of_cons. tauto.
  - by rewrite fmap_app, rev_app_distr.
  - intros j. rewrite elem_of_app, list_elem_of_singleton. tauto.
Qed.

(** A plain [Add]'s script on a line, with [c] the counter. *)
Lemma add_line l c cfg0 args opts name data ts :
  0 ≤ c < maxInt64 → plain cfg0 →
  msgpack_Marshal (proto.addArgs_array (proto.mkAddArgs (keys.Base b) "" name ts "" "" None "" "")) = inr args →
  proto.EncodeAddOpts (toProtoOpts cfg0 0) = inr opts →
  hoare (λ st, lined l st ∧ counted c st)
    (addStandardJob cjson o (dispatch q 0 0).2 [ABytes args; ABytes data; ABytes opts])
    (λ r st, r = inr (AStr (FormatInt (c + 1))) ∧
      lined (place_in (ac_lifo cfg0) l (mkItem (FormatInt (c + 1)) name data)) st ∧ counted (c + 1) st).
Proof.
  intros Hc Hp Ea Eo. assert (Hi : in64 (c + 1)) by (unfold in64, minInt64; lia).
  apply unpack_law in Ea, Eo.
  assert (Hde : field (unpack opts) "de" = ANil) by (rewrite Eo, field_lua; cbn [field]; by rewrite plain_dedup).
  assert (Hlifo : truthy (field (unpack opts) "lifo") = ac_lifo cfg0).
  { rewrite Eo, field_lua. cbn [field]. rewrite addOpts_lifo. unfold toProtoOpts. cbn [proto.Lifo]. by destruct (ac_lifo cfg0). }
  unfold addStandardJob, addJob, dispatch. cbn [key]. unfold key, argv. cbn -[FormatInt]. rewrite Ea, Hde, Hlifo. cbn -[FormatInt].
  eapply hoare_bind with (R := λ cnt st, cnt = Some (c + 1) ∧ default 0 (nums st !! keys.ID b) = c + 1 ∧ lined l st ∧ spare c st).
  { intros st [Hl [Hn Hs]]. unfold INCR64. rewrite Hn. destruct (Z.leb_spec (c + 1) maxInt64); [|lia].
    cbn. split; [done|]. split; [by rewrite lookup_insert_eq | done]. }
  intros cnt. apply hoare_pure. intros ->.
  (* the counter is not touched again *)
  assert (Hcount : ∀ A (m : Lua A) P Q, hoare P m Q → (∀ st, nums (m st).1.2 = nums st) →
    hoare (λ st, default 0 (nums st !! keys.ID b) = c + 1 ∧ P st) m (λ a st, default 0 (nums st !! keys.ID b) = c + 1 ∧ Q a st)).
  { intros A m P Q Hm Hnum st [H1' H2']. split; [by rewrite Hnum | by apply Hm]. }
  eapply hoare_bind.
  { apply Hcount; [apply count_maxEvents; lia|]. intros st. unfold getOrSetMaxEvents, HGET, gets, mbind, Lua_bind.
    by destruct (hgetall (keys.Meta b) st !! "opts.maxLenEvents"). }
  intros ?. do 2 apply hoare_known. eapply hoare_bind.
  { apply Hcount; [|done]. apply hoare_weaken with (P := λ st, lined l st ∧ spare (c + 1 - 1) st); [by replace (c + 1 - 1) with c by lia|].
    apply store_line; [done | by rewrite Hde]. }
  intros dp. eapply hoare_bind.
  { apply Hcount; [by apply (push_line l (c + 1) (ac_lifo cfg0) _ (mkItem (FormatInt (c + 1)) name data))|].
    intros st. unfold pushCmd. by destruct (String.eqb _ _). }
  intros ?. apply hoare_ret. intros st (Hn & Hl & Hs). done.
Qed.

(** What a producer is asked to add: a payload and its options. *)
Definition order : Type := T * list AddOption.
Definition config (d : order) : addConfig := applyOptions d.2 zeroAdd.
Definition given_name (d : order) : string :=
  if negb (String.eqb (ac_jobName (config d)) "") then ac_jobName (config d) else q_name q.

(** No delay, priority, id or deduplication, and a payload whose text is read
    back as it was. *)
Definition deliverable (d : order) : Prop :=
  plain (config d) ∧ ∃ data, MarshalJSON d.1 = inr data ∧ data ≠ "" ∧ UnmarshalJSON data = inr d.1.

Definition item_of (e : string * order) : item :=
  mkItem e.1 (given_name e.2) (match MarshalJSON e.2.1 with inr data => data | inl _ => "" end).

(** [Add] for each, one after the other: the ids it reported. *)
Fixpoint addEach (l : list order) : M (list (option string)) :=
  match l with
  | [] => mret []
  | d :: l =>
      r ← Add (T := T) q d.1 d.2;
      ids ← addEach l;
      mret ((Job_ID <$> (r : addResult (T := T)).1) :: ids)
  end.

#[local] Set Default Proof Using "Type*".

Lemma Add_line l c d :
  0 ≤ c < maxInt64 → deliverable d →
  gives (λ st, lined l st ∧ counted c st) (Add (T := T) q d.1 d.2)
    (λ (r : addResult (T := T)) hs st, (Job_ID <$> r.1 = Some (FormatInt (c + 1)) ∧ hs = []) ∧
      lined (place_in (ac_lifo (config d)) l (item_of (FormatInt (c + 1), d))) st ∧ counted (c + 1) st).
Proof.
  intros Hc (Hp & data & Hm & _). unfold Add. fold (config d).
  pose proof Hp as (Hid & Hd & Hds & Hns & Hdl & Hpr).
  assert (validateAdd (config d) (Milliseconds (ac_delay (config d))) = None) as ->.
  { unfold validateAdd. rewrite Hdl, Hds, Hns. cbn. by destruct (String.eqb (ac_jobName (config d)) ""). }
  apply gives_ask; [done|]. unfold addBody. rewrite Hm, Hid, Hd, Hdl, Hpr. cbn [negb String.eqb].
  eapply gives_bind with (R := λ (r : addResult (T := T)) hs st, ((∃ j, r = (Some j, None) ∧ Job_ID j = FormatInt (c + 1)) ∧ hs = []) ∧
    lined (place_in (ac_lifo (config d)) l (item_of (FormatInt (c + 1), d))) st ∧ counted (c + 1) st).
  2: { intros r hs. apply gives_pure. intros [(j & -> & Hj) ->]. cbn. apply gives_ask; [done|]. apply gives_ret.
       intros st Hst. split; [|done]. split; [cbn; by rewrite Hj | done]. }
  apply gives_ask; [done|]. set (ts := UnixMilli _). apply gives_ask; [done|]. fold (given_name d).
  destruct (packs (proto.addArgs_array (proto.mkAddArgs (keys.Base b) "" (given_name d) ts "" "" None "" ""))) as [args Ea].
  destruct (packs (AMap (proto.addOpts_map (toProtoOpts (config d) 0)))) as [opts Eo].
  unfold proto.EncodeAddArgs, proto.EncodeAddOpts. rewrite Ea, Eo. cbn [negb String.eqb].
  apply (gives_quiet _ _ _ (λ x st, x = "" ∧ lined l st ∧ counted c st)); [by apply gives_ret|].
  intros x. apply gives_pure. intros ->.
  eapply gives_quiet with (R := λ v st, v = inr (AStr (FormatInt (c + 1))) ∧
    lined (place_in (ac_lifo (config d)) l (item_of (FormatInt (c + 1), d))) st ∧ counted (c + 1) st).
  { apply gives_script. unfold item_of. cbn [fst snd]. rewrite Hm. by apply add_line with (ts := ts). }
  intros v. apply gives_pure. intros ->. cbn -[FormatInt]. do 2 (apply gives_ask; [done|]). apply gives_ret.
  intros st Hst. split; [|done]. split; [by eexists | done].
Qed.

(** The orders under the ids they get. *)
Fixpoint numbered (c : Z) (l : list order) : list (string * order) :=
  match l with [] => [] | d :: l => (FormatInt (c + 1), d) :: numbered (c + 1) l end.

(** The order in which jobs come up: at the back, with LIFO at the front. *)
Definition arrange (acc : list (string * order)) (l : list (string * order)) : list (string * order) :=
  foldl (λ acc e, if ac_lifo (config e.2) then e :: acc else acc ++ [e]) acc l.

Lemma place_item acc e :
  item_of <$> (if ac_lifo (config e.2) then e :: acc else acc ++ [e]) =
    place_in (ac_lifo (config e.2)) (item_of <$> acc) (item_of e).
Proof. destruct (ac_lifo (config e.2)); cbn [place_in]; [done | by rewrite fmap_app]. Qed.

Lemma addEach_line l : ∀ acc c,
  0 ≤ c → c + Z.of_nat (length l) ≤ maxInt64 → Forall deliverable l →
  gives (λ st, lined (item_of <$> acc) st ∧ counted c st) (addEach l)
    (λ r hs st, (r = (λ e, Some e.1) <$> numbered c l ∧ hs = []) ∧ lined (item_of <$> arrange acc (numbered c l)) st).
Proof.
  induction l as [|d l IH]; intros acc c Hc Hmax Hd; cbn [addEach numbered length] in *.
  { apply gives_ret. by intros st [Hl _]. }
  apply Forall_cons in Hd as [Hd Hds].
  eapply gives_bind; [by apply (Add_line _ c d); [lia|]|]. intros r hs. apply gives_pure. intros [Hr ->].
  eapply gives_bind with (R := λ ids hs st, (ids = (λ e, Some e.1) <$> numbered (c + 1) l ∧ hs = []) ∧
    lined (item_of <$> arrange acc ((FormatInt (c + 1), d) :: numbered (c + 1) l)) st).
  - eapply gives_conseq; [|intros ids hs st Hst; exact Hst|
      apply (IH (if ac_lifo (config d) then (FormatInt (c + 1), d) :: acc else acc ++ [(FormatInt (c + 1), d)])); [lia | lia | done]].
    intros st [Hl Hn]. split; [|done].
    pose proof (place_item acc (FormatInt (c + 1), d)) as E. cbn [snd] in E. by rewrite E.
  - intros ids hs. apply gives_pure. intros [-> ->]. apply gives_ret. intros st Hl. split; [|done]. by rewrite Hr.
Qed.

(** Distinct ids stay distinct. *)
Lemma numbered_in c l e : e ∈ numbered c l → ∃ n, c < n ≤ c + Z.of_nat (length l) ∧ e.1 = FormatInt n ∧ e.2 ∈ l.
Proof.
  revert c. induction l as [|d l IH]; intros c; cbn [numbered length]; [by intros ?%not_elem_of_nil|].
  intros [->|He]%elem_of_cons; [exists (c + 1); split_and!; [lia | lia | done | by left]|].
  destruct (IH _ He) as (n & Hn & E & Hin). exists n. split_and!; [lia | lia | done | by right].
Qed.

Lemma numbered_nodup c l :
  0 ≤ c → c + Z.of_nat (length l) ≤ maxInt64 → NoDup (numbered c l).*1.
Proof.
  revert c. induction l as [|d l IH]; intros c Hc Hm; cbn [numbered length] in *; [constructor|].
  rewrite fmap_cons. apply NoDup_cons. split; [|apply IH; lia]. intros Hin.
  apply list_elem_of_fmap in Hin as (e & E & He). destruct (numbered_in _ _ _ He) as (n & Hn & En & _).
  rewrite En in E. apply FormatInt_inj in E; unfold in64, minInt64; lia.
Qed.

Lemma arrange_perm acc l : arrange acc l ≡ₚ acc ++ l.
Proof.
  revert acc. induction l as [|e l IH]; intros acc; [by rewrite app_nil_r|]. unfold arrange. cbn [foldl].
  change (foldl _ ?a l) with (arrange a l). rewrite IH. destruct (ac_lifo _); [|by rewrite <-app_assoc].
  cbn. apply Permutation_middle.
Qed.

Lemma arranged_sane c l :
  0 ≤ c → c + Z.of_nat (length l) ≤ maxInt64 → sane (item_of <$> arrange [] (numbered c l)).
Proof.
  intros Hc Hm. unfold sane. rewrite <-list_fmap_compose. change (i_id ∘ item_of) with (fst : string * order → string).
  rewrite (arrange_perm [] (numbered c l)). cbn [app]. split; [by apply numbered_nodup|].
  apply Forall_forall. intros id Hin. apply list_elem_of_fmap in Hin as (e & -> & He).
  destruct (numbered_in _ _ _ He) as (n & Hn & -> & _). apply numeral_plain. unfold in64, minInt64. lia.
Qed.

Lemma arranged_readable c l :
  Forall deliverable l → Forall readable (item_of <$> arrange [] (numbered c l)).
Proof.
  intros Hd. rewrite (arrange_perm [] (numbered c l)). cbn [app]. apply Forall_forall. intros i Hin.
  apply list_elem_of_fmap in Hin as (e & -> & He). destruct (numbered_in _ _ _ He) as (n & _ & _ & Hin).
  rewrite Forall_forall in Hd. destruct (Hd _ Hin) as (_ & data & Hm & Hne & Hu).
  unfold readable, item_of. cbn [i_data]. rewrite Hm. eauto.
Qed.

(** A handler call delivers what was ordered. *)
Definition delivers (call : string * gmap string string) (e : string * order) : Prop :=
  ∃ j, buildJob (T := T) call.1 call.2 = inr j ∧ Job_ID j = e.1 ∧ Job_Data j = e.2.1 ∧ Job_Name j = given_name e.2.

Lemma matches_delivers call e : deliverable e.2 → matches call (item_of e) → delivers call e.
Proof.
  intros (_ & data & Hm & Hne & Hu) [Hid (Hn & Hd & _)]. unfold delivers, buildJob. unfold item_of in *.
  cbn [i_id i_name i_data] in *. rewrite Hm in Hd. rewrite Hd, Hu. unfold hget. rewrite Hn, Hid.
  destruct (String.eqb_spec data ""); [done|]. by eexists.
Qed.

(** C11. First in, first out. On a queue that flows (it is neither paused nor
    capped, nothing is delayed) and in which nothing waits, add any number of jobs,
    one after the other, with no delay, priority, id or deduplication of their own
    and payloads whose text reads back: a dispatch loop with as many rounds, of a
    worker without a rate limit whose handler succeeds, then calls the handler
    exactly once for each, in the order in which they were added, except that a
    job added with [WithLifo] comes before those that wait; each call is for the
    id that [Add] reported and carries the payload and the name that were given. *)
Theorem jobs_run_in_order w c st l :
  wkeys w = newQueueKeys q → limiter (cfg w) = None →
  lined [] st → counted c st → 0 ≤ c → c + Z.of_nat (length l) ≤ maxInt64 → Forall deliverable l →
  result sv (addEach l) st = (λ e, Some e.1) <$> numbered c l ∧
  Forall2 delivers (ran (log sv (dispatchLoop (T := T) w (length l)) (world sv (addEach l) st))) (arrange [] (numbered c l)).
Proof.
  intros Hw Hl Hst Hn Hc Hm Hd.
  destruct (addEach_line l [] c Hc Hm Hd st (conj Hst Hn)) as [[Hr _] Hline]. split; [exact Hr|].
  unfold log. change (run sv (addEach l) st).1.2 with (world sv (addEach l) st) in Hline.
  assert (Hlen : length l = length (arrange [] (numbered c l))).
  { rewrite (arrange_perm [] (numbered c l)). cbn. clear. revert c. induction l as [|d l IH]; intros c; cbn; [done|]. by rewrite <-IH. }
  pose proof (arranged_sane c l Hc Hm) as Hs. pose proof (arranged_readable c l Hd) as Hrd.
  assert (Hdel : Forall (λ e, deliverable e.2) (arrange [] (numbered c l))).
  { rewrite (arrange_perm [] (numbered c l)). cbn [app]. apply Forall_forall. intros e He.
    destruct (numbered_in _ _ _ He) as (n & _ & _ & Hin). rewrite Forall_forall in Hd. by apply Hd. }
  rewrite Hlen. destruct (arrange [] (numbered c l)) as [|e es]; [by apply Forall2_nil_2|].
  rewrite fmap_cons in *. replace (length (e :: es)) with (length (item_of e :: (item_of <$> es))) by (cbn; by rewrite length_fmap).
  pose proof (dispatch_line w Hw Hl _ _ Hs Hrd _ Hline) as Hall.
  change (item_of e :: (item_of <$> es)) with (item_of <$> (e :: es)) in Hall |- *. revert Hall Hdel.
  generalize (ran (run sv (dispatchLoop w (length (item_of <$> (e :: es)))) (world sv (addEach l) st)).2), (e :: es). clear.
  intros hs es Hall. rewrite Forall2_fmap_r in Hall. induction Hall as [|call e' hs' es' Hm Hall IH]; intros Hdel; [by apply Forall2_nil_2|].
  apply Forall_cons in Hdel as [He Hes]. apply Forall2_cons_2; [by apply matches_delivers | by apply IH].
Qed.
End store.

(** Three jobs, the last of them with LIFO. *)
Definition sampleOrders : list (order (T := string)) :=
  [("[1]", []); ("[2]", [WithJobName "resize"]); ("[3]", [WithLifo true])].

Lemma jobs_run_in_order_witness :
  let sv := redis_server (H := treeMsgpack) (H0 := treeCodec) sampleJson plainOracle in
  let add := addEach (H := treeMsgpack) (H2 := amd64) (H4 := rawPayload) sampleQueue sampleOrders in
  let loop := dispatchLoop (H := treeMsgpack) (H0 := amd64) (H1 := hourly) (H2 := rawPayload) sampleWorker 3 in
  result sv add emptyStore = [Some "1"; Some "2"; Some "3"] ∧
  Forall2 (delivers (H4 := rawPayload) sampleQueue) (ran (log sv loop (world sv add emptyStore)))
    [("3", ("[3]", [WithLifo true])); ("1", ("[1]", [])); ("2", ("[2]", [WithJobName "resize"]))].
Proof.
  apply (jobs_run_in_order (H := treeMsgpack) (H0 := treeCodec) (H1 := treePacks) (H2 := amd64) (H3 := hourly)
    (H4 := rawPayload) sampleJson plainOracle sampleQueue sampleWorker 0 emptyStore sampleOrders).
  - reflexivity.
  - reflexivity.
  - split_and!; [by repeat split | done | by intros i ?%not_elem_of_nil | by intros x []].
  - done.
  - done.
  - unfold maxInt64. cbn. lia.
  - repeat constructor; by eexists.
Defined.
