(* ===== verification/Upkeep.v ===== *)
(** * Draining a queue and keeping a schedule going, on the store

    [DrainPending] and the schedule functions followed through their scripts: a
    drain takes what waits and nothing else, and a worker that ends an iteration
    of a schedule queues the next one. In two cases the scripts do otherwise: a
    drain can strand the current iteration of a schedule, and an iteration that
    ends before its slot is followed by none. *)

From S2P Require Import Prelude GoLib Keys Backoff Effects Json Jobs Proto Wire Cron Config Finalise Worker Dispatch Queue Schedule Inspect Redis RedisInv Fencing Persist Concurrent System Delivery.
Import lua.

Section server.
Context `{Codec}.
Variable cjson : any → string.
Variable o : oracle.

(** One Redis and a clock that stands. *)
Definition clocked (now : Z) : server store := λ st r,
  match r return resp r * store with
  | RScript _ n ks args => let '(v, st', _) := script cjson o n ks args st in (v, st')
  | RHMGet _ k fs => (inr ((λ f, match hgetall k st !! f with Some v => AStr v | None => ANil end) <$> fs), st)
  | RNow => (now, st)
  | r => ((quiet tt r).1, st)
  end.
End server.

(** ** Draining *)

Section drain.
Context `{Codec}.
Variable cjson : any → string.
Variable o : oracle.
Variable q : Queue.
Abbreviation b := (q_keys q).

(** A script that ends with one answer. *)
Lemma bind_answers {A B} (m : Lua A) (f : A → Lua B) v :
  (∀ a st, (f a st).1.1 = v) → ∀ st, ((m ≫= f) st).1.1 = v.
Proof.
  intros Hf st. unfold mbind, Lua_bind. destruct (m st) as [[a st1] l1]. specialize (Hf a st1).
  by destruct (f a st1) as [[c st2] l2].
Qed.

(** C14. A drain takes what waits and nothing else. On a
    queue in which no iteration that is due waits in a list, [DrainPending]
    reports success and deletes exactly the jobs in wait, in paused, in
    prioritized and, if asked to, in delayed, except the iterations of schedules
    that are due; these keep their places, and so do the jobs that run, are
    finished or, unless asked for, are delayed. *)
Theorem drain_exact now st opts :
  inv b [] st → drainable b st →
  let sv := clocked cjson o now in
  result sv (DrainPending q opts) st = None ∧
  drained b (applyOptions opts false) st (world sv (DrainPending q opts) st) ∧
  inv b [] (world sv (DrainPending q opts) st).
Proof.
  intros Hi Hd. cbv zeta. unfold result, world, DrainPending. set (d := applyOptions opts false). cbn -[drain].
  set (ks := [_; _; _; _; _]). set (args := [_; _]). unfold mbind, Lua_bind.
  destruct (drain_state b ks args st) as [Hi' Hs]; [by repeat constructor | done..|].
  assert (Hv : (drain ks args st).1.1 = ANil) by (unfold drain; cbv zeta; by repeat (apply bind_answers; intros ? ?)).
  destruct (drain ks args st) as [[v st'] es]. cbn in *. subst v. cbn. split_and!; [done| |done].
  by destruct d.
Qed.

(** An iteration that is in no place, but still a job of a schedule. *)
Definition stranded (it : string) (st : store) : Prop := is_job b st it ∧ it ∉ ids b st.

(** What a drain does next keeps it stranded. *)
Lemma stranded_list it k ignore st :
  k ∈ lplaces b → it ∈ ignore → stranded it st →
  let st' := (removeListJobs k (keys.Base b) ignore st).1.2 in stranded it st' ∧ zsets st' = zsets st.
Proof.
  intros Hk Hit [Hj Hn]. unfold removeListJobs, mbind, Lua_bind, gets, modify. set (jobs := filter _ _).
  pose proof (dropJobs_dropped b jobs st) as Hd. destruct (dropJobs _ jobs st) as [[u st1] l1]. cbn [fst snd] in *.
  split; [|exact (dr_zsets _ _ _ _ Hd)]. split.
  - apply (dr_jobs _ _ _ _ Hd). split; [done|]. unfold jobs. by intros [? _]%list_elem_of_filter.
  - destruct (ids_lset b k (drop (length jobs) (lget k st1)) st1 Hk) as (rest & H1 & H2).
    rewrite <-(dropped_ids _ _ _ _ Hd), H1 in Hn. rewrite H2. intros [Hin|Hin]%elem_of_app; apply Hn, elem_of_app; [left|by right].
    rewrite <-(take_drop (length jobs)). apply elem_of_app. by right.
Qed.

Lemma stranded_zset it k ignore st :
  k ∈ zplaces b → it ∈ ignore → stranded it st →
  let st' := (removeZSetJobs k (keys.Base b) ignore st).1.2 in
  stranded it st' ∧ (k ≠ keys.Repeat b → zget (keys.Repeat b) st' = zget (keys.Repeat b) st).
Proof.
  intros Hk Hit [Hj Hn]. destruct (removeZSetJobs_places b k ignore st Hk) as (_ & _ & Eids & Hjob & Hin & Hz). cbv zeta.
  split; [split|].
  - apply Hjob. split; [done|]. by intros [_ ?]%Hin.
  - intros Hx. apply Hn. rewrite Eids. apply elem_of_app. by right.
  - intros Hne. apply map_eq. intros x. rewrite Hz, bool_decide_eq_false_2; [done|]. by intros [? _].
Qed.

(** The list is cut at the head, whatever is there. *)
Lemma stranded_first it rest ignore st :
  inv b [] st → it ∈ ignore → lget (keys.Wait b) st = it :: rest → Exists (λ j, j ∉ ignore) rest →
  let st' := (removeListJobs (keys.Wait b) (keys.Base b) ignore st).1.2 in stranded it st' ∧ zsets st' = zsets st.
Proof.
  intros Hi Hit Hw Hex. unfold removeListJobs, mbind, Lua_bind, gets, modify. rewrite Hw, filter_cons_False by (by intros []).
  destruct (filter _ rest) as [|j jobs] eqn:Ef.
  { apply Exists_exists in Hex as (j & Hj & Hc). assert (j ∈ filter (λ j, j ∉ ignore) rest) as Hx by by apply list_elem_of_filter.
    rewrite Ef in Hx. by apply not_elem_of_nil in Hx. }
  rewrite <-Ef in *. set (js := filter _ rest) in *. pose proof (dropJobs_dropped b js st) as Hd.
  destruct (dropJobs _ js st) as [[u st1] l1]. cbn [fst snd] in *.
  assert (Ew : lget (keys.Wait b) st1 = it :: rest) by (unfold lget; by rewrite (dr_lists _ _ _ _ Hd)).
  destruct (ids_lset b (keys.Wait b) (drop (length js) (lget (keys.Wait b) st1)) st1) as (others & H1 & H2); [auto with lua|].
  rewrite (dropped_ids _ _ _ _ Hd), Ew in H1. pose proof (inv_nodup _ _ _ Hi) as Hnd. cbn [app] in Hnd. rewrite H1 in Hnd.
  apply NoDup_cons in Hnd as [Hnit _]. split; [split|exact (dr_zsets _ _ _ _ Hd)].
  - apply (dr_jobs _ _ _ _ Hd). split; [|unfold js; by intros [? _]%list_elem_of_filter].
    apply (inv_jobs _ _ _ Hi). cbn [app]. rewrite H1. by left.
  - rewrite H2, Ew. rewrite Ef. cbn [length drop]. intros [Hin|Hin]%elem_of_app; apply Hnit, elem_of_app; [left|by right].
    rewrite <-(take_drop (length jobs)). apply elem_of_app. by right.
Qed.

Lemma drain_strands d st it rest :
  let cur := currentIterations (keys.Repeat b) st in
  let st' := (drain [keys.Wait b; keys.Paused b; keys.Delayed b; keys.Prioritized b; keys.Repeat b]
                [AStr (keys.Base b); AStr (if d : bool then "1" else "0")] st).1.2 in
  inv b [] st → it ∈ cur → lget (keys.Wait b) st = it :: rest → Exists (λ j, j ∉ cur) rest →
  stranded it st' ∧ zget (keys.Repeat b) st' = zget (keys.Repeat b) st.
Proof.
  intros cur st' Hi Hit Hw Hex. subst st'. unfold drain, key, argv. cbn [str default from_option id lookup list_lookup Nat.sub].
  replace (String.eqb (if d then "1" else "0") "1") with d by (by destruct d).
  unfold mbind, Lua_bind, gets. cbv zeta. fold cur.
  destruct (stranded_first it rest cur st Hi Hit Hw Hex) as [H1 Z1]. destruct (removeListJobs _ _ _ st) as [[u1 st1] l1].
  cbn [fst snd] in *. destruct (stranded_list it (keys.Paused b) cur st1) as [H2 Z2]; [auto with lua | done | done|].
  destruct (removeListJobs _ _ _ st1) as [[u2 st2] l2]. cbn [fst snd] in *.
  set (m3 := if d then removeZSetJobs (keys.Delayed b) (keys.Base b) cur else mret tt).
  assert (H3 : stranded it (m3 st2).1.2 ∧ zget (keys.Repeat b) (m3 st2).1.2 = zget (keys.Repeat b) st2).
  { unfold m3. destruct d; [|done]. destruct (stranded_zset it (keys.Delayed b) cur st2) as [? Hz]; [auto with lua | done | done|].
    split; [done|]. apply Hz. by intros ?%sapp_inv_head. }
  destruct (m3 st2) as [[u3 st3] l3]. cbn [fst snd] in *. destruct H3 as [H3 Z3].
  destruct (stranded_zset it (keys.Prioritized b) cur st3) as [H4 Z4]; [auto with lua | done | done|].
  destruct (removeZSetJobs _ _ _ st3) as [[u4 st4] l4]. cbn [fst snd] in *.
  split; [done|]. cbn [fst snd mret Lua_ret]. rewrite Z4, Z3 by (by intros ?%sapp_inv_head). unfold zget. by rewrite Z2, Z1.
Qed.

(** C38. A drain strands a schedule. Whatever else the store
    holds: when the current iteration of a schedule is the newest job in wait and a
    job that is no current iteration waits behind it, [DrainPending] reports
    success, but the iteration is then in no place from which a worker could take
    it, while its HASH and the schedule's entry stay; so it never runs, and no
    iteration comes after it. *)
Theorem drain_strands_schedule now st opts it rest :
  let cur := currentIterations (keys.Repeat b) st in
  inv b [] st → it ∈ cur → lget (keys.Wait b) st = it :: rest → Exists (λ j, j ∉ cur) rest →
  let sv := clocked cjson o now in
  let st' := world sv (DrainPending q opts) st in
  result sv (DrainPending q opts) st = None ∧ is_job b st' it ∧ (it ∉ ids b st') ∧
  zget (keys.Repeat b) st' = zget (keys.Repeat b) st.
Proof.
  intros cur Hi Hit Hw Hex. cbv zeta. unfold result, world, DrainPending. set (d := applyOptions opts false). cbn -[drain].
  destruct (drain_strands d st it rest Hi Hit Hw Hex) as [[Hj Hn] Hz]. set (ks := [_; _; _; _; _]) in *. set (args := [AStr _; AStr _]) in *.
  assert (Hv : (drain ks args st).1.1 = ANil) by (unfold drain; cbv zeta; by repeat (apply bind_answers; intros ? ?)).
  unfold mbind, Lua_bind. destruct (drain ks args st) as [[v st'] es]. cbn in *. subst v. done.
Qed.
End drain.

(** ** The script that queues an iteration *)

Section script.
Context `{Codec}.
Variable cjson : any → string.
Variable q : Queue.
Abbreviation b := (q_keys q).

(** A schedule's own key. *)
Lemma repeat_key sid : keys.Repeat b +:+ ":" +:+ sid = keys.Schedule b sid.
Proof. unfold keys.Repeat, keys.Schedule. by rewrite <-!sapp_assoc. Qed.

Lemma iteration_not_schedule sid m : keys.Job b (iteration sid m) ≠ keys.Schedule b sid.
Proof.
  unfold keys.Job, keys.Schedule, iteration. intros E%sapp_inv_head%sapp_inv_head%(f_equal String.length).
  rewrite slength_app in E. cbn in E. lia.
Qed.

Lemma iteration_inj sid m n : in64 m → in64 n → iteration sid m = iteration sid n → m = n.
Proof. intros Hm Hn E. unfold iteration in E. repeat apply sapp_inv_head in E. by apply FormatInt_inj in E. Qed.

Lemma hset_other k k' h st : k' ≠ k → hashes (hset k h st) !! k' = hashes st !! k'.
Proof. intros Hne. unfold hset. cbn. case_bool_decide; [by apply lookup_delete_ne | by apply lookup_insert_ne]. Qed.

Lemma maxEvents_hash k k' st : k' ≠ k → hashes (getOrSetMaxEvents k st).1.2 !! k' = hashes st !! k'.
Proof.
  intros Hne. unfold getOrSetMaxEvents, HGET, gets, mbind, Lua_bind. destruct (hgetall k st !! _); [done|].
  by apply hset_other.
Qed.

(** The job is held back until the millisecond [slot], or waits when that has come. *)
Definition awaits (now slot : Z) (st : store) (id : string) : Prop :=
  if now <? slot then ∃ s, zget (keys.Delayed b) st !! id = Some s ∧ s / 0x1000 = slot
  else is_Some (zget (keys.Prioritized b) st !! id) ∨ id ∈ lget (keys.Wait b) st.

(** The score of a delayed job tells the time it is due. *)
Lemma delayedScore_slot k now delay st : 0 < delay → (getDelayedScore k now delay st).1.1 / 0x1000 = now + delay.
Proof.
  intros Hd. unfold getDelayedScore, gets, mbind, Lua_bind, mret, Lua_ret. cbn [fst snd].
  rewrite (proj2 (Z.ltb_lt 0 delay)) by done. set (a := now + delay). clearbody a. cbv zeta.
  destruct (last _) as [s|] eqn:E; [|by rewrite Z.div_mul].
  apply last_Some_elem_of, list_elem_of_fmap in E as ([i s'] & -> & [Hr _]%list_elem_of_filter). cbn in *.
  destruct (Z.leb_spec ((a + 1) * 4096 - 1) s'); symmetry; [apply (Z.div_unique _ _ _ 4095) | apply (Z.div_unique _ _ _ (s' + 1 - a * 4096))]; lia.
Qed.

(** The new iteration is a job, it awaits its slot, and nothing else is touched. *)
Lemma fromScheduler_state ks id name data opts ts sid slot st :
  keyed ks [(2%nat, keys.Delayed b); (3%nat, keys.Wait b); (6%nat, keys.Prioritized b)] →
  let now := default 0 (num ts) in let delay := Z.max 0 (slot - now) in
  let st' := (addJobFromScheduler cjson ks (keys.Job b id) id name data opts ts sid delay st).1.2 in
  is_job b st' id ∧ awaits now slot st' id ∧ (∀ k, k ≠ keys.Job b id → hashes st' !! k = hashes st !! k) ∧
  zget (keys.Repeat b) st' = zget (keys.Repeat b) st.
Proof.
  intros Hk. cbv zeta. set (now := default 0 (num ts)). unfold addJobFromScheduler. use_keys Hk.
  set (os := with_field _ "jobId" _). unfold storeJob, HMSET, modify, mbind, Lua_bind, mret, Lua_ret. cbn [fst snd].
  set (h := foldl _ (hgetall (keys.Job b id) st) _). set (st1 := hset (keys.Job b id) h st).
  assert (Hj : is_Some (h !! "timestamp")).
  { unfold h. cbn [foldl app fst snd]. destruct (truthy (AStr sid)), (truthy (field (field os "de") "id")); cbn [foldl app fst snd];
      rewrite ?lookup_insert_ne, lookup_insert by done; by rewrite decide_True. }
  assert (Hst : ∀ st', hashes st' = hashes st1 → is_job b st' id ∧ ∀ k, k ≠ keys.Job b id → hashes st' !! k = hashes st !! k).
  { intros st' E. split; [|intros k Hne; rewrite E; by apply hset_other].
    unfold is_job, hgetall. rewrite E. change (default ∅ (hashes st1 !! keys.Job b id)) with (hgetall (keys.Job b id) st1).
    unfold st1. by rewrite hgetall_hset, bool_decide_eq_true_2. }
  assert (Hr : ∀ k, k ∈ zplaces b → keys.Repeat b ≠ k).
  { intros k Hin <-. pose proof (place_keys b) as (_ & _ & Hd)%NoDup_app. apply NoDup_app in Hd as (_ & Hd & _).
    apply (Hd _ Hin). by left. }
  assert (Hfin : ∀ st', hashes st' = hashes st1 → awaits now slot st' id → zget (keys.Repeat b) st' = zget (keys.Repeat b) st →
    is_job b st' id ∧ awaits now slot st' id ∧ (∀ k, k ≠ keys.Job b id → hashes st' !! k = hashes st !! k) ∧
    zget (keys.Repeat b) st' = zget (keys.Repeat b) st).
  { intros st' E Hq Hz. destruct (Hst st' E). done. }
  assert (Hz : ∀ k s st', k ∈ zplaces b → zget (keys.Repeat b) (zset k (<[id := s]> (zget k st')) st') = zget (keys.Repeat b) st').
  { intros k s st' Hin. rewrite zget_zset, bool_decide_eq_false_2; [done|]. apply not_eq_sym, Hr, Hin. }
  assert (Hin : ∀ k s st', is_Some (zget k (zset k (<[id := s]> (zget k st')) st') !! id)).
  { intros k s st'. by rewrite zget_zset, bool_decide_eq_true_2, lookup_insert_eq. }
  unfold awaits in *. destruct (Z.ltb_spec now slot) as [Hlt|Hle].
  { rewrite Z.max_r by lia. destruct (Z.eqb_spec (slot - now) 0); [lia|]. cbn [negb]. fold now.
    pose proof (delayedScore_slot (keys.Delayed b) now (slot - now) st1 ltac:(lia)) as Es.
    unfold getDelayedScore, gets, mbind, Lua_bind, mret, Lua_ret, ZADD, modify in Es |- *. cbn [fst snd] in Es |- *.
    apply Hfin; [done | | etrans; [apply Hz; auto with lua | done]].
    eexists. rewrite zget_zset, bool_decide_eq_true_2, lookup_insert_eq by done. split; [done|]. rewrite Es. lia. }
  rewrite Z.max_l by lia. cbn [negb Z.eqb]. destruct (0 <? _).
  { unfold addJobWithPriority, getPriorityScore, INCR, mbind, Lua_bind, ZADD, modify, mret, Lua_ret. cbn [fst snd].
    apply Hfin; [done | | etrans; [apply Hz; auto with lua | done]]. left. apply Hin. }
  unfold pushCmd. destruct (String.eqb _ "RPUSH"); unfold RPUSH, LPUSH, modify; cbn [fst snd]; (apply Hfin; [done | | done]);
    right; rewrite lget_lset, bool_decide_eq_true_2 by done; set_solver.
Qed.

Lemma bind_state {A B} (m : Lua A) (f : A → Lua B) st : ((m ≫= f) st).1.2 = (f (m st).1.1 (m st).1.2).1.2.
Proof. unfold mbind, Lua_bind. destruct (m st) as [[a st1] l1]. cbn. by destruct (f a st1) as [[c st2] l2]. Qed.

(** The iteration behind the one that ended, or nothing if its slot is taken. *)
Lemma update_state ks args sid prev st :
  keyed ks [(1%nat, keys.Repeat b); (2%nat, keys.Delayed b); (3%nat, keys.Wait b); (5%nat, keys.Meta b);
            (6%nat, keys.Prioritized b)] →
  str (argv args 2) = sid → zget (keys.Repeat b) st !! sid = Some prev → str (argv args 7) = iteration sid prev →
  let h := hgetall (keys.Schedule b sid) st in
  let next := slotBehind (h !! "every") (h !! "offset") (unpack (str (argv args 4))) prev
                (default 0 (num (argv args 5))) (default 0 (num (argv args 1))) in
  let st' := (updateJobScheduler cjson ks args st).1.2 in
  match hashes st !! keys.Job b (iteration sid next) with
  | Some _ => (lists st' = lists st ∧ zsets st' = zsets st) ∧ ∀ k, k ≠ keys.Meta b → hashes st' !! k = hashes st !! k
  | None => is_job b st' (iteration sid next) ∧ awaits (default 0 (num (argv args 5))) next st' (iteration sid next) ∧
      zget (keys.Repeat b) st' !! sid = Some next ∧
      hgetall (keys.Schedule b sid) st' = <["ic" := FormatInt (parseInt (hget h "ic") + 1)]> h ∧
      ∀ m, iteration sid m ≠ iteration sid next →
        hashes st' !! keys.Job b (iteration sid m) = hashes st !! keys.Job b (iteration sid m)
  end.
Proof.
  intros Hk Hs Hp Hc. cbv zeta. pose proof Hk as Hk0. repeat (apply Forall_cons in Hk0 as [? Hk0]). cbn [fst snd] in *.
  set (next := slotBehind _ _ _ _ _ _). set (id := iteration sid next).
  assert (Hm1 : keys.Job b id ≠ keys.Meta b) by by intros ?%sapp_inv_head.
  assert (Hm2 : keys.Schedule b sid ≠ keys.Meta b) by by intros ?%sapp_inv_head.
  set (st1 := (getOrSetMaxEvents (keys.Meta b) st).1.2).
  set (st4 := (INCR (key ks 8) (HINCRBY (keys.Schedule b sid) "ic" (ZADD (keys.Repeat b) next sid st1).1.2).1.2).1.2).
  assert (Hh : ∀ k, k ≠ keys.Meta b → hashes st1 !! k = hashes st !! k) by (intros k; apply maxEvents_hash).
  assert (E : (updateJobScheduler cjson ks args st).1.2 =
    match hashes st !! keys.Job b id with
    | Some _ => st1
    | None => (addJobFromScheduler cjson ks (keys.Job b id) id (default "" (hgetall (keys.Schedule b sid) st !! "name"))
        (default "{}" (hgetall (keys.Schedule b sid) st !! "data")) (unpack (str (argv args 4))) (argv args 5) sid
        (Z.max 0 (next - default 0 (num (argv args 5)))) st4).1.2
    end).
  { unfold updateJobScheduler. cbv zeta. rewrite Hs, Hc. repeat match goal with E : key ks _ = _ |- _ => rewrite E; clear E end.
    rewrite repeat_key. rewrite bind_state. cbn [ZSCORE gets fst snd]. rewrite Hp. do 4 (rewrite bind_state; cbn [HGET gets fst snd]).
    fold next. rewrite String.eqb_refl, bind_state. fold st1. rewrite bind_state. cbn [HEXISTS gets fst snd].
    rewrite <-repeat_key, iteration_key, repeat_key. fold id. rewrite (Hh _ Hm1).
    destruct (hashes st !! keys.Job b id); [done|]. rewrite bool_decide_eq_false_2 by (by intros []).
    cbn [negb andb]. do 4 rewrite bind_state. done. }
  rewrite E. clear E. destruct (hashes st !! keys.Job b id) as [g|]; [by split; [apply maxEvents_places|]|].
  destruct (fromScheduler_state ks id (default "" (hgetall (keys.Schedule b sid) st !! "name"))
    (default "{}" (hgetall (keys.Schedule b sid) st !! "data")) (unpack (str (argv args 4))) (argv args 5) sid next st4) as (Hj & Hq & Hhs & Hz); [by repeat constructor|].
  split_and!; [done | done | | |].
  - rewrite Hz. unfold st4, INCR, HINCRBY, ZADD, modify. cbn [fst snd]. set (h4 := <[_ := _]> _).
    transitivity (zget (keys.Repeat b) (zset (keys.Repeat b) (<[sid := next]> (zget (keys.Repeat b) st1)) st1) !! sid); [done|].
    by rewrite zget_zset, bool_decide_eq_true_2, lookup_insert_eq.
  - unfold hgetall at 1. rewrite Hhs by (apply not_eq_sym, iteration_not_schedule).
    change (default ∅ (hashes st4 !! keys.Schedule b sid)) with (hgetall (keys.Schedule b sid) st4).
    assert (E1 : hgetall (keys.Schedule b sid) st1 = hgetall (keys.Schedule b sid) st) by (unfold hgetall; by rewrite Hh).
    unfold st4, INCR, HINCRBY, ZADD, modify. cbn [fst snd]. set (st2 := zset _ _ st1).
    change (hgetall (keys.Schedule b sid) (with_nums _ ?x)) with (hgetall (keys.Schedule b sid) x).
    rewrite hgetall_hset, bool_decide_eq_true_2 by done. change (hgetall (keys.Schedule b sid) st2) with (hgetall (keys.Schedule b sid) st1).
    by rewrite E1.
  - intros m Hm. rewrite Hhs by by intros ?%Job_inj. unfold st4, INCR, HINCRBY, ZADD, modify. cbn [fst snd].
    change (hashes (with_nums _ ?x)) with (hashes x). rewrite hset_other by apply iteration_not_schedule.
    apply Hh. by intros ?%sapp_inv_head.
Qed.

(** A field written under a condition. *)
Lemma hmset_if (c : bool) f g v (h : gmap string string) :
  foldl (λ h kv, <[kv.1 := kv.2]> h) h (if c then [(f, v)] else []) !! g =
  if c && String.eqb f g then Some v else h !! g.
Proof. destruct c; cbn; [|done]. rewrite lookup_insert. destruct (String.eqb_spec f g); by case_decide. Qed.

(** The HASH and the entry of a new schedule. *)
Definition given (opts : any) (f : string) : option string :=
  if truthy (field opts f) then Some (str (field opts f)) else None.

Lemma store_state sid next opts data tmpl st :
  hashes st !! keys.Schedule b sid = None → truthy (field opts "offset") = true →
  let st' := (storeJobScheduler cjson sid (keys.Schedule b sid) (keys.Repeat b) next opts data tmpl st).1.2 in
  let h := hgetall (keys.Schedule b sid) st' in
  zget (keys.Repeat b) st' !! sid = Some next ∧
  (∀ k, k ≠ keys.Schedule b sid → hashes st' !! k = hashes st !! k) ∧
  (∀ f, f ∈ ["tz"; "limit"; "pattern"; "startDate"; "endDate"; "every"; "offset"] → h !! f = given opts f) ∧
  h !! "ic" = Some "1" ∧ h !! "opts" = if String.eqb (cjson tmpl) "{}" then None else Some (cjson tmpl).
Proof.
  intros Hn Ho. cbv zeta. unfold storeJobScheduler. cbv zeta. do 4 rewrite bind_state.
  cbn [ZADD HGET gets modify fst snd]. set (st1 := zset _ _ st).
  assert (Hh : hgetall (keys.Schedule b sid) st1 = ∅) by (unfold hgetall; change (hashes st1) with (hashes st); by rewrite Hn).
  rewrite Hh, Ho. unfold HMSET, modify. cbn [fst snd]. set (st2 := hdel _ st1).
  assert (Hh2 : hgetall (keys.Schedule b sid) st2 = ∅).
  { unfold hgetall, st2. cbn. by rewrite lookup_delete_eq. }
  rewrite Hh2. set (h := foldl _ ∅ _). rewrite hgetall_hset, bool_decide_eq_true_2 by done. split_and!.
  - transitivity (zget (keys.Repeat b) st1 !! sid); [done|]. unfold st1.
    by rewrite zget_zset, bool_decide_eq_true_2, lookup_insert_eq.
  - intros k Hk. rewrite hset_other by done. unfold st2. cbn. by rewrite lookup_delete_ne.
  - unfold h, given. intros f Hf. rewrite !foldl_app. cbn [foldl fst snd].
    repeat first [apply elem_of_cons in Hf as [->|Hf] | by apply not_elem_of_nil in Hf];
      rewrite lookup_insert_ne by done;
      destruct (String.eqb data "{}"), (String.eqb (cjson tmpl) "{}"); cbn [foldl fst snd]; rewrite ?lookup_insert_ne by done;
      first [rewrite lookup_insert_eq; by rewrite Ho | rewrite !hmset_if; cbn [String.eqb Ascii.eqb Bool.eqb andb];
             by rewrite ?andb_false_r, ?andb_true_r].
  - unfold h. rewrite !foldl_app. cbn [foldl fst snd]. by rewrite lookup_insert_eq.
  - unfold h. rewrite !foldl_app. cbn [foldl fst snd]. rewrite lookup_insert_ne by done.
    destruct (String.eqb data "{}"), (String.eqb (cjson tmpl) "{}"); cbn [foldl fst snd];
      rewrite ?lookup_insert_ne by done; first [by rewrite lookup_insert_eq | rewrite !hmset_if;
        cbn [String.eqb Ascii.eqb Bool.eqb andb]; by rewrite ?andb_false_r].
Qed.

Lemma bind_fst {A B} (m : Lua A) (f : A → Lua B) st : ((m ≫= f) st).1 = (f (m st).1.1 (m st).1.2).1.
Proof. unfold mbind, Lua_bind. destruct (m st) as [[a st1] l1]. cbn. by destruct (f a st1) as [[c st2] l2]. Qed.

(** A schedule that is not there yet is stored, with its first iteration. *)
Lemma add_state ks args sid ov st :
  keyed ks [(1%nat, keys.Repeat b); (2%nat, keys.Delayed b); (3%nat, keys.Wait b); (5%nat, keys.Meta b);
            (6%nat, keys.Prioritized b)] →
  str (argv args 3) = sid → str (argv args 8) = keys.Base b → unpack (str (argv args 2)) = ov →
  (∃ m, ov = AMap m) → field ov "offset" = ANil → num (field (field (unpack (str (argv args 6))) "repeat") "offset") = None →
  zget (keys.Repeat b) st !! sid = None → hashes st !! keys.Schedule b sid = None →
  let now := default 0 (num (argv args 7)) in
  let slot := nextSlot (num (field ov "every")) None now 0 (num (field ov "startDate"))
                (default 0 (num (argv args 1))) in
  let id := iteration sid slot.1 in
  hashes st !! keys.Job b id = None →
  let r := (addJobScheduler cjson ks args st).1 in
  let h := hgetall (keys.Schedule b sid) r.2 in
  r.1 = AArr [AStr id; AInt64 (Z.max 0 (slot.1 - now))] ∧
  is_job b r.2 id ∧ awaits now slot.1 r.2 id ∧ zget (keys.Repeat b) r.2 !! sid = Some slot.1 ∧
  (∀ f, f ∈ ["tz"; "limit"; "pattern"; "startDate"; "endDate"; "every"; "offset"] →
     h !! f = if String.eqb f "offset" then Some (FormatInt slot.2) else given ov f) ∧
  h !! "ic" = Some "1" ∧
  (let json := cjson (unpack (str (argv args 5))) in h !! "opts" = if String.eqb json "{}" then None else Some json) ∧
  ∀ k, k ≠ keys.Schedule b sid → k ≠ keys.Job b id → k ≠ keys.Meta b → hashes r.2 !! k = hashes st !! k.
Proof.
  intros Hk Hs Hp Hm [m ->] Ho1 Ho2 Hz Hh. cbv zeta. pose proof Hk as Hk0. repeat (apply Forall_cons in Hk0 as [? Hk0]).
  cbn [fst snd] in *. set (now := default 0 (num (argv args 7))). set (slot := nextSlot _ _ _ _ _ _).
  set (id := iteration sid slot.1). intros Hid.
  assert (Hm1 : keys.Job b id ≠ keys.Meta b) by by intros ?%sapp_inv_head.
  assert (Hm2 : keys.Schedule b sid ≠ keys.Meta b) by by intros ?%sapp_inv_head.
  set (st1 := (getOrSetMaxEvents (keys.Meta b) st).1.2).
  assert (Hh1 : ∀ k, k ≠ keys.Meta b → hashes st1 !! k = hashes st !! k) by (intros k; apply maxEvents_hash).
  set (o1 := AMap (map_set m "offset" (AInt64 slot.2))).
  set (st2 := (storeJobScheduler cjson sid (keys.Schedule b sid) (keys.Repeat b) slot.1 o1 (str (argv args 4))
    (unpack (str (argv args 5))) st1).1.2).
  set (st3 := (INCR (key ks 8) st2).1.2).
  set (st4 := (addJobFromScheduler cjson ks (keys.Job b id) id (str (field o1 "name")) (str (argv args 4))
    (unpack (str (argv args 6))) (argv args 7) sid (Z.max 0 (slot.1 - now)) st3).1.2).
  assert (E : (addJobScheduler cjson ks args st).1 = (AArr [AStr id; AInt64 (Z.max 0 (slot.1 - now))], st4)).
  { unfold addJobScheduler. cbv zeta. rewrite Hs, Hp, Hm. repeat match goal with E : key ks _ = _ |- _ => rewrite E; clear E end.
    rewrite repeat_key. cbn [field]. cbn [field] in Ho1. rewrite Ho1. cbn [default num]. cbn [field] in Ho2. rewrite Ho2. cbn [default].
    rewrite bind_fst. fold st1. do 3 rewrite bind_fst. cbn [ZSCORE HGET gets fst snd].
    assert (zget (keys.Repeat b) st1 !! sid = None) as ->.
    { unfold zget. destruct (maxEvents_places (keys.Meta b) st) as [_ Ez]. fold st1 in Ez. by rewrite Ez. }
    assert (∀ e p, everyUpdated e None p = false) as -> by by intros [].
    cbn [mret Lua_ret fst snd with_field]. cbn [field] in slot. fold now slot.
    rewrite bind_fst. unfold chooseSlot. rewrite !bind_fst. cbn [HEXISTS gets fst snd].
    change (keys.Base b +:+ iteration sid slot.1) with (keys.Job b id). rewrite (Hh1 _ Hm1), Hid.
    rewrite bool_decide_eq_false_2 by (by intros []). cbn [negb orb mret Lua_ret fst snd].
    rewrite bind_fst. fold o1. fold st2. rewrite bind_fst. fold st3. rewrite bind_fst.
    rewrite <-repeat_key, iteration_key. done. }
  rewrite E. cbn [fst snd]. clear E.
  destruct (store_state sid slot.1 o1 (str (argv args 4)) (unpack (str (argv args 5))) st1) as (S1 & S2 & S3 & S4 & S5).
  { by rewrite Hh1. }
  { unfold o1. cbn [field]. by rewrite map_get_set_eq. }
  destruct (fromScheduler_state ks id (str (field o1 "name")) (str (argv args 4)) (unpack (str (argv args 6))) (argv args 7) sid
    slot.1 st3) as (F1 & F2 & F3 & F4); [by repeat constructor|].
  fold st2 in S1, S2, S3, S4, S5. fold now in F1, F2, F3, F4. fold st4 in F1, F2, F3, F4.
  assert (Hsch : hgetall (keys.Schedule b sid) st4 = hgetall (keys.Schedule b sid) st2).
  { unfold hgetall. rewrite F3 by (apply not_eq_sym, iteration_not_schedule). done. }
  rewrite Hsch. split_and!; try done.
  - by rewrite F4.
  - intros f Hf. rewrite S3 by done. unfold given, o1. cbn [field].
    destruct (String.eqb_spec f "offset") as [->|Hne]; [by rewrite map_get_set_eq | by rewrite map_get_set_ne].
  - intros k K1 K2 K3. rewrite F3 by done. change (hashes st3) with (hashes st2). by rewrite S2, Hh1.
Qed.

(** The slots of an interval schedule go up. *)
Lemma everyNext_ahead prev every now offset :
  0 < every → 0 ≤ offset → prev < (everyNextMillis (Some prev) every now offset None).1.
Proof.
  intros He Ho. unfold everyNextMillis. cbn [fst]. destruct (Z.ltb_spec (prev + every) now); [|lia].
  pose proof (Z.div_mod now every ltac:(lia)). pose proof (Z.mod_pos_bound now every He).
  destruct (Z.leb_spec (now / every * every + offset) now); nia.
Qed.
End script.

(** What the script reads of the interval. *)
Lemma repeat_field o t f :
  field (field (lua_value (AMap (proto.delayedOpts_map o t))) "repeat") f =
  lua_value (default ANil (map_get (proto.repeat_fields o []) f)).
Proof. rewrite !field_lua. cbn [field]. unfold proto.delayedOpts_map. by rewrite map_get_set_eq. Qed.

Lemma no_offset o m : map_get m "offset" = None → map_get (proto.repeat_fields o m) "offset" = None.
Proof. unfold proto.repeat_fields. by rewrite !map_get_set_if, !andb_false_r. Qed.

(** ** Schedules *)

Section schedule.
Context `{Codec} `{!Packs} `{CronLib}.
Variable cjson : any → string.
Variable orc : oracle.
Variable q : Queue.
Variable w : Worker.
Hypothesis Hw : wkeys w = newQueueKeys q.
#[local] Set Default Proof Using "Type*".
Abbreviation b := (q_keys q).
Abbreviation sv := (clocked cjson orc).

(** What a call does to the store. *)
Definition served (st : store) (c : call) : store := (script cjson orc (c_name c) (c_keys c) (c_args c) st).1.2.

(** Only script calls change the store, and every look at the clock says [now]. *)
Lemma world_calls {A} now (m : M A) st : world (sv now) m st = foldl served st (calls (log (sv now) m st)).
Proof.
  unfold world, log. revert st. induction m as [a|r k IH]; intros st; [done|]. cbn [run].
  destruct (sv now st r) as [x st1] eqn:E. specialize (IH x st1). destruct (run _ (k x) st1) as [[a st2] l].
  cbn [fst snd] in *. rewrite IH. change (Ev r x :: l) with ([Ev r x] ++ l). rewrite calls_app, foldl_app. f_equal.
  destruct r; cbn in E |- *; try by injection E as <- <-.
  unfold served. cbn. destruct (script _ _ _ _ _ st) as [[v st'] es]. by injection E as <- <-.
Qed.

Lemma clock_now {A} now (m : M A) st : answer clock_answer (log (sv now) m st) ∈ [None; Some now].
Proof.
  unfold log. revert st. induction m as [a|r k IH]; intros st; [by left|]. cbn [run].
  destruct (sv now st r) as [x st1] eqn:E. specialize (IH x st1). destruct (run _ (k x) st1) as [[a st2] l].
  cbn [fst snd] in *. destruct r; try exact IH. injection E as <- <-. right. by left.
Qed.

Definition offsetOf (sid : string) (st : store) : Z :=
  match hgetall (keys.Schedule b sid) st !! "offset" with Some f => parseInt f | None => 0 end.

(** The store has schedule [sid], with [ic] iterations so far, the last of them in
    the slot [prev]. *)
Record scheduled (sid : string) (o : proto.ScheduleOpts) (raw : string) (ic prev : Z) (st : store) : Prop := mkScheduled {
  sc_fields : (λ f, match hgetall (keys.Schedule b sid) st !! f with Some v => AStr v | None => ANil end) <$> rescheduleFields
              = schedule_fields o raw ic;
  sc_slot : zget (keys.Repeat b) st !! sid = Some prev;
  sc_offset : 0 ≤ offsetOf sid st;
  sc_last : ∀ m, prev < m → in64 m → hashes st !! keys.Job b (iteration sid m) = None;
}.

(** The slot of the next iteration, if there is to be one. *)
Definition slotAfter (o : proto.ScheduleOpts) (ic prev now offset : Z) : option Z :=
  match next_fire o now with
  | Some (v, _) =>
      if goes_on o ic && in_time o v then
        Some (if 0 <? proto.EveryMs o then (everyNextMillis (Some prev) (proto.EveryMs o) (UnixMilli now) offset None).1
              else v)
      else None
  | None => None
  end.

(** What the worker sends. *)
Definition reschedule_args (sid cur : string) (now : Z) (a bs : string) : list any :=
  [AStr a; AStr sid; AStr "{}"; ABytes bs; AInt64 (UnixMilli now); AStr (prefix (wkeys w)); AStr cur].

Lemma reschedule_script fmt o t raw ic prev now sid cur st :
  wire_ok fmt (AMap (proto.toMap t)) → stored_template fmt t raw → timing_in64 o → in64 ic →
  scheduled sid o raw ic prev st → is_Some (slotAfter o ic prev now (offsetOf sid st)) →
  ∃ t' a v bs, next_fire o now = Some (v, a) ∧
    unpack bs = lua_value (AMap (proto.delayedOpts_map (reread_opts o) t')) ∧
    world (sv now) (rescheduleNext w sid cur) st =
      (updateJobScheduler cjson (rescheduleKeys w) (reschedule_args sid cur now a bs) st).1.2.
Proof.
  intros Hok Hst Ht Hic Hsc [next Hn].
  destruct (reschedule_calls w (sv now) st fmt o t raw ic sid cur Hok Hst Ht Hic) as (t' & _ & Hc & Hclk).
  { unfold hmget. rewrite Hw. cbn [clocked fst]. f_equal. apply (sc_fields _ _ _ _ _ _ Hsc). }
  set (m := proto.delayedOpts_map (reread_opts o) t') in *. destruct (packs (AMap m)) as [bs Hbs].
  unfold slotAfter in Hn. destruct (next_fire o now) as [[v a]|] eqn:Ef; [|done].
  destruct (goes_on o ic) eqn:Eg; [|done]. destruct (in_time o v) eqn:Ei; [|done].
  assert (Hnow : answer clock_answer (log (sv now) (rescheduleNext w sid cur) st) = Some now).
  { destruct (Hclk eq_refl bs Hbs) as [n E]. pose proof (clock_now now (rescheduleNext w sid cur) st) as Hin.
    rewrite E in *. set_solver. }
  rewrite Hnow in Hc. cbn [default] in Hc. unfold iteration_calls in Hc. cbn [from_option id] in Hc.
  rewrite Eg, Hbs, Ef, Ei in Hc. exists t', a, v, bs. split_and!; [done | by apply unpack_law|].
  rewrite world_calls, Hc. cbn. unfold served. cbn. unfold mbind, Lua_bind.
  by destruct (updateJobScheduler _ _ _ st) as [[v' st'] es].
Qed.

(** The script fires where it is to. *)
Lemma slotBehind_after o t raw ic prev next now sid st v a :
  timing_in64 o → in64 next → scheduled sid o raw ic prev st → next_fire o now = Some (v, a) →
  slotAfter o ic prev now (offsetOf sid st) = Some next →
  let h := hgetall (keys.Schedule b sid) st in
  slotBehind (h !! "every") (h !! "offset") (lua_value (AMap (proto.delayedOpts_map (reread_opts o) t))) prev
    (UnixMilli now) (default 0 (num (AStr a))) = next.
Proof.
  intros Ht Hn Hsc Ef. unfold slotAfter. rewrite Ef. destruct (goes_on o ic && in_time o v) eqn:Eg; [|done].
  intros E. cbv zeta. unfold slotBehind. rewrite !repeat_field, repeat_fields_reread.
  rewrite no_offset by done. pose proof (sc_fields _ _ _ _ _ _ Hsc) as Hf. unfold rescheduleFields, schedule_fields in Hf. cbn [fmap list_fmap] in Hf.
  injection Hf as _ _ Hev _ _ _ _ _. unfold offsetOf in E.
  unfold num_field in Hev. destruct (0 <? proto.EveryMs o) eqn:Epos.
  - destruct (_ !! "every") as [e|]; [|done]. injection Hev as ->. rewrite parseInt_format by apply Ht.
    destruct (_ !! "offset"); by injection E.
  - destruct (_ !! "every") as [e|]; [done|].
    assert (map_get (proto.repeat_fields o []) "every" = None) as ->.
    { unfold proto.repeat_fields. rewrite !map_get_set_if, !andb_false_r. by rewrite Epos. }
    injection E as ->. cbn. unfold next_fire in Ef. destruct (negb _) eqn:Ep.
    + destruct (parseCronSpec _ _); [done|]. injection Ef as <- <-. by apply parseInt_format.
    + unfold goes_on in Eg. by rewrite Epos, Ep, andb_false_r in Eg.
Qed.

(** The schedule's HASH and set once an iteration has been queued. *)
Lemma scheduled_next o raw ic prev next sid st st' :
  in64 ic → in64 next → prev < next → scheduled sid o raw ic prev st → zget (keys.Repeat b) st' !! sid = Some next →
  (let h := hgetall (keys.Schedule b sid) st in
   hgetall (keys.Schedule b sid) st' = <["ic" := FormatInt (parseInt (hget h "ic") + 1)]> h) →
  (∀ m, iteration sid m ≠ iteration sid next →
     hashes st' !! keys.Job b (iteration sid m) = hashes st !! keys.Job b (iteration sid m)) →
  scheduled sid o raw (ic + 1) next st'.
Proof.
  intros Hic Hn Hlt [Hf Hs Ho Hl] Hz Hh Hrest. cbv zeta in Hh. unfold offsetOf in *.
  assert (Eic : hget (hgetall (keys.Schedule b sid) st) "ic" = FormatInt ic).
  { injection Hf as _ E _ _ _ _ _ _. unfold hget. destruct (_ !! "ic"); [by injection E | done]. }
  rewrite Eic, parseInt_format in Hh by done. split; [| done | |].
  - rewrite Hh. unfold rescheduleFields in *. cbn [fmap list_fmap] in *. rewrite lookup_insert_ne, lookup_insert_eq, !lookup_insert_ne by done.
    unfold schedule_fields in *. by injection Hf as -> _ -> -> -> -> -> ->.
  - unfold offsetOf. by rewrite Hh, lookup_insert_ne.
  - intros m Hm Hm'. rewrite Hrest; [apply Hl; [lia | done]|]. intros E%iteration_inj; [lia | done..].
Qed.

(** C13. A schedule goes on. Once an iteration of a
    schedule has ended, and the schedule has neither reached its limit nor its end
    date, [rescheduleNext] queues the next iteration in the slot it is due in: the
    schedule counts one iteration more, the job exists and is held back until its
    slot, or waits when the slot has come, every job has one place and no job is
    lost. For an interval the slots always go up; for a pattern it is asked that
    the next slot lies behind the one that ended. *)
Theorem schedule_goes_on fmt o t raw ic prev next now sid st :
  wire_ok fmt (AMap (proto.toMap t)) → stored_template fmt t raw → timing_in64 o → in64 ic → in64 prev → in64 next →
  inv b [] st → scheduled sid o raw ic prev st →
  slotAfter o ic prev now (offsetOf sid st) = Some next → 0 < proto.EveryMs o ∨ prev < next →
  let st' := world (sv now) (rescheduleNext w sid (iteration sid prev)) st in
  inv b [] st' ∧ scheduled sid o raw (ic + 1) next st' ∧
  is_job b st' (iteration sid next) ∧ awaits q (UnixMilli now) next st' (iteration sid next) ∧
  ∀ j, is_job b st j → is_job b st' j.
Proof.
  intros Hok Hst Ht Hic Hp Hn Hi Hsc Hsl Hor. cbv zeta.
  assert (Hlt : prev < next).
  { destruct Hor as [He|]; [|done]. unfold slotAfter in Hsl. destruct (next_fire o now) as [[v a]|]; [|done].
    destruct (_ && _); [|done]. rewrite (proj2 (Z.ltb_lt 0 (proto.EveryMs o))) in Hsl by done. injection Hsl as <-.
    apply everyNext_ahead; [done | apply Hsc]. }
  destruct (reschedule_script fmt o t raw ic prev now sid (iteration sid prev) st) as (t' & a & v & bs & Ef & Hbs & ->); try done.
  set (args := reschedule_args _ _ _ _ _).
  assert (Hk : keyed (rescheduleKeys w) [(1%nat, keys.Repeat b); (2%nat, keys.Delayed b); (3%nat, keys.Wait b);
    (5%nat, keys.Meta b); (6%nat, keys.Prioritized b)]) by (unfold rescheduleKeys; rewrite Hw; by repeat constructor).
  pose proof (update_state cjson q (rescheduleKeys w) args sid prev st Hk eq_refl (sc_slot _ _ _ _ _ _ Hsc) eq_refl) as Hu.
  cbv zeta in Hu. change (str (argv args 4)) with bs in Hu. rewrite Hbs in Hu.
  change (default 0 (num (argv args 5))) with (UnixMilli now) in Hu. change (argv args 1) with (AStr a) in Hu.
  rewrite (slotBehind_after o t' raw ic prev next now sid st v a) in Hu by done.
  rewrite (sc_last _ _ _ _ _ _ Hsc next Hlt Hn) in Hu. set (st' := (updateJobScheduler _ _ _ st).1.2) in *.
  destruct Hu as (Hj & Ha & Hz & Hh & Hrest).
  assert (Hp1 : proper_call b UpdateJobScheduler (rescheduleKeys w) args)
    by (unfold proper_call, rescheduleKeys; rewrite Hw; by repeat constructor).
  assert (Hst' : (script cjson orc UpdateJobScheduler (rescheduleKeys w) args st).1.2 = st').
  { cbn [script]. rewrite bind_state. by destruct (updateJobScheduler _ _ _ st) as [[[] ?] ?]. }
  split_and!; [| by eapply scheduled_next | done | done |].
  - pose proof (script_inv orc b cjson UpdateJobScheduler _ _ Hp1 st (conj Hi I)) as Hs. by rewrite Hst' in Hs.
  - intros j Hjob. pose proof (script_keeps orc b cjson UpdateJobScheduler _ _ Hp1 eq_refl st j Hjob) as Hs. by rewrite Hst' in Hs.
Qed.

(** C39. An iteration that ends early ends its schedule. Say an
    iteration of a pattern ended while its slot still lies ahead (it was promoted,
    or the clock of the worker is behind), so that the first slot after the present
    moment is its own, and its HASH is kept. Then [rescheduleNext] queues nothing:
    the schedule stays stored with the same count and slot, no list, no sorted set
    and no job changes, and so, if no other iteration was queued, none is. *)
Theorem early_iteration_ends_schedule fmt o t raw ic prev now sid st :
  wire_ok fmt (AMap (proto.toMap t)) → stored_template fmt t raw → timing_in64 o → in64 ic → in64 prev →
  scheduled sid o raw ic prev st → slotAfter o ic prev now (offsetOf sid st) = Some prev →
  is_Some (hashes st !! keys.Job b (iteration sid prev)) →
  let st' := world (sv now) (rescheduleNext w sid (iteration sid prev)) st in
  scheduled sid o raw ic prev st' ∧ lists st' = lists st ∧ zsets st' = zsets st ∧
  ∀ j, hashes st' !! keys.Job b j = hashes st !! keys.Job b j ∨ keys.Job b j = keys.Meta b.
Proof.
  intros Hok Hst Ht Hic Hp Hsc Hsl [h Hh]. cbv zeta.
  destruct (reschedule_script fmt o t raw ic prev now sid (iteration sid prev) st) as (t' & a & v & bs & Ef & Hbs & ->); try done.
  set (args := reschedule_args _ _ _ _ _).
  assert (Hk : keyed (rescheduleKeys w) [(1%nat, keys.Repeat b); (2%nat, keys.Delayed b); (3%nat, keys.Wait b);
    (5%nat, keys.Meta b); (6%nat, keys.Prioritized b)]) by (unfold rescheduleKeys; rewrite Hw; by repeat constructor).
  pose proof (update_state cjson q (rescheduleKeys w) args sid prev st Hk eq_refl (sc_slot _ _ _ _ _ _ Hsc) eq_refl) as Hu.
  cbv zeta in Hu. change (str (argv args 4)) with bs in Hu. rewrite Hbs in Hu.
  change (default 0 (num (argv args 5))) with (UnixMilli now) in Hu. change (argv args 1) with (AStr a) in Hu.
  rewrite (slotBehind_after o t' raw ic prev prev now sid st v a) in Hu by done. rewrite Hh in Hu.
  set (st' := (updateJobScheduler _ _ _ st).1.2) in *. destruct Hu as ((El & Ez) & Hhs).
  assert (Hm : keys.Schedule b sid ≠ keys.Meta b) by by intros ?%sapp_inv_head.
  assert (Eh : hgetall (keys.Schedule b sid) st' = hgetall (keys.Schedule b sid) st) by (unfold hgetall; by rewrite Hhs).
  split_and!; [| done | done |].
  - destruct Hsc as [Hf Hs Ho Hl]. unfold offsetOf in *. split; rewrite ?Eh; [done | unfold zget; by rewrite Ez | unfold offsetOf; by rewrite Eh |].
    intros m ??. rewrite Hhs; [by apply Hl | by intros ?%sapp_inv_head].
  - intros j. destruct (decide (keys.Job b j = keys.Meta b)) as [->|Hne]; [by right | left; by apply Hhs].
Qed.
End schedule.

(** ** Setting a schedule up *)

Section setup.
Context `{Codec} `{!Packs} `{GoArch} `{CronLib} {T : Type} `{Payload T}.
Variable cjson : any → string.
Variable orc : oracle.
Variable q : Queue.
#[local] Set Default Proof Using "Type*".
Abbreviation b := (q_keys q).
Abbreviation sv := (clocked cjson orc).

Definition upsert_args (sid next data : string) (now : Z) (b1 b2 b3 : string) : list any :=
  [AStr next; ABytes b1; AStr sid; AStr data; ABytes b2; ABytes b3; AInt64 (UnixMilli now);
   AStr (keys.Base b); AStr ""].

(** What reaches the script. *)
Lemma upsertSchedule_script sid next o tm data now st : ∃ b1 b2 b3,
  unpack b1 = lua_value (AMap (proto.repeat_fields o [("name", AStr (proto.SName o))])) ∧
  unpack b2 = lua_value (AMap (proto.toMap tm)) ∧ unpack b3 = lua_value (AMap (proto.delayedOpts_map o tm)) ∧
  let r := (addJobScheduler cjson (scheduleKeys q) (upsert_args sid next data now b1 b2 b3) st).1 in
  let m := upsertSchedule q sid next o tm data in
  world (sv now) m st = r.2 ∧ ∀ l, r.1 = AArr l → result (sv now) m st = None.
Proof.
  destruct (packs (AMap (proto.repeat_fields o [("name", AStr (proto.SName o))]))) as [b1 E1].
  destruct (packs (AMap (proto.toMap tm))) as [b2 E2]. destruct (packs (AMap (proto.delayedOpts_map o tm))) as [b3 E3].
  exists b1, b2, b3. split_and!; [by apply unpack_law..|]. cbv zeta. unfold world, result, upsertSchedule.
  unfold proto.EncodeScheduleOpts, proto.EncodeScheduleTemplateOpts, proto.EncodeScheduleDelayedOpts. rewrite E1, E2, E3.
  cbn -[addJobScheduler]. fold (upsert_args sid next data now b1 b2 b3). unfold mbind, Lua_bind.
  destruct (addJobScheduler _ _ _ st) as [[v st'] es]. cbn. by split; [|intros l ->].
Qed.

(** An upsert that is in order comes to its one call. *)
Lemma upsert_accepted ti sid payload opts data first now st :
  let c := applyOptions opts zeroSchedule in
  sid ≠ "" → consistent ti c = true → MarshalJSON payload = inr data → first_fire ti c now = Some first →
  (IsZero (sc_endDate c) = false → first ≤ sc_endDate c) →
  let m := upsertSchedule q sid (wire_next ti first) (wire_opts q ti c) (sc_template c) data in
  world (sv now) (upsert q ti sid payload opts) st = world (sv now) m st ∧
  result (sv now) (upsert q ti sid payload opts) st = result (sv now) m st.
Proof.
  cbv zeta. intros Hs Hc Hd Hf He. set (c := applyOptions opts zeroSchedule) in *. set (m := upsertSchedule _ _ _ _ _ _).
  enough (E : (run (sv now) (upsert q ti sid payload opts) st).1 = (run (sv now) m st).1) by by (unfold world, result; rewrite E).
  destruct ti as [d|p]; cbn [upsert].
  - unfold UpsertScheduleEvery. fold c. destruct (String.eqb_spec sid ""); [done|].
    cbn [consistent] in Hc. apply andb_true_iff in Hc as [[Hc1 Hc2]%andb_true_iff Hc3].
    destruct (Z.leb_spec d 0); [zbool; lia|]. rewrite Hc2. apply negb_true_iff in Hc3. rewrite Hc3. cbn [negb orb].
    rewrite Hd. cbv zeta. destruct (IsZero (sc_endDate c)) eqn:Ee; cbn [negb]; [done|]. specialize (He eq_refl).
    cbn -[upsertSchedule]. set (dead := After _ _).
    assert (dead = false) as ->; [|by destruct (run _ _ st) as [[]]].
    unfold dead, After. cbn in Hf. injection Hf as <-. apply Z.ltb_ge. etrans; [|exact He].
    destruct (IsZero (sc_startDate c)); cbn; [done|]. destruct (Z.ltb_spec now (sc_startDate c)); lia.
  - unfold UpsertSchedulePattern. fold c. destruct (String.eqb_spec sid ""); [done|].
    cbn [consistent] in Hc. apply negb_true_iff in Hc. rewrite Hc. cbn [first_fire] in Hf.
    destruct (parseCronSpec p (sc_tz c)) as [|cc]; [done|]. rewrite Hd. injection Hf as Hf. cbn -[upsertSchedule].
    assert (∀ A (x y z : A), (if sc_immediately c then x else if negb (IsZero (sc_startDate c)) then y else z) =
      if sc_immediately c then x else if IsZero (sc_startDate c) then z else y) as Eif by (intros; by destruct (IsZero (sc_startDate c))).
    rewrite Eif, Hf. unfold m. cbn [wire_next wire_opts fst snd].
    assert (negb (IsZero (sc_endDate c)) && After first (sc_endDate c) = false) as ->;
      [|by destruct (run _ (upsertSchedule _ _ _ _ _ _) st) as [[]]].
    destruct (IsZero (sc_endDate c)); [done|]. by apply Z.ltb_ge, He.
Qed.

(** What the options say to the script. *)
Definition exact53 (o : proto.ScheduleOpts) : Prop :=
  Forall (λ z, z ≤ 2 ^ 53) [proto.EveryMs o; proto.StartDate o; proto.EndDate o; proto.Limit o].

Abbreviation sent o := (lua_value (AMap (proto.repeat_fields o [("name", AStr (proto.SName o))]))).

Lemma sent_fields o :
  exact53 o →
  let f z := if 0 <? z then AInt64 z else ANil in
  field (sent o) "every" = f (proto.EveryMs o) ∧ field (sent o) "startDate" = f (proto.StartDate o) ∧
  field (sent o) "endDate" = f (proto.EndDate o) ∧ field (sent o) "limit" = f (proto.Limit o) ∧
  field (sent o) "pattern" = str_field (proto.Pattern o) ∧ field (sent o) "tz" = str_field (proto.TZ o) ∧
  field (sent o) "offset" = ANil.
Proof.
  intros Hx. unfold exact53 in Hx. rewrite !Forall_cons in Hx. destruct Hx as (H5 & H6 & H7 & H8 & _). cbv zeta.
  assert (Hi : ∀ z, z ≤ 2 ^ 53 → lua_value (if 0 <? z then AInt64 z else ANil) = if 0 <? z then AInt64 z else ANil).
  { intros z Hz. destruct (Z.ltb_spec 0 z); cbn; [|done]. unfold lua_int. by rewrite (proj2 (Z.leb_le _ _)) by lia. }
  rewrite !field_lua. cbn [field]. unfold proto.repeat_fields. rewrite !map_get_set_if. cbn [String.eqb Ascii.eqb Bool.eqb map_get].
  rewrite ?andb_false_r, ?andb_true_r. unfold str_field.
  split_and!; try (etrans; [|by apply Hi]); [by destruct (0 <? _) ..| | |done].
  - by destruct (String.eqb (proto.Pattern o) "").
  - by destruct (String.eqb (proto.TZ o) "").
Qed.

(** An interval the wire can carry. *)
Definition carried (ti : timing) : Prop := match ti with Every d => Millisecond ≤ d | Cron _ => True end.

(** The first iteration is put in its slot. *)
Lemma first_slot ti c now first :
  let o := wire_opts q ti c in
  carried ti → exact53 o → 0 ≤ now → in64 (UnixMilli first) → first_fire ti c now = Some first →
  ∃ off, 0 ≤ off ∧ in64 off ∧
    nextSlot (num (field (sent o) "every")) None (UnixMilli now) 0 (num (field (sent o) "startDate"))
      (default 0 (num (AStr (wire_next ti first)))) = (UnixMilli first, off).
Proof.
  cbv zeta. intros Hd Hx Hn H64 Hf. pose proof Hx as Hx0. destruct (sent_fields _ Hx) as (-> & -> & _).
  unfold exact53 in Hx0. rewrite !Forall_cons in Hx0. destruct Hx0 as (He & Hs & _). destruct ti as [d|p]; cbn in *.
  - assert (0 < Milliseconds d) as Hpos.
    { unfold Milliseconds. apply Z.quot_str_pos. consts. lia. }
    rewrite (proj2 (Z.ltb_lt _ _) Hpos). cbn [nextSlot num]. unfold everyNextMillis. rewrite Z.ltb_irrefl.
    set (e := Milliseconds d) in *. set (s := if 0 <? dateMs _ then _ else _).
    assert (match num s with Some x => Z.max x (UnixMilli now) | None => UnixMilli now end = UnixMilli first) as ->.
    { injection Hf as <-. unfold s, dateMs. destruct (IsZero (sc_startDate c)); [done|].
      assert (Hmono : ∀ x y, x ≤ y → UnixMilli x ≤ UnixMilli y) by (intros; apply Z.div_le_mono; [consts; lia | done]).
      pose proof (Hmono 0 now Hn) as Hn'. change (UnixMilli 0) with 0 in Hn'.
      destruct (Z.ltb_spec 0 (UnixMilli (sc_startDate c))) as [H5|H5]; cbn.
      - destruct (Z.le_ge_cases now (sc_startDate c)) as [Hle|Hle]; specialize (Hmono _ _ Hle);
          rewrite ?(Z.max_r now), ?(Z.max_l now) by done; lia.
      - destruct (Z.le_ge_cases now (sc_startDate c)) as [Hle|Hle]; [|by rewrite Z.max_l].
        specialize (Hmono _ _ Hle). rewrite Z.max_r by done. lia. }
    eexists. split_and!; [| |done]; cbn [Z.eqb].
    + pose proof (Z.mod_pos_bound (UnixMilli first) e Hpos). pose proof (Z.div_mod (UnixMilli first) e ltac:(lia)). lia.
    + pose proof (Z.mod_pos_bound (UnixMilli first) e Hpos). pose proof (Z.div_mod (UnixMilli first) e ltac:(lia)). consts; lia.
  - exists 0. split_and!; [done | by vm_compute |]. by rewrite parseInt_format.
Qed.

(** The template as the script stores it. *)
Definition templateText (v : any) : string := if String.eqb (cjson v) "{}" then "" else cjson v.

Lemma template_stored fmt tm :
  parse_first (cjson (lua_value (AMap (proto.toMap tm)))) = Some (json_of fmt (AMap (proto.toMap tm))) →
  let v := lua_value (AMap (proto.toMap tm)) in
  stored_template fmt tm (templateText v) ∧
  match (if String.eqb (cjson v) "{}" then None else Some (cjson v)) with Some x => AStr x | None => ANil end =
    str_field (templateText v).
Proof.
  intros Hp. cbv zeta. unfold templateText, stored_template. set (v := lua_value _) in *.
  assert (E1 : parse_first "{}" = Some (JObj [])) by by vm_compute. assert (E2 : parse_first "" = None) by by vm_compute.
  destruct (String.eqb_spec (cjson v) "{}") as [E|E].
  - split; [|done]. left. split; [done|]. rewrite E, E1 in Hp. injection Hp as Hp. by destruct (proto.toMap tm) as [|[]].
  - split; [by right|]. unfold str_field. destruct (String.eqb_spec (cjson v) "") as [E'|]; [|done].
    by rewrite E', E2 in Hp.
Qed.

(** A field as HMGET answers it. *)
Abbreviation answered x := (match x with Some v => AStr v | None => ANil end).

Lemma answered_num o f z : field (sent o) f = (if 0 <? z then AInt64 z else ANil) → answered (given (sent o) f) = num_field z.
Proof. intros E. unfold given, num_field. rewrite E. by destruct (0 <? z). Qed.

Lemma answered_str o f s : field (sent o) f = str_field s → answered (given (sent o) f) = str_field s.
Proof. intros E. unfold given. rewrite E. unfold str_field. by destruct (String.eqb s ""). Qed.

(** The HASH of a new schedule reads as its options. *)
Lemma stored_fields o raw (h : gmap string string) off :
  exact53 o →
  (∀ f, f ∈ ["tz"; "limit"; "pattern"; "startDate"; "endDate"; "every"; "offset"] →
     h !! f = if String.eqb f "offset" then Some off else given (sent o) f) →
  h !! "ic" = Some "1" → answered (h !! "opts") = str_field raw →
  (λ f, answered (h !! f)) <$> rescheduleFields = schedule_fields o raw 1.
Proof.
  intros Hx Hf Hic Ho. destruct (sent_fields o Hx) as (Fe & Fs & Fn & Fl & Fp & Ft & _).
  unfold rescheduleFields. cbn [fmap list_fmap]. rewrite Hic, Ho, !Hf by (apply (bool_decide_unpack _); done).
  cbn [String.eqb Ascii.eqb Bool.eqb]. unfold schedule_fields. repeat f_equal; by apply answered_num || by apply answered_str.
Qed.

(** Nothing of the schedule is there. *)
Record unscheduled (sid : string) (st : store) : Prop := mkUnscheduled {
  un_slot : zget (keys.Repeat b) st !! sid = None;
  un_fields : hashes st !! keys.Schedule b sid = None;
  un_jobs : ∀ m, hashes st !! keys.Job b (iteration sid m) = None;
}.

(** An upsert is followed through to the store, for whatever slot the script chooses. *)
Lemma upsert_starts fmt ti sid payload opts data first slot off now st :
  let c := applyOptions opts zeroSchedule in let o := wire_opts q ti c in let tmpl := proto.toMap (sc_template c) in
  sid ≠ "" → has_colon sid = false → consistent ti c = true → exact53 o → MarshalJSON payload = inr data →
  first_fire ti c now = Some first → (IsZero (sc_endDate c) = false → first ≤ sc_endDate c) →
  nextSlot (num (field (sent o) "every")) None (UnixMilli now) 0 (num (field (sent o) "startDate"))
    (default 0 (num (AStr (wire_next ti first)))) = (slot, off) → 0 ≤ off → in64 off → in64 slot →
  parse_first (cjson (lua_value (AMap tmpl))) = Some (json_of fmt (AMap tmpl)) →
  inv b [] st → unscheduled sid st →
  let m := upsert q ti sid payload opts in let st' := world (sv now) m st in
  result (sv now) m st = None ∧ inv b [] st' ∧ is_job b st' (iteration sid slot) ∧
  awaits q (UnixMilli now) slot st' (iteration sid slot) ∧
  ∃ raw, stored_template fmt (sc_template c) raw ∧ scheduled q sid o raw 1 slot st'.
Proof.
  cbv zeta. set (c := applyOptions opts zeroSchedule). set (o := wire_opts q ti c).
  intros Hs Hcol Hc Hx Hda Hf He Esl Ho Ho' H64 Hj Hi [U1 U2 U3].
  destruct (upsert_accepted ti sid payload opts data first now st) as [-> ->]; try done. fold c o.
  destruct (upsertSchedule_script sid (wire_next ti first) o (sc_template c) data now st)
    as (b1 & b2 & b3 & E1 & E2 & E3 & -> & Hres).
  set (args := upsert_args _ _ _ _ _ _ _) in *.
  assert (Hk : keyed (scheduleKeys q) [(1%nat, keys.Repeat b); (2%nat, keys.Delayed b); (3%nat, keys.Wait b);
    (5%nat, keys.Meta b); (6%nat, keys.Prioritized b)]) by by repeat constructor.
  pose proof (add_state cjson q (scheduleKeys q) args sid _ st Hk eq_refl eq_refl E1) as Ha. cbv zeta in Ha.
  change (argv args 1) with (AStr (wire_next ti first)) in Ha. change (default 0 (num (argv args 7))) with (UnixMilli now) in Ha.
  rewrite Esl in Ha. cbn [fst snd] in Ha. change (str (argv args 5)) with b2 in Ha.
  change (str (argv args 6)) with b3 in Ha. rewrite E2 in Ha.
  destruct Ha as (R1 & R2 & R3 & R4 & R5 & R6 & R7 & R8); [by eexists | | by rewrite E3, repeat_field, no_offset | done | done | done |].
  { by apply sent_fields. }
  set (st' := (addJobScheduler _ _ _ st).1.2) in *.
  split_and!; [by eapply Hres | | done | done |].
  - apply (hoare_addJobScheduler b cjson); [by repeat constructor | done | done |]. split; [done|].
    intros _ m Hm. change (zget (keys.Repeat b) st !! sid = Some m) in Hm. by rewrite U1 in Hm.
  - destruct (template_stored fmt (sc_template c) Hj) as [Ht1 Ht2]. eexists. split; [exact Ht1|]. split; [| done | |].
    + apply (stored_fields o _ (hgetall (keys.Schedule b sid) st') (FormatInt off)); try done. by rewrite R7.
    + unfold offsetOf. rewrite R5 by (apply (bool_decide_unpack _); done). cbn. by rewrite parseInt_format.
    + intros m Hm Hm'. rewrite R8; [apply U3 | apply iteration_not_schedule | | by intros ?%sapp_inv_head].
      intros E%Job_inj%iteration_inj; [lia | done..].
Qed.

(** C12. A schedule starts. An upsert of a schedule that is
    not there yet, with consistent options, an interval the wire can carry and a
    first iteration before its end date, succeeds: the schedule is stored with
    the options and the template the worker will read back, and its first
    iteration is a job that is held back until the instant the options ask for,
    or waits when that has come. [cjson] is only asked to write the template as
    JSON. *)
Theorem schedule_starts fmt ti sid payload opts data first now st :
  let c := applyOptions opts zeroSchedule in let o := wire_opts q ti c in
  let tmpl := proto.toMap (sc_template c) in let slot := UnixMilli first in
  sid ≠ "" → has_colon sid = false → consistent ti c = true → carried ti → exact53 o → MarshalJSON payload = inr data →
  first_fire ti c now = Some first → (IsZero (sc_endDate c) = false → first ≤ sc_endDate c) → 0 ≤ now → in64 slot →
  parse_first (cjson (lua_value (AMap tmpl))) = Some (json_of fmt (AMap tmpl)) →
  inv b [] st → unscheduled sid st →
  let m := upsert q ti sid payload opts in let st' := world (sv now) m st in
  result (sv now) m st = None ∧ inv b [] st' ∧ is_job b st' (iteration sid slot) ∧
  awaits q (UnixMilli now) slot st' (iteration sid slot) ∧
  ∃ raw, stored_template fmt (sc_template c) raw ∧ scheduled q sid o raw 1 slot st'.
Proof.
  cbv zeta. intros Hs Hcol Hc Hd Hx Hda Hf He Hn H64 Hj Hi Hu.
  destruct (first_slot ti (applyOptions opts zeroSchedule) now first Hd Hx Hn H64 Hf) as (off & Ho & Ho' & Esl).
  by apply (upsert_starts fmt ti sid payload opts data first (UnixMilli first) off).
Qed.

(** C40. An interval below a millisecond is accepted but never repeats: the check is
    made on nanoseconds, the wire carries milliseconds, and a zero interval is left
    out of it. The upsert reports success and its first iteration waits, in the
    slot of the millisecond 0; but whenever an iteration of the schedule ends, on
    any worker of the queue, at any time and whatever else has happened to the
    store, as long as nobody wrote the schedule's own HASH, [rescheduleNext] makes
    no call and the store stays as it is. *)
Theorem sub_millisecond_every_fires_once fmt d sid payload opts data first now st :
  let ti := Every d in
  let c := applyOptions opts zeroSchedule in let o := wire_opts q ti c in let tmpl := proto.toMap (sc_template c) in
  d < Millisecond → sid ≠ "" → has_colon sid = false → consistent ti c = true → exact53 o → timing_in64 o →
  MarshalJSON payload = inr data → first_fire ti c now = Some first → (IsZero (sc_endDate c) = false → first ≤ sc_endDate c) →
  wire_ok fmt (AMap tmpl) → parse_first (cjson (lua_value (AMap tmpl))) = Some (json_of fmt (AMap tmpl)) →
  inv b [] st → unscheduled sid st →
  let m := upsert q ti sid payload opts in let st' := world (sv now) m st in
  result (sv now) m st = None ∧ is_job b st' (iteration sid 0) ∧ awaits q (UnixMilli now) 0 st' (iteration sid 0) ∧
  ∀ w cur later stl, wkeys w = newQueueKeys q → hgetall (keys.Schedule b sid) stl = hgetall (keys.Schedule b sid) st' →
    calls (log (sv later) (rescheduleNext w sid cur) stl) = [] ∧ world (sv later) (rescheduleNext w sid cur) stl = stl.
Proof.
  cbv zeta. intros Hd Hs Hcol Hc Hx Ht Hda Hf He Hok Hj Hi Hu. set (c := applyOptions opts zeroSchedule) in *.
  set (o := wire_opts q (Every d) c) in *.
  assert (Hms : proto.EveryMs o = 0).
  { cbn. unfold Milliseconds. apply Z.quot_small. cbn in Hc. zbool. lia. }
  destruct (upsert_starts fmt (Every d) sid payload opts data first 0 0 now st) as (Hr & _ & Hjob & Haw & raw & Htm & Hsc); try done.
  { fold c. fold o. destruct (sent_fields o Hx) as (-> & _). by rewrite Hms. }
  split_and!; [done | done | done |]. intros w cur later stl Hw Heq.
  assert (Hcalls : calls (log (sv later) (rescheduleNext w sid cur) stl) = []).
  { destruct (reschedule_calls w (sv later) stl fmt o (sc_template c) raw 1 sid cur) as (t' & _ & -> & _); try done.
    - unfold hmget. rewrite Hw. cbn [clocked fst]. f_equal.
      pose proof (sc_fields _ _ _ _ _ _ _ Hsc) as Hfs. rewrite <-Heq in Hfs. exact Hfs.
    - unfold iteration_calls, goes_on. rewrite Hms. by rewrite andb_false_r. }
  split; [done|]. by rewrite world_calls, Hcalls.
Qed.
End setup.

Section sample.
#[local] Existing Instance treeMsgpack.
#[local] Existing Instance treeCodec.
#[local] Existing Instance amd64.
#[local] Existing Instance hourly.
#[local] Existing Instance rawPayload.
Abbreviation sb := (q_keys sampleQueue).
Definition noon : Z := 1700000000000 * Millisecond.

Abbreviation at_noon := (clocked sampleJson plainOracle noon).

(** One job, in wait. *)
Definition oneWaiting : store :=
  lset (keys.Wait sb) ["1"] (hset (keys.Job sb "1") {["timestamp" := "1700000000000"]}
    (with_nums (insert (keys.ID sb) 1) emptyStore)).

Lemma oneWaiting_inv : inv sb [] oneWaiting.
Proof.
  assert (Hn : ∀ id, is_job sb oneWaiting id ↔ id = "1").
  { intros id. unfold is_job, oneWaiting. change (hgetall ?k (lset _ _ ?s)) with (hgetall k s).
    rewrite hgetall_hset. case_bool_decide as E.
    - apply Job_inj in E as <-. split; [done|]. intros _. by eexists.
    - split; [by intros []|]. by intros ->. }
  split; [apply (bool_decide_unpack _); by vm_compute | | | | by vm_compute |].
  - intros id. rewrite Hn. assert ([] ++ ids sb oneWaiting = ["1"]) as -> by by vm_compute. set_solver.
  - intros n Hr ->%Hn%(FormatInt_inj n 1); [by vm_compute | done | by vm_compute].
  - by intros id ->%Hn.
  - intros id ->%Hn. by split.
Qed.

Lemma drain_exact_witness :
  let st := world at_noon (DrainPending sampleQueue []) oneWaiting in
  result at_noon (DrainPending sampleQueue []) oneWaiting = None ∧ drained sb false oneWaiting st ∧ inv sb [] st.
Proof.
  apply (drain_exact sampleJson plainOracle sampleQueue noon oneWaiting []); [exact oneWaiting_inv|].
  intros j Hj. assert (currentIterations (keys.Repeat sb) oneWaiting = []) as E by by vm_compute. rewrite E in Hj. by apply not_elem_of_nil in Hj.
Defined.

(** An interval schedule whose last iteration has been run and removed. *)
Definition ticking : store :=
  zset (keys.Repeat sb) {["tick" := 1700000000000]}
    (hset (keys.Schedule sb "tick")
       (list_to_map [("name", "email"); ("every", "60000"); ("offset", "20000"); ("ic", "1")]) emptyStore).

Lemma ticking_none id : hgetall (keys.Job sb id) ticking !! "timestamp" = None.
Proof.
  unfold ticking. change (hgetall ?k (zset _ _ ?s)) with (hgetall k s). rewrite hgetall_hset. by case_bool_decide.
Qed.

Lemma ticking_inv : inv sb [] ticking.
Proof.
  assert (Hn : ∀ id, ¬ is_job sb ticking id) by (intros id; unfold is_job; rewrite ticking_none; by intros []).
  split; [apply (bool_decide_unpack _); by vm_compute | | by intros n _ ?%Hn | by intros id ?%Hn | by vm_compute | by intros id ?%Hn].
  intros id. assert ([] ++ ids sb ticking = []) as -> by by vm_compute. split; [by intros ?%not_elem_of_nil | by intros ?%Hn].
Qed.

Definition minutely : proto.ScheduleOpts := wire_opts sampleQueue (Every (60 * Second)) zeroSchedule.

Lemma schedule_goes_on_witness :
  let st := world at_noon (rescheduleNext sampleWorker "tick" (iteration "tick" 1700000000000)) ticking in
  let next := iteration "tick" 1700000060000 in
  is_job sb st next ∧ awaits sampleQueue 1700000000000 1700000060000 st next.
Proof.
  destruct (schedule_goes_on (H1 := treePacks) sampleJson plainOracle sampleQueue sampleWorker eq_refl (λ _, "0") minutely
    proto.noTemplate "" 1 1700000000000 1700000060000 noon "tick" ticking) as (_ & _ & Hj & Ha & _).
  - cbn. repeat constructor.
  - by left.
  - by vm_compute.
  - by vm_compute.
  - by vm_compute.
  - by vm_compute.
  - exact ticking_inv.
  - split; [by vm_compute | by vm_compute | by vm_compute |]. intros m Hm Hm'. unfold ticking. cbn [hashes zset].
    rewrite hset_other by (apply (iteration_not_schedule sampleQueue)). by vm_compute.
  - by vm_compute.
  - left. by vm_compute.
  - by split.
Defined.

Lemma schedule_starts_witness :
  let m := UpsertScheduleEvery sampleQueue "tick" (60 * Second) "[2]" [] in
  let st := world at_noon m emptyStore in
  result at_noon m emptyStore = None ∧ scheduled sampleQueue "tick" minutely "" 1 1700000000000 st.
Proof.
  destruct (schedule_starts (H1 := treePacks) sampleJson plainOracle sampleQueue (λ _, "0") (Every (60 * Second)) "tick" "[2]" []
    "[2]" noon noon emptyStore) as (Hr & _ & _ & _ & raw & Ht & Hs);
    [by vm_compute | by vm_compute | by vm_compute | by vm_compute | by repeat constructor | by vm_compute | by vm_compute
    | by vm_compute | by vm_compute | by vm_compute | by vm_compute | apply empty_inv | |].
  - split; [done | done |]. by intros m.
  - split; [exact Hr|]. destruct Hs. by split.
Defined.

(** A schedule is set up behind a waiting job, and then the queue is drained. *)
Definition behindJob : store := world at_noon (UpsertScheduleEvery sampleQueue "tick" (60 * Second) "[2]" []) oneWaiting.

Lemma behindJob_inv : inv sb [] behindJob.
Proof.
  destruct (schedule_starts (H1 := treePacks) sampleJson plainOracle sampleQueue (λ _, "0") (Every (60 * Second)) "tick" "[2]" []
    "[2]" noon noon oneWaiting) as (_ & Hi & _);
    [by vm_compute | by vm_compute | by vm_compute | by vm_compute | by repeat constructor | by vm_compute
    | by vm_compute | by vm_compute | by vm_compute | by vm_compute | by vm_compute | exact oneWaiting_inv | | exact Hi].
  split; [by vm_compute | by vm_compute |]. intros m. unfold oneWaiting. cbn [hashes lset]. by rewrite hset_other by by intros ?%Job_inj.
Qed.

Lemma drain_strands_schedule_witness :
  let st' := world at_noon (DrainPending sampleQueue []) behindJob in let it := iteration "tick" 1700000000000 in
  result at_noon (DrainPending sampleQueue []) behindJob = None ∧ is_job sb st' it ∧ (it ∉ ids sb st') ∧
  zget (keys.Repeat sb) st' = zget (keys.Repeat sb) behindJob.
Proof.
  apply (drain_strands_schedule sampleJson plainOracle sampleQueue noon behindJob [] (iteration "tick" 1700000000000) ["1"]).
  - exact behindJob_inv.
  - apply (bool_decide_unpack _). by vm_compute.
  - by vm_compute.
  - apply (bool_decide_unpack _). by vm_compute.
Defined.

(** An hourly schedule, the next iteration of which has been run ahead of its time. *)
Definition hourlyOpts : proto.ScheduleOpts := wire_opts sampleQueue (Cron "0 * * * *") zeroSchedule.

Definition early : store :=
  zset (keys.Repeat sb) {["tick" := 1700002800000]}
    (hset (keys.Job sb (iteration "tick" 1700002800000)) {["timestamp" := "1700000000000"]}
      (hset (keys.Schedule sb "tick") (list_to_map [("name", "email"); ("pattern", "0 * * * *"); ("ic", "1")]) emptyStore)).

Lemma early_iteration_ends_schedule_witness :
  let st := world at_noon (rescheduleNext sampleWorker "tick" (iteration "tick" 1700002800000)) early in
  scheduled sampleQueue "tick" hourlyOpts "" 1 1700002800000 st ∧ lists st = lists early ∧ zsets st = zsets early ∧
  ∀ j, hashes st !! keys.Job sb j = hashes early !! keys.Job sb j ∨ keys.Job sb j = keys.Meta sb.
Proof.
  apply (early_iteration_ends_schedule (H1 := treePacks) sampleJson plainOracle sampleQueue sampleWorker eq_refl (λ _, "0") hourlyOpts
    proto.noTemplate "" 1 1700002800000 noon "tick" early).
  - cbn. repeat constructor.
  - by left.
  - by vm_compute.
  - by vm_compute.
  - by vm_compute.
  - split; [by vm_compute | by vm_compute | by vm_compute |]. intros m Hm Hm'. unfold early. cbn [hashes zset].
    rewrite !hset_other; [done | apply (iteration_not_schedule sampleQueue) |].
    intros E%Job_inj%iteration_inj; [lia | done | by vm_compute].
  - by vm_compute.
  - eexists. by vm_compute.
Defined.

(** Every microsecond, says the caller. *)
Lemma sub_millisecond_every_fires_once_witness :
  let m := UpsertScheduleEvery sampleQueue "tick" 1000 "[2]" [] in
  let st := world at_noon m emptyStore in
  result at_noon m emptyStore = None ∧ is_job sb st (iteration "tick" 0) ∧
  world at_noon (rescheduleNext sampleWorker "tick" (iteration "tick" 0)) st = st.
Proof.
  destruct (sub_millisecond_every_fires_once (H1 := treePacks) sampleJson plainOracle sampleQueue (λ _, "0") 1000 "tick" "[2]" []
    "[2]" noon noon emptyStore) as (Hr & Hj & _ & Hn);
    [by vm_compute | by vm_compute | by vm_compute | by vm_compute | by repeat constructor | by vm_compute | by vm_compute
    | by vm_compute | by vm_compute | cbn; by repeat constructor | by vm_compute | apply empty_inv | |].
  - split; [done | done |]. by intros m.
  - split; [exact Hr|]. split; [exact Hj|]. by apply (Hn sampleWorker).
Defined.

End sample.
