(* ===== verification/Rate.v ===== *)
(** * The rate limit

    A worker made with [WithRateLimit] sends its limit with every call that may
    hand it a job, and the scripts count the jobs they hand out in a key that
    expires with the window. [rate_limit_holds]: whatever any number of such
    workers and everyone else on the queue do, no more jobs than the limit are
    handed out between two expiries of that key. *)

From S2P Require Import Prelude GoLib Keys Backoff Effects Json Jobs Proto Wire Cron Config Finalise Worker Dispatch Shutdown Queue Schedule Inspect Redis RedisInv Frame Fencing Persist Concurrent System Delivery Order Upkeep Walk.
Import lua.

(** ** Scripts that count no job *)

Section mild.
Variable b : keys.Builder.
Abbreviation L := (keys.Limiter b).

(** The jobs counted in the present window, and a queue without a limit of its own. *)
Definition counted (st : store) : Z := default 0 (nums st !! L).
Definition unset (st : store) : Prop := hgetall (keys.Meta b) st !! "max" = None.

(** [st'] has counted what [st] has, and no limit set. *)
Definition gentle (st st' : store) : Prop := nums st' !! L = nums st !! L ∧ (unset st → unset st').

#[export] Instance gentle_footprint : Footprint gentle.
Proof.
  split; try done. split; [by intros st|]. intros st1 st2 st3 [E1 H1] [E2 H2]. split; [congruence | auto].
Qed.

Abbreviation mild := (frames gentle).

(** What writes neither a HASH nor a counter. *)
Lemma mild_same {A} (m : Lua A) : (∀ st, nums (m st).1.2 = nums st ∧ hashes (m st).1.2 = hashes st) → mild m.
Proof. intros Hm st. destruct (Hm st) as [E1 E2]. unfold gentle, unset, hgetall. by rewrite E1, E2. Qed.
Lemma mild_ZREM k x : mild (ZREM k x).
Proof. apply mild_same. intros st. unfold ZREM. by case_bool_decide. Qed.
Lemma mild_ZPOPMIN k : mild (ZPOPMIN k).
Proof. apply mild_same. intros st. unfold ZPOPMIN. by destruct (zsorted _) as [|[]]. Qed.
Lemma mild_ZADD k s x : mild (ZADD k s x).
Proof. by apply mild_same. Qed.

(** Counters other than the limit's. *)
Lemma mild_INCR k : k ≠ L → mild (INCR k).
Proof. intros Hk st. split; [cbn; by rewrite lookup_insert_ne | done]. Qed.
Lemma mild_INCR64 k : k ≠ L → mild (INCR64 k).
Proof.
  intros Hk st. unfold INCR64. destruct (_ <=? _); [|done]. split; [cbn; by rewrite lookup_insert_ne | done].
Qed.

Lemma mild_nums_delete k : k ≠ L → mild (modify (with_nums (delete k))).
Proof. intros Hk st. split; [cbn; by rewrite lookup_delete_ne | done]. Qed.

(** HASH writes that set no limit. *)
Lemma mild_hset (f : gmap string string → gmap string string) k :
  (∀ h, h !! "max" = None → f h !! "max" = None) → mild (modify (λ st, hset k (f (hgetall k st)) st)).
Proof.
  intros Hf st. split; [done|]. unfold unset. cbn [modify fst snd]. rewrite hgetall_hset.
  case_bool_decide as E; [|done]. rewrite E. apply Hf.
Qed.

Lemma hmset_max kvs (h : gmap string string) :
  Forall (λ kv, kv.1 ≠ "max") kvs → h !! "max" = None → foldl (λ h kv, <[kv.1 := kv.2]> h) h kvs !! "max" = None.
Proof.
  intros Hk. revert h. induction Hk as [|[f v] kvs Hf _ IH]; intros h Hh; [done|]. cbn in *. apply IH.
  by rewrite lookup_insert_ne.
Qed.

Lemma mild_HMSET k kvs : Forall (λ kv, kv.1 ≠ "max") kvs → mild (HMSET k kvs).
Proof. intros Hk. apply (mild_hset (λ h, foldl _ h kvs)). intros h. by apply hmset_max. Qed.

Lemma mild_HINCRBY k f : f ≠ "max" → mild (HINCRBY k f).
Proof.
  intros Hf st. split; [done|]. unfold unset, HINCRBY. cbn [fst snd]. rewrite hgetall_hset.
  case_bool_decide as E; [|done]. rewrite lookup_insert_ne by done. by rewrite E.
Qed.

Lemma mild_HDEL k fs : mild (HDEL k fs).
Proof.
  apply (mild_hset (λ h, foldl (λ h f, delete f h) h fs)). induction fs as [|f fs IH]; intros h Hh; [done|].
  cbn. apply IH. rewrite lookup_delete. by case_decide.
Qed.

Lemma mild_hdel k : mild (modify (hdel k)).
Proof. intros st. split; [done|]. unfold unset. cbn [modify fst snd]. rewrite hgetall_hdel. by case_bool_decide. Qed.
End mild.

Abbreviation mild b := (frames (gentle b)).
#[export] Hint Resolve gentle_footprint mild_ZREM mild_ZPOPMIN mild_ZADD mild_HDEL mild_hdel : frames.

Ltac mild_leaf :=
  first
  [ apply mild_INCR; assumption
  | apply mild_INCR64; assumption
  | apply mild_nums_delete; assumption
  | apply mild_HINCRBY; done
  | apply mild_HMSET; solve [repeat constructor; done] ].
Ltac mild_solve := frame_solve mild_leaf.

Section scripts.
Context `{Codec}.
Variable cjson : any → string.
Variable o : oracle.
Variable b : keys.Builder.
Abbreviation L := (keys.Limiter b).

Lemma id_not_limiter : keys.ID b ≠ L.
Proof. by intros ?%sapp_inv_head. Qed.
Lemma pc_not_limiter : keys.PriorityCounter b ≠ L.
Proof. by intros ?%sapp_inv_head. Qed.

Lemma mild_promote_each jobs w p pre pc : pc ≠ L → mild b (promote_each jobs w p pre pc).
Proof. intros Hp. induction jobs as [|j jobs IH]; cbn [promote_each]; mild_solve. Qed.
Lemma mild_ZREM_all k xs : mild b (ZREM_all k xs).
Proof. induction xs as [|x xs IH]; cbn [ZREM_all]; mild_solve. Qed.
Lemma mild_recover jobs w a pre r m : mild b (recover jobs w a pre r m).
Proof. induction jobs as [|j jobs IH]; cbn [recover]; mild_solve. Qed.
Lemma mild_expel k pre jobs : mild b (expel k pre jobs).
Proof. induction jobs as [|j jobs IH]; cbn [expel]; mild_solve. Qed.
Lemma mild_dropJob pre j : mild b (dropJob pre j).
Proof. unfold dropJob. mild_solve. Qed.
Lemma mild_dropJobs pre jobs : mild b (dropJobs pre jobs).
Proof. induction jobs as [|j jobs IH]; cbn [dropJobs]; unfold dropJob; mild_solve. Qed.
Lemma mild_freeSlot n pre sid e next : mild b (freeSlot n pre sid e next).
Proof. revert next. induction n as [|n IH]; intros next; cbn [freeSlot]; mild_solve. Qed.
Hint Resolve mild_promote_each mild_ZREM_all mild_recover mild_expel mild_dropJob mild_dropJobs mild_freeSlot : frames.

Lemma mild_updateFields k packed : fields_ok packed → mild b (updateJobFields k packed).
Proof.
  intros Hp. unfold updateJobFields. destruct (String.eqb_spec packed ""); [mild_solve|]. destruct Hp as [?|Hp]; [done|].
  destruct (unpack packed); mild_solve. apply mild_HMSET. eapply Forall_impl; [by apply Hp|]. by intros kv [].
Qed.

Hint Resolve mild_updateFields : frames.

Lemma mild_storeJob k name data opts ts rjk : mild b (storeJob cjson k name data opts ts rjk).
Proof.
  unfold storeJob. cbv zeta. apply (frames_ok _). apply mild_HMSET. rewrite !Forall_app.
  split_and!; [by repeat constructor | destruct (truthy _); by repeat constructor..].
Qed.
Hint Resolve mild_storeJob : frames.

Lemma mild_addJob mk args enq : (∀ j x t d, mild b (enq j x t d)) → mild b (addJob cjson o mk (keys.ID b) args enq).
Proof. intros He. pose proof id_not_limiter. unfold addJob. mild_solve; try apply He. Qed.

Lemma mild_priority k p j pc : pc = keys.PriorityCounter b → mild b (addJobWithPriority k p j pc).
Proof. intros ->. pose proof pc_not_limiter. mild_solve. Qed.

Lemma mild_promoteDelayed d w p pre ts pc : pc = keys.PriorityCounter b → mild b (promoteDelayedJobs d w p pre ts pc).
Proof. intros ->. pose proof pc_not_limiter. unfold promoteDelayedJobs. mild_solve. Qed.
Hint Resolve mild_priority mild_promoteDelayed : frames.

Lemma mild_fromScheduler ks k id name data opts ts sid d :
  key ks 10 = keys.PriorityCounter b → mild b (addJobFromScheduler cjson ks k id name data opts ts sid d).
Proof. intros Hk. unfold addJobFromScheduler. mild_solve; rewrite Hk; apply pc_not_limiter. Qed.

Lemma mild_storeScheduler sid k r next opts data tmpl : mild b (storeJobScheduler cjson sid k r next opts data tmpl).
Proof.
  unfold storeJobScheduler. cbv zeta. do 4 (apply (frames_bind _); [mild_solve|]; intros ?).
  apply mild_HMSET. rewrite !Forall_app.
  split_and!; repeat match goal with |- Forall _ (match ?x with _ => _ end) => destruct x end; by repeat constructor.
Qed.
Hint Resolve mild_fromScheduler mild_storeScheduler : frames.

(** A call that hands out no job. *)
Definition idle (n : ScriptName) (args : list any) : Prop :=
  match n with
  | MoveToActive | MoveToFinished => False
  | MoveToDelayed => str (argv args 8) ≠ "1"
  | _ => True
  end.

Lemma script_mild n ks args : proper_call b n ks args → idle n args → mild b (script cjson o n ks args).
Proof.
  intros Hp Hi. pose proof id_not_limiter as Hid. pose proof pc_not_limiter as Hpc.
  destruct n; try done; cbn [script]; cbn [proper_call] in Hp; first [apply (frames_ret _) | apply (frames_ok _) | idtac].
  - destruct Hp as [Hk _]. unfold addStandardJob. use_keys Hk. apply mild_addJob. intros. mild_solve.
  - destruct Hp as [Hk _]. unfold addDelayedJob. use_keys Hk. apply mild_addJob. intros. mild_solve.
  - destruct Hp as [Hk _]. unfold addPrioritizedJob. use_keys Hk. apply mild_addJob. intros. mild_solve.
  - unfold extendLock. mild_solve.
  - unfold releaseLock. mild_solve.
  - destruct Hp as [Hk Hf]. unfold retryJob. use_keys Hk. mild_solve.
  - destruct Hp as [Hk Hf]. unfold moveToDelayed. cbn in Hi. destruct (String.eqb_spec (str (argv args 8)) "1"); [done|].
    use_keys Hk. mild_solve.
  - unfold moveStalledJobsToWait. mild_solve.
  - destruct Hp as (Hk & _). repeat (apply Forall_cons in Hk as [? Hk]). cbn [fst snd] in *.
    assert (key ks 8 ≠ L) by congruence. unfold addJobScheduler, removeJobFromScheduler, chooseSlot. mild_solve.
  - rename Hp into Hk. repeat (apply Forall_cons in Hk as [? Hk]). cbn [fst snd] in *.
    assert (key ks 8 ≠ L) by congruence. unfold updateJobScheduler. mild_solve.
  - unfold updateProgress. mild_solve.
  - unfold updateData. mild_solve.
  - unfold removeJob, removeJobFromAnyState. mild_solve.
  - unfold drain, removeListJobs, removeZSetJobs. mild_solve.
  - unfold promote. use_keys Hp. mild_solve.
  - destruct Hp as [Hk _]. unfold reprocessJob. use_keys Hk. mild_solve.
  - unfold pause. mild_solve.
Qed.

(** ** The scripts that count *)

Context `{GoArch}.
Variable Mx : Z.

(** The reply hands a job to the worker that is to be run, and not one that is
    only to be failed for having stalled too often. *)
Definition hands_out (v : any) : bool :=
  match parseMoveToActiveResult v with
  | inr a => ar_ok a && bool_decide (ar_jobMap a !! "defa" = None)
  | inl _ => false
  end.

Definition rate_ok (st : store) : Prop := unset b st ∧ 0 ≤ counted b st ≤ Mx.

(** [m] counts what it hands out, as [f] says, from a state that satisfies [P]. *)
Definition counts {A} (P : store → Prop) (f : A → bool) (m : Lua A) : Prop :=
  ∀ st, rate_ok st → P st → let r := (m st).1 in counted b st + Z.b2z (f r.1) ≤ counted b r.2 ∧ rate_ok r.2.

Definition room (st : store) : Prop := counted b st < Mx.

Lemma mild_counts {A} (m : Lua A) st : mild b m → counted b (m st).1.2 = counted b st ∧ (rate_ok st → rate_ok (m st).1.2).
Proof.
  intros Hm. destruct (Hm st) as [E Hu]. unfold rate_ok, counted. rewrite E. split; [done|]. intros [? ?]. auto.
Qed.

Lemma counts_mild {A B} (P : store → Prop) (f : B → bool) (m : Lua A) (g : A → Lua B) :
  mild b m → (∀ st, P st → P (m st).1.2) → (∀ a, counts P f (g a)) → counts P f (m ≫= g).
Proof.
  intros Hm HP Hg st Hr Hs. destruct (mild_counts m st Hm) as [E Ho]. unfold mbind, Lua_bind. specialize (HP st Hs).
  destruct (m st) as [[a st1] l1]. cbn in *. specialize (Hg a st1 (Ho Hr) HP). destruct (g a st1) as [[c st2] l2].
  cbn in *. by rewrite <-E.
Qed.

Lemma room_mild {A} (m : Lua A) st : mild b m → room st → room (m st).1.2.
Proof. intros Hm. unfold room. by rewrite (proj1 (mild_counts m st Hm)). Qed.

Lemma counts_room {A B} (f : B → bool) (m : Lua A) (g : A → Lua B) :
  mild b m → (∀ a, counts room f (g a)) → counts room f (m ≫= g).
Proof. intros Hm. apply counts_mild; [done|]. intros st. by apply room_mild. Qed.

Lemma counts_any {A B} (f : B → bool) (m : Lua A) (g : A → Lua B) :
  mild b m → (∀ a, counts (λ _, True) f (g a)) → counts (λ _, True) f (m ≫= g).
Proof. intros Hm. by apply counts_mild. Qed.

Lemma counts_ret {A} P (f : A → bool) a : f a = false → counts P f (mret a).
Proof. intros Hf st Hr _. cbn. rewrite Hf. cbn. split; [lia | done]. Qed.

Lemma counts_map {A B} P (f : A → bool) (g : B → bool) (m : Lua A) (h : A → B) :
  counts P f m → (∀ a, g (h a) = f a) → counts P g (v ← m; mret (h v)).
Proof. intros Hm Hg st Hr Hp. rewrite bind_fst. cbn. rewrite Hg. by apply Hm. Qed.

(** A reply with a job that is marked to be failed does not hand it out. *)
Lemma hands_out_defa h j : is_Some (h !! "defa") →
  hands_out (AArr [AArr (flatten (map_to_list h)); AStr j; AInt64 0; AInt64 0]) = false.
Proof.
  intros [d Hd]. unfold hands_out. destruct (decide (j = "")) as [->|Hj]; [done|]. rewrite parse_handed by done.
  cbn. by rewrite Hd.
Qed.

(** The job is counted where the reply will have it run. *)
Lemma counts_prepare pre j ts opts :
  counts room hands_out (prepareJobForProcessing pre L j ts (Some Mx) opts).
Proof.
  intros st Hr Hroom. unfold prepareJobForProcessing. cbv zeta. set (k := pre +:+ j).
  match goal with |- context [(?m ≫= ?f) st] => set (m1 := m); set (rest := f) end. rewrite bind_fst.
  assert (Hrest : ∀ st1, mild b (rest tt) ∧ (is_Some (hgetall k st1 !! "defa") → hands_out (rest tt st1).1.1 = false)).
  { intros st1. split.
    - unfold rest. mild_solve. apply mild_HMSET. constructor; [done|]. destruct (truthy _); by repeat constructor.
    - intros Hd. unfold rest. do 4 (rewrite bind_fst). cbn [gets mret Lua_ret fst snd]. apply hands_out_defa.
      unfold HINCRBY, HMSET, modify. cbn [fst snd]. rewrite !hgetall_hset, !bool_decide_eq_true_2 by done.
      rewrite lookup_insert_ne by done. apply hmset_keeps. destruct (negb _); [|done].
      by rewrite bind_fst. }
  destruct (hgetall k st !! "defa") as [d|] eqn:Ed.
  - assert ((m1 st).1 = (tt, st)) as -> by (unfold m1; rewrite bind_fst; cbn; by rewrite Ed). cbn [fst snd].
    destruct (Hrest st) as [Hm Hd]. destruct (mild_counts _ st Hm) as [E Ho]. rewrite Hd, E by eauto. cbn. split; [lia | auto].
  - set (st1 := (INCR L st).1.2).
    assert ((m1 st).1 = (tt, st1)) as -> by (unfold m1; rewrite bind_fst; cbn; by rewrite Ed). cbn [fst snd].
    destruct (Hrest st1) as [Hm _]. destruct (mild_counts _ st1 Hm) as [E Ho]. rewrite E.
    assert (Ec : counted b st1 = counted b st + 1) by (unfold counted, st1; cbn; by rewrite lookup_insert_eq).
    unfold room in Hroom. destruct Hr as [Hu Hc]. split; [rewrite Ec; destruct (hands_out _); cbn; lia|].
    apply Ho. split; [done | lia].
Qed.

(** No job once the limit is reached, and room for one below it. *)
Hypothesis Hlive : 0 < o_window o.
#[local] Set Default Proof Using "Type*".

Lemma admission_state ak dk wk pk pre ts opts st :
  num (field (field opts "limiter") "max") = Some Mx → unset b st →
  let st' := (promoteDelayedJobs dk wk pk pre ts (keys.PriorityCounter b) st).1.2 in
  ∃ stopped, (admission o (keys.Meta b) ak dk wk pk pre ts (keys.PriorityCounter b) L opts st).1 =
    ((stopped, Some Mx, if Mx <=? counted b st' then o_window o else 0), st').
Proof.
  intros Hm Hu. cbv zeta. set (st' := (promoteDelayedJobs _ _ _ _ _ _ st).1.2). unfold admission. rewrite bind_fst.
  assert (E : (isQueuePausedOrMaxed (keys.Meta b) ak st).1.2 = st) by done. rewrite E.
  rewrite bind_fst. cbn [HGET gets fst snd]. rewrite Hu, bind_fst. fold st'. rewrite Hm. rewrite bind_fst.
  eexists. unfold getRateLimitTTL. rewrite bind_fst. cbn [gets fst snd]. fold (counted b st').
  destruct (Mx <=? counted b st'); [|done]. rewrite (proj2 (Z.eqb_neq (o_window o) 0)) by lia. rewrite bind_fst. cbn.
  by rewrite Z.max_r by lia.
Qed.

Lemma counts_admission {B} (f : B → bool) ak dk wk pk pre ts opts (g : bool * option Z * Z → Lua B) :
  num (field (field opts "limiter") "max") = Some Mx →
  (∀ stopped, counts room f (g (stopped, Some Mx, 0))) →
  (∀ stopped e, 0 < e → counts (λ _, True) f (g (stopped, Some Mx, e))) →
  counts (λ _, True) f (admission o (keys.Meta b) ak dk wk pk pre ts (keys.PriorityCounter b) L opts ≫= g).
Proof.
  intros Hm Hroom Hfull st Hr _. destruct (admission_state ak dk wk pk pre ts opts st Hm (proj1 Hr)) as [stopped E].
  rewrite bind_fst, E. cbn [fst snd]. set (st' := (promoteDelayedJobs _ _ _ _ _ _ st).1.2).
  destruct (mild_counts (promoteDelayedJobs dk wk pk pre ts (keys.PriorityCounter b)) st) as [Ec Ho];
    [by apply mild_promoteDelayed|]. specialize (Ho Hr). fold st' in Ec, Ho. rewrite <-Ec.
  destruct (Z.leb_spec Mx (counted b st')) as [Hle|Hlt]; [by apply Hfull | by apply Hroom].
Qed.

(** Taking a job off a list or the set is mild, and preparing it counts it. *)
Lemma counts_moveToActive ks args :
  keyed ks [(1%nat, keys.Wait b); (2%nat, keys.Active b); (3%nat, keys.Prioritized b); (6%nat, keys.Limiter b);
            (7%nat, keys.Delayed b); (10%nat, keys.PriorityCounter b); (9%nat, keys.Meta b)] →
  num (field (field (unpack (str (argv args 3))) "limiter") "max") = Some Mx →
  counts (λ _, True) hands_out (moveToActive o ks args).
Proof.
  intros Hk Hm. pose proof pc_not_limiter. unfold moveToActive. use_keys Hk. apply counts_admission; [done | |].
  - intros stopped. cbn [Z.ltb Z.compare]. destruct stopped; [by apply counts_ret|].
    do 2 (apply counts_room; [mild_solve|]; intros ?). apply counts_room; [mild_solve|]. intros [j|]; [apply counts_prepare|].
    apply counts_room; [mild_solve|]. intros next. by apply counts_ret.
  - intros stopped e He. rewrite (proj2 (Z.ltb_lt 0 e) He). by apply counts_ret.
Qed.

Lemma counts_fetch wk ak pk dk pre ts opts :
  num (field (field opts "limiter") "max") = Some Mx →
  counts (λ _, True) (λ r, match r with Some v => hands_out v | None => false end)
    (fetchNextJob o wk ak pk L dk (keys.Meta b) (keys.PriorityCounter b) pre ts opts).
Proof.
  intros Hm. pose proof pc_not_limiter. unfold fetchNextJob. apply counts_admission; [done | |].
  - intros stopped. cbn [Z.ltb Z.compare]. destruct stopped; [by apply counts_ret|].
    apply counts_room; [mild_solve|]. intros ?. apply counts_room; [mild_solve|]. intros [j|].
    + eapply counts_map; [apply counts_prepare | done].
    + apply counts_room; [mild_solve|]. intros [next|]; by apply counts_ret.
  - intros stopped e He. rewrite (proj2 (Z.ltb_lt 0 e) He). by apply counts_ret.
Qed.

Lemma mild_retain set pre j k ts target prop value keep :
  ordinary prop → mild b (retain set pre j k ts target prop value keep).
Proof.
  intros [_ Hp]. unfold retain, removeJobsByMaxAge, removeJobsByMaxCount. mild_solve.
Qed.
Hint Resolve mild_retain : frames.

Lemma counts_moveToFinished ks args :
  keyed ks [(1%nat, keys.Wait b); (2%nat, keys.Active b); (3%nat, keys.Prioritized b); (6%nat, keys.Limiter b);
            (7%nat, keys.Delayed b); (10%nat, keys.PriorityCounter b); (12%nat, keys.Job b (str (argv args 1)));
            (9%nat, keys.Meta b)] →
  ordinary (str (argv args 3)) → fields_ok (str (argv args 9)) →
  num (field (field (unpack (str (argv args 8))) "limiter") "max") = Some Mx →
  counts (λ _, True) hands_out (moveToFinished o ks args).
Proof.
  intros Hk Hp Hf Hm. unfold moveToFinished, dropDedupOnFinish. use_keys Hk.
  repeat first [ by apply counts_ret
               | eapply counts_map; [by apply counts_fetch | by intros []]
               | apply counts_any; [solve [mild_solve]|]; intros ?
               | match goal with |- counts _ _ (if ?x then _ else _) => destruct x end ].
Qed.

(** ** The limit a worker sends *)

Definition limit_of (v : any) : option Z := num (field (field (unpack (str v)) "limiter") "max").

(** A call that hands out jobs asks for no more than [Mx]. *)
Definition within (r : req) : bool :=
  match r with
  | RScript _ MoveToActive _ args => bool_decide (limit_of (argv args 3) = Some Mx)
  | RScript _ MoveToFinished _ args => bool_decide (limit_of (argv args 8) = Some Mx)
  | RScript _ MoveToDelayed _ args => negb (String.eqb (str (argv args 8)) "1")
  | _ => true
  end.

(** What a call does to the count. *)
Definition handed (n : ScriptName) (v : res any) : bool :=
  match n, v with MoveToActive, inr v | MoveToFinished, inr v => hands_out v | _, _ => false end.

Lemma script_counts c n ks args st :
  proper_call b n ks args → within (RScript c n ks args) = true → rate_ok st →
  let r := (script cjson o n ks args st).1 in counted b st + Z.b2z (handed n r.1) ≤ counted b r.2 ∧ rate_ok r.2.
Proof.
  intros Hp Hwi Hr. cbv zeta.
  assert (Hmild : idle n args → handed n (script cjson o n ks args st).1.1 = false →
    counted b st + Z.b2z (handed n (script cjson o n ks args st).1.1) ≤ counted b (script cjson o n ks args st).1.2 ∧
    rate_ok (script cjson o n ks args st).1.2).
  { intros Hi ->. destruct (mild_counts _ st (script_mild n ks args Hp Hi)) as [-> Ho]. cbn. split; [lia | auto]. }
  destruct n; try (by apply Hmild); cbn [within] in Hwi; cbn [script].
  - apply bool_decide_eq_true in Hwi. eapply (counts_map _ hands_out); [by apply counts_moveToActive | done | done | done].
  - apply bool_decide_eq_true in Hwi. destruct Hp as (Hk & _ & Ho & _ & Hf).
    eapply (counts_map _ hands_out); [by apply counts_moveToFinished | done | done | done].
  - apply Hmild; [|done]. cbn. by destruct (String.eqb_spec (str (argv args 8)) "1").
Qed.
End scripts.

Section worker.
Context `{Codec} `{GoArch} `{CronLib} {T : Type} `{Payload T}.
Variable Mx : Z.
Hypothesis HM : 0 < Mx ≤ 2 ^ 53.
#[local] Set Default Proof Using "Type*".

(** [WithRateLimit], for a window of a millisecond or more. *)
Definition limited (w : Worker) : Prop := ∃ d, limiter (cfg w) = Some (mkWorkerLimiter Mx d) ∧ Millisecond ≤ d.

Lemma limit_read m d :
  map_get m "limiter" = Some (proto.limiter_map (proto.mkLimiter Mx d)) →
  num (field (field (lua_value (AMap m)) "limiter") "max") = Some Mx.
Proof.
  intros E. rewrite !field_lua. cbn [field]. rewrite E. cbn. unfold lua_int. by rewrite (proj2 (Z.leb_le _ _)) by lia.
Qed.

Lemma limited_respects w : limited w → respects (within Mx) w.
Proof.
  intros (d & El & Hd). split.
  - intros token bs ts E. cbn. apply bool_decide_eq_true. apply unpack_law in E. unfold limit_of. cbn. rewrite E.
    apply (limit_read _ (Milliseconds d)). unfold proto.moveToActive_map, activeOpts. cbn. rewrite El. cbn. apply map_get_set_eq.
  - intros token att keep bs jobID ts prop value target flag fields E. cbn. apply bool_decide_eq_true.
    apply unpack_law in E. unfold limit_of. cbn. rewrite E. apply (limit_read _ (Milliseconds d)).
    unfold proto.moveToFinished_map, finishOpts. cbn. rewrite El. cbn.
    assert (0 < Milliseconds d) by (unfold Milliseconds; apply Z.quot_str_pos; consts; lia).
    rewrite (proj2 (Z.ltb_lt 0 Mx)), (proj2 (Z.ltb_lt 0 (Milliseconds d))) by lia. cbn. apply map_get_set_eq.
  - done.
Qed.

Lemma within_rest r : fetches r = false → within Mx r = true.
Proof. destruct r; try done. by destruct name. Qed.
End worker.

(** ** Every interleaving *)

(** A request and what follows it. *)
Lemma only_vis {A} P r (k : resp r → M A) : only P (Vis r k) → P r = true ∧ ∀ x, only P (k x).
Proof.
  intros Hm. split.
  - pose proof (wp_run quiet _ _ tt Hm) as E. unfold log in E. cbn [run] in E.
    destruct (quiet tt r) as [x u]. destruct (run quiet (k x) u) as [[a w2] l]. cbn in E. by apply andb_true_iff in E as [E _].
  - intros x. eapply wp_mono; [|apply Hm]. cbn. by intros a l [_ E]%andb_true_iff.
Qed.

Section system.
Context `{Codec} `{GoArch} `{CronLib} {T : Type} `{Payload T}.
Variable cjson : any → string.
Variable q : Queue.
Variable Mx : Z.
Hypothesis HM : 0 < Mx ≤ 2 ^ 53.
#[local] Set Default Proof Using "Type*".
Abbreviation b := (q_keys q).
Abbreviation perform := (perform (T := T) cjson q).

(** Every worker has the limit, and the counter, once the limit is reached, has
    time left to live until it expires. *)
Definition abides (a : action (T := T)) : Prop :=
  match a with
  | Spawn p => ∀ w, worker_of p = Some w → limited Mx w
  | Serve _ o _ => 0 < o_window o
  | _ => True
  end.

(** The action hands a job to a worker, to be run. *)
Definition hands (a : action (T := T)) (s : sys) : bool :=
  match a with
  | Serve i o _ =>
      match gos s !! i with
      | Some (Go (Vis (RScript _ n ks args) _) _) => handed n (script cjson o n ks args (redis s)).1.1
      | _ => false
      end
  | _ => false
  end.

Definition renews (a : action (T := T)) : bool := match a with ExpireLimiter => true | _ => false end.

(** [n] jobs have been handed out since the window began. *)
Inductive handed_out (st : store) : sys → Z → Prop :=
| handed_start : handed_out st (starts st) 0
| handed_step s n a s' :
    handed_out st s n → allowed q a s → abides a → perform a s = Some s' →
    handed_out st s' (if renews a then 0 else n + Z.b2z (hands a s)).

Record rate_inv (s : sys) (n : Z) : Prop := mkRate {
  ri_ok : sys_ok q s;
  ri_rate : rate_ok b Mx (redis s);
  ri_count : n ≤ counted b (redis s);
  ri_code : ∀ i g, gos s !! i = Some g → only (within Mx) (code g);
}.

(** Other writes than those of scripts. *)
Lemma del_rate k st : disposable b k → counted b (del k st) = counted b st ∧ (unset b st → unset b (del k st)).
Proof.
  intros Hd. split.
  - unfold counted, del. cbn. rewrite lookup_delete_ne; [done|].
    destruct Hd as [(sid & _ & ->)|[u ->]]; by intros ?%sapp_inv_head.
  - unfold unset, hgetall, del. cbn. rewrite lookup_delete. by case_decide.
Qed.

Lemma cmd_rate c st : lawful_cmd b c → rate_ok b Mx st → rate_ok b Mx (apply_cmd c st) ∧ counted b (apply_cmd c st) = counted b st.
Proof.
  intros Hl [Hu Hc]. destruct c; cbn in *; try done.
  - destruct (hgetall _ st !! _); [done|]. split; [|done]. split; [|done]. unfold unset. rewrite hgetall_hset.
    case_bool_decide as E; [|done]. rewrite E, lookup_insert_ne by apply Hl. done.
  - destruct (del_rate _ st Hl) as [Ec Hd]. rewrite Ec. split; [|done]. split; [auto | by rewrite Ec].
Qed.

Lemma written_rate own r n st :
  lawful b own r → rate_ok b Mx st → rate_ok b Mx (written r n st) ∧ counted b (written r n st) = counted b st.
Proof.
  intros Hl Hr. destruct r; cbn; try done.
  - apply (Forall_take _ n) in Hl. revert st Hr. induction Hl as [|d ds Hd _ IH]; intros st Hr; cbn; [done|].
    destruct (cmd_rate d st Hd Hr) as [H1' E]. rewrite <-E. by apply IH.
  - destruct n; (split; [exact Hr | reflexivity]).
  - destruct n; [done|]. cbn. destruct (del_rate _ st Hl) as [Ec Hd]. destruct Hr as [Hu Hc].
    split; [|done]. split; [auto | by rewrite Ec].
Qed.

Lemma step_rate s n a s' :
  rate_inv s n → allowed q a s → abides a → perform a s = Some s' →
  rate_inv s' (if renews a then 0 else n + Z.b2z (hands a s)).
Proof.
  intros [Hok Hr Hn Hc] Hal Hab Hp. pose proof (perform_ok cjson q s a s' Hok Hal Hp) as Hok'.
  assert (Hcode : ∀ i g x, gos s !! i = Some g → only (within Mx) (code x) →
    ∀ j h, <[i := x]> (gos s) !! j = Some h → only (within Mx) (code h)).
  { intros i g x _ Hx j h. rewrite list_lookup_insert. case_decide; [by intros [= <-] | apply Hc]. }
  destruct a as [p|i o lost|i e|i x|i ans k0|k|k|]; cbn [perform Concurrent.perform renews hands Z.b2z] in *; rewrite ?Z.add_0_r.
  - injection Hp as <-. split; [done | done | done |]. cbn. intros i g.
    rewrite lookup_app_Some, list_lookup_singleton_Some. intros [Hi|(_ & _ & <-)]; [by eapply Hc|]. cbn.
    apply program_only; [intros r Hf _; by apply within_rest | intros w Hw; by apply limited_respects, Hab].
  - destruct (gos s !! i) as [[[|[] k] own]|] eqn:Hi; try done.
    destruct (only_vis _ _ _ (Hc _ _ Hi)) as [Hwi Hk]. destruct (ok_code q s Hok i _ Hi) as [[Hpc _] _].
    pose proof (script_counts cjson o b Mx Hab _ _ _ _ _ Hpc Hwi Hr) as [Hle Hr'].
    destruct (script _ _ _ _ _ (redis s)) as [[v st'] es]. injection Hp as <-. cbn in *.
    split; [done | done | cbn; lia |]. cbn. apply (Hcode i _ _ Hi), Hk.
  - destruct (gos s !! i) as [[[|[] k] own]|] eqn:Hi; try done. injection Hp as <-.
    destruct (only_vis _ _ _ (Hc _ _ Hi)) as [_ Hk]. split; try done. cbn. apply (Hcode i _ _ Hi), Hk.
  - destruct (gos s !! i) as [[[|[] k] own]|] eqn:Hi; try done. destruct (_ && _); [|done]. injection Hp as <-.
    destruct (only_vis _ _ _ (Hc _ _ Hi)) as [_ Hk]. split; try done. cbn. apply (Hcode i _ _ Hi), Hk.
  - destruct (gos s !! i) as [[[|r k] own]|] eqn:Hi; try done.
    destruct (only_vis _ _ _ (Hc _ _ Hi)) as [_ Hk]. destruct (ok_code q s Hok i _ Hi) as [Hl _].
    destruct (written_rate _ r k0 (redis s) Hl Hr) as [Hr' E].
    assert (s' = Sys (<[i := Go (k (ans r)) own]> (gos s)) (drawn s) (written r k0 (redis s)) (hist s)) as ->
      by (destruct r; try done; by injection Hp).
    split; [done | done | cbn; by rewrite E |]. cbn. apply (Hcode i _ _ Hi), Hk.
  - by injection Hp as <-.
  - by injection Hp as <-.
  - injection Hp as <-. destruct Hr as [Hu [Hc0 Hc1]]. split; [done | | |done]; unfold rate_ok, counted; cbn; rewrite lookup_delete_eq; cbn.
    + split; [done | lia].
    + done.
Qed.

(** C7. A rate limit is never exceeded. Whatever any number of
    workers made with [WithRateLimit], producers, schedules, stalled checks,
    heartbeats and administrators do on one queue, however their script calls
    interleave and whichever replies get lost: between two expiries of the
    limit's counter the scripts hand out at most [Mx] jobs to be run. Asked is
    that all the workers have that limit, for a window of a millisecond or more,
    that nobody has set a limit in the queue's meta HASH, which mkq never does,
    and that a counter that is asked for its remaining life has some. *)
Theorem rate_limit_holds st s n :
  at_rest q st → rate_ok b Mx st → handed_out st s n → n ≤ Mx.
Proof.
  intros [Hi Hl] Hr Hh. assert (rate_inv s n) as [_ [_ Hc] Hn _]; [|lia].
  induction Hh as [|s n a s' _ IH Hal Hab Hp]; [|by eapply step_rate].
  split; [| done | apply Hr | done]. apply (reachable_ok (T := T) cjson q st); [done | done | apply reach_start].
Qed.

(** An interleaving, run. *)
Fixpoint tally (acts : list (action (T := T))) (s : sys) (n : Z) : option (sys * Z) :=
  match acts with
  | [] => Some (s, n)
  | a :: acts =>
      if anytime a s then
        s' ← perform a s; tally acts s' (if renews a then 0 else n + Z.b2z (hands a s))
      else None
  end.

Lemma tally_handed st acts s n s' n' :
  handed_out st s n → Forall (spawns q) acts → Forall abides acts → tally acts s n = Some (s', n') → handed_out st s' n'.
Proof.
  intros Hr Hs. revert s n Hr. induction Hs as [|a acts Ha _ IH]; intros s n Hr Hb; cbn; [by intros [= <- <-]|].
  apply Forall_cons in Hb as [Hb Hbs]. destruct (anytime a s) eqn:Et; [|done].
  apply (anytime_allowed _ _ _ Ha) in Et. destruct (perform a s) as [s1|] eqn:E; [|done]. cbn.
  apply IH; [|done]. by eapply handed_step.
Qed.

Lemma plan_abides n i uuid o s : 0 < o_window o → Forall abides (plan cjson q n i uuid o s).
Proof.
  intros Ho. revert s. induction n as [|n IH]; intros s; cbn; [constructor|]. unfold plain_step.
  destruct (gos s !! i) as [[[|r k] own]|]; try constructor; [by destruct r|].
  destruct (Concurrent.perform _ _ _ _); [apply IH | constructor].
Qed.
End system.

Section sample.
#[local] Existing Instance treeMsgpack.
#[local] Existing Instance treeCodec.
#[local] Existing Instance amd64.
#[local] Existing Instance hourly.
#[local] Existing Instance rawPayload.

(** A worker of one job a second. *)
Definition slowWorker : Worker :=
  mkWorker (WithRateLimit 1 Second defaultConfig) (wkeys sampleWorker) "email" "bull:email:mkq:wake:0".

(** Goroutine [i] goes on after [acts]. *)
Definition then_ (acts : list (action (T := string))) (n i : nat) (uuid : string) : list action :=
  match runs (T := string) sampleJson sampleQueue acts (starts emptyStore) with
  | Some s => acts ++ plan sampleJson sampleQueue n i uuid plainOracle s
  | None => acts
  end.

(** Two jobs are added; then the worker takes one, and asks for the next when it
    has completed it. *)
Definition slowStart : list (action (T := string)) :=
  [Spawn (PAdd "order-1" []); Spawn (PAdd "order-2" []); Spawn (PDispatch slowWorker 1)].
Definition slowActs : list (action (T := string)) := then_ (then_ (then_ slowStart 20 0 "t0") 20 1 "t1") 60 2 "t2".

Lemma then_abides acts n i uuid :
  Forall (spawns sampleQueue) acts ∧ Forall (abides 1) acts →
  Forall (spawns sampleQueue) (then_ acts n i uuid) ∧ Forall (abides 1) (then_ acts n i uuid).
Proof.
  intros [H1 H2]. unfold then_. destruct (runs _ _ _ _); [|done]. rewrite !Forall_app.
  split_and!; [done | apply plan_allowed | done | by apply plan_abides].
Qed.

Lemma slowActs_abide : Forall (spawns sampleQueue) slowActs ∧ Forall (abides 1) slowActs.
Proof.
  do 3 apply then_abides. split; [by repeat constructor|]. repeat constructor; try done.
  intros w [= <-]. by exists Second.
Qed.

Lemma empty_rate b : rate_ok b 1 emptyStore.
Proof. unfold rate_ok, unset, counted, hgetall. cbn [emptyStore hashes nums]. rewrite !lookup_empty. cbn. split; [done | lia]. Qed.

(** The second job stays where it is. *)
Lemma rate_limit_holds_witness :
  ∃ s n, tally sampleJson sampleQueue slowActs (starts emptyStore) 0 = Some (s, n) ∧
    lget (keys.Wait (q_keys sampleQueue)) (redis s) = ["2"] ∧ n ≤ 1.
Proof.
  destruct (tally sampleJson sampleQueue slowActs (starts emptyStore) 0) as [[s n]|] eqn:E; [|by vm_compute in E].
  assert (Hv : (λ x, (x.2, lget (keys.Wait (q_keys sampleQueue)) (redis x.1))) <$>
    tally sampleJson sampleQueue slowActs (starts emptyStore) 0 = Some (1, ["2"])) by by vm_compute.
  rewrite E in Hv. injection Hv as -> Hw. exists s, 1. split_and!; [done | done|].
  assert (HM : 0 < 1 ≤ 2 ^ 53) by lia.
  assert (Hh : handed_out (T := string) sampleJson sampleQueue 1 emptyStore s 1).
  { eapply tally_handed; [exact HM | apply handed_start | apply slowActs_abide | apply slowActs_abide | exact E]. }
  assert (Hr : rate_ok (q_keys sampleQueue) 1 emptyStore) by apply empty_rate.
  exact (rate_limit_holds (T := string) sampleJson sampleQueue 1 HM emptyStore s 1 sample_rest Hr Hh).
Defined.
End sample.
