(* ===== verification/Delay.v ===== *)
(** * Delays

    A job with a delay lies in the delayed set under a score that tells the
    millisecond it is due. [delay_starts]: [Add] puts it there, due the delay
    after the time the clock showed. [delays_respected]: whatever happens on the
    queue, it stays there until a script is called with a time that has reached
    that millisecond, or until an administrator promotes, removes or drains it.
    [delays_end]: when a worker asks for a job at that time or later, it leaves. *)

From S2P Require Import Prelude GoLib Keys Backoff Effects Json Jobs Proto Wire Cron Config Finalise Worker Dispatch Shutdown Queue Schedule Inspect Redis RedisInv Frame Fencing Persist Concurrent Recovery System Delivery Order Upkeep.
Import lua.

Section holds.
Variable b : keys.Builder.
Variable id : string.
Variable score : Z.
Abbreviation D := (keys.Delayed b).

(** The job is held back. *)
Definition held_back (st : store) : Prop := zget D st !! id = Some score.
Definition holding (st st' : store) : Prop := held_back st → held_back st'.

#[export] Instance holding_footprint : Footprint holding.
Proof. split; [split|..]; unfold holding, held_back; [by intros st | by intros st1 st2 st3; auto | done..]. Qed.

Abbreviation holds := (frames holding).

(** What writes no sorted set. *)
Lemma holds_same {A} (m : Lua A) : (∀ st, zsets (m st).1.2 = zsets st) → holds m.
Proof. intros Hm st. unfold holding, held_back, zget. by rewrite Hm. Qed.
Lemma holds_INCR k : holds (INCR k).
Proof. by apply holds_same. Qed.
Lemma holds_INCR64 k : holds (INCR64 k).
Proof. apply holds_same. intros st. unfold INCR64. by destruct (_ <=? _). Qed.
Lemma holds_nums f : holds (modify (with_nums f)).
Proof. by apply holds_same. Qed.
Lemma holds_HMSET k kvs : holds (HMSET k kvs).
Proof. by apply holds_same. Qed.
Lemma holds_HINCRBY k f : holds (HINCRBY k f).
Proof. by apply holds_same. Qed.
Lemma holds_HDEL k fs : holds (HDEL k fs).
Proof. by apply holds_same. Qed.
Lemma holds_hdel k : holds (modify (hdel k)).
Proof. by apply holds_same. Qed.

(** Another set, or another job. *)
Lemma holds_zset k (z : store → gmap string Z) st :
  k ≠ D ∨ z st !! id = zget k st !! id → holding st (zset k (z st) st).
Proof.
  intros Hor Hh. unfold held_back in *. rewrite zget_zset. case_bool_decide as E; [|done]. subst k.
  destruct Hor as [Hor|Hor]; [done | by rewrite Hor].
Qed.
Lemma holds_ZADD k s x : k ≠ D ∨ x ≠ id → holds (ZADD k s x).
Proof.
  intros Hor st. apply (holds_zset k (λ st, <[x := s]> (zget k st))). destruct Hor; [by left | right].
  by rewrite lookup_insert_ne.
Qed.
Lemma holds_ZREM k x : k ≠ D ∨ x ≠ id → holds (ZREM k x).
Proof.
  intros Hor st. unfold ZREM. case_bool_decide; [|done]. apply (holds_zset k (λ st, delete x (zget k st))).
  destruct Hor; [by left | right]. by rewrite lookup_delete_ne.
Qed.
Lemma holds_ZPOPMIN k : k ≠ D → holds (ZPOPMIN k).
Proof.
  intros Hk st. unfold ZPOPMIN. destruct (zsorted _) as [|[x s] l]; [done|].
  apply (holds_zset k (λ st, delete x (zget k st))). by left.
Qed.
Lemma holds_ZREM_all k xs : k ≠ D ∨ (id ∉ xs) → holds (ZREM_all k xs).
Proof.
  intros Hor. induction xs as [|x xs IH]; cbn [ZREM_all]; [apply (frames_ret _)|].
  apply (frames_bind _); [|intros _; apply IH]; [apply holds_ZREM|]; destruct Hor; [by left | right; set_solver..| by left | right; set_solver].
Qed.
End holds.

Abbreviation holds b id score := (frames (holding b id score)).
#[export] Hint Resolve holding_footprint holds_INCR holds_INCR64 holds_nums holds_HMSET holds_HINCRBY holds_HDEL
  holds_hdel : frames.

Ltac elsewhere := first [left; assumption | right; assumption | right; solve [auto] | left; congruence].
Ltac holds_leaf :=
  first
  [ apply holds_ZADD; elsewhere
  | apply holds_ZREM; elsewhere
  | apply holds_ZPOPMIN; assumption
  | apply holds_ZREM_all; elsewhere ].
Ltac holds_solve := frame_solve holds_leaf.

(** It is enough that the script holds the job back. *)
Ltac by_frame :=
  match goal with |- held_back ?b ?id ?s (?m ?st).1.2 =>
    let Hall := fresh in assert (frames (holding b id s) m) as Hall; [|by apply Hall] end.

Section scripts.
Context `{Codec}.
Variable cjson : any → string.
Variable o : oracle.
Variable b : keys.Builder.
Variable id : string.
Variable score : Z.
Abbreviation D := (keys.Delayed b).
Abbreviation holds := (frames (holding b id score)).
Abbreviation slot := (score / 0x1000).

Lemma prioritized_apart : keys.Prioritized b ≠ D.
Proof. by intros ?%sapp_inv_head. Qed.
Lemma completed_apart : keys.Completed b ≠ D.
Proof. by intros ?%sapp_inv_head. Qed.
Lemma failed_apart : keys.Failed b ≠ D.
Proof. by intros ?%sapp_inv_head. Qed.
Lemma repeat_apart : keys.Repeat b ≠ D.
Proof. by intros ?%sapp_inv_head. Qed.

Lemma holds_promote_each jobs w p pre pc : p ≠ D → holds (promote_each jobs w p pre pc).
Proof. intros Hp. induction jobs as [|j jobs IH]; cbn [promote_each]; holds_solve. Qed.
Lemma holds_recover jobs w a pre r m : holds (recover jobs w a pre r m).
Proof. induction jobs as [|j jobs IH]; cbn [recover]; holds_solve. Qed.
Lemma holds_expel k pre jobs : k ≠ D → holds (expel k pre jobs).
Proof. intros Hk. induction jobs as [|j jobs IH]; cbn [expel]; holds_solve. Qed.
Lemma holds_dropJob pre j : holds (dropJob pre j).
Proof. unfold dropJob. holds_solve. Qed.
Lemma holds_dropJobs pre jobs : holds (dropJobs pre jobs).
Proof. induction jobs as [|j jobs IH]; cbn [dropJobs]; unfold dropJob; holds_solve. Qed.
Lemma holds_freeSlot n pre sid e next : holds (freeSlot n pre sid e next).
Proof. revert next. induction n as [|n IH]; intros next; cbn [freeSlot]; holds_solve. Qed.
Hint Resolve holds_promote_each holds_recover holds_expel holds_dropJob holds_dropJobs holds_freeSlot : frames.

(** A call that comes before the job is due does not promote it. *)
Lemma not_due ts st : ts < slot → held_back b id score st → id ∉ due ((ts + 1) * 0x1000 - 1) (zget D st).
Proof.
  intros Hts Hh Hin. unfold due in Hin. apply list_elem_of_fmap in Hin as ([x s] & -> & [Hs Hz]%list_elem_of_filter).
  unfold zsorted in Hz. rewrite merge_sort_Permutation, elem_of_map_to_list in Hz. cbn in *.
  unfold held_back in Hh. rewrite Hh in Hz. injection Hz as <-. pose proof (Z.mul_div_le score 0x1000 ltac:(lia)). lia.
Qed.

Lemma holds_promoteDelayed w p pre ts pc : ts < slot → p ≠ D → holds (promoteDelayedJobs D w p pre ts pc).
Proof.
  intros Hts Hp st Hh. unfold promoteDelayedJobs. rewrite bind_state. cbn [gets fst snd].
  pose proof (not_due ts st Hts Hh) as Hn. set (jobs := take 1000 _).
  assert (id ∉ jobs) by (intros Hin; apply Hn; rewrite <-(take_drop 1000); apply elem_of_app; by left).
  assert (holds (ZREM_all D jobs ≫= λ _ : (), promote_each jobs w p pre pc)) as Hall; [|by apply Hall].
  holds_solve.
Qed.
Hint Resolve holds_promoteDelayed : frames.

Lemma holds_fetch wk ak pk lk mk pcK pre ts opts :
  ts < slot → pk ≠ D → holds (fetchNextJob o wk ak pk lk D mk pcK pre ts opts).
Proof. intros Hts Hp. unfold fetchNextJob, admission. holds_solve. Qed.

Lemma holds_storeJob k name data opts ts rjk : holds (storeJob cjson k name data opts ts rjk).
Proof. unfold storeJob. holds_solve. Qed.
Hint Resolve holds_fetch holds_storeJob : frames.

(** A new job has an id that no job has. *)
Lemma addJob_holds mk args enq st :
  add_args_ok b args → inv b [] st → held_back b id score st → is_job b st id →
  (∀ j x t d, j ≠ id → holds (enq j x t d)) →
  held_back b id score (addJob cjson o mk (keys.ID b) args enq st).1.2.
Proof.
  unfold add_args_ok, addJob. intros Ha Hi Hh Hj He.
  destruct (unpack (str (argv args 1))) as [| | | | | | | | |l| |]; try done. destruct Ha as [-> Hid]. cbv zeta.
  rewrite bind_state. pose proof (keeps_INCR64 b (keys.ID b) st id Hj) as Hj1.
  pose proof (holds_INCR64 b id score (keys.ID b) st Hh) as Hh1. unfold INCR64 in *.
  destruct (Z.leb_spec (default 0 (nums st !! keys.ID b) + 1) maxInt64) as [Hle|]; cbn [fst snd] in *; [|done].
  set (c := default 0 (nums st !! keys.ID b) + 1) in *. set (st1 := with_nums _ st) in *. rewrite bind_state.
  set (st2 := (getOrSetMaxEvents mk st1).1.2).
  assert (Hj2 : is_job b st2 id) by (assert (keeps b (getOrSetMaxEvents mk)) as Hk by keeps_solve; by apply Hk).
  assert (Hh2 : held_back b id score st2) by (assert (holds (getOrSetMaxEvents mk)) as Hk by holds_solve; by apply Hk).
  set (jobId := if String.eqb (str (argv l 2)) "" then FormatInt c else str (argv l 2)). rewrite bind_state.
  set (ex := if String.eqb (str (argv l 2)) "" then mret false else HEXISTS (keys.Base b +:+ jobId)).
  assert ((ex st2).1.2 = st2 ∧ ((ex st2).1.1 = false → jobId ≠ id)) as [-> Hne].
  { unfold ex, jobId. destruct (String.eqb_spec (str (argv l 2)) "") as [E|E].
    - split; [done|]. intros _ <-. pose proof (inv_nonneg _ _ _ Hi) as H0'.
      assert (in64 c) as H64 by (unfold c, in64 in *; consts; lia).
      pose proof (inv_counter _ _ _ Hi c H64 Hj). unfold c in *. lia.
    - split; [done|]. cbn. intros Hx%bool_decide_eq_false <-. apply Hx.
      unfold is_job, hgetall in Hj2. destruct Hj2 as [v Hv]. unfold keys.Job in Hv. by destruct (hashes st2 !! _). }
  destruct ((ex st2).1.1); [done|]. specialize (Hne eq_refl).
  by_frame.
  holds_solve.
Qed.

Lemma holds_fromScheduler ks k j name data opts ts sid d :
  j ≠ id → key ks 6 ≠ D → holds (addJobFromScheduler cjson ks k j name data opts ts sid d).
Proof. intros Hj Hk. unfold addJobFromScheduler. holds_solve. Qed.
Lemma holds_storeScheduler sid k r next opts data tmpl :
  r ≠ D → holds (storeJobScheduler cjson sid k r next opts data tmpl).
Proof. intros Hr. unfold storeJobScheduler. holds_solve. Qed.
Lemma holds_updateFields k packed : holds (updateJobFields k packed).
Proof. unfold updateJobFields. holds_solve. Qed.
Lemma holds_dropDedup pre d j : holds (dropDedupOnFinish o pre d j).
Proof. unfold dropDedupOnFinish. holds_solve. Qed.
Hint Resolve holds_fromScheduler holds_storeScheduler holds_updateFields holds_dropDedup : frames.

(** The next iteration is not a job yet. *)
Lemma updateScheduler_holds ks args st :
  keyed ks [(1%nat, keys.Repeat b); (2%nat, keys.Delayed b); (3%nat, keys.Wait b); (6%nat, keys.Prioritized b);
            (8%nat, keys.ID b); (10%nat, keys.PriorityCounter b)] →
  is_job b st id → held_back b id score st → held_back b id score (updateJobScheduler cjson ks args st).1.2.
Proof.
  intros Hk Hj Hh. repeat (apply Forall_cons in Hk as [? Hk]). cbn [fst snd] in *.
  assert (key ks 6 ≠ D) by (rewrite H4; apply prioritized_apart).
  assert (key ks 1 ≠ D) by (rewrite H1; apply repeat_apart).
  unfold updateJobScheduler. cbv zeta. rewrite bind_state. cbn [ZSCORE gets fst snd].
  destruct (zget _ st !! _) as [prev|]; [|done]. do 4 (rewrite bind_state; cbn [HGET gets fst snd]).
  match goal with |- context [slotBehind ?a ?b ?c ?d ?e ?f] => set (next := slotBehind a b c d e f) end.
  destruct (String.eqb _ _); [|done]. rewrite bind_state. set (st1 := (getOrSetMaxEvents _ st).1.2).
  assert (Hj1 : is_job b st1 id) by (assert (keeps b (getOrSetMaxEvents (key ks 5))) as Hk' by keeps_solve; by apply Hk').
  assert (Hh1 : held_back b id score st1) by (assert (holds (getOrSetMaxEvents (key ks 5))) as Hk' by holds_solve; by apply Hk').
  rewrite bind_state. cbn [HEXISTS gets fst snd]. rewrite H1, iteration_key.
  case_bool_decide as Hx; [done|].
  assert (iteration (str (argv args 2)) next ≠ id).
  { intros <-. apply Hx. destruct Hj1 as [v Hv]. unfold hgetall in Hv. by destruct (hashes st1 !! _). }
  by_frame.
  rewrite <-H1. holds_solve.
Qed.

(** A job that is held back is not active. *)
Lemma delayed_not_active st : inv b [] st → held_back b id score st → id ∉ lget (keys.Active b) st.
Proof.
  intros Hi Hh Hin. pose proof (inv_nodup _ _ _ Hi) as Hnd. cbn in Hnd. unfold ids in Hnd.
  apply NoDup_app in Hnd as (_ & Hnd & _). apply (Hnd id); rewrite !elem_of_app; [auto|].
  left. apply elem_of_members. by eexists.
Qed.

Lemma removeLock_lists k sk token j st : lists (removeLock k sk token j st).1.2 = lists st.
Proof.
  unfold removeLock. destruct (String.eqb token "0"); [done|]. rewrite bind_state. cbn [gets fst snd].
  destruct (locks st !! _) as [t|]; [|done]. by destruct (String.eqb t token).
Qed.

Lemma updateFields_lists k packed st : lists (updateJobFields k packed st).1.2 = lists st.
Proof. unfold updateJobFields. destruct (String.eqb packed ""); [done|]. by destruct (unpack packed). Qed.

(** [moveToDelayed] gives a delay to an active job only. *)
Lemma moveToDelayed_holds ks args st :
  keyed ks [(2%nat, keys.Active b); (3%nat, keys.Prioritized b); (4%nat, keys.Delayed b);
    (5%nat, keys.Job b (str (argv args 3))); (9%nat, keys.Wait b); (10%nat, keys.Limiter b);
    (11%nat, keys.PriorityCounter b)] →
  default 0 (num (argv args 2)) < slot → inv b [] st → held_back b id score st →
  held_back b id score (moveToDelayed o ks args st).1.2.
Proof.
  intros Hk Hts Hi Hh. pose proof prioritized_apart. unfold moveToDelayed. use_keys Hk.
  destruct (decide (str (argv args 3) = id)) as [E|Hne].
  2: { by_frame. holds_solve. }
  rewrite E. rewrite bind_state. cbn [HEXISTS gets fst snd]. destruct (negb _); [done|].
  rewrite bind_state. set (st1 := (removeLock _ _ _ _ st).1.2). destruct (_ <? 0).
  { unfold st1. cbn [mret Lua_ret fst snd]. by_frame. holds_solve. }
  rewrite bind_state. set (st2 := (updateJobFields _ _ st1).1.2). rewrite bind_state.
  assert (Hl : lists st2 = lists st).
  { unfold st2, st1. rewrite updateFields_lists. apply removeLock_lists. }
  assert (Hh2 : held_back b id score st2).
  { assert (holds (removeLock (keys.Job b id) (key ks 8) (str (argv args 4)) id)) as Hall by holds_solve.
    by apply holds_updateFields, Hall. }
  pose proof (delayed_not_active st Hi Hh) as Hna. unfold LREM_tail, lget in *. rewrite Hl, bool_decide_eq_false_2 by done. done.
Qed.

Lemma addScheduler_holds ks args :
  keyed ks [(1%nat, keys.Repeat b); (2%nat, keys.Delayed b); (3%nat, keys.Wait b); (4%nat, keys.Paused b);
    (6%nat, keys.Prioritized b); (8%nat, keys.ID b); (10%nat, keys.PriorityCounter b)] →
  (∀ m, iteration (str (argv args 3)) m ≠ id) → holds (addJobScheduler cjson ks args).
Proof.
  intros Hk Hit. repeat (apply Forall_cons in Hk as [? Hk]). cbn [fst snd] in *.
  assert (key ks 6 ≠ D) by (replace (key ks 6) with (keys.Prioritized b); apply prioritized_apart).
  assert (key ks 1 ≠ D) by (replace (key ks 1) with (keys.Repeat b); apply repeat_apart).
  unfold addJobScheduler, removeJobFromScheduler, chooseSlot. holds_solve.
Qed.

(** The calls that may end the delay of [id], due in the millisecond [slot]: one
    made when that has come, and the promotion, removal or drain of the job, or a
    new version of the schedule it is an iteration of. *)
Definition may_release (call : ScriptName * list any) : Prop :=
  match call with
  | (MoveToActive, args) | (MoveToFinished, args) | (MoveToDelayed, args) | (Effects.RetryJob, args) =>
      slot ≤ default 0 (num (argv args 2))
  | (Promote, args) => str (argv args 2) = id
  | (Effects.RemoveJob, args) => str (argv args 1) = id
  | (Effects.Drain, args) => str (argv args 2) = "1"
  | (AddJobScheduler, args) => HasPrefix id ("repeat:" +:+ str (argv args 3) +:+ ":") = true
  | _ => False
  end.

#[export] Instance may_release_dec call : Decision (may_release call).
Proof. destruct call as [[] args]; cbn [may_release]; apply _. Defined.

Lemma script_holds n ks args st :
  proper_call b n ks args → ¬ may_release (n, args) → inv b [] st → held_back b id score st →
  held_back b id score (script cjson o n ks args st).1.2.
Proof.
  intros Hp Hr Hi Hh. assert (Hj : is_job b st id).
  { apply (inv_jobs _ _ _ Hi). cbn. apply (ids_member _ D); [auto with lua | by eexists]. }
  pose proof prioritized_apart. pose proof completed_apart. pose proof failed_apart. pose proof repeat_apart.
  destruct n; cbn [script may_release proper_call] in *; try (rewrite bind_state; cbn [mret Lua_ret fst snd]).
  all: try apply Z.nle_gt in Hr.
  - destruct Hp as [Hk Ha]. unfold addStandardJob. use_keys Hk. apply addJob_holds; [done..|]. intros. holds_solve.
  - destruct Hp as [Hk Ha]. unfold addDelayedJob. use_keys Hk. apply addJob_holds; [done..|]. intros. holds_solve.
  - destruct Hp as [Hk Ha]. unfold addPrioritizedJob. use_keys Hk. apply addJob_holds; [done..|]. intros. holds_solve.
  - by_frame. unfold moveToActive, admission. use_keys Hp. holds_solve.
  - destruct Hp as (Hk & Hs & _). assert (key ks 11 ≠ D) by (destruct Hs as [-> | ->]; done).
    by_frame. unfold moveToFinished, retain, removeJobsByMaxAge, removeJobsByMaxCount. use_keys Hk. holds_solve.
  - by_frame. unfold extendLock. holds_solve.
  - by_frame. unfold releaseLock. holds_solve.
  - destruct Hp as [Hk _]. by_frame. unfold retryJob. use_keys Hk. holds_solve.
  - destruct Hp as [Hk _]. by apply moveToDelayed_holds.
  - by_frame. unfold moveStalledJobsToWait. holds_solve.
  - destruct Hp as [Hk _]. by_frame. apply addScheduler_holds; [done|]. intros m <-. apply Hr, HasPrefix_spec.
    exists (FormatInt m). unfold iteration. by rewrite <-!sapp_assoc.
  - by apply updateScheduler_holds.
  - by_frame. unfold updateProgress. holds_solve.
  - by_frame. unfold updateData. holds_solve.
  - done.
  - done.
  - done.
  - done.
  - by_frame. unfold removeJob, removeJobFromAnyState. holds_solve.
  - by_frame. destruct Hp as [Hk _]. unfold drain, removeListJobs, removeZSetJobs. use_keys Hk.
    destruct (String.eqb_spec (str (argv args 2)) "1"); [done|]. holds_solve.
  - by_frame. unfold promote. holds_solve.
  - destruct Hp as (Hk & Hs & _). assert (key ks 3 ≠ D) by (destruct Hs as [-> | ->]; done).
    by_frame. unfold reprocessJob. use_keys Hk. holds_solve.
  - by_frame. unfold pause. holds_solve.
Qed.
End scripts.

Section system.
Context `{Codec} `{GoArch} `{CronLib} {T : Type} `{Payload T}.
Variable cjson : any → string.
Variable q : Queue.
Abbreviation b := (q_keys q).
Abbreviation reachable := (reachable (T := T) cjson q).
Abbreviation perform := (perform (T := T) cjson q).

(** Other writes than those of scripts. *)
Lemma cmd_holds id score c st : lawful_cmd b c → holding b id score st (apply_cmd c st).
Proof.
  intros Hl. destruct c; cbn; try done.
  - intros Hh. by destruct (hgetall _ st !! _).
  - by intros Hh.
  - intros Hh. unfold held_back, zget, del in *. cbn. destruct (disposable_apart q _ Hl) as [Hp _].
    rewrite lookup_delete_ne; [done|]. intros ->. apply Hp, elem_of_app. right. auto with lua.
  - apply (holds_zset b id score _ (λ st, delete _ (zget _ st))). left. rewrite Hl. apply repeat_apart.
Qed.

Lemma written_holds id score own r n st : lawful b own r → holding b id score st (written r n st).
Proof.
  intros Hl. destruct r; cbn; try done.
  - apply (Forall_take _ n) in Hl. revert st. induction Hl as [|d ds Hd _ IH]; intros st; cbn; [done|].
    etrans; [by apply cmd_holds | apply IH].
  - destruct n; [done|]. apply (holds_zset b id score _ (λ st, foldl _ (zget _ st) _)). left.
    destruct (disposable_apart q key0) as [Hp _]; [by right|]. intros ->. apply Hp, elem_of_app. right. auto with lua.
  - destruct n; [done|]. by apply (cmd_holds id score (CDel _)).
Qed.

(** C8. A delay is respected. In every interleaving of
    everything that goes on on a queue, with lost replies, expiring keys and
    crashed workers: a job that is held back until a millisecond stays exactly
    where it is until a script is called with a time that has come to that
    millisecond, unless the job itself is promoted or removed, a drain
    asks for delayed jobs, or its schedule is set up anew. *)
Theorem delays_respected st s a s' id score :
  at_rest q st → reachable st s → allowed q a s → perform a s = Some s' →
  held_back b id score (redis s) → ¬ held_back b id score (redis s') →
  ∃ call, serves a s = Some call ∧ may_release id score call.
Proof.
  intros [Hi Hl] Hr Ha Hp Hj Hn. pose proof (reachable_ok cjson q st s Hi Hl Hr) as Hok.
  destruct a as [p|i o lost|i e|i x|i ans n|k|k|]; cbn [Concurrent.perform] in Hp; cbn [serves];
    try (by injection Hp as <-); destruct (gos s !! i) as [[[|r k] own]|] eqn:Hg; try done.
  - destruct r; try done. destruct (ok_code _ _ Hok i _ Hg) as [[Hc _] _].
    pose proof (script_holds cjson o b id score name keys args (redis s) Hc) as Hd.
    destruct (script _ _ _ _ _ _) as [[v st'] es]. injection Hp as <-. eexists. split; [done|].
    destruct (decide (may_release id score (name, args))) as [|Hno]; [done|]. exfalso. apply Hn, Hd; [done | apply Hok | done].
  - destruct r; try done. by injection Hp as <-.
  - destruct r; try done. by destruct (_ && _); [injection Hp as <-|].
  - destruct (ok_code _ _ Hok i _ Hg) as [Hc _].
    exfalso. apply Hn. assert (redis s' = written r n (redis s)) as -> by (destruct r; try done; by injection Hp as <-).
    by eapply written_holds.
Qed.
End system.

(** ** Where a delay begins *)

(** Redis, and a clock that shows [now]. *)
Definition redis_at `{Codec} (cjson : any → string) (o : oracle) (now : Z) : server store := λ st r,
  match r return resp r * store with
  | RNow => (now, st)
  | r => redis_server cjson o st r
  end.

Lemma addOpts_delay o :
  map_get (proto.addOpts_map o) "delay" = if negb (proto.Delay o =? 0) then Some (AInt64 (proto.Delay o)) else None.
Proof. addOpts_get; by repeat case_match. Qed.

Lemma lua_int_num z : Z.abs z ≤ 2 ^ 53 → num (lua_int z) = Some z.
Proof. intros Hz. unfold lua_int. by rewrite (proj2 (Z.leb_le _ _)). Qed.

Section add.
Context `{Codec} `{!Packs} `{GoArch} {T : Type} `{Payload T}.
Variable cjson : any → string.
Variable o : oracle.
Variable q : Queue.
Abbreviation b := (q_keys q).

(** An [Add] with a delay, and without a deduplication. *)
Definition later (c : addConfig) : Prop :=
  ac_dedupID c = "" ∧ ac_dedupSet c = false ∧ ac_jobNameSet c = negb (String.eqb (ac_jobName c) "") ∧
  in64 (ac_delay c) ∧ 0 < Milliseconds (ac_delay c) ∧ ac_priority c = 0 ∧ ac_jobID c ≠ "meta".

(** The id the job will have, which nothing has yet. *)
Definition id_for (c : addConfig) (st : store) : string :=
  if String.eqb (ac_jobID c) "" then next_id q st else ac_jobID c.
Definition vacant (c : addConfig) (st : store) : Prop :=
  0 ≤ default 0 (nums st !! keys.ID b) < maxInt64 ∧ hashes st !! keys.Job b (id_for c st) = None.

Lemma id_not_meta c st : later c → vacant c st → keys.Job b (id_for c st) ≠ keys.Meta b.
Proof.
  intros (_ & _ & _ & _ & _ & _ & Hm) [Hc _]. unfold id_for. destruct (String.eqb _ _); [by apply numeral_not_meta|].
  by intros ?%sapp_inv_head.
Qed.

Lemma maxEvents_apart k st : k ≠ keys.Meta b →
  hashes (getOrSetMaxEvents (keys.Meta b) st).1.2 !! k = hashes st !! k.
Proof.
  intros Hk. unfold getOrSetMaxEvents, HGET, gets, mbind, Lua_bind.
  destruct (hgetall (keys.Meta b) st !! "opts.maxLenEvents"); [done|]. unfold HMSET, modify. cbn [fst snd].
  apply hashes_hset_ne. congruence.
Qed.

(** The script holds the job back for the delay, from the time [Add] was called. *)
Lemma add_delays st c args opts name data ts :
  let ms := Milliseconds (ac_delay c) in
  later c → vacant c st → 0 ≤ ts ≤ 2 ^ 53 →
  msgpack_Marshal (proto.addArgs_array (proto.mkAddArgs (keys.Base b) (ac_jobID c) name ts "" "" None "" "")) = inr args →
  proto.EncodeAddOpts (toProtoOpts c ms) = inr opts →
  let r := addDelayedJob cjson o (dispatch q ms 0).2 [ABytes args; ABytes data; ABytes opts] st in
  r.1.1 = inr (AStr (id_for c st)) ∧ ∃ score, held_back b (id_for c st) score r.1.2 ∧ score / 0x1000 = ts + ms.
Proof.
  intros ms Hl Hv Hts Ea Eo. pose proof (id_not_meta c st Hl Hv) as Hne. destruct Hv as [Hc Hh].
  pose proof (no_dedup c ms (proj1 Hl)) as Hde. destruct Hl as (_ & _ & _ & H64 & Hms & _ & _). fold ms in Hms.
  assert (Hms' : Z.abs ms ≤ 2 ^ 53) by (unfold ms, Milliseconds, in64 in *; consts; Z.to_euclidean_division_equations; lia).
  apply unpack_law in Ea, Eo. set (id := id_for c st) in *. cbv zeta.
  assert (Hdf : field (unpack opts) "de" = ANil) by (rewrite Eo, field_lua; cbn [field]; by rewrite Hde).
  assert (Hdl : default 0 (num (field (unpack opts) "delay")) = ms).
  { rewrite Eo, field_lua. cbn [field]. rewrite addOpts_delay. unfold toProtoOpts. cbn [proto.Delay].
    destruct (Z.eqb_spec ms 0); [lia|]. cbn -[lua_int]. by rewrite lua_int_num. }
  pattern (addDelayedJob cjson o (dispatch q ms 0).2 [ABytes args; ABytes data; ABytes opts] st).
  apply (λ Hm : hoare (λ st', st' = st) (addDelayedJob cjson o (dispatch q ms 0).2 [ABytes args; ABytes data; ABytes opts])
    (λ r st', r = inr (AStr id) ∧ ∃ score, held_back b id score st' ∧ score / 0x1000 = ts + ms), Hm st eq_refl).
  unfold addDelayedJob, addJob, dispatch. rewrite (proj2 (Z.ltb_lt _ _) Hms). unfold key, argv.
  cbn -[FormatInt lua_int]. rewrite Ea, Hdf. cbn -[FormatInt lua_int]. rewrite lua_int_num by lia.
  eapply hoare_bind with (R := λ cnt st', (∃ n, cnt = Some n ∧ (if String.eqb (ac_jobID c) "" then FormatInt n else ac_jobID c) = id) ∧
    hashes st' !! keys.Job b id = None).
  { intros st' ->. unfold INCR64. destruct (Z.leb_spec (default 0 (nums st !! keys.ID b) + 1) maxInt64); [|lia].
    cbn -[FormatInt]. split; [by eexists | done]. }
  intros cnt. apply hoare_pure. intros (n & -> & En). rewrite En. change (keys.Base b +:+ id) with (keys.Job b id).
  apply hoare_keep; [intros st' Hst'; by rewrite maxEvents_apart|]. intros _.
  eapply hoare_bind with (R := λ ex _, (ex : bool) = false ∧ True).
  { intros st' Hst'. destruct (String.eqb _ _); cbn; [done|]. by rewrite Hst'. }
  intros ex. apply hoare_pure. intros ->. apply hoare_known.
  eapply hoare_bind with (R := λ dp _, dp.1 = ms ∧ True); [by intros st' _|].
  intros [ms' pr]. apply hoare_pure. cbn [fst]. intros ->.
  eapply hoare_bind with (R := λ _ st', ∃ score, held_back b id score st' ∧ score / 0x1000 = ts + ms);
    [|intros _; by apply hoare_ret].
  intros st' _. exists (getDelayedScore (keys.Delayed b) ts ms st').1.1. split; [|by apply delayedScore_slot].
  unfold held_back, getDelayedScore, ZADD, modify, gets, mbind, Lua_bind. cbn.
  by rewrite zget_zset, bool_decide_eq_true_2, lookup_insert_eq.
Qed.

#[local] Set Default Proof Using "Type*".

(** C9. A delay begins when [Add] is called. Whatever is on
    the queue, [Add] with a delay and no deduplication, under an id of its own
    that is free or under the next number, reports the job without an error, and
    Redis holds it back until the millisecond that comes the delay, in
    milliseconds, after the time the clock showed. *)
Theorem delay_starts now st payload data opts :
  let c := applyOptions opts zeroAdd in
  MarshalJSON payload = inr data → later c → vacant c st → 0 ≤ UnixMilli now ≤ 2 ^ 53 →
  let sv := redis_at cjson o now in
  let r := result sv (Add (T := T) q payload opts) st in
  Job_ID <$> r.1 = Some (id_for c st) ∧ r.2 = None ∧
  ∃ score, held_back b (id_for c st) score (world sv (Add (T := T) q payload opts) st) ∧
    score / 0x1000 = UnixMilli now + Milliseconds (ac_delay c).
Proof.
  intros c Hm Hl Hv Hts. cbv zeta. unfold result, world, Add. fold c.
  pose proof Hl as (Hd & Hds & Hns & H64 & Hms & Hpr & _).
  assert (validateAdd c (Milliseconds (ac_delay c)) = None) as ->.
  { unfold validateAdd. rewrite Hpr, Hds, Hns, andb_false_r. cbn. by destruct (String.eqb (ac_jobName c) ""). }
  unfold addBody. rewrite Hm, Hd, Hpr. cbn [negb String.eqb].
  set (name := if negb (String.eqb (ac_jobName c) "") then ac_jobName c else q_name q). set (ts := UnixMilli now) in *.
  set (ms := Milliseconds (ac_delay c)) in *.
  destruct (packs (proto.addArgs_array (proto.mkAddArgs (keys.Base b) (ac_jobID c) name ts "" "" None "" ""))) as [args Ea].
  destruct (packs (AMap (proto.addOpts_map (toProtoOpts c ms)))) as [optsB Eo].
  pose proof (add_delays st c args optsB name data ts Hl Hv Hts Ea Eo) as Hadd. cbv zeta in Hadd. fold ms in Hadd.
  assert (Es : (dispatch q ms 0).1 = AddDelayedJob) by (unfold dispatch; by rewrite (proj2 (Z.ltb_lt _ _) Hms)).
  destruct (dispatch q ms 0) as [sc ks] eqn:Ek. cbn [fst snd] in *. subst sc.
  cbn -[UnixMilli script id_for dispatch ms]. fold name ts. unfold proto.EncodeAddArgs, proto.EncodeAddOpts. rewrite Ea, Eo.
  cbn -[UnixMilli addDelayedJob id_for ms].
  destruct (addDelayedJob _ _ _ _ st) as [[v st'] es]. cbn -[id_for] in Hadd. destruct Hadd as [-> Hpk].
  cbn -[id_for ms Z.div]. done.
Qed.
End add.

(** ** Where a delay ends *)

Create HintDb retains.

Section release.
Context `{Codec}.
Variable b : keys.Builder.
Variable id : string.
Abbreviation W := (keys.Wait b).
Abbreviation A := (keys.Active b).
Abbreviation P := (keys.Prioritized b).

(** The job waits, with or without a priority, or a worker has it. *)
Definition runnable (st : store) : Prop :=
  id ∈ lget W st ∨ id ∈ lget A st ∨ is_Some (zget P st !! id).

(** The script leaves it so. *)
Definition retains {X} (m : Lua X) : Prop := hoare runnable m (λ _, runnable).

Lemma retains_bind {X Y} (m : Lua X) (f : X → Lua Y) : retains m → (∀ x, retains (f x)) → retains (m ≫= f).
Proof. intros Hm Hf. eapply hoare_bind; [exact Hm | exact Hf]. Qed.

(** Commands that touch neither a list nor a sorted set. *)
Lemma retains_same {X} (m : Lua X) :
  (∀ st, lists (m st).1.2 = lists st ∧ zsets (m st).1.2 = zsets st) → retains m.
Proof. intros Hm st Hr. destruct (Hm st) as [E1 E2]. unfold runnable, lget, zget in *. by rewrite E1, E2. Qed.
Lemma retains_ret {X} (x : X) : retains (mret x).
Proof. by apply retains_same. Qed.
Lemma retains_gets {X} (f : store → X) : retains (gets f).
Proof. by apply retains_same. Qed.
Lemma retains_emit e : retains (emit e).
Proof. by apply retains_same. Qed.
Lemma retains_locks f : retains (modify (with_locks f)).
Proof. by apply retains_same. Qed.
Lemma retains_nums f : retains (modify (with_nums f)).
Proof. by apply retains_same. Qed.
Lemma retains_INCR k : retains (INCR k).
Proof. by apply retains_same. Qed.
Lemma retains_HMSET k kvs : retains (HMSET k kvs).
Proof. by apply retains_same. Qed.
Lemma retains_HINCRBY k f : retains (HINCRBY k f).
Proof. by apply retains_same. Qed.

(** More members, or others. *)
Lemma retains_lset k l st : (id ∈ lget k st → id ∈ l) → runnable st → runnable (lset k l st).
Proof.
  intros Hl [Hr|[Hr|Hr]]; [left | right; left | by right; right];
    rewrite lget_lset; case_bool_decide; [subst k | | subst k |]; auto.
Qed.
Lemma retains_zset k z st : (k = P → is_Some (zget k st !! id) → is_Some (z !! id)) → runnable st → runnable (zset k z st).
Proof.
  intros Hz [Hr|[Hr|Hr]]; [by left | by right; left | right; right].
  rewrite zget_zset. case_bool_decide as E; [|done]. subst k. by apply Hz.
Qed.
Lemma retains_LPUSH k x : retains (LPUSH k x).
Proof. intros st. apply retains_lset. set_solver. Qed.
Lemma retains_RPUSH k x : retains (RPUSH k x).
Proof. intros st. apply retains_lset. set_solver. Qed.
Lemma retains_ZADD k s x : retains (ZADD k s x).
Proof.
  intros st. apply retains_zset. intros _ Hs. destruct (decide (x = id)) as [->|]; [by rewrite lookup_insert_eq|].
  by rewrite lookup_insert_ne.
Qed.
Lemma retains_LREM_head k x : x ≠ id → retains (LREM_head k x).
Proof.
  intros Hx st. unfold LREM_head. case_bool_decide; [|done]. apply retains_lset. intros Hin.
  by apply remove_first_other.
Qed.
Lemma retains_marker k x : legacy_marker id = false → legacy_marker x = true → retains (LREM_head k x).
Proof. intros Hi Hx. apply retains_LREM_head. intros ->. congruence. Qed.
Lemma retains_ZREM k x : k ≠ P → retains (ZREM k x).
Proof. intros Hk st. unfold ZREM. case_bool_decide; [|done]. by apply retains_zset. Qed.
Lemma retains_ZREM_all k xs : k ≠ P → retains (ZREM_all k xs).
Proof.
  intros Hk. induction xs as [|x xs IH]; cbn [ZREM_all]; [apply retains_ret|].
  apply retains_bind; [by apply retains_ZREM | done].
Qed.

(** From one place to the next. *)
Lemma retains_RPOPLPUSH : retains (RPOPLPUSH W A).
Proof.
  intros st Hr. unfold RPOPLPUSH. destruct (last (lget W st)) as [x|] eqn:El; [|done].
  apply last_Some in El as [l El]. cbn [fst snd]. set (st1 := lset W _ st).
  destruct Hr as [Hr|Hr].
  - rewrite El in Hr. apply elem_of_app in Hr as [Hr|Hr%list_elem_of_singleton].
    + apply retains_lset; [set_solver|]. left. unfold st1. rewrite lget_lset, bool_decide_eq_true_2, El by done.
      rewrite length_app, take_app_length'; [done | cbn; lia].
    + right. left. rewrite lget_lset, bool_decide_eq_true_2 by done. rewrite Hr. by left.
  - destruct Hr as [Hr|Hr]; [right; left | by right; right].
    rewrite lget_lset, bool_decide_eq_true_2 by done. right. unfold st1. rewrite lget_lset, bool_decide_eq_false_2; [done|].
    by intros ?%sapp_inv_head.
Qed.
Lemma retains_fromPrioritized pc : retains (moveJobFromPrioritizedToActive P A pc).
Proof.
  intros st Hr. unfold moveJobFromPrioritizedToActive. rewrite bind_state. unfold ZPOPMIN.
  destruct (zsorted (zget P st)) as [|[x s] l]; cbn [fst snd]; [by apply retains_nums|].
  set (st1 := zset P (delete x (zget P st)) st). change (runnable (lset A (x :: lget A st1) st1)).
  destruct (decide (x = id)) as [->|Hx].
  - right. left. rewrite lget_lset, bool_decide_eq_true_2 by done. by left.
  - apply retains_lset; [by right|]. apply retains_zset; [|done]. intros _ Hs. by rewrite lookup_delete_ne.
Qed.

Hint Resolve retains_ret retains_gets retains_emit retains_locks retains_nums retains_INCR retains_HMSET
  retains_HINCRBY retains_LPUSH retains_RPUSH retains_ZADD retains_marker retains_ZREM_all retains_RPOPLPUSH
  retains_fromPrioritized : retains.
Ltac retains_solve :=
  repeat first
  [ solve [auto 2 with retains nocore]
  | apply retains_bind; [|intros ?]
  | match goal with |- retains (match ?x with _ => _ end) => destruct x eqn:? end
  | progress (unfold HGET, HEXISTS, LLEN; cbv zeta) ].

Lemma retains_promote_each jobs pre pc : retains (promote_each jobs W P pre pc).
Proof. induction jobs as [|j jobs IH]; cbn [promote_each]; unfold addJobWithPriority, getPriorityScore; retains_solve. Qed.

(** A job that is promoted is runnable. *)
Lemma promotes jobs pre pc : id ∈ jobs → hoare (λ _, True) (promote_each jobs W P pre pc) (λ _, runnable).
Proof.
  induction jobs as [|j jobs IH]; intros Hin; [by apply not_elem_of_nil in Hin|]. cbn [promote_each].
  eapply hoare_bind with (R := λ _ _, True); [done|]. intros p.
  destruct (decide (id = j)) as [<-|Hne].
  - eapply hoare_bind with (R := λ _, runnable).
    { intros st _. destruct (_ =? 0).
      - left. unfold LPUSH, modify. cbn [fst snd]. rewrite lget_lset, bool_decide_eq_true_2 by done. by left.
      - right. right. unfold addJobWithPriority, getPriorityScore, INCR, ZADD, modify, mbind, Lua_bind, mret, Lua_ret.
        cbn [fst snd]. rewrite zget_zset, bool_decide_eq_true_2, lookup_insert_eq by done. done. }
    intros _. apply retains_bind; [apply retains_HMSET|]. intros _. apply retains_promote_each.
  - do 2 (eapply hoare_bind with (R := λ _ _, True); [done|]; intros ?). apply IH. set_solver.
Qed.

(** The jobs that a call at [ts] promotes: those that are due, a thousand at a time. *)
Definition released (ts : Z) (st : store) : list string := take 1000 (due ((ts + 1) * 0x1000 - 1) (zget (keys.Delayed b) st)).

Lemma retains_prepare pre lk j ts mj opts : retains (prepareJobForProcessing pre lk j ts mj opts).
Proof. unfold prepareJobForProcessing. retains_solve. Qed.
Lemma retains_TTL o mj lk : retains (getRateLimitTTL o mj lk).
Proof. unfold getRateLimitTTL. retains_solve. Qed.
Hint Resolve retains_prepare retains_TTL : retains.

Lemma admission_releases o mk pre ts pc lk opts st :
  id ∈ released ts st →
  hoare (λ st', st' = st) (admission o mk A (keys.Delayed b) W P pre ts pc lk opts) (λ _, runnable).
Proof.
  intros Hid. unfold admission. do 2 (eapply hoare_bind with (R := λ _ st', st' = st); [by intros st' ->|]; intros ?).
  eapply hoare_bind with (R := λ _, runnable); [|intros _; cbv zeta; retains_solve].
  unfold promoteDelayedJobs. eapply hoare_bind with (R := λ jobs _, jobs = released ts st ∧ True); [by intros st' ->|].
  intros jobs. apply hoare_pure. intros ->. eapply hoare_bind with (R := λ _ _, True); [done|]. intros _. by apply promotes.
Qed.

Lemma released_held ts st : id ∈ released ts st → ∃ score, held_back b id score st.
Proof.
  intros Hin. assert (id ∈ due ((ts + 1) * 0x1000 - 1) (zget (keys.Delayed b) st)) as Hd.
  { rewrite <-(take_drop 1000). apply elem_of_app. by left. }
  apply list_elem_of_fmap in Hd as ([x s] & -> & [_ Hz]%list_elem_of_filter).
  unfold zsorted in Hz. rewrite merge_sort_Permutation, elem_of_map_to_list in Hz. by exists s.
Qed.

(** A job is in one place only. *)
Lemma runnable_not_held st score : inv b [] st → runnable st → ¬ held_back b id score st.
Proof.
  intros Hi Hr Hh. pose proof (inv_nodup _ _ _ Hi) as Hnd. cbn in Hnd. unfold ids in Hnd.
  assert (Hd : id ∈ members (keys.Delayed b) st) by (apply elem_of_members; by eexists).
  apply NoDup_app in Hnd as (_ & Hlz & Hz). destruct Hr as [Hr|[Hr|Hr]].
  1-2: apply (Hlz id); rewrite !elem_of_app; auto.
  apply NoDup_app in Hz as (_ & Hz & _). apply (Hz id); [done|]. rewrite elem_of_app. left. by apply elem_of_members.
Qed.

Lemma moveToActive_releases o ks args st :
  keyed ks [(1%nat, W); (2%nat, A); (3%nat, P); (7%nat, keys.Delayed b)] →
  legacy_marker id = false → id ∈ released (default 0 (num (argv args 2))) st →
  runnable (moveToActive o ks args st).1.2.
Proof.
  intros Hk Hm Hid. unfold moveToActive. use_keys Hk.
  apply (λ Hh : hoare (λ st', st' = st) _ (λ _, runnable), Hh st eq_refl).
  eapply hoare_bind; [by apply admission_releases|]. intros [[stopped mj] expire].
  unfold getNextDelayedTimestamp.
  match goal with |- hoare _ ?m _ => change (retains m) end. retains_solve.
Qed.
End release.

Section release_system.
Context `{Codec} `{GoArch} `{CronLib} {T : Type} `{Payload T}.
Variable cjson : any → string.
Variable q : Queue.
Abbreviation b := (q_keys q).
Abbreviation reachable := (reachable (T := T) cjson q).
Abbreviation perform := (perform (T := T) cjson q).

(** C10. A delay ends. In every interleaving of everything
    that goes on on a queue: when a worker asks for a job at the millisecond
    [ts], then whatever it is answered, even on a paused queue or beyond the rate
    limit or when the answer gets lost, every job that was held back until [ts]
    or earlier, of which a call sees to a thousand, is held back no longer: it
    waits, with or without a priority, or is active. *)
Theorem delays_end st s i o lost s' args id :
  at_rest q st → reachable st s → perform (Serve i o lost) s = Some s' →
  serves (T := T) (Serve i o lost) s = Some (MoveToActive, args) →
  id ∈ released b (default 0 (num (argv args 2))) (redis s) →
  runnable b id (redis s') ∧ ∀ score, ¬ held_back b id score (redis s').
Proof.
  intros [Hi Hl] Hr Hp Hs Hid. pose proof (reachable_ok cjson q st s Hi Hl Hr) as Hok.
  assert (Ha : allowed (T := T) q (Serve i o lost) s) by (unfold allowed; by rewrite Hs).
  pose proof (reach_step cjson q st s (Serve i o lost) s' Hr Ha Hp) as Hr'. apply reachable_ok in Hr'; [|done..].
  assert (Hrun : runnable b id (redis s')).
  { cbn [serves Concurrent.perform] in *. destruct (gos s !! i) as [[[|r k] own]|] eqn:Hg; try done. destruct r; try done.
    injection Hs as -> ->. destruct (ok_code _ _ Hok i _ Hg) as [[Hc _] _]. cbn [proper_call script] in *.
    assert (Hm : legacy_marker id = false).
    { destruct (released_held b id _ _ Hid) as [score Hh]. apply (inv_marker _ _ _ (ok_store _ _ Hok)).
      apply (inv_jobs _ _ _ (ok_store _ _ Hok)). cbn. apply (ids_member _ (keys.Delayed b)); [auto with lua | by eexists]. }
    assert (Hk : keyed keys [(1%nat, keys.Wait b); (2%nat, keys.Active b); (3%nat, keys.Prioritized b); (7%nat, keys.Delayed b)]).
    { repeat (apply Forall_cons in Hc as [? Hc]). by repeat constructor. }
    pose proof (moveToActive_releases b id o keys args (redis s) Hk Hm Hid) as Hrel. unfold mbind, Lua_bind in Hp.
    destruct (moveToActive o keys args (redis s)) as [[v st1] es]. by injection Hp as <-. }
  split; [done|]. intros score. apply runnable_not_held; [apply Hr' | done].
Qed.
End release_system.

Lemma delay_starts_witness :
  let sv := redis_at (H := treeMsgpack) (H0 := treeCodec) sampleJson plainOracle (1700000000000 * Millisecond) in
  let add := Add (H := treeMsgpack) (H0 := amd64) (H1 := rawPayload) sampleQueue "[1]" [WithDelay (90 * Second)] in
  Job_ID <$> (result sv add emptyStore).1 = Some "1" ∧ (result sv add emptyStore).2 = None ∧
  ∃ score, held_back (q_keys sampleQueue) "1" score (world sv add emptyStore) ∧ score / 0x1000 = 1700000090000.
Proof.
  apply (delay_starts (H := treeMsgpack) (H0 := treeCodec) (H1 := treePacks) (H2 := amd64) (H3 := rawPayload)
    sampleJson plainOracle sampleQueue (1700000000000 * Millisecond) emptyStore "[1]" "[1]" [WithDelay (90 * Second)]);
    try reflexivity; repeat split; by vm_compute.
Defined.

Section sample.
#[local] Existing Instance treeMsgpack.
#[local] Existing Instance treeCodec.
#[local] Existing Instance amd64.
#[local] Existing Instance hourly.
#[local] Existing Instance rawPayload.
Abbreviation sb := (q_keys sampleQueue).

(** A job is added with a delay, and an administrator is about to promote it. *)
Definition delayActs : list (action (T := string)) :=
  let acts := [Spawn (PAdd "order-1" [WithDelay (90 * Second)]); Spawn (PPromote "1")] in
  match runs (T := string) sampleJson sampleQueue acts (starts emptyStore) with
  | Some s => acts ++ plan sampleJson sampleQueue 20 0 "t0" plainOracle s
  | None => acts
  end.

Lemma delayActs_allowed : Forall (spawns sampleQueue) delayActs.
Proof.
  unfold delayActs. destruct (runs _ _ _ _); [|by repeat constructor]. apply Forall_app.
  split; [by repeat constructor | apply plan_allowed].
Qed.

Definition due_of (id : string) (s : sys) : option Z := zget (keys.Delayed sb) (redis s) !! id.

Lemma delays_respected_witness :
  ∃ s s' score call, perform sampleJson sampleQueue (Serve 1 plainOracle None) s = Some s' ∧
    held_back sb "1" score (redis s) ∧ score / 0x1000 = 1700000090000 ∧ ¬ held_back sb "1" score (redis s') ∧
    serves (T := string) (Serve 1 plainOracle None) s = Some call ∧ may_release "1" score call.
Proof.
  destruct (sample_reachable delayActs) as (s & E & Hr); [by vm_compute | apply delayActs_allowed|].
  assert (Hj : due_of "1" s = Some (1700000090000 * 0x1000)) by (apply (sample_value (due_of "1") _ _ _ E); by vm_compute).
  assert (Hp : due_of "1" <$> perform sampleJson sampleQueue (Serve 1 plainOracle None) s = Some None).
  { apply (sample_value (λ s, due_of "1" <$> perform sampleJson sampleQueue (Serve 1 plainOracle None) s) _ _ _ E).
    by vm_compute. }
  assert (Ha : allowed (T := string) sampleQueue (Serve 1 plainOracle None) s).
  { apply anytime_allowed; [done|]. apply (sample_value (anytime (Serve 1 plainOracle None)) _ _ _ E). by vm_compute. }
  apply fmap_Some in Hp as (s' & E' & Hb). exists s, s', (1700000090000 * 0x1000).
  assert (Hn : ¬ held_back sb "1" (1700000090000 * 0x1000) (redis s')).
  { unfold held_back. unfold due_of in Hb. rewrite <-Hb. discriminate. }
  destruct (delays_respected (T := string) sampleJson sampleQueue emptyStore s (Serve 1 plainOracle None) s' "1" _
    sample_rest Hr Ha E' Hj Hn) as (call & Hc & Hd).
  exists call. exact (conj E' (conj Hj (conj eq_refl (conj Hn (conj Hc Hd))))).
Defined.

(** The job is added when the clock shows [early], and a worker asks for one two
    minutes later. *)
Definition at_clock (now : Z) (a : action (T := string)) : action :=
  match a with
  | Answer i ans n => Answer i (λ r, match r return resp r with RNow => now | r => ans r end) n
  | a => a
  end.

Definition lateActs (n : nat) : list (action (T := string)) :=
  let acts := [Spawn (PAdd "order-1" [WithDelay (90 * Second)]); Spawn (PDispatch sampleWorker 1)] in
  match runs (T := string) sampleJson sampleQueue acts (starts emptyStore) with
  | None => acts
  | Some s =>
      let acts := acts ++ (at_clock (1699999880000 * Millisecond) <$> plan sampleJson sampleQueue 20 0 "t0" plainOracle s) in
      match runs (T := string) sampleJson sampleQueue acts (starts emptyStore) with
      | None => acts
      | Some s => acts ++ plan sampleJson sampleQueue n 1 "t1" plainOracle s
      end
  end.

Lemma lateActs_allowed n : Forall (spawns sampleQueue) (lateActs n).
Proof.
  unfold lateActs. destruct (runs _ _ _ _) as [s|]; [|by repeat constructor].
  set (acts := _ ++ _ : list action). assert (Forall (spawns sampleQueue) acts) as Hacts.
  { apply Forall_app. split; [by repeat constructor|]. apply Forall_fmap, (Forall_impl (spawns sampleQueue)); [apply plan_allowed|].
    by intros []. }
  destruct (runs _ _ acts _); [|done]. apply Forall_app. split; [done | apply plan_allowed].
Qed.

(** The call, as far as a test can see it. *)
Definition asked (s : sys) : option (ScriptName * option Z) :=
  (λ c, (c.1, num (argv c.2 2))) <$> serves (T := string) (Serve 1 plainOracle None) s.

Lemma delays_end_witness :
  ∃ s s', perform sampleJson sampleQueue (Serve 1 plainOracle None) s = Some s' ∧
    due_of "1" s = Some (1699999970000 * 0x1000) ∧ runnable sb "1" (redis s') ∧ due_of "1" s' = None.
Proof.
  destruct (sample_reachable (lateActs 3)) as (s & E & Hr); [by vm_compute | apply lateActs_allowed|].
  assert (Hd : due_of "1" s = Some (1699999970000 * 0x1000)) by (apply (sample_value (due_of "1") _ _ _ E); by vm_compute).
  assert (Hp : isSome (perform sampleJson sampleQueue (Serve 1 plainOracle None) s) = true).
  { apply (sample_value (λ s, isSome (perform sampleJson sampleQueue (Serve 1 plainOracle None) s)) _ _ _ E). by vm_compute. }
  assert (Hc : asked s = Some (MoveToActive, Some 1700000000000)) by (apply (sample_value asked _ _ _ E); by vm_compute).
  assert (Hj : released sb 1700000000000 (redis s) = ["1"]).
  { apply (sample_value (λ s, released sb 1700000000000 (redis s)) _ _ _ E). by vm_compute. }
  destruct (perform sampleJson sampleQueue (Serve 1 plainOracle None) s) as [s'|] eqn:E'; [|done].
  unfold asked in Hc. destruct (serves (Serve 1 plainOracle None) s) as [[n args]|] eqn:Es; [|done].
  injection Hc as -> Ht.
  assert (Hin : "1" ∈ released sb (default 0 (num (argv args 2))) (redis s)) 
    by (rewrite Ht; change ("1" ∈ released sb 1700000000000 (redis s)); rewrite Hj; by left).
  destruct (delays_end (T := string) sampleJson sampleQueue emptyStore s 1 plainOracle None s' args "1"
    sample_rest Hr E' Es Hin) as [Hrun Hno].
  exists s, s'. split; [exact E'|]. split; [exact Hd|]. split; [exact Hrun|].
  unfold due_of. destruct (zget (keys.Delayed sb) (redis s') !! "1") as [x|] eqn:Ex; [|done].
  exfalso. exact (Hno x Ex).
Defined.
End sample.
