(* ===== verification/Lifecycle.v ===== *)
(** * The life of a job across attempts

    A worker with its handler, against the scripts of [Redis] run on one store: a
    job that is the only one its queue has to offer is taken, run, put back,
    delayed, taken again when it is due, and in the end completed or failed. What
    becomes of it, how many attempts are on record and how often the handler ran
    are those of an abstract life that knows nothing of stores and scripts. *)

From S2P Require Import Prelude GoLib Keys Backoff Effects Json Jobs Proto Cron Config Finalise Worker Queue Inspect Redis RedisInv Fencing Concurrent Delivery Order.
Import lua.

(** ** The HASH of the job *)

(** What an attempt leaves alone. *)
Definition keeps (h h' : gmap string string) : Prop :=
  ∀ f, f ∈ ["opts"; "data"; "rjk"; "defa"] → h' !! f = h !! f.

(** The attempts on record. *)
Definition made (h : gmap string string) : Z := parseInt (hget h "atm").

(** Fields other than these. *)
Definition incidental (f : string) : Prop := f ∉ ["opts"; "data"; "rjk"; "defa"; "atm"].

#[export] Instance incidental_dec f : Decision (incidental f).
Proof. unfold incidental. apply _. Defined.

Lemma keeps_refl h : keeps h h.
Proof. by intros f _. Qed.

Lemma keeps_trans h1 h2 h3 : keeps h1 h2 → keeps h2 h3 → keeps h1 h3.
Proof. intros H12 H23 f Hf. by rewrite H23, H12. Qed.

Lemma keeps_insert h h' f v : f ∉ ["opts"; "data"; "rjk"; "defa"] → keeps h h' → keeps h (<[f := v]> h').
Proof. intros Hf Hk g Hg. rewrite lookup_insert_ne; [by apply Hk | by intros ->]. Qed.

Lemma made_insert h f v : f ≠ "atm" → made (<[f := v]> h) = made h.
Proof. intros Hf. unfold made, hget. by rewrite lookup_insert_ne. Qed.

Lemma made_incr h : in64 (made h + 1) → made (<["atm" := FormatInt (parseInt (hget h "atm") + 1)]> h) = made h + 1.
Proof.
  intros Hr. unfold made at 1, hget at 1. rewrite lookup_insert_eq. cbn [default from_option id].
  unfold parseInt at 1. fold (made h). pose proof (ParseInt_FormatInt _ Hr) as E.
  destruct (String.eqb_spec (FormatInt (made h + 1)) "") as [E0|]; [by rewrite E0 in E|]. by rewrite E.
Qed.

Section store.
Context `{Codec}.
Variable o : oracle.
Variable q : Queue.
Variable jobID : string.
Hypothesis Hid : plain_id q jobID.
#[local] Set Default Proof Using "Type*".
Abbreviation b := (q_keys q).
Abbreviation jobKey := (keys.Job b jobID).

(** ** Where the job is *)

(** The queue is neither paused nor capped; this waits, that is prioritized, that
    is delayed. *)
Record offers (ws : list string) (ps ds : gmap string Z) (st : store) : Prop := mkOffers {
  of_paused : hgetall (keys.Meta b) st !! "paused" = None;
  of_concurrency : hgetall (keys.Meta b) st !! "concurrency" = None;
  of_max : hgetall (keys.Meta b) st !! "max" = None;
  of_wait : lget (keys.Wait b) st = ws;
  of_prioritized : zget (keys.Prioritized b) st = ps;
  of_delayed : zget (keys.Delayed b) st = ds;
}.

(** The HASH of the job: that of [h] where it matters, with [m] attempts made. *)
Definition carries (h : gmap string string) (m : Z) (st : store) : Prop :=
  let h' := hgetall jobKey st in keeps h h' ∧ made h' = m ∧ h' ≠ ∅.

(** It can be taken at once, it can be taken when it is due, it is in hand, or
    nothing can be taken. *)
Definition runnable (st : store) : Prop := offers [jobID] ∅ ∅ st ∨ ∃ s, offers [] {[jobID := s]} ∅ st.
Definition later (s : Z) (st : store) : Prop := 0 ≤ s ∧ offers [] ∅ {[jobID := s]} st.
Definition up (st : store) : Prop := runnable st ∨ ∃ s, later s st.
Abbreviation idle := (offers [] ∅ ∅).

Definition held (token : string) (st : store) : Prop :=
  idle st ∧ locks st !! lockKey jobKey = Some token ∧ jobID ∈ lget (keys.Active b) st.

(** ** What leaves the queue and the HASH alone *)

Lemma offers_hset ws ps ds k h st : k ≠ keys.Meta b → offers ws ps ds st → offers ws ps ds (hset k h st).
Proof. intros Hk []. split; try done; by rewrite hgetall_hset, bool_decide_eq_false_2. Qed.

Lemma offers_hdel ws ps ds k st : offers ws ps ds st → offers ws ps ds (hdel k st).
Proof. intros []. split; try done; rewrite hgetall_hdel; by case_bool_decide. Qed.

Lemma offers_lset ws ps ds k l st : k ≠ keys.Wait b → offers ws ps ds st → offers ws ps ds (lset k l st).
Proof. intros Hk []. split; try done. by rewrite lget_lset, bool_decide_eq_false_2. Qed.

Lemma offers_zset ws ps ds k z st :
  k ≠ keys.Prioritized b → k ≠ keys.Delayed b → offers ws ps ds st → offers ws ps ds (zset k z st).
Proof. intros H1' H2' []. split; try done; by rewrite zget_zset, bool_decide_eq_false_2. Qed.

Lemma offers_wait ws ps ds l st : offers ws ps ds st → offers l ps ds (lset (keys.Wait b) l st).
Proof. intros []. split; try done. by rewrite lget_lset, bool_decide_eq_true_2. Qed.

Lemma offers_prioritized ws ps ds z st : offers ws ps ds st → offers ws z ds (zset (keys.Prioritized b) z st).
Proof.
  intros []. split; try done; rewrite zget_zset; [by rewrite bool_decide_eq_true_2|].
  by rewrite bool_decide_eq_false_2 by by intros ?%sapp_inv_head.
Qed.

Lemma offers_delayed ws ps ds z st : offers ws ps ds st → offers ws ps z (zset (keys.Delayed b) z st).
Proof.
  intros []. split; try done; rewrite zget_zset; [|by rewrite bool_decide_eq_true_2].
  by rewrite bool_decide_eq_false_2 by by intros ?%sapp_inv_head.
Qed.

Lemma offers_maxEvents ws ps ds : hoare (offers ws ps ds) (getOrSetMaxEvents (keys.Meta b)) (λ _, offers ws ps ds).
Proof.
  intros st []. unfold getOrSetMaxEvents, HGET, gets, mbind, Lua_bind.
  destruct (hgetall (keys.Meta b) st !! "opts.maxLenEvents"); [done|]. unfold HMSET, modify. cbn [fst snd foldl].
  split; try done; rewrite hgetall_hset, bool_decide_eq_true_2 by done; by rewrite lookup_insert_ne.
Qed.

Lemma carries_same h m st st' : hashes st' = hashes st → carries h m st → carries h m st'.
Proof. unfold carries, hgetall. by intros ->. Qed.

Lemma carries_maxEvents h m : hoare (carries h m) (getOrSetMaxEvents (keys.Meta b)) (λ _, carries h m).
Proof.
  intros st Hc. unfold getOrSetMaxEvents, HGET, gets, mbind, Lua_bind.
  destruct (hgetall (keys.Meta b) st !! "opts.maxLenEvents"); [done|]. unfold HMSET, modify, carries. cbn [fst snd].
  by rewrite hgetall_hset, bool_decide_eq_false_2 by (apply not_eq_sym, Hid).
Qed.

(** Other fields of the HASH are written. *)
Lemma carries_fields h m kvs st :
  Forall (λ kv, incidental kv.1) kvs → carries h m st →
  carries h m (hset jobKey (foldl (λ h kv, <[kv.1 := kv.2]> h) (hgetall jobKey st) kvs) st).
Proof.
  intros Hf (Hk & Hm & Hn). unfold carries. rewrite hgetall_hset, bool_decide_eq_true_2 by done. revert Hk Hm Hn.
  generalize (hgetall jobKey st) as h'. induction Hf as [|[f v] kvs Hx _ IH]; intros h' Hk Hm Hn; [done|]. cbn [foldl fst snd] in *.
  unfold incidental in Hx. apply IH; [apply keeps_insert; [set_solver | done] | rewrite made_insert; [done | set_solver] | apply insert_non_empty].
Qed.

Lemma carries_atm h m : in64 (m + 1) → hoare (carries h m) (HINCRBY jobKey "atm") (λ _, carries h (m + 1)).
Proof.
  intros Hm st (Hk & <- & Hn). unfold HINCRBY, carries. cbn [fst snd].
  rewrite hgetall_hset, bool_decide_eq_true_2 by done. split_and!; [|by apply made_incr | apply insert_non_empty].
  apply keeps_insert; [|done]. apply (bool_decide_unpack _). by vm_compute.
Qed.

(** Job [h] with [m] attempts, in a queue with [P]. *)
Definition with_job (h : gmap string string) (m : Z) (P : store → Prop) (st : store) : Prop := P st ∧ carries h m st.

Lemma job_fields h m ws ps ds kvs :
  Forall (λ kv, incidental kv.1) kvs →
  hoare (with_job h m (offers ws ps ds)) (HMSET jobKey kvs) (λ _, with_job h m (offers ws ps ds)).
Proof.
  intros Hf. apply hoare_modify. intros st [Ho Hc]. split; [apply offers_hset; [apply Hid | done] | by apply carries_fields].
Qed.

Lemma job_atm h m ws ps ds :
  in64 (m + 1) → hoare (with_job h m (offers ws ps ds)) (HINCRBY jobKey "atm") (λ _, with_job h (m + 1) (offers ws ps ds)).
Proof.
  intros Hm st [Ho Hc]. split; [|by apply carries_atm]. unfold HINCRBY. cbn [fst snd]. apply offers_hset; [apply Hid | done].
Qed.

Lemma job_maxEvents h m ws ps ds :
  hoare (with_job h m (offers ws ps ds)) (getOrSetMaxEvents (keys.Meta b)) (λ _, with_job h m (offers ws ps ds)).
Proof. intros st [Ho Hc]. split; [by apply offers_maxEvents | by apply carries_maxEvents]. Qed.

(** ** Taking the job *)

Lemma zsorted_singleton (x : string) (s : Z) : zsorted {[x := s]} = [(x, s)].
Proof. unfold zsorted. by rewrite map_to_list_singleton. Qed.

Lemma idle_flows ws ps st : offers ws ps ∅ st → flowing q st.
Proof. by intros []. Qed.

(** A job that is due is moved to where it can be taken. *)
Lemma promote_due h m s ts :
  s / 0x1000 ≤ ts →
  hoare (with_job h m (later s))
    (promoteDelayedJobs (keys.Delayed b) (keys.Wait b) (keys.Prioritized b) (keys.Base b) ts (keys.PriorityCounter b))
    (λ _, with_job h m runnable).
Proof.
  intros Hts. unfold promoteDelayedJobs.
  eapply hoare_bind with (R := λ jobs st, jobs = [jobID] ∧ with_job h m (offers [] ∅ {[jobID := s]}) st).
  { intros st [[Hs Ho] Hc]. split; [|done]. cbn [gets fst]. rewrite (of_delayed _ _ _ _ Ho). unfold due.
    rewrite zsorted_singleton, filter_cons_True; [done|]. cbn. pose proof (Z.div_mod s 4096 ltac:(lia)).
    pose proof (Z.mod_pos_bound s 4096 ltac:(lia)). lia. }
  intros jobs. apply hoare_pure. intros ->. cbn [ZREM_all promote_each].
  eapply hoare_bind with (R := λ _, with_job h m idle).
  { eapply hoare_bind; [|intros ?; apply hoare_ret; intros ? HR; exact HR].
    intros st [Ho Hc]. unfold ZREM. rewrite (of_delayed _ _ _ _ Ho), bool_decide_eq_true_2 by (rewrite lookup_singleton_eq; done).
    cbn [fst snd]. rewrite delete_singleton_eq. split; [by eapply offers_delayed | done]. }
  intros _. change (keys.Base b +:+ jobID) with jobKey. eapply hoare_bind; [apply hoare_read|]. intros p.
  eapply hoare_bind with (R := λ _, with_job h m runnable).
  { destruct (tonumber p =? 0).
    - apply hoare_modify. intros st [Ho Hc]. split; [left | done]. rewrite (of_wait _ _ _ _ Ho). by eapply offers_wait.
    - unfold addJobWithPriority, getPriorityScore. intros st [Ho Hc]. unfold INCR, ZADD, modify, mret, Lua_ret, mbind, Lua_bind. cbn [fst snd].
      set (st1 := with_nums _ st). split; [right | done]. eexists. change (zget (keys.Prioritized b) st1) with (zget (keys.Prioritized b) st).
      rewrite (of_prioritized _ _ _ _ Ho). rewrite insert_empty. eapply offers_prioritized with (ps := ∅). destruct Ho. by split. }
  intros _. eapply hoare_bind; [|intros ?; apply hoare_ret; intros ? HR; exact HR].
  apply hoare_modify. intros st [Ho Hc]. split; [|apply carries_fields; [by repeat constructor; apply (bool_decide_unpack _); vm_compute | done]].
  destruct Ho as [Ho|[s' Ho]]; [left | right; exists s']; (apply offers_hset; [apply Hid | done]).
Qed.

(** The job can be taken at [ts]. *)
Definition due_by (ts : Z) (st : store) : Prop := runnable st ∨ ∃ s, later s st ∧ s / 0x1000 ≤ ts.

Lemma admit_due h m ts opts :
  num (field (field opts "limiter") "max") = None →
  hoare (with_job h m (due_by ts))
    (admission o (keys.Meta b) (keys.Active b) (keys.Delayed b) (keys.Wait b) (keys.Prioritized b) (keys.Base b) ts
      (keys.PriorityCounter b) (keys.Limiter b) opts)
    (λ a st, a = (false, None, 0) ∧ with_job h m runnable st).
Proof.
  intros Hl st [[Hr|(s & Hs & Hts)] Hc].
  { assert (flowing q st) as Hf by (destruct Hr as [Hr|[s Hr]]; by eapply idle_flows). by rewrite (admit_flows o q). }
  revert st Hs Hc. enough (Hh : hoare (with_job h m (later s)) (admission o (keys.Meta b) (keys.Active b) (keys.Delayed b) (keys.Wait b)
    (keys.Prioritized b) (keys.Base b) ts (keys.PriorityCounter b) (keys.Limiter b) opts)
    (λ a st, a = (false, None, 0) ∧ with_job h m runnable st)) by (intros st Hs Hc; by apply Hh).
  unfold admission.
  eapply hoare_bind with (R := λ a st, a = false ∧ with_job h m (later s) st).
  { intros st [[Hs Ho] Hc]. unfold isQueuePausedOrMaxed, HGET, LLEN, gets, mbind, Lua_bind, mret, Lua_ret.
    by rewrite (of_paused _ _ _ _ Ho), (of_concurrency _ _ _ _ Ho). }
  intros a. apply hoare_pure. intros ->.
  eapply hoare_bind with (R := λ x st, x = None ∧ with_job h m (later s) st).
  { intros st [[Hs Ho] Hc]. unfold HGET, gets. by rewrite (of_max _ _ _ _ Ho). }
  intros x. apply hoare_pure. intros ->. eapply hoare_bind; [by apply promote_due|]. intros ?. rewrite Hl.
  apply hoare_known. by apply hoare_ret.
Qed.

(** The job has been taken out of where it was. *)
Definition taken (st : store) : Prop := idle st ∧ jobID ∈ lget (keys.Active b) st.

Lemma taken_push ws ps ds st :
  offers ws ps ds st → jobID ∈ lget (keys.Active b) (lset (keys.Active b) (jobID :: lget (keys.Active b) st) st) ∧
    offers ws ps ds (lset (keys.Active b) (jobID :: lget (keys.Active b) st) st).
Proof.
  intros Ho. split; [rewrite lget_lset, bool_decide_eq_true_2 by done; by left|].
  apply offers_lset; [by intros ?%sapp_inv_head | done].
Qed.

(** From the wait list, or not. *)
Definition popped h m (j : option string) (st : store) : Prop :=
  match j with
  | Some j => j = jobID ∧ with_job h m taken st
  | None => with_job h m (λ st, ∃ s, offers [] {[jobID := s]} ∅ st) st
  end.

Lemma pop_wait h m : hoare (with_job h m runnable) (RPOPLPUSH (keys.Wait b) (keys.Active b)) (popped h m).
Proof.
  intros st [[Ho|[s Ho]] Hc]; unfold RPOPLPUSH; rewrite (of_wait _ _ _ _ Ho); cbn [last length fst snd take Nat.sub].
  - split; [done|]. split; [|done]. apply (offers_wait _ _ _ []) in Ho. by destruct (taken_push _ _ _ _ Ho).
  - split; [by exists s | done].
Qed.

Lemma pop_prioritized h m :
  hoare (popped h m None) (moveJobFromPrioritizedToActive (keys.Prioritized b) (keys.Active b) (keys.PriorityCounter b))
    (λ j st, j = Some jobID ∧ with_job h m taken st).
Proof.
  intros st [[s Ho] Hc]. unfold moveJobFromPrioritizedToActive, ZPOPMIN, LPUSH, modify, mbind, Lua_bind.
  rewrite (of_prioritized _ _ _ _ Ho), zsorted_singleton. cbn [fst snd mret Lua_ret]. rewrite delete_singleton_eq.
  split; [done|]. split; [|done]. apply (offers_prioritized _ _ _ ∅) in Ho. by destruct (taken_push _ _ _ _ Ho).
Qed.

(** It is stamped and locked. *)
Lemma prepare_job h m limiter ts token opts :
  str (field opts "token") = token → token ≠ "0" →
  hoare (with_job h m taken)
    (prepareJobForProcessing (keys.Base b) limiter jobID ts None opts)
    (λ r st, r = AArr [AArr (flatten (map_to_list (hgetall jobKey st))); AStr jobID; AInt64 0; AInt64 0] ∧
      with_job h m (held token) st).
Proof.
  intros Ht Hz. unfold prepareJobForProcessing. cbv zeta. rewrite Ht. change (keys.Base b +:+ jobID) with jobKey.
  apply hoare_known. destruct (String.eqb_spec token "0"); [done|]. cbn [negb].
  assert (Hset : ∀ h' st, held token st → held token (hset jobKey h' st)).
  { intros h' st (Ho & Hr). split; [apply offers_hset; [apply Hid | done] | done]. }
  eapply hoare_bind with (R := λ _, with_job h m (held token)).
  { eapply hoare_bind; [|intros ?; apply hoare_emit]. apply hoare_modify. intros st [[Ho Ha] Hc]. split; [|done].
    split; [by destruct Ho|]. split; [|done]. cbn. by rewrite lookup_insert_eq. }
  intros _. apply hoare_keep.
  { apply hoare_modify. intros st [Hh Hc]. split; [by apply Hset|]. apply carries_fields; [|done].
    destruct (truthy _); repeat constructor; apply (bool_decide_unpack _); by vm_compute. }
  intros _. apply hoare_keep.
  { intros st [Hh Hc]. unfold HINCRBY. cbn [fst snd]. split; [by apply Hset|].
    apply (carries_fields h m [("ats", _)]); [|done]. repeat constructor. apply (bool_decide_unpack _). by vm_compute. }
  intros _. eapply hoare_bind; [apply hoare_gets|]. intros h'. apply hoare_ret. by intros st [Hw ->].
Qed.

Lemma take_due h m ts token opts :
  str (field (unpack opts) "token") = token → token ≠ "0" → num (field (field (unpack opts) "limiter") "max") = None →
  hoare (with_job h m (due_by ts))
    (moveToActive o (moveToActiveKeys (newQueueKeys q)) [AStr (keys.Base b); AInt64 ts; ABytes opts])
    (λ r st, r = AArr [AArr (flatten (map_to_list (hgetall jobKey st))); AStr jobID; AInt64 0; AInt64 0] ∧
      with_job h m (held token) st).
Proof.
  intros Ht Hz Hl. unfold moveToActive, moveToActiveKeys, key, argv. cbn -[admission prepareJobForProcessing].
  eapply hoare_bind; [by apply admit_due|]. intros a. apply hoare_pure. intros ->. cbn [Z.ltb Z.compare].
  eapply hoare_bind; [apply pop_wait|]. intros j. eapply hoare_bind with (R := popped h m).
  { destruct j as [j|]; [|by apply hoare_ret]. apply hoare_pure. intros ->. destruct Hid as (_ & Hm & _). rewrite Hm.
    by apply hoare_ret. }
  intros j'. eapply hoare_bind with (R := λ j st, j = Some jobID ∧ with_job h m taken st).
  { destruct j' as [j'|]; [|apply pop_prioritized]. apply hoare_pure. intros ->. by apply hoare_ret. }
  intros j''. apply hoare_pure. intros ->. by apply prepare_job.
Qed.

(** ** Letting go of the job *)

(** Packed fields that are none of those that matter. *)
Definition harmless_fields (packed : string) : Prop :=
  ∀ l, packed ≠ "" → unpack packed = AArr l → Forall (λ kv, incidental kv.1) (pairs l).

(** The part the scripts that end an attempt share. *)
Lemma hoare_leave h m token packed stalledKey (rest : Lua any) Q :
  token ≠ "0" → harmless_fields packed → hoare (with_job h m idle) rest Q →
  hoare (with_job h m (held token))
    (ex ← HEXISTS jobKey; if negb ex then mret (AInt64 (-1)) else
     code ← removeLock jobKey stalledKey token jobID; if code <? 0 then mret (AInt64 code) else
     _ ← updateJobFields jobKey packed;
     n ← LREM_tail (keys.Active b) jobID; if n <? 1 then mret (AInt64 (-3)) else rest) Q.
Proof.
  intros Hz Hf Hrest.
  eapply hoare_bind with (R := λ ex st, ex = true ∧ with_job h m (held token) st).
  { intros st [Hh Hc]. split; [|done]. cbn. apply bool_decide_eq_true. destruct Hc as (_ & _ & Hn). unfold hgetall in Hn.
    by destruct (hashes st !! jobKey). }
  intros ex. apply hoare_pure. intros ->. cbn [negb].
  eapply hoare_bind with (R := λ c st, c = 0 ∧ with_job h m taken st).
  { intros st [(Ho & Hk & Ha) Hc]. unfold removeLock. destruct (String.eqb_spec token "0"); [done|].
    unfold gets, mbind, Lua_bind. rewrite Hk, String.eqb_refl. cbn. split; [done|]. split; [|done]. split; [by destruct Ho | done]. }
  intros c. apply hoare_pure. intros ->. cbn [Z.ltb Z.compare]. apply hoare_keep.
  { unfold updateJobFields. destruct (String.eqb_spec packed ""); [by apply hoare_ret|].
    destruct (unpack packed) as [| | | | | | | | |l| |] eqn:E; try by apply hoare_ret. apply hoare_modify. intros st [[Ho Ha] Hc].
    split; [|by apply carries_fields; [apply Hf|]]. split; [apply offers_hset; [apply Hid | done] | done]. }
  intros _. eapply hoare_bind with (R := λ n st, n = 1 ∧ with_job h m idle st).
  { intros st [[Ho Ha] Hc]. unfold LREM_tail. rewrite bool_decide_eq_true_2 by done. cbn [fst snd]. split; [done|]. split; [|done].
    apply offers_lset; [by intros ?%sapp_inv_head | done]. }
  intros n. apply hoare_pure. by intros ->.
Qed.

(** The job goes back to where it can be taken at once. *)
Lemma push_back h m (prio : Z) cmd :
  hoare (with_job h m idle)
    (if prio =? 0 then pushCmd cmd (keys.Wait b) jobID
     else addJobWithPriority (keys.Prioritized b) prio jobID (keys.PriorityCounter b))
    (λ _, with_job h m runnable).
Proof.
  intros st [Ho Hc]. destruct (prio =? 0).
  - unfold pushCmd. destruct (String.eqb cmd "RPUSH"); unfold RPUSH, LPUSH, modify; cbn [fst snd];
      (split; [left | done]); rewrite (of_wait _ _ _ _ Ho); by eapply offers_wait.
  - unfold addJobWithPriority, getPriorityScore, INCR, ZADD, modify, mret, Lua_ret, mbind, Lua_bind. cbn [fst snd].
    set (st1 := with_nums _ st). split; [right | done]. eexists. change (zget (keys.Prioritized b) st1) with (zget (keys.Prioritized b) st).
    rewrite (of_prioritized _ _ _ _ Ho), insert_empty. eapply offers_prioritized with (ps := ∅). destruct Ho. by split.
Qed.

Lemma job_runnable {A} h m m' (c : Lua A) :
  (∀ ws ps, hoare (with_job h m (offers ws ps ∅)) c (λ _, with_job h m' (offers ws ps ∅))) →
  hoare (with_job h m runnable) c (λ _, with_job h m' runnable).
Proof.
  intros Hm st [[Ho|[s Ho]] Hc].
  - destruct (Hm _ _ st (conj Ho Hc)). split; [by left | done].
  - destruct (Hm _ _ st (conj Ho Hc)). split; [right; by exists s | done].
Qed.

Lemma no_delayed h m token st : with_job h m (held token) st → zget (keys.Delayed b) st = ∅.
Proof. intros [[Ho _] _]. apply Ho. Qed.

Lemma retry_job h m ts cmd token packed :
  token ≠ "0" → harmless_fields packed → in64 (m + 1) →
  hoare (with_job h m (held token))
    (retryJob (retryJobKeys (newQueueKeys q) jobID)
       [AStr (keys.Base b); AInt64 ts; AStr cmd; AStr jobID; AStr token; ABytes packed])
    (λ r st, r = AInt64 0 ∧ with_job h (m + 1) runnable st).
Proof.
  intros Hz Hf Hm. unfold retryJob, retryJobKeys, key, argv. cbn [str default from_option id lookup list_lookup Nat.sub num].
  eapply hoare_bind with (R := λ _, with_job h m (held token)).
  { intros st Hst. unfold promoteDelayedJobs, gets, mbind, Lua_bind.
    change (delayed (newQueueKeys q)) with (keys.Delayed b). by rewrite (no_delayed _ _ _ _ Hst). }
  intros _. apply (hoare_leave h m token packed (stalled (newQueueKeys q))); [done | done|].
  eapply hoare_bind; [apply hoare_read|]. intros p. eapply hoare_bind; [apply push_back|]. intros ?.
  eapply hoare_bind; [apply job_runnable; intros; by apply job_atm|]. intros ?.
  eapply hoare_bind; [apply job_runnable; intros; by apply job_maxEvents|]. intros ?. by apply hoare_ret.
Qed.

Lemma delay_job h m ts token d skip packed :
  0 ≤ ts → token ≠ "0" → harmless_fields (str packed) → in64 (m + 1) →
  hoare (with_job h m (held token))
    (moveToDelayed o (moveToDelayedKeys (newQueueKeys q) jobID)
       [AStr (keys.Base b); AInt64 ts; AStr jobID; AStr token; AInt64 d; AStr (if skip : bool then "1" else "0"); packed; AStr ""; AStr ""])
    (λ r st, r = AInt64 0 ∧ with_job h (if skip then m else m + 1) (λ st, ∃ s, later s st) st).
Proof.
  intros Hts Hz Hf Hm. unfold moveToDelayed, moveToDelayedKeys, key, argv.
  cbn [str default from_option id lookup list_lookup Nat.sub num].
  apply (hoare_leave h m token (str packed) (stalled (newQueueKeys q))); [done | done|].
  eapply hoare_bind with (R := λ s st, 0 ≤ s ∧ with_job h m idle st).
  { intros st [Ho Hc]. split; [|done]. unfold getDelayedScore, gets, mbind, Lua_bind, mret, Lua_ret. cbn [fst snd].
    change (delayed (newQueueKeys q)) with (keys.Delayed b). rewrite (of_delayed _ _ _ _ Ho).
    change (zsorted ∅) with (@nil (string * Z)). cbn [filter list_filter fmap list_fmap last]. destruct (Z.ltb_spec 0 d); lia. }
  intros s. apply hoare_pure. intros Hs.
  eapply hoare_bind with (R := λ _, with_job h (if skip then m else m + 1) idle).
  { destruct skip; cbn [String.eqb Ascii.eqb Bool.eqb]; [by apply hoare_ret|].
    eapply hoare_bind; [by apply job_atm|]. intros ?. by apply hoare_ret. }
  intros ?. eapply hoare_bind.
  { apply job_fields. repeat constructor. apply (bool_decide_unpack _). by vm_compute. }
  intros ?. eapply hoare_bind; [apply job_maxEvents|]. intros ?.
  eapply hoare_bind with (R := λ _, with_job h (if skip then m else m + 1) (λ st, ∃ s, later s st)).
  { apply hoare_modify. intros st [Ho Hc]. split; [|done]. exists s. split; [done|].
    change (delayed (newQueueKeys q)) with (keys.Delayed b). rewrite (of_delayed _ _ _ _ Ho), insert_empty. by eapply offers_delayed. }
  intros ?. cbn [String.eqb Ascii.eqb Bool.eqb]. apply hoare_known. by apply hoare_ret.
Qed.

(** ** The end of the job *)

(** It is in the set of its result, with [m] attempts on record. *)
Definition kept_in (set : string) (m : Z) (st : store) : Prop :=
  is_Some (zget set st !! jobID) ∧ made (hgetall jobKey st) = m.

(** Nothing can be taken any more, and the job is kept if it is to be. *)
Definition ended (set : string) (keep : Prop) (m : Z) (st : store) : Prop := idle st ∧ (keep → kept_in set m st).

Section finished.
Variable set : string.
Hypothesis Hset : set ≠ keys.Prioritized b ∧ set ≠ keys.Delayed b.

Lemma idle_expel jobs : hoare idle (expel set (keys.Base b) jobs) (λ _, idle).
Proof.
  induction jobs as [|j jobs IH]; cbn [expel]; [by apply hoare_ret|]. apply hoare_keep.
  { intros st Ho. unfold ZREM. case_bool_decide; [|done]. cbn [fst snd]. by apply offers_zset; [apply Hset..|]. }
  intros _. apply hoare_keep; [|intros _; exact IH]. apply hoare_modify. intros st. apply offers_hdel.
Qed.

Lemma idle_retain ts target prop value keep :
  hoare idle (retain set (keys.Base b) jobID jobKey ts target prop value keep) (λ _, idle).
Proof.
  unfold retain. cbv zeta. destruct (isZero _); [apply hoare_modify; intros st; apply offers_hdel|].
  assert (Hw : ∀ h st, idle st → idle (hset jobKey h st)) by (intros h st; apply offers_hset; apply Hid).
  apply hoare_keep; [apply hoare_modify; intros st; apply offers_zset; apply Hset|]. intros _.
  apply hoare_keep; [apply hoare_modify; intros st; apply Hw|]. intros _.
  apply hoare_keep; [destruct (String.eqb _ _); [apply hoare_modify; intros st; apply Hw | by apply hoare_ret]|]. intros _.
  apply hoare_keep.
  { destruct (num _); [|by apply hoare_ret]. eapply hoare_bind; [apply hoare_read|]. intros jobs. apply idle_expel. }
  intros _. destruct (num _); [|by apply hoare_ret]. destruct (0 <? _); [|by apply hoare_ret].
  eapply hoare_bind; [apply hoare_read|]. intros jobs. apply idle_expel.
Qed.

(** Without a retention the job is kept. *)
Lemma retain_kept h m ts target prop value keep :
  incidental prop → field keep "count" = ANil → field keep "age" = ANil →
  hoare (with_job h m idle) (retain set (keys.Base b) jobID jobKey ts target prop value keep) (λ _, kept_in set m).
Proof.
  intros Hp Hk1 Hk2 st [Ho (_ & <- & _)]. unfold retain. cbv zeta. rewrite Hk1, Hk2. cbn [num isZero].
  unfold incidental in Hp. assert (Hpa : prop ≠ "atm") by set_solver.
  unfold ZADD, HMSET, HDEL, modify, mbind, Lua_bind, mret, Lua_ret. cbn [fst snd foldl]. set (st1 := zset _ _ st).
  assert (Hz : is_Some (zget set st1 !! jobID)) by (unfold st1; by rewrite zget_zset, bool_decide_eq_true_2, lookup_insert_eq).
  unfold kept_in. destruct (String.eqb target "failed"); cbn [fst snd foldl]; (split; [exact Hz|]);
    rewrite !hgetall_hset, !bool_decide_eq_true_2 by done;
    change (hgetall jobKey st1) with (hgetall jobKey st); [|by rewrite !made_insert].
  unfold made at 1, hget. rewrite lookup_delete_ne by done. by rewrite !lookup_insert_ne.
Qed.

Lemma retain_job h m ts target prop value keep :
  incidental prop →
  hoare (with_job h m idle) (retain set (keys.Base b) jobID jobKey ts target prop value keep)
    (λ _, ended set (field keep "count" = ANil ∧ field keep "age" = ANil) m).
Proof.
  intros Hp st Hst. split; [by apply idle_retain, Hst|]. intros [Hk1 Hk2]. by eapply retain_kept.
Qed.
End finished.

(** Asking an idle queue for a job. *)
Lemma fetch_idle ts opts st :
  num (field (field opts "limiter") "max") = None → idle st →
  (fetchNextJob o (keys.Wait b) (keys.Active b) (keys.Prioritized b) (keys.Limiter b) (keys.Delayed b) (keys.Meta b)
     (keys.PriorityCounter b) (keys.Base b) ts opts st).1 = (None, with_nums (delete (keys.PriorityCounter b)) st).
Proof.
  intros Hl Ho. unfold fetchNextJob, mbind, Lua_bind. rewrite (admit_flows o q) by (done || by eapply idle_flows).
  cbn [Z.ltb Z.compare]. unfold RPOPLPUSH. rewrite (of_wait _ _ _ _ Ho). cbn [last].
  unfold moveJobFromPrioritizedToActive, ZPOPMIN, mbind, Lua_bind. rewrite (of_prioritized _ _ _ _ Ho).
  change (zsorted ∅) with (@nil (string * Z)). cbn [modify mret Lua_ret].
  unfold getNextDelayedTimestamp, gets. change (zget (keys.Delayed b) (with_nums ?f st)) with (zget (keys.Delayed b) st).
  by rewrite (of_delayed _ _ _ _ Ho).
Qed.

Lemma ended_nums f set keep m st : ended set keep m st → ended set keep m (with_nums f st).
Proof. intros [[] Hk]. by split. Qed.

Definition result_set (target : string) : string := if String.eqb target "failed" then keys.Failed b else keys.Completed b.

Lemma finish_job h m ts prop val target flag token opts packed :
  str (field (unpack opts) "token") = token → token ≠ "0" → num (field (field (unpack opts) "limiter") "max") = None →
  harmless_fields packed → incidental prop → in64 (m + 1) →
  let keep := field (unpack opts) "keepJobs" in
  hoare (with_job h m (held token))
    (moveToFinished o (moveToFinishedKeys (newQueueKeys q) jobID target)
       [AStr jobID; AInt64 ts; AStr prop; AStr val; AStr target; AStr flag; AStr (keys.Base b); ABytes opts; ABytes packed])
    (λ r st, r = AInt64 0 ∧
       ended (result_set target) (field keep "count" = ANil ∧ field keep "age" = ANil) (m + 1) st).
Proof.
  intros Ht Hz Hl Hf Hp Hm. cbv zeta.
  set (ks := moveToFinishedKeys _ _ _).
  assert (Hks : keyed ks [(1%nat, keys.Wait b); (2%nat, keys.Active b); (3%nat, keys.Prioritized b);
    (6%nat, keys.Limiter b); (7%nat, keys.Delayed b); (9%nat, keys.Meta b); (10%nat, keys.PriorityCounter b);
    (11%nat, result_set target); (12%nat, jobKey)])
    by (unfold ks, moveToFinishedKeys, result_set; destruct (String.eqb target "failed"); by repeat constructor).
  assert (Hset : result_set target ≠ keys.Prioritized b ∧ result_set target ≠ keys.Delayed b)
    by (unfold result_set; destruct (String.eqb target "failed"); by split; intros ?%sapp_inv_head).
  unfold moveToFinished. use_keys Hks. unfold argv. cbn [str default from_option id lookup list_lookup Nat.sub num]. rewrite Ht.
  apply hoare_leave; [done | done|].
  eapply hoare_bind; [apply job_maxEvents|]. intros ?. eapply hoare_bind; [apply hoare_read|]. intros deid.
  apply hoare_keep.
  { unfold dropDedupOnFinish. destruct deid as [d|]; [|by apply hoare_ret].
    assert (Hs : ∀ f, hoare (with_job h m idle) (modify (with_strs f)) (λ _, with_job h m idle)).
    { intros f. apply hoare_modify. intros st [[] Hc]. by split. }
    destruct (o_pttl o =? 0); [apply Hs|]. destruct (o_pttl o =? -1); [|by apply hoare_ret].
    eapply hoare_bind; [apply hoare_read|]. intros c. case_bool_decide; [apply Hs | by apply hoare_ret]. }
  intros _. eapply hoare_bind; [by apply job_atm|]. intros ?. eapply hoare_bind; [by apply retain_job|]. intros ?.
  destruct (String.eqb flag "1"); [|by apply hoare_ret].
  eapply hoare_bind with (R := λ r st, r = None ∧ ended (result_set target) _ (m + 1) st).
  { intros st He. rewrite fetch_idle by (done || apply He). split; [done|]. by apply ended_nums. }
  intros r. apply hoare_pure. intros ->. by apply hoare_ret.
Qed.

(** Nothing is there to be taken. *)
Lemma take_nothing ts opts st :
  num (field (field (unpack opts) "limiter") "max") = None → idle st →
  (moveToActive o (moveToActiveKeys (newQueueKeys q)) [AStr (keys.Base b); AInt64 ts; ABytes opts] st).1 =
    (nothing 0 0, with_nums (delete (keys.PriorityCounter b)) st).
Proof.
  intros Hl Ho. unfold moveToActive, moveToActiveKeys, key, argv. cbn -[admission RPOPLPUSH].
  unfold mbind, Lua_bind. rewrite (admit_flows o q) by (done || by eapply idle_flows).
  cbn [Z.ltb Z.compare]. unfold RPOPLPUSH. change (wait (newQueueKeys q)) with (keys.Wait b). rewrite (of_wait _ _ _ _ Ho).
  cbn [last mret Lua_ret]. unfold moveJobFromPrioritizedToActive, ZPOPMIN, mbind, Lua_bind.
  change (prioritized (newQueueKeys q)) with (keys.Prioritized b). rewrite (of_prioritized _ _ _ _ Ho).
  change (zsorted ∅) with (@nil (string * Z)). cbn [modify mret Lua_ret].
  cbn. change (zget (keys.Delayed b) (with_nums ?f st)) with (zget (keys.Delayed b) st).
  by rewrite (of_delayed _ _ _ _ Ho).
Qed.
End store.

(** ** The worker's environment *)

Record env := mkEnv {
  db : store;
  clock : Z;                        (* nanoseconds *)
  serial : Z;                       (* of the last token *)
  outcomes : list handler_result;   (* what the handler will do *)
  runs : nat;                       (* how often it ran *)
}.

Definition tokenOf (s : Z) : string := "token-" +:+ FormatInt s.

Definition at_time (e : env) (c : Z) : env := mkEnv (db e) c (serial e) (outcomes e) (runs e).

Section life.
Context `{Codec} `{!Packs} `{GoArch} `{CronLib} {T : Type} `{Payload T}.
Variable cjson : any → string.
Variable o : oracle.
Variable q : Queue.
Variable w : Worker.
Variable jobID : string.
(** The clock when it has been read. *)
Variable lapse : Z → Z.
Abbreviation b := (q_keys q).
Abbreviation jobKey := (keys.Job b jobID).

(** One Redis under the scripts, a clock, fresh tokens and a handler that will do
    as it is told. *)
Definition serve : server env := λ e r,
  match r as r0 return resp r0 * env with
  | RNow => (clock e, at_time e (lapse (clock e)))
  | RUuid => (tokenOf (serial e + 1), mkEnv (db e) (clock e) (serial e + 1) (outcomes e) (runs e))
  | RScript _ n ks args =>
      let '(v, st, _) := script cjson o n ks args (db e) in (v, mkEnv st (clock e) (serial e) (outcomes e) (runs e))
  | RHGet _ k f => (match hgetall k (db e) !! f with Some v => inr v | None => inl (ESent RedisNil) end, e)
  | RHandler _ _ =>
      match outcomes e with
      | [] => (HReturn (inr "null"), mkEnv (db e) (clock e) (serial e) [] (S (runs e)))
      | r :: rs => (r, mkEnv (db e) (clock e) (serial e) rs (S (runs e)))
      end
  | r => ((quiet tt r).1, e)
  end.

Definition exec {A} (m : M A) (e : env) : A * env := (run serve m e).1.

(** *** Triples *)

Definition does {A} (P : env → Prop) (m : M A) (Q : A → env → Prop) : Prop := ∀ e, P e → Q (exec m e).1 (exec m e).2.

Lemma does_ret {A} (P : env → Prop) (a : A) (Q : A → env → Prop) : (∀ e, P e → Q a e) → does P (mret a) Q.
Proof. done. Qed.

Lemma does_bind {A B} P (m : M A) (f : A → M B) R Q : does P m R → (∀ a, does (R a) (f a) Q) → does P (m ≫= f) Q.
Proof.
  intros Hm Hf e HP. specialize (Hm e HP). unfold exec in *. rewrite run_bind. destruct (run serve m e) as [[a e1] l].
  cbn in Hm. specialize (Hf a e1 Hm). unfold exec in Hf. by destruct (run serve (f a) e1) as [[x e2] l2].
Qed.

Lemma does_known {A B} P (a : A) (f : A → M B) Q : does P (f a) Q → does P (mret a ≫= f) Q.
Proof. done. Qed.

Lemma does_pure {A} (φ : Prop) P (m : M A) Q : (φ → does P m Q) → does (λ e, φ ∧ P e) m Q.
Proof. intros Hm e [Hφ HP]. by apply Hm. Qed.

(** The store has [Φ], [s] tokens were given out, the handler will do [rs] and ran [n] times. *)
Record holds (Φ : store → Prop) (s : Z) (rs : list handler_result) (n : nat) (e : env) : Prop := mkHolds {
  ho_db : Φ (db e);
  ho_clock : 0 ≤ clock e;
  ho_serial : serial e = s;
  ho_outcomes : outcomes e = rs;
  ho_runs : runs e = n;
}.

Hypothesis Hlapse : ∀ c, c ≤ lapse c.
#[local] Set Default Proof Using "Type*".

(** Requests that touch neither the store nor the handler nor the tokens. *)
Definition calm (r : req) : bool := match r with RScript _ _ _ _ | RHandler _ _ | RUuid => false | _ => true end.

Lemma holds_calm Φ s rs n e r : calm r = true → holds Φ s rs n e → holds Φ s rs n (serve e r).2.
Proof. intros Hr []. pose proof (Hlapse (clock e)). destruct r; try done; split; cbn; try done; lia. Qed.

Lemma does_ask {Φ s rs n} r : calm r = true → does (holds Φ s rs n) (ask r) (λ _, holds Φ s rs n).
Proof. intros Hr e He. unfold exec. cbn. apply (holds_calm _ _ _ _ _ r Hr) in He. by destruct (serve e r). Qed.

Lemma does_now {Φ s rs n} : does (holds Φ s rs n) (ask RNow) (λ t e, 0 ≤ t ∧ holds Φ s rs n e).
Proof. intros e He. split; [apply He | by apply (does_ask RNow)]. Qed.

Lemma does_calm {A Φ s rs n} (m : M A) : only calm m → does (holds Φ s rs n) m (λ _, holds Φ s rs n).
Proof.
  unfold only. induction m as [a|r k IH]; intros Hm e He; [done|]. cbn -[calm] in Hm. destruct (calm r) eqn:Hc.
  - unfold exec. cbn. pose proof (holds_calm _ _ _ _ _ r Hc He) as He'. destruct (serve e r) as [x e1]. cbn in He'.
    specialize (IH x (Hm x) e1 He'). unfold exec in IH. by destruct (run serve (k x) e1) as [[a e2] l].
  - exfalso. specialize (Hm (quiet tt r).1). revert Hm. generalize (k (quiet tt r).1) as m'. clear IH.
    induction m' as [a|r' k' IH]; cbn -[calm]; rewrite ?Hc; [done|]. intros Hm. by apply (IH (quiet tt r').1), Hm.
Qed.

Lemma does_skip {A B Φ s rs n} (m : M A) (f : A → M B) Q :
  only calm m → (∀ a, does (holds Φ s rs n) (f a) Q) → does (holds Φ s rs n) (m ≫= f) Q.
Proof. intros Hm Hf. eapply does_bind; [by apply does_calm | done]. Qed.

Lemma does_script {Φ s rs n} c sn ks args v Ψ :
  hoare Φ (script cjson o sn ks args) (λ r st, r = v ∧ Ψ st) →
  does (holds Φ s rs n) (ask (RScript c sn ks args)) (λ r e, r = v ∧ holds Ψ s rs n e).
Proof.
  intros Hs e []. specialize (Hs (db e) ho_db0). unfold exec. cbn. destruct (script cjson o sn ks args (db e)) as [[r st] l].
  cbn in *. destruct Hs. by split.
Qed.

(** A script that returns what it computed. *)
Lemma script_ok {A B} P (m : Lua A) (f : A → B) v Ψ :
  hoare P m (λ r st, r = v ∧ Ψ st) → hoare P (r ← m; mret (f r)) (λ r st, r = f v ∧ Ψ st).
Proof. intros Hm. eapply hoare_bind; [exact Hm|]. intros r. apply hoare_pure. intros ->. by apply hoare_ret. Qed.

(** ** The abstract life *)

(** The error of a handler result; [None] is success. *)
Definition verdict (r : handler_result) : option err :=
  match r with
  | HReturn _ => None
  | HError e => Some e
  | HPanic v _ => Some (EText ("mkq: handler panic: " +:+ v))
  end.

(** Whether a failure with [e], [m] attempts having been made before it, is
    followed by another attempt. *)
Definition again (jo : jobOpts) (m : Z) (e : err) : bool :=
  negb (Is e ErrUnrecoverable) && (0 <? attempts jo) && (m + 1 <? attempts jo).

Inductive fate := Pending | Succeeded | Failed_.

(** What one run of the handler means for a job with [m] attempts. *)
Definition judge (jo : jobOpts) (m : Z) (r : handler_result) : fate * Z :=
  match verdict r with
  | None => (Succeeded, m + 1)
  | Some e =>
      match AsDelayed e with
      | Some _ => (Pending, m)
      | None => (if again jo m e then Pending else Failed_, m + 1)
      end
  end.

(** The job after [k] rounds, the attempts on record, how often the handler ran. *)
Fixpoint life (jo : jobOpts) (m : Z) (rs : list handler_result) (k : nat) {struct k} : fate * Z * nat :=
  match k, rs with
  | S k, r :: rs =>
      match judge jo m r with
      | (Pending, m') => let '(f, m'', n) := life jo m' rs k in (f, m'', S n)
      | (f, m') => (f, m', 1%nat)
      end
  | _, _ => (Pending, m, 0%nat)
  end.

(** What the store has of a job with that fate. *)
Definition placed (jo : jobOpts) (h : gmap string string) (fm : fate * Z) : store → Prop :=
  match fm.1 with
  | Pending => with_job q jobID h fm.2 (up q jobID)
  | Succeeded => ended q jobID (keys.Completed b) (removeOnComplete jo = None) fm.2
  | Failed_ => ended q jobID (keys.Failed b) (removeOnFail jo = None) fm.2
  end.

(** ** One attempt *)

(** No hooks are registered, the backoff has no jitter and no negative delay. *)
Definition plain_hooks : Prop :=
  has_retryDelayOverride (cfg w) = false ∧ has_backoffFunc (cfg w) = false ∧
  has_backoffStrategy (cfg w) = false.

Definition tame (jo : jobOpts) : Prop :=
  match backoff jo with
  | None => True
  | Some b => 0 ≤ Delay b ∧ proto.f64_pos (Jitter b) = false
  end.

(** No recurring schedule, no stalled mark, and a payload that decodes. *)
Definition ready (h : gmap string string) : Prop :=
  hget h "defa" = "" ∧ hget h "rjk" = "" ∧
  ∀ raw, h !! "data" = Some raw → raw = "" ∨ ∃ d, UnmarshalJSON (T := T) raw = inr d.

Lemma ready_keeps h h' : keeps h h' → ready h → ready h'.
Proof. intros Hk (E1 & E2 & E3). unfold ready, hget in *. by rewrite !Hk by (apply (bool_decide_unpack _); done). Qed.

Hypothesis Hid : plain_id q jobID.
Hypothesis Hw : wkeys w = newQueueKeys q.
Hypothesis Hlim : limiter (cfg w) = None.
Hypothesis Hooks : plain_hooks.

Lemma packed_harmless l bs :
  proto.EncodeJobFields l = inr bs → Forall (λ kv, incidental kv.1) (pairs (lua_value <$> l)) → harmless_fields bs.
Proof.
  unfold proto.EncodeJobFields. destruct (negb _); [done|]. destruct l as [|v l]; [by intros [= <-] _ l' ?|].
  intros E%unpack_law Hf l' _ E'. rewrite E in E'. by injection E' as <-.
Qed.

Lemma fields_packed l :
  Nat.even (length l) = true → Forall (λ kv, incidental kv.1) (pairs (lua_value <$> l)) →
  ∃ bs, proto.EncodeJobFields l = inr bs ∧ harmless_fields bs.
Proof.
  intros He Hf. assert (∃ bs, proto.EncodeJobFields l = inr bs) as [bs E].
  { unfold proto.EncodeJobFields. rewrite He. cbn [negb]. destruct l; [by eexists | apply packs]. }
  exists bs. split; [done | by eapply packed_harmless].
Qed.

Lemma retry_packed reason hist : ∃ bs, retryFields reason hist = inr bs ∧ harmless_fields bs.
Proof. apply fields_packed; [done|]. repeat constructor; apply (bool_decide_unpack _); by vm_compute. Qed.

Lemma no_fields : harmless_fields "".
Proof. by intros l ?. Qed.

(** *** The scripts that end it *)

Lemma does_retry h m token s rs n lf reason hist :
  token ≠ "0" → in64 (m + 1) →
  does (holds (with_job q jobID h m (held q jobID token)) s rs n) (retryImmediate w jobID token lf reason hist)
    (λ e env, e = None ∧ holds (with_job q jobID h (m + 1) (runnable q jobID)) s rs n env).
Proof.
  intros Hz Hm. unfold retryImmediate. eapply does_bind; [apply does_now|]. intros now. apply does_pure. intros _.
  destruct (retry_packed reason hist) as (bs & -> & Hf). rewrite Hw.
  eapply does_bind; [apply does_script; cbn [script]; apply script_ok; by apply retry_job|].
  intros r. apply does_pure. intros ->. by apply does_ret.
Qed.

Lemma does_delay h m token s rs n now d skip packed :
  0 ≤ now → token ≠ "0" → in64 (m + 1) → harmless_fields (str packed) →
  does (holds (with_job q jobID h m (held q jobID token)) s rs n)
    (r ← ask (RScript CtxBackground MoveToDelayed (moveToDelayedKeys (wkeys w) jobID)
       [AStr (prefix (wkeys w)); AInt64 (UnixMilli now); AStr jobID; AStr token; AInt64 d;
        AStr (if skip : bool then "1" else "0"); packed; AStr ""; AStr ""]);
     mret (codeResult "moveToDelayed" r))
    (λ e env, e = None ∧
       holds (with_job q jobID h (if skip then m else m + 1) (λ st, ∃ sc, later q jobID sc st)) s rs n env).
Proof.
  intros Hn Hz Hm Hf. rewrite Hw. eapply does_bind.
  - apply does_script. cbn [script]. apply script_ok. apply delay_job; try done. unfold UnixMilli. apply Z.div_pos; [done|]. consts. lia.
  - intros r. apply does_pure. intros ->. by apply does_ret.
Qed.

Lemma does_retryDelayed h m token s rs n d reason hist :
  token ≠ "0" → in64 (m + 1) →
  does (holds (with_job q jobID h m (held q jobID token)) s rs n) (retryDelayed w jobID token d reason hist)
    (λ e env, e = None ∧ holds (with_job q jobID h (m + 1) (λ st, ∃ sc, later q jobID sc st)) s rs n env).
Proof.
  intros Hz Hm. unfold retryDelayed. eapply does_bind; [apply does_now|]. intros now. apply does_pure. intros Hn.
  destruct (retry_packed reason hist) as (bs & -> & Hf). by apply (does_delay h m token s rs n now _ false).
Qed.

Lemma does_putBack h m token s rs n d :
  token ≠ "0" → in64 (m + 1) →
  does (holds (with_job q jobID h m (held q jobID token)) s rs n) (moveToDelayedKeepingAttempts w jobID token d)
    (λ e env, e = None ∧ holds (with_job q jobID h m (λ st, ∃ sc, later q jobID sc st)) s rs n env).
Proof.
  intros Hz Hm. unfold moveToDelayedKeepingAttempts. eapply does_bind; [apply does_now|]. intros now. apply does_pure. intros Hn.
  apply (does_delay h m token s rs n now _ true); try done. apply no_fields.
Qed.

(** What [keepJobs] says when no retention was asked for. *)
Lemma finish_keeps token att keep bs :
  proto.EncodeMoveToFinishedOpts (finishOpts w token att keep) = inr bs → keep = None →
  let k := field (unpack bs) "keepJobs" in field k "count" = ANil ∧ field k "age" = ANil.
Proof.
  intros E%unpack_law ->. cbv zeta. rewrite E, !field_lua. cbn [field].
  assert (map_get (proto.moveToFinished_map (finishOpts w token att None)) "keepJobs" = Some (AMap [])) as ->; [|done].
  unfold proto.moveToFinished_map, finishOpts. rewrite Hlim. cbn [proto.FLimiter fmap option_fmap option_map].
  unfold proto.set_if. destruct (negb _); by rewrite ?map_get_set_ne.
Qed.

Lemma does_finish h m token s rs n att keep target prop val extra :
  token ≠ "0" → in64 (m + 1) → incidental prop → Nat.even (length extra) = true →
  Forall (λ kv, incidental kv.1) (pairs (lua_value <$> extra)) →
  does (holds (with_job q jobID h m (held q jobID token)) s rs n)
    (runMoveToFinished w jobID token att keep target prop val extra)
    (λ r e, r = (None, None) ∧ holds (ended q jobID (result_set q target) (keep = None) (m + 1)) s rs n e).
Proof.
  intros Hz Hm Hp He Hf. unfold runMoveToFinished. eapply does_bind; [apply does_now|]. intros now. apply does_pure. intros _.
  destruct (packs (AMap (proto.moveToFinished_map (finishOpts w token att keep)))) as [bs Eo].
  change (msgpack_Marshal _) with (proto.EncodeMoveToFinishedOpts (finishOpts w token att keep)) in Eo. rewrite Eo.
  destruct (fields_packed extra He Hf) as (fs & -> & Hh). apply does_skip; [unfold fetchNextFlag; only_solve|]. intros flag.
  rewrite Hw. eapply does_bind.
  - apply (does_script _ _ _ _ (inr (AInt64 0)) (ended q jobID (result_set q target) (keep = None) (m + 1))). cbn [script].
    apply (script_ok _ _ inr (AInt64 0)). eapply hoare_conseq; [intros st Hst; exact Hst | |
      apply finish_job; [done | by eapply finish_token | done | by eapply finish_unlimited | done..]].
    intros r st [-> [Hi Hk]]. split; [done|]. split; [exact Hi|]. intros E. apply Hk. by eapply finish_keeps.
  - intros r. apply does_pure. intros ->. by apply does_ret.
Qed.

(** *** The retry decision *)

Lemma computeBackoffDelay_nonneg bo n : 0 ≤ Delay bo → 0 ≤ computeBackoffDelay (Some bo) n.
Proof.
  intros Hd. unfold computeBackoffDelay. destruct (Z.ltb_spec n 1); [lia|].
  destruct (String.eqb (Type_ bo) "fixed"); [done|].
  destruct (String.eqb (Type_ bo) "exponential"); [|lia].
  destruct (Z.leb_spec 63 (n - 1)); [by vm_compute|]. rewrite shiftl_one by lia.
  assert (0 < 2 ^ (n - 1)) by (apply Z.pow_pos_nonneg; lia).
  destruct (Z.eqb_spec (2 ^ (n - 1)) 0); [lia|]. cbn [negb andb]. rewrite mult_guard by lia.
  destruct (Z.ltb_spec maxInt64 (Delay bo * 2 ^ (n - 1))); [by vm_compute|].
  rewrite i64_id; [nia|]. consts. nia.
Qed.

Lemma delay_plain jo bc : tame jo → ∃ d, computeRetryDelay w (backoff jo) bc = mret d ∧ 0 ≤ d.
Proof.
  intros Ht. destruct Hooks as (E1 & E2 & E3). unfold computeRetryDelay, callBackoffStrategy. rewrite E1, E2, E3.
  destruct (bc_AttemptsMade bc <? 1); [by eexists|]. unfold tame in Ht.
  destruct (backoff jo) as [bo|]; [|by eexists]. destruct Ht as [Hd Hj]. cbn. rewrite Hj.
  destruct (_ || _); eexists; (split; [reflexivity|]); [by apply computeBackoffDelay_nonneg | done].
Qed.

Lemma does_fetchAtm h m token s rs n :
  made h = m →
  does (holds (with_job q jobID h m (held q jobID token)) s rs n) (fetchAtm w jobID h)
    (λ a e, a = m ∧ holds (with_job q jobID h m (held q jobID token)) s rs n e).
Proof.
  intros Hm e He. split; [|by apply (does_calm (fetchAtm w jobID h)); [unfold fetchAtm; only_solve|]].
  assert (Hc : made (hgetall jobKey (db e)) = m) by apply He. unfold fetchAtm, exec. rewrite Hw. cbn.
  change (keys.Base b +:+ jobID) with jobKey. unfold made, hget in *.
  destruct (hgetall jobKey (db e) !! "atm"); [exact Hc | exact Hm].
Qed.

(** What [finalise] makes of an attempt. *)
Lemma does_fail h m token s rs n jo reason hist :
  token ≠ "0" → in64 (m + 1) →
  does (holds (with_job q jobID h m (held q jobID token)) s rs n)
    (r ← finishFailed w jobID token jo reason hist; mret (statusOf finaliseStatusFailed r))
    (λ r e, (∃ stt, r = (None, stt, None)) ∧ holds (placed jo h (Failed_, m + 1)) s rs n e).
Proof.
  intros Hz Hm. unfold finishFailed. eapply does_bind.
  - apply does_finish; [done | done | | done |]; [|repeat constructor]; apply (bool_decide_unpack _); by vm_compute.
  - intros r. apply does_pure. intros ->. apply does_ret. intros e He. split; [by eexists | exact He].
Qed.

Lemma placed_up jo h m s rs n e (P : store → Prop) :
  (∀ st, P st → up q jobID st) → holds (with_job q jobID h m P) s rs n e → holds (placed jo h (Pending, m)) s rs n e.
Proof. intros HP [[Hp Hc] ????]. split; try done. split; [by apply HP | done]. Qed.

Lemma does_finalise h m token s rs n r out :
  let jo := parseJobOpts (hget h "opts") in
  token ≠ "0" → tame jo → made h = m → m < maxInt64 →
  match verdict r with None => success out = true | Some e => success out = false ∧ out_err out = e end →
  does (holds (with_job q jobID h m (held q jobID token)) s rs n) (finalise w jobID token h out)
    (λ x e, (∃ stt, x = (None, stt, None)) ∧ holds (placed jo h (judge jo m r)) s rs n e).
Proof.
  cbv zeta. intros Hz Ht Hm Hmax Hv. set (jo := parseJobOpts (hget h "opts")) in *.
  assert (Hin : in64 m) by (rewrite <-Hm; apply parseInt_in64). assert (Hr : in64 (m + 1)) by (consts; lia).
  unfold finalise, judge. fold jo. destruct (verdict r) as [er|].
  2: { rewrite Hv. unfold finishCompleted. eapply does_bind.
       - apply does_finish; [done | done | | done |]; [|repeat constructor]; apply (bool_decide_unpack _); by vm_compute.
       - intros x. apply does_pure. intros ->. apply does_ret. intros e He. split; [by eexists | exact He]. }
  destruct Hv as [-> ->]. destruct (AsDelayed er) as [d|].
  { eapply does_bind; [by apply does_putBack|]. intros x. apply does_pure. intros ->. apply does_ret. intros e He.
    split; [by eexists|]. eapply placed_up; [|exact He]. intros st Hl. by right. }
  eapply does_bind; [by apply does_fetchAtm|]. intros a. apply does_pure. intros ->.
  rewrite shouldRetry_policy by done.
  assert (Hbool : negb (negb (Is er ErrUnrecoverable || (attempts jo <=? 0) || (attempts jo <=? m + 1))) = negb (again jo m er)).
  { unfold again. rewrite negb_involutive. destruct (Is er ErrUnrecoverable); [done|]. cbn. zcases; done || lia. }
  rewrite Hbool. destruct (again jo m er); cbn [negb]; [|by apply does_fail].
  destruct (delay_plain jo (mkBackoffContext jobID (hget h "name") (m +! 1) er "") Ht) as (d & -> & Hd).
  apply does_known. destruct (Z.ltb_spec d 0); [lia|]. destruct (0 <? d).
  - eapply does_bind; [by apply does_retryDelayed|]. intros x. apply does_pure. intros ->. apply does_ret. intros e He.
    split; [by eexists|]. eapply placed_up; [|exact He]. intros st Hl. by right.
  - eapply does_bind; [by apply does_retry|]. intros x. apply does_pure. intros ->. apply does_ret. intros e He.
    split; [by eexists|]. eapply placed_up; [|exact He]. intros st Hl. by left.
Qed.

(** *** The handler and the whole attempt *)

(** An outcome is that of a handler result. *)
Definition judged (r : handler_result) (out : handlerOutcome) : Prop :=
  match verdict r with None => success out = true | Some e => success out = false ∧ out_err out = e end.

Lemma does_runHandler Φ h s r rs n :
  ready h →
  does (holds Φ s (r :: rs) n) (runHandler (T := T) jobID h) (λ out e, judged r out ∧ holds Φ s rs (S n) e).
Proof.
  intros (_ & _ & Hd). assert (∃ j, buildJob (T := T) jobID h = inr j) as [j Ej].
  { unfold buildJob. destruct (h !! "data") as [raw|] eqn:E; [|by eexists].
    destruct (Hd raw eq_refl) as [->|[d Ed]]; cbn; [by eexists|]. destruct (String.eqb raw ""); [by eexists|]. rewrite Ed. by eexists. }
  unfold runHandler, invokeHandler, newHandlerShim. rewrite Ej. intros e [].
  unfold exec. cbn. rewrite ho_outcomes0. cbn. split; [by destruct r|]. split; cbn; [done..|]. by rewrite ho_runs0.
Qed.

Lemma does_processJob h m token s r rs n :
  let jo := parseJobOpts (hget h "opts") in
  token ≠ "0" → tame jo → made h = m → m < maxInt64 → ready h →
  does (holds (with_job q jobID h m (held q jobID token)) s (r :: rs) n) (processJob (T := T) w token jobID h)
    (λ p e, p = None ∧ holds (placed jo h (judge jo m r)) s rs (S n) e).
Proof.
  cbv zeta. intros Hz Ht Hm Hmax Hr. pose proof Hr as (_ & Hrjk & _). unfold processJob.
  apply does_skip; [unfold observeWait; only_solve|]. intros _. do 3 (apply does_skip; [only_solve|]; intros ?).
  eapply does_bind; [by apply does_runHandler|]. intros out. apply does_pure. intros Hv.
  do 4 (apply does_skip; [only_solve|]; intros ?). unfold afterJoin.
  eapply does_bind; [by apply (does_finalise h m token s rs (S n) r out)|]. intros x. apply does_pure. intros [stt ->].
  apply does_known. apply does_skip; [unfold countOutcome; only_solve|]. intros _. rewrite Hrjk. cbn [negb String.eqb].
  apply does_known. do 2 (apply does_skip; [only_solve|]; intros ?). by apply does_ret.
Qed.

Lemma does_runJob h m token s r rs n :
  let jo := parseJobOpts (hget h "opts") in
  token ≠ "0" → tame jo → made h = m → m < maxInt64 → ready h →
  does (holds (with_job q jobID h m (held q jobID token)) s (r :: rs) n) (runJob (T := T) w token jobID h)
    (λ p e, p = None ∧ holds (placed jo h (judge jo m r)) s rs (S n) e).
Proof.
  cbv zeta. intros Hz Ht Hm Hmax Hr. pose proof Hr as (Hdefa & _). unfold runJob. apply does_skip; [only_solve|]. intros _.
  rewrite Hdefa. cbn [negb String.eqb]. eapply does_bind; [by apply does_processJob|]. intros p. apply does_pure. intros ->.
  apply does_skip; [only_solve|]. intros _. by apply does_ret.
Qed.

(** ** Rounds *)

(** The millisecond the job is due; 0 if it is not delayed. *)
Definition due_at (st : store) : Z :=
  match zget (keys.Delayed b) st !! jobID with Some s => s / 0x1000 | None => 0 end.

(** Time passes until the job is due. *)
Definition wake (e : env) : env := at_time e (Z.max (clock e) (due_at (db e) * Millisecond)).

Fixpoint rounds (k : nat) (e : env) : env :=
  match k with O => e | S k => rounds k (exec (tryOnce (T := T) w) (wake e)).2 end.

Lemma wake_holds Φ s rs n e : holds Φ s rs n e → holds Φ s rs n (wake e).
Proof. intros []. split; cbn; try done. lia. Qed.

Lemma wake_due h m s rs n e :
  holds (with_job q jobID h m (up q jobID)) s rs n e →
  holds (with_job q jobID h m (due_by q jobID (UnixMilli (clock (wake e))))) s rs n (wake e).
Proof.
  intros He. pose proof (wake_holds _ _ _ _ _ He) as [[Hu Hc] ????]. split; try done. split; [|done].
  destruct Hu as [Hr|[sc Hl]]; [by left|]. right. exists sc. split; [done|]. unfold wake, due_at. destruct Hl as [_ Ho].
  change (db (wake e)) with (db e) in Ho. rewrite (of_delayed _ _ _ _ _ Ho), lookup_singleton_eq. cbn [clock at_time]. unfold UnixMilli.
  apply Z.div_le_lower_bound; [consts; lia|]. lia.
Qed.

(** The options that are sent with a request for a job. *)
Lemma active_packed token : ∃ bs, proto.EncodeMoveToActiveOpts (activeOpts w token) = inr bs ∧
  str (field (unpack bs) "token") = token ∧ num (field (field (unpack bs) "limiter") "max") = None.
Proof.
  destruct (packs (AMap (proto.moveToActive_map (activeOpts w token)))) as [bs E]. exists bs.
  split; [done|]. split; [by eapply active_token | by eapply active_unlimited].
Qed.

(** Taking a token and asking, up to the reply. *)
Lemma exec_ask_active e :
  ∃ e1 bs, let token := tokenOf (serial e + 1) in
    str (field (unpack bs) "token") = token ∧ num (field (field (unpack bs) "limiter") "max") = None ∧
    e1 = mkEnv (db e) (lapse (clock e)) (serial e + 1) (outcomes e) (runs e) ∧
    ∀ (Q : env → Prop),
      (let r := moveToActive o (moveToActiveKeys (newQueueKeys q)) [AStr (keys.Base b); AInt64 (UnixMilli (clock e)); ABytes bs] (db e1) in
       let e2 := mkEnv r.1.2 (clock e1) (serial e1) (outcomes e1) (runs e1) in
       match parseMoveToActiveResult r.1.1 with
       | inr a => if ar_ok a then Q (exec (runJob (T := T) w token (ar_jobID a) (ar_jobMap a)) e2).2 else Q e2
       | inl _ => Q e2
       end) → Q (exec (tryOnce (T := T) w) e).2.
Proof.
  destruct (active_packed (tokenOf (serial e + 1))) as (bs & Eb & Ht & Hl). exists (mkEnv (db e) (lapse (clock e)) (serial e + 1) (outcomes e) (runs e)), bs.
  split_and!; [done | done | done|]. intros Q HQ. unfold tryOnce, exec. cbn -[moveToActive runJob UnixMilli tokenOf]. rewrite Eb, Hw. cbn -[moveToActive runJob UnixMilli tokenOf parseMoveToActiveResult] in HQ |- *.
  unfold mbind at 1, Lua_bind at 1.
  destruct (moveToActive _ _ _ (db e)) as [[v st] l]. cbn -[runJob parseMoveToActiveResult tokenOf] in HQ |- *.
  destruct (parseMoveToActiveResult v) as [er|a]; [done|]. destruct (ar_ok a); [|done]. cbn [negb]. rewrite run_bind.
  unfold exec in HQ. by destruct (run serve (runJob w _ _ _) _) as [[p e3] l3].
Qed.

(** A round on a job that is up for an attempt. *)
Lemma round_up h m s r rs n e :
  let jo := parseJobOpts (hget h "opts") in
  tame jo → m < maxInt64 → ready h → holds (with_job q jobID h m (up q jobID)) s (r :: rs) n e →
  holds (placed jo h (judge jo m r)) (s + 1) rs (S n) (exec (tryOnce (T := T) w) (wake e)).2.
Proof.
  cbv zeta. intros Ht Hmax Hr He. pose proof (wake_due _ _ _ _ _ _ He) as [Hdb Hc Hs Ho Hn].
  destruct (exec_ask_active (wake e)) as (e1 & bs & Htok & Hl & -> & HQ). apply HQ. clear HQ. cbv zeta. cbn [db clock serial outcomes runs].
  set (token := tokenOf _) in *. assert (Hz : token ≠ "0") by done.
  destruct (take_due o q jobID Hid h m (UnixMilli (clock (wake e))) token bs Htok Hz Hl (db (wake e)) Hdb) as [-> [Hh Hca]].
  set (st := (moveToActive _ _ _ _).1.2) in *. rewrite parse_handed by apply Hid. cbn [ar_ok ar_jobID ar_jobMap].
  set (h' := hgetall jobKey st). destruct Hca as (Hk & Hm & Hne). fold h' in Hk, Hm, Hne.
  assert (Eo : hget h' "opts" = hget h "opts") by (unfold hget; rewrite Hk; [done | by left]).
  assert (Hpl : ∀ f e', holds (placed (parseJobOpts (hget h "opts")) h' f) (s + 1) rs (S n) e' →
    holds (placed (parseJobOpts (hget h "opts")) h f) (s + 1) rs (S n) e').
  { intros [[] m'] e' []; split; try done. unfold placed in *. cbn [fst snd] in *. destruct ho_db0 as [Hu (Hk' & Hm' & Hn')].
    split; [done|]. split; [by eapply keeps_trans | done]. }
  apply Hpl. rewrite <-Eo.
  apply (does_runJob h' m token (s + 1) r rs n); [done | by rewrite Eo | done | done | by eapply ready_keeps |].
  pose proof (Hlapse (clock (wake e))). split; cbn [db clock serial outcomes runs]; [|lia | lia | done | done].
  split; [exact Hh|]. split_and!; [apply keeps_refl | done | done].
Qed.

(** A round when nothing is there to be taken. *)
Lemma round_ended set keep m s rs n e :
  holds (ended q jobID set keep m) s rs n e →
  holds (ended q jobID set keep m) (s + 1) rs n (exec (tryOnce (T := T) w) (wake e)).2.
Proof.
  intros He. pose proof (wake_holds _ _ _ _ _ He) as [Hdb Hc Hs Ho Hn].
  destruct (exec_ask_active (wake e)) as (e1 & bs & Htok & Hl & -> & HQ). apply HQ. clear HQ. cbv zeta. cbn [db clock serial outcomes runs].
  rewrite (take_nothing o q jobID Hid) by (done || apply Hdb). cbn [fst snd].
  pose proof (Hlapse (clock (wake e))). cbn [parseMoveToActiveResult nothing ar_ok].
  split; cbn [db clock serial outcomes runs]; [by apply ended_nums | lia | lia | done | done].
Qed.

Lemma rounds_ended k set keep m s rs n e :
  holds (ended q jobID set keep m) s rs n e → ∃ s', holds (ended q jobID set keep m) s' rs n (rounds k e).
Proof. revert s e. induction k as [|k IH]; intros s e He; [by exists s|]. cbn [rounds]. by eapply IH, round_ended. Qed.

Definition budget (jo : jobOpts) : Z := Z.max 1 (attempts jo).

Lemma rounds_life h k : let jo := parseJobOpts (hget h "opts") in
  tame jo → in64 (attempts jo) → ready h → ∀ m rs rest s n e,
  0 ≤ m < budget jo → (k ≤ length rs)%nat → holds (with_job q jobID h m (up q jobID)) s (rs ++ rest) n e →
  let '(f, m', n') := life jo m rs k in
  ∃ s' rs', holds (placed jo h (f, m')) s' rs' (n + n') (rounds k e).
Proof.
  cbv zeta. intros Ht Ha Hr. set (jo := parseJobOpts (hget h "opts")) in *.
  induction k as [|k IH]; intros m rs rest s n e Hm Hlen He.
  { cbn. rewrite Nat.add_0_r. by exists s, (rs ++ rest). }
  destruct rs as [|r rs]; [cbn in Hlen; lia|]. cbn [app] in He.
  assert (Hmax : m < maxInt64) by (unfold budget in Hm; consts; lia).
  pose proof (round_up h m s r (rs ++ rest) n e Ht Hmax Hr He) as Hst. cbn [life rounds]. fold jo in Hst.
  destruct (judge jo m r) as [[] m'] eqn:Ej; cbn [placed fst snd] in Hst.
  - assert (Hm' : 0 ≤ m' < budget jo).
    { unfold judge in Ej. destruct (verdict r) as [er|]; [|done]. destruct (AsDelayed er); [by injection Ej as <-|].
      destruct (again jo m er) eqn:Eb; [|done]. injection Ej as <-. unfold again in Eb. apply andb_true_iff in Eb as [_ Eb]. zbool.
      unfold budget. lia. }
    specialize (IH m' rs rest (s + 1) (S n) _ Hm' ltac:(cbn in Hlen; lia) Hst).
    destruct (life jo m' rs k) as [[f m''] n']. by rewrite Nat.add_succ_r, <-Nat.add_succ_l.
  - destruct (rounds_ended k _ _ _ _ _ _ _ Hst) as [s' Hf]. rewrite Nat.add_1_r. by do 2 eexists.
  - destruct (rounds_ended k _ _ _ _ _ _ _ Hst) as [s' Hf]. rewrite Nat.add_1_r. by do 2 eexists.
Qed.

(** A failing run of plain errors uses the budget up. *)
Lemma life_plain jo m rs k :
  Forall (λ r, ∃ e, verdict r = Some e ∧ AsDelayed e = None ∧ Is e ErrUnrecoverable = false) rs →
  0 ≤ m < budget jo → (k ≤ length rs)%nat →
  life jo m rs k =
    if Z.of_nat k <? budget jo - m then (Pending, m + Z.of_nat k, k)
    else (Failed_, budget jo, Z.to_nat (budget jo - m)).
Proof.
  assert (Htriple : ∀ (f : fate) (a b : Z) (x y : nat), a = b → x = y → (f, a, x) = (f, b, y)) by congruence.
  intros Hrs. revert m k. induction Hrs as [|r rs (e & Hv & Hd & Hu) _ IH]; intros m k Hm Hk.
  { destruct k; [|cbn in Hk; lia]. cbn [life]. destruct (Z.ltb_spec (Z.of_nat 0) (budget jo - m)); [|lia]. apply Htriple; lia. }
  destruct k as [|k].
  { cbn [life]. destruct (Z.ltb_spec (Z.of_nat 0) (budget jo - m)); [|lia]. apply Htriple; lia. }
  cbn [life]. unfold judge. rewrite Hv, Hd. unfold again. rewrite Hu. cbn [negb andb].
  destruct ((0 <? attempts jo) && (m + 1 <? attempts jo)) eqn:E.
  - apply andb_true_iff in E as [E1 E2]. zbool. unfold budget in *.
    rewrite IH by (cbn in Hk; lia).
    destruct (Z.ltb_spec (Z.of_nat k) (Z.max 1 (attempts jo) - (m + 1))),
      (Z.ltb_spec (Z.of_nat (S k)) (Z.max 1 (attempts jo) - m)); try lia; apply Htriple; lia.
  - assert (m + 1 = budget jo) as Hl.
    { unfold budget in *. apply andb_false_iff in E as [E|E]; zbool; lia. }
    destruct (Z.ltb_spec (Z.of_nat (S k)) (budget jo - m)); [lia|]. apply Htriple; lia.
Qed.
End life.

(** ** Properties *)

(** C3. The worker and the scripts together implement the attempt budget. Let a job be
    the only one an open queue has to offer: it waits, is prioritized or is
    delayed; time passes until it is due and then a worker asks, round after
    round. For every sequence of handler results (successes, failures, panics,
    delay requests, unrecoverable errors, in any order) where the job is after
    [k] rounds, its attempt count and the number of handler runs are those of the
    abstract life: a delay request puts the job back and costs nothing, an
    unrecoverable error ends it, another failure costs one attempt and ends it
    when none is left. A job that has ended is never taken again, and it is in
    the set of its result unless a retention was asked for. The worker has no
    rate limit and no backoff hooks, the job's own backoff no jitter and no
    negative delay, and the job belongs to no schedule and has no stalled mark. *)
Theorem lifecycle_refines `{Codec} `{!Packs} `{GoArch} `{CronLib} `{Payload T} cjson o q w jobID lapse k e rs rest :
  let h := hgetall (keys.Job (q_keys q) jobID) (db e) in let jo := parseJobOpts (hget h "opts") in
  (∀ c, c ≤ lapse c) → plain_id q jobID → wkeys w = newQueueKeys q → limiter (cfg w) = None → plain_hooks w →
  tame jo → in64 (attempts jo) → up q jobID (db e) → h ≠ ∅ → ready (T := T) h → 0 ≤ made h < budget jo →
  0 ≤ clock e → outcomes e = rs ++ rest → (k ≤ length rs)%nat →
  let e' := rounds (T := T) cjson o q w jobID lapse k e in
  let '(f, m, n) := life jo (made h) rs k in
  placed q jobID jo h (f, m) (db e') ∧ runs e' = (runs e + n)%nat.
Proof.
  intros h jo Hl Hid Hw Hlim Hh Ht Ha Hu Hne Hr Hm Hc Hos Hlen. cbv zeta.
  pose proof (rounds_life cjson o q w jobID lapse Hl Hid Hw Hlim Hh h k Ht Ha Hr (made h) rs rest (serial e) (runs e) e Hm Hlen) as Hx.
  fold jo in Hx. destruct (life jo (made h) rs k) as [[f m] n]. by destruct Hx as (s' & rs' & []).
Qed.

(** A job that keeps failing is run exactly as often as its attempts allow: with
    [attempts] = N and a handler that fails every time it is handed to the
    handler max(1, N) times in all, stays up for an attempt until then, and has
    failed after that with that attempt count. *)
Theorem retry_budget `{Codec} `{!Packs} `{GoArch} `{CronLib} `{Payload T} cjson o q w jobID lapse k e rs rest :
  let h := hgetall (keys.Job (q_keys q) jobID) (db e) in let jo := parseJobOpts (hget h "opts") in
  (∀ c, c ≤ lapse c) → plain_id q jobID → wkeys w = newQueueKeys q → limiter (cfg w) = None → plain_hooks w →
  tame jo → in64 (attempts jo) → up q jobID (db e) → h ≠ ∅ → ready (T := T) h → made h = 0 →
  0 ≤ clock e → outcomes e = rs ++ rest → (k ≤ length rs)%nat →
  Forall (λ r, ∃ e, verdict r = Some e ∧ AsDelayed e = None ∧ Is e ErrUnrecoverable = false) rs →
  let e' := rounds (T := T) cjson o q w jobID lapse k e in
  if Z.of_nat k <? budget jo
  then placed q jobID jo h (Pending, Z.of_nat k) (db e') ∧ runs e' = (runs e + k)%nat
  else placed q jobID jo h (Failed_, budget jo) (db e') ∧ runs e' = (runs e + Z.to_nat (budget jo))%nat.
Proof.
  intros h jo Hl Hid Hw Hlim Hh Ht Ha Hu Hne Hr Hm Hc Hos Hlen Hrs. cbv zeta.
  pose proof (rounds_life cjson o q w jobID lapse Hl Hid Hw Hlim Hh h k Ht Ha Hr (made h) rs rest (serial e) (runs e) e) as Hx.
  fold jo in Hx. rewrite Hm in Hx. specialize (Hx ltac:(unfold budget; lia) Hlen).
  rewrite life_plain, Z.sub_0_r in Hx by (done || unfold budget; lia).
  destruct (Z.of_nat k <? budget jo);
    by destruct Hx as (s' & rs' & []).
Qed.

Section sample.
#[local] Existing Instance treeMsgpack.
#[local] Existing Instance treeCodec.
#[local] Existing Instance treePacks.
#[local] Existing Instance amd64.
#[local] Existing Instance hourly.
#[local] Existing Instance unitPayload.
Abbreviation sb := (q_keys sampleQueue).

(** Three attempts, a second apart; the handler fails, asks for a delay, fails,
    asks for a delay, panics. *)
Definition sampleOptsRaw : string := quoted "{`attempts`:3,`backoff`:{`type`:`fixed`,`delay`:1000}}".

Definition sampleResults : list handler_result :=
  [HError (EText "boom"); HError (EDelayed Second); HError (EText "bang"); HError (EWrap "down" (EDelayed Second));
   HPanic "crash" "goroutine 7"].

Definition sampleEnv (rs : list handler_result) : env :=
  mkEnv (lset (keys.Wait sb) ["7"] (hset (keys.Job sb "7") {["opts" := sampleOptsRaw; "name" := "email"]} emptyStore))
    (1700000000000 * Millisecond) 0 (rs ++ [HReturn (inr "null")]) 0.

Definition tick (c : Z) : Z := c + Millisecond.

Abbreviation sampleRounds := (rounds (T := unit) sampleJson plainOracle sampleQueue sampleWorker "7" tick).

Lemma lifecycle_refines_witness :
  let e := sampleRounds 5 (sampleEnv sampleResults) in
  kept_in sampleQueue "7" (keys.Failed sb) 3 (db e) ∧ runs e = 5%nat.
Proof.
  assert (Hx := lifecycle_refines (T := unit) sampleJson plainOracle sampleQueue sampleWorker "7" tick 5 (sampleEnv sampleResults)
    sampleResults [HReturn (inr "null")]). cbv zeta in Hx.
  replace (life _ _ _ _) with (Failed_, 3, 5%nat) in Hx by (by vm_compute).
  destruct Hx as [[_ Hk] Hr]; [unfold tick; consts; lia | by vm_compute | done | done | by vm_compute | by vm_compute
    | by vm_compute | left; left; by vm_compute | by vm_compute | by vm_compute | by vm_compute | by vm_compute | done | cbn; lia |].
  split; [apply Hk; by vm_compute | exact Hr].
Defined.

Lemma retry_budget_witness :
  let e := sampleRounds 4 (sampleEnv (replicate 4 (HError (EText "boom")))) in
  kept_in sampleQueue "7" (keys.Failed sb) 3 (db e) ∧ runs e = 3%nat.
Proof.
  assert (Hx := retry_budget (T := unit) sampleJson plainOracle sampleQueue sampleWorker "7" tick 4
    (sampleEnv (replicate 4 (HError (EText "boom")))) (replicate 4 (HError (EText "boom"))) [HReturn (inr "null")]). cbv zeta in Hx.
  replace (budget _) with 3 in Hx by (by vm_compute). cbn [Z.ltb Z.compare Z.of_nat Pos.of_succ_nat Pos.succ Pos.compare Pos.compare_cont] in Hx.
  destruct Hx as [[_ Hk] Hr]; [unfold tick; consts; lia | by vm_compute | done | done | by vm_compute | by vm_compute
    | by vm_compute | left; left; by vm_compute | by vm_compute | by vm_compute | by vm_compute | by vm_compute | done | cbn; lia
    | repeat constructor; by eexists |].
  split; [apply Hk; by vm_compute | exact Hr].
Defined.
End sample.
