(* ===== verification/Flight.v ===== *)
(** * Many callers of the script loader (internal/lua/loader.go)

    [Scripter.Run] called by any number of goroutines at once: the table of
    loaded scripts behind its read-write mutex, the single-flight group that
    merges concurrent reloads of one script, the contexts of the callers and a
    Redis whose script cache may be flushed at any time. Scripter has the same
    code for one caller.

    The group is golang.org/x/sync/singleflight by its documented contract: of
    the callers of [Do] with one key the first runs the function, those that
    come while it runs wait, and all get its result. *)

From S2P Require Import Prelude GoLib Backoff Effects Cron Loader Scripter.

(** Where a call of [Run] stands. *)
Inductive pos :=
| AtGet                                   (** about to look its script up *)
| AtEval (ls : loadedScript)              (** about to send the first EVALSHA *)
| AtDo                                    (** saw NOSCRIPT, about to call [loadGroup.Do] *)
| AtLoad (src : string)                   (** leads the flight, about to send SCRIPT LOAD *)
| AtStore (ls : loadedScript)             (** leads, about to lock the table and write it *)
| AtShare (r : res loadedScript)          (** leads, the function has returned *)
| AtWait                                  (** waits for the leader's result *)
| AtRetry (ls : loadedScript)             (** about to send the second EVALSHA *)
| Finished (r : res any).

(** A call: its arguments, whether its context is live, where it stands, and each
    run it caused on the server, by the source that ran and its answer. *)
Record call := mkCall {
  c_script : ScriptName;
  c_keys : list string;
  c_args : list any;
  c_live : bool;
  c_pos : pos;
  c_ran : list (string * res any);
}.

Definition leading (p : pos) : bool :=
  match p with AtLoad _ | AtStore _ | AtShare _ => true | _ => false end.

Section flight.
Variable Preprocess : string → res string.
Variable D : Type.
Variable eval : string → list string → list any → D → res any * D.
Variable hash : string → string.
(** The errors of a connection that is down. *)
Variable Down : err → Prop.

Record shared := mkShared {
  table : scripts;
  group : list ScriptName;      (** the names in flight *)
  calls : list call;
  loaded : list string;         (** the script cache of the server *)
  kept : D;                     (** the data of the server *)
}.

Definition moved (c : call) (p : pos) (ran : list (string * res any)) : call :=
  mkCall (c_script c) (c_keys c) (c_args c) (c_live c) p (c_ran c ++ ran).

Definition put (i : nat) (c : call) (s : shared) : shared :=
  mkShared (table s) (group s) (<[i := c]> (calls s)) (loaded s) (kept s).

(** How a command can fail: the caller's own context, or the connection. *)
Definition fails (c : call) (e : err) : Prop := c_live c = false ∧ e = ESent ContextCanceled ∨ Down e.

(** The answer to an EVALSHA of [h], the runs it caused and what they left. *)
Inductive reply (s : shared) (c : call) (h : string) : res any → list (string * res any) → D → Prop :=
| reply_ran src v d :
    find (λ x, String.eqb (hash x) h) (loaded s) = Some src →
    eval src (c_keys c) (c_args c) (kept s) = (v, d) → reply s c h v [(src, v)] d
| reply_missing :
    find (λ x, String.eqb (hash x) h) (loaded s) = None → reply s c h (inl noScript) [] (kept s)
| reply_lost src v d e :
    find (λ x, String.eqb (hash x) h) (loaded s) = Some src →
    eval src (c_keys c) (c_args c) (kept s) = (v, d) → fails c e → reply s c h (inl e) [(src, v)] d
| reply_failed e : fails c e → reply s c h (inl e) [] (kept s).

(** Behind [get], behind the first EVALSHA, at the start of the function that
    [Do] runs, and behind [load]. *)
Definition afterGet (c : call) (r : res loadedScript) : pos :=
  match r with inl e => Finished (inl e) | inr ls => AtEval ls end.
Definition afterEval (r : res any) : pos :=
  match r with
  | inr v => Finished (inr v)
  | inl e => if negb (isNoScript e) then Finished (inl e) else AtDo
  end.
Definition startLoad (n : ScriptName) : pos :=
  match Preprocess (script_name n) with inl e => AtShare (inl e) | inr src => AtLoad src end.
Definition afterLoad (n : ScriptName) (r : res loadedScript) : pos :=
  match r with
  | inl e => Finished (inl (Errorw ("reload " +:+ script_name n +:+ " after NOSCRIPT") e))
  | inr ls => AtRetry ls
  end.

(** The flight of [n] lands: whoever waits for it goes on with its result. *)
Definition landed (n : ScriptName) (r : res loadedScript) (c : call) : call :=
  if bool_decide (c_script c = n) then
    match c_pos c with AtWait => moved c (afterLoad n r) [] | _ => c end
  else c.

(** One step of a call. *)
Inductive callStep (s : shared) (i : nat) (c : call) : shared → Prop :=
| step_get :
    c_pos c = AtGet → callStep s i c (put i (moved c (afterGet c (get (table s) (c_script c))) []) s)
| step_eval ls v ran d :
    c_pos c = AtEval ls → reply s c (sha ls) v ran d →
    callStep s i c (mkShared (table s) (group s) (<[i := moved c (afterEval v) ran]> (calls s)) (loaded s) d)
| step_lead :
    c_pos c = AtDo → c_script c ∉ group s →
    callStep s i c (mkShared (table s) (c_script c :: group s)
      (<[i := moved c (startLoad (c_script c)) []]> (calls s)) (loaded s) (kept s))
| step_join :
    c_pos c = AtDo → c_script c ∈ group s → callStep s i c (put i (moved c AtWait []) s)
| step_load src :
    c_pos c = AtLoad src →
    callStep s i c (mkShared (table s) (group s) (<[i := moved c (AtStore (mkLoaded src (hash src))) []]> (calls s))
      (src :: loaded s) (kept s))
| step_load_fails src e (reached : bool) :
    c_pos c = AtLoad src → fails c e →
    callStep s i c (mkShared (table s) (group s)
      (<[i := moved c (AtShare (inl (Errorw ("script load " +:+ script_name (c_script c)) e))) []]> (calls s))
      (if reached then src :: loaded s else loaded s) (kept s))
| step_store ls :
    c_pos c = AtStore ls →
    callStep s i c (mkShared ((c_script c, ls) :: table s) (group s)
      (<[i := moved c (AtShare (inr ls)) []]> (calls s)) (loaded s) (kept s))
| step_share r :
    c_pos c = AtShare r →
    callStep s i c (mkShared (table s) (filter (λ n, n ≠ c_script c) (group s))
      (<[i := moved c (afterLoad (c_script c) r) []]> (landed (c_script c) r <$> calls s)) (loaded s) (kept s))
| step_retry ls v ran d :
    c_pos c = AtRetry ls → reply s c (sha ls) v ran d →
    callStep s i c (mkShared (table s) (group s) (<[i := moved c (Finished v) ran]> (calls s)) (loaded s) d).

(** What happens to the calls: a new one, a cancelled context, a flush. *)
Inductive outside : shared → shared → Prop :=
| out_call s n ks args :
    outside s (mkShared (table s) (group s) (calls s ++ [mkCall n ks args true AtGet []]) (loaded s) (kept s))
| out_cancel s i c :
    calls s !! i = Some c →
    outside s (put i (mkCall (c_script c) (c_keys c) (c_args c) false (c_pos c) (c_ran c)) s)
| out_flush s : outside s (mkShared (table s) (group s) (calls s) [] (kept s)).

Inductive inside : shared → shared → Prop :=
| in_call s i c s' : calls s !! i = Some c → callStep s i c s' → inside s s'.

Definition fstep (s s' : shared) : Prop := inside s s' ∨ outside s s'.

(** From a table that is right, with nobody calling. *)
Definition starting (s : shared) : Prop := coherent Preprocess hash (table s) ∧ group s = [] ∧ calls s = [].

(** ** The invariant *)

Hypothesis eval_answers : ∀ src ks args d e, (eval src ks args d).1 = inl e → isNoScript e = false.
Hypothesis down_answers : ∀ e, Down e → isNoScript e = false.
Hypothesis hash_inj : ∀ a b, hash a = hash b → a = b.

(** An entry of the table for [n]. *)
Definition entry (n : ScriptName) (ls : loadedScript) : Prop :=
  Preprocess (script_name n) = inr (source ls) ∧ sha ls = hash (source ls).

(** What a call that has ended got: the answer of the one run of its script; or an
    error, after at most one run of it, and after none if the error is NOSCRIPT. *)
Definition ended (c : call) (r : res any) : Prop :=
  match r with
  | inr v => ∃ src, Preprocess (script_name (c_script c)) = inr src ∧ c_ran c = [(src, inr v)]
  | inl e => c_ran c = [] ∨
      isNoScript e = false ∧ ∃ src v, Preprocess (script_name (c_script c)) = inr src ∧ c_ran c = [(src, v)]
  end.

Definition call_ok (c : call) : Prop :=
  match c_pos c with
  | Finished r => ended c r
  | AtEval ls | AtRetry ls | AtStore ls | AtShare (inr ls) => entry (c_script c) ls ∧ c_ran c = []
  | AtLoad src => Preprocess (script_name (c_script c)) = inr src ∧ c_ran c = []
  | _ => c_ran c = []
  end.

(** [i] leads the flight of [n]. *)
Definition leads (s : shared) (n : ScriptName) (i : nat) : Prop :=
  ∃ c, calls s !! i = Some c ∧ c_script c = n ∧ leading (c_pos c) = true.

Record flight_ok (s : shared) : Prop := mkFlightOk {
  fo_table : coherent Preprocess hash (table s);
  fo_group : ∀ n, n ∈ group s ↔ ∃ i, leads s n i;
  fo_one : ∀ n i j, leads s n i → leads s n j → i = j;
  fo_wait : ∀ i c, calls s !! i = Some c → c_pos c = AtWait → c_script c ∈ group s;
  fo_calls : ∀ i c, calls s !! i = Some c → call_ok c;
}.

Lemma fails_answers c e : fails c e → isNoScript e = false.
Proof using down_answers. intros [[_ ->]|?]; [done | by apply down_answers]. Qed.

(** What an EVALSHA of one's own script can bring. *)
Lemma reply_own s c ls v ran d :
  entry (c_script c) ls → reply s c (sha ls) v ran d →
  ran = [] ∧ (v = inl noScript ∨ ∃ e, v = inl e ∧ isNoScript e = false) ∨
  ∃ v0, ran = [(source ls, v0)] ∧ match v with inr _ => v = v0 | inl e => isNoScript e = false end.
Proof using eval_answers down_answers hash_inj.
  intros [_ Hs] [src v' d' Hf He|Hf|src v' d' e Hf He Hx|e Hx]; rewrite ?Hs in *.
  - right. exists v'. apply (find_hash hash hash_inj) in Hf as ->. split; [done|]. destruct v' as [e|]; [|done].
    eapply eval_answers. by erewrite He.
  - left. eauto.
  - right. exists v'. apply (find_hash hash hash_inj) in Hf as ->. split; [done|]. by apply (fails_answers c).
  - left. split; [done|]. right. eexists. split; [done|]. by apply (fails_answers c).
Qed.

(** A step that moves one call only. *)
Lemma leads_insert s s' i c c' n j :
  calls s !! i = Some c → calls s' = <[i := c']> (calls s) → c_script c' = c_script c →
  leads s' n j ↔ (if decide (j = i) then c_script c = n ∧ leading (c_pos c') = true else leads s n j).
Proof.
  intros Hi E Hn. unfold leads. rewrite E. destruct (decide (j = i)) as [->|Hne].
  - rewrite list_lookup_insert_eq by (by eapply lookup_lt_Some). split.
    + intros (x & [= <-] & Hx & Hl). by rewrite <-Hn.
    + intros [Hx Hl]. exists c'. by rewrite Hn.
  - by rewrite list_lookup_insert_ne.
Qed.

(** The steps that leave the group alone: neither into nor out of a flight. *)
Lemma ok_moves s s' i c c' :
  flight_ok s → calls s !! i = Some c → calls s' = <[i := c']> (calls s) → c_script c' = c_script c →
  group s' = group s → coherent Preprocess hash (table s') → leading (c_pos c') = leading (c_pos c) →
  (c_pos c' = AtWait → c_script c ∈ group s) → call_ok c' → flight_ok s'.
Proof.
  intros [Ht Hg H1 Hw Hc] Hi E Hn Eg Ht' Hl Hwt Hok.
  assert (Hsame : ∀ n j, leads s' n j ↔ leads s n j).
  { intros n j. rewrite (leads_insert s s' i c c') by done. destruct (decide (j = i)) as [->|]; [|done].
    rewrite Hl. unfold leads. rewrite Hi. naive_solver. }
  split; [done | | | |].
  - intros n. rewrite Eg, Hg. by setoid_rewrite Hsame.
  - intros n j k. rewrite !Hsame. apply H1.
  - intros j x. rewrite E, Eg. destruct (decide (j = i)) as [->|Hne].
    + rewrite list_lookup_insert_eq by (by eapply lookup_lt_Some). intros [= <-]. by rewrite Hn.
    + rewrite list_lookup_insert_ne by done. apply Hw.
  - intros j x. rewrite E. destruct (decide (j = i)) as [->|Hne].
    + rewrite list_lookup_insert_eq by (by eapply lookup_lt_Some). by intros [= <-].
    + rewrite list_lookup_insert_ne by done. apply Hc.
Qed.

(** Taking the lead of a flight nobody is on. *)
Lemma ok_lead s i c p :
  flight_ok s → calls s !! i = Some c → c_pos c = AtDo → c_script c ∉ group s → leading p = true →
  call_ok (moved c p []) →
  flight_ok (mkShared (table s) (c_script c :: group s) (<[i := moved c p []]> (calls s)) (loaded s) (kept s)).
Proof.
  intros [Ht Hg H1 Hw Hc] Hi Hp Hn Hl Hok. set (s' := mkShared _ _ _ _ _).
  assert (Hlead : ∀ n j, leads s' n j ↔ if decide (j = i) then c_script c = n else leads s n j).
  { intros n j. rewrite (leads_insert s s' i c (moved c p [])) by done. cbn. destruct (decide (j = i)); [|done]. naive_solver. }
  assert (Hno : ∀ j, ¬ leads s (c_script c) j) by (intros j Hj; apply Hn, Hg; eauto).
  split; [done | | | |].
  - intros n. cbn [group s']. rewrite elem_of_cons, Hg. setoid_rewrite Hlead. split.
    + intros [->|[j Hj]]; [exists i; by rewrite decide_True|]. exists j. destruct (decide (j = i)) as [->|]; [|done].
      destruct Hj as (x & Hx & _ & Hlx). rewrite Hi in Hx. injection Hx as <-. by rewrite Hp in Hlx.
    + intros [j Hj]. destruct (decide (j = i)); [by left | right; eauto].
  - intros n j k. rewrite !Hlead. destruct (decide (j = i)), (decide (k = i)); try congruence; [| |by apply H1].
    + intros <- Hk. by destruct (Hno k).
    + intros Hj <-. by destruct (Hno j).
  - intros j x. cbn. destruct (decide (j = i)) as [->|Hne].
    + rewrite list_lookup_insert_eq by (by eapply lookup_lt_Some). intros [= <-]. cbn. by intros ->.
    + rewrite list_lookup_insert_ne by done. intros Hx Hpx. apply elem_of_cons. right. by eapply Hw.
  - intros j x. cbn. destruct (decide (j = i)) as [->|Hne].
    + rewrite list_lookup_insert_eq by (by eapply lookup_lt_Some). by intros [= <-].
    + rewrite list_lookup_insert_ne by done. apply Hc.
Qed.

Lemma landed_script n r c : c_script (landed n r c) = c_script c.
Proof. unfold landed. case_bool_decide; [|done]. by destruct (c_pos c). Qed.

Lemma afterLoad_calm n r : leading (afterLoad n r) = false ∧ afterLoad n r ≠ AtWait.
Proof. by destruct r. Qed.

Lemma landed_leading n r c : leading (c_pos (landed n r c)) = leading (c_pos c).
Proof.
  unfold landed. case_bool_decide; [|done]. destruct (c_pos c) eqn:E; try by rewrite E. cbn. apply afterLoad_calm.
Qed.

Lemma landed_waits n r c : c_pos (landed n r c) = AtWait → c_script c ≠ n ∧ c_pos c = AtWait.
Proof.
  unfold landed. case_bool_decide; [|done]. destruct (c_pos c) eqn:E; rewrite ?E; try done. cbn. by intros ?%afterLoad_calm.
Qed.

Lemma afterLoad_ok c r :
  c_ran c = [] → match r with inr ls => entry (c_script c) ls | inl _ => True end →
  call_ok (moved c (afterLoad (c_script c) r) []).
Proof.
  intros Hr He. unfold call_ok, moved. destruct r as [e|ls]; cbn; rewrite Hr; [by left | done].
Qed.

(** The end of a flight: its leader and whoever waits get the result. *)
Lemma ok_share s i c r :
  flight_ok s → calls s !! i = Some c → c_pos c = AtShare r →
  flight_ok (mkShared (table s) (filter (λ n, n ≠ c_script c) (group s))
    (<[i := moved c (afterLoad (c_script c) r) []]> (landed (c_script c) r <$> calls s)) (loaded s) (kept s)).
Proof.
  intros [Ht Hg H1 Hw Hc] Hi Hp. set (s' := mkShared _ _ _ _ _). set (n0 := c_script c).
  assert (Hr : c_ran c = [] ∧ match r with inr ls => entry n0 ls | inl _ => True end).
  { pose proof (Hc i c Hi) as Hok. unfold call_ok in Hok. rewrite Hp in Hok. destruct r; naive_solver. }
  assert (Hat : calls s' !! i = Some (moved c (afterLoad n0 r) [])).
  { cbn. apply list_lookup_insert_eq. rewrite length_fmap. by eapply lookup_lt_Some. }
  assert (Hother : ∀ j, j ≠ i → calls s' !! j = landed n0 r <$> calls s !! j).
  { intros j Hne. cbn. by rewrite list_lookup_insert_ne, list_lookup_fmap. }
  assert (Hlead : ∀ n j, leads s' n j ↔ n ≠ n0 ∧ leads s n j).
  { intros n j. unfold leads. destruct (decide (j = i)) as [->|Hne].
    - rewrite Hat, Hi. split.
      + intros (x & [= <-] & _ & Hl). cbn in Hl. by rewrite (proj1 (afterLoad_calm _ _)) in Hl.
      + intros [Hn (x & [= <-] & Hx & _)]. done.
    - rewrite Hother by done. split.
      + intros (y & (x & Hx & ->)%fmap_Some & Hn & Hl). rewrite landed_script in Hn. rewrite landed_leading in Hl.
        split; [|by exists x]. intros ->. apply Hne, (H1 n0 j i); [by exists x | exists c; rewrite Hp; done].
      + intros [_ (x & Hx & Hn & Hl)]. exists (landed n0 r x). by rewrite Hx, landed_script, landed_leading. }
  split; [done | | | |].
  - intros n. cbn [group s']. rewrite list_elem_of_filter, Hg. setoid_rewrite Hlead. split.
    + intros [Hn [j Hj]]. by exists j.
    + intros (j & Hn & Hj). split; [done | by exists j].
  - intros n j k. rewrite !Hlead. intros [_ Hj] [_ Hk]. by eapply H1.
  - intros j y Hy Hpy. cbn [group s']. apply list_elem_of_filter. destruct (decide (j = i)) as [->|Hne].
    { rewrite Hat in Hy. injection Hy as <-. by apply afterLoad_calm in Hpy. }
    rewrite Hother in Hy by done. apply fmap_Some in Hy as (x & Hx & ->). rewrite landed_script.
    apply landed_waits in Hpy as [Hn Hpx]. split; [done | by eapply Hw].
  - intros j y Hy. destruct (decide (j = i)) as [->|Hne].
    { rewrite Hat in Hy. injection Hy as <-. apply afterLoad_ok; apply Hr. }
    rewrite Hother in Hy by done. apply fmap_Some in Hy as (x & Hx & ->). pose proof (Hc j x Hx) as Hok.
    unfold landed. case_bool_decide as En; [|done]. destruct (c_pos x) eqn:Ex; try exact Hok.
    unfold call_ok in Hok. rewrite Ex in Hok. rewrite <-En. apply afterLoad_ok; [done|]. rewrite En. apply Hr.
Qed.

Lemma callStep_ok s i c s' : flight_ok s → calls s !! i = Some c → callStep s i c s' → flight_ok s'.
Proof using eval_answers down_answers hash_inj.
  intros Hok Hi Hs. pose proof (fo_calls s Hok i c Hi) as Hc. unfold call_ok in Hc.
  assert (Hmove : ∀ s' p ran, calls s' = <[i := moved c p ran]> (calls s) → group s' = group s →
    coherent Preprocess hash (table s') → leading p = leading (c_pos c) → (p = AtWait → c_script c ∈ group s) →
    call_ok (moved c p ran) → flight_ok s').
  { intros s1 p ran E Eg Et El Ew Ek. by eapply (ok_moves s s1 i c (moved c p ran)). }
  destruct Hs as [Hp|ls v ran d Hp Hr|Hp Hn|Hp Hn|src Hp|src e reached Hp He|ls Hp|r Hp|ls v ran d Hp Hr]; rewrite Hp in Hc, Hmove.
  - eapply Hmove; [done | done | apply Hok | | | ]; unfold get;
      (destruct (script_get _ _) as [ls|] eqn:E; cbn; [|try done]); try done.
    + unfold call_ok. cbn. rewrite Hc. split; [|done]. by apply (fo_table s Hok).
    + unfold call_ok. cbn. rewrite Hc. by left.
  - destruct Hc as [He Hran]. eapply Hmove; [done | done | apply Hok | | |].
    + destruct v as [e|v]; cbn; [by destruct (isNoScript e) | done].
    + destruct v as [e|v]; cbn; [by destruct (isNoScript e) | done].
    + unfold call_ok, moved. rewrite Hran. destruct (reply_own s c ls v ran d He Hr) as [[-> Hv]|(v0 & -> & Hv)].
      * destruct Hv as [->|(e & -> & Hn)]; cbn; [done|]. rewrite Hn. cbn. by left.
      * destruct v as [e|v]; cbn; [rewrite Hv; cbn; right; split; [done|] | subst v0]; destruct He as [He _]; eauto.
  - unfold startLoad. destruct (Preprocess _) as [e|src] eqn:E; apply ok_lead; try done; by unfold call_ok; cbn; rewrite Hc.
  - eapply Hmove; [done | done | apply Hok | done | done |]. unfold call_ok. cbn. by rewrite Hc.
  - eapply Hmove; [done | done | apply Hok | done | done |]. unfold call_ok. cbn. destruct Hc as [Hc ->]. done.
  - eapply Hmove; [done | done | apply Hok | done | done |]. unfold call_ok. cbn. by destruct Hc as [Hc ->].
  - destruct Hc as [[H1 H2] Hran]. eapply Hmove; [done | done | | done | done |].
    + apply coherent_cons; [done | done | apply Hok].
    + unfold call_ok. cbn. by rewrite Hran.
  - by apply ok_share.
  - destruct Hc as [He Hran]. eapply Hmove; [done | done | apply Hok | done | done |].
    unfold call_ok, moved. rewrite Hran. destruct (reply_own s c ls v ran d He Hr) as [[-> Hv]|(v0 & -> & Hv)].
    + destruct Hv as [->|(e & -> & Hn)]; cbn; by left.
    + destruct v as [e|v]; cbn; [right; split; [done|] | subst v0]; destruct He as [He _]; eauto.
Qed.

Lemma outside_ok s s' : flight_ok s → outside s s' → flight_ok s'.
Proof.
  intros Hok Hs. revert Hok. destruct Hs as [s0 n ks args|s0 i c Hi|s0]; intros Hok.
  - destruct Hok as [Ht Hg H1 Hw Hc]. set (c0 := mkCall n ks args true AtGet []).
    assert (Hsnoc : ∀ j c, (calls s0 ++ [c0]) !! j = Some c → calls s0 !! j = Some c ∨ c = c0).
    { intros j c [?|[_ E]]%lookup_app_Some; [by left|]. apply list_lookup_singleton_Some in E as [_ <-]. by right. }
    assert (Hlead : ∀ m j, leads (mkShared (table s0) (group s0) (calls s0 ++ [c0]) (loaded s0) (kept s0)) m j ↔ leads s0 m j).
    { intros m j. split; intros (c & E & Hx & Hl); cbn in E.
      - apply Hsnoc in E as [E| ->]; [by exists c | done].
      - exists c. cbn. by rewrite (lookup_app_l_Some _ _ _ _ E). }
    split; [exact Ht | | | |].
    + intros m. cbn [group]. rewrite Hg. by setoid_rewrite Hlead.
    + intros m j k. rewrite !Hlead. apply H1.
    + intros j c. cbn [calls group]. intros [E| ->]%Hsnoc; [by apply Hw with j | done].
    + intros j c. cbn [calls]. intros [E| ->]%Hsnoc; [by apply Hc with j | done].
  - eapply (ok_moves s0 _ i c); try done; [apply Hok | intros; by eapply (fo_wait s0 Hok)|].
    apply (fo_calls s0 Hok i c Hi).
  - by destruct Hok as [Ht Hg H1 Hw Hc].
Qed.

Lemma fstep_ok s s' : flight_ok s → fstep s s' → flight_ok s'.
Proof using eval_answers down_answers hash_inj.
  intros Hok [Hs|Hs]; [|by eapply outside_ok]. revert Hok. destruct Hs as [s0 i c s1 Hi Hs]. intros Hok.
  by eapply callStep_ok.
Qed.

Lemma starting_ok s : starting s → flight_ok s.
Proof.
  intros (Ht & Hg & Hc). unfold leads. split; unfold leads; rewrite ?Hg, ?Hc; [done | | | |].
  - intros n. split; [by intros ?%not_elem_of_nil | by intros (i & c & E & _)].
  - by intros n i j (c & E & _).
  - by intros i c.
  - by intros i c.
Qed.

Lemma flight_reachable s0 s : starting s0 → rtc fstep s0 s → flight_ok s.
Proof using eval_answers down_answers hash_inj.
  intros H0%starting_ok Hr. induction Hr as [|x y z Hs _ IH]; [done|]. by apply IH, (fstep_ok x).
Qed.

(** ** Nobody is left waiting *)

Definition weight (p : pos) : nat :=
  match p with
  | AtGet => 7 | AtEval _ => 6 | AtDo => 5 | AtLoad _ => 4 | AtStore _ => 3 | AtShare _ | AtWait => 2
  | AtRetry _ => 1 | Finished _ => 0
  end.

(** The steps a call has left at most, and those all calls have. *)
Definition due (c : call) : nat := weight (c_pos c).
Definition work (s : shared) : nat := sum_list_with due (calls s).

Lemma work_insert (l : list call) i c c' :
  l !! i = Some c →
  (sum_list_with due (<[i := c']> l) + due c =
   sum_list_with due l + due c')%nat.
Proof.
  revert i. induction l as [|x l IH]; intros [|i] E; try done; [cbn in E; injection E as ->; cbn; lia|].
  specialize (IH i E). change (<[S i := c']> (x :: l)) with (x :: <[i := c']> l). cbn [sum_list_with]. lia.
Qed.

Lemma work_landed n r (l : list call) :
  (sum_list_with due (landed n r <$> l) ≤ sum_list_with due l)%nat.
Proof.
  induction l as [|c l IH]; [done|]. rewrite fmap_cons. cbn [sum_list_with].
  assert (due (landed n r c) ≤ due c)%nat; [|lia].
  unfold due, landed. case_bool_decide; [|done]. destruct (c_pos c) eqn:E; rewrite ?E; try done. destruct r; cbn; lia.
Qed.

Lemma work_decreases s s' : inside s s' → (work s' < work s)%nat.
Proof.
  intros [s0 i c s1 Hi Hs].
  assert (Hm : ∀ p ran, (weight p < weight (c_pos c))%nat →
    (sum_list_with due (<[i := moved c p ran]> (calls s0)) < work s0)%nat).
  { intros p ran Hlt. pose proof (work_insert (calls s0) i c (moved c p ran) Hi) as E. unfold due in E at 2 4. cbn in E. unfold work. lia. }
  destruct Hs as [Hp|ls v ran d Hp Hr|Hp Hn|Hp Hn|src Hp|src e reached Hp He|ls Hp|r Hp|ls v ran d Hp Hr];
    unfold work at 1; cbn [calls put].
  - apply Hm. rewrite Hp. unfold get. destruct (script_get _ _); cbn; lia.
  - apply Hm. rewrite Hp. destruct v as [e|v]; cbn; [destruct (isNoScript e); cbn|]; lia.
  - apply Hm. rewrite Hp. unfold startLoad. destruct (Preprocess _); cbn; lia.
  - apply Hm. rewrite Hp. cbn. lia.
  - apply Hm. rewrite Hp. cbn. lia.
  - apply Hm. rewrite Hp. cbn. lia.
  - apply Hm. rewrite Hp. cbn. lia.
  - pose proof (work_landed (c_script c) r (calls s0)) as Hl.
    assert (Hi' : (landed (c_script c) r <$> calls s0) !! i = Some c).
    { rewrite list_lookup_fmap, Hi. cbn. unfold landed. rewrite Hp. by case_bool_decide. }
    pose proof (work_insert _ i c (moved c (afterLoad (c_script c) r) []) Hi') as E.
    unfold due in E at 2 4. rewrite Hp in E. unfold work. destruct r; cbn [moved afterLoad c_pos weight] in E |- *; lia.
  - apply Hm. rewrite Hp. cbn. lia.
Qed.

(** Every EVALSHA is answered. *)
Lemma reply_some s c h : ∃ v ran d, reply s c h v ran d.
Proof.
  destruct (find (λ x, String.eqb (hash x) h) (loaded s)) as [src|] eqn:E; [|by eexists _, _, _; apply reply_missing].
  destruct (eval src (c_keys c) (c_args c) (kept s)) as [v d] eqn:Ev. eexists _, _, _. by eapply reply_ran.
Qed.

(** A call that is neither done nor waiting can go on. *)
Lemma call_moves s i c :
  calls s !! i = Some c → c_pos c ≠ AtWait → (∀ r, c_pos c ≠ Finished r) → ∃ s', inside s s'.
Proof.
  intros Hi Hw Hf. enough (∃ s', callStep s i c s') as [s' Hs] by (exists s'; by econstructor).
  destruct (c_pos c) as [|ls| |src|ls|r| |ls|r] eqn:Hp; try done.
  - eexists. by apply step_get.
  - destruct (reply_some s c (sha ls)) as (v & ran & d & Hr). eexists. by eapply step_eval.
  - destruct (decide (c_script c ∈ group s)); eexists; [by apply step_join | by apply step_lead].
  - eexists. by eapply step_load.
  - eexists. by eapply step_store.
  - eexists. by eapply step_share.
  - destruct (reply_some s c (sha ls)) as (v & ran & d & Hr). eexists. by eapply step_retry.
  - by destruct (Hf r).
Qed.

Definition finished (c : call) : bool := match c_pos c with Finished _ => true | _ => false end.

Lemma all_move s : flight_ok s → (∃ s', inside s s') ∨ ∀ i c, calls s !! i = Some c → finished c = true.
Proof.
  intros Hok. destruct (decide (Forall (λ c, finished c = true) (calls s))) as [Ha|Hn].
  { right. intros i c Hi. by eapply Forall_lookup_1 in Ha. }
  left. apply not_Forall_Exists in Hn; [|intros x; cbn; solve_decision].
  apply Exists_exists in Hn as (c & Hin & Hc). apply list_elem_of_lookup in Hin as [i Hi].
  destruct (decide (leading (c_pos c) = true)) as [Hl|Hl].
  { apply (call_moves s i c Hi); [by intros E; rewrite E in Hl | intros r E; by rewrite E in Hl]. }
  destruct (c_pos c) eqn:Hp; try (by apply (call_moves s i c Hi); rewrite Hp); try done.
  - destruct (proj1 (fo_group s Hok (c_script c)) (fo_wait s Hok i c Hi Hp)) as [j (x & Hx & _ & Hlx)].
    apply (call_moves s j x Hx); [by intros E; rewrite E in Hlx | intros r E; by rewrite E in Hlx].
  - exfalso. apply Hc. unfold finished. by rewrite Hp.
Qed.


(** ** After a flush

    Redis has lost any number of scripts and nothing else goes wrong: no further
    flush, no cancelled context, no broken connection. *)

Definition calmStep (s s' : shared) : Prop :=
  inside s s' ∨ ∃ n ks args,
    s' = mkShared (table s) (group s) (calls s ++ [mkCall n ks args true AtGet []]) (loaded s) (kept s).

Definition calm_call (cached : list string) (c : call) : Prop :=
  c_live c = true ∧
  match c_pos c with
  | AtStore ls | AtRetry ls => source ls ∈ cached
  | AtShare r => ∃ ls, r = inr ls ∧ source ls ∈ cached
  | Finished r => ∃ src, Preprocess (script_name (c_script c)) = inr src ∧ c_ran c = [(src, r)]
  | _ => True
  end.

(** Every script has its entry, and every call is on its way. *)
Definition calm (s : shared) : Prop :=
  (∀ n, is_Some (script_get (table s) n)) ∧ ∀ i c, calls s !! i = Some c → calm_call (loaded s) c.

Hypothesis never_down : ∀ e, ¬ Down e.

Lemma calm_grows l l' c : (∀ x, x ∈ l → x ∈ l') → calm_call l c → calm_call l' c.
Proof.
  intros Hs [Hl Hp]. split; [done|]. destruct (c_pos c); try done; auto. destruct Hp as (ls & -> & Hin). eauto.
Qed.

Lemma calm_put s s' i c c' :
  calm s → calls s !! i = Some c → calls s' = <[i := c']> (calls s) →
  (∀ n, is_Some (script_get (table s') n)) → (∀ x, x ∈ loaded s → x ∈ loaded s') → calm_call (loaded s') c' → calm s'.
Proof.
  intros [_ Hc] Hi E Ht Hsub Hc'. split; [done|]. intros j x. rewrite E. destruct (decide (j = i)) as [->|Hne].
  - rewrite list_lookup_insert_eq by (by eapply lookup_lt_Some). by intros [= <-].
  - rewrite list_lookup_insert_ne by done. intros Hx. eapply calm_grows; [done | by eapply Hc].
Qed.

(** Nothing fails, so that an EVALSHA says what it found. *)
Lemma reply_calm s c ls v ran d :
  c_live c = true → entry (c_script c) ls → reply s c (sha ls) v ran d →
  ran = [(source ls, v)] ∧ match v with inl e => isNoScript e = false | inr _ => True end ∨ ran = [] ∧ v = inl noScript ∧ source ls ∉ loaded s.
Proof using eval_answers hash_inj never_down.
  intros Hl [_ Hs] Hr. assert (Hf : ∀ e, ¬ fails c e) by (intros e [[E _]|Hd]; [congruence | by eapply never_down]).
  destruct Hr as [src v' d' E He|E|src v' d' e E He Hx|e Hx]; try (by destruct (Hf e)).
  - rewrite Hs in E. apply (find_hash hash hash_inj) in E as ->. left. split; [done|]. destruct v' as [e|]; [|done].
    eapply eval_answers. by erewrite He.
  - right. split_and!; [done..|]. intros Hin%list_elem_of_In. pose proof (find_none _ _ E _ Hin) as Hne. cbn in Hne.
    by rewrite Hs, String.eqb_refl in Hne.
Qed.

Lemma calm_step s s' : flight_ok s → calm s → calmStep s s' → calm s'.
Proof using eval_answers down_answers hash_inj never_down.
  intros Hok Hcalm [Hin|(n & ks & args & ->)].
  2: { split; [apply Hcalm|]. intros j c. cbn [calls loaded]. intros [E|[_ E]]%lookup_app_Some; [by eapply Hcalm|].
       by apply list_lookup_singleton_Some in E as [_ <-]. }
  revert Hok Hcalm. destruct Hin as [s i c s' Hi Hs]. intros Hok Hcalm.
  pose proof (fo_calls s Hok i c Hi) as Hc. unfold call_ok in Hc. pose proof Hcalm as [Ht Hcs].
  destruct (Hcs i c Hi) as [Hlive Hp']. assert (Hnf : ∀ e, ¬ fails c e).
  { intros e [[E _]|Hd]; [congruence | by eapply never_down]. }
  assert (Hput : ∀ s' p ran, calls s' = <[i := moved c p ran]> (calls s) → (∀ n, is_Some (script_get (table s') n)) →
    (∀ x, x ∈ loaded s → x ∈ loaded s') → calm_call (loaded s') (moved c p ran) → calm s').
  { intros s1 p ran E E1 E2 E3. by eapply (calm_put s s1 i c). }
  destruct Hs as [Hp|ls v ran d Hp Hr|Hp Hn|Hp Hn|src Hp|src e reached Hp He|ls Hp|r Hp|ls v ran d Hp Hr];
    rewrite Hp in Hc, Hp'; try (by destruct (Hnf e)).
  - eapply Hput; [done | done | done|]. unfold get. by destruct (Ht (c_script c)) as [ls ->].
  - eapply Hput; [done | done | done|]. destruct Hc as [He Hran].
    destruct (reply_calm s c ls v ran d Hlive He Hr) as [[-> Hv]|(-> & -> & _)]; [|done]. split; [done|]. cbn.
    rewrite Hran. destruct v as [e|v]; cbn in *; [rewrite Hv; cbn|]; eexists; (split; [apply He | done]).
  - eapply Hput; [done | done | done|]. unfold startLoad. destruct (Ht (c_script c)) as [ls E].
    by destruct (fo_table s Hok _ _ E) as [-> _].
  - by eapply Hput.
  - eapply Hput; [done | done | cbn; set_solver|]. split; [done|]. cbn. set_solver.
  - eapply Hput; [done | | done|].
    + intros n. cbn. case_bool_decide; [by eexists | done].
    + split; [done|]. cbn. eauto.
  - destruct Hp' as (ls & -> & Hin). split; [done|]. intros j x. cbn [calls loaded].
    destruct (decide (j = i)) as [->|Hne].
    { rewrite list_lookup_insert_eq by (rewrite length_fmap; by eapply lookup_lt_Some). by intros [= <-]. }
    rewrite list_lookup_insert_ne, list_lookup_fmap by done. intros (y & Hy & ->)%fmap_Some.
    destruct (Hcs j y Hy) as [Hl Hpy]. unfold landed. case_bool_decide; [|done].
    destruct (c_pos y) eqn:Ey; by unfold calm_call; cbn; rewrite ?Ey.
  - eapply Hput; [done | done | done|]. destruct Hc as [He Hran].
    destruct (reply_calm s c ls v ran d Hlive He Hr) as [[-> Hv]|(_ & _ & Hno)]; [|done]. split; [done|]. cbn.
    rewrite Hran. eexists. split; [apply He | done].
Qed.

Lemma calm_reachable s0 s :
  starting s0 → (∀ n, is_Some (script_get (table s0) n)) → rtc calmStep s0 s → flight_ok s ∧ calm s.
Proof using eval_answers down_answers hash_inj never_down.
  intros H0 Ht Hr. assert (Hc0 : calm s0).
  { destruct H0 as (_ & _ & E). split; [done|]. intros i c. by rewrite E. }
  apply starting_ok in H0. clear Ht. induction Hr as [|x y z Hs _ IH]; [done|].
  apply IH; [|by eapply calm_step]. eapply fstep_ok; [done|].
  destruct Hs as [Hs|(n & ks & args & ->)]; [by left | right; constructor].
Qed.
End flight.

(** ** Properties *)

Section theorems.
Variable Preprocess : string → res string.
Context {D : Type}.
Variable eval : string → list string → list any → D → res any * D.
Variable hash : string → string.
Variable Down : err → Prop.

(** Scripts and the connection do not report NOSCRIPT, which only the cache does,
    and hashes tell the sources apart. *)
Definition telling : Prop :=
  (∀ src ks args d e, (eval src ks args d).1 = inl e → isNoScript e = false) ∧
  (∀ e, Down e → isNoScript e = false) ∧ (∀ a b, hash a = hash b → a = b).

Abbreviation fstep := (fstep Preprocess D eval hash Down).
Abbreviation starting := (starting Preprocess D hash).

(** C29. However many goroutines call [Run] at once, whenever
    their contexts are cancelled, the connection breaks or Redis is flushed: the
    table stays right, no two goroutines load the same script at the same time,
    whoever waits for a load waits for one that is under way, and a call that
    has returned caused at most one run, of its own script, whose answer it got
    if it reports success, and none if it reports NOSCRIPT. *)
Theorem single_flight_safe s0 s :
  telling → starting s0 → rtc fstep s0 s →
  coherent Preprocess hash (table D s) ∧
  (∀ n i j, leads D s n i → leads D s n j → i = j) ∧
  (∀ i c, calls D s !! i = Some c → c_pos c = AtWait → ∃ j, leads D s (c_script c) j) ∧
  (∀ i c r, calls D s !! i = Some c → c_pos c = Finished r → ended Preprocess c r).
Proof.
  intros (He & Hd & Hh) H0 Hr. pose proof (flight_reachable _ _ _ _ _ He Hd Hh s0 s H0 Hr) as [Ht Hg H1 Hw Hc].
  split_and!; [done | done | |].
  - intros i c Hi Hp. apply Hg. by eapply Hw.
  - intros i c r Hi Hp. pose proof (Hc i c Hi) as Hok. unfold call_ok in Hok. by rewrite Hp in Hok.
Qed.

(** C30. No call hangs: whatever the interleaving, each step of
    a call brings the number of steps left down, which is seven for each call at
    most, and as long as a call has not returned some call can take a step, so
    that the waiters of a flight always get its result. *)
Theorem calls_return s0 s :
  telling → starting s0 → rtc fstep s0 s →
  (∀ s', inside Preprocess D eval hash Down s s' → (work D s' < work D s)%nat) ∧
  (work D s ≤ 7 * length (calls D s))%nat ∧
  ((∃ s', inside Preprocess D eval hash Down s s') ∨ ∀ i c, calls D s !! i = Some c → finished c = true).
Proof.
  intros (He & Hd & Hh) H0 Hr. split_and!.
  - intros s'. apply work_decreases.
  - unfold work. induction (calls D s) as [|c l IH]; [done|]. cbn [sum_list_with length].
    assert (due c ≤ 7)%nat by (unfold due; destruct (c_pos c); cbn; lia). lia.
  - eapply all_move, flight_reachable; eauto.
Qed.

(** After a flush nobody notices: with every script in
    the table, whatever Redis has left of its cache, any number of concurrent
    calls, interleaved in any way, each run their own script exactly once and
    return what it answered, as long as nothing else fails. *)
Theorem flush_goes_unnoticed s0 s i c r :
  telling → (∀ e, ¬ Down e) → starting s0 → (∀ n, is_Some (script_get (table D s0) n)) →
  rtc (calmStep Preprocess D eval hash Down) s0 s → calls D s !! i = Some c → c_pos c = Finished r →
  ∃ src, Preprocess (script_name (c_script c)) = inr src ∧ c_ran c = [(src, r)].
Proof.
  intros (He & Hd & Hh) Hn H0 Ht Hr Hi Hp.
  destruct (calm_reachable _ _ _ _ _ He Hd Hh Hn s0 s H0 Ht Hr) as [_ [_ Hc]].
  destruct (Hc i c Hi) as [_ Hf]. by rewrite Hp in Hf.
Qed.
(** The context of the goroutine that happens to lead a
    flight decides for all: if it is cancelled while the load is under way, each
    goroutine that waits for the same script may return "context canceled"
    although its own context is live and Redis is well. *)
Theorem cancellation_spreads (s : shared D) i c src :
  calls D s !! i = Some c → c_pos c = AtLoad src → c_live c = false →
  ∃ s', rtc (inside Preprocess D eval hash Down) s s' ∧
    ∀ j x, calls D s !! j = Some x → c_script x = c_script c → c_pos x = AtWait →
      ∃ x' e, calls D s' !! j = Some x' ∧ c_live x' = c_live x ∧ c_pos x' = Finished (inl e) ∧ Is e ContextCanceled = true.
Proof.
  intros Hi Hp Hl. set (e := Errorw ("script load " +:+ script_name (c_script c)) (ESent ContextCanceled)).
  set (c1 := moved c (AtShare (inl e)) []).
  set (s1 := mkShared D (table D s) (group D s) (<[i := c1]> (calls D s)) (loaded D s) (kept D s)).
  assert (H1 : calls D s1 !! i = Some c1) by (apply list_lookup_insert_eq; by eapply lookup_lt_Some).
  eexists. split.
  { eapply (rtc_l _ s s1); [|eapply rtc_l; [|apply rtc_refl]].
    - eapply in_call; [exact Hi|]. apply (step_load_fails _ _ _ _ _ s i c src (ESent ContextCanceled) false Hp). by left.
    - eapply in_call; [exact H1|]. by apply step_share. }
  intros j x Hx Hn Hw. cbn [calls]. assert (Hne : j ≠ i) by (intros ->; congruence).
  rewrite list_lookup_insert_ne, list_lookup_fmap by done. unfold s1. cbn [calls].
  rewrite list_lookup_insert_ne, Hx by done. cbn [fmap option_fmap option_map].
  assert (landed (c_script c1) (inl e) x = moved x (afterLoad (c_script c) (inl e)) []) as ->.
  { unfold landed. rewrite bool_decide_eq_true_2 by done. by rewrite Hw. }
  eexists _, _. split; [reflexivity|]. by split_and!.
Qed.
(** ** One caller is a flight of its own

    The program of Scripter, run against a Redis that is flushed before the
    commands the list names, is one of the runs of the step relation. *)
Section solo.
Variables (n : ScriptName) (ks : list string) (args : list any).

Definition alone (p : pos) (ran : list (string * res any)) : call := mkCall n ks args true p ran.

(** The only call, in a state of the sequential server. *)
Definition solo (t : scripts) (g : list ScriptName) (p : pos) (ran : list (string * res any)) (w : rstate D) : shared D :=
  mkShared D t g [alone p ran] (cache D w) (data D w).

(** A flush decision of the sequential server. *)
Lemma solo_tick t g p ran w : rtc fstep (solo t g p ran w) (solo t g p ran (tick D w)).
Proof.
  unfold tick. destruct w as [l d [|[] fs]]; cbn [flushes cache data]; try apply rtc_refl.
  apply rtc_once. right. apply (out_flush D (mkShared D t g _ l d)).
Qed.

(** A step of the call. *)
Lemma solo_step t g p ran w t' g' p' ran' w' :
  callStep Preprocess D eval hash Down (solo t g p ran w) 0 (alone p ran)
    (solo t' g' p' (ran ++ ran') w') →
  rtc fstep (solo t g p ran w) (solo t' g' p' (ran ++ ran') w').
Proof. intros Hs. apply rtc_once. left. by eapply (in_call _ _ _ _ _ _ 0). Qed.

(** The two places from which a call sends its script. *)
Lemma solo_eval t g ls v ran w w' :
  redis D eval hash w (REvalSha CtxCaller (sha ls) ks args) = (v, w') →
  ∃ ran', rtc fstep (solo t g (AtEval ls) ran w) (solo t g (afterEval v) ran' w') ∧
          rtc fstep (solo t g (AtRetry ls) ran w) (solo t g (Finished v) ran' w').
Proof.
  intros Hr. assert (∃ ran', cache D w' = cache D (tick D w) ∧ ∀ p,
    reply D eval hash Down (solo t g p ran (tick D w)) (alone p ran) (sha ls) v ran' (data D w')) as (ran' & Hc & Hrep).
  { cbn [redis] in Hr. destruct (find _ _) as [src|] eqn:E.
    - destruct (eval src _ _ _) as [v' d] eqn:Ev. injection Hr as <- <-. eexists. split; [done|]. intros p. by eapply reply_ran.
    - injection Hr as <- <-. eexists. split; [done|]. intros p. by apply reply_missing. }
  exists (ran ++ ran'). split; (etrans; [apply solo_tick|]); apply solo_step; unfold solo at 2; rewrite Hc.
  - by eapply (step_eval _ _ _ _ _ (solo t g (AtEval ls) ran (tick D w)) 0%nat).
  - by eapply (step_retry _ _ _ _ _ (solo t g (AtRetry ls) ran (tick D w)) 0%nat).
Qed.

Lemma solo_stay t g p ran w t' g' p' w' :
  callStep Preprocess D eval hash Down (solo t g p ran w) 0 (alone p ran)
    (solo t' g' p' (ran ++ []) w') →
  rtc fstep (solo t g p ran w) (solo t' g' p' ran w').
Proof. intros Hs%solo_step. by rewrite app_nil_r in Hs. Qed.

(** The end of a flight that nobody joined. *)
Lemma solo_share t r ran w : rtc fstep (solo t [n] (AtShare r) ran w) (solo t [] (afterLoad n r) ran w).
Proof.
  apply solo_stay. pose proof (step_share Preprocess D eval hash Down (solo t [n] (AtShare r) ran w) 0 (alone (AtShare r) ran) r eq_refl) as Hs.
  cbn in Hs. by rewrite decide_False in Hs by tauto.
Qed.

Lemma solo_load t ran w :
  let '(r, t', w') := (run (redis D eval hash) (load Preprocess t n) w).1 in
  rtc fstep (solo t [] AtDo ran w) (solo t' [] (afterLoad n r) ran w').
Proof.
  assert (Hl : rtc fstep (solo t [] AtDo ran w) (solo t [n] (startLoad Preprocess n) ran w)).
  { apply solo_stay. apply (step_lead Preprocess D eval hash Down (solo t [] AtDo ran w) 0); [done | by intros ?%not_elem_of_nil]. }
  unfold load, startLoad in *. destruct (Preprocess _) as [e|src]; cbn.
  { etrans; [exact Hl | apply solo_share]. }
  etrans; [exact Hl|]. etrans; [apply solo_tick|].
  set (ls := mkLoaded src (hash src)). set (w' := mkRState D (src :: cache D (tick D w)) (data D (tick D w)) (flushes D (tick D w))).
  etrans; [apply (solo_stay _ _ _ _ _ t [n] (AtStore ls) w')|].
  { apply (step_load Preprocess D eval hash Down (solo t [n] (AtLoad src) ran (tick D w)) 0 (alone (AtLoad src) ran) src eq_refl). }
  etrans; [|apply (solo_share _ (inr ls))]. apply solo_stay.
  apply (step_store Preprocess D eval hash Down (solo t [n] (AtStore ls) ran w') 0 (alone (AtStore ls) ran) ls eq_refl).
Qed.

(** What the program of one caller does, with any flushes, is a run of the step
    relation to the same answer, table and server. *)
Theorem run_is_a_flight t w :
  let '(r, t', w') := (run (redis D eval hash) (Run Preprocess t n ks args) w).1 in
  ∃ ran, rtc fstep (solo t [] AtGet [] w) (solo t' [] (Finished r) ran w').
Proof.
  assert (Hg : rtc fstep (solo t [] AtGet [] w) (solo t [] (afterGet (alone AtGet []) (get t n)) [] w)).
  { apply solo_stay. by apply (step_get _ _ _ _ _ (solo t [] AtGet [] w) 0). }
  unfold Run. destruct (get t n) as [e|ls]; [by exists []|].
  rewrite run_bind. cbn [run ask]. destruct (redis D eval hash w _) as [v w1] eqn:E1. cbn [fst snd].
  destruct (solo_eval t [] ls v [] w w1 E1) as (ran & He & _).
  assert (He' := transitivity Hg He). clear Hg He.
  destruct v as [e|v]; cbn [afterEval] in He'; [|by exists ran].
  destruct (isNoScript e) eqn:En; cbn [negb] in *; [|by exists ran].
  rewrite run_bind. cbn [run ask]. change (redis D eval hash w1 (RLog _ _ _)) with (tt, w1). cbn beta iota zeta.
  rewrite run_bind. pose proof (solo_load t ran w1) as Hl.
  destruct (run _ (load _ _ _) w1) as [[[r t'] w2] l2] eqn:E2. cbn [fst snd] in *.
  assert (Hall := transitivity He' Hl). destruct r as [e'|ls']; cbn [afterLoad] in Hall; [by exists ran|].
  rewrite run_bind. cbn [run ask fst snd]. destruct (redis D eval hash w2 _) as [v w3] eqn:E3. cbn [fst snd].
  destruct (solo_eval t' [] ls' v ran w2 w3 E3) as (ran' & _ & Hr). exists ran'. by etrans.
Qed.
End solo.
End theorems.

(** ** Concrete runs *)

Definition everyScript : scripts := (λ n, (n, mkLoaded (script_name n) (script_name n))) <$> allScripts.

Abbreviation healthy := (λ _ : err, False).
Abbreviation state := (shared Z).

(** A server that has lost every script. *)
Definition flushed : state := mkShared Z everyScript [] [] [] 41.

(** The flight of one caller, in seven steps. *)
Definition caller (p : pos) (ran : list (string * res any)) : call := mkCall Pause [] [] true p ran.
Definition pauseScript : loadedScript := mkLoaded "pause-7" "pause-7".

Lemma everyScript_found n : script_get everyScript n = Some (mkLoaded (script_name n) (script_name n)).
Proof. by destruct n. Qed.

Lemma everyScript_coherent : coherent ownName id everyScript.
Proof. intros n ls. rewrite everyScript_found. by intros [= <-]. Qed.

Lemma counting_tells Down : (∀ e, Down e → isNoScript e = false) → telling countScript id Down.
Proof. intros Hd. split_and!; [done | done | done]. Qed.

Lemma flushed_starting : starting ownName Z id flushed.
Proof. split_and!; [apply everyScript_coherent | done | done]. Qed.

(** A step of the call at [i], whose kind the reader names. *)
Ltac call_step i k :=
  eapply rtc_l; [left; eapply (in_call _ _ _ _ _ _ i); [reflexivity | k; try reflexivity] | cbn].

Lemma one_flight :
  rtc (calmStep ownName Z countScript id healthy) flushed
    (mkShared Z ((Pause, pauseScript) :: everyScript) [] [caller (Finished (inr (AInt64 42))) [("pause-7", inr (AInt64 42))]]
      ["pause-7"] 42).
Proof.
  eapply rtc_l; [right; by exists Pause, [], []|]. cbn.
  call_step 0%nat ltac:(apply step_get).
  call_step 0%nat ltac:(apply (step_eval _ _ _ _ _ _ _ _ pauseScript (inl noScript) [] 41); [|apply reply_missing]).
  call_step 0%nat ltac:(apply step_lead; [|by intros ?%not_elem_of_nil]).
  call_step 0%nat ltac:(eapply step_load).
  call_step 0%nat ltac:(eapply step_store).
  call_step 0%nat ltac:(eapply step_share).
  call_step 0%nat ltac:(apply (step_retry _ _ _ _ _ _ _ _ pauseScript (inr (AInt64 42)) [("pause-7", inr (AInt64 42))] 42);
    [|by eapply reply_ran]).
  apply rtc_refl.
Qed.

Lemma one_flight_steps :
  rtc (fstep ownName Z countScript id healthy) flushed
    (mkShared Z ((Pause, pauseScript) :: everyScript) [] [caller (Finished (inr (AInt64 42))) [("pause-7", inr (AInt64 42))]]
      ["pause-7"] 42).
Proof.
  eapply (rtc_subrel (calmStep ownName Z countScript id healthy)); [|apply one_flight].
  intros s s' [Hs|(n & ks & args & ->)]; [by left | right; constructor].
Qed.

Lemma single_flight_safe_witness :
  ended ownName (caller (Finished (inr (AInt64 42))) [("pause-7", inr (AInt64 42))]) (inr (AInt64 42)).
Proof.
  eapply (single_flight_safe ownName countScript id healthy _ _ (counting_tells healthy (λ _, False_ind _)) flushed_starting
    one_flight_steps); [by apply (list_lookup_singleton_Some _ 0%nat) | reflexivity].
Defined.

Lemma calls_return_witness :
  (work Z (mkShared Z ((Pause, pauseScript) :: everyScript) []
    [caller (Finished (inr (AInt64 42%Z))) [("pause-7", inr (AInt64 42%Z))]] ["pause-7"] 42%Z) ≤ 7)%nat.
Proof.
  apply (calls_return ownName countScript id healthy flushed _ (counting_tells healthy (λ _, False_ind _)) flushed_starting
    one_flight_steps).
Defined.

Lemma flush_goes_unnoticed_witness :
  ∃ src, ownName "pause-7" = inr src ∧
    c_ran (caller (Finished (inr (AInt64 42))) [("pause-7", inr (AInt64 42))]) = [(src, inr (AInt64 42))].
Proof.
  apply (flush_goes_unnoticed ownName countScript id healthy flushed _ 0 _ _ (counting_tells healthy (λ _, False_ind _))
    (λ _ Hf, Hf) flushed_starting (λ n, ex_intro _ _ (everyScript_found n)) one_flight eq_refl eq_refl).
Defined.

(** Two callers found the script gone; the first leads and is cancelled. *)
Definition cancelledLeader : state :=
  mkShared Z everyScript [Pause] [mkCall Pause [] [] false (AtLoad "pause-7") []; caller AtWait []] [] 41.

Lemma cancelledLeader_reached : rtc (fstep ownName Z countScript id healthy) flushed cancelledLeader.
Proof.
  do 2 (eapply rtc_l; [right; apply (out_call _ _ Pause [] [])|]; cbn).
  call_step 0%nat ltac:(apply step_get).
  call_step 1%nat ltac:(apply step_get).
  call_step 0%nat ltac:(apply (step_eval _ _ _ _ _ _ _ _ pauseScript (inl noScript) [] 41); [|apply reply_missing]).
  call_step 1%nat ltac:(apply (step_eval _ _ _ _ _ _ _ _ pauseScript (inl noScript) [] 41); [|apply reply_missing]).
  call_step 0%nat ltac:(apply step_lead; [|by intros ?%not_elem_of_nil]).
  call_step 1%nat ltac:(apply step_join; [|by left]).
  eapply rtc_l; [right; by eapply (out_cancel _ _ 0)|]. apply rtc_refl.
Qed.

Lemma cancellation_spreads_witness :
  rtc (fstep ownName Z countScript id healthy) flushed cancelledLeader ∧
  ∃ s', rtc (inside ownName Z countScript id healthy) cancelledLeader s' ∧
    ∃ x' e, calls Z s' !! 1%nat = Some x' ∧ c_live x' = true ∧ c_pos x' = Finished (inl e) ∧ Is e ContextCanceled = true.
Proof.
  split; [exact cancelledLeader_reached|].
  destruct (cancellation_spreads ownName countScript id healthy cancelledLeader 0 _ "pause-7" eq_refl eq_refl eq_refl)
    as (s' & Hr & Hw).
  exists s'. split; [exact Hr|]. apply (Hw 1%nat (caller AtWait [])); reflexivity.
Defined.
