(* ===== verification/Observe.v ===== *)
(** * Observability (observability.go, observability/...)

    The interfaces mkq reports through, their no-op implementations and the
    adapters to slog, Prometheus and OpenTelemetry. The libraries behind the
    adapters are not part of the repository: an adapter is the list of calls it
    makes on them. What Prometheus documents of [With], that it panics unless
    the labels are exactly the declared ones, is the predicate [fits].

    The signals of the worker and of [Add] are the observability requests of
    their programs; [signals_fit_collectors] follows them into the Prometheus
    adapter. *)

From S2P Require Import Prelude GoLib Keys Backoff Effects Json Jobs Proto Cron Config Finalise Worker Dispatch Shutdown Queue Schedule Inspect Redis RedisInv Fencing Concurrent Walk.

(** ** slog values

    The kinds the adapters tell apart; [VOther] is any other kind with the text
    its [String] method gives, [VLogValuer] a value still to be resolved. *)
Inductive slogValue :=
| VString (s : string)
| VInt64 (z : Z)
| VFloat64 (f : float64)
| VBool (x : bool)
| VOther (text : string)
| VLogValuer (v : slogValue).

Record slogAttr := mkSlogAttr { a_Key : string; a_Value : slogValue }.

Fixpoint Resolve (v : slogValue) : slogValue := match v with VLogValuer v => Resolve v | v => v end.

(** [slog.String(k, v)]. *)
Definition slogString (kv : string * string) : slogAttr := mkSlogAttr kv.1 (VString kv.2).

(** ** The interfaces *)

(** What mkq calls on its metrics: name, amount, attributes. *)
Inductive signal :=
| CounterSignal (name : string) (delta : float64) (attrs : list slogAttr)
| HistogramSignal (name : string) (value : float64) (attrs : list slogAttr)
| GaugeSignal (name : string) (delta : float64) (attrs : list slogAttr).

Definition signal_of (r : req) : option signal :=
  match r with
  | RCounter n attrs => Some (CounterSignal n (f64_of_Z 1) (slogString <$> attrs))
  | RHistogram n v attrs => Some (HistogramSignal n v (slogString <$> attrs))
  | RGauge n d attrs => Some (GaugeSignal n (f64_of_Z d) (slogString <$> attrs))
  | _ => None
  end.

Section adapters.
(** [strconv.FormatFloat(f, 'g', -1, 64)], as [slog.Value.String] prints a float. *)
Variable FormatFloat : float64 → string.

Definition value_String (v : slogValue) : string :=
  match Resolve v with
  | VString s => s
  | VInt64 z => FormatInt z
  | VFloat64 f => FormatFloat f
  | VBool x => if x then "true" else "false"
  | VOther s => s
  | VLogValuer _ => ""
  end.

(** ** promadapter.go *)

Inductive vecKind := CounterVec | HistogramVec (buckets : list float64) | GaugeVec.

Record collector := mkCollector { v_name : string; v_labels : list string; v_kind : vecKind }.

Record PromMetrics := mkPromMetrics {
  jobsAdded : collector;
  jobsProcessed : collector;
  handlerDur : collector;
  dispatchWait : collector;
  jobsInFlight : collector;
}.

Record promConfig := mkPromConfig { handlerBuckets : list float64; dispatchBuckets : list float64 }.

Definition PromOption : Type := promConfig → promConfig.
Definition WithHandlerDurationBuckets (l : list float64) : PromOption := λ c, mkPromConfig l (dispatchBuckets c).
Definition WithDispatchWaitBuckets (l : list float64) : PromOption := λ c, mkPromConfig (handlerBuckets c) l.

(** The adapter, and what it hands to [MustRegister]; a nil registerer is
    [false]. *)
Definition promNew (DefBuckets : list float64) (reg : bool) (opts : list PromOption) : PromMetrics * list collector :=
  let cfg := applyOptions opts (mkPromConfig DefBuckets DefBuckets) in
  let m := mkPromMetrics
    (mkCollector MetricJobsAddedTotal ["queue"; "name"] CounterVec)
    (mkCollector MetricJobsProcessedTotal ["queue"; "name"; "status"] CounterVec)
    (mkCollector MetricHandlerDurationSeconds ["queue"; "name"] (HistogramVec (handlerBuckets cfg)))
    (mkCollector MetricDispatchWaitSeconds ["queue"] (HistogramVec (dispatchBuckets cfg)))
    (mkCollector MetricJobsInFlight ["queue"] GaugeVec) in
  (m, if reg then [jobsAdded m; jobsProcessed m; handlerDur m; dispatchWait m; jobsInFlight m] else []).

Definition attrsToLabels (attrs : list slogAttr) : gmap string string :=
  foldl (λ out a, <[a_Key a := value_String (a_Value a)]> out) ∅ attrs.

(** [vec.With(labels).Add(x)] or [.Observe(x)]. *)
Record vecCall := mkVecCall { vc_vec : collector; vc_labels : list (string * string); vc_value : float64 }.

(** [labels[k]], the zero value when absent. *)
Definition label_at (labels : gmap string string) (k : string) : string := default "" (labels !! k).

Definition CounterAdd (m : PromMetrics) (name : string) (delta : float64) (attrs : list slogAttr) : list vecCall :=
  let labels := attrsToLabels attrs in
  if String.eqb name MetricJobsAddedTotal then
    [mkVecCall (jobsAdded m) [("queue", label_at labels AttrQueue); ("name", label_at labels AttrJobName)] delta]
  else if String.eqb name MetricJobsProcessedTotal then
    [mkVecCall (jobsProcessed m) [("queue", label_at labels AttrQueue); ("name", label_at labels AttrJobName);
       ("status", label_at labels AttrProcessStatus)] delta]
  else [].

Definition HistogramObserve (m : PromMetrics) (name : string) (value : float64) (attrs : list slogAttr) : list vecCall :=
  let labels := attrsToLabels attrs in
  if String.eqb name MetricHandlerDurationSeconds then
    [mkVecCall (handlerDur m) [("queue", label_at labels AttrQueue); ("name", label_at labels AttrJobName)] value]
  else if String.eqb name MetricDispatchWaitSeconds then
    [mkVecCall (dispatchWait m) [("queue", label_at labels AttrQueue)] value]
  else [].

Definition GaugeAdd (m : PromMetrics) (name : string) (delta : float64) (attrs : list slogAttr) : list vecCall :=
  let labels := attrsToLabels attrs in
  if String.eqb name MetricJobsInFlight then
    [mkVecCall (jobsInFlight m) [("queue", label_at labels AttrQueue)] delta]
  else [].

Definition promSignal (m : PromMetrics) (s : signal) : list vecCall :=
  match s with
  | CounterSignal n d attrs => CounterAdd m n d attrs
  | HistogramSignal n v attrs => HistogramObserve m n v attrs
  | GaugeSignal n d attrs => GaugeAdd m n d attrs
  end.

(** The Prometheus calls of a log, in order. *)
Definition promCalls (m : PromMetrics) (l : list event) : list vecCall :=
  omap (λ e, signal_of (ev_req e)) l ≫= promSignal m.

(** ** oteladapter.go *)

Inductive otelValue := OString (s : string) | OInt64 (z : Z) | OFloat64 (f : float64) | OBool (x : bool).

Definition toOtelAttrs (attrs : list slogAttr) : list (string * otelValue) :=
  (λ a, (a_Key a, match Resolve (a_Value a) with
                  | VString s => OString s
                  | VInt64 z => OInt64 z
                  | VFloat64 f => OFloat64 f
                  | VBool x => OBool x
                  | v => OString (value_String v)
                  end)) <$> attrs.

(** The calls on an OpenTelemetry tracer and span. *)
Inductive otelCall :=
| OStart (name : string) (attrs : list (string * otelValue))
| OSetAttributes (attrs : list (string * otelValue))
| ORecordError (e : err)
| OSetStatusError (description : string)
| OEnd.

Definition otelStart (name : string) (attrs : list slogAttr) : list otelCall := [OStart name (toOtelAttrs attrs)].
Definition otelSetAttrs (attrs : list slogAttr) : list otelCall := [OSetAttributes (toOtelAttrs attrs)].
Definition otelSetError (e : option err) : list otelCall :=
  match e with None => [] | Some e => [ORecordError e; OSetStatusError (Error e)] end.
Definition otelEnd : list otelCall := [OEnd].

Definition otelCalls (r : req) : list otelCall :=
  match r with
  | RSpanStart n attrs => otelStart n (slogString <$> attrs)
  | RSpanAttrs attrs => otelSetAttrs (slogString <$> attrs)
  | RSpanError e => otelSetError (Some e)
  | RSpanEnd => otelEnd
  | _ => []
  end.

(** ** slogadapter.go *)

Inductive slogLevel := LevelDebug | LevelInfo | LevelWarn | LevelError.

(** The logger behind the adapter: the given one, or the default of [nil]. *)
Definition slogNew {L} (Default : L) (l : option L) : L := default Default l.

Definition slogRecord : Type := slogLevel * string * list slogAttr.

Definition slogDebug (msg : string) (attrs : list slogAttr) : slogRecord := (LevelDebug, msg, attrs).
Definition slogInfo (msg : string) (attrs : list slogAttr) : slogRecord := (LevelInfo, msg, attrs).
Definition slogWarn (msg : string) (attrs : list slogAttr) : slogRecord := (LevelWarn, msg, attrs).
Definition slogError (msg : string) (attrs : list slogAttr) : slogRecord := (LevelError, msg, attrs).

Definition slogCall (r : req) : option slogRecord :=
  match r with
  | RLog Debug msg attrs => Some (slogDebug msg (slogString <$> attrs))
  | RLog Warn msg attrs => Some (slogWarn msg (slogString <$> attrs))
  | RLog ErrorLevel msg attrs => Some (slogError msg (slogString <$> attrs))
  | _ => None
  end.
End adapters.

(** ** The signals mkq emits *)

(** What [With] asks of its labels, and a counter of what is added to it. *)
Definition fits (c : vecCall) : Prop :=
  (vc_labels c).*1 = v_labels (vc_vec c) ∧ (v_kind (vc_vec c) = CounterVec → SFleb f64_zero (vc_value c) = true).

Definition signal_name (s : signal) : string :=
  match s with CounterSignal n _ _ | HistogramSignal n _ _ | GaugeSignal n _ _ => n end.
Definition signal_attrs (s : signal) : list slogAttr :=
  match s with CounterSignal _ _ a | HistogramSignal _ _ a | GaugeSignal _ _ a => a end.
(** What is added or observed. *)
Definition signal_amount (s : signal) : float64 :=
  match s with CounterSignal _ x _ | HistogramSignal _ x _ | GaugeSignal _ x _ => x end.

(** One call, on a registered collector of that name, that cannot panic, with
    the signal's own amount, and its own attributes as label values. *)
Definition delivered (fmt : float64 → string) (m : PromMetrics) (reg : list collector) (s : signal) : Prop :=
  ∃ c, promSignal fmt m s = [c] ∧ vc_vec c ∈ reg ∧ v_name (vc_vec c) = signal_name s ∧ fits c ∧
    vc_value c = signal_amount s ∧ (VString <$> (vc_labels c).*2) = a_Value <$> signal_attrs s.

Lemma reports_delivered fmt DefBuckets opts r s :
  reports r = true → signal_of r = Some s →
  delivered fmt (promNew DefBuckets true opts).1 (promNew DefBuckets true opts).2 s.
Proof.
  destruct r; try done; cbn [reports signal_of]; intros Hr%bool_decide_eq_true [= <-]; cbn in Hr;
    repeat (apply elem_of_cons in Hr as [Hr|Hr]); try (by apply not_elem_of_nil in Hr); injection Hr as -> Ha;
    repeat (destruct attrs as [|[? ?] attrs]; try done); cbn in Ha; simplify_eq; eexists; (split; [reflexivity|]);
    repeat split; cbn; set_solver.
Qed.

(** C36. Whatever a goroutine of the queue runs (a
    producer, a dispatch loop, a stalled check, an administrator), and whatever
    the environment answers: every metrics signal it emits ends up, through the
    Prometheus adapter, as exactly one call on the collector registered under
    that name, with exactly the declared labels, so that [With] cannot panic,
    with the amount the signal carried and its values as labels, none of them
    filled in by default, and never a negative amount on a counter. *)
Theorem signals_fit_collectors `{Codec} `{GoArch} `{CronLib} {T : Type} `{Payload T} {W} (sv : server W) (w0 : W)
    (q : Queue) (p : program (T := T)) fmt DefBuckets opts e s :
  e ∈ log sv (code_of q p) w0 → signal_of (ev_req e) = Some s →
  delivered fmt (promNew DefBuckets true opts).1 (promNew DefBuckets true opts).2 s.
Proof.
  intros He Hs. apply reports_delivered with (ev_req e); [|done].
  pose proof (wp_run sv _ _ w0 (program_reports q p)) as Hall. rewrite forallb_forall in Hall.
  apply Hall, list_elem_of_In, list_elem_of_fmap. by exists e.
Qed.

Lemma signals_fit_collectors_witness :
  delivered (λ _, "") (promNew [] true []).1 (promNew [] true []).2
    (CounterSignal MetricJobsAddedTotal (f64_of_Z 1)
       [mkSlogAttr AttrQueue (VString "email"); mkSlogAttr AttrJobName (VString "email")]).
Proof.
  apply (signals_fit_collectors (H := treeMsgpack) (H0 := treeCodec) (H1 := amd64) (H2 := hourly) (H3 := unitPayload)
    quiet tt sampleQueue (PAdd tt []) (λ _, "") [] []
    (Ev (RCounter MetricJobsAddedTotal [(AttrQueue, "email"); (AttrJobName, "email")]) tt)); [|reflexivity].
  apply list_elem_of_lookup_2 with 5%nat. by vm_compute.
Defined.

(** The spans keep every attribute, in order, and strings as they are. *)
Lemma otel_keeps_attrs fmt attrs :
  (toOtelAttrs fmt attrs).*1 = a_Key <$> attrs ∧
  ∀ k s, mkSlogAttr k (VString s) ∈ attrs → (k, OString s) ∈ toOtelAttrs fmt attrs.
Proof.
  unfold toOtelAttrs. split; [by rewrite <-list_fmap_compose|]. intros k s Hin. apply list_elem_of_fmap.
  by exists (mkSlogAttr k (VString s)).
Qed.
