(* ===== verification/Bench.v ===== *)
(** * The benchmark driver (bench/go/main.go)

    The three modes, from the parsed flags to what the process ends with. What
    the worker's goroutines did until the driver stopped waiting for them is a
    [session]: the handler's runs and whether the deadline came first. *)

From S2P Require Import Prelude GoLib Keys Backoff Effects Json Jobs Proto Cron Config Finalise Worker Queue Loader Scripter Connect.

Record payload := mkPayload { Inbox : string; Body : string }.

(** The flags, and what they are when not given. *)
Record flags := mkFlags {
  f_mode : string;
  f_jobs : Z;
  f_concurrency : Z;
  f_queueName : string;
  f_prefix : string;
  f_addr : string;
  f_timeout : Z;
}.

Definition defaultFlags : flags := mkFlags "" 1000 16 "bench" "mkqbench" "127.0.0.1:6379" (300 * Second).

(** How the process ends: a summary on stdout, [log.Fatalf], or [os.Exit];
    [Blocked] is a [select] with nothing to take. *)
Inductive ending :=
| Summary (m : list (string * any))
| Fatal (text : string)
| Exit (code : Z) (text : string)
| Blocked.

Inductive mode := ModeProduce | ModeConsume | ModeLatency | ModeMissing.

(** The [switch] of [main]. *)
Definition modeOf (s : string) : mode :=
  if String.eqb s "produce" then ModeProduce
  else if String.eqb s "consume" then ModeConsume
  else if String.eqb s "latency" then ModeLatency
  else ModeMissing.

(** [time.Time.Sub], which saturates. *)
Definition timeSub (a b : Z) : Z := Z.max minInt64 (Z.min maxInt64 (a - b)).

(** ** Counting handlers *)

(** The handler's shared state: the atomic counter and whether [done] is closed. *)
Record counting := mkCounting { c_processed : Z; c_closed : bool }.

Definition fresh : counting := mkCounting 0 false.

(** The handler of [runConsume]; closing a closed channel panics. *)
Definition consumeHandler (n : Z) (s : counting) : may_panic counting :=
  let p := c_processed s +! 1 in
  if p =? n then
    if c_closed s then Panics else Returns (mkCounting p true)
  else Returns (mkCounting p (c_closed s)).

(** The handler of [runLatency], entered at [now] with job [id]. *)
Definition latencyHandler (addedAt : gmap string Z) (n now : Z) (id : string) (s : counting * list Z)
    : may_panic (counting * list Z) :=
  let lat := match addedAt !! id with Some t0 => s.2 ++ [timeSub now t0] | None => s.2 end in
  match consumeHandler n s.1 with
  | Panics => Panics
  | Returns c => Returns (c, lat)
  end.

Fixpoint handled (k : nat) (n : Z) (s : counting) : may_panic counting :=
  match k with
  | O => Returns s
  | S k => match consumeHandler n s with Panics => Panics | Returns s => handled k n s end
  end.

(** ** Percentiles *)

Definition index (d : list Z) (i : nat) : may_panic Z :=
  match d !! i with Some x => Returns x | None => Panics end.

Definition percentiles (d : list Z) : may_panic (Z * Z) :=
  match d with
  | [] => Returns (0, 0)
  | _ =>
      let d := merge_sort Z.le d in
      match index d (length d * 50 / 100), index d (length d * 99 / 100) with
      | Returns p50, Returns p99 => Returns (p50, p99)
      | _, _ => Panics
      end
  end.

(** ** The producer *)

(** [runtime.MemStats], as far as it is reported; its [uint64] counters go into
    the summary as [AInt64], which prints them alike. *)
Record memStats := mkMemStats { HeapAlloc : Z; TotalAlloc : Z; NumGC : Z }.

(** [m["jobs"].(int)] finds the entry and its type. *)
Definition addRuntime (ms : memStats) (m : list (string * any)) : list (string * any) :=
  let m := map_set m "heapAllocBytes" (AInt64 (HeapAlloc ms)) in
  let m := map_set m "totalAllocBytes" (AInt64 (TotalAlloc ms)) in
  let m := map_set m "numGC" (AUint32 (NumGC ms)) in
  match map_get m "jobs" with
  | Some (AInt jobs) =>
      if 0 <? jobs then
        map_set m "allocPerJob" (AFloat (f64_div (f64_of_Z (TotalAlloc ms)) (f64_of_Z jobs)))
      else m
  | _ => m
  end.

(** What the handlers did until the [select] was over: each run by its time and
    job, and whether it was the context that ended the wait. *)
Record session := mkSession { entered : list (Z * string); expired : bool }.

Definition handledAll (n : Z) (s : session) : may_panic counting := handled (length (entered s)) n fresh.

(** The runs of the latency handler, in order. *)
Fixpoint measured (addedAt : gmap string Z) (n : Z) (l : list (Z * string)) (s : counting * list Z)
    : may_panic (counting * list Z) :=
  match l with
  | [] => Returns s
  | (now, id) :: l =>
      match latencyHandler addedAt n now id s with Panics => Panics | Returns s => measured addedAt n l s end
  end.

(** [select] on [done] and the context. *)
Definition awaitDone (what : string) (n : Z) (s : session) (c : counting) (k : M ending) : M ending :=
  if expired s then
    mret (Fatal (what +:+ ": timed out after " +:+ FormatInt (c_processed c) +:+ "/" +:+ FormatInt n +:+ " jobs"))
  else if c_closed c then k
  else mret Blocked.

Section drivers.
Context `{Msgpack} `{GoArch} `{Host} `{Payload payload}.
Variable q : Queue.
Variable ms : memStats.
Variable n concurrency_ : Z.

Definition pl : payload := mkPayload "https://example.org/inbox" "hello".

(** [for i := range n]: the index and the error that end the program, or [None]. *)
Fixpoint addAll (k : nat) (i : Z) : M (option (Z * err)) :=
  match k with
  | O => mret None
  | S k =>
      r ← Add q pl [];
      match (r : addResult (T := payload)).2 with
      | Some e => mret (Some (i, e))
      | None => addAll k (i + 1)
      end
  end.

(** The producer of [runLatency]: the time each job was added at, by id. A nil
    job would be dereferenced. *)
Fixpoint addTimed (k : nat) (i : Z) (addedAt : gmap string Z) : M (may_panic ((Z * err) + gmap string Z)) :=
  match k with
  | O => mret (Returns (inr addedAt))
  | S k =>
      now ← ask RNow;
      r ← Add q pl [];
      match (r : addResult (T := payload)) with
      | (_, Some e) => mret (Returns (inl (i, e)))
      | (Some j, None) => addTimed k (i + 1) (<[Job_ID j := now]> addedAt)
      | (None, None) => mret Panics
      end
  end.

Definition addFatal (i : Z) (e : err) : ending := Fatal ("Add[" +:+ FormatInt i +:+ "]: " +:+ Error e).

Definition runProduce : M ending :=
  start ← ask RNow;
  r ← addAll (Z.to_nat n) 0;
  match r with
  | Some (i, e) => mret (addFatal i e)
  | None =>
      stop ← ask RNow;
      let elapsed := timeSub stop start in
      mret (Summary (addRuntime ms
        [("side", AStr "mkq"); ("mode", AStr "produce"); ("jobs", AInt n);
         ("ms", AInt64 (Milliseconds elapsed));
         ("perSec", AFloat (f64_div (f64_of_Z n) (Seconds elapsed)))]))
  end.

(** The worker both modes start. *)
Definition benchWorker : M (res Worker) :=
  Process (Some q) true [WithConcurrency concurrency_; WithIdlePollInterval (10 * Millisecond)].

(** [worker.Stop]'s result is thrown away. *)
Definition runConsume (s : session) : M ending :=
  start ← ask RNow;
  w ← benchWorker;
  match w with
  | inl e => mret (Fatal ("mkq.Process: " +:+ Error e))
  | inr _ =>
      match handledAll n s with
      | Panics => mret Blocked
      | Returns c =>
          awaitDone "consume" n s c (
            stop ← ask RNow;
            let elapsed := timeSub stop start in
            mret (Summary (addRuntime ms
              [("side", AStr "mkq"); ("mode", AStr "consume"); ("jobs", AInt n); ("concurrency", AInt concurrency_);
               ("ms", AInt64 (Milliseconds elapsed));
               ("perSec", AFloat (f64_div (f64_of_Z n) (Seconds elapsed)))])))
      end
  end.

Definition runLatency (s : session) : M (may_panic ending) :=
  a ← addTimed (Z.to_nat n) 0 ∅;
  match a with
  | Panics => mret Panics
  | Returns (inl (i, e)) => mret (Returns (addFatal i e))
  | Returns (inr addedAt) =>
      w ← benchWorker;
      match w with
      | inl e => mret (Returns (Fatal ("mkq.Process: " +:+ Error e)))
      | inr _ =>
          match measured addedAt n (entered s) (fresh, []) with
          | Panics => mret (Returns Blocked)
          | Returns (c, latencies) =>
              match percentiles latencies with
              | Panics => mret Panics
              | Returns (p50, p99) =>
                  e ← awaitDone "latency" n s c (mret (Summary (addRuntime ms
                    [("side", AStr "mkq"); ("mode", AStr "latency"); ("jobs", AInt n);
                     ("concurrency", AInt concurrency_); ("p50ms", AInt64 (Milliseconds p50));
                     ("p99ms", AInt64 (Milliseconds p99))])));
                  mret (Returns e)
              end
          end
      end
  end.
End drivers.

(** [main] behind [flag.Parse]. The deferred [Close] runs when a mode returns;
    [log.Fatalf] and [os.Exit] leave without it. *)
Definition main `{Msgpack} `{GoArch} `{Host} `{Payload payload} (Preprocess : string → res string)
    (ms : memStats) (s : session) (f : flags) : M (may_panic ending) :=
  r ← NewClient Preprocess (mkConfig [f_addr f] 0 (f_prefix f));
  match r with
  | inl e => mret (Returns (Fatal ("mkq.NewClient: " +:+ Error e)))
  | inr (c, _) =>
      q ← Define c (f_queueName f);
      e ← match modeOf (f_mode f) with
          | ModeProduce => e ← runProduce q ms (f_jobs f); mret (Returns e)
          | ModeConsume => e ← runConsume q ms (f_jobs f) (f_concurrency f) s; mret (Returns e)
          | ModeLatency => runLatency q ms (f_jobs f) (f_concurrency f) s
          | ModeMissing => mret (Returns (Exit 2 "missing -mode (produce | consume | latency)"))
          end;
      _ ← match e with Returns (Summary _) => _ ← Close; mret tt | _ => mret tt end;
      mret e
  end.

(** ** Properties *)

Lemma handled_snoc k n s :
  handled (S k) n s = match handled k n s with Panics => Panics | Returns s => consumeHandler n s end.
Proof.
  revert s. induction k as [|k IH]; intros s; cbn [handled]; [by destruct (consumeHandler n s)|].
  destruct (consumeHandler n s) as [s'|]; [|done]. apply IH.
Qed.

(** However many jobs the worker runs, [done] is closed
    once and for all by the [n]-th, so that the driver ends and a surplus job
    never closes it again; with [n] below one it is never closed, and the driver
    runs into its timeout. *)
Theorem done_closed_once k n :
  Z.of_nat k ≤ maxInt64 →
  handled k n fresh = Returns (mkCounting (Z.of_nat k) (bool_decide (1 ≤ n ≤ Z.of_nat k))).
Proof.
  induction k as [|k IH]; intros Hk.
  { cbn. unfold fresh. do 2 f_equal. symmetry. apply bool_decide_eq_false. lia. }
  rewrite handled_snoc, IH by lia. unfold consumeHandler. cbn [c_processed c_closed].
  rewrite i64_id by (unfold in64, minInt64; lia). replace (Z.of_nat k + 1) with (Z.of_nat (S k)) by lia.
  destruct (Z.eqb_spec (Z.of_nat (S k)) n) as [<-|Hne].
  - rewrite bool_decide_eq_false_2 by lia. do 2 f_equal. symmetry. apply bool_decide_eq_true. lia.
  - do 2 f_equal. apply bool_decide_ext. lia.
Qed.

Lemma done_closed_once_witness :
  handled 5 3 fresh = Returns (mkCounting 5 true).
Proof. apply (done_closed_once 5 3). unfold maxInt64. lia. Defined.

(** The percentiles are in range and in order, and both are latencies that were
    measured. *)
Lemma percentiles_ok d :
  d ≠ [] → ∃ p50 p99, percentiles d = Returns (p50, p99) ∧ p50 ∈ d ∧ p99 ∈ d ∧ p50 ≤ p99.
Proof.
  intros Hd. unfold percentiles. destruct d as [|x d]; [done|]. set (l := merge_sort Z.le (x :: d)).
  assert (Hp : l ≡ₚ x :: d) by apply merge_sort_Permutation.
  assert (Hs : Sorted Z.le l) by (apply Sorted_merge_sort; intros a b; lia).
  apply Sorted_StronglySorted in Hs; [|intros a b c; lia].
  assert (Hn : (0 < length l)%nat) by (rewrite Hp; cbn; lia).
  assert (H50 : (length l * 50 / 100 < length l)%nat) by (apply Nat.Div0.div_lt_upper_bound; lia).
  assert (H99 : (length l * 99 / 100 < length l)%nat) by (apply Nat.Div0.div_lt_upper_bound; lia).
  destruct (lookup_lt_is_Some_2 _ _ H50) as [p50 E50], (lookup_lt_is_Some_2 _ _ H99) as [p99 E99].
  unfold index. rewrite E50, E99. exists p50, p99. split; [done|].
  split; [rewrite <-Hp; by eapply list_elem_of_lookup_2|]. split; [rewrite <-Hp; by eapply list_elem_of_lookup_2|].
  destruct (decide (length l * 50 / 100 = length l * 99 / 100)%nat) as [E|Hne]; [rewrite E in E50; simplify_eq; lia|].
  assert (Hlt : (length l * 50 / 100 < length l * 99 / 100)%nat).
  { assert (length l * 50 / 100 ≤ length l * 99 / 100)%nat by (apply Nat.Div0.div_le_mono; lia). lia. }
  revert Hlt E50 E99. generalize (length l * 50 / 100)%nat, (length l * 99 / 100)%nat. clear -Hs.
  induction Hs as [|y l Hl IH Hy]; intros i j Hij Ei Ej; [by rewrite lookup_nil in Ei|].
  destruct j as [|j]; [lia|]. destruct i as [|i]; cbn in Ei, Ej.
  - injection Ei as <-. rewrite Forall_forall in Hy. apply Hy. by eapply list_elem_of_lookup_2.
  - apply (IH i j); [lia | done | done].
Qed.

(** Each run of a job the driver added gives one latency, in order. *)
Lemma measured_counts addedAt n l c lat :
  measured addedAt n l (c, lat) =
    match handled (length l) n c with
    | Panics => Panics
    | Returns c' => Returns (c', lat ++ omap (λ e, timeSub e.1 <$> addedAt !! e.2) l)
    end.
Proof.
  revert c lat. induction l as [|[now id] l IH]; intros c lat; cbn [measured handled length omap list_omap]; [by rewrite app_nil_r|].
  unfold latencyHandler. cbn [fst snd]. destruct (consumeHandler n c) as [c'|]; [|done]. rewrite IH.
  destruct (handled (length l) n c') as [c''|]; [|done]. do 2 f_equal.
  destruct (addedAt !! id); cbn; [by rewrite <-app_assoc | done].
Qed.

Section consume.
Context `{Host}.

(** [Process] on a queue and a handler always gives a worker. *)
Lemma wp_benchWorker q c : wp (benchWorker q c) (λ r _, ∃ w, r = inr w).
Proof.
  unfold benchWorker, Process. cbn [negb]. wp_step. wp_apply wp_true. intros cfg l0 _. do 2 wp_step.
  do 4 (wp_step; wp_apply wp_true; intros _ ? _). wp_step. by eexists.
Qed.

(** The consume mode ends with a summary of its [n] jobs exactly when the handler
    has run that often and the deadline was not first; it never waits for ever
    unless [n] is below one or the jobs run out. *)
Theorem consume_ends q ms n c s :
  Z.of_nat (length (entered s)) ≤ maxInt64 →
  wp (runConsume q ms n c s) (λ e _,
    match e with
    | Summary m => expired s = false ∧ 1 ≤ n ≤ Z.of_nat (length (entered s)) ∧ map_get m "jobs" = Some (AInt n)
    | Fatal _ => expired s = true
    | Exit _ _ => False
    | Blocked => expired s = false ∧ ¬ 1 ≤ n ≤ Z.of_nat (length (entered s))
    end).
Proof.
  intros Hk. unfold runConsume. do 2 wp_step. wp_step. wp_apply wp_benchWorker. intros ? l [w ->].
  unfold handledAll. rewrite done_closed_once by done. unfold awaitDone. cbn [c_closed c_processed].
  destruct (expired s); [by wp_step|]. case_bool_decide as Hn; [|by wp_step].
  do 3 wp_step. split_and!; [done | lia | lia|]. unfold addRuntime. cbn [map_get].
  match goal with |- context [match ?x with Some _ => _ | None => _ end] => assert (x = Some (AInt n)) as -> end.
  { by rewrite !map_get_set_ne. }
  destruct (0 <? n); by rewrite !map_get_set_ne.
Qed.
End consume.
